(* ===== verification/_CoqProject ===== *)
-Q . S2P
Prelude.v
Remainder.v
Apportion.v
Transition.v
TransitionFacts.v
TransitionSafety.v
TransitionLiveness.v
Quantity.v
Shares.v
Api.v
Violation.v
Tree.v
TreeFacts.v
TreeBuild.v
Admission.v
Projection.v
Allowances.v
AllowancesFacts.v
ProjectionFacts.v
Member.v
Domains.v
Assignments.v
AssignmentsFacts.v
AssignmentsHistory.v
Capacity.v
CapacityFacts.v
Usage.v
UsageFacts.v
Kueue.v
KueueApply.v
KueueFacts.v
KueueClaims.v
GangRoom.v
GangMatching.v
GangFit.v
TpuShape.v
Floors.v
FloorsFacts.v
FloorsClaims.v
FloorsWeighted.v
Policy.v
PolicyClaims.v
RoutingWeights.v
RoutingFacts.v
PlanIndices.v
PlanFacts.v
PlanClaims.v
PlanSpec.v
RowOwner.v
BuildPlan.v
RetryLadder.v
LadderFacts.v
SecondaryHolds.v
AlfredSnapshot.v
AlfredLedger.v
Arbiter.v
ArbiterFacts.v
RuntimeInheritance.v
RuntimeFacts.v
RuntimeDescendants.v
Affinity.v
AffinityFacts.v
BatchPlan.v
BatchMembers.v
BatchStep.v
BatchRoll.v
BatchReading.v
ExtraPods.v
