(* ===== verification/Prelude.v ===== *)
(** * Verification of the quota, placement, scheduling and arbitration core of OME

    OME places inference services on a fleet of clusters.  This development
    models the parts of it that decide, that is the packages in which a wrong
    answer silently loses capacity, over-commits hardware or strands a gang of
    pods, and proves what they promise.

    ** The program's parts and how they interact

    - An administrator authors a tree of [AcceleratorQuota] objects on the hub
      cluster.  [pkg/quota/tree] assembles the objects into a tree, reports
      every rule they break, and freezes what hangs below a broken node; the
      admission webhook ([pkg/webhook/admission/acceleratorquota]) compares the
      reports before and after a write.
    - [pkg/quota/projection] splits every leaf's budgets over the member
      clusters ([pkg/quota/shares] does the arithmetic, on the capacity
      [pkg/quota/capacity] adds up from each member's nodes) and renders the
      copies for each member, which assembles them with [pkg/quota/tree] again.
    - On a member, [pkg/quota/backend/kueue], driven by
      [pkg/controller/v1beta1/acceleratorquota/materialize.go], renders the
      tree into Kueue objects, applies them, sweeps orphans and reads back what
      the queues hold; [pkg/quota/usage] rolls that up the tree.
    - [pkg/controller/v1beta1/placement/allocation] divides the replicas of a
      service over clusters and moves a running service from one division to
      another without losing serving capacity.  [pkg/placement/protocol] divides
      the minimums of the other components along with the replicas, and carries
      the result to the members as an execution policy that only moves forward.
      [placement/routing] turns the capacity of the clusters that serve into the
      weights of the traffic map, and [secondary_holds.go] paces the fall of the
      other components' floors while a split shifts.  [pkg/placement/affinity]
      compiles which clusters a service may use and with what weight.
    - On a member, [pkg/controller/v1beta1/workload] runs the instances of a
      component: the plan chooses which instance indexes to keep, the ownership
      table names the one pass that may advance a row, the budgets admit fresh
      updates, and the retry ladder, kept in the status of
      [pkg/controller/v1beta1/inferencereplica], counts and paces the attempts
      at a revision.
    - [inferenceservice/reconcilers/omenative/coordination] paces the roll of a
      group of components that must move together: the starts of a prefill/decode
      pair are counted in batches, planned to keep the ratio of the two sides, and
      no side opens a batch until the batches before it serve.
    - [scheduler/pkg] places the gangs of pods of one replica into a topology
      domain: [topology] chooses the domain, [placement] remembers which gang
      was promised what, [plugins/gangpack] decides whether a domain has room;
      [pkg/tpuslice] reads the shapes of TPU slices and decides whether a set of
      pods fills one.
    - [pkg/alfred] advises moves of running instances.  Its policies propose
      candidates; [alfred/engine] admits the few that are safe, on a snapshot of
      the nodes and with a ledger of what it did in the last hour.
    - [pkg/runtimeinheritance] resolves the serving runtime a service runs on from
      a chain of runtimes, and finds the runtimes an edit concerns.

    ** Which file models which part

    - [Prelude]: outcomes of Go calls (a value, an error or a panic), integers
      at their width, sorted slices, the hint database [ome], lists and maps.
    - [Remainder]: the specification of a largest-remainder split, shared by
      [Apportion] (allocation/apportion.go) and [Shares] (shares/shares.go).
    - [Transition] (allocation/transition.go); its theorems are in
      [TransitionFacts], [TransitionSafety] and [TransitionLiveness].
    - [Quantity]: the interface to [resource.Quantity] and [inf.Dec];
      [Api]: the fields of the API object.
    - [Violation] and [Tree] (quota/tree); [TreeFacts] and [TreeBuild];
      [Admission], the webhook (admission/acceleratorquota/validator.go).
    - [Projection] and [Allowances] (quota/projection); [AllowancesFacts],
      [ProjectionFacts], and [Member], the composition of the hub's side with
      the member's.
    - [Capacity] and [CapacityFacts] (quota/capacity); [Usage] and [UsageFacts]
      (quota/usage).
    - [Kueue] (backend/kueue/render.go, options.go), [KueueApply]
      (backend/kueue/backend.go, usage.go, the controller's materialize.go),
      [KueueFacts] and [KueueClaims].
    - [Domains] (topology/domains.go); [Assignments] (placement/assignments.go),
      [AssignmentsFacts] and [AssignmentsHistory]; [GangRoom]
      (gangpack/nodes.go, gang.go), [GangMatching] and [GangFit].
    - [TpuShape] (tpuslice/shape.go).
    - [Floors] (placement/protocol/floors.go) with [FloorsFacts], [FloorsClaims]
      and [FloorsWeighted]; [Policy] (placement/protocol/policy.go, backend.go)
      and [PolicyClaims].
    - [RoutingWeights] (placement/routing/weight.go) and [RoutingFacts];
      [SecondaryHolds] (placement/secondary_holds.go).
    - [PlanIndices] (workload/plan.go, types/plan.go, the rows of
      types/types.go), [PlanFacts], [PlanClaims] and [PlanSpec], what a plan of
      indexes is in terms of the rows alone; [BuildPlan]
      (the rest of workload/plan.go, types/source.go); [RowOwner]
      (workload/types/owner.go, escalation/budget.go) and [ExtraPods] (the rest of budget.go); [RetryLadder]
      (workload/types/retryblock.go, retryblock_writer.go, failurecause.go,
      status/decision.go, the gate of ops/create_rejection.go,
      escalation/retryblock_prune.go, inferencereplica/convert.go) and
      [LadderFacts].
    - [AlfredSnapshot] (alfred/snapshot/types.go, node_health.go, the accessors of
      config/config.go, the candidates of policy/api.go); [AlfredLedger]
      (engine/state.go); [Arbiter] (engine/arbiter.go) and [ArbiterFacts].
    - [RuntimeInheritance] (runtimeinheritance/*.go); [RuntimeFacts] on resolving,
      [RuntimeDescendants] on descendants.
    - [Affinity] (placement/affinity/selector.go) and [AffinityFacts].
    - [BatchPlan] (coordination/batch_plan.go); [BatchMembers], the reading of a
      member (batch_step.go, pairing_floor.go, status.go, utils/intstr.go,
      workload/query/partition.go, v1beta1convert/convert.go, irprojector);
      [BatchStep], the reading of a group and the answer to a start
      (batch_step.go); [BatchRoll] on the roll, [BatchReading] on the reading.

    A Go struct is a record and a Go function a definition of the same name; a
    pointer that may be nil is an option; a map is a [gmap], and a loop over it
    that the code does not sort is by name here, which no theorem depends on
    except where a file says so.  A method that mutates its receiver returns
    the new state.  Go pointers to tree nodes are names, because every node is
    stored under its name.  An error message is kept as structured data.

    ** What the theorems show

    - Routing (C1, C17): the traffic weights are the capacities in lowest terms,
      or their rounded-up shares of the largest where those do not fit; a weight
      is positive exactly for a cluster that can serve.
    - Splitting (C2, C13): both splits are the largest-remainder split of the
      total and add up exactly.
    - Floors (C9, C12, C33): when a minimum can be divided over homes; that
      the division is exact, gives every home of the primary one replica and is
      otherwise the largest-remainder split; and which secondary floors are held
      and at what, so that lowering them never takes the fleet below its minimum
      of ready instances.
    - Rolling a group (C23, C35, C37): the reading of a group ends and its answer
      to a start is exact; the planned batches reach both counts and keep the
      shares of the two sides within the tolerance, or one Instance; and over
      every history the members stay in lockstep and the roll can reach its end.
    - Authority (C8, C15): a stamped policy is read back as it was, and no history
      of authorized writes brings a stale policy back.
    - Moving (C4, C5, C10, C11): no step takes serving capacity below the smaller of the
      two plans or drains what still serves without a target while the desired
      plan is short, none exceeds the surge allowance; valid input always gets a step;
      and with cooperating members the move completes within a stated number of
      calls.
    - Runtimes (C6, C7): what resolving a runtime answers on every branch, and that
      the descendants of a runtime are exactly those its name leads to in scope.
    - Affinity (C38): a compiled affinity matches and weighs as its terms say,
      the operators, fields and fallbacks of which are written down on the API
      types.
    - Arbitration (C34, C36): what a pass of the arbiter admits, with what is under way
      in the snapshot, stays within the caps, takes only workloads that have
      settled and lands only where there is room; the ledger forgets nothing that
      matters.
    - Instances (C3, C19, C28, C29): the planned indexes are exactly those the rows
      call for, the plan built on them has the count, incarnations, revisions and
      widths the rows record, surge pairs are never broken and sources handed over
      never kept, and every row has the one owner its phase and operation call for.
    - Retries (C26): over every history the attempts at a roll target are counted
      once each, never exceed the policy, and a hold lasts until it is released.
    - Tree (C16, C18, C21, C22): a build is clean exactly when the objects form a
      well-formed fleet; a node that is not frozen has a sound line to the
      root, and a frozen one reports a finding that is determined; the webhook
      allows a write exactly when it adds no finding, on a well-formed fleet
      exactly when the fleet it leaves is well formed.
    - Projection (C30-C32): a leaf is granted exactly what was authored or held
      with a reason; what the hub renders for a member assembles there without
      a violation after every single write.
    - Kueue (C39, C40): that a pass of the controller, whatever calls fail, adopts
      nothing of somebody else, leaves frozen nodes alone and, when it reports no
      error, leaves no orphan.
    - Gangs (C20, C24, C25, C27): the matching is maximum, so the reported room is
      exact; the store's indexes agree with its commitments over every history;
      two forming gangs never share a domain or a node.
    - TPU shapes (C14): reading and printing are inverse.

    Theorems beyond these, on the same definitions, stay in their files: among
    them that [Apportion] never panics and on which inputs it fails, the depths and freezing causes of [Build],
    draining reservations and stale callbacks of [Assignments], [Tile], the
    contents of a projection, the high-water marks and weighted floors; that
    targets move one way and reach zero only after a drain
    ([advance_one_direction], [advance_zero_after_drain]); that capacity and usage
    are counted once ([Sum_accounts], [Roll_accounts]); what a node is rendered to
    ([Render_leaf]); that members accept no floors but their own resolved counts
    ([CheckReplicaFloors_iff]), surges get distinct unused indexes
    ([surgePass_lowest]) and every update under way is charged once
    ([updates_charged_once]), and what extra pods hold of the surge budget
    ([extra_pods_hold]); and when a node is quarantined ([observeNodeHealth_clear_iff]).
    Four are about what the code does against its comments:
    [Descendants_misses_shadowed], [cooldown_forgotten],
    [partition_counts_instances] and [extra_pods_listing].

    ** Bounds and fuel

    Loops without structural recursion carry fuel: the number of nodes for the
    walks of [Tree] (each visits a node once), the number of slots and nodes
    for the augmenting paths of [GangRoom] (each visits a node once).  Lemmas
    show it never runs short, so no theorem is about an exhausted loop.
    [Transition] is proved for fewer than [2^30] clusters, [Shares] for decimal
    scales within [2^30], [Assignments] for fewer than [2^31] calls and gang
    sizes up to [MaxInt32]: within them no machine integer wraps.  The models
    themselves wrap as the language does.  [Floors] is proved for fewer than
    [2^30] homes and totals that do not round over 64 bits, which no fleet of
    fewer than eight homes can ([few_homes_round]); past that the code's round-up
    wraps, as [ratioTotal_wraps] shows.  [PlanIndices] is proved for rows and
    replicas below [2^30] together, and for rows of distinct indexes: with two
    rows of one index the code can dereference a missing operation, which the
    model returns as no plan ([plan_duplicate_panics]); its searches for a free index carry the size
    of the set as fuel, and run out on no input in those bounds ([surgePass_lowest],
    [addLoop_spec]).  [RetryLadder] needs a maximum of attempts within 32 bits.
    [Arbiter] is proved for figures whose sums fit 64 bits; times are unbounded
    and differences of times saturate as the language's do.  The walk up a chain
    of runtimes carries the depth limit as fuel, the search for descendants the
    entries of its index: [Resolve_exact] and [Descendants_exact] show that
    neither runs out.  The planning loop of [BatchPlan] carries both counts as
    fuel, since every batch starts something, and the search for the next batch
    the length of the plan and the movable count; [pairedBatchPlan_plans] and
    [readBatchStep_answers] show that they suffice.  The batch step is proved for
    counts, steps and rows up to [2^14], past which the product of a batch number
    and a step may wrap; [ExtraPods] for fleets of up to [2^29] pods.

    ** Code outside the repository

    Library code is a parameter with its documented behaviour as laws, each with
    an instance the witnesses compute with: [QuantityOps]/[QuantityLaws] and
    [DecOps]/[DecLaws] (instance [decimal]); [KueueClient]/[KueueWorld], a
    client and the cluster behind it, any of whose calls may fail (instance a
    simulated cluster); [SchedulerLib], what the scheduler framework says about
    pods and nodes; [ParsedZero] and [IsDNS1123Label]; [PolicyJSON] with
    [PolicyJSONLaws], the JSON package's reading and writing of an envelope
    (instance [digitJSON]); [Reader] with [ReaderLaws], a client of the cluster's
    runtimes any of whose calls may fail (instance [fleetReader]); [MergeLib], the
    JSON and strategic-merge libraries, of which nothing is assumed; [LabelLib]
    with [LabelLaws], label selectors (instance [setLabels]); and the printing of
    an object's name and the scaling of a percentage in [BatchMembers], of which
    nothing is assumed.  The backoff of [RetryLadder] multiplies in floating
    point; the product is a parameter of every theorem about it.

    ** Not modelled

    Reconcilers whose substance is reading and writing cluster objects
    (inference service, serving runtime, base model, benchmark, slice
    provisioning, the passes and operations of workloads), cloud and storage clients, the model agent, the
    command line, logging, certificates and generated code: their correctness
    lies in what other systems do.  Within modelled packages: the hash
    [MappingFingerprint], the finalizers and metrics of the quota controller,
    the callbacks of the scheduler framework around the gang core, the pod lists
    the outlived-block prune reads, and log lines.  Of the other deciding
    code, the withholding of allowances in the quota controller's project.go, the
    reservations of the gang scheduler's plugin, the pairing, ratio and sequential
    gates of a rollout group, and the scoring of runtimes and accelerators are not
    modelled: the first three are interleaved with their
    listings of cluster objects, and the last scores in part in floating point. *)

From stdpp Require Export base tactics numbers list strings gmap sorting fin_maps.

(** ** Outcomes of Go calls *)

(** A Go call returns a value, returns an error, or panics.  The error type is
    a parameter, because each package has its own. *)
Inductive outcome (E A : Type) : Type :=
| Ok (a : A)
| Err (e : E)
| Panic.
Arguments Ok {_ _} _.
Arguments Err {_ _} _.
Arguments Panic {_ _}.

Definition obind {E A B} (m : outcome E A) (k : A → outcome E B) : outcome E B :=
  match m with
  | Ok a => k a
  | Err e => Err e
  | Panic => Panic
  end.

Definition omap_err {E F A} (f : E → F) (m : outcome E A) : outcome F A :=
  match m with
  | Ok a => Ok a
  | Err e => Err (f e)
  | Panic => Panic
  end.

Declare Scope go_scope.
Delimit Scope go_scope with go.
Notation "'let?' x := m 'in' k" := (obind m (λ x, k))
  (at level 10, x pattern, m at level 100, k at level 200) : go_scope.

(** A loop over a slice whose body may fail. *)
Fixpoint ofold {E A B} (f : A → B → outcome E A) (a : A) (l : list B) : outcome E A :=
  match l with
  | [] => Ok a
  | b :: l => obind (f a b) (λ a', ofold f a' l)
  end.

Definition is_ok {E A} (m : outcome E A) : bool :=
  match m with Ok _ => true | _ => false end.

Definition no_panic {E A} (m : outcome E A) : Prop := m ≠ Panic.

Lemma obind_Ok_inv {E A B} (m : outcome E A) (k : A → outcome E B) b :
  obind m k = Ok b → ∃ a, m = Ok a ∧ k a = Ok b.
Proof. destruct m; naive_solver. Qed.

Lemma ofold_app {E A B} (f : A → B → outcome E A) a l1 l2 :
  ofold f a (l1 ++ l2) = obind (ofold f a l1) (λ a', ofold f a' l2).
Proof.
  revert a. induction l1 as [|b l1 IH]; intros a; simpl; [done|].
  destruct (f a b); simpl; auto.
Qed.

(** The invariant rule of a failing loop: [P pre a] holds once the slice's
    prefix [pre] has been visited. *)
Lemma ofold_Ok_ind {E A B} (f : A → B → outcome E A) (P : list B → A → Prop) a l a' :
  P [] a →
  (∀ pre x post b b', l = pre ++ x :: post → P pre b → f b x = Ok b' → P (pre ++ [x]) b') →
  ofold f a l = Ok a' → P l a'.
Proof.
  intros H0 Hstep.
  cut (∀ l' pre b, l = pre ++ l' → P pre b → ofold f b l' = Ok a' → P (pre ++ l') a').
  { intros Hc Hf. by apply (Hc l [] a). }
  induction l' as [|x l' IH]; intros pre b Hl HP Hf; simpl in Hf.
  - injection Hf as ->. by rewrite app_nil_r.
  - apply obind_Ok_inv in Hf as (b' & Hb & Hf).
    replace (pre ++ x :: l') with ((pre ++ [x]) ++ l') in * by (by rewrite <-app_assoc).
    eapply IH; [done| |exact Hf]. eapply Hstep; [|exact HP|done].
    by rewrite Hl, <-app_assoc.
Qed.

(** The same for a loop that cannot fail. *)
Lemma foldl_ind {A B} (f : A → B → A) (P : list B → A → Prop) a l :
  P [] a →
  (∀ pre x post b, l = pre ++ x :: post → P pre b → P (pre ++ [x]) (f b x)) →
  P l (foldl f a l).
Proof.
  intros H0 Hstep.
  cut (∀ l' pre b, l = pre ++ l' → P pre b → P (pre ++ l') (foldl f b l')).
  { intros Hc. by apply (Hc l []). }
  induction l' as [|x l' IH]; intros pre b Hl HP; simpl.
  - by rewrite app_nil_r.
  - replace (pre ++ x :: l') with ((pre ++ [x]) ++ l') in * by (by rewrite <-app_assoc).
    apply IH; [done|]. eapply Hstep; [|done]. by rewrite Hl, <-app_assoc.
Qed.

(** A loop whose body always succeeds is a fold. *)
Lemma ofold_total {E A B} (f : A → B → outcome E A) (g : A → B → A) a l :
  (∀ b x, x ∈ l → f b x = Ok (g b x)) → ofold f a l = Ok (foldl g a l).
Proof.
  revert a. induction l as [|x l IH]; intros a H; simpl; [done|].
  rewrite H by set_solver. simpl. apply IH. set_solver.
Qed.

(** ** Machine integers *)

(** [int32] and [int64] conversions and arithmetic wrap in two's complement;
    [uint64] wraps modulo [2^64]. *)
Definition wrap_signed (w : Z) (z : Z) : Z :=
  ((z + 2 ^ (w - 1)) mod 2 ^ w - 2 ^ (w - 1))%Z.
Definition i32 (z : Z) : Z := wrap_signed 32 z.
Definition i64 (z : Z) : Z := wrap_signed 64 z.
Definition u64 (z : Z) : Z := (z mod 2 ^ 64)%Z.

Abbreviation MaxInt32 := 2147483647%Z.
Abbreviation MaxInt64 := 9223372036854775807%Z.

Definition int32_range (z : Z) : Prop := (-2147483648 ≤ z ≤ MaxInt32)%Z.
Definition int64_range (z : Z) : Prop := (-9223372036854775808 ≤ z ≤ MaxInt64)%Z.

Lemma wrap_signed_id w z :
  (0 < w)%Z → (- 2 ^ (w - 1) ≤ z < 2 ^ (w - 1))%Z → wrap_signed w z = z.
Proof.
  intros Hw Hz. unfold wrap_signed.
  assert (2 ^ w = 2 * 2 ^ (w - 1))%Z as Hpow.
  { replace w with (Z.succ (w - 1)) at 1 by lia. rewrite Z.pow_succ_r; lia. }
  rewrite Z.mod_small by lia. lia.
Qed.

Lemma i32_id z : int32_range z → i32 z = z.
Proof. intros [??]. apply wrap_signed_id; [lia|]. change (2 ^ (32 - 1))%Z with 2147483648%Z. lia. Qed.

Lemma i64_id z : int64_range z → i64 z = z.
Proof.
  intros [??]. apply wrap_signed_id; [lia|].
  change (2 ^ (64 - 1))%Z with 9223372036854775808%Z. lia.
Qed.

Lemma u64_id z : (0 ≤ z < 2 ^ 64)%Z → u64 z = z.
Proof. apply Z.mod_small. Qed.

Lemma i32_range z : int32_range (i32 z).
Proof.
  unfold int32_range, i32, wrap_signed. change (2 ^ (32 - 1))%Z with 2147483648%Z.
  change (2 ^ 32)%Z with 4294967296%Z.
  pose proof (Z.mod_pos_bound (z + 2147483648) 4294967296). lia.
Qed.

Lemma i64_range z : int64_range (i64 z).
Proof.
  unfold int64_range, i64, wrap_signed. change (2 ^ (64 - 1))%Z with 9223372036854775808%Z.
  change (2 ^ 64)%Z with 18446744073709551616%Z.
  pose proof (Z.mod_pos_bound (z + 9223372036854775808) 18446744073709551616). lia.
Qed.

(** ** Names of objects *)

(** The key of an object, [types.NamespacedName]; a cluster-scoped one has an
    empty namespace. *)
Record NamespacedName := mkName { NNamespace : string; NName : string }.
#[export] Instance NamespacedName_eq_dec : EqDecision NamespacedName.
Proof. solve_decision. Defined.
#[export] Instance NamespacedName_countable : Countable NamespacedName.
Proof.
  apply (inj_countable' (λ n, (NNamespace n, NName n)) (λ p, mkName p.1 p.2)). by intros [].
Defined.

(** ** Sums of integers *)

Definition zsum (l : list Z) : Z := foldr Z.add 0%Z l.

(** The sum of [f] over a slice. *)
Definition zsum_with {A} (f : A → Z) (l : list A) : Z := zsum (f <$> l).

(** The sum of a map's values. *)
Definition map_zsum {K} `{Countable K} (m : gmap K Z) : Z := zsum_with snd (map_to_list m).

Lemma zsum_app l1 l2 : zsum (l1 ++ l2) = (zsum l1 + zsum l2)%Z.
Proof. induction l1 as [|x l1 IH]; simpl; lia. Qed.

Lemma zsum_with_app {A} (f : A → Z) l1 l2 :
  zsum_with f (l1 ++ l2) = (zsum_with f l1 + zsum_with f l2)%Z.
Proof. unfold zsum_with. by rewrite fmap_app, zsum_app. Qed.

Lemma zsum_with_cons {A} (f : A → Z) x l : zsum_with f (x :: l) = (f x + zsum_with f l)%Z.
Proof. done. Qed.

Lemma zsum_with_nil {A} (f : A → Z) : zsum_with f [] = 0%Z.
Proof. done. Qed.

#[export] Instance zsum_perm : Proper ((≡ₚ) ==> (=)) zsum.
Proof. induction 1; simpl; lia. Qed.

#[export] Instance zsum_with_perm {A} (f : A → Z) : Proper ((≡ₚ) ==> (=)) (zsum_with f).
Proof. intros l1 l2 H. unfold zsum_with. by rewrite H. Qed.

Lemma zsum_with_ext {A} (f g : A → Z) l :
  (∀ x, x ∈ l → f x = g x) → zsum_with f l = zsum_with g l.
Proof.
  unfold zsum_with. intros H. f_equal. apply list_fmap_ext. intros i x Hi.
  apply H, list_elem_of_lookup. eauto.
Qed.

Lemma zsum_with_add {A} (f g : A → Z) l :
  zsum_with (λ x, f x + g x)%Z l = (zsum_with f l + zsum_with g l)%Z.
Proof. induction l as [|x l IH]; [done|]. rewrite !zsum_with_cons. lia. Qed.

Lemma zsum_with_scale {A} (f : A → Z) c l :
  zsum_with (λ x, c * f x)%Z l = (c * zsum_with f l)%Z.
Proof. induction l as [|x l IH]; [cbn; lia|]. rewrite !zsum_with_cons. lia. Qed.

Lemma zsum_with_const {A} c (l : list A) :
  zsum_with (λ _, c) l = (c * Z.of_nat (length l))%Z.
Proof. induction l as [|x l IH]; [cbn; lia|]. rewrite zsum_with_cons. simpl length. lia. Qed.

Lemma zsum_with_mono {A} (f g : A → Z) l :
  (∀ x, x ∈ l → f x ≤ g x)%Z → (zsum_with f l ≤ zsum_with g l)%Z.
Proof.
  induction l as [|x l IH]; intros H; [done|]. rewrite !zsum_with_cons.
  assert (f x ≤ g x)%Z by (apply H; set_solver).
  assert (zsum_with f l ≤ zsum_with g l)%Z by (apply IH; set_solver). lia.
Qed.

Lemma zsum_with_nonneg {A} (f : A → Z) l :
  (∀ x, x ∈ l → 0 ≤ f x)%Z → (0 ≤ zsum_with f l)%Z.
Proof.
  intros H. rewrite <-(zsum_with_mono (λ _, 0%Z) f l H), zsum_with_const. lia.
Qed.

(** One strict inequality makes the sums differ. *)
Lemma zsum_with_mono_strict {A} (f g : A → Z) l y :
  (∀ x, x ∈ l → f x ≤ g x)%Z → y ∈ l → (f y < g y)%Z →
  (zsum_with f l < zsum_with g l)%Z.
Proof.
  intros H Hy Hlt. apply list_elem_of_split in Hy as (l1 & l2 & ->).
  rewrite !zsum_with_app, !zsum_with_cons.
  assert (zsum_with f l1 ≤ zsum_with g l1)%Z by (apply zsum_with_mono; set_solver).
  assert (zsum_with f l2 ≤ zsum_with g l2)%Z by (apply zsum_with_mono; set_solver). lia.
Qed.

Lemma zsum_with_elem_le {A} (f : A → Z) l y :
  (∀ x, x ∈ l → 0 ≤ f x)%Z → y ∈ l → (f y ≤ zsum_with f l)%Z.
Proof.
  intros H Hy. apply list_elem_of_split in Hy as (l1 & l2 & ->).
  rewrite zsum_with_app, zsum_with_cons.
  assert (0 ≤ zsum_with f l1)%Z by (apply zsum_with_nonneg; set_solver).
  assert (0 ≤ zsum_with f l2)%Z by (apply zsum_with_nonneg; set_solver). lia.
Qed.

(** A running total over a slice. *)
Lemma foldl_zsum {A} (f : A → Z) a l :
  foldl (λ acc x, acc + f x)%Z a l = (a + zsum_with f l)%Z.
Proof.
  revert a. induction l as [|x l IH]; intros a; [cbn; lia|].
  simpl. rewrite IH, zsum_with_cons. lia.
Qed.

Section map_zsum.
Context {K : Type} `{Countable K}.
Implicit Types m : gmap K Z.

Lemma map_zsum_insert_None m k v :
  m !! k = None → map_zsum (<[k:=v]> m) = (v + map_zsum m)%Z.
Proof. intros Hk. unfold map_zsum. by rewrite map_to_list_insert. Qed.

Lemma map_zsum_insert_Some m k v w :
  m !! k = Some w → map_zsum (<[k:=v]> m) = (v - w + map_zsum m)%Z.
Proof.
  intros Hk. rewrite <-(insert_delete_id m k w) at 2 by done.
  rewrite <-(insert_delete_eq m k v).
  rewrite !map_zsum_insert_None by apply lookup_delete_eq. lia.
Qed.

Lemma map_zsum_empty : map_zsum (∅ : gmap K Z) = 0%Z.
Proof. unfold map_zsum. by rewrite map_to_list_empty. Qed.

(** A sum over the values is a sum over any enumeration of the keys. *)
Lemma map_zsum_keys m ks :
  NoDup ks → (∀ k, k ∈ ks ↔ is_Some (m !! k)) →
  map_zsum m = zsum_with (λ k, default 0%Z (m !! k)) ks.
Proof.
  intros Hnd Hdom. unfold map_zsum.
  assert ((map_to_list m).*1 ≡ₚ ks) as Hp.
  { apply NoDup_Permutation; [apply NoDup_fst_map_to_list|done|].
    intros k. rewrite Hdom, list_elem_of_fmap. split.
    - intros ([k' v] & -> & Hin). apply elem_of_map_to_list in Hin. simpl. eauto.
    - intros [v Hv]. exists (k, v). split; [done|]. by apply elem_of_map_to_list. }
  rewrite <-Hp. unfold zsum_with. rewrite <-list_fmap_compose. f_equal.
  apply list_fmap_ext. intros i [k v] Hi. simpl.
  apply list_elem_of_lookup_2, elem_of_map_to_list in Hi. by rewrite Hi.
Qed.

(** The value a Go map read returns: the zero value when the key is absent. *)
Lemma map_zsum_lookup_le m k :
  (∀ k v, m !! k = Some v → 0 ≤ v)%Z → (default 0 (m !! k) ≤ map_zsum m)%Z.
Proof.
  intros Hpos. unfold map_zsum.
  assert (∀ x, x ∈ map_to_list m → (0 ≤ snd x)%Z) as Hx.
  { intros [k' v] Hin%elem_of_map_to_list. simpl. eauto. }
  destruct (m !! k) as [v|] eqn:Hk; simpl; [|by apply zsum_with_nonneg].
  apply (zsum_with_elem_le snd _ (k, v)); [done|by apply elem_of_map_to_list].
Qed.
End map_zsum.

(** ** Sorting *)

(** What the code asks of a [less] function given to [sort.Slice]: a strict
    weak order. *)
Class StrictWeak {A} (less : A → A → bool) : Prop := {
  sw_asym x y : less x y = true → less y x = false;
  sw_trans x y z : less y x = false → less z y = false → less z x = false;
}.

(** A strict weak order that separates distinct elements. *)
Class StrictTotal {A} (less : A → A → bool) : Prop := {
  st_weak :: StrictWeak less;
  st_eq x y : less x y = false → less y x = false → x = y;
}.

Lemma sw_irrefl {A} (less : A → A → bool) `{!StrictWeak less} x : less x x = false.
Proof. destruct (less x x) eqn:E; [|done]. by pose proof (sw_asym _ _ E); congruence. Qed.

Section sort.
Context {A : Type} (less : A → A → bool).

(** [sort.Slice] and its variants leave a permutation of the slice in which
    no element is [less] than one before it.  The insertion sort below is the
    stable one, which [sort.SliceStable] and [slices.SortStableFunc] require;
    wherever the code uses the unstable variants on keys that can tie, the
    theorems do not depend on the order of the ties. *)
Fixpoint sort_insert (x : A) (l : list A) : list A :=
  match l with
  | [] => [x]
  | y :: l' => if less y x then y :: sort_insert x l' else x :: l
  end.

Definition sort_slice (l : list A) : list A := foldr sort_insert [] l.

Definition not_after (x y : A) : Prop := less y x = false.

Lemma sort_insert_perm x l : sort_insert x l ≡ₚ x :: l.
Proof.
  induction l as [|y l IH]; simpl; [done|].
  destruct (less y x); [|done]. rewrite IH. apply Permutation_swap.
Qed.

Lemma sort_slice_perm l : sort_slice l ≡ₚ l.
Proof. induction l as [|x l IH]; simpl; [done|]. by rewrite sort_insert_perm, IH. Qed.

Lemma elem_of_sort_slice x l : x ∈ sort_slice l ↔ x ∈ l.
Proof. by rewrite sort_slice_perm. Qed.

Lemma length_sort_slice l : length (sort_slice l) = length l.
Proof. by rewrite sort_slice_perm. Qed.

Lemma NoDup_sort_slice l : NoDup (sort_slice l) ↔ NoDup l.
Proof. by rewrite sort_slice_perm. Qed.

(** The order a stable sort leaves: ties keep the order [R] they had. *)
Definition stable_after (R : relation A) (x y : A) : Prop :=
  less x y = true ∨ (less x y = false ∧ less y x = false ∧ R x y).

Context `{!StrictWeak less}.

Lemma sort_insert_stable R x l :
  Forall (R x) l → StronglySorted (stable_after R) l →
  StronglySorted (stable_after R) (sort_insert x l).
Proof.
  induction l as [|y l IH]; simpl; intros HR Hs.
  { repeat constructor. }
  apply StronglySorted_cons in Hs as [Hy Hs].
  apply Forall_cons in HR as [Hxy HR].
  destruct (less y x) eqn:Hyx; apply StronglySorted_cons; split; auto.
  - rewrite sort_insert_perm. constructor; [by left|done].
  - constructor.
    + destruct (less x y) eqn:Hxy'; [by left|by right].
    + apply Forall_forall. intros z Hz.
      rewrite Forall_forall in Hy, HR.
      destruct (less x z) eqn:Hxz; [by left|right].
      split_and!; [done| |by apply HR].
      eapply sw_trans; [exact Hyx|].
      destruct (Hy z Hz) as [?%sw_asym|(?&?&?)]; done.
  - by constructor.
Qed.

(** [sort.SliceStable] keeps the order of elements it does not separate. *)
Lemma sort_slice_stable R l :
  StronglySorted R l → StronglySorted (stable_after R) (sort_slice l).
Proof.
  induction 1 as [|x l ? IH HR]; simpl; [constructor|].
  apply sort_insert_stable; [|done].
  apply Forall_forall. intros y Hy. rewrite elem_of_sort_slice in Hy.
  rewrite Forall_forall in HR. auto.
Qed.

Lemma sort_slice_sorted l : StronglySorted not_after (sort_slice l).
Proof.
  assert (StronglySorted (λ _ _, True) l) as Hl.
  { induction l; constructor; [done|]. by apply Forall_true. }
  apply sort_slice_stable in Hl. revert Hl. generalize (sort_slice l). clear l.
  induction 1 as [|x l ? IH HR]; constructor; [done|].
  eapply Forall_impl; [exact HR|]. intros y [?%sw_asym|(?&?&?)]; done.
Qed.

(** When the order separates the elements present, the sorted slice is a
    function of the set of elements and not of the order they came in. *)
Lemma sort_slice_unique l1 l2 :
  (∀ x y, x ∈ l1 → y ∈ l1 → less x y = false → less y x = false → x = y) →
  l1 ≡ₚ l2 → sort_slice l1 = sort_slice l2.
Proof.
  intros Heq Hp. apply (StronglySorted_unique_strong not_after);
    [|apply sort_slice_sorted..|].
  - intros x y Hx Hy Hxy Hyx. rewrite elem_of_sort_slice in Hx, Hy.
    rewrite <-Hp in Hy. by apply Heq.
  - by rewrite !sort_slice_perm.
Qed.
End sort.
Arguments not_after {_} _ _ _ /.

(** Comparison by a key, and by a first key and then another comparison: the
    two shapes the [less] functions of the code have. *)
#[export] Instance sw_on {A B} (f : A → B) (less : B → B → bool) `{!StrictWeak less} :
  StrictWeak (λ a b, less (f a) (f b)) | 20.
Proof. split; intros; [by apply sw_asym|by eapply sw_trans]. Qed.

Definition lex_less {A B} `{EqDecision B} (f : A → B) (less1 : B → B → bool)
    (less2 : A → A → bool) (a b : A) : bool :=
  if decide (f a = f b) then less2 a b else less1 (f a) (f b).

#[export] Instance sw_lex {A B} `{EqDecision B} (f : A → B) (less1 : B → B → bool)
    (less2 : A → A → bool) `{!StrictTotal less1} `{!StrictWeak less2} :
  StrictWeak (lex_less f less1 less2).
Proof.
  unfold lex_less. split.
  - intros x y. destruct (decide (f x = f y)) as [E|E].
    + rewrite decide_True by done. apply sw_asym.
    + rewrite decide_False by done. apply sw_asym.
  - intros x y z.
    destruct (decide (f y = f x)) as [E1|E1], (decide (f z = f y)) as [E2|E2].
    + rewrite decide_True by congruence. apply sw_trans.
    + rewrite decide_False by congruence. rewrite E1. done.
    + rewrite decide_False by congruence. rewrite E2. done.
    + intros H1 H2. destruct (decide (f z = f x)) as [E3|E3].
      * rewrite E3 in H2. by pose proof (st_eq _ _ H1 H2).
      * by eapply sw_trans.
Qed.

Definition str_lt (a b : string) : bool := String.ltb a b.

Lemma str_lt_false a b : str_lt a b = false ↔ String.le b a.
Proof.
  unfold str_lt, String.ltb, String.le, String.leb. rewrite (String.compare_antisym b a).
  destruct (String.compare a b); simpl; naive_solver.
Qed.

#[export] Instance str_lt_total : StrictTotal str_lt.
Proof.
  split; [split|].
  - intros x y H. destruct (str_lt y x) eqn:E; [|done].
    destruct (total String.le x y) as [Hle|Hle]; apply str_lt_false in Hle; congruence.
  - intros x y z. rewrite !str_lt_false. intros ??. by transitivity y.
  - intros x y. rewrite !str_lt_false. intros ??. by apply (anti_symm String.le).
Qed.

#[export] Instance Zltb_total : StrictTotal Z.ltb.
Proof. split; [split|]; intros; lia. Qed.

#[export] Instance Zgtb_total : StrictTotal Z.gtb.
Proof. split; [split|]; intros; lia. Qed.

Lemma str_lt_irrefl a : str_lt a a = false.
Proof. apply sw_irrefl, _. Qed.

Lemma str_lt_trans a b c : str_lt a b = true → str_lt b c = true → str_lt a c = true.
Proof.
  intros H1 H2. destruct (str_lt a c) eqn:E; [done|].
  pose proof (sw_trans a c b) as H. apply sw_asym in H1 as H1'.
  destruct (str_lt c b) eqn:E'.
  - apply sw_asym in E'. congruence.
  - rewrite (sw_trans c a b) in H2; [done|done|done].
Qed.

(** [slices.Sorted(maps.Keys(m))]. *)
Definition sorted_keys {V} (m : gmap string V) : list string :=
  sort_slice str_lt (map_to_list m).*1.

Section sorted_keys.
Context {V : Type}.
Implicit Types m : gmap string V.

Lemma elem_of_sorted_keys m k : k ∈ sorted_keys m ↔ is_Some (m !! k).
Proof.
  unfold sorted_keys. rewrite elem_of_sort_slice, list_elem_of_fmap. split.
  - intros ([k' v] & -> & Hin). apply elem_of_map_to_list in Hin. simpl. eauto.
  - intros [v Hv]. exists (k, v). split; [done|]. by apply elem_of_map_to_list.
Qed.

Lemma NoDup_sorted_keys m : NoDup (sorted_keys m).
Proof. apply NoDup_sort_slice, NoDup_fst_map_to_list. Qed.

Lemma length_sorted_keys m : length (sorted_keys m) = size m.
Proof.
  unfold sorted_keys. rewrite length_sort_slice, length_fmap.
  by rewrite length_map_to_list.
Qed.
End sorted_keys.

(** A sorted slice without duplicates is strictly increasing. *)
Lemma sorted_strict {A} (less : A → A → bool) `{!StrictTotal less} (l : list A) :
  NoDup l → StronglySorted (λ x y, less x y = true) (sort_slice less l).
Proof.
  intros Hnd. apply (NoDup_sort_slice less) in Hnd. revert Hnd.
  generalize (sort_slice_sorted less l). generalize (sort_slice less l). clear l.
  induction 1 as [|x l ? IH HR]; intros Hnd; constructor; apply NoDup_cons in Hnd as [Hx Hnd].
  - auto.
  - apply Forall_forall. intros y Hy. rewrite Forall_forall in HR.
    destruct (less x y) eqn:E; [done|].
    pose proof (st_eq x y E (HR y Hy)). by subst.
Qed.

Lemma sorted_keys_strict {V} (m : gmap string V) :
  StronglySorted (λ x y, str_lt x y = true) (sorted_keys m).
Proof. apply sorted_strict; [apply _|apply NoDup_fst_map_to_list]. Qed.

Lemma StronglySorted_impl_elem {A} (R S : relation A) (l : list A) :
  (∀ x y, x ∈ l → y ∈ l → R x y → S x y) → StronglySorted R l → StronglySorted S l.
Proof.
  intros Himpl Hs. induction Hs as [|x l ? IH HR]; constructor.
  - apply IH. set_solver.
  - rewrite Forall_forall in HR |- *. intros y Hy. apply Himpl; [left|by right|auto].
Qed.

Lemma ofold_no_panic {E A B} (f : A → B → outcome E A) a l :
  (∀ b x, f b x ≠ Panic) → ofold f a l ≠ Panic.
Proof.
  intros Hf. revert a. induction l as [|x l IH]; intros a; simpl; [done|].
  specialize (Hf a x). destruct (f a x); simpl; auto; congruence.
Qed.

Lemma ofold_no_panic_in {E A B} (f : A → B → outcome E A) a l :
  (∀ b x, x ∈ l → f b x ≠ Panic) → ofold f a l ≠ Panic.
Proof.
  revert a. induction l as [|x l IH]; intros a Hf; simpl; [done|].
  pose proof (Hf a x ltac:(by left)). destruct (f a x); simpl; [|done|congruence].
  apply IH. intros b y Hy. apply Hf. by right.
Qed.

(** A loop that only checks: it passes exactly when every check does. *)
Lemma ofold_check {E B} (f : unit → B → outcome E unit) l :
  ofold f tt l = Ok tt ↔ ∀ x, x ∈ l → f tt x = Ok tt.
Proof.
  induction l as [|x l IH]; simpl.
  { split; [|done]. intros _ x Hx. by apply elem_of_nil in Hx. }
  destruct (f tt x) as [[]| |] eqn:E1; simpl.
  - rewrite IH. set_solver.
  - split; [done|]. intros H. rewrite (H x) in E1 by set_solver. done.
  - split; [done|]. intros H. rewrite (H x) in E1 by set_solver. done.
Qed.

Lemma elem_of_take_in {A} (x : A) n (l : list A) : x ∈ take n l → x ∈ l.
Proof. intros Hx. rewrite <-(take_drop n l). apply elem_of_app. by left. Qed.

Lemma NoDup_take {A} n (l : list A) : NoDup l → NoDup (take n l).
Proof. rewrite <-(take_drop n l) at 1. by intros (? & _ & _)%NoDup_app. Qed.

(** A loop that assigns [f k] under every key of a slice. *)
Lemma foldl_insert_lookup {V} (f : string → V) (t : gmap string V) ks k :
  foldl (λ t k, <[k := f k]> t) t ks !! k = if decide (k ∈ ks) then Some (f k) else t !! k.
Proof.
  revert t. induction ks as [|x ks IH]; intros t; simpl; [done|]. rewrite IH.
  destruct (decide (k ∈ ks)) as [Hin|Hin]; [by rewrite decide_True by set_solver|].
  destruct (decide (k = x)) as [->|Hne].
  - rewrite lookup_insert_eq. by rewrite decide_True by set_solver.
  - rewrite lookup_insert_ne by done. by rewrite decide_False by set_solver.
Qed.

#[export] Instance int32_range_dec z : Decision (int32_range z).
Proof. unfold int32_range. apply _. Defined.
#[export] Instance int64_range_dec z : Decision (int64_range z).
Proof. unfold int64_range. apply _. Defined.

(** A decidable property of every entry of a concrete map, by evaluation. *)
Lemma map_Forall_compute {V} (P : string → V → Prop) `{∀ k v, Decision (P k v)} (m : gmap string V) :
  bool_decide (map_Forall P m) = true → ∀ k v, m !! k = Some v → P k v.
Proof. intros Hm%bool_decide_eq_true k v Hk. by apply (Hm k v). Qed.

Ltac by_entries :=
  match goal with
  | |- ∀ k v, ?m !! k = Some v → @?P k v =>
      let d := constr:(ltac:(intros ? ?; cbv beta; apply _) : ∀ k v, Decision (P k v)) in
      refine (@map_Forall_compute _ P d m _); vm_compute; reflexivity
  end.

(** Discharges the wraps whose argument is in range, innermost first. *)
Ltac unwrap :=
  repeat match goal with
    | |- context [i32 ?x] =>
        lazymatch x with context [i32 _] => fail | context [i64 _] => fail | _ => idtac end;
        rewrite (i32_id x) by (unfold int32_range in *; lia)
    | |- context [i64 ?x] =>
        lazymatch x with context [i32 _] => fail | context [i64 _] => fail | _ => idtac end;
        rewrite (i64_id x) by (unfold int64_range in *; lia)
    end.

(** Sorting the images is the images of the sorted slice. *)
Lemma sort_slice_fmap {A B} (g : A → B) (less : A → A → bool) (less' : B → B → bool) l :
  (∀ x y, less' (g x) (g y) = less x y) → g <$> sort_slice less l = sort_slice less' (g <$> l).
Proof.
  intros Hl. induction l as [|x l IH]; [done|].
  change (sort_slice less (x :: l)) with (sort_insert less x (sort_slice less l)).
  change (sort_slice less' (g <$> x :: l)) with (sort_insert less' (g x) (sort_slice less' (g <$> l))).
  rewrite <-IH. generalize (sort_slice less l). clear l IH. intros l.
  induction l as [|y l IH]; simpl; [done|]. rewrite Hl. destruct (less y x); simpl; [|done].
  f_equal. exact IH.
Qed.

Lemma StronglySorted_lookup_lt {A} (R : relation A) (l : list A) i j x y :
  StronglySorted R l → l !! i = Some x → l !! j = Some y → (i < j)%nat → R x y.
Proof.
  intros Hs. revert i j. induction Hs as [|z l Hs IH HR]; intros i j Hi Hj Hlt; [done|].
  destruct i as [|i], j as [|j]; cbn in *; [lia| |lia|by apply (IH i j); [..|lia]].
  injection Hi as ->. rewrite Forall_forall in HR. apply HR, list_elem_of_lookup. eauto.
Qed.

(** ** Sums over the values of a map *)

Definition map_sum_with {K} `{Countable K} {V} (f : V → Z) (m : gmap K V) : Z :=
  zsum_with (λ kv, f kv.2) (map_to_list m).

Section map_sum_with.
Context {K : Type} `{Countable K} {V : Type} (f : V → Z).
Implicit Types m : gmap K V.

Lemma map_sum_with_empty : map_sum_with f (∅ : gmap K V) = 0%Z.
Proof. unfold map_sum_with. by rewrite map_to_list_empty. Qed.

(** The sum split at one key. *)
Lemma map_sum_with_at m k :
  map_sum_with f m = (from_option f 0 (m !! k) + map_sum_with f (delete k m))%Z.
Proof.
  destruct (m !! k) as [v|] eqn:Hk; simpl.
  - unfold map_sum_with. rewrite <-(map_to_list_delete m k v Hk). done.
  - rewrite delete_id by done. lia.
Qed.

Lemma map_sum_with_insert m k v :
  map_sum_with f (<[k := v]> m) = (f v + map_sum_with f (delete k m))%Z.
Proof. rewrite (map_sum_with_at _ k), lookup_insert_eq, delete_insert_eq. done. Qed.

Context (Hf : ∀ v, (0 ≤ f v)%Z).

Lemma map_sum_with_nonneg m : (0 ≤ map_sum_with f m)%Z.
Proof using Hf. apply zsum_with_nonneg. auto. Qed.

Lemma map_sum_with_pos m :
  (0 < map_sum_with f m)%Z ↔ ∃ k v, m !! k = Some v ∧ (0 < f v)%Z.
Proof using Hf.
  split.
  - intros Hpos. apply dec_stable. intros Hno.
    assert (map_sum_with f m ≤ 0)%Z; [|lia].
    unfold map_sum_with.
    rewrite (zsum_with_mono _ (λ _, 0%Z)), zsum_with_const; [lia|].
    intros [k v] Hin%elem_of_map_to_list. simpl. apply Z.nlt_ge. naive_solver.
  - intros (k & v & Hk & Hv). rewrite (map_sum_with_at m k), Hk. simpl.
    pose proof (map_sum_with_nonneg (delete k m)). lia.
Qed.

Lemma map_sum_with_bound B m :
  (∀ k v, m !! k = Some v → f v ≤ B)%Z → (map_sum_with f m ≤ B * Z.of_nat (size m))%Z.
Proof using.
  intros HB. unfold map_sum_with. rewrite (zsum_with_mono _ (λ _, B)), zsum_with_const.
  - by rewrite length_map_to_list.
  - intros [k v] Hin%elem_of_map_to_list. simpl. eauto.
Qed.
End map_sum_with.

(** A search loop that finds nothing, and one that finds something. *)
Lemma existsb_false {A} (f : A → bool) l : existsb f l = false ↔ ∀ x, x ∈ l → f x = false.
Proof.
  induction l as [|x l IH]; simpl; [split; [|done]; intros _ x Hx; by apply elem_of_nil in Hx|].
  rewrite orb_false_iff, IH. set_solver.
Qed.

Lemma existsb_true {A} (f : A → bool) l : existsb f l = true ↔ ∃ x, x ∈ l ∧ f x = true.
Proof.
  induction l as [|x l IH]; simpl; [split; [done|]; intros (x & Hx & _); by apply elem_of_nil in Hx|].
  rewrite orb_true_iff, IH. set_solver.
Qed.

(** Filters that keep everything, or nothing. *)
Lemma filter_all {A} (P : A → Prop) `{∀ x, Decision (P x)} (l : list A) : (∀ x, x ∈ l → P x) → filter P l = l.
Proof.
  induction l as [|x l IH]; intros Hp; [done|]. rewrite filter_cons_True by (apply Hp; left).
  rewrite IH; [done|]. intros y Hy. apply Hp. by right.
Qed.

Lemma filter_none {A} (P : A → Prop) `{∀ x, Decision (P x)} (l : list A) : (∀ x, x ∈ l → ¬ P x) → filter P l = [].
Proof.
  induction l as [|x l IH]; intros Hp; [done|]. rewrite filter_cons_False by (apply Hp; left).
  apply IH. intros y Hy. apply Hp. by right.
Qed.

(** A key without duplicates determines the element. *)
Lemma NoDup_fmap_elem {A B} (f : A → B) (l : list A) x y :
  NoDup (f <$> l) → x ∈ l → y ∈ l → f x = f y → x = y.
Proof.
  intros Hnd [i Hi]%list_elem_of_lookup [j Hj]%list_elem_of_lookup E.
  assert (i = j) as ->; [|congruence].
  eapply NoDup_lookup; [exact Hnd|by rewrite list_lookup_fmap, Hi|rewrite list_lookup_fmap, Hj; cbn; by rewrite E].
Qed.

Lemma NoDup_fmap_on {A B} (f : A → B) (l : list A) :
  (∀ x y, x ∈ l → y ∈ l → f x = f y → x = y) → NoDup l → NoDup (f <$> l).
Proof.
  intros Hinj. induction 1 as [|x l Hx Hnd IH]; [constructor|]. rewrite fmap_cons. constructor.
  - intros (y & E & Hy)%list_elem_of_fmap. apply Hx. rewrite (Hinj x y); [done|left|by right|done].
  - apply IH. intros y z Hy Hz. apply Hinj; by right.
Qed.

Lemma NoDup_fmap_filter {A B} (f : A → B) (P : A → Prop) `{∀ x, Decision (P x)} (l : list A) :
  NoDup (f <$> l) → NoDup (f <$> filter P l).
Proof. intros Hnd. eapply sublist_NoDup; [exact Hnd|]. apply fmap_sublist, sublist_filter. Qed.

(** ** Loops that keep an invariant, and sorted slices *)

Lemma foldl_invariant {A B} (Q : B → Prop) (f : B → A → B) (l : list A) b :
  Q b → (∀ x b, x ∈ l → Q b → Q (f b x)) → Q (foldl f b l).
Proof.
  revert b. induction l as [|x l IH]; intros b Hb Hf; cbn; [done|].
  apply IH; [by apply Hf; [left|]|]. intros y c Hy. apply Hf. by right.
Qed.

(** Filters that agree on the elements of a slice. *)
Lemma filter_agree {A} (P Q : A → Prop) `{∀ x, Decision (P x), ∀ x, Decision (Q x)} (l : list A) :
  (∀ x, x ∈ l → P x ↔ Q x) → filter P l = filter Q l.
Proof.
  induction l as [|x l IH]; intros Hl; [done|]. specialize (IH ltac:(intros y Hy; apply Hl; by right)).
  pose proof (Hl x ltac:(left)). rewrite !filter_cons, IH. by repeat destruct (decide _); tauto.
Qed.

Lemma filter_at_end {A} (Q : A → Prop) {dec : ∀ a, Decision (Q a)} (a : A) (xs : list A) :
  filter Q (xs ++ [a]) = if decide (Q a) then filter Q xs ++ [a] else filter Q xs.
Proof.
  rewrite filter_app. destruct (decide (Q a)); [by rewrite filter_cons_True|].
  by rewrite filter_cons_False, filter_nil, app_nil_r.
Qed.

Lemma elem_of_snoc {A} (l : list A) x y : y ∈ l ++ [x] ↔ y ∈ l ∨ y = x.
Proof. by rewrite elem_of_app, list_elem_of_singleton. Qed.

Lemma StronglySorted_app_2 {A} (R : relation A) l1 l2 :
  StronglySorted R l1 → StronglySorted R l2 → (∀ x y, x ∈ l1 → y ∈ l2 → R x y) → StronglySorted R (l1 ++ l2).
Proof.
  intros H1 H2 H. induction H1 as [|x l1 H1 IH HR]; cbn; [done|]. constructor.
  - apply IH. intros ????. apply H; [by right|done].
  - apply Forall_app. split; [done|]. apply Forall_forall. intros y Hy. apply H; [left|done].
Qed.

Lemma StronglySorted_filter {A} (R : relation A) (P : A → Prop) `{∀ x, Decision (P x)} l :
  StronglySorted R l → StronglySorted R (filter P l).
Proof.
  induction 1 as [|x l Hs IH HR]; [constructor|]. rewrite filter_cons. destruct (decide (P x)); [|done].
  constructor; [done|]. rewrite Forall_forall in HR |- *. intros y [_ Hy]%list_elem_of_filter. by apply HR.
Qed.

Lemma StronglySorted_take {A} (R : relation A) k l : StronglySorted R l → StronglySorted R (take k l).
Proof.
  intros Hs. revert k. induction Hs as [|x l Hs IH HR]; intros [|k]; cbn; [constructor..|].
  constructor; [apply IH|]. by apply Forall_take.
Qed.

Lemma foldl_agree {A B} (f g : A → B → A) (l : list B) a : (∀ a x, f a x = g a x) → foldl f a l = foldl g a l.
Proof. intros E. revert a. induction l as [|x l IH]; intros a; cbn; [done|]. by rewrite E, IH. Qed.

Lemma exists_snoc {A} (P : A → Prop) pre x : (∃ s, s ∈ pre ++ [x] ∧ P s) ↔ (∃ s, s ∈ pre ∧ P s) ∨ P x.
Proof. setoid_rewrite elem_of_snoc. naive_solver. Qed.

Lemma StronglySorted_of_fmap {A B} (f : A → B) (R : B → B → Prop) (l : list A) :
  StronglySorted R (f <$> l) → StronglySorted (λ a b, R (f a) (f b)) l.
Proof.
  induction l as [|x l IH]; [constructor|]. rewrite fmap_cons. intros [Hs Hx]%StronglySorted_inv.
  constructor; [by apply IH|]. rewrite Forall_fmap in Hx. exact Hx.
Qed.

Lemma StronglySorted_NoDup {A} (R : relation A) l : (∀ x, ¬ R x x) → StronglySorted R l → NoDup l.
Proof.
  intros HR. induction 1 as [|x l Hs IH Hx]; constructor; [|done].
  intros Hin. rewrite Forall_forall in Hx. by apply (HR x), Hx.
Qed.

(** ** Automation *)

(** Membership and sortedness of what the code's loops build: [go_mem] rewrites
    membership in sorted, mapped, filtered and appended slices down to their
    parts, and [eauto with ome] closes the side conditions. *)
Create HintDb ome.
#[export] Hint Resolve NoDup_sorted_keys NoDup_fmap_filter i32_range i64_range sorted_keys_strict : ome.

Ltac go_mem :=
  repeat first
    [ rewrite elem_of_sort_slice | rewrite list_elem_of_fmap | rewrite list_elem_of_filter
    | rewrite elem_of_app | rewrite list_elem_of_singleton | rewrite list_elem_of_bind
    | rewrite elem_of_sorted_keys ].

(** Case analysis on the answer of a call that may fail. *)
Ltac destruct_outcome m :=
  let E := fresh "E" in destruct m as [?| ?|] eqn:E; cbn [obind] in *; try done.
