(* ===== verification/Remainder.v ===== *)
(** * Largest-remainder apportionment

    The specification two packages share: [pkg/quota/shares] splits a fleet
    budget over clusters, [pkg/controller/v1beta1/placement/allocation]
    distributes replicas over clusters, each with its own arithmetic and its
    own sort.  This file states what a largest-remainder split of a total over
    weights is, shows that at most one split satisfies it, and proves the step
    both programs end with: handing one unit to each of the first clusters of a
    ranking. *)

From S2P Require Import Prelude.
Local Open Scope Z_scope.

(** The value a Go map read returns: the zero value for a missing key. *)
Definition mget (m : gmap string Z) (k : string) : Z := default 0 (m !! k).

(** [m[k]++] on every key of a slice, in order. *)
Definition bump (m : gmap string Z) (k : string) : gmap string Z := <[k := mget m k + 1]> m.
Definition bump_all (m : gmap string Z) (ks : list string) : gmap string Z := foldl bump m ks.

Section apportionment.
Context (total : Z) (weights : gmap string Z).

Definition basis : Z := map_zsum weights.
Definition quotient (k : string) : Z := total * mget weights k / basis.
Definition remainder (k : string) : Z := (total * mget weights k) mod basis.

(** [j] is served before [k]: a larger remainder, or an equal one and a
    smaller name. *)
Definition beats (j k : string) : Prop :=
  remainder k < remainder j ∨ (remainder j = remainder k ∧ str_lt j k = true).

(** A split of [total] that is exact, gives every cluster its floor or one
    unit more, and gives the extra units by largest remainder, ties by name. *)
Record LargestRemainder (out : gmap string Z) : Prop := {
  lr_dom : ∀ k, is_Some (out !! k) ↔ is_Some (weights !! k);
  lr_sum : map_zsum out = total;
  lr_quota : ∀ k a, out !! k = Some a → a = quotient k ∨ a = quotient k + 1;
  lr_priority : ∀ j k,
    out !! j = Some (quotient j + 1) → out !! k = Some (quotient k) → beats j k;
}.

Lemma beats_asym j k : beats j k → beats k j → False.
Proof.
  intros [?|[? H1]] [?|[? H2]]; try lia. apply sw_asym in H1. congruence.
Qed.

(** No two different splits meet the specification: the split is a function
    of the total and the weights alone. *)
Lemma largest_remainder_unique out1 out2 :
  LargestRemainder out1 → LargestRemainder out2 → out1 = out2.
Proof.
  intros L1 L2.
  cut (∀ o1 o2, LargestRemainder o1 → LargestRemainder o2 → ∀ k, mget o1 k ≤ mget o2 k).
  { intros Hle. apply map_eq. intros k.
    pose proof (Hle _ _ L1 L2 k) as H12. pose proof (Hle _ _ L2 L1 k) as H21.
    unfold mget in *.
    destruct (out1 !! k) as [a|] eqn:E1, (out2 !! k) as [b|] eqn:E2; simpl in *;
      [f_equal; lia| | |done].
    - assert (is_Some (out2 !! k)) as [? ?] by (apply L2, L1; eauto). congruence.
    - assert (is_Some (out1 !! k)) as [? ?] by (apply L1, L2; eauto). congruence. }
  clear out1 out2 L1 L2. intros o1 o2 L1 L2 j.
  destruct (decide (mget o1 j ≤ mget o2 j)) as [|Hgt]; [done|exfalso].
  (* [j] has a unit in [o1] it lacks in [o2]; some [k] must have one in [o2]
     it lacks in [o1]. *)
  set (ks := sorted_keys weights).
  assert (∀ o, LargestRemainder o → map_zsum o = zsum_with (mget o) ks) as Hsum.
  { intros o L. apply map_zsum_keys; [apply NoDup_sorted_keys|].
    intros k. unfold ks. by rewrite elem_of_sorted_keys, (lr_dom _ L). }
  assert (∀ o k, LargestRemainder o → k ∈ ks → o !! k = Some (mget o k)) as Hget.
  { intros o k L Hk. unfold ks in Hk. rewrite elem_of_sorted_keys, <-(lr_dom _ L) in Hk.
    destruct Hk as [a Ha]. unfold mget. by rewrite Ha. }
  assert (j ∈ ks) as Hj.
  { unfold ks. rewrite elem_of_sorted_keys.
    destruct (o1 !! j) as [a|] eqn:E; [apply L1; eauto|].
    destruct (o2 !! j) as [b|] eqn:E'; [apply L2; eauto|].
    unfold mget in Hgt. rewrite E, E' in Hgt. simpl in Hgt. lia. }
  destruct (decide (Forall (λ k, mget o2 k ≤ mget o1 k) ks)) as [Hall|Hex].
  - rewrite Forall_forall in Hall.
    assert (zsum_with (mget o2) ks < zsum_with (mget o1) ks) as Hlt.
    { apply (zsum_with_mono_strict _ _ _ j); [done|done|lia]. }
    rewrite <-!Hsum in Hlt by done. rewrite (lr_sum _ L1), (lr_sum _ L2) in Hlt. lia.
  - apply not_Forall_Exists, Exists_exists in Hex as (k & Hk & Hlt); [|intros x; apply _].
    simpl in Hlt.
    pose proof (lr_quota _ L1 j _ (Hget o1 j L1 Hj)).
    pose proof (lr_quota _ L2 j _ (Hget o2 j L2 Hj)).
    pose proof (lr_quota _ L1 k _ (Hget o1 k L1 Hk)).
    pose proof (lr_quota _ L2 k _ (Hget o2 k L2 Hk)).
    apply (beats_asym j k).
    + apply (lr_priority _ L1); rewrite Hget by done; f_equal; lia.
    + apply (lr_priority _ L2); rewrite Hget by done; f_equal; lia.
Qed.

Context (Hbasis : 0 < basis).
Context (Hweights : ∀ k w, weights !! k = Some w → 0 ≤ w).
Context (Htotal : 0 ≤ total).

Lemma mget_weight_nonneg k : 0 ≤ mget weights k.
Proof. unfold mget. destruct (weights !! k) eqn:E; simpl; [eauto|lia]. Qed.

Lemma quotient_bounds k : 0 ≤ quotient k ≤ total.
Proof.
  unfold quotient. pose proof (mget_weight_nonneg k).
  assert (mget weights k ≤ basis) by (by apply map_zsum_lookup_le).
  split; [apply Z.div_pos; nia|].
  apply Z.div_le_upper_bound; [lia|]. nia.
Qed.

Lemma remainder_bounds k : 0 ≤ remainder k < basis.
Proof. unfold remainder. by apply Z.mod_pos_bound. Qed.

(** The units division could not place are the remainders, over the basis. *)
Lemma leftover_remainders ks :
  NoDup ks → (∀ k, k ∈ ks ↔ is_Some (weights !! k)) →
  basis * (total - zsum_with quotient ks) = zsum_with remainder ks.
Proof.
  intros Hnd Hks.
  assert (basis = zsum_with (mget weights) ks) as Hb by (by apply map_zsum_keys).
  assert (zsum_with (λ k, basis * quotient k + remainder k) ks
          = zsum_with (λ k, total * mget weights k) ks) as Heq.
  { apply zsum_with_ext. intros k _. unfold quotient, remainder.
    symmetry. apply Z.div_mod. lia. }
  rewrite zsum_with_add, !zsum_with_scale, <-Hb in Heq. lia.
Qed.

(** They are fewer than the clusters that have a remainder. *)
Lemma leftover_bounds ks :
  NoDup ks → (∀ k, k ∈ ks ↔ is_Some (weights !! k)) →
  0 ≤ total - zsum_with quotient ks
  ∧ total - zsum_with quotient ks ≤ zsum_with (λ k, if decide (remainder k = 0) then 0 else 1) ks
  ∧ total - zsum_with quotient ks ≤ Z.of_nat (length ks).
Proof.
  intros Hnd Hks. pose proof (leftover_remainders ks Hnd Hks) as Heq.
  assert (0 ≤ zsum_with remainder ks).
  { apply zsum_with_nonneg. intros k _. apply remainder_bounds. }
  assert (zsum_with remainder ks
          ≤ zsum_with (λ k, basis * (if decide (remainder k = 0) then 0 else 1)) ks) as Hle.
  { apply zsum_with_mono. intros k _. pose proof (remainder_bounds k).
    case_decide; lia. }
  rewrite zsum_with_scale in Hle.
  assert (zsum_with (λ k, if decide (remainder k = 0) then 0 else 1) ks
          ≤ zsum_with (λ _, 1) ks) as Hle'.
  { apply zsum_with_mono. intros k _. case_decide; lia. }
  rewrite zsum_with_const in Hle'. nia.
Qed.

(** Clusters whose share is a whole number get exactly it: an extra unit goes
    only to a cluster division left short. *)
Lemma largest_remainder_exact out k :
  LargestRemainder out → is_Some (weights !! k) → remainder k = 0 →
  out !! k = Some (quotient k).
Proof.
  intros L Hk Hr. destruct (proj2 (lr_dom _ L k) Hk) as [a Ha].
  destruct (lr_quota _ L k a Ha) as [->| ->]; [done|exfalso].
  set (ks := sorted_keys weights).
  assert (∀ j, j ∈ ks ↔ is_Some (weights !! j)) as Hks
    by (intros j; apply elem_of_sorted_keys).
  pose proof (NoDup_sorted_keys weights) as Hnd. fold ks in Hnd.
  assert (map_zsum out = zsum_with (mget out) ks) as Hsum.
  { apply map_zsum_keys; [done|]. intros j. by rewrite Hks, (lr_dom _ L). }
  rewrite (lr_sum _ L) in Hsum.
  pose proof (leftover_bounds ks Hnd Hks) as (_ & Hleft & _).
  assert (zsum_with (λ j, quotient j + (if decide (remainder j = 0) then 0 else 1)) ks
          < zsum_with (mget out) ks) as Hlt.
  { apply (zsum_with_mono_strict _ _ _ k).
    - intros j Hj%Hks. destruct (proj2 (lr_dom _ L j) Hj) as [b Hb].
      unfold mget. rewrite Hb. simpl.
      destruct (lr_quota _ L j b Hb) as [->| ->]; [|case_decide; lia].
      case_decide; [lia|].
      destruct (lr_priority _ L k j Ha Hb) as [?|[? ?]];
        pose proof (remainder_bounds j); lia.
    - by apply Hks.
    - unfold mget. rewrite Ha. simpl. rewrite decide_True by done. lia. }
  rewrite zsum_with_add in Hlt. lia.
Qed.
End apportionment.

(** ** Handing out the extra units *)

Lemma bump_all_lookup m ks k :
  NoDup ks →
  bump_all m ks !! k = if decide (k ∈ ks) then Some (mget m k + 1) else m !! k.
Proof.
  unfold bump_all. revert m. induction ks as [|x ks IH]; intros m Hnd; simpl; [done|].
  apply NoDup_cons in Hnd as [Hx Hnd]. rewrite IH by done. unfold bump, mget.
  destruct (decide (k = x)) as [->|Hne].
  - rewrite decide_False by done. rewrite decide_True by set_solver.
    by rewrite lookup_insert_eq.
  - rewrite lookup_insert_ne by done.
    destruct (decide (k ∈ ks)); [rewrite decide_True by set_solver; done|].
    rewrite decide_False by set_solver. done.
Qed.

Lemma zsum_with_indicator {A} `{EqDecision A} (ks pre : list A) :
  NoDup ks → NoDup pre → pre ⊆ ks →
  zsum_with (λ k, if decide (k ∈ pre) then 1 else 0) ks = Z.of_nat (length pre).
Proof.
  intros Hnd Hndp Hsub.
  assert (ks ≡ₚ pre ++ filter (λ k, k ∉ pre) ks) as Hp.
  { apply NoDup_Permutation; [done| |].
    - apply NoDup_app. split_and!; [done| |by apply NoDup_filter].
      intros x Hx. rewrite list_elem_of_filter. naive_solver.
    - intros x. rewrite elem_of_app, list_elem_of_filter.
      destruct (decide (x ∈ pre)); set_solver. }
  rewrite Hp, zsum_with_app.
  rewrite (zsum_with_ext _ (λ _, 1) pre) by (intros x Hx; by rewrite decide_True).
  rewrite (zsum_with_ext _ (λ _, 0) (filter _ _)).
  - rewrite !zsum_with_const. lia.
  - intros x Hx. rewrite list_elem_of_filter in Hx. rewrite decide_False; naive_solver.
Qed.

(** The step both programs end with: rank the clusters, give one unit to each
    of the first ones until the total is placed. *)
Lemma bump_ranked_spec total weights floors ranked :
  0 < basis weights →
  (∀ k w, weights !! k = Some w → 0 ≤ w) →
  0 ≤ total →
  NoDup ranked →
  (∀ k, k ∈ ranked ↔ is_Some (weights !! k)) →
  StronglySorted (beats total weights) ranked →
  (∀ k, floors !! k = if decide (k ∈ ranked) then Some (quotient total weights k) else None) →
  LargestRemainder total weights
    (bump_all floors (take (Z.to_nat (total - zsum_with (quotient total weights) ranked)) ranked)).
Proof.
  intros Hb Hw Ht Hnd Hdom Hsorted Hfl.
  destruct (leftover_bounds total weights Hb ranked Hnd Hdom) as (Hge & _ & Hle).
  set (n := Z.to_nat (total - zsum_with (quotient total weights) ranked)).
  pose proof (NoDup_take n ranked Hnd) as Hndt.
  assert (∀ k, k ∈ take n ranked → k ∈ ranked) as Hsub by eauto using elem_of_take_in.
  assert (∀ k, bump_all floors (take n ranked) !! k
    = if decide (k ∈ ranked)
      then Some (quotient total weights k + if decide (k ∈ take n ranked) then 1 else 0)
      else None) as Hout.
  { intros k. rewrite bump_all_lookup by done. unfold mget. rewrite Hfl.
    destruct (decide (k ∈ take n ranked)) as [Hin|Hin].
    - by rewrite !decide_True by auto.
    - case_decide; [f_equal; lia|done]. }
  split.
  - intros k. rewrite Hout, <-Hdom. case_decide; [|by split; [intros [? ?]|]]. split; eauto.
  - rewrite (map_zsum_keys _ ranked Hnd).
    + rewrite (zsum_with_ext _ (λ k, quotient total weights k
          + if decide (k ∈ take n ranked) then 1 else 0)).
      * rewrite zsum_with_add, zsum_with_indicator by done.
        rewrite length_take. lia.
      * intros k Hk. by rewrite Hout, decide_True.
    + intros k. rewrite Hout. case_decide; [|by split; [|intros [? ?]]]. split; eauto.
  - intros k a. rewrite Hout. case_decide; [|done]. intros [= <-]. case_decide; lia.
  - intros j k. rewrite !Hout.
    destruct (decide (j ∈ ranked)); [|done]. destruct (decide (k ∈ ranked)) as [Hk|]; [|done].
    intros [= Hj1] [= Hk1].
    destruct (decide (j ∈ take n ranked)) as [Hj|]; [|lia].
    destruct (decide (k ∈ take n ranked)) as [|Hk']; [lia|].
    rewrite <-(take_drop n ranked) in Hsorted, Hk.
    eapply StronglySorted_app_1_elem_of; [exact Hsorted|done|set_solver].
Qed.
