(* ===== verification/Apportion.v ===== *)
(** * Replica apportionment

    [pkg/controller/v1beta1/placement/allocation/apportion.go]: [Plan],
    [TargetLimitError] and [Apportion], which distributes desired replicas over
    clusters by largest remainder.  The arithmetic is the code's: weights are
    [int64] and their sum is checked before it is taken, the product of the
    desired count and a weight is a 128-bit pair, its quotient is narrowed to
    [int32].  The theorems show that no input makes the code panic or wrap, and
    that what it returns is the largest-remainder split of [Remainder]. *)

From S2P Require Import Prelude Remainder.
Local Open Scope Z_scope.

(** ** [math/bits] *)

(** [bits.Mul64(x, y)]: the 128-bit product as its high and low words. *)
Definition Mul64 (x y : Z) : Z * Z := (x * y / 2 ^ 64, (x * y) mod 2 ^ 64).

(** [bits.Div64(hi, lo, y)]: quotient and remainder of the 128-bit dividend.  It
    panics for a zero divisor and when the quotient does not fit. *)
Definition Div64 {E} (hi lo y : Z) : outcome E (Z * Z) :=
  if decide (y = 0 ∨ y ≤ hi) then Panic
  else Ok ((hi * 2 ^ 64 + lo) / y, (hi * 2 ^ 64 + lo) mod y).

(** ** The plan and its errors *)

Record Plan := mkPlan { Targets : gmap string Z; Unassigned : Z }.

Inductive apportion_error :=
| ErrDesiredNegative
| ErrLimitNegative
| ErrEmptyName
| ErrWeightNegative (cluster : string)
| ErrWeightSumOverflow
| TargetLimitError (cluster : string) (target limit : Z).

(** ** [Apportion] *)

(** The validation loop: names in order, each weight checked before it is
    added, so the running [int64] total never wraps. *)
Definition addWeight (weights : gmap string Z) (total : Z) (name : string)
    : outcome apportion_error Z :=
  let weight := mget weights name in
  if decide (name = "") then Err ErrEmptyName
  else if decide (weight < 0) then Err (ErrWeightNegative name)
  else if decide (i64 (MaxInt64 - total) < weight) then Err ErrWeightSumOverflow
  else Ok (i64 (total + weight)).

(** Zero targets stay explicit: every cluster starts with one. *)
Definition zeroTargets (names : list string) : gmap string Z :=
  foldl (λ t name, <[name := 0]> t) ∅ names.

(** One round of the quotient loop: the floor becomes the target, the
    unassigned count drops by it, the remainder is recorded. *)
Definition takeFloor (desired total : Z) (weights : gmap string Z)
    (st : Plan * list (string * Z)) (name : string)
    : outcome apportion_error (Plan * list (string * Z)) :=
  let '(plan, remainders) := st in
  let '(hi, lo) := Mul64 (u64 desired) (u64 (mget weights name)) in
  match Div64 hi lo (u64 total) with
  | Ok (quotient, rest) =>
      Ok (mkPlan (<[name := i32 quotient]> (Targets plan))
                 (i32 (Unassigned plan - i32 quotient)),
          remainders ++ [(name, rest)])
  | Err e => Err e
  | Panic => Panic
  end.

(** [slices.SortStableFunc] by descending remainder. *)
Definition rankRemainders : list (string * Z) → list (string * Z) :=
  sort_slice (λ a b, snd a >? snd b).

(** [for i := int32(0); i < plan.Unassigned; i++ { plan.Targets[remainders[i].cluster]++ }]:
    the index is checked by the language. *)
Fixpoint handOut (n : nat) (i : nat) (ranked : list (string * Z)) (targets : gmap string Z)
    : outcome apportion_error (gmap string Z) :=
  match n with
  | O => Ok targets
  | S n =>
      match ranked !! i with
      | None => Panic
      | Some (cluster, _) =>
          handOut n (S i) ranked (<[cluster := i32 (mget targets cluster + 1)]> targets)
      end
  end.

(** The per-cluster limit, checked in name order; zero is no limit. *)
Definition checkLimit (maxPerCluster : Z) (targets : gmap string Z) (_ : unit) (name : string)
    : outcome apportion_error unit :=
  if decide (0 < maxPerCluster ∧ maxPerCluster < mget targets name)
  then Err (TargetLimitError name (mget targets name) maxPerCluster)
  else Ok tt.

Definition Apportion (desired : Z) (weights : gmap string Z) (maxPerCluster : Z)
    : outcome apportion_error Plan :=
  (if decide (desired < 0) then Err ErrDesiredNegative
   else if decide (maxPerCluster < 0) then Err ErrLimitNegative
   else
     let names := sorted_keys weights in
     let? total := ofold (addWeight weights) 0 names in
     let plan := mkPlan (zeroTargets names) desired in
     if decide (total = 0) then Ok plan
     else
       let? st := ofold (takeFloor desired total weights) (plan, []) names in
       let ranked := rankRemainders (snd st) in
       let? targets := handOut (Z.to_nat (Unassigned (fst st))) 0 ranked (Targets (fst st)) in
       let? _ := ofold (checkLimit maxPerCluster targets) tt names in
       Ok (mkPlan targets 0))%go.

Definition three_equal : gmap string Z := list_to_map [("a", 1); ("b", 1); ("c", 1)].

Example apportion_3_over_3 :
  Apportion 10 three_equal 0 = Ok (mkPlan (list_to_map [("a", 4); ("b", 3); ("c", 3)]) 0).
Proof. vm_compute. reflexivity. Qed.

Example apportion_cap :
  Apportion 10 (list_to_map [("a", 3); ("b", 1)]) 5 = Err (TargetLimitError "a" 8 5).
Proof. vm_compute. reflexivity. Qed.

(** ** Correctness *)

(** The types of the arguments: an [int32] count and limit, [int64] weights. *)
Record apportion_args (desired : Z) (weights : gmap string Z) (maxPerCluster : Z) : Prop := {
  aa_desired : int32_range desired;
  aa_weights : ∀ k w, weights !! k = Some w → int64_range w;
  aa_limit : int32_range maxPerCluster;
}.

(** What the validation loop accepts. *)
Record weights_valid (weights : gmap string Z) : Prop := {
  wv_name : weights !! "" = None;
  wv_nonneg : ∀ k w, weights !! k = Some w → 0 ≤ w;
  wv_sum : basis weights ≤ MaxInt64;
}.

Lemma basis_sorted_keys weights : basis weights = zsum_with (mget weights) (sorted_keys weights).
Proof. apply map_zsum_keys; [apply NoDup_sorted_keys|]. intros k. apply elem_of_sorted_keys. Qed.

Lemma basis_nonneg weights : (∀ k w, weights !! k = Some w → 0 ≤ w) → 0 ≤ basis weights.
Proof.
  intros Hw. rewrite basis_sorted_keys. apply zsum_with_nonneg. intros k _.
  by apply mget_weight_nonneg.
Qed.

Lemma addWeight_Ok weights total name :
  int64_range (mget weights name) → 0 ≤ total ≤ MaxInt64 →
  ∀ total', addWeight weights total name = Ok total' ↔
    name ≠ "" ∧ 0 ≤ mget weights name ∧ total + mget weights name ≤ MaxInt64
    ∧ total' = total + mget weights name.
Proof.
  intros Hr Ht total'. unfold addWeight, int64_range in *.
  rewrite i64_id by (unfold int64_range; lia).
  repeat case_decide; [naive_solver|naive_solver lia|naive_solver lia|].
  rewrite i64_id by (unfold int64_range; lia). naive_solver lia.
Qed.

Lemma mget_int64 weights k :
  (∀ k w, weights !! k = Some w → int64_range w) → int64_range (mget weights k).
Proof.
  intros H. unfold mget. destruct (weights !! k) eqn:E; simpl; [eauto|]. unfold int64_range. lia.
Qed.

Lemma addWeight_run weights ks t :
  (∀ k w, weights !! k = Some w → int64_range w) →
  (∀ k w, weights !! k = Some w → 0 ≤ w) →
  (∀ k, k ∈ ks → k ≠ "") →
  0 ≤ t → t + zsum_with (mget weights) ks ≤ MaxInt64 →
  ofold (addWeight weights) t ks = Ok (t + zsum_with (mget weights) ks).
Proof.
  intros Hr Hpos. revert t. induction ks as [|k ks IH]; intros t Hne Ht Hmax.
  { cbn. by rewrite Z.add_0_r. }
  rewrite zsum_with_cons in *. simpl.
  pose proof (mget_weight_nonneg weights Hpos k).
  assert (0 ≤ zsum_with (mget weights) ks).
  { apply zsum_with_nonneg. intros x _. by apply mget_weight_nonneg. }
  rewrite (proj2 (addWeight_Ok weights t k (mget_int64 _ _ Hr) ltac:(lia) _))
    by (split_and!; [set_solver|done|lia|reflexivity]).
  simpl. rewrite IH; [f_equal; lia|set_solver|lia..].
Qed.

(** The validation loop returns the exact sum and accepts exactly the valid
    weights. *)
Lemma addWeight_loop weights total :
  (∀ k w, weights !! k = Some w → int64_range w) →
  ofold (addWeight weights) 0 (sorted_keys weights) = Ok total ↔
  weights_valid weights ∧ total = basis weights.
Proof.
  intros Hr. split.
  - intros Hf.
    apply (ofold_Ok_ind _ (λ pre t, t = zsum_with (mget weights) pre ∧ 0 ≤ t ≤ MaxInt64
              ∧ ∀ k, k ∈ pre → k ≠ "" ∧ 0 ≤ mget weights k)) in Hf as (-> & Hb & Hk).
    + rewrite <-basis_sorted_keys in *. split; [|done].
      setoid_rewrite elem_of_sorted_keys in Hk. split; [| |lia].
      * apply eq_None_not_Some. intros Hs. by destruct (Hk "" Hs).
      * intros k w Hw. destruct (Hk k) as [_ ?]; [by eauto|].
        unfold mget in *. by rewrite Hw in *.
    + cbn. set_solver by lia.
    + intros pre x post t t' _ (-> & Hb & Hk) Hadd.
      apply addWeight_Ok in Hadd as (? & ? & ? & ->); [|by apply mget_int64|done].
      rewrite zsum_with_app, zsum_with_cons. cbn.
      split_and!; [lia..|]. intros k. rewrite elem_of_app, list_elem_of_singleton. naive_solver.
  - intros [Hv ->]. rewrite basis_sorted_keys, <-(Z.add_0_l (zsum_with _ _)).
    apply addWeight_run; [done|apply Hv| |lia|].
    + intros k Hk ->. apply elem_of_sorted_keys in Hk as [? Hk].
      rewrite (wv_name _ Hv) in Hk. done.
    + rewrite Z.add_0_l, <-basis_sorted_keys. apply Hv.
Qed.

(** The 128-bit product divided by the total is the integer quotient: [Div64]
    cannot panic because a weight is at most the total. *)
Lemma mul_div_exact {E} x w total :
  0 ≤ x < 2 ^ 64 → 0 ≤ w ≤ total → 0 < total →
  (let '(hi, lo) := Mul64 x w in @Div64 E hi lo total)
  = Ok (x * w / total, (x * w) mod total).
Proof.
  intros Hx Hw Ht. unfold Mul64, Div64.
  assert (x * w / 2 ^ 64 * 2 ^ 64 + (x * w) mod 2 ^ 64 = x * w) as Heq.
  { rewrite Z.mul_comm. symmetry. apply Z.div_mod. lia. }
  rewrite decide_False; [by rewrite Heq|].
  intros [?|Hle]; [lia|].
  assert (x * w / 2 ^ 64 < total); [|lia].
  apply Z.div_lt_upper_bound; [lia|]. nia.
Qed.

Section apportioned.
Context (desired : Z) (weights : gmap string Z).
Context (Hdes : 0 ≤ desired ≤ MaxInt32).
Context (Hval : weights_valid weights).
Context (Hpos : 0 < basis weights).

Let q := quotient desired weights.
Let r := remainder desired weights.

Lemma q_int32 k : int32_range (q k).
Proof.
  pose proof (quotient_bounds desired weights Hpos (wv_nonneg _ Hval) ltac:(lia) k).
  unfold int32_range, q. lia.
Qed.

Lemma takeFloor_eq plan rems k :
  takeFloor desired (basis weights) weights (plan, rems) k
  = Ok (mkPlan (<[k := q k]> (Targets plan)) (i32 (Unassigned plan - q k)), rems ++ [(k, r k)]).
Proof.
  pose proof (mget_weight_nonneg weights (wv_nonneg _ Hval) k) as Hw.
  assert (mget weights k ≤ basis weights) as Hle
    by (apply map_zsum_lookup_le, Hval).
  pose proof (wv_sum _ Hval) as Hmax.
  unfold takeFloor. rewrite !u64_id by lia.
  pose proof (@mul_div_exact apportion_error desired (mget weights k) (basis weights)
    ltac:(lia) ltac:(lia) Hpos) as E.
  destruct (Mul64 desired (mget weights k)) as [hi lo]. rewrite E.
  change (desired * mget weights k / basis weights) with (q k).
  change ((desired * mget weights k) mod basis weights) with (r k).
  by rewrite (i32_id (q k)) by apply q_int32.
Qed.

(** The quotient loop leaves the floors, the number of units not placed, and
    the remainders in name order. *)
Lemma takeFloor_loop ks plan rems :
  0 ≤ Unassigned plan ≤ MaxInt32 → zsum_with q ks ≤ Unassigned plan →
  ofold (takeFloor desired (basis weights) weights) (plan, rems) ks
  = Ok (mkPlan (foldl (λ t k, <[k := q k]> t) (Targets plan) ks)
               (Unassigned plan - zsum_with q ks),
        rems ++ ((λ k, (k, r k)) <$> ks)).
Proof.
  revert plan rems. induction ks as [|k ks IH]; intros plan rems Hu Hs.
  { cbn. rewrite app_nil_r, Z.sub_0_r. by destruct plan. }
  rewrite zsum_with_cons in Hs. cbn [ofold]. rewrite takeFloor_eq. cbn [obind].
  pose proof (quotient_bounds desired weights Hpos (wv_nonneg _ Hval) ltac:(lia) k) as Hk.
  fold (q k) in Hk.
  assert (0 ≤ zsum_with q ks).
  { apply zsum_with_nonneg. intros x _.
    pose proof (quotient_bounds desired weights Hpos (wv_nonneg _ Hval) ltac:(lia) x).
    unfold q. lia. }
  rewrite i32_id by (unfold int32_range; lia).
  rewrite IH by (cbn; lia). cbn [Targets Unassigned].
  rewrite zsum_with_cons, <-app_assoc. simpl. do 3 f_equal. lia.
Qed.

Let names := sorted_keys weights.
Let rems : list (string * Z) := (λ k, (k, r k)) <$> names.

(** The stable sort ranks the clusters by remainder, ties by name. *)
Lemma ranked_beats : StronglySorted (beats desired weights) (rankRemainders rems).*1.
Proof.
  unfold rankRemainders.
  assert (StronglySorted (λ a b, str_lt a.1 b.1 = true) rems) as Hs.
  { apply StronglySorted_fmap with (R1 := λ x y, str_lt x y = true); [by intros|].
    apply sorted_keys_strict. }
  apply (sort_slice_stable (λ a b, snd a >? snd b)) in Hs.
  apply StronglySorted_fmap with
    (R1 := λ a b, beats desired weights a.1 b.1); [by intros|].
  eapply StronglySorted_impl_elem; [|exact Hs].
  intros [j rj] [k rk] Hj Hk Hst. rewrite elem_of_sort_slice in Hj, Hk.
  apply list_elem_of_fmap in Hj as (? & [= -> ->] & _).
  apply list_elem_of_fmap in Hk as (? & [= -> ->] & _).
  unfold stable_after, beats in *. simpl in *. fold r. destruct Hst as [?|(?&?&?)]; [left|right]; [lia|].
  split; [lia|done].
Qed.

Lemma ranked_keys_perm : (rankRemainders rems).*1 ≡ₚ names.
Proof.
  unfold rankRemainders. rewrite sort_slice_perm. unfold rems.
  rewrite <-list_fmap_compose. by rewrite list_fmap_id.
Qed.

Lemma ranked_keys_dom k : k ∈ (rankRemainders rems).*1 ↔ is_Some (weights !! k).
Proof. rewrite ranked_keys_perm. apply elem_of_sorted_keys. Qed.

Lemma NoDup_ranked_keys : NoDup (rankRemainders rems).*1.
Proof. rewrite ranked_keys_perm. apply NoDup_sorted_keys. Qed.
End apportioned.

(** The hand-out loop bumps the first clusters of the ranking, in range and
    without wrapping. *)
Lemma handOut_run n i ranked targets :
  (i + n ≤ length ranked)%nat →
  NoDup ranked.*1 →
  (∀ k, k ∈ take n (drop i ranked.*1) → 0 ≤ mget targets k < MaxInt32) →
  handOut n i ranked targets = Ok (bump_all targets (take n (drop i ranked.*1))).
Proof.
  intros Hlen Hnd. revert i targets Hlen. induction n as [|n IH]; intros i targets Hlen Hr; [done|].
  simpl. destruct (lookup_lt_is_Some_2 ranked i) as [[k v] Hi]; [lia|]. rewrite Hi.
  assert (ranked.*1 !! i = Some k) as Hik by (by rewrite list_lookup_fmap, Hi).
  rewrite (drop_S _ _ _ Hik) in *. simpl in *.
  assert (k ∉ drop (S i) ranked.*1) as Hk.
  { rewrite <-(take_drop (S i) ranked.*1) in Hnd. apply NoDup_app in Hnd as (_ & Hd & _).
    apply Hd. apply list_elem_of_lookup. exists i. by rewrite lookup_take_lt by lia. }
  rewrite i32_id.
  - apply IH; [lia|]. intros x Hx. unfold bump, mget. rewrite lookup_insert_ne.
    + apply Hr. by right.
    + intros ->. by apply Hk, (elem_of_take_in _ n).
  - specialize (Hr k ltac:(left)). unfold int32_range. lia.
Qed.

Lemma zeroTargets_lookup names k :
  zeroTargets names !! k = if decide (k ∈ names) then Some 0 else None.
Proof. unfold zeroTargets. by rewrite (foldl_insert_lookup (λ _, 0)). Qed.

(** The split step of [Apportion], from the validated weights to the targets. *)
Lemma apportion_core desired weights :
  0 ≤ desired ≤ MaxInt32 → weights_valid weights → 0 < basis weights →
  ∃ plan rems targets,
    ofold (takeFloor desired (basis weights) weights)
      (mkPlan (zeroTargets (sorted_keys weights)) desired, [])
      (sorted_keys weights) = Ok (plan, rems)
    ∧ handOut (Z.to_nat (Unassigned plan)) 0 (rankRemainders rems) (Targets plan) = Ok targets
    ∧ LargestRemainder desired weights targets.
Proof.
  intros Hdes Hval Hpos.
  pose proof (wv_nonneg _ Hval) as Hnn.
  set (q := quotient desired weights).
  pose proof (ranked_beats desired weights) as Hsorted.
  pose proof (ranked_keys_perm desired weights) as Hperm.
  pose proof (ranked_keys_dom desired weights) as Hdom.
  pose proof (NoDup_ranked_keys desired weights) as Hnd.
  set (names := sorted_keys weights) in *.
  set (rems := (λ k, (k, remainder desired weights k)) <$> names) in *.
  set (ranked := rankRemainders rems) in *.
  destruct (leftover_bounds desired weights Hpos ranked.*1 Hnd Hdom) as (Hge & _ & Hle).
  fold q in Hge, Hle. rewrite length_fmap in Hle.
  assert (zsum_with q ranked.*1 = zsum_with q names) as Hsum by (by rewrite Hperm).
  set (floors := foldl (λ t k, <[k := quotient desired weights k]> t) (zeroTargets names) names).
  assert (∀ k, floors !! k = if decide (k ∈ ranked.*1) then Some (q k) else None) as Hfl.
  { intros k. unfold floors. rewrite foldl_insert_lookup, zeroTargets_lookup.
    assert (k ∈ ranked.*1 ↔ k ∈ names) by (by rewrite Hperm).
    repeat case_decide; naive_solver. }
  exists (mkPlan floors (desired - zsum_with q names)), rems,
    (bump_all floors (take (Z.to_nat (desired - zsum_with q names)) ranked.*1)). split_and!.
  - rewrite takeFloor_loop by (done || cbn [Unassigned]; fold q names; lia). reflexivity.
  - fold ranked. rewrite handOut_run; cbn [Unassigned Targets];
      [by rewrite drop_0|rewrite <-Hsum; lia|done|].
    intros k Hk. rewrite drop_0 in Hk. apply elem_of_take_in in Hk as Hin.
    unfold mget. rewrite Hfl, decide_True by done. simpl.
    assert (q k ≤ zsum_with q ranked.*1).
    { apply zsum_with_elem_le; [|done]. intros x _. apply quotient_bounds; done || lia. }
    pose proof (quotient_bounds desired weights Hpos Hnn ltac:(lia) k) as Hq. fold q in Hq.
    destruct (decide (zsum_with q names = desired)) as [Heq|]; [|unfold q in *; lia].
    rewrite Heq, Z.sub_diag in Hk. simpl in Hk. set_solver.
  - rewrite <-Hsum. apply bump_ranked_spec; done || lia.
Qed.

Lemma checkLimit_Ok maxPerCluster targets name :
  checkLimit maxPerCluster targets tt name = Ok tt ↔
  (0 < maxPerCluster → mget targets name ≤ maxPerCluster).
Proof. unfold checkLimit. case_decide; naive_solver lia. Qed.

(** The shape of every successful call with something to divide by. *)
Lemma Apportion_inv desired weights maxPerCluster plan :
  apportion_args desired weights maxPerCluster →
  Apportion desired weights maxPerCluster = Ok plan →
  0 ≤ desired ≤ MaxInt32 ∧ 0 ≤ maxPerCluster ∧ weights_valid weights
  ∧ (basis weights = 0 ∧ plan = mkPlan (zeroTargets (sorted_keys weights)) desired
     ∨ 0 < basis weights ∧ Unassigned plan = 0 ∧ LargestRemainder desired weights (Targets plan)
       ∧ (0 < maxPerCluster → ∀ k, mget (Targets plan) k ≤ maxPerCluster)).
Proof.
  intros Ha. unfold Apportion. case_decide as Hd; [done|]. case_decide as Hm; [done|].
  intros (total & Htotal & Hrest)%obind_Ok_inv.
  apply addWeight_loop in Htotal as [Hv ->]; [|apply Ha].
  pose proof (aa_desired _ _ _ Ha) as [??].
  split_and!; [lia..|done|].
  case_decide as Hb; [left; naive_solver|right].
  pose proof (basis_nonneg weights (wv_nonneg _ Hv)).
  destruct (apportion_core desired weights) as (p & rems & targets & E1 & E2 & L); [lia|done|lia|].
  rewrite E1 in Hrest. simpl in Hrest. rewrite E2 in Hrest. simpl in Hrest.
  apply obind_Ok_inv in Hrest as ([] & Hlim & [= <-]). simpl.
  split_and!; [lia|done|done|]. intros Hpos k.
  destruct (decide (k ∈ sorted_keys weights)) as [Hk|Hk].
  - rewrite ofold_check in Hlim. by apply (proj1 (checkLimit_Ok _ _ _) (Hlim k Hk)).
  - rewrite elem_of_sorted_keys, <-(lr_dom _ _ _ L) in Hk. unfold mget.
    rewrite (proj2 (eq_None_not_Some _)) by done. simpl. lia.
Qed.

(** [Apportion] never panics: whatever the count, the weights and the
    limit, the 128-bit division has room, no index of the remainders is out of
    range, and the call returns a plan or an error. *)
Theorem Apportion_no_panic desired weights maxPerCluster :
  apportion_args desired weights maxPerCluster →
  Apportion desired weights maxPerCluster ≠ Panic.
Proof.
  intros Ha. unfold Apportion. case_decide as Hd; [done|]. case_decide; [done|].
  destruct (ofold (addWeight weights) 0 (sorted_keys weights)) as [total| |] eqn:E; simpl; [|done|].
  - apply addWeight_loop in E as [Hv ->]; [|apply Ha]. case_decide; [done|].
    pose proof (basis_nonneg weights (wv_nonneg _ Hv)). pose proof (aa_desired _ _ _ Ha) as [??].
    destruct (apportion_core desired weights) as (p & rems & targets & E1 & E2 & L);
      [lia|done|lia|].
    rewrite E1. simpl. rewrite E2. simpl.
    destruct (ofold (checkLimit maxPerCluster targets) tt (sorted_keys weights)) eqn:E3;
      simpl; [done|done|].
    apply ofold_no_panic in E3; [done|]. intros b x. unfold checkLimit. by case_decide.
  - apply ofold_no_panic in E; [done|]. intros b x. unfold addWeight. by repeat case_decide.
Qed.

Lemma Apportion_no_panic_witness :
  Apportion 2147483647 (list_to_map [("a", 9223372036854775806); ("b", 1)]) 0 ≠ Panic.
Proof.
  apply Apportion_no_panic. split; [done|by_entries|done].
Defined.

(** C2: a plan over weights with a positive sum leaves nothing unassigned and is
    the largest-remainder split: the targets sum to the desired count exactly,
    every cluster has its floor or one replica more, and the extra replicas go
    to the largest remainders, ties to the smaller name. *)
Theorem Apportion_largest_remainder desired weights maxPerCluster plan :
  apportion_args desired weights maxPerCluster →
  0 < basis weights →
  Apportion desired weights maxPerCluster = Ok plan →
  Unassigned plan = 0 ∧ LargestRemainder desired weights (Targets plan).
Proof.
  intros Ha Hpos (_ & _ & _ & [[??]|(_ & ? & ? & _)])%Apportion_inv; [lia|done|done].
Qed.

Lemma Apportion_largest_remainder_witness :
  ∃ plan, Apportion 10 three_equal 0 = Ok plan
    ∧ Unassigned plan = 0 ∧ LargestRemainder 10 three_equal (Targets plan).
Proof.
  eexists. split; [vm_compute; reflexivity|].
  apply (Apportion_largest_remainder 10 three_equal 0).
  - split; [done|by_entries|done].
  - vm_compute. reflexivity.
  - vm_compute. reflexivity.
Defined.

(** When [Apportion] succeeds and when it does not.  For arguments of their
    Go types, a plan comes back exactly when the count and the limit are
    nonnegative, no cluster name is empty, no weight is negative, the weights
    sum to at most [MaxInt64], and the split, if there is one, respects the
    limit. *)
Theorem Apportion_ok_iff desired weights maxPerCluster :
  apportion_args desired weights maxPerCluster →
  (∃ plan, Apportion desired weights maxPerCluster = Ok plan) ↔
  0 ≤ desired ∧ 0 ≤ maxPerCluster ∧ weights_valid weights
  ∧ (0 < basis weights → 0 < maxPerCluster →
     ∀ out, LargestRemainder desired weights out → ∀ k, mget out k ≤ maxPerCluster).
Proof.
  intros Ha. split.
  - intros (plan & (? & ? & Hv & Hc)%Apportion_inv); [|done].
    split_and!; [lia|lia|done|]. intros Hpos Hm out L k.
    destruct Hc as [[? _]|(_ & _ & L' & Hlim)]; [lia|].
    rewrite (largest_remainder_unique _ _ _ _ L L'). auto.
  - intros (Hd & Hm & Hv & Hlim). unfold Apportion. rewrite !decide_False by lia.
    rewrite (proj2 (addWeight_loop weights (basis weights) (aa_weights _ _ _ Ha))) by done.
    simpl. case_decide; [eauto|].
    pose proof (basis_nonneg weights (wv_nonneg _ Hv)). pose proof (aa_desired _ _ _ Ha) as [??].
    destruct (apportion_core desired weights) as (p & rems & targets & E1 & E2 & L);
      [lia|done|lia|].
    rewrite E1. simpl. rewrite E2. simpl.
    rewrite (proj2 (ofold_check _ _)); [simpl; eauto|].
    intros k _. apply checkLimit_Ok. intros ?. apply Hlim; [lia|done|done].
Qed.

Lemma Apportion_ok_iff_witness :
  ∃ plan, Apportion 5 (list_to_map [("a", 2); ("b", 1)]) 0 = Ok plan.
Proof.
  apply (Apportion_ok_iff 5 (list_to_map [("a", 2); ("b", 1)]) 0).
  - split; [done|by_entries|done].
  - split_and!; [lia|lia| |lia]. split; [done|by_entries|by vm_compute].
Defined.
