(* ===== verification/Transition.v ===== *)
(** * Moving an allocation

    [pkg/controller/v1beta1/placement/allocation/transition.go]: [Advance] and
    [AdvanceWholeMembers] take the original plan, the applied targets, the
    desired plan and what every member cluster reports, and name the next step
    of the move.  The Go struct [transition] is filled in by phases and each
    phase writes its own fields; the model splits it along those phases: [view]
    is what [readMembers] leaves, [tally] what [countMember] counts, [funds]
    what [planReductions] spends, [growth] what [planGrowth] spends.  Counts are
    [int32] and sums [int64], wrapped at every operation as the language does. *)

From S2P Require Import Prelude Remainder Apportion.
Local Open Scope Z_scope.

(** ** Input and output *)

Record MemberState := mkMember {
  Known : bool; Eligible : bool; Applied : bool; Routable : bool;
  Drained : bool; Absent : bool; Ready : Z; Occupied : Z;
}.

(** The zero value a read of a missing cluster gives. *)
Definition noMember : MemberState := mkMember false false false false false false 0 0.

Record Transition := mkTransition {
  From : Plan; Current : gmap string Z; Desired : Plan;
  Members : gmap string MemberState; Surge : Z; RolloutReserved : Z;
}.

Record Step := mkStep {
  STargets : gmap string Z; Drain : list string; Resume : list string;
  Reason : string; Complete : bool; Message : string; CleanupReleased : bool;
}.

Inductive transition_error :=
| ErrUnassignedNegative
| ErrTargetInvalid
| ErrReplicaTotalOverflow
| ErrOriginalPlan (e : transition_error)
| ErrDesiredPlan (e : transition_error)
| ErrCurrentTargets (e : transition_error)
| ErrAllowanceNegative
| ErrEmptyObservationName
| ErrInconsistent (cluster : string)
| ErrOccupiedOverflow
| ErrSurgeOverflow.

(** ** Predicates on one member *)

Definition inconsistent (s : MemberState) : bool :=
  (Ready s <? 0) || (Occupied s <? 0) || (Ready s >? Occupied s)
  || (Absent s && (negb (Known s) || (Occupied s >? 0)))
  || (Drained s && Routable s).

Definition serving (s : MemberState) : bool := Known s && Applied s && Routable s.

Record memberView := mkView {
  name : string; original : Z; current : Z; goal : Z; state : MemberState;
}.

Definition routableWithoutTarget (m : memberView) : bool :=
  (current m =? 0) && Known (state m) && Routable (state m).

Definition unknownStanding (m : memberView) : bool :=
  negb (Known (state m))
  && ((current m >? 0) || (original m >? 0) || (Occupied (state m) >? 0)).

Definition needsResume (m : memberView) : bool :=
  (goal m >? 0) && (current m >? 0) && Drained (state m).

Definition aboveBothPlans (m : memberView) : bool := current m >? Z.max (original m) (goal m).

Definition occupiedWithoutTarget (m : memberView) : bool :=
  (current m =? 0) && (goal m =? 0) && (Occupied (state m) >? 0) && negb (Drained (state m)).

Definition reducible (m : memberView) : bool :=
  (current m >? goal m) && Known (state m) && Applied (state m).

Definition growable (m : memberView) : bool :=
  (goal m >? current m) && Known (state m) && Eligible (state m)
  && ((current m =? 0) || Applied (state m)).

Definition unsettled (m : memberView) : bool :=
  ((current m >? 0) && (negb (Known (state m)) || negb (Applied (state m))))
  || ((current m =? 0) && (Occupied (state m) >? 0)).

(** ** Reading the input *)

Definition addTarget (total : Z) (entry : string * Z) : outcome transition_error Z :=
  let '(cluster, count) := entry in
  if decide (cluster = "" ∨ count < 0) then Err ErrTargetInvalid
  else if decide (i64 (MaxInt64 - total) < count) then Err ErrReplicaTotalOverflow
  else Ok (i64 (total + count)).

(** The loop ranges over a map, in an order the language leaves open; the sum
    does not depend on it ([planTotal_order]). *)
Definition planTotal (plan : Plan) : outcome transition_error Z :=
  if decide (Unassigned plan < 0) then Err ErrUnassignedNegative
  else ofold addTarget (Unassigned plan) (map_to_list (Targets plan)).

(** What [readMembers] leaves: every cluster a plan or an observation names, in
    name order. *)
Record view := mkViews {
  vin : Transition; wholeMembers : bool;
  fromReplicas : Z; desiredReplicas : Z; members : list memberView;
}.

Definition allNames (t : Transition) : list string :=
  sort_slice str_lt
    (elements (dom (Targets (Desired t)) ∪ dom (Targets (From t)) ∪ dom (Current t)
               ∪ dom (Members t))).

Definition viewOf (t : Transition) (cluster : string) : memberView :=
  mkView cluster (mget (Targets (From t)) cluster) (mget (Current t) cluster)
    (mget (Targets (Desired t)) cluster) (default noMember (Members t !! cluster)).

Definition startTargets (ms : list memberView) : gmap string Z :=
  foldl (λ t m, <[name m := current m]> t) ∅ ms.

Definition readMembers (t : Transition) : outcome transition_error (list memberView) :=
  if decide (is_Some (Members t !! "")) then Err ErrEmptyObservationName
  else Ok (viewOf t <$> allNames t).

(** What [countMember] counts. *)
Record tally := mkTally {
  targetsGrow : bool; targetsShrink : bool; inUse : Z;
  servingReady : Z; readyWithoutTarget : Z; counted : Z;
}.

(** One member into the budget; [counted] is the struct's [retirementAllowance]
    while it is being counted. *)
Definition countMember (b : tally) (m : memberView) : outcome transition_error tally :=
  let s := state m in
  let occupied := Z.max (current m) (Occupied s) in
  if decide (i64 (MaxInt64 - inUse b) < occupied) then Err ErrOccupiedOverflow
  else
    let ra := i64 (counted b - Z.max 0 (i32 (original m - current m))) in
    let ra := if Drained s then i64 (ra - Z.min (original m) (current m)) else ra in
    let ra := if serving s
              then i64 (ra + Z.max 0 (i32 (Z.min (Ready s) (current m) - original m)))
              else ra in
    Ok (mkTally
          (targetsGrow b || (goal m >? current m))
          (targetsShrink b || (goal m <? current m))
          (i64 (inUse b + occupied))
          (if serving s then i64 (servingReady b + Z.min (Ready s) (current m))
           else servingReady b)
          (if routableWithoutTarget m then i64 (readyWithoutTarget b + Ready s)
           else readyWithoutTarget b)
          ra).

(** The body of the loop of [readBudget]. *)
Definition checkMember (b : tally) (m : memberView) : outcome transition_error tally :=
  if inconsistent (state m) then Err (ErrInconsistent (name m)) else countMember b m.

(** What the reductions may spend. *)
Record funds := mkFunds {
  fstep : Step; retirementAllowance : Z; readyAboveDesired : Z; servingAboveMinimum : Z;
}.

Definition startStep (ms : list memberView) : Step :=
  mkStep (startTargets ms) [] [] "" false "" false.

Definition readBudget (v : view) : outcome transition_error (tally * funds) :=
  (let? b := ofold checkMember
               (mkTally false false (RolloutReserved (vin v)) 0 0
                  (Z.max 0 (i64 (fromReplicas v - desiredReplicas v))))
               (members v) in
   let ra :=
     if i64 (fromReplicas v - Unassigned (From (vin v))) <? desiredReplicas v
     then Z.min (counted b) (Z.max 0 (i64 (servingReady b - desiredReplicas v)))
     else counted b in
   Ok (b, mkFunds (startStep (members v)) ra
            (Z.max 0 (i64 (i64 (servingReady b + readyWithoutTarget b) - desiredReplicas v)))
            (Z.max 0 (i64 (servingReady b - Z.min (fromReplicas v) (desiredReplicas v))))))%go.

Definition readTransition (t : Transition) (whole : bool)
    : outcome transition_error (view * tally * funds) :=
  (let? fromR := omap_err ErrOriginalPlan (planTotal (From t)) in
   let? desiredR := omap_err ErrDesiredPlan (planTotal (Desired t)) in
   let? _ := omap_err ErrCurrentTargets (planTotal (mkPlan (Current t) 0)) in
   if decide (RolloutReserved t < 0 ∨ Surge t < 0) then Err ErrAllowanceNegative
   else
     let? ms := readMembers t in
     let v := mkViews t whole fromR desiredR ms in
     let? bf := readBudget v in
     Ok (v, fst bf, snd bf))%go.

(** ** Reductions *)

(** The members in name order, those above both plans first. *)
Definition reductionOrder (ms : list memberView) : list memberView :=
  sort_slice (λ l r, aboveBothPlans l && negb (aboveBothPlans r)) ms.

Definition withDrain (s : Step) (cluster : string) : Step :=
  mkStep (STargets s) (Drain s ++ [cluster]) (Resume s) (Reason s) (Complete s)
    (Message s) (CleanupReleased s).
Definition withTargets (s : Step) (t : gmap string Z) : Step :=
  mkStep t (Drain s) (Resume s) (Reason s) (Complete s) (Message s) (CleanupReleased s).
Definition withResume (s : Step) (r : list string) : Step :=
  mkStep (STargets s) (Drain s) r (Reason s) (Complete s) (Message s) (CleanupReleased s).
Definition withReason (s : Step) (r : string) : Step :=
  mkStep (STargets s) (Drain s) (Resume s) r (Complete s) (Message s) (CleanupReleased s).
Definition withComplete (s : Step) : Step :=
  mkStep (STargets s) (Drain s) (Resume s) (Reason s) true (Message s) (CleanupReleased s).

Definition drainWithoutTarget (f : funds) (m : memberView) : funds :=
  let ready := Ready (state m) in
  if Routable (state m) then
    if ready >? readyAboveDesired f then f
    else mkFunds (withDrain (fstep f) (name m)) (retirementAllowance f)
           (i64 (readyAboveDesired f - ready)) (servingAboveMinimum f)
  else mkFunds (withDrain (fstep f) (name m)) (retirementAllowance f)
         (readyAboveDesired f) (servingAboveMinimum f).

Definition unbackedReplicas (whole : bool) (m : memberView) : Z :=
  let s := state m in
  if Drained s then current m
  else if negb (Routable s) || (Ready s =? 0) || whole
  then Z.max 0 (i32 (current m - Z.max (original m) (Ready s)))
  else 0.

Definition reduceFunded (whole : bool) (f : funds) (m : memberView) : funds :=
  let s := state m in
  let unbacked := unbackedReplicas whole m in
  let reduce := i32 (Z.min (i32 (current m - goal m))
                      (i64 (unbacked + Z.max 0 (retirementAllowance f)))) in
  let unready := Z.max 0 (i32 (current m - Ready s)) in
  let reduce := if Routable s then i32 (Z.min reduce (i64 (unready + servingAboveMinimum f)))
                else reduce in
  let servingCost := if Routable s then Z.max 0 (i32 (reduce - unready)) else 0 in
  if (reduce =? 0) || (whole && (reduce <? i32 (current m - goal m))) then f
  else
    let ra := i64 (retirementAllowance f - Z.max 0 (i32 (reduce - unbacked))) in
    let sam := i64 (servingAboveMinimum f - servingCost) in
    if (current m =? reduce) && negb (Drained s)
    then mkFunds (withDrain (fstep f) (name m)) ra (readyAboveDesired f) sam
    else mkFunds (withTargets (fstep f)
                    (<[name m := i32 (mget (STargets (fstep f)) (name m) - reduce)]>
                       (STargets (fstep f))))
           ra (readyAboveDesired f) sam.

Definition planReduction (whole : bool) (f : funds) (m : memberView) : funds :=
  if occupiedWithoutTarget m then drainWithoutTarget f m
  else if Absent (state m) && (current m >? goal m)
  then mkFunds (withTargets (fstep f) (<[name m := goal m]> (STargets (fstep f))))
         (retirementAllowance f) (readyAboveDesired f) (servingAboveMinimum f)
  else if reducible m then reduceFunded whole f m
  else f.

Definition planReductions (v : view) (f : funds) : funds :=
  foldl (planReduction (wholeMembers v)) f (reductionOrder (members v)).

(** ** Growth *)

Record growth := mkGrowth { gstep : Step; growthAllowance : Z; budgetBlocked : bool }.

Definition growMember (whole : bool) (g : growth) (m : memberView) : growth :=
  if negb (growable m) then g
  else
    let ready := if negb whole && serving (state m)
                 then Z.max 0 (i32 (Z.min (goal m) (Ready (state m)) - current m)) else 0 in
    let add := i32 (ready + i32 (Z.min (i32 (i32 (goal m - current m) - ready)) (growthAllowance g))) in
    if whole && (add <? i32 (goal m - current m)) then mkGrowth (gstep g) (growthAllowance g) true
    else mkGrowth (withTargets (gstep g)
                     (<[name m := i32 (mget (STargets (gstep g)) (name m) + add)]>
                        (STargets (gstep g))))
           (i64 (growthAllowance g - i32 (add - ready))) (budgetBlocked g).

Definition planGrowth (v : view) (b : tally) (s : Step) : outcome transition_error growth :=
  let limit := Z.max (fromReplicas v) (desiredReplicas v) in
  if decide (i64 (MaxInt64 - limit) < Surge (vin v)) then Err ErrSurgeOverflow
  else Ok (foldl (growMember (wholeMembers v))
             (mkGrowth s (Z.max 0 (i64 (i64 (limit + Surge (vin v)) - inUse b))) false)
             (members v)).

(** ** The decision *)

Definition sameTargets (a b : gmap string Z) : bool :=
  forallb (λ e, mget b (fst e) =? snd e) (map_to_list a)
  && forallb (λ e, mget a (fst e) =? snd e) (map_to_list b).

Definition movesReplicas (v : view) (s : Step) : bool :=
  negb (Nat.eqb (length (Drain s)) 0) || negb (sameTargets (STargets s) (Current (vin v))).

Definition resumeDrainedMembers (ms : list memberView) : list string :=
  name <$> List.filter needsResume ms.

Definition waitingReason (b : tally) (g : growth) : string :=
  if targetsGrow b && ((growthAllowance g =? 0) || budgetBlocked g)
  then "SurgeBudgetExhausted" else "ReplacementNotReady".

Definition decideStep (v : view) (b : tally) (f : funds) : outcome transition_error Step :=
  (if existsb unknownStanding (members v)
   then Ok (withReason (fstep f) "ObservationUnknown")
   else
     let s := withResume (fstep f) (resumeDrainedMembers (members v)) in
     if negb (Nat.eqb (length (Resume s)) 0)
     then Ok (withReason s "AwaitingMemberConvergence")
     else
       let f := planReductions v f in
       if movesReplicas v (fstep f)
       then Ok (withReason (fstep f) "AwaitingMemberConvergence")
       else
         let? g := planGrowth v b (fstep f) in
         if movesReplicas v (gstep g)
         then Ok (withReason (gstep g) "AwaitingMemberConvergence")
         else if targetsGrow b || targetsShrink b
         then Ok (withReason (gstep g) (waitingReason b g))
         else if existsb unsettled (members v)
         then Ok (withReason (gstep g) "AwaitingMemberConvergence")
         else Ok (withComplete (gstep g)))%go.

Definition advanceTransition (t : Transition) (whole : bool) : outcome transition_error Step :=
  (let? r := readTransition t whole in
   let '(v, b, f) := r in decideStep v b f)%go.

Definition Advance (t : Transition) : outcome transition_error Step := advanceTransition t false.
Definition AdvanceWholeMembers (t : Transition) : outcome transition_error Step :=
  advanceTransition t true.
