(* ===== verification/TransitionFacts.v ===== *)
(** * What a transition reads

    Lemmas on the reading half of [Transition]: the plan totals, the members in
    name order, and the budget, as plain sums over the members.  They hold for
    arguments of their Go types and fewer than [2^30] clusters, which keeps
    every [int64] sum of [int32] counts in range; the wraps written out in the
    model then never happen. *)

From S2P Require Import Prelude Remainder Apportion Transition.
Local Open Scope Z_scope.

Abbreviation maxMembers := 1073741824.

(** The types of the fields of a [Transition], and the bound on its clusters. *)
Record transition_args (t : Transition) : Prop := {
  ta_from : ∀ k v, Targets (From t) !! k = Some v → int32_range v;
  ta_desired : ∀ k v, Targets (Desired t) !! k = Some v → int32_range v;
  ta_current : ∀ k v, Current t !! k = Some v → int32_range v;
  ta_from_un : int32_range (Unassigned (From t));
  ta_desired_un : int32_range (Unassigned (Desired t));
  ta_members : ∀ k s, Members t !! k = Some s → int32_range (Ready s) ∧ int32_range (Occupied s);
  ta_surge : int64_range (Surge t);
  ta_reserved : int32_range (RolloutReserved t);
  ta_size : Z.of_nat (length (allNames t)) ≤ maxMembers;
}.

(** ** Plan totals *)

Lemma addTarget_Ok total entry :
  0 ≤ total ≤ MaxInt64 → int64_range (snd entry) →
  ∀ total', addTarget total entry = Ok total' ↔
    fst entry ≠ "" ∧ 0 ≤ snd entry ∧ total + snd entry ≤ MaxInt64
    ∧ total' = total + snd entry.
Proof.
  destruct entry as [k c]. simpl. intros Ht Hc total'. unfold int64_range in *.
  rewrite i64_id by (unfold int64_range; lia).
  repeat case_decide; [naive_solver lia|naive_solver lia|].
  rewrite i64_id by (unfold int64_range; lia). split; [intros [= <-]|naive_solver].
  split_and!; [naive_solver|lia..].
Qed.

(** The total of a plan's entries, in whatever order the map yields them. *)
Lemma addTarget_run u l :
  0 ≤ u ≤ MaxInt64 → (∀ e, e ∈ l → int64_range (snd e)) →
  ∀ total, ofold addTarget u l = Ok total ↔
    (∀ e, e ∈ l → fst e ≠ "" ∧ 0 ≤ snd e) ∧ total = u + zsum_with snd l ∧ total ≤ MaxInt64.
Proof.
  revert u. induction l as [|e l IH]; intros u Hu Hl total; simpl.
  { split; [intros [= <-]|intros (_ & -> & _)]; cbn.
    - split_and!; [set_solver|lia..].
    - f_equal. lia. }
  rewrite zsum_with_cons. split.
  - intros (u' & He & Hr)%obind_Ok_inv.
    apply addTarget_Ok in He as (? & ? & ? & ->); [|lia|set_solver].
    apply IH in Hr as (Hall & -> & ?); [|lia|set_solver].
    split_and!; [|lia..]. intros e' [->|?]%elem_of_cons; auto.
  - intros (Hall & -> & Hm).
    assert (0 ≤ zsum_with snd l) by (apply zsum_with_nonneg; intros; apply Hall; set_solver).
    destruct (Hall e) as [Hk Hc]; [set_solver|].
    rewrite (proj2 (addTarget_Ok u e ltac:(lia) ltac:(set_solver) (u + snd e)))
      by (split_and!; done || lia).
    simpl. apply IH; [lia|set_solver|]. split_and!; [set_solver|lia..].
Qed.

Lemma int32_int64 z : int32_range z → int64_range z.
Proof. unfold int32_range, int64_range. lia. Qed.

Lemma planTotal_Ok plan total :
  (∀ k v, Targets plan !! k = Some v → int32_range v) → int32_range (Unassigned plan) →
  planTotal plan = Ok total ↔
  0 ≤ Unassigned plan ∧ (∀ k v, Targets plan !! k = Some v → k ≠ "" ∧ 0 ≤ v)
  ∧ total = Unassigned plan + map_zsum (Targets plan) ∧ total ≤ MaxInt64.
Proof.
  intros Hr Hu. unfold planTotal, int32_range in *. case_decide; [naive_solver lia|].
  rewrite addTarget_run; [|lia|].
  - unfold map_zsum. split.
    + intros (Hall & -> & ?). split_and!; [lia| |done|done].
      intros k v Hk. by apply (Hall (k, v)), elem_of_map_to_list.
    + intros (? & Hall & -> & ?). split_and!; [|done|done].
      intros [k v] Hk%elem_of_map_to_list. by apply Hall.
  - intros [k v] Hk%elem_of_map_to_list. apply int32_int64. by eapply Hr.
Qed.

(** The order the map is walked in does not matter. *)
Lemma planTotal_order plan total l :
  (∀ k v, Targets plan !! k = Some v → int32_range v) → int32_range (Unassigned plan) →
  l ≡ₚ map_to_list (Targets plan) →
  planTotal plan = Ok total ↔ 0 ≤ Unassigned plan ∧ ofold addTarget (Unassigned plan) l = Ok total.
Proof.
  intros Hr Hu Hp. unfold planTotal, int32_range in *. case_decide; [naive_solver lia|].
  assert (∀ e, e ∈ map_to_list (Targets plan) → int64_range (snd e)).
  { intros [k v] Hk%elem_of_map_to_list. apply int32_int64. by eapply Hr. }
  rewrite !addTarget_run; [|lia|by setoid_rewrite Hp|lia|done].
  setoid_rewrite Hp. split; [split; [lia|done]|naive_solver].
Qed.

(** ** The members *)

Lemma allNames_NoDup t : NoDup (allNames t).
Proof. apply NoDup_sort_slice, NoDup_elements. Qed.

Lemma elem_of_allNames t k :
  k ∈ allNames t ↔ is_Some (Targets (Desired t) !! k) ∨ is_Some (Targets (From t) !! k)
                   ∨ is_Some (Current t !! k) ∨ is_Some (Members t !! k).
Proof.
  unfold allNames. rewrite elem_of_sort_slice, elem_of_elements, !elem_of_union, !elem_of_dom.
  tauto.
Qed.

(** A member view of nonnegative counts with a consistent observation. *)
Record wf_member (m : memberView) : Prop := {
  wm_original : 0 ≤ original m ≤ MaxInt32;
  wm_current : 0 ≤ current m ≤ MaxInt32;
  wm_goal : 0 ≤ goal m ≤ MaxInt32;
  wm_ready : 0 ≤ Ready (state m) ≤ Occupied (state m);
  wm_occupied : Occupied (state m) ≤ MaxInt32;
  wm_absent : Absent (state m) = true → Occupied (state m) = 0;
  wm_drained : Drained (state m) = true → Routable (state m) = false;
}.

Lemma mget_range (m : gmap string Z) k :
  (∀ k v, m !! k = Some v → int32_range v) → (∀ k v, m !! k = Some v → k ≠ "" ∧ 0 ≤ v) →
  0 ≤ mget m k ≤ MaxInt32.
Proof.
  intros H1 H2. unfold mget. destruct (m !! k) as [v|] eqn:E; simpl; [|lia].
  destruct (H1 _ _ E), (H2 _ _ E). lia.
Qed.

Lemma inconsistent_false s :
  inconsistent s = false →
  0 ≤ Ready s ≤ Occupied s ∧ (Absent s = true → Occupied s = 0)
  ∧ (Drained s = true → Routable s = false).
Proof.
  unfold inconsistent. rewrite !orb_false_iff, !andb_false_iff, orb_false_iff.
  intros ((((? & ?) & ?) & Ha) & Hd). split_and!; [lia|lia| |].
  - intros Hab. destruct Ha as [?|[??]]; [congruence|lia].
  - intros Hdr. destruct Hd; congruence.
Qed.

(** ** The budget *)

(** What one member adds to each count, without the wraps. *)
Definition m_use (m : memberView) : Z := Z.max (current m) (Occupied (state m)).
Definition m_serving (m : memberView) : Z :=
  if serving (state m) then Z.min (Ready (state m)) (current m) else 0.
Definition m_untargeted (m : memberView) : Z :=
  if routableWithoutTarget m then Ready (state m) else 0.
Definition m_retire (m : memberView) : Z :=
  - Z.max 0 (original m - current m)
  - (if Drained (state m) then Z.min (original m) (current m) else 0)
  + (if serving (state m) then Z.max 0 (Z.min (Ready (state m)) (current m) - original m) else 0).

Lemma m_bounds m :
  wf_member m →
  0 ≤ m_use m ≤ MaxInt32 ∧ 0 ≤ m_serving m ≤ MaxInt32 ∧ 0 ≤ m_untargeted m ≤ MaxInt32
  ∧ - 4294967294 ≤ m_retire m ≤ MaxInt32.
Proof.
  intros [????? _ _]. unfold m_use, m_serving, m_untargeted, m_retire.
  destruct (serving _), (routableWithoutTarget _), (Drained _); lia.
Qed.

(** The counts after a list of members, from the counts before. *)
Definition tally_after (b : tally) (ms : list memberView) : tally :=
  mkTally (targetsGrow b || existsb (λ m, goal m >? current m) ms)
          (targetsShrink b || existsb (λ m, goal m <? current m) ms)
          (inUse b + zsum_with m_use ms)
          (servingReady b + zsum_with m_serving ms)
          (readyWithoutTarget b + zsum_with m_untargeted ms)
          (counted b + zsum_with m_retire ms).

(** A tally small enough for one more member. *)
Record tally_small (n : Z) (b : tally) : Prop := {
  ts_use : 0 ≤ inUse b ≤ (n + 1) * 2147483648;
  ts_serving : 0 ≤ servingReady b ≤ n * 2147483648;
  ts_untargeted : 0 ≤ readyWithoutTarget b ≤ n * 2147483648;
  ts_counted : - 4294967296 * n ≤ counted b ≤ (2 * maxMembers + n) * 2147483648;
}.

Lemma checkMember_Ok n b m b' :
  0 ≤ n < maxMembers → tally_small n b →
  0 ≤ original m ≤ MaxInt32 → 0 ≤ current m ≤ MaxInt32 → 0 ≤ goal m ≤ MaxInt32 →
  int32_range (Ready (state m)) ∧ int32_range (Occupied (state m)) →
  checkMember b m = Ok b' →
  wf_member m ∧ b' = tally_after b [m] ∧ tally_small (n + 1) b'.
Proof.
  intros Hn [????] Ho Hc Hg [Hr Hocc]. unfold checkMember.
  destruct (inconsistent (state m)) eqn:Ei; [done|].
  apply inconsistent_false in Ei as (? & ? & ?).
  assert (wf_member m) as Hwf by (split; done || (unfold int32_range in *; lia)).
  pose proof (m_bounds m Hwf) as (? & ? & ? & ?).
  unfold countMember. case_decide as Hovf; [done|]. intros [= <-].
  split; [done|]. unfold int32_range in *.
  assert (∀ x y : tally, x = y ∧ tally_small (n + 1) y → x = y ∧ tally_small (n + 1) x) as Hfin
    by naive_solver.
  apply Hfin. clear Hfin Hovf. unfold tally_after. rewrite !zsum_with_cons, !zsum_with_nil.
  unfold m_use, m_serving, m_untargeted, m_retire in *. simpl existsb. rewrite !orb_false_r.
  split.
  - destruct (serving (state m)), (routableWithoutTarget m), (Drained (state m));
      unwrap; f_equal; lia.
  - split; cbn; lia.
Qed.

Lemma tally_after_app b ms1 ms2 : tally_after b (ms1 ++ ms2) = tally_after (tally_after b ms1) ms2.
Proof.
  unfold tally_after. cbn. rewrite !zsum_with_app, !existsb_app, !orb_assoc, !Z.add_assoc. done.
Qed.

Lemma tally_after_nil b : tally_after b [] = b.
Proof. destruct b. unfold tally_after. cbn. by rewrite !orb_false_r, !Z.add_0_r. Qed.

Lemma viewOf_int32 t k :
  transition_args t →
  int32_range (Ready (state (viewOf t k))) ∧ int32_range (Occupied (state (viewOf t k))).
Proof.
  intros Ha. cbn. destruct (Members t !! k) as [s|] eqn:E; cbn; [by eapply (ta_members t)|].
  unfold int32_range. lia.
Qed.

(** Every counted member is well formed, and the counts are the sums. *)
Lemma checkMember_loop t b ms b' :
  transition_args t →
  (∀ m, m ∈ ms → ∃ k, m = viewOf t k) →
  (∀ m, m ∈ ms → 0 ≤ original m ≤ MaxInt32 ∧ 0 ≤ current m ≤ MaxInt32 ∧ 0 ≤ goal m ≤ MaxInt32) →
  Z.of_nat (length ms) ≤ maxMembers → tally_small 0 b →
  ofold checkMember b ms = Ok b' →
  Forall wf_member ms ∧ b' = tally_after b ms ∧ tally_small (Z.of_nat (length ms)) b'.
Proof.
  intros Ha Hview Hr Hlen Hb. apply (ofold_Ok_ind _ (λ pre b', Forall wf_member pre
    ∧ b' = tally_after b pre ∧ tally_small (Z.of_nat (length pre)) b')).
  { by rewrite tally_after_nil. }
  intros pre m post b1 b2 Hms (Hwf & -> & Hs) Hc.
  assert (m ∈ ms) as Hm by (rewrite Hms; set_solver).
  destruct (Hview m Hm) as [k ->]. destruct (Hr _ Hm) as (? & ? & ?).
  eapply (checkMember_Ok (Z.of_nat (length pre))) in Hc as (Hm' & -> & Hs'); try done.
  - rewrite length_app. cbn [length].
    replace (Z.of_nat (length pre + 1)) with (Z.of_nat (length pre) + 1) by lia.
    split_and!; [|by rewrite tally_after_app|done].
    apply Forall_app. auto.
  - rewrite Hms, length_app in Hlen. cbn [length] in Hlen. lia.
  - by apply viewOf_int32.
Qed.

Lemma map_zsum_names (m : gmap string Z) ks :
  NoDup ks → (∀ k, is_Some (m !! k) → k ∈ ks) → map_zsum m = zsum_with (mget m) ks.
Proof.
  intros Hnd Hsub. rewrite (map_zsum_keys m (sorted_keys m));
    [|apply NoDup_sorted_keys|intros k; apply elem_of_sorted_keys].
  assert (ks ≡ₚ sorted_keys m ++ filter (λ k, k ∉ sorted_keys m) ks) as Hp.
  { apply NoDup_Permutation; [done| |].
    - apply NoDup_app. split_and!; [apply NoDup_sorted_keys| |by apply NoDup_filter].
      intros x Hx. rewrite list_elem_of_filter. naive_solver.
    - intros x. rewrite elem_of_app, list_elem_of_filter, elem_of_sorted_keys.
      destruct (decide (x ∈ sorted_keys m)) as [Hx|Hx]; rewrite elem_of_sorted_keys in Hx;
        naive_solver. }
  rewrite Hp, zsum_with_app.
  rewrite (zsum_with_ext (mget m) (λ _, 0) (filter _ _)).
  - rewrite zsum_with_const. unfold mget. lia.
  - intros x [Hx _]%list_elem_of_filter. rewrite elem_of_sorted_keys in Hx.
    unfold mget. by rewrite (proj2 (eq_None_not_Some _) Hx).
Qed.

(** ** The reading, as a record *)

(** What [readTransition] establishes when it succeeds. *)
Record reading (t : Transition) (whole : bool) (v : view) (b : tally) (f : funds) : Prop := {
  rd_in : vin v = t;
  rd_whole : wholeMembers v = whole;
  rd_members : members v = viewOf t <$> allNames t;
  rd_wf : Forall wf_member (members v);
  rd_from : fromReplicas v = Unassigned (From t) + zsum_with original (members v);
  rd_from_un : 0 ≤ Unassigned (From t);
  rd_desired : desiredReplicas v = Unassigned (Desired t) + zsum_with goal (members v);
  rd_desired_un : 0 ≤ Unassigned (Desired t);
  rd_surge : 0 ≤ Surge t;
  rd_reserved : 0 ≤ RolloutReserved t;
  rd_tally : b = tally_after (mkTally false false (RolloutReserved t) 0 0
                                (Z.max 0 (fromReplicas v - desiredReplicas v))) (members v);
  rd_small : tally_small maxMembers b;
  rd_from_small : fromReplicas v ≤ (maxMembers + 1) * 2147483648;
  rd_desired_small : desiredReplicas v ≤ (maxMembers + 1) * 2147483648;
  rd_step : fstep f = startStep (members v);
  rd_retirement : retirementAllowance f =
    if fromReplicas v - Unassigned (From t) <? desiredReplicas v
    then Z.min (counted b) (Z.max 0 (servingReady b - desiredReplicas v)) else counted b;
  rd_above : readyAboveDesired f =
    Z.max 0 (servingReady b + readyWithoutTarget b - desiredReplicas v);
  rd_minimum : servingAboveMinimum f =
    Z.max 0 (servingReady b - Z.min (fromReplicas v) (desiredReplicas v));
}.

Lemma plan_views (t : Transition) (g : memberView → Z) (m : gmap string Z) :
  (∀ k, g (viewOf t k) = mget m k) → (∀ k, is_Some (m !! k) → k ∈ allNames t) →
  map_zsum m = zsum_with g (viewOf t <$> allNames t).
Proof.
  intros Hg Hs. rewrite (map_zsum_names m (allNames t) (allNames_NoDup t) Hs).
  unfold zsum_with at 2. rewrite <-list_fmap_compose. apply zsum_with_ext. intros k _. by rewrite <-Hg.
Qed.

Lemma zsum_with_views_le t (g : memberView → Z) :
  transition_args t → (∀ m, m ∈ viewOf t <$> allNames t → 0 ≤ g m ≤ MaxInt32) →
  0 ≤ zsum_with g (viewOf t <$> allNames t) ≤ maxMembers * 2147483648.
Proof.
  intros Ha Hg. split; [apply zsum_with_nonneg; intros; by apply Hg|].
  etransitivity; [apply (zsum_with_mono _ (λ _, 2147483648))|].
  - intros m Hm. specialize (Hg m Hm). lia.
  - rewrite zsum_with_const, length_fmap. pose proof (ta_size t Ha). lia.
Qed.

Lemma tally_small_weaken n n' b : n ≤ n' → tally_small n b → tally_small n' b.
Proof. intros Hn [????]. split; lia. Qed.

Lemma readBudget_reading v b f :
  transition_args (vin v) →
  members v = viewOf (vin v) <$> allNames (vin v) →
  (∀ m, m ∈ members v → 0 ≤ original m ≤ MaxInt32 ∧ 0 ≤ current m ≤ MaxInt32 ∧ 0 ≤ goal m ≤ MaxInt32) →
  0 ≤ fromReplicas v ≤ (maxMembers + 1) * 2147483648 →
  0 ≤ desiredReplicas v ≤ (maxMembers + 1) * 2147483648 →
  0 ≤ Unassigned (From (vin v)) → 0 ≤ RolloutReserved (vin v) →
  readBudget v = Ok (b, f) →
  Forall wf_member (members v)
  ∧ b = tally_after (mkTally false false (RolloutReserved (vin v)) 0 0
          (Z.max 0 (fromReplicas v - desiredReplicas v))) (members v)
  ∧ tally_small maxMembers b
  ∧ f = mkFunds (startStep (members v))
      (if fromReplicas v - Unassigned (From (vin v)) <? desiredReplicas v
       then Z.min (counted b) (Z.max 0 (servingReady b - desiredReplicas v)) else counted b)
      (Z.max 0 (servingReady b + readyWithoutTarget b - desiredReplicas v))
      (Z.max 0 (servingReady b - Z.min (fromReplicas v) (desiredReplicas v))).
Proof.
  intros Ha Hms Hr Hf Hd Hu Hres. unfold readBudget.
  pose proof (ta_from_un _ Ha) as Hun. pose proof (ta_reserved _ Ha) as Hrr.
  pose proof (ta_size _ Ha) as Hsize. unfold int32_range in Hun, Hrr.
  intros (b' & Hloop & Heq)%obind_Ok_inv.
  rewrite (i64_id (fromReplicas v - desiredReplicas v)) in Hloop by (unfold int64_range; lia).
  apply (checkMember_loop (vin v)) in Hloop as (Hwf & Hb & Hs); [|done| |done| |].
  - assert (tally_small maxMembers b') as Hs'.
    { eapply tally_small_weaken; [|exact Hs]. rewrite Hms, length_fmap. lia. }
    destruct Hs' as [? ? ? ?] eqn:E. injection Heq as <- <-.
    split_and!; [done..|]. unwrap. done.
  - rewrite Hms. intros m (k & -> & _)%list_elem_of_fmap. eauto.
  - rewrite Hms, length_fmap. lia.
  - split; cbn; lia.
Qed.

(** Reading a well-typed input never wraps: the totals, the counts and the
    allowances are the sums over the members the comments describe. *)
Lemma readTransition_reading t whole v b f :
  transition_args t → readTransition t whole = Ok (v, b, f) → reading t whole v b f.
Proof.
  intros Ha. unfold readTransition.
  destruct (planTotal (From t)) as [fromR| |] eqn:Ef; simpl; [|done..].
  destruct (planTotal (Desired t)) as [desR| |] eqn:Ed; simpl; [|done..].
  destruct (planTotal (mkPlan (Current t) 0)) as [curR| |] eqn:Ec; simpl; [|done..].
  apply planTotal_Ok in Ef as (Hfu & Hf & -> & _); [|apply Ha..].
  apply planTotal_Ok in Ed as (Hdu & Hd & -> & _); [|apply Ha..].
  apply planTotal_Ok in Ec as (_ & Hc & _); [|apply Ha|by unfold int32_range]. simpl in Hc.
  case_decide as Hneg; [done|]. unfold readMembers. case_decide; [done|]. simpl.
  set (ms := viewOf t <$> allNames t).
  rewrite (plan_views t original), (plan_views t goal); [|done| |done|];
    [|intros k ?; apply elem_of_allNames; tauto..].
  fold ms.
  assert (∀ m, m ∈ ms → 0 ≤ original m ≤ MaxInt32 ∧ 0 ≤ current m ≤ MaxInt32
    ∧ 0 ≤ goal m ≤ MaxInt32) as Hr.
  { intros m (k & -> & _)%list_elem_of_fmap. cbn.
    split_and!; apply mget_range; done || apply Ha. }
  pose proof (zsum_with_views_le t original Ha ltac:(intros; by apply Hr)) as Ho.
  pose proof (zsum_with_views_le t goal Ha ltac:(intros; by apply Hr)) as Hg. fold ms in Ho, Hg.
  pose proof (ta_from_un _ Ha) as Hun. pose proof (ta_desired_un _ Ha) as Hdn.
  unfold int32_range in Hun, Hdn.
  intros ([b' f'] & Hrb & [= <- <- <-])%obind_Ok_inv.
  apply readBudget_reading in Hrb as (Hwf & Hb & Hs & Hfn); cbn in *; try done; try lia.
  split; cbn; try done; try lia; by rewrite Hfn.
Qed.

(** ** Sample moves *)

(** A member that runs and serves its replicas, one that is drained, and one
    that holds nothing. *)
Definition up (n : Z) : MemberState := mkMember true true true true false false n n.
Definition down (n : Z) : MemberState := mkMember true true true false true false n n.
Definition idle : MemberState := mkMember true true true false false true 0 0.

(** Three replicas move from [a] to [b], one at a time; one has arrived. *)
Definition shifting : Transition :=
  mkTransition (mkPlan {["a" := 3]} 0) (list_to_map [("a", 3); ("b", 1)]) (mkPlan {["b" := 3]} 0)
    (list_to_map [("a", up 3); ("b", up 1)]) 1 0.

(** Both of [a]'s replicas move to [b] whole; [b] has come up and [a] is
    drained. *)
Definition handing_over : Transition :=
  mkTransition (mkPlan {["a" := 2]} 0) (list_to_map [("a", 2); ("b", 2)]) (mkPlan {["b" := 2]} 0)
    (list_to_map [("a", down 2); ("b", up 2)]) 2 0.

(** The move is over. *)
Definition moved : Transition :=
  mkTransition (mkPlan {["a" := 2]} 0) (list_to_map [("a", 0); ("b", 2)]) (mkPlan {["b" := 2]} 0)
    (list_to_map [("a", idle); ("b", up 2)]) 2 0.

Ltac sample_args :=
  split; cbn [From Desired Current Targets Unassigned Members Surge RolloutReserved];
  first [by_entries | done | vm_compute; done].

Lemma shifting_args : transition_args shifting.
Proof. sample_args. Qed.
Lemma handing_over_args : transition_args handing_over.
Proof. sample_args. Qed.
Lemma moved_args : transition_args moved.
Proof. sample_args. Qed.
