(* ===== verification/TransitionSafety.v ===== *)
(** * What a transition step may do

    The safety half of [Transition]: reductions and drains spend only serving
    capacity above the smaller plan, growth spends only the surge allowance,
    one step never does both, a target moves toward its goal and never past it,
    and a target reaches zero only for a member that is drained or absent. *)

From S2P Require Import Prelude Remainder Apportion Transition TransitionFacts.
Local Open Scope Z_scope.

(** ** Reading a step *)

(** The target a step gives a member, and the ready replicas the member still
    serves with once the step is applied: none if the step drains it. *)
Definition target_in (s : Step) (m : memberView) : Z := mget (STargets s) (name m).
Definition served_at (m : memberView) (v : Z) : Z :=
  if serving (state m) then Z.min (Ready (state m)) v else 0.
Definition served_after (s : Step) (m : memberView) : Z :=
  if decide (name m ∈ Drain s) then 0 else served_at m (target_in s m).

Lemma served_at_current m : served_at m (current m) = m_serving m.
Proof. done. Qed.

(** ** Reductions *)

Ltac fcbn := cbn [fstep servingAboveMinimum retirementAllowance readyAboveDesired].

(** Allowances far from the ends of [int64]. *)
Record funds_ok (f : funds) : Prop := {
  fo_ra : - 4611686020574871552 ≤ retirementAllowance f ≤ 6917529029788565504;
  fo_above : 0 ≤ readyAboveDesired f ≤ 6917529029788565504;
  fo_minimum : 0 ≤ servingAboveMinimum f ≤ 6917529029788565504;
}.

(** What one member's turn does: nothing; drain it at the cost of all it
    serves; or lower its target toward its goal at the cost of what it no
    longer serves.  A target is lowered to zero only when the member is drained
    or absent. *)
Inductive reduction_effect (whole : bool) (f : funds) (m : memberView) (f' : funds) : Prop :=
| re_keep : f' = f → reduction_effect whole f m f'
| re_drain : fstep f' = withDrain (fstep f) (name m) → Drained (state m) = false →
    goal m = 0 ∧ 0 < m_use m →
    servingAboveMinimum f' = servingAboveMinimum f - m_serving m →
    reduction_effect whole f m f'
| re_target v : fstep f' = withTargets (fstep f) (<[name m := v]> (STargets (fstep f))) →
    goal m ≤ v < current m → (whole = true → v = goal m) → (v = 0 → Drained (state m) = true ∨ Absent (state m) = true) →
    servingAboveMinimum f' = servingAboveMinimum f - (m_serving m - served_at m v) →
    reduction_effect whole f m f'.

Lemma drainWithoutTarget_effect whole f m :
  wf_member m → funds_ok f → occupiedWithoutTarget m = true →
  reduction_effect whole f m (drainWithoutTarget f m) ∧ funds_ok (drainWithoutTarget f m).
Proof.
  intros [? ? ? ? ? _ _] Hf. pose proof Hf as [? ? ?]. unfold occupiedWithoutTarget.
  rewrite !andb_true_iff, negb_true_iff. intros (((? & ?) & ?) & ?).
  assert (m_serving m = 0) as Hs0 by (unfold m_serving; destruct (serving _); lia).
  unfold drainWithoutTarget. destruct (Routable (state m)); [|].
  - destruct (Ready (state m) >? readyAboveDesired f) eqn:?; [split; [by apply re_keep|done]|].
    unwrap. split; [apply re_drain; fcbn; unfold m_use; done || lia|split; fcbn; lia].
  - split; [apply re_drain; fcbn; unfold m_use; done || lia|split; fcbn; lia].
Qed.

Lemma unbacked_bounds whole m :
  wf_member m → 0 ≤ unbackedReplicas whole m ≤ current m.
Proof.
  intros [? ? ? ? ? _ _]. unfold unbackedReplicas.
  destruct (Drained _); [lia|]. destruct (_ || _); [|lia]. unwrap. lia.
Qed.

Lemma reduceFunded_effect whole f m :
  wf_member m → funds_ok f → STargets (fstep f) !! name m = Some (current m) →
  reducible m = true →
  reduction_effect whole f m (reduceFunded whole f m) ∧ funds_ok (reduceFunded whole f m).
Proof.
  intros Hwf Hf Ht. pose proof Hf as [? ? ?]. unfold reducible. rewrite !andb_true_iff. intros ((? & HK) & HA).
  pose proof (unbacked_bounds whole m Hwf) as Hub. destruct Hwf as [? ? ? ? ? _ Hdr].
  assert (serving (state m) = Routable (state m)) as Hsv
    by (unfold serving; by rewrite HK, HA).
  assert (mget (STargets (fstep f)) (name m) = current m) as Hm by (unfold mget; by rewrite Ht).
  unfold reduceFunded. rewrite Hm.
  set (u := unbackedReplicas whole m) in *. unwrap.
  set (r1 := Z.min (current m - goal m) _).
  assert (0 ≤ r1 ≤ current m - goal m ∧ r1 ≤ u + Z.max 0 (retirementAllowance f)) as Hr1 by lia.
  clearbody r1. destruct (Routable (state m)) eqn:HR; unwrap.
  - set (r := Z.min r1 _).
    assert (0 ≤ r ≤ r1 ∧ r ≤ Z.max 0 (current m - Ready (state m)) + servingAboveMinimum f) by lia.
    clearbody r. destruct ((r =? 0) || _) eqn:Hz; [split; [by apply re_keep|done]|].
    rewrite orb_false_iff in Hz. unwrap.
    destruct ((current m =? r) && _) eqn:Hd.
    + rewrite andb_true_iff, negb_true_iff in Hd.
      split; [apply re_drain; fcbn; [done|tauto|unfold m_use; lia|]|split; fcbn; lia].
      unfold m_serving. rewrite Hsv. lia.
    + rewrite andb_false_iff, negb_false_iff in Hd.
      split; [eapply re_target; fcbn; [done|lia|intros ->; lia| |]|split; fcbn; lia].
      * intros ?. left. destruct Hd; [lia|done].
      * unfold m_serving, served_at. rewrite Hsv. lia.
  - destruct ((r1 =? 0) || _) eqn:Hz; [split; [by apply re_keep|done]|].
    rewrite orb_false_iff in Hz. unwrap.
    destruct ((current m =? r1) && _) eqn:Hd.
    + rewrite andb_true_iff, negb_true_iff in Hd.
      split; [apply re_drain; fcbn; [done|tauto|unfold m_use; lia|]|split; fcbn; lia].
      unfold m_serving. rewrite Hsv. lia.
    + rewrite andb_false_iff, negb_false_iff in Hd.
      split; [eapply re_target; fcbn; [done|lia|intros ->; lia| |]|split; fcbn; lia].
      * intros ?. left. destruct Hd; [lia|done].
      * unfold m_serving, served_at. rewrite Hsv. lia.
Qed.

Lemma planReduction_effect whole f m :
  wf_member m → funds_ok f → STargets (fstep f) !! name m = Some (current m) →
  reduction_effect whole f m (planReduction whole f m) ∧ funds_ok (planReduction whole f m).
Proof.
  intros Hwf Hf Ht. unfold planReduction.
  destruct (occupiedWithoutTarget m) eqn:E1; [by apply drainWithoutTarget_effect|].
  destruct (Absent (state m) && _) eqn:E2.
  - rewrite andb_true_iff in E2. destruct E2 as [Ha ?].
    destruct Hwf as [? ? ? ? ? Hab _]. specialize (Hab Ha). destruct Hf as [? ? ?].
    split; [eapply re_target; fcbn; [done|lia|done|auto|]|split; fcbn; lia].
    unfold m_serving, served_at. destruct (serving _); lia.
  - destruct (reducible m) eqn:E3; [by apply reduceFunded_effect|].
    split; [by apply re_keep|done].
Qed.

(** The state of the reductions once the members [pre] have had their turn, in
    a walk over [ms] from the funds [f0]. *)
Record reduced (whole : bool) (ms : list memberView) (f0 : funds) (pre : list memberView) (f : funds) : Prop := {
  rs_funds : funds_ok f;
  rs_todo : ∀ m, m ∈ ms → m ∉ pre →
    STargets (fstep f) !! name m = Some (current m) ∧ name m ∉ Drain (fstep f);
  rs_done : ∀ m, m ∈ pre →
    (target_in (fstep f) m = current m ∨ goal m ≤ target_in (fstep f) m < current m)
    ∧ (whole = true → target_in (fstep f) m = current m ∨ target_in (fstep f) m = goal m)
    ∧ (target_in (fstep f) m = 0 →
       current m = 0 ∨ Drained (state m) = true ∨ Absent (state m) = true)
    ∧ (name m ∈ Drain (fstep f) →
       target_in (fstep f) m = current m ∧ (goal m = 0 ∧ 0 < m_use m)
       ∧ Drained (state m) = false);
  rs_dom : ∀ k, is_Some (STargets (fstep f) !! k) ↔ k ∈ name <$> ms;
  rs_drain : ∀ k, k ∈ Drain (fstep f) → k ∈ name <$> pre;
  rs_serving : zsum_with (λ m, m_serving m - served_after (fstep f) m) pre
    = servingAboveMinimum f0 - servingAboveMinimum f;
  rs_resume : Resume (fstep f) = Resume (fstep f0);
  rs_complete : Complete (fstep f) = Complete (fstep f0);
}.

Lemma elem_of_name_inj (ms : list memberView) m m' :
  NoDup (name <$> ms) → m ∈ ms → m' ∈ ms → name m = name m' → m = m'.
Proof.
  intros Hnd Hm Hm' Heq. apply list_elem_of_lookup in Hm as [i Hi].
  apply list_elem_of_lookup in Hm' as [j Hj].
  assert (i = j) as ->; [|congruence].
  eapply NoDup_lookup; [exact Hnd|..]; rewrite list_lookup_fmap;
    [by rewrite Hi|rewrite Hj; simpl; by rewrite Heq].
Qed.

Lemma earlier_names_differ (ms pre : list memberView) m post :
  ms = pre ++ m :: post → NoDup (name <$> ms) → ∀ m', m' ∈ pre → name m' ≠ name m.
Proof.
  intros Hms Hnd m' Hm' Heq. rewrite Hms, fmap_app, NoDup_app in Hnd. destruct Hnd as (_ & Hd & _).
  apply (Hd (name m')); [by apply list_elem_of_fmap_2|]. rewrite Heq. simpl. by left.
Qed.

(** A turn changes only what the step says of its own member. *)
Lemma effect_other whole f m f' m' :
  reduction_effect whole f m f' → name m' ≠ name m →
  target_in (fstep f') m' = target_in (fstep f) m'
  ∧ (name m' ∈ Drain (fstep f') ↔ name m' ∈ Drain (fstep f))
  ∧ STargets (fstep f') !! name m' = STargets (fstep f) !! name m'.
Proof.
  intros He Hne. unfold target_in, mget.
  destruct He as [-> | -> _ _ _|v -> _ _ _ _]; cbn; [done| |].
  - set_solver.
  - rewrite lookup_insert_ne by done. done.
Qed.

Lemma reduced_step whole ms f0 pre m post f :
  ms = pre ++ m :: post → NoDup (name <$> ms) → wf_member m →
  reduced whole ms f0 pre f → reduced whole ms f0 (pre ++ [m]) (planReduction whole f m).
Proof.
  intros Hms Hnd Hwf [Hf Htodo Hdone Hdom Hdrain Hserv Hres Hcomp].
  assert (m ∈ ms) as Hm by (rewrite Hms; set_solver).
  pose proof (earlier_names_differ _ _ _ _ Hms Hnd) as Hpre.
  assert (m ∉ pre) as Hnot by (intros Hin; by apply (Hpre m Hin)).
  destruct (Htodo m Hm Hnot) as [Ht Hnd0].
  destruct (planReduction_effect whole f m Hwf Hf Ht) as [He Hf']. set (f' := planReduction whole f m) in *.
  assert (target_in (fstep f) m = current m) as Htm by (unfold target_in, mget; by rewrite Ht).
  split; [done|..].
  - intros m' Hm' Hn. assert (name m' ≠ name m) as Hne.
    { intros Heq. apply (elem_of_name_inj ms) in Heq as ->; try done. set_solver. }
    destruct (effect_other _ _ _ _ m' He Hne) as (_ & -> & ->). apply Htodo; set_solver.
  - intros m' [Hm'| ->%list_elem_of_singleton]%elem_of_app.
    + destruct (effect_other _ _ _ _ m' He (Hpre m' Hm')) as (-> & -> & _). by apply Hdone.
    + destruct Hwf. unfold target_in, mget in *.
      destruct He as [-> | -> ? ? _|v -> ? ? Hz _]; cbn [STargets Drain withDrain withTargets].
      * rewrite Htm. split_and!; [by left|by left|by left|tauto].
      * rewrite Htm. split_and!; [by left|by left|intros ?; by left|tauto].
      * rewrite lookup_insert_eq. cbn.
        split_and!; [by right|intros ?; right; auto|intros ?; right; auto|tauto].
  - intros k. rewrite <-Hdom. destruct He as [-> | -> _ _ _|v -> _ _ _ _]; cbn; [done|done|].
    destruct (decide (k = name m)) as [->|]; [|by rewrite lookup_insert_ne].
    rewrite lookup_insert_eq, Ht. split; eauto.
  - intros k. rewrite fmap_app. destruct He as [-> | -> _ _ _|v -> _ _ _ _]; cbn;
      set_solver.
  - rewrite zsum_with_app, zsum_with_cons, zsum_with_nil.
    rewrite (zsum_with_ext _ (λ m, m_serving m - served_after (fstep f) m) pre).
    + rewrite Hserv. unfold served_after at 1.
      destruct He as [-> | -> _ _ ->|v -> _ _ _ ->]; cbn [Drain withDrain withTargets].
      * rewrite decide_False by done. rewrite Htm, served_at_current. lia.
      * rewrite decide_True by set_solver. lia.
      * rewrite decide_False by done. unfold target_in, mget. cbn. rewrite lookup_insert_eq. cbn. lia.
    + intros m' Hm'. unfold served_after.
      destruct (effect_other _ _ _ _ m' He (Hpre m' Hm')) as (-> & Hiff & _).
      by rewrite (decide_ext _ _ _ _ Hiff).
  - rewrite <-Hres. by destruct He as [-> | -> _ _ _|v -> _ _ _ _].
  - rewrite <-Hcomp. by destruct He as [-> | -> _ _ _|v -> _ _ _ _].
Qed.

Lemma startTargets_names t ks :
  startTargets (viewOf t <$> ks) = foldl (λ m k, <[k := mget (Current t) k]> m) ∅ ks.
Proof.
  unfold startTargets. generalize (∅ : gmap string Z).
  induction ks as [|k ks IH]; intros acc; simpl; [done|]. apply IH.
Qed.

Lemma startTargets_lookup t k :
  startTargets (viewOf t <$> allNames t) !! k
  = if decide (k ∈ allNames t) then Some (mget (Current t) k) else None.
Proof. by rewrite startTargets_names, foldl_insert_lookup. Qed.

(** What the drains of members without a target cost: the ready replicas the ones
    that are routed to give up, paid out of what is ready above the desired plan. *)
Definition lingering_lost (s : Step) (m : memberView) : Z :=
  if decide (name m ∈ Drain s) then m_untargeted m else 0.

Lemma planReduction_lost whole' f' m :
  wf_member m → funds_ok f' → (name m ∉ Drain (fstep f')) → STargets (fstep f') !! name m = Some (current m) →
  unknownStanding m = false →
  0 ≤ readyAboveDesired (planReduction whole' f' m) ∧
  lingering_lost (fstep (planReduction whole' f' m)) m
    = readyAboveDesired f' - readyAboveDesired (planReduction whole' f' m).
Proof.
  intros Hwf Hf Hd Ht Hu. destruct Hf as [? ? ?]. destruct Hwf as [? ? ? ? ? _ _].
  unfold planReduction, lingering_lost, m_untargeted, routableWithoutTarget.
  destruct (occupiedWithoutTarget m) eqn:Eo.
  - unfold occupiedWithoutTarget in Eo. rewrite !andb_true_iff in Eo. destruct Eo as (((Hc & ?) & ?) & ?).
    assert (Known (state m) = true) as ->.
    { unfold unknownStanding in Hu. destruct (Known (state m)); [done|]. cbn in Hu. rewrite !orb_false_iff in Hu. lia. }
    rewrite Hc. unfold drainWithoutTarget. destruct (Routable (state m)); fcbn.
    + destruct (Ready (state m) >? readyAboveDesired f') eqn:?; fcbn; [rewrite decide_False by done; lia|].
      unwrap. rewrite decide_True by (cbn; set_solver). cbn. lia.
    + cbn. case_decide; lia.
  - destruct (Absent (state m) && _); fcbn; [cbn; rewrite decide_False by done; lia|].
    destruct (reducible m) eqn:Er; [|rewrite decide_False by done; lia].
    unfold reducible in Er. rewrite !andb_true_iff in Er. assert ((current m =? 0) = false) as -> by lia.
    unfold reduceFunded. repeat case_match; fcbn; cbn; case_decide; lia.
Qed.

Lemma lost_step whole' ms f0 pre m post f' :
  ms = pre ++ m :: post → NoDup (name <$> ms) → wf_member m → unknownStanding m = false →
  reduced whole' ms f0 pre f' →
  zsum_with (lingering_lost (fstep f')) pre ≤ readyAboveDesired f0 - readyAboveDesired f' →
  zsum_with (lingering_lost (fstep (planReduction whole' f' m))) (pre ++ [m])
    ≤ readyAboveDesired f0 - readyAboveDesired (planReduction whole' f' m).
Proof.
  intros Hms Hnd Hwf Hu [Hf Htodo _ _ _ _ _ _] Hsum.
  pose proof (earlier_names_differ _ _ _ _ Hms Hnd) as Hpre.
  assert (m ∉ pre) as Hnot by (intros Hin; by apply (Hpre m Hin)).
  destruct (Htodo m ltac:(rewrite Hms; set_solver) Hnot) as [Ht Hd].
  destruct (planReduction_effect whole' f' m Hwf Hf Ht) as [He _].
  rewrite zsum_with_app, zsum_with_cons, zsum_with_nil.
  rewrite (zsum_with_ext _ (lingering_lost (fstep f')) pre).
  - destruct (planReduction_lost whole' f' m Hwf Hf Hd Ht Hu) as [_ ->]. lia.
  - intros m' Hm'. unfold lingering_lost. destruct (effect_other _ _ _ _ m' He (Hpre m' Hm')) as (_ & Hiff & _).
    by rewrite (decide_ext _ _ _ _ Hiff).
Qed.

Section read.
Context {t : Transition} {whole : bool} {v : view} {b : tally} {f : funds}.
Context (R : reading t whole v b f).

Lemma names_members : name <$> members v = allNames t.
Proof. rewrite (rd_members _ _ _ _ _ R), <-list_fmap_compose. apply list_fmap_id. Qed.

Lemma NoDup_names : NoDup (name <$> members v).
Proof. rewrite names_members. apply allNames_NoDup. Qed.

Lemma start_todo m :
  m ∈ members v → STargets (fstep f) !! name m = Some (current m).
Proof.
  rewrite (rd_step _ _ _ _ _ R). cbn. rewrite (rd_members _ _ _ _ _ R).
  intros (k & -> & Hk)%list_elem_of_fmap. by rewrite startTargets_lookup, decide_True.
Qed.

Lemma start_dom k : is_Some (STargets (fstep f) !! k) ↔ k ∈ name <$> members v.
Proof.
  rewrite (rd_step _ _ _ _ _ R), names_members. cbn.
  rewrite (rd_members _ _ _ _ _ R), startTargets_lookup.
  case_decide; [split; eauto|]. split; [by intros [? ?]|done].
Qed.

Lemma start_Drain : Drain (fstep f) = [].
Proof. by rewrite (rd_step _ _ _ _ _ R). Qed.

Lemma start_Resume : Resume (fstep f) = [].
Proof. by rewrite (rd_step _ _ _ _ _ R). Qed.

Lemma start_Complete : Complete (fstep f) = false.
Proof. by rewrite (rd_step _ _ _ _ _ R). Qed.

Lemma reading_totals_nonneg : 0 ≤ fromReplicas v ∧ 0 ≤ desiredReplicas v.
Proof.
  pose proof (rd_from_un _ _ _ _ _ R). pose proof (rd_desired_un _ _ _ _ _ R).
  rewrite (rd_from _ _ _ _ _ R), (rd_desired _ _ _ _ _ R).
  pose proof (rd_wf _ _ _ _ _ R) as Hwf. rewrite Forall_forall in Hwf.
  assert (0 ≤ zsum_with original (members v)) by (apply zsum_with_nonneg; intros; by apply Hwf).
  assert (0 ≤ zsum_with goal (members v)) by (apply zsum_with_nonneg; intros; by apply Hwf).
  lia.
Qed.

Lemma reading_funds_ok : funds_ok f.
Proof.
  destruct (rd_small _ _ _ _ _ R) as [? ? ? ?]. destruct reading_totals_nonneg.
  split; [rewrite (rd_retirement _ _ _ _ _ R)|rewrite (rd_above _ _ _ _ _ R)
         |rewrite (rd_minimum _ _ _ _ _ R)]; [|lia|lia].
  destruct (_ <? _); lia.
Qed.

Lemma reductionOrder_perm : reductionOrder (members v) ≡ₚ members v.
Proof. apply sort_slice_perm. Qed.

Lemma NoDup_order_names : NoDup (name <$> reductionOrder (members v)).
Proof. rewrite reductionOrder_perm. apply NoDup_names. Qed.

Lemma elem_of_order m : m ∈ reductionOrder (members v) ↔ m ∈ members v.
Proof. by rewrite reductionOrder_perm. Qed.

Lemma order_wf m : m ∈ reductionOrder (members v) → wf_member m.
Proof.
  rewrite elem_of_order. pose proof (rd_wf _ _ _ _ _ R) as Hwf.
  rewrite Forall_forall in Hwf. apply Hwf.
Qed.

Lemma reduced_start : reduced whole (reductionOrder (members v)) f [] f.
Proof.
  split; [apply reading_funds_ok| |set_solver| | | |done|done].
  - intros m Hm _. rewrite start_Drain. split; [|set_solver].
    by apply start_todo, elem_of_order.
  - intros k. rewrite start_dom. by rewrite reductionOrder_perm.
  - intros k. rewrite start_Drain. set_solver.
  - rewrite zsum_with_nil. lia.
Qed.

(** The reductions, once every member has had its turn. *)
Lemma planReductions_reduced :
  reduced whole (members v) f (members v) (planReductions v f).
Proof.
  set (ms := reductionOrder (members v)).
  assert (reduced whole ms f ms (planReductions v f)) as Hr.
  { unfold planReductions. rewrite (rd_whole _ _ _ _ _ R). fold ms.
    apply (foldl_ind _ (reduced whole ms f)); [apply reduced_start|].
    intros pre m post f' Hms. apply (reduced_step whole ms f pre m post f' Hms NoDup_order_names).
    apply order_wf. fold ms. rewrite Hms. set_solver. }
  destruct Hr as [? _ Hdone Hdom Hdrain Hsum Hres Hcomp]. split; try done.
  - intros m Hm. by apply Hdone, elem_of_order.
  - intros k. rewrite Hdom. unfold ms. by rewrite reductionOrder_perm.
  - intros k Hk. apply Hdrain in Hk. unfold ms in Hk. by rewrite reductionOrder_perm in Hk.
  - rewrite <-Hsum. unfold ms. by rewrite reductionOrder_perm.
Qed.

Lemma planReductions_lost :
  (∀ m, m ∈ members v → unknownStanding m = false) →
  zsum_with (lingering_lost (fstep (planReductions v f))) (members v) ≤ readyAboveDesired f.
Proof.
  intros Hu. set (ms := reductionOrder (members v)).
  assert (reduced whole ms f ms (planReductions v f) ∧
    zsum_with (lingering_lost (fstep (planReductions v f))) ms ≤ readyAboveDesired f - readyAboveDesired (planReductions v f))
    as [Hr Hs].
  { unfold planReductions. rewrite (rd_whole _ _ _ _ _ R). fold ms.
    apply (foldl_ind _ (λ pre f', reduced whole ms f pre f' ∧
      zsum_with (lingering_lost (fstep f')) pre ≤ readyAboveDesired f - readyAboveDesired f')).
    { split; [apply reduced_start|]. rewrite zsum_with_nil. lia. }
    intros pre m post f' Hms [Hr Hs].
    assert (m ∈ members v) as Hm by (apply elem_of_order; fold ms; rewrite Hms; set_solver).
    assert (wf_member m) as Hwf by (by apply order_wf, elem_of_order).
    split; [by apply (reduced_step whole ms f pre m post f' Hms NoDup_order_names)|].
    apply (lost_step whole ms f pre m post f' Hms NoDup_order_names); auto. }
  pose proof (fo_above _ (rs_funds _ _ _ _ _ Hr)).
  assert (zsum_with (lingering_lost (fstep (planReductions v f))) (members v)
    = zsum_with (lingering_lost (fstep (planReductions v f))) ms) as ->; [|lia].
  unfold ms. by rewrite reductionOrder_perm.
Qed.
End read.

(** ** Growth *)

(** Room for growth: the surge allowance, far from the end of [int64]. *)
Definition ga_ok (ga : Z) : Prop := 0 ≤ ga ≤ MaxInt64.

(** The replicas in use once a step is applied. *)
Definition use_after (s : Step) (m : memberView) : Z :=
  Z.max (target_in s m) (Occupied (state m)).

Inductive growth_effect (whole : bool) (g : growth) (m : memberView) (g' : growth) : Prop :=
| ge_keep : gstep g' = gstep g → growthAllowance g' = growthAllowance g → growth_effect whole g m g'
| ge_target v : gstep g' = withTargets (gstep g) (<[name m := v]> (STargets (gstep g))) →
    current m ≤ v ≤ goal m → (whole = true → v = goal m) →
    Known (state m) = true → Eligible (state m) = true →
    Z.max v (Occupied (state m)) - m_use m ≤ growthAllowance g - growthAllowance g' →
    ga_ok (growthAllowance g') →
    growth_effect whole g m g'.

Lemma growMember_effect whole g m :
  wf_member m → ga_ok (growthAllowance g) → STargets (gstep g) !! name m = Some (current m) →
  growth_effect whole g m (growMember whole g m).
Proof.
  intros [? ? ? ? ? _ _] Hg Ht. unfold ga_ok in *. unfold growMember.
  destruct (growable m) eqn:Egr; [|by apply ge_keep].
  unfold growable in Egr. rewrite !andb_true_iff in Egr. destruct Egr as (((? & ?) & ?) & ?).
  cbn [negb].
  assert (mget (STargets (gstep g)) (name m) = current m) as Hm by (unfold mget; by rewrite Ht).
  rewrite Hm. set (ready := if negb whole && _ then _ else 0).
  assert (0 ≤ ready ≤ goal m - current m
    ∧ (0 < ready → current m + ready ≤ Occupied (state m))) as [Hr1 Hr2].
  { unfold ready. destruct (_ && _); [|lia]. unwrap. lia. }
  clearbody ready. unwrap.
  set (add := ready + Z.min (goal m - current m - ready) (growthAllowance g)).
  assert (ready ≤ add ≤ goal m - current m ∧ add - ready ≤ growthAllowance g) as Hadd by lia.
  clearbody add. destruct (whole && _) eqn:Ew; [by apply ge_keep|]. unwrap.
  eapply ge_target; cbn [gstep growthAllowance]; [done|lia| |done|done| |].
  - intros ->. cbn in Ew. lia.
  - unfold m_use. lia.
  - unfold ga_ok. lia.
Qed.

(** The growth once the members [pre] have had their turn. *)
Record grown (whole : bool) (ms : list memberView) (g0 : growth) (pre : list memberView)
    (g : growth) : Prop := {
  gr_ga : ga_ok (growthAllowance g);
  gr_todo : ∀ m, m ∈ ms → m ∉ pre → STargets (gstep g) !! name m = Some (current m);
  gr_done : ∀ m, m ∈ pre →
    (target_in (gstep g) m = current m
     ∨ current m ≤ target_in (gstep g) m ≤ goal m ∧ Known (state m) = true
       ∧ Eligible (state m) = true)
    ∧ (whole = true → target_in (gstep g) m = current m ∨ target_in (gstep g) m = goal m);
  gr_dom : ∀ k, is_Some (STargets (gstep g) !! k) ↔ k ∈ name <$> ms;
  gr_use : zsum_with (λ m, use_after (gstep g) m - m_use m) pre
    ≤ growthAllowance g0 - growthAllowance g;
  gr_drain : Drain (gstep g) = Drain (gstep g0);
  gr_resume : Resume (gstep g) = Resume (gstep g0);
  gr_complete : Complete (gstep g) = Complete (gstep g0);
}.

Lemma growth_other whole g m g' m' :
  growth_effect whole g m g' → name m' ≠ name m →
  target_in (gstep g') m' = target_in (gstep g) m'
  ∧ STargets (gstep g') !! name m' = STargets (gstep g) !! name m'.
Proof.
  intros He Hne. unfold target_in, mget.
  destruct He as [-> _ | v -> _ _ _ _ _ _]; cbn; [done|]. by rewrite lookup_insert_ne.
Qed.

Lemma grown_step whole ms g0 pre m post g :
  ms = pre ++ m :: post → NoDup (name <$> ms) → wf_member m →
  grown whole ms g0 pre g → grown whole ms g0 (pre ++ [m]) (growMember whole g m).
Proof.
  intros Hms Hnd Hwf [Hg Htodo Hdone Hdom Huse Hdr Hres Hcomp].
  assert (m ∈ ms) as Hm by (rewrite Hms; set_solver).
  pose proof (earlier_names_differ _ _ _ _ Hms Hnd) as Hpre.
  assert (m ∉ pre) as Hnot by (intros Hin; by apply (Hpre m Hin)).
  pose proof (Htodo m Hm Hnot) as Ht.
  pose proof (growMember_effect whole g m Hwf Hg Ht) as He. set (g' := growMember whole g m) in *.
  assert (target_in (gstep g) m = current m) as Htm by (unfold target_in, mget; by rewrite Ht).
  split.
  - destruct He as [_ -> | v _ _ _ _ _ _ ?]; done.
  - intros m' Hm' Hn. assert (name m' ≠ name m) as Hne.
    { intros Heq. apply (elem_of_name_inj ms) in Heq as ->; try done. set_solver. }
    destruct (growth_other _ _ _ _ m' He Hne) as [_ ->]. apply Htodo; set_solver.
  - intros m' [Hm'| ->%list_elem_of_singleton]%elem_of_app.
    + destruct (growth_other _ _ _ _ m' He (Hpre m' Hm')) as [-> _]. by apply Hdone.
    + unfold target_in, mget in *.
      destruct He as [-> _ | v -> ? ? ? ? _ _]; cbn [STargets withTargets].
      * rewrite Htm. split; by left.
      * rewrite lookup_insert_eq. cbn. split; [by right|intros ?; right; auto].
  - intros k. rewrite <-Hdom. destruct He as [-> _ | v -> _ _ _ _ _ _]; cbn; [done|].
    destruct (decide (k = name m)) as [->|]; [|by rewrite lookup_insert_ne].
    rewrite lookup_insert_eq, Ht. split; eauto.
  - rewrite zsum_with_app, zsum_with_cons, zsum_with_nil.
    rewrite (zsum_with_ext _ (λ m, use_after (gstep g) m - m_use m) pre).
    + assert (use_after (gstep g') m - m_use m ≤ growthAllowance g - growthAllowance g'); [|lia].
      unfold use_after. destruct He as [-> -> | v -> ? _ _ _ ? _].
      * rewrite Htm. unfold m_use. lia.
      * unfold target_in, mget. cbn [STargets withTargets]. by rewrite lookup_insert_eq.
    + intros m' Hm'. unfold use_after.
      by destruct (growth_other _ _ _ _ m' He (Hpre m' Hm')) as [-> _].
  - rewrite <-Hdr. by destruct He as [-> _ | v -> _ _ _ _ _ _].
  - rewrite <-Hres. by destruct He as [-> _ | v -> _ _ _ _ _ _].
  - rewrite <-Hcomp. by destruct He as [-> _ | v -> _ _ _ _ _ _].
Qed.

Lemma planGrowth_grown {t whole v b f s g} (R : reading t whole v b f) :
  transition_args t →
  (∀ m, m ∈ members v → STargets s !! name m = Some (current m)) →
  (∀ k, is_Some (STargets s !! k) ↔ k ∈ name <$> members v) →
  planGrowth v b s = Ok g →
  ∃ ga0, ga0 = Z.max 0 (Z.max (fromReplicas v) (desiredReplicas v) + Surge t - inUse b)
    ∧ grown whole (members v) (mkGrowth s ga0 false) (members v) g.
Proof.
  intros Ha Hs Hdom. unfold planGrowth. case_decide as Hov; [done|]. intros [= <-].
  pose proof (rd_from_small _ _ _ _ _ R). pose proof (rd_desired_small _ _ _ _ _ R).
  pose proof (rd_surge _ _ _ _ _ R). destruct (rd_small _ _ _ _ _ R) as [? _ _ _].
  destruct (reading_totals_nonneg R) as [? ?].
  rewrite (rd_in _ _ _ _ _ R), (rd_whole _ _ _ _ _ R) in *.
  rewrite i64_id in Hov by (unfold int64_range; lia).
  eexists. split; [reflexivity|].
  rewrite (i64_id (_ + Surge t)) by (unfold int64_range; lia).
  rewrite (i64_id (_ - inUse b)) by (unfold int64_range; lia).
  set (g0 := mkGrowth s _ false).
  apply (foldl_ind _ (grown whole (members v) g0)).
  - split; cbn; try done; [unfold ga_ok; lia|auto|set_solver|lia].
  - intros pre m post g' Hms. apply (grown_step whole _ g0 pre m post g' Hms (NoDup_names R)).
    pose proof (rd_wf _ _ _ _ _ R) as Hwf. rewrite Forall_forall in Hwf. apply Hwf.
    rewrite Hms. set_solver.
Qed.

(** ** The decision *)

Lemma mget_forallb (a c : gmap string Z) :
  forallb (λ e, mget c (fst e) =? snd e) (map_to_list a) = true ↔
  ∀ k x, a !! k = Some x → mget c k = x.
Proof.
  rewrite forallb_forall. split.
  - intros H k x Hk. apply elem_of_map_to_list, list_elem_of_In, H in Hk. cbn in Hk. lia.
  - intros H [k x] Hk%list_elem_of_In%elem_of_map_to_list. cbn. apply H in Hk. lia.
Qed.

Lemma sameTargets_true a c : sameTargets a c = true ↔ ∀ k, mget a k = mget c k.
Proof.
  unfold sameTargets. rewrite andb_true_iff, !mget_forallb. split.
  - intros [H1 H2] k. destruct (a !! k) as [x|] eqn:Ea.
    { rewrite (H1 k x Ea). unfold mget. by rewrite Ea. }
    destruct (c !! k) as [y|] eqn:Ec.
    { rewrite (H2 k y Ec). unfold mget. by rewrite Ec. }
    unfold mget. by rewrite Ea, Ec.
  - intros H. split; intros k x Hk; [rewrite <-H|rewrite H]; unfold mget; by rewrite Hk.
Qed.

Lemma movesReplicas_false v s :
  movesReplicas v s = false ↔ Drain s = [] ∧ ∀ k, mget (STargets s) k = mget (Current (vin v)) k.
Proof.
  unfold movesReplicas. rewrite orb_false_iff, !negb_false_iff, Nat.eqb_eq, sameTargets_true.
  by rewrite length_zero_iff_nil.
Qed.

(** The four kinds of step: hold, reduce, grow, complete. *)
Inductive step_case {t whole v b f} (R : reading t whole v b f) (s : Step) : Prop :=
| sc_hold :
    Drain s = [] → (∀ m, m ∈ members v → target_in s m = current m) →
    Complete s = false → step_case R s
| sc_reduce :
    (∀ m, m ∈ members v → unknownStanding m = false) →
    reduced whole (members v) f (members v) (planReductions v f) →
    STargets s = STargets (fstep (planReductions v f)) →
    Drain s = Drain (fstep (planReductions v f)) →
    Resume s = [] → Complete s = false → step_case R s
| sc_grow g ga0 :
    ga0 = Z.max 0 (Z.max (fromReplicas v) (desiredReplicas v) + Surge t - inUse b) →
    grown whole (members v) (mkGrowth (fstep (planReductions v f)) ga0 false) (members v) g →
    STargets s = STargets (gstep g) → Drain s = [] → Resume s = [] → Complete s = false →
    step_case R s
| sc_complete :
    Drain s = [] → Resume s = [] → (∀ m, m ∈ members v → target_in s m = current m) →
    Complete s = true → (∀ m, m ∈ members v → goal m = current m) →
    (∀ m, m ∈ members v →
       unsettled m = false ∧ unknownStanding m = false ∧ needsResume m = false) →
    step_case R s.

Lemma members_current {t whole v b f} (R : reading t whole v b f) m :
  m ∈ members v → current m = mget (Current t) (name m).
Proof. rewrite (rd_members _ _ _ _ _ R). by intros (k & -> & _)%list_elem_of_fmap. Qed.

Lemma existsb_false_forall {A} (p : A → bool) l :
  existsb p l = false ↔ ∀ x, x ∈ l → p x = false.
Proof.
  induction l as [|x l IH]; simpl; [set_solver|]. rewrite orb_false_iff, IH. set_solver.
Qed.

Lemma no_moves {t whole v b f} (R : reading t whole v b f) :
  targetsGrow b || targetsShrink b = false ↔ ∀ m, m ∈ members v → goal m = current m.
Proof.
  rewrite (rd_tally _ _ _ _ _ R). cbn. rewrite orb_false_iff, !existsb_false_forall.
  split; [intros [Eg Es] m Hm; specialize (Eg m Hm); specialize (Es m Hm); lia|].
  intros H. split; intros m Hm; specialize (H m Hm); lia.
Qed.

Lemma no_resume ms :
  negb (Nat.eqb (length (resumeDrainedMembers ms)) 0) = false ↔
  ∀ m, m ∈ ms → needsResume m = false.
Proof.
  unfold resumeDrainedMembers. rewrite negb_false_iff, Nat.eqb_eq, length_fmap.
  induction ms as [|m ms IH]; simpl; [set_solver|].
  destruct (needsResume m) eqn:E; simpl; [split; [done|]|set_solver].
  intros H. rewrite (H m) in E by set_solver. done.
Qed.

(** Reductions that move nothing leave the applied targets in the step. *)
Lemma still_targets {t whole v b f} (R : reading t whole v b f) :
  movesReplicas v (fstep (planReductions v f)) = false →
  ∀ m, m ∈ members v → STargets (fstep (planReductions v f)) !! name m = Some (current m).
Proof.
  intros [_ Hsame]%movesReplicas_false m Hm. rewrite (rd_in _ _ _ _ _ R) in Hsame.
  destruct (proj2 (rs_dom _ _ _ _ _ (planReductions_reduced R) (name m))) as [x Hx];
    [by apply list_elem_of_fmap_2|].
  specialize (Hsame (name m)). unfold mget at 1 in Hsame. rewrite Hx in Hsame. cbn in Hsame.
  rewrite Hx, Hsame. f_equal. symmetry. by apply (members_current R).
Qed.

Lemma decideStep_case {t whole v b f s} (R : reading t whole v b f) :
  transition_args t → decideStep v b f = Ok s → step_case R s.
Proof.
  intros Ha. unfold decideStep.
  assert (∀ m, m ∈ members v → target_in (fstep f) m = current m) as Hstart.
  { intros m Hm. unfold target_in, mget. by rewrite (start_todo R m Hm). }
  destruct (existsb unknownStanding (members v)) eqn:Eu.
  { intros [= <-]. apply sc_hold; [apply (start_Drain R)|done|apply (start_Complete R)]. }
  destruct (negb _) eqn:Er.
  { intros [= <-]. apply sc_hold; [apply (start_Drain R)|done|apply (start_Complete R)]. }
  pose proof (planReductions_reduced R) as HR.
  pose proof (rs_resume _ _ _ _ _ HR) as Hres. rewrite (start_Resume R) in Hres.
  pose proof (rs_complete _ _ _ _ _ HR) as Hcomp. rewrite (start_Complete R) in Hcomp.
  destruct (movesReplicas v (fstep (planReductions v f))) eqn:Em.
  { intros [= <-]. apply sc_reduce; try done. by apply existsb_false_forall. }
  pose proof (proj1 (proj1 (movesReplicas_false _ _) Em)) as Hd.
  intros (g & Hg & Hrest)%obind_Ok_inv.
  apply (planGrowth_grown R Ha (still_targets R Em) (rs_dom _ _ _ _ _ HR)) in Hg as (ga0 & Hga & HG).
  pose proof (gr_drain _ _ _ _ _ HG) as Hgd. pose proof (gr_resume _ _ _ _ _ HG) as Hgr.
  pose proof (gr_complete _ _ _ _ _ HG) as Hgc. cbn in Hgd, Hgr, Hgc.
  destruct (movesReplicas v (gstep g)) eqn:Em2.
  { injection Hrest as <-. eapply sc_grow; [exact Hga|exact HG|done|..]; cbn; congruence. }
  apply movesReplicas_false in Em2 as [_ Hsame2]. rewrite (rd_in _ _ _ _ _ R) in Hsame2.
  assert (∀ m, m ∈ members v → target_in (gstep g) m = current m) as Hgcur.
  { intros m Hm. unfold target_in. rewrite Hsame2. symmetry. by apply (members_current R). }
  destruct (targetsGrow b || targetsShrink b) eqn:Et.
  { injection Hrest as <-. apply sc_hold; cbn; [congruence|done|congruence]. }
  destruct (existsb unsettled (members v)) eqn:Es.
  { injection Hrest as <-. apply sc_hold; cbn; [congruence|done|congruence]. }
  injection Hrest as <-. apply sc_complete; cbn; try congruence; [done| |].
  - by apply (no_moves R).
  - rewrite existsb_false_forall in Es, Eu. intros m Hm. split_and!; [auto..|].
    by apply (proj1 (no_resume (members v)) Er).
Qed.

(** Every step [Advance] or [AdvanceWholeMembers] returns is of one of them. *)
Lemma advance_case t whole s :
  transition_args t → advanceTransition t whole = Ok s →
  ∃ v b f, ∃ R : reading t whole v b f, step_case R s.
Proof.
  intros Ha. unfold advanceTransition. intros ([[v b] f] & Hr & Hd)%obind_Ok_inv.
  pose proof (readTransition_reading _ _ _ _ _ Ha Hr) as R.
  exists v, b, f, R. by apply decideStep_case.
Qed.

(** ** The properties *)

(** Every cluster the input names, and the totals the properties speak of. *)
Definition views (t : Transition) : list memberView := viewOf t <$> allNames t.
Definition replicas (p : Plan) : Z := Unassigned p + map_zsum (Targets p).
Definition serving_with (m : memberView) (v : Z) : Z :=
  if decide (Known (state m) = true ∧ Applied (state m) = true ∧ Routable (state m) = true)
  then Z.min (Ready (state m)) v else 0.
Definition serving_now (t : Transition) : Z := zsum_with (λ m, serving_with m (current m)) (views t).
Definition serving_after (t : Transition) (s : Step) : Z :=
  zsum_with (λ m, if decide (name m ∈ Drain s) then 0 else serving_with m (mget (STargets s) (name m))) (views t).
(** What members that have no target are still routed to with. *)
Definition lingering (m : memberView) : Z :=
  if decide (current m = 0 ∧ Known (state m) = true ∧ Routable (state m) = true) then Ready (state m) else 0.
Definition lingering_now (t : Transition) : Z := zsum_with lingering (views t).
Definition lingering_after (t : Transition) (s : Step) : Z :=
  zsum_with (λ m, if decide (name m ∈ Drain s) then 0 else lingering m) (views t).
Definition in_use (t : Transition) : Z := RolloutReserved t + zsum_with m_use (views t).
Definition in_use_after (t : Transition) (s : Step) : Z :=
  RolloutReserved t + zsum_with (use_after s) (views t).

Lemma serving_with_at m v : serving_with m v = served_at m v.
Proof.
  unfold serving_with, served_at, serving. destruct (Known (state m)), (Applied (state m)), (Routable (state m)); cbn;
    try (rewrite decide_True by done; done); rewrite decide_False; naive_solver.
Qed.

Lemma serving_now_sum t : serving_now t = zsum_with m_serving (views t).
Proof. apply zsum_with_ext. intros m _. apply serving_with_at. Qed.

Lemma serving_after_sum t s : serving_after t s = zsum_with (served_after s) (views t).
Proof. apply zsum_with_ext. intros m _. unfold served_after, target_in. by rewrite serving_with_at. Qed.

Lemma lingering_untargeted m : lingering m = m_untargeted m.
Proof.
  unfold lingering, m_untargeted, routableWithoutTarget.
  destruct (current m =? 0) eqn:E, (Known (state m)), (Routable (state m)); cbn; case_decide as H;
    try done; first [destruct H as (? & ? & ?); (lia || done)|exfalso; apply H; split; [lia|done]].
Qed.

Lemma lingering_after_sum t s :
  lingering_after t s = lingering_now t - zsum_with (lingering_lost s) (views t).
Proof.
  unfold lingering_after, lingering_now. induction (views t) as [|m l IH]; [done|].
  rewrite !zsum_with_cons, IH. unfold lingering_lost at 2. rewrite <-lingering_untargeted. case_decide; lia.
Qed.

Section totals.
Context {t : Transition} {whole : bool} {v : view} {b : tally} {f : funds}.
Context (R : reading t whole v b f).

Lemma rd_views : members v = views t.
Proof. apply R. Qed.

Lemma rd_replicas_from : fromReplicas v = replicas (From t).
Proof.
  unfold replicas. rewrite (plan_views t original); [|done|intros; apply elem_of_allNames; tauto].
  rewrite (rd_from _ _ _ _ _ R), rd_views. done.
Qed.

Lemma rd_replicas_desired : desiredReplicas v = replicas (Desired t).
Proof.
  unfold replicas. rewrite (plan_views t goal); [|done|intros; apply elem_of_allNames; tauto].
  rewrite (rd_desired _ _ _ _ _ R), rd_views. done.
Qed.

Lemma rd_serving : servingReady b = serving_now t.
Proof. rewrite (rd_tally _ _ _ _ _ R), serving_now_sum. cbn. by rewrite rd_views. Qed.

Lemma rd_lingering : readyWithoutTarget b = lingering_now t.
Proof.
  rewrite (rd_tally _ _ _ _ _ R). cbn. rewrite rd_views. apply zsum_with_ext. intros m _. by rewrite lingering_untargeted.
Qed.

Lemma rd_in_use : inUse b = in_use t.
Proof. rewrite (rd_tally _ _ _ _ _ R). cbn. by rewrite rd_views. Qed.
End totals.

Lemma served_hold s m : name m ∉ Drain s → target_in s m = current m → served_after s m = m_serving m.
Proof. intros Hd Ht. unfold served_after. by rewrite decide_False, Ht, served_at_current by done. Qed.

(** C4: a step never takes serving capacity the move still needs.  Counting for
    every member that is known, applied and routed to the ready replicas its target
    covers, and nothing for a member the step drains, what is left after the step
    is at least the smaller of what was there before it and the smaller plan's
    replicas; and members that are still routed to without a target are drained
    only out of what is ready above the desired plan: with what they are ready
    with counted too, what the step leaves of it is at least the smaller of what
    was there and the desired plan's replicas. *)
Theorem advance_keeps_serving t whole s :
  transition_args t → advanceTransition t whole = Ok s →
  Z.min (serving_now t) (Z.min (replicas (From t)) (replicas (Desired t))) ≤ serving_after t s ∧
  Z.min (serving_now t + lingering_now t) (replicas (Desired t)) ≤ serving_now t + lingering_after t s.
Proof.
  intros Ha (v & b & f & R & Hc)%advance_case; [|done]. rewrite lingering_after_sum.
  assert ((∀ m, m ∈ views t → m_serving m ≤ served_after s m) →
    serving_now t ≤ serving_after t s) as Hmono
    by (rewrite serving_now_sum, serving_after_sum; apply zsum_with_mono).
  rewrite <-(rd_views R) in Hmono.
  assert (Drain s = [] → zsum_with (lingering_lost s) (views t) = 0) as Hnone.
  { intros Hd. rewrite (zsum_with_ext _ (λ _, 0)); [rewrite zsum_with_const; lia|].
    intros m _. unfold lingering_lost. rewrite Hd, decide_False by set_solver. done. }
  destruct Hc as [Hd Hcur _|Hunk HR Ht Hd _ _|g ga0 _ HG Ht Hd _ _|Hd _ Hcur _ _ _];
    [split; [|rewrite Hnone by done; lia]| |split; [|rewrite Hnone by done; lia]..].
  - transitivity (serving_now t); [lia|]. apply Hmono.
    intros m Hm. rewrite served_hold; [done| |auto]. rewrite Hd. set_solver.
  - split.
    + rewrite serving_after_sum, <-(rd_views R).
      pose proof (rs_serving _ _ _ _ _ HR) as Hs. pose proof (fo_minimum _ (rs_funds _ _ _ _ _ HR)).
      rewrite (zsum_with_ext (served_after s)
        (λ m, m_serving m + -1 * (m_serving m - served_after (fstep (planReductions v f)) m))).
      * rewrite zsum_with_add, zsum_with_scale, Hs, (rd_minimum _ _ _ _ _ R).
        rewrite (rd_serving R), (rd_replicas_from R), (rd_replicas_desired R).
        rewrite serving_now_sum, <-(rd_views R). lia.
      * intros m _. unfold served_after, target_in. rewrite Ht, Hd. lia.
    + pose proof (planReductions_lost R Hunk) as Hl.
      rewrite (rd_above _ _ _ _ _ R), (rd_serving R), (rd_lingering R), (rd_replicas_desired R), (rd_views R) in Hl.
      rewrite (zsum_with_ext (lingering_lost s) (lingering_lost (fstep (planReductions v f))));
        [lia|intros m _; unfold lingering_lost; by rewrite Hd].
  - transitivity (serving_now t); [lia|]. apply Hmono.
    intros m Hm. unfold served_after. rewrite Hd, decide_False by set_solver.
    destruct (gr_done _ _ _ _ _ HG m Hm) as [[Hm'|[? _]] _].
    + unfold target_in in *. rewrite Ht, Hm'. done.
    + unfold m_serving, served_at, target_in in *. rewrite Ht. destruct (serving _); lia.
  - transitivity (serving_now t); [lia|]. apply Hmono.
    intros m Hm. rewrite served_hold; [done| |auto]. rewrite Hd. set_solver.
Qed.

(** A member whose target is gone is still routed to; the step leaves it. *)
Definition lingering_move : Transition :=
  mkTransition (mkPlan {["a" := 3]} 0) (list_to_map [("b", 2)]) (mkPlan {["b" := 3]} 0)
    (list_to_map [("a", up 2); ("b", up 2)]) 1 0.
Lemma lingering_move_args : transition_args lingering_move.
Proof. sample_args. Qed.

Lemma advance_keeps_serving_witness :
  (∃ s, Advance shifting = Ok s ∧ STargets s = list_to_map [("a", 2); ("b", 1)]
    ∧ Z.min 4 (Z.min 3 3) ≤ serving_after shifting s) ∧
  ∃ s, Advance lingering_move = Ok s ∧ Drain s = [] ∧
    Z.min (2 + 2) 3 ≤ serving_now lingering_move + lingering_after lingering_move s.
Proof.
  split; (eexists; split; [vm_compute; reflexivity|]; split; [vm_compute; reflexivity|]).
  - apply (advance_keeps_serving shifting false); [apply shifting_args|vm_compute; reflexivity].
  - apply (advance_keeps_serving lingering_move false); [apply lingering_move_args|vm_compute; reflexivity].
Defined.

(** C5: growth stays inside the surge allowance.  Counting every replica a
    member holds or is targeted for, and the rollout's reservation, a step
    leaves at most the larger plan's replicas plus the allowance in use, or
    what was already in use when that is more. *)
Theorem advance_within_surge t whole s :
  transition_args t → advanceTransition t whole = Ok s →
  in_use_after t s
  ≤ Z.max (in_use t) (Z.max (replicas (From t)) (replicas (Desired t)) + Surge t).
Proof.
  intros Ha (v & b & f & R & Hc)%advance_case; [|done].
  assert ((∀ m, m ∈ views t → use_after s m ≤ m_use m) → in_use_after t s ≤ in_use t) as Hmono.
  { intros Hm. unfold in_use_after, in_use. apply zsum_with_mono in Hm. lia. }
  rewrite <-(rd_views R) in Hmono. unfold use_after, m_use in Hmono.
  destruct Hc as [Hd Hcur _|Hunk HR Ht Hd _ _|g ga0 Hga HG Ht Hd _ _|Hd _ Hcur _ _ _].
  - etransitivity; [apply Hmono|lia]. intros m Hm. rewrite Hcur by done. lia.
  - etransitivity; [apply Hmono|lia]. intros m Hm. unfold target_in. rewrite Ht.
    destruct (rs_done _ _ _ _ _ HR m Hm) as [[Hm'|?] _]; unfold target_in in *; lia.
  - pose proof (gr_use _ _ _ _ _ HG) as Hu. pose proof (gr_ga _ _ _ _ _ HG) as Hg.
    unfold ga_ok in Hg. cbn in Hu.
    rewrite (rd_in_use R), (rd_replicas_from R), (rd_replicas_desired R) in Hga.
    assert (in_use_after t s = in_use t
      + zsum_with (λ m, use_after (gstep g) m - m_use m) (members v)) as ->; [|lia].
    unfold in_use_after, in_use. rewrite <-(rd_views R).
    rewrite (zsum_with_ext (use_after s) (λ m, m_use m + (use_after (gstep g) m - m_use m))).
    + rewrite zsum_with_add. lia.
    + intros m _. unfold use_after, target_in. rewrite Ht. lia.
  - etransitivity; [apply Hmono|lia]. intros m Hm. rewrite Hcur by done. lia.
Qed.

Lemma advance_within_surge_witness :
  ∃ s, Advance shifting = Ok s ∧ in_use_after shifting s ≤ Z.max 4 (Z.max 3 3 + 1).
Proof.
  eexists. split; [vm_compute; reflexivity|].
  apply (advance_within_surge shifting false); [apply shifting_args|vm_compute; reflexivity].
Defined.

Lemma step_case_direction {t whole v b f s} (R : reading t whole v b f) :
  step_case R s →
  (∀ m, m ∈ members v →
     Z.min (current m) (goal m) ≤ target_in s m ≤ Z.max (current m) (goal m))
  ∧ ((∀ m, m ∈ members v → target_in s m ≤ current m)
     ∨ Drain s = [] ∧ (∀ m, m ∈ members v → current m ≤ target_in s m)).
Proof.
  intros Hc.
  destruct Hc as [Hd Hcur _|Hunk HR Ht Hd _ _|g ga0 _ HG Ht Hd _ _|Hd _ Hcur _ _ _].
  - split; [|left]; intros m Hm; rewrite Hcur by done; lia.
  - assert (∀ m, m ∈ members v → target_in s m = current m ∨ goal m ≤ target_in s m < current m)
      as Hm.
    { intros m Hm. unfold target_in. rewrite Ht. by apply (rs_done _ _ _ _ _ HR m Hm). }
    split; [|left]; intros m Hin; destruct (Hm m Hin); lia.
  - assert (∀ m, m ∈ members v → target_in s m = current m ∨ current m ≤ target_in s m ≤ goal m)
      as Hm.
    { intros m Hm. unfold target_in. rewrite Ht.
      destruct (gr_done _ _ _ _ _ HG m Hm) as [[?|[? _]] _]; auto. }
    split; [|right; split; [done|]]; intros m Hin; destruct (Hm m Hin); lia.
  - split; [|left]; intros m Hm; rewrite Hcur by done; lia.
Qed.

(** Reductions and growth are separate steps.  Every target lies between
    the applied one and the goal, and a step either only lowers targets and
    drains, or only raises them and drains nothing. *)
Theorem advance_one_direction t whole s :
  transition_args t → advanceTransition t whole = Ok s →
  (∀ m, m ∈ views t →
     Z.min (current m) (goal m) ≤ target_in s m ≤ Z.max (current m) (goal m))
  ∧ ((∀ m, m ∈ views t → target_in s m ≤ current m)
     ∨ Drain s = [] ∧ (∀ m, m ∈ views t → current m ≤ target_in s m)).
Proof.
  intros Ha (v & b & f & R & Hc)%advance_case; [|done]. rewrite <-(rd_views R).
  by apply (step_case_direction R).
Qed.

Lemma advance_one_direction_witness :
  ∃ s, Advance shifting = Ok s
    ∧ (∀ m, m ∈ views shifting →
         Z.min (current m) (goal m) ≤ target_in s m ≤ Z.max (current m) (goal m)).
Proof.
  eexists. split; [vm_compute; reflexivity|].
  apply (advance_one_direction shifting false); [apply shifting_args|vm_compute; reflexivity].
Defined.

(** A zero target never authorizes deletion of an occupied, undrained
    member.  When a step takes a member's target from positive to zero, the
    member is drained, or it is absent and holds nothing; and a member a step
    drains keeps its target for now, holds or is due replicas, was not drained
    before, and has goal zero. *)
Theorem advance_zero_after_drain t whole s m :
  transition_args t → advanceTransition t whole = Ok s → m ∈ views t →
  (target_in s m = 0 → 0 < current m →
     Drained (state m) = true ∨ (Absent (state m) = true ∧ Occupied (state m) = 0))
  ∧ (name m ∈ Drain s →
     target_in s m = current m ∧ (goal m = 0 ∧ 0 < m_use m) ∧ Drained (state m) = false).
Proof.
  intros Ha (v & b & f & R & Hc)%advance_case; [|done]. rewrite <-(rd_views R). intros Hm.
  pose proof (rd_wf _ _ _ _ _ R) as Hwf. rewrite Forall_forall in Hwf. specialize (Hwf m Hm).
  destruct Hc as [Hd Hcur _|Hunk HR Ht Hd _ _|g ga0 _ HG Ht Hd _ _|Hd _ Hcur _ _ _].
  - rewrite Hd, Hcur by done. split; [lia|set_solver].
  - destruct (rs_done _ _ _ _ _ HR m Hm) as (_ & _ & Hz & Hdr).
    unfold target_in in *. rewrite Ht, Hd. split; [|done].
    intros H0 ?. destruct (Hz H0) as [?|[?|Hab]]; [lia|by left|right].
    split; [done|]. by apply Hwf.
  - destruct (gr_done _ _ _ _ _ HG m Hm) as [Hdone _]. destruct Hwf.
    rewrite Hd. split; [|set_solver]. unfold target_in in *. rewrite Ht.
    destruct Hdone as [?|[? _]]; lia.
  - rewrite Hd, Hcur by done. split; [lia|set_solver].
Qed.

Lemma advance_zero_after_drain_witness :
  ∃ s, Advance handing_over = Ok s ∧ target_in s (viewOf handing_over "a") = 0
    ∧ (Drained (state (viewOf handing_over "a")) = true
       ∨ Absent (state (viewOf handing_over "a")) = true
         ∧ Occupied (state (viewOf handing_over "a")) = 0).
Proof.
  eexists. split; [vm_compute; reflexivity|]. split; [vm_compute; reflexivity|].
  eapply (advance_zero_after_drain handing_over false);
    [apply handing_over_args|vm_compute; reflexivity| |vm_compute; reflexivity..].
  apply list_elem_of_fmap_2, elem_of_allNames. right; left. vm_compute. eauto.
Defined.

(** A whole-member move takes no partial step: every target is the applied
    one or the goal. *)
Theorem advance_whole_members t s m :
  transition_args t → AdvanceWholeMembers t = Ok s → m ∈ views t →
  target_in s m = current m ∨ target_in s m = goal m.
Proof.
  intros Ha (v & b & f & R & Hc)%advance_case; [|done]. rewrite <-(rd_views R). intros Hm.
  destruct Hc as [_ Hcur _|_ HR Ht _ _ _|g ga0 _ HG Ht _ _ _|_ _ Hcur _ _ _].
  - left. auto.
  - unfold target_in. rewrite Ht. by apply (rs_done _ _ _ _ _ HR m Hm).
  - unfold target_in. rewrite Ht. by apply (gr_done _ _ _ _ _ HG m Hm).
  - left. auto.
Qed.

Lemma advance_whole_members_witness :
  ∃ s, AdvanceWholeMembers handing_over = Ok s
    ∧ (target_in s (viewOf handing_over "a") = current (viewOf handing_over "a")
       ∨ target_in s (viewOf handing_over "a") = goal (viewOf handing_over "a")).
Proof.
  eexists. split; [vm_compute; reflexivity|].
  eapply (advance_whole_members handing_over); [apply handing_over_args|vm_compute; reflexivity|].
  apply list_elem_of_fmap_2, elem_of_allNames. right; left. vm_compute. eauto.
Defined.

(** A member that is where it should be: at its goal, in effect, observed, not
    waiting to publish again. *)
Definition settled (m : memberView) : Prop :=
  goal m = current m ∧ unsettled m = false ∧ unknownStanding m = false ∧ needsResume m = false.

Lemma planReduction_settled whole f m : wf_member m → settled m → planReduction whole f m = f.
Proof.
  intros [? ? ? ? ? _ _] (Hg & Hu & _ & _). unfold unsettled in Hu.
  rewrite orb_false_iff, !andb_false_iff in Hu. destruct Hu as [_ Hocc].
  unfold planReduction, occupiedWithoutTarget, reducible.
  assert ((current m =? 0) && (goal m =? 0) && (Occupied (state m) >? 0) = false) as ->.
  { destruct Hocc as [->| ->]; [done|]. by rewrite andb_false_r. }
  cbn. rewrite Hg. assert ((current m >? current m) = false) as -> by lia.
  by rewrite andb_false_r.
Qed.

Lemma growMember_settled whole g m : settled m → growMember whole g m = g.
Proof.
  intros (Hg & _). unfold growMember, growable. rewrite Hg.
  by assert ((current m >? current m) = false) as -> by lia.
Qed.

Lemma foldl_id {A B} (f : A → B → A) a l : (∀ x, x ∈ l → f a x = a) → foldl f a l = a.
Proof.
  induction l as [|x l IH]; intros H; simpl; [done|].
  rewrite H by set_solver. apply IH. set_solver.
Qed.

Lemma start_same {t whole v b f} (R : reading t whole v b f) k :
  mget (STargets (fstep f)) k = mget (Current t) k.
Proof.
  rewrite (rd_step _ _ _ _ _ R). cbn. rewrite (rd_members _ _ _ _ _ R). unfold mget at 1.
  rewrite startTargets_lookup. case_decide as Hk; [done|]. cbn. unfold mget.
  destruct (Current t !! k) eqn:E; [|done]. exfalso. apply Hk, elem_of_allNames. rewrite E. eauto.
Qed.

Lemma decideStep_settled {t whole v b f s} (R : reading t whole v b f) :
  (∀ m, m ∈ members v → settled m) → decideStep v b f = Ok s → Complete s = true.
Proof.
  intros Hs. unfold decideStep.
  rewrite (proj2 (existsb_false_forall unknownStanding _)) by (intros; by apply Hs).
  cbn [Resume withResume]. rewrite (proj2 (no_resume _)) by (intros; by apply Hs).
  pose proof (rd_wf _ _ _ _ _ R) as Hwf. rewrite Forall_forall in Hwf.
  assert (planReductions v f = f) as ->.
  { apply foldl_id. intros m Hm. rewrite reductionOrder_perm in Hm.
    apply planReduction_settled; auto. }
  assert (movesReplicas v (fstep f) = false) as Hmv.
  { apply movesReplicas_false. rewrite (start_Drain R), (rd_in _ _ _ _ _ R).
    split; [done|apply (start_same R)]. }
  rewrite Hmv. intros (g & Hg & Hrest)%obind_Ok_inv. unfold planGrowth in Hg.
  case_decide; [done|]. injection Hg as <-. rewrite foldl_id in Hrest
    by (intros; apply growMember_settled; auto).
  cbn in Hrest. rewrite Hmv in Hrest.
  rewrite (proj2 (no_moves R)) in Hrest by (intros; by apply Hs).
  rewrite (proj2 (existsb_false_forall unsettled _)) in Hrest by (intros; by apply Hs).
  by injection Hrest as <-.
Qed.

(** The move is complete exactly when every cluster is settled, and a
    complete step leaves the applied targets, which are the desired ones, and
    asks for nothing. *)
Theorem advance_complete_iff t whole s :
  transition_args t → advanceTransition t whole = Ok s →
  (Complete s = true ↔ ∀ m, m ∈ views t → settled m)
  ∧ (Complete s = true →
     Drain s = [] ∧ Resume s = [] ∧ ∀ m, m ∈ views t → target_in s m = goal m).
Proof.
  intros Ha. unfold advanceTransition. intros ([[v b] f] & Hr & Hd)%obind_Ok_inv.
  pose proof (readTransition_reading _ _ _ _ _ Ha Hr) as R.
  pose proof (decideStep_settled R (s := s)) as Hset.
  apply (decideStep_case R Ha) in Hd as Hc. rewrite <-(rd_views R).
  destruct Hc as [_ _ Hf|_ _ _ _ _ Hf|g ga0 _ _ _ _ _ Hf|Hdr Hres Hcur _ Hgoal Hst];
    try (split; [|congruence]; split; [congruence|]; intros Hall; by apply Hset).
  split; [split; [|auto]|].
  - intros _ m Hm. split; [by apply Hgoal|by apply Hst].
  - intros _. split_and!; [done..|]. intros m Hm. rewrite Hcur by done. symmetry. auto.
Qed.

Lemma advance_complete_iff_witness :
  ∃ s, Advance moved = Ok s ∧ Complete s = true ∧ ∀ m, m ∈ views moved → settled m.
Proof.
  eexists. split; [vm_compute; reflexivity|]. split; [reflexivity|].
  eapply (advance_complete_iff moved false); [apply moved_args|vm_compute; reflexivity|reflexivity].
Defined.
