(* ===== verification/TransitionLiveness.v ===== *)
(** * A move completes

    The liveness half of [Transition].  [transition_valid] is what the code
    validates; on such an input [Advance] returns a step.  [respond] closes the
    loop with members that do what a step asks of them, and [moves_complete]
    shows that with a positive surge allowance the loop reaches a complete step,
    whatever the original plan, the applied targets and the drains it starts
    from. *)

From S2P Require Import Prelude Remainder Apportion Transition TransitionFacts TransitionSafety.
Local Open Scope Z_scope.

(** ** Inputs that do not fail *)

Definition targets_valid (m : gmap string Z) : Prop := ∀ k v, m !! k = Some v → k ≠ "" ∧ 0 ≤ v.

Record transition_valid (t : Transition) : Prop := {
  tv_from : targets_valid (Targets (From t));
  tv_desired : targets_valid (Targets (Desired t));
  tv_current : targets_valid (Current t);
  tv_from_un : 0 ≤ Unassigned (From t);
  tv_desired_un : 0 ≤ Unassigned (Desired t);
  tv_surge : 0 ≤ Surge t;
  tv_reserved : 0 ≤ RolloutReserved t;
  tv_names : Members t !! "" = None;
  tv_members : ∀ k s, Members t !! k = Some s → inconsistent s = false;
  tv_limit : Z.max (replicas (From t)) (replicas (Desired t)) + Surge t ≤ MaxInt64;
}.

Lemma planTotal_valid plan ks :
  (∀ k v, Targets plan !! k = Some v → int32_range v) → int32_range (Unassigned plan) →
  0 ≤ Unassigned plan → targets_valid (Targets plan) →
  NoDup ks → (∀ k, is_Some (Targets plan !! k) → k ∈ ks) → Z.of_nat (length ks) ≤ maxMembers →
  planTotal plan = Ok (replicas plan).
Proof.
  intros Hr Hu Hpos Hv Hnd Hks Hlen. apply planTotal_Ok; [done..|].
  split_and!; [done|done|done|]. unfold replicas. rewrite (map_zsum_names _ ks Hnd Hks).
  assert (zsum_with (mget (Targets plan)) ks ≤ zsum_with (λ _, 2147483648) ks) as Hle.
  { apply zsum_with_mono. intros k _. pose proof (mget_range _ k Hr Hv). lia. }
  rewrite zsum_with_const in Hle. unfold int32_range in Hu. lia.
Qed.

Lemma checkMember_valid n b m :
  0 ≤ n < maxMembers → tally_small n b →
  0 ≤ current m ≤ MaxInt32 → int32_range (Occupied (state m)) → inconsistent (state m) = false →
  ∃ b', checkMember b m = Ok b'.
Proof.
  intros Hn [? _ _ _] Hc Ho Hi. unfold checkMember. rewrite Hi. unfold countMember, int32_range in *.
  rewrite decide_False; [eauto|]. rewrite i64_id by (unfold int64_range; lia). lia.
Qed.

Lemma viewOf_valid t k :
  transition_args t → transition_valid t →
  0 ≤ original (viewOf t k) ≤ MaxInt32 ∧ 0 ≤ current (viewOf t k) ≤ MaxInt32
  ∧ 0 ≤ goal (viewOf t k) ≤ MaxInt32 ∧ inconsistent (state (viewOf t k)) = false.
Proof.
  intros Ha Hv. cbn. split_and!; try (apply mget_range; apply Ha || apply Hv).
  destruct (Members t !! k) as [s|] eqn:E; cbn; [by eapply (tv_members t)|done].
Qed.

Lemma checkMember_loop_valid t ks b :
  transition_args t → transition_valid t → Z.of_nat (length ks) ≤ maxMembers → tally_small 0 b →
  ∃ b', ofold checkMember b (viewOf t <$> ks) = Ok b'.
Proof.
  intros Ha Hv. cut (∀ n, 0 ≤ n → n + Z.of_nat (length ks) ≤ maxMembers → tally_small n b →
    ∃ b', ofold checkMember b (viewOf t <$> ks) = Ok b').
  { intros Hc Hl Hs. apply (Hc 0); [lia|lia|done]. }
  revert b. induction ks as [|k ks IH]; intros b n Hn Hl Hs; cbn [fmap list_fmap ofold]; [eauto|].
  cbn [length] in Hl. destruct (viewOf_valid t k Ha Hv) as (? & ? & ? & Hi).
  pose proof (viewOf_int32 t k Ha) as Hr.
  destruct (checkMember_valid n b (viewOf t k)) as [b1 Hb1]; [lia|done|done|apply Hr|done|].
  rewrite Hb1. cbn [obind].
  apply (checkMember_Ok n) in Hb1 as (_ & _ & Hs1); [|done || lia..].
  apply (IH b1 (n + 1)); [lia|lia|done].
Qed.

Lemma replicas_bounds t :
  transition_args t → transition_valid t →
  0 ≤ replicas (From t) ≤ (maxMembers + 1) * 2147483648
  ∧ 0 ≤ replicas (Desired t) ≤ (maxMembers + 1) * 2147483648.
Proof.
  intros Ha Hv. pose proof (ta_from_un t Ha). pose proof (ta_desired_un t Ha).
  pose proof (tv_from_un t Hv). pose proof (tv_desired_un t Hv). unfold int32_range in *.
  unfold replicas. rewrite (plan_views t original), (plan_views t goal);
    [|done|intros; apply elem_of_allNames; tauto|done|intros; apply elem_of_allNames; tauto].
  assert (0 ≤ zsum_with original (viewOf t <$> allNames t) ≤ maxMembers * 2147483648).
  { apply zsum_with_views_le; [done|]. intros m (k & -> & _)%list_elem_of_fmap. by apply viewOf_valid. }
  assert (0 ≤ zsum_with goal (viewOf t <$> allNames t) ≤ maxMembers * 2147483648).
  { apply zsum_with_views_le; [done|]. intros m (k & -> & _)%list_elem_of_fmap. by apply viewOf_valid. }
  lia.
Qed.

Lemma readTransition_valid t whole :
  transition_args t → transition_valid t → ∃ v b f, readTransition t whole = Ok (v, b, f).
Proof.
  intros Ha Hv. unfold readTransition.
  pose proof (allNames_NoDup t) as Hnd. pose proof (ta_size t Ha) as Hlen.
  rewrite (planTotal_valid (From t) (allNames t)), (planTotal_valid (Desired t) (allNames t)),
    (planTotal_valid (mkPlan (Current t) 0) (allNames t));
    try apply Ha; try apply Hv; try done; try (intros k ?; apply elem_of_allNames; cbn in *; tauto).
  cbn [omap_err obind]. rewrite decide_False by (destruct Hv; lia).
  unfold readMembers. rewrite decide_False by (by intros [? H]; rewrite (tv_names t Hv) in H).
  cbn [obind]. unfold readBudget. cbn [members vin fromReplicas desiredReplicas].
  pose proof (ta_reserved t Ha). pose proof (tv_reserved t Hv). unfold int32_range in *.
  destruct (replicas_bounds t Ha Hv) as [? ?].
  rewrite (i64_id (replicas (From t) - replicas (Desired t))) by (unfold int64_range; lia).
  edestruct (checkMember_loop_valid t (allNames t)) as [b' ->]; [done..| |cbn [obind fst snd]; eauto].
  split; cbn; lia.
Qed.

Lemma decideStep_returns t whole :
  transition_args t → transition_valid t →
  ∃ v b f s, readTransition t whole = Ok (v, b, f) ∧ decideStep v b f = Ok s.
Proof.
  intros Ha Hv. destruct (readTransition_valid t whole Ha Hv) as (v & b & f & Hr).
  exists v, b, f. pose proof (readTransition_reading _ _ _ _ _ Ha Hr) as R.
  unfold decideStep. destruct (existsb _ _); [eauto|]. destruct (negb _); [eauto|].
  destruct (movesReplicas _ _); [eauto|]. unfold planGrowth. rewrite decide_False.
  - cbn [obind]. destruct (movesReplicas _ _); [eauto|]. destruct (_ || _); [eauto|].
    destruct (existsb _ _); eauto.
  - rewrite (rd_replicas_from R), (rd_replicas_desired R), (rd_in _ _ _ _ _ R).
    pose proof (tv_limit t Hv). pose proof (tv_surge t Hv).
    destruct (replicas_bounds t Ha Hv) as [? ?].
    rewrite i64_id by (unfold int64_range; lia). lia.
Qed.

(** C10: [Advance] and [AdvanceWholeMembers] return a step for every input the
    code considers valid: nonnegative plans under nonempty names, consistent
    observations, and a floor plus surge allowance that fits an [int64].  No
    count of fewer than [2^30] clusters overflows on the way. *)
Theorem advance_returns t whole :
  transition_args t → transition_valid t → ∃ s, advanceTransition t whole = Ok s.
Proof.
  intros Ha Hv. destruct (decideStep_returns t whole Ha Hv) as (v & b & f & s & Hr & Hs).
  exists s. unfold advanceTransition. by rewrite Hr.
Qed.

Lemma advance_returns_witness : ∃ s, advanceTransition shifting true = Ok s.
Proof.
  apply advance_returns; [apply shifting_args|].
  split; cbn [From Desired Current Targets Unassigned Members Surge RolloutReserved];
    unfold targets_valid; first [by_entries | done | vm_compute; done].
Defined.

(** ** Turns that change nothing *)

Lemma effect_moves whole f m f' :
  reduction_effect whole f m f' → STargets (fstep f) !! name m = Some (current m) →
  f' = f ∨ name m ∈ Drain (fstep f') ∨ target_in (fstep f') m < current m.
Proof.
  intros He Ht. destruct He as [-> | -> _ _ _ | x -> ? _ _ _]; [by left|right; left|right; right].
  - cbn. set_solver.
  - unfold target_in, mget. cbn. rewrite lookup_insert_eq. cbn. lia.
Qed.

(** Reductions that move nothing left every allowance untouched, so every
    member was refused on the allowances the call started with. *)
Lemma planReductions_still {t whole v b f} (R : reading t whole v b f) :
  movesReplicas v (fstep (planReductions v f)) = false →
  ∀ m, m ∈ members v → planReduction whole f m = f.
Proof.
  intros [Hd Hs]%movesReplicas_false. rewrite (rd_in _ _ _ _ _ R) in Hs.
  set (ms := reductionOrder (members v)).
  pose (moved f' m := name m ∈ Drain (fstep f') ∨ target_in (fstep f') m < current m).
  cut (reduced whole ms f ms (planReductions v f)
       ∧ ((∀ m, m ∈ ms → planReduction whole f m = f) ∨ ∃ m, m ∈ ms ∧ moved (planReductions v f) m)).
  { intros [_ [Hall|(m & Hm & Hmoved)]].
    - intros m Hm. apply Hall. by apply elem_of_order.
    - exfalso. destruct Hmoved as [Hin|Hlt]; [rewrite Hd in Hin; set_solver|].
      unfold target_in in Hlt. apply elem_of_order in Hm.
      rewrite Hs, <-(members_current R m Hm) in Hlt. lia. }
  unfold planReductions. rewrite (rd_whole _ _ _ _ _ R). fold ms.
  cut (reduced whole ms f ms (foldl (planReduction whole) f ms)
       ∧ ((foldl (planReduction whole) f ms = f ∧ ∀ m, m ∈ ms → planReduction whole f m = f)
          ∨ ∃ m, m ∈ ms ∧ moved (foldl (planReduction whole) f ms) m)); [naive_solver|].
  apply (foldl_ind _ (λ pre f', reduced whole ms f pre f'
    ∧ ((f' = f ∧ ∀ m, m ∈ pre → planReduction whole f m = f) ∨ ∃ m, m ∈ pre ∧ moved f' m))).
  { split; [apply (reduced_start R)|left; set_solver]. }
  intros pre m post f' Hms [Hr Hor].
  assert (m ∈ ms) as Hm by (rewrite Hms; set_solver).
  pose proof (order_wf R m Hm) as Hwf. pose proof (NoDup_order_names R) as Hnd. fold ms in Hnd.
  split; [by eapply reduced_step|].
  pose proof (earlier_names_differ _ _ _ _ Hms Hnd) as Hpre.
  destruct (rs_todo _ _ _ _ _ Hr m Hm) as [Ht _]; [intros Hin; by apply (Hpre m Hin)|].
  destruct (planReduction_effect whole f' m Hwf (rs_funds _ _ _ _ _ Hr) Ht) as [He _].
  destruct Hor as [[-> Hall]|(m' & Hm' & Hmoved)].
  - destruct (effect_moves _ _ _ _ He Ht) as [Heq|Hmv]; [left|right; exists m; set_solver].
    split; [done|]. intros m' [?| ->%list_elem_of_singleton]%elem_of_app; auto.
  - right. exists m'. split; [set_solver|]. unfold moved in *.
    by destruct (effect_other _ _ _ _ m' He (Hpre m' Hm')) as (-> & -> & _).
Qed.

(** Growth that moves nothing found no member it could raise. *)
Lemma planGrowth_still {t whole v b f} (R : reading t whole v b f) g0 :
  whole = false →
  0 < growthAllowance g0 ≤ MaxInt64 →
  (∀ m, m ∈ members v → STargets (gstep g0) !! name m = Some (current m)) →
  (∀ m, m ∈ members v → growable m = false)
  ∨ ∃ m, m ∈ members v ∧ current m < target_in (gstep (foldl (growMember whole) g0 (members v))) m.
Proof.
  intros -> Hga Hs.
  cut ((foldl (growMember false) g0 (members v) = g0 ∧ ∀ m, m ∈ members v → growable m = false)
       ∨ ∃ m, m ∈ members v ∧ current m < target_in (gstep (foldl (growMember false) g0 (members v))) m
         ); [naive_solver|].
  pose proof (NoDup_names R) as Hnd. pose proof (rd_wf _ _ _ _ _ R) as Hwf.
  rewrite Forall_forall in Hwf.
  apply (foldl_ind _ (λ pre g, (g = g0 ∧ ∀ m, m ∈ pre → growable m = false)
    ∨ ∃ m, m ∈ pre ∧ current m < target_in (gstep g) m)).
  { left. set_solver. }
  intros pre m post g Hms Hor.
  assert (m ∈ members v) as Hm by (rewrite Hms; set_solver).
  pose proof (earlier_names_differ _ _ _ _ Hms Hnd) as Hpre.
  destruct Hor as [[-> Hall]|(m' & Hm' & Hlt)].
  - unfold growMember. destruct (growable m) eqn:Hg; cbn [negb].
    + right. exists m. split; [set_solver|]. cbn [andb]. unfold target_in, mget.
      cbn [gstep withTargets STargets]. rewrite lookup_insert_eq, (Hs m Hm). cbn [from_option id].
      destruct (Hwf m Hm) as [? ? ? ? ? _ _]. unfold growable in Hg. rewrite !andb_true_iff in Hg.
      destruct (serving (state m)); unwrap; lia.
    + left. split; [done|]. intros m' [?| ->%list_elem_of_singleton]%elem_of_app; auto.
  - right. exists m'. split; [set_solver|]. unfold growMember. destruct (negb _); [done|].
    cbn [andb]. unfold target_in, mget in *. cbn [gstep withTargets STargets].
    by rewrite lookup_insert_ne by (intros Heq; by apply (Hpre m' Hm')).
Qed.

(** ** Members that cooperate *)

(** What a member that carries out its target reports: nothing left under a
    zero target, and otherwise as many ready replicas as its target, which take
    traffic unless the member is drained. *)
Definition respond_member (target : Z) (drained : bool) : MemberState :=
  if target =? 0 then mkMember true true true false false true 0 0
  else if drained then mkMember true true true false true false target target
  else mkMember true true true true false false target target.

Definition cooperative (m : memberView) (d : bool) : Prop :=
  0 ≤ current m ∧ state m = respond_member (current m) d.

Lemma respond_consistent target d : 0 ≤ target → inconsistent (respond_member target d) = false.
Proof.
  intros Ht. unfold respond_member. destruct (target =? 0) eqn:?; [done|].
  unfold inconsistent. destruct d; cbn; rewrite ?orb_false_iff; split_and!; lia || done.
Qed.

Lemma cooperative_facts m d :
  cooperative m d →
  unknownStanding m = false ∧ unsettled m = false
  ∧ (needsResume m = true ↔ 0 < goal m ∧ 0 < current m ∧ d = true)
  ∧ Known (state m) = true ∧ Eligible (state m) = true ∧ Applied (state m) = true
  ∧ occupiedWithoutTarget m = false ∧ Occupied (state m) = current m.
Proof.
  intros [Hc Hs]. unfold unknownStanding, unsettled, needsResume, occupiedWithoutTarget.
  rewrite Hs. unfold respond_member.
  destruct (current m =? 0) eqn:E; [|destruct d]; cbn; rewrite ?andb_false_r;
    split_and!; done || lia || (split; [|lia]; intros ?; split_and!; done || lia).
Qed.

Lemma cooperative_counts m d :
  cooperative m d → 0 ≤ original m →
  m_use m = current m
  ∧ (d = false → m_serving m = current m ∧ m_retire m = current m - original m).
Proof.
  intros [Hc Hs] Ho. unfold m_use, m_serving, m_retire. rewrite Hs. unfold respond_member, serving.
  destruct (current m =? 0) eqn:E; [cbn; lia|].
  destruct d; cbn; [split; [lia|done]|lia].
Qed.

(** A reduction that is refused had nothing to spend: no unbacked replica and no
    retirement allowance, or, for a member that takes traffic, no unready replica
    and no serving capacity above the minimum. *)
Lemma reduceFunded_refused f m :
  wf_member m → funds_ok f → STargets (fstep f) !! name m = Some (current m) →
  goal m < current m → reduceFunded false f m = f →
  unbackedReplicas false m + Z.max 0 (retirementAllowance f) ≤ 0
  ∨ Routable (state m) = true
    ∧ Z.max 0 (current m - Ready (state m)) + servingAboveMinimum f ≤ 0.
Proof.
  intros Hwf [? ? ?] Ht Hlt Heq. pose proof (unbacked_bounds false m Hwf).
  destruct Hwf as [? ? ? ? ? _ _].
  assert (mget (STargets (fstep f)) (name m) = current m) as Hm by (unfold mget; by rewrite Ht).
  unfold reduceFunded in Heq. rewrite Hm in Heq. cbn [andb] in Heq. rewrite orb_false_r in Heq.
  rewrite (i32_id (current m - goal m)), (i32_id (current m - Ready (state m))) in Heq
    by (unfold int32_range; lia).
  rewrite (i64_id (unbackedReplicas false m + _)) in Heq by (unfold int64_range; lia).
  rewrite (i32_id (Z.min (current m - goal m) _)) in Heq by (unfold int32_range; lia).
  set (r1 := Z.min (current m - goal m) _) in Heq.
  set (r := if Routable (state m) then _ else r1) in Heq.
  assert (r = 0 → r1 ≤ 0 ∨ Routable (state m) = true
    ∧ Z.max 0 (current m - Ready (state m)) + servingAboveMinimum f ≤ 0) as Hr0.
  { unfold r. destruct (Routable (state m)); unwrap; lia. }
  assert (0 ≤ r ≤ current m) as Hrb.
  { unfold r. destruct (Routable (state m)); unwrap; lia. }
  destruct (r =? 0) eqn:Ez; [destruct Hr0 as [?|?]; [lia|left; lia|by right]|exfalso].
  clearbody r. apply (f_equal fstep) in Heq. destruct ((current m =? r) && _).
  - apply (f_equal Drain) in Heq. cbn in Heq.
    apply (f_equal length) in Heq. rewrite length_app in Heq. cbn in Heq. lia.
  - apply (f_equal STargets) in Heq. cbn [fstep withTargets STargets] in Heq.
    apply (f_equal (lookup (name m))) in Heq. rewrite lookup_insert_eq, Ht in Heq.
    injection Heq as Heq. rewrite i32_id in Heq by (unfold int32_range; lia). lia.
Qed.

Lemma planReduction_refused f m d :
  wf_member m → cooperative m d → funds_ok f → STargets (fstep f) !! name m = Some (current m) →
  goal m < current m → planReduction false f m = f →
  d = false ∧ (retirementAllowance f ≤ 0 ∨ servingAboveMinimum f ≤ 0).
Proof.
  intros Hwf Hco Hf Ht Hlt Heq. pose proof Hwf as [? ? ? ? ? _ _]. pose proof Hf as [? ? ?].
  destruct (cooperative_facts _ _ Hco) as (_ & _ & _ & HK & _ & HA & Hocc & _).
  destruct Hco as [_ Hs]. unfold respond_member in Hs.
  destruct (current m =? 0) eqn:E; [lia|].
  unfold planReduction in Heq. rewrite Hocc in Heq. unfold reducible in Heq. rewrite HK, HA in Heq.
  assert ((current m >? goal m) = true) as Hgt by lia. rewrite Hgt in Heq.
  assert (Absent (state m) = false) as Hab by (rewrite Hs; by destruct d).
  rewrite Hab in Heq. cbn [andb] in Heq.
  apply reduceFunded_refused in Heq as Hc; [|done..].
  unfold unbackedReplicas in Hc. rewrite Hs in Hc. destruct d; cbn in Hc.
  - destruct Hc as [?|[? _]]; [lia|done].
  - split; [done|]. rewrite E in Hc. cbn in Hc. destruct Hc as [?|[_ ?]]; [left|right]; lia.
Qed.

Lemma zsum_with_pair_lt {A} (p q : A → Z) l :
  zsum_with p l < zsum_with q l → ∃ x, x ∈ l ∧ p x < q x.
Proof.
  intros Hlt. destruct (decide (Forall (λ x, q x ≤ p x) l)) as [Hall|Hex].
  - rewrite Forall_forall in Hall. apply zsum_with_mono in Hall. lia.
  - apply not_Forall_Exists, Exists_exists in Hex as (x & Hx & Hn); [|intros ?; apply _].
    exists x. split; [done|]. cbn in Hn. lia.
Qed.

Lemma zsum_with_all_eq {A} (p q : A → Z) l :
  (∀ x, x ∈ l → p x ≤ q x) → zsum_with q l ≤ zsum_with p l → ∀ x, x ∈ l → p x = q x.
Proof.
  intros Hle Hsum x Hx. destruct (decide (p x = q x)) as [|Hne]; [done|exfalso].
  assert (zsum_with p l < zsum_with q l); [|lia].
  apply (zsum_with_mono_strict _ _ _ x); [done|done|]. specialize (Hle x Hx). lia.
Qed.

Section progress.
Context {t : Transition} {v : view} {b : tally} {f : funds} (R : reading t false v b f).
Context (d : memberView → bool) (Hco : ∀ m, m ∈ members v → cooperative m (d m)).
Context (Hres : RolloutReserved t = 0) (Hun : Unassigned (Desired t) = 0) (Hsurge : 1 ≤ Surge t).
Context (Hstill : movesReplicas v (fstep (planReductions v f)) = false).
Context (Hnoresume : ∀ m, m ∈ members v → needsResume m = false).

Lemma members_wf m : m ∈ members v → wf_member m.
Proof. pose proof (rd_wf _ _ _ _ _ R) as H. rewrite Forall_forall in H. apply H. Qed.

Lemma refused m :
  m ∈ members v → goal m < current m →
  d m = false ∧ (retirementAllowance f ≤ 0 ∨ servingAboveMinimum f ≤ 0).
Proof.
  intros Hm Hlt. apply (planReduction_refused f m (d m)); [by apply members_wf|by apply Hco
    |apply (reading_funds_ok R)|by apply (start_todo R)|done|].
  by apply (planReductions_still R).
Qed.

(** A drained member that holds replicas has goal zero, so it was reduced. *)
Lemma none_drained m : m ∈ members v → 0 < current m → d m = false.
Proof.
  intros Hm Hc. destruct (d m) eqn:Ed; [|done].
  destruct (cooperative_facts _ _ (Hco m Hm)) as (_ & _ & Hn & _).
  rewrite (Hnoresume m Hm) in Hn. destruct (members_wf m Hm).
  destruct (decide (0 < goal m)).
  - by specialize (proj2 Hn ltac:(done)).
  - destruct (refused m Hm); [lia|congruence].
Qed.

Lemma counts m : m ∈ members v →
  m_use m = current m ∧ m_serving m = current m ∧ m_retire m = current m - original m.
Proof.
  intros Hm. destruct (members_wf m Hm).
  destruct (cooperative_counts m (d m) (Hco m Hm)) as [Hu Hrest]; [lia|].
  split; [done|]. destruct (decide (0 < current m)) as [Hc|Hc].
  - apply Hrest. by apply none_drained.
  - destruct (Hco m Hm) as [? Hs]. unfold m_serving, m_retire, respond_member in *.
    assert ((current m =? 0) = true) as E by lia. rewrite E in Hs. rewrite Hs. cbn. lia.
Qed.

(** The applied targets do not exceed the desired total: otherwise the
    allowances would have funded a reduction. *)
Lemma current_le_desired : zsum_with current (members v) ≤ zsum_with goal (members v).
Proof.
  destruct (decide (zsum_with current (members v) ≤ zsum_with goal (members v))) as [|Hgt];
    [done|exfalso].
  destruct (zsum_with_pair_lt goal current (members v)) as (m & Hm & Hlt); [lia|].
  destruct (refused m Hm Hlt) as [_ Hfunds].
  assert (servingReady b = zsum_with current (members v)) as Hsr.
  { rewrite (rd_tally _ _ _ _ _ R). cbn. apply zsum_with_ext. intros; by apply counts. }
  assert (counted b = Z.max 0 (fromReplicas v - desiredReplicas v)
    + zsum_with current (members v) - zsum_with original (members v)) as Hct.
  { rewrite (rd_tally _ _ _ _ _ R). cbn.
    rewrite (zsum_with_ext m_retire (λ m, current m + -1 * original m)).
    - rewrite zsum_with_add, zsum_with_scale. lia.
    - intros x Hx. destruct (counts x Hx) as (_ & _ & ->). lia. }
  rewrite (rd_retirement _ _ _ _ _ R), (rd_minimum _ _ _ _ _ R), Hct, Hsr in Hfunds.
  pose proof (rd_from _ _ _ _ _ R). pose proof (rd_desired _ _ _ _ _ R).
  pose proof (rd_from_un _ _ _ _ _ R).
  destruct (_ <? _); lia.
Qed.

Lemma still_at_goal g :
  planGrowth v b (fstep (planReductions v f)) = Ok g → movesReplicas v (gstep g) = false →
  ∀ m, m ∈ members v → goal m = current m.
Proof.
  unfold planGrowth. rewrite (rd_in _ _ _ _ _ R), (rd_whole _ _ _ _ _ R).
  pose proof (rd_from_small _ _ _ _ _ R). pose proof (rd_desired_small _ _ _ _ _ R).
  destruct (reading_totals_nonneg R) as [? ?]. destruct (rd_small _ _ _ _ _ R) as [? _ _ _].
  case_decide as Hov; [done|]. intros [= <-] Hgs.
  rewrite i64_id in Hov by (unfold int64_range; lia).
  pose proof (planReductions_reduced R) as HR.
  assert (inUse b = zsum_with current (members v)) as Hin.
  { rewrite (rd_tally _ _ _ _ _ R). cbn. rewrite Hres. cbn.
    apply zsum_with_ext. intros; by apply counts. }
  pose proof current_le_desired as Hle. pose proof (rd_desired _ _ _ _ _ R).
  rewrite (i64_id (_ + Surge t)), (i64_id (_ - inUse b)) in Hgs by (unfold int64_range; lia).
  destruct (planGrowth_still R (mkGrowth (fstep (planReductions v f))
    (Z.max 0 (Z.max (fromReplicas v) (desiredReplicas v) + Surge t - inUse b)) false) eq_refl)
    as [Hall|(m & Hm & Hlt)].
  - cbn. lia.
  - by apply (still_targets R).
  - intros m Hm. apply (zsum_with_all_eq goal current (members v)); [|done|done].
    intros x Hx. specialize (Hall x Hx). unfold growable in Hall.
    destruct (cooperative_facts _ _ (Hco x Hx)) as (_ & _ & _ & HK & HE & HA & _).
    rewrite HK, HE, HA, orb_true_r, !andb_true_r in Hall. lia.
  - exfalso. apply movesReplicas_false in Hgs as [_ Hgs]. rewrite (rd_in _ _ _ _ _ R) in Hgs.
    unfold target_in in Hlt. rewrite Hgs, <-(members_current R m Hm) in Hlt. lia.
Qed.
End progress.

(** Every step names a target for every cluster, and for no other. *)
Lemma decideStep_dom {t whole v b f s} (R : reading t whole v b f) :
  transition_args t → decideStep v b f = Ok s →
  ∀ k, is_Some (STargets s !! k) ↔ k ∈ name <$> members v.
Proof.
  intros Ha. unfold decideStep. pose proof (planReductions_reduced R) as HR.
  destruct (existsb unknownStanding _); [intros [= <-]; apply (start_dom R)|].
  destruct (negb _); [intros [= <-]; apply (start_dom R)|].
  destruct (movesReplicas v (fstep (planReductions v f))) eqn:Em; [intros [= <-]; apply HR|].
  intros (g & Hg & Hrest)%obind_Ok_inv.
  apply (planGrowth_grown R Ha (still_targets R Em) (rs_dom _ _ _ _ _ HR)) in Hg as (ga0 & _ & HG).
  revert Hrest. destruct (movesReplicas v (gstep g)); [intros [= <-]; apply HG|].
  destruct (_ || _); [intros [= <-]; apply HG|].
  destruct (existsb _ _); intros [= <-]; apply HG.
Qed.

(** ** The closed loop *)

(** The steps left for one member: two per replica still to move, and one for a
    drain or a resume still to come. *)
Definition member_distance (goal current : Z) (drained : bool) : Z :=
  2 * Z.abs (goal - current)
  + (if 0 <? current then Z.b2z (if goal =? 0 then negb drained else drained) else 0).

Definition drained_after (s : Step) (D : gset string) : gset string :=
  (D ∪ list_to_set (Drain s)) ∖ list_to_set (Resume s).

Section decreases.
Context {t : Transition} {v : view} {b : tally} {f : funds} (R : reading t false v b f).
Context (D : gset string).
Context (Hco : ∀ m, m ∈ members v → cooperative m (bool_decide (name m ∈ D))).
Context (Hres : RolloutReserved t = 0) (Hun : Unassigned (Desired t) = 0) (Hsurge : 1 ≤ Surge t).

Definition before (m : memberView) : Z :=
  member_distance (goal m) (current m) (bool_decide (name m ∈ D)).
Definition after (s : Step) (m : memberView) : Z :=
  member_distance (goal m) (target_in s m) (bool_decide (name m ∈ drained_after s D)).
Definition closer (s : Step) : Prop :=
  zsum_with (after s) (members v) < zsum_with before (members v).

Lemma resume_closer s :
  STargets s = STargets (fstep f) → Drain s = [] →
  Resume s = resumeDrainedMembers (members v) → Resume s ≠ [] → closer s.
Proof.
  intros Ht Hd Hr Hne. rewrite Hr in Hne.
  assert (∀ m, m ∈ members v → target_in s m = current m) as Hcur.
  { intros m Hm. unfold target_in, mget. rewrite Ht. by rewrite (start_todo R m Hm). }
  assert (∀ m, m ∈ members v → (name m ∈ Resume s ↔ needsResume m = true)) as Hiff.
  { intros m Hm. rewrite Hr. unfold resumeDrainedMembers. rewrite list_elem_of_fmap. split.
    - intros (m' & Hn & [? ?]%list_elem_of_In%filter_In).
      rewrite <-list_elem_of_In in *. by rewrite (elem_of_name_inj (members v) m m' (NoDup_names R)).
    - intros ?. exists m. split; [done|]. apply list_elem_of_In, filter_In.
      by rewrite <-list_elem_of_In. }
  assert (∀ m, m ∈ members v → after s m ≤ before m
    ∧ (needsResume m = true → after s m < before m)) as Hpt.
  { intros m Hm. destruct (cooperative_facts _ _ (Hco m Hm)) as (_ & _ & Hn & _).
    unfold after, before, member_distance, drained_after. rewrite Hcur, Hd by done.
    specialize (Hiff m Hm). destruct (needsResume m) eqn:En.
    - destruct (proj1 Hn eq_refl) as (? & ? & HD). rewrite bool_decide_eq_true in HD.
      rewrite (bool_decide_true (name m ∈ D)), bool_decide_false by set_solver.
      assert ((goal m =? 0) = false) as -> by lia.
      assert ((0 <? current m) = true) as -> by lia. cbn [Z.b2z]. lia.
    - rewrite (bool_decide_ext (name m ∈ _ ∖ _) (name m ∈ D)) by set_solver. lia. }
  destruct (resumeDrainedMembers (members v)) as [|k ks] eqn:E; [done|].
  assert (k ∈ name <$> List.filter needsResume (members v)) as Hk.
  { unfold resumeDrainedMembers in E. rewrite E. set_solver. }
  apply list_elem_of_fmap in Hk as (m & -> & [Hm Hnr]%list_elem_of_In%filter_In).
  rewrite <-list_elem_of_In in Hm.
  apply (zsum_with_mono_strict _ _ _ m); [intros; by apply Hpt|done|by apply Hpt].
Qed.

(** A step that moves replicas does so at some member. *)
Lemma moves_member s :
  (∀ k, is_Some (STargets s !! k) ↔ k ∈ name <$> members v) →
  (∀ k, k ∈ Drain s → k ∈ name <$> members v) →
  movesReplicas v s = true →
  ∃ m, m ∈ members v ∧ (name m ∈ Drain s ∨ target_in s m ≠ current m).
Proof.
  intros Hdom Hdr Hmv.
  destruct (decide (Exists (λ m, name m ∈ Drain s ∨ target_in s m ≠ current m) (members v)))
    as [Hex|Hn]; [by apply Exists_exists in Hex|exfalso].
  rewrite <-Forall_Exists_neg, Forall_forall in Hn.
  assert (movesReplicas v s = false); [|congruence].
  apply movesReplicas_false. split.
  - destruct (Drain s) as [|k l] eqn:E; [done|exfalso].
    assert (k ∈ name <$> members v) as Hk by (apply Hdr; set_solver).
    apply list_elem_of_fmap in Hk as (m & -> & Hm). apply (Hn m Hm). set_solver.
  - intros k. rewrite (rd_in _ _ _ _ _ R), <-(start_same R k).
    destruct (decide (k ∈ name <$> members v)) as [Hk|Hk].
    + apply list_elem_of_fmap in Hk as (m & -> & Hm).
      unfold mget at 2. rewrite (start_todo R m Hm). cbn.
      specialize (Hn m Hm). unfold target_in in Hn.
      destruct (decide (mget (STargets s) (name m) = current m)); [done|tauto].
    + unfold mget. rewrite (proj2 (eq_None_not_Some (STargets s !! k))) by (by rewrite Hdom).
      by rewrite (proj2 (eq_None_not_Some (STargets (fstep f) !! k))) by (by rewrite (start_dom R)).
Qed.

Lemma reduce_closer s :
  movesReplicas v (fstep (planReductions v f)) = true →
  STargets s = STargets (fstep (planReductions v f)) →
  Drain s = Drain (fstep (planReductions v f)) → Resume s = [] → closer s.
Proof.
  intros Hmv Ht Hd Hr. pose proof (planReductions_reduced R) as HR.
  assert (∀ m, m ∈ members v → after s m ≤ before m
    ∧ (name m ∈ Drain s ∨ target_in s m ≠ current m → after s m < before m)) as Hpt.
  { intros m Hm. destruct (rs_done _ _ _ _ _ HR m Hm) as (Hb & _ & _ & Hdr).
    destruct (Hco m Hm) as [Hc Hs]. destruct (cooperative_facts _ _ (Hco m Hm)) as
      (_ & _ & _ & _ & _ & _ & _ & Hocc).
    unfold after, before, member_distance, drained_after, target_in in *. rewrite Ht, Hd, Hr.
    destruct (decide (name m ∈ Drain (fstep (planReductions v f)))) as [Hin|Hin].
    - destruct (Hdr Hin) as (Htc & [Hg Huse] & HD). unfold m_use in Huse.
      unfold respond_member in Hs. assert ((current m =? 0) = false) as E by lia. rewrite E in Hs.
      destruct (bool_decide (name m ∈ D)) eqn:ED; rewrite Hs in HD; [done|].
      rewrite Htc, Hg, bool_decide_true by set_solver.
      assert ((0 <? current m) = true) as -> by lia. cbn [Z.eqb negb Z.b2z]. lia.
    - rewrite (bool_decide_ext (name m ∈ _ ∖ _) (name m ∈ D)) by set_solver.
      set (d := bool_decide (name m ∈ D)).
      set (x := mget (STargets (fstep (planReductions v f))) (name m)) in *.
      destruct Hb as [->|?]; [split; [lia|tauto]|].
      split; [|intros _]; destruct (0 <? x), (0 <? current m), (goal m =? 0), d; cbn [negb Z.b2z]; lia. }
  destruct (moves_member (fstep (planReductions v f))) as (m & Hm & Hch);
    [apply HR|apply HR|done|].
  unfold target_in in *. rewrite <-Ht, <-Hd in Hch.
  apply (zsum_with_mono_strict _ _ _ m); [intros; by apply Hpt|done|by apply Hpt].
Qed.

Lemma grow_closer ga0 g s :
  movesReplicas v (fstep (planReductions v f)) = false →
  grown false (members v) (mkGrowth (fstep (planReductions v f)) ga0 false) (members v) g →
  movesReplicas v (gstep g) = true →
  STargets s = STargets (gstep g) → Drain s = [] → Resume s = [] → closer s.
Proof.
  intros [HD0 _]%movesReplicas_false HG Hmv Ht Hd Hr.
  pose proof (gr_drain _ _ _ _ _ HG) as Hgd. cbn in Hgd. rewrite HD0 in Hgd.
  assert (∀ m, m ∈ members v → after s m ≤ before m
    ∧ (target_in s m ≠ current m → after s m < before m)) as Hpt.
  { intros m Hm. destruct (gr_done _ _ _ _ _ HG m Hm) as [Hb _]. destruct (Hco m Hm) as [Hc _].
    unfold after, before, member_distance, drained_after, target_in in *. rewrite Ht, Hd, Hr.
    rewrite (bool_decide_ext (name m ∈ _ ∖ _) (name m ∈ D)) by set_solver.
    set (d := bool_decide (name m ∈ D)). set (x := mget (STargets (gstep g)) (name m)) in *.
    destruct (decide (x = current m)) as [->|]; [split; [lia|done]|].
    split; [|intros _]; destruct (0 <? x), (0 <? current m), (goal m =? 0), d;
      cbn [negb Z.b2z]; lia. }
  destruct (moves_member (gstep g)) as (m & Hm & Hch);
    [apply HG|rewrite Hgd; set_solver|done|].
  rewrite Hgd in Hch. destruct Hch as [?|Hch]; [set_solver|].
  apply (zsum_with_mono_strict _ _ _ m); [intros; by apply Hpt|done|].
  apply Hpt; [done|]. unfold target_in in *. by rewrite Ht.
Qed.

(** A step that does not complete the move brings it closer to its end. *)
Lemma decideStep_closer s :
  transition_args t → decideStep v b f = Ok s → Complete s = true ∨ closer s.
Proof.
  intros Ha. unfold decideStep.
  rewrite (proj2 (existsb_false_forall unknownStanding _))
    by (intros m Hm; by destruct (cooperative_facts _ _ (Hco m Hm))).
  cbn [Resume withResume].
  destruct (negb _) eqn:Er.
  { intros [= <-]. right. apply resume_closer; cbn; try done; [apply (start_Drain R)|].
    intros E. by rewrite E in Er. }
  destruct (movesReplicas v (fstep (planReductions v f))) eqn:Em.
  { intros [= <-]. right. apply reduce_closer; try done. cbn.
    by rewrite (rs_resume _ _ _ _ _ (planReductions_reduced R)), (start_Resume R). }
  intros (g & Hg & Hrest)%obind_Ok_inv.
  destruct (movesReplicas v (gstep g)) eqn:Em2.
  - right. injection Hrest as <-. pose proof (planReductions_reduced R) as HR.
    destruct (planGrowth_grown (g := g) (s := fstep (planReductions v f)) R Ha) as (ga0 & _ & HG);
      [by apply (still_targets R)|apply HR|done|].
    pose proof (gr_drain _ _ _ _ _ HG) as Hgd. pose proof (gr_resume _ _ _ _ _ HG) as Hgr.
    cbn in Hgd, Hgr. apply (grow_closer ga0 g); cbn; try done.
    + rewrite Hgd. by apply movesReplicas_false in Em as [? _].
    + by rewrite Hgr, (rs_resume _ _ _ _ _ HR), (start_Resume R).
  - left. rewrite (proj2 (no_moves R)) in Hrest.
    + rewrite (proj2 (existsb_false_forall unsettled _)) in Hrest
        by (intros m Hm; by destruct (cooperative_facts _ _ (Hco m Hm)) as (_ & ? & _)).
      by injection Hrest as <-.
    + by apply (still_at_goal R (λ m, bool_decide (name m ∈ D)) Hco Hres Hun Hsurge Em
        (proj1 (no_resume _) Er) g).
Qed.
End decreases.

Section loop.
Context (from desired : Plan) (surge : Z).

Definition loop_names (cur : gmap string Z) : gset string :=
  dom (Targets desired) ∪ dom (Targets from) ∪ dom cur.

(** The input of the next call when the targets [cur] are applied and every
    cluster of [D] that holds replicas is drained. *)
Definition situation (cur : gmap string Z) (D : gset string) : Transition :=
  mkTransition from cur desired
    (map_imap (λ k _, Some (respond_member (mget cur k) (bool_decide (k ∈ D))))
       (gset_to_gmap () (loop_names cur)))
    surge 0.

(** [Advance] until it reports the move complete, with members that carry out
    each step before the next call. *)
Fixpoint run (fuel : nat) (cur : gmap string Z) (D : gset string) : option Step :=
  match fuel with
  | O => None
  | S fuel =>
      match Advance (situation cur D) with
      | Ok s => if Complete s then Some s else run fuel (STargets s) (drained_after s D)
      | _ => None
      end
  end.

Definition distance (cur : gmap string Z) (D : gset string) : Z :=
  zsum_with (λ k, member_distance (mget (Targets desired) k) (mget cur k) (bool_decide (k ∈ D)))
    (allNames (situation cur D)).

Definition loop_ok (cur : gmap string Z) : Prop :=
  (∀ k v, cur !! k = Some v → int32_range v) ∧ targets_valid cur
  ∧ (Z.of_nat (size (loop_names cur)) ≤ maxMembers)%Z.

Lemma situation_member cur D k :
  Members (situation cur D) !! k
  = if decide (k ∈ loop_names cur)
    then Some (respond_member (mget cur k) (bool_decide (k ∈ D))) else None.
Proof.
  cbn. rewrite map_lookup_imap, lookup_gset_to_gmap. by case_decide; case_guard.
Qed.

Lemma situation_dom cur D : dom (Members (situation cur D)) = loop_names cur.
Proof.
  apply set_eq. intros k. rewrite elem_of_dom, situation_member.
  case_decide; [naive_solver|]. split; [by intros [? ?]|done].
Qed.

Lemma situation_names cur D :
  allNames (situation cur D) = sort_slice str_lt (elements (loop_names cur)).
Proof.
  unfold allNames. rewrite situation_dom. do 2 f_equal. unfold loop_names. cbn. set_solver.
Qed.

Lemma situation_view cur D k :
  k ∈ allNames (situation cur D) →
  state (viewOf (situation cur D) k) = respond_member (mget cur k) (bool_decide (k ∈ D)).
Proof.
  rewrite situation_names, elem_of_sort_slice, elem_of_elements. intros Hk.
  unfold viewOf. cbn [state]. by rewrite situation_member, decide_True.
Qed.

Context (Hfrom : ∀ k v, Targets from !! k = Some v → int32_range v).
Context (Hdesired : ∀ k v, Targets desired !! k = Some v → int32_range v).
Context (Vfrom : targets_valid (Targets from)) (Vdesired : targets_valid (Targets desired)).
Context (Ufrom : (0 ≤ Unassigned from ≤ MaxInt32)%Z) (Udesired : Unassigned desired = 0%Z).
Context (Hsurge : (1 ≤ surge)%Z).
Context (Hlimit : (Z.max (replicas from) (replicas desired) + surge ≤ MaxInt64)%Z).

Lemma loop_names_valid cur k : loop_ok cur → k ∈ loop_names cur → k ≠ "".
Proof.
  intros (_ & Hv & _). unfold loop_names. rewrite !elem_of_union, !elem_of_dom.
  intros [[[v Hk]|[v Hk]]|[v Hk]]; [by eapply Vdesired|by eapply Vfrom|by eapply Hv].
Qed.

Lemma respond_range target d :
  (0 ≤ target ≤ MaxInt32)%Z →
  int32_range (Ready (respond_member target d)) ∧ int32_range (Occupied (respond_member target d)).
Proof.
  intros Ht. unfold respond_member, int32_range. destruct (target =? 0)%Z, d; cbn; lia.
Qed.

Lemma situation_args cur D : loop_ok cur → transition_args (situation cur D).
Proof.
  intros (Hr & Hv & Hsz). split; cbn [From Desired Current Surge RolloutReserved situation]; try done.
  - unfold int32_range. lia.
  - rewrite Udesired. unfold int32_range. lia.
  - intros k s. rewrite situation_member. case_decide; [|done]. intros [= <-].
    apply respond_range. by apply mget_range.
  - unfold int64_range. assert (0 ≤ replicas desired)%Z; [|lia]. unfold replicas.
    rewrite Udesired. apply zsum_with_nonneg. intros [k x] Hk%elem_of_map_to_list. by eapply Vdesired.
  - rewrite situation_names, length_sort_slice. unfold size, set_size in Hsz. cbn in *. lia.
Qed.

Lemma situation_valid cur D : loop_ok cur → transition_valid (situation cur D).
Proof.
  intros Hok. pose proof Hok as (Hr & Hv & _).
  split; cbn [From Desired Current Surge RolloutReserved situation]; try done; try lia.
  - rewrite situation_member. case_decide as Hk; [|done]. by apply loop_names_valid in Hk.
  - intros k s. rewrite situation_member. case_decide; [|done]. intros [= <-].
    apply respond_consistent. by apply mget_range.
Qed.

Section turn.
Context (cur : gmap string Z) (D : gset string) (Hok : loop_ok cur).
Context {v : view} {b : tally} {f : funds} {s : Step}.
Context (R : reading (situation cur D) false v b f) (Hs : decideStep v b f = Ok s).

Lemma turn_dom k : is_Some (STargets s !! k) ↔ k ∈ allNames (situation cur D).
Proof.
  rewrite (decideStep_dom R (situation_args cur D Hok) Hs k). by rewrite (names_members R).
Qed.

Lemma turn_names : loop_names (STargets s) = loop_names cur.
Proof.
  apply set_eq. intros k. unfold loop_names at 1. rewrite elem_of_union, elem_of_dom, turn_dom.
  rewrite situation_names, elem_of_sort_slice, elem_of_elements. unfold loop_names. set_solver.
Qed.

Lemma turn_member k :
  k ∈ allNames (situation cur D) → viewOf (situation cur D) k ∈ members v.
Proof. rewrite (rd_members _ _ _ _ _ R). apply list_elem_of_fmap_2. Qed.

Lemma turn_complete k :
  Complete s = true → mget (STargets s) k = mget (Targets desired) k.
Proof.
  intros Hc. destruct (decideStep_case R (situation_args cur D Hok) Hs)
    as [_ _ ?|_ _ _ _ ?|?? _ _ _ _ _ ?|_ _ Hcur _ Hgoal _]; try congruence.
  destruct (decide (k ∈ allNames (situation cur D))) as [Hk|Hk].
  - apply turn_member in Hk. specialize (Hcur _ Hk). rewrite <-(Hgoal _ Hk) in Hcur. exact Hcur.
  - assert (STargets s !! k = None) as Hk1 by (apply eq_None_not_Some; by rewrite turn_dom).
    rewrite elem_of_allNames in Hk.
    assert (Targets desired !! k = None) as Hk2 by (apply eq_None_not_Some; cbn in Hk; tauto).
    unfold mget. by rewrite Hk1, Hk2.
Qed.

Lemma turn_bounds k x :
  STargets s !! k = Some x → k ≠ "" ∧ (0 ≤ x ≤ MaxInt32)%Z.
Proof.
  intros Hk. assert (k ∈ allNames (situation cur D)) as Hin by (apply turn_dom; eauto). split.
  - rewrite situation_names, elem_of_sort_slice, elem_of_elements in Hin.
    by eapply loop_names_valid.
  - apply turn_member in Hin. pose proof (members_wf R _ Hin) as [_ ? ? _ _ _ _].
    destruct (step_case_direction R (decideStep_case R (situation_args cur D Hok) Hs)) as [Hb _].
    specialize (Hb _ Hin). unfold target_in, mget in Hb. cbn [name viewOf] in Hb.
    rewrite Hk in Hb. cbn [from_option id] in Hb. lia.
Qed.

Lemma turn_loop_ok : loop_ok (STargets s).
Proof.
  split_and!; [intros k x Hk|intros k x Hk|rewrite turn_names; apply Hok];
    apply turn_bounds in Hk; [unfold int32_range|]; lia || naive_solver lia.
Qed.

Lemma turn_closer :
  Complete s = false →
  (distance (STargets s) (drained_after s D) < distance cur D)%Z.
Proof.
  intros Hc.
  assert (∀ m, m ∈ members v → cooperative m (bool_decide (name m ∈ D))) as Hco.
  { intros m Hm. rewrite (rd_members _ _ _ _ _ R) in Hm.
    apply list_elem_of_fmap in Hm as (k & -> & Hk). split; [|by apply situation_view].
    apply mget_range; apply Hok. }
  destruct (decideStep_closer R D Hco eq_refl Udesired Hsurge s (situation_args cur D Hok) Hs)
    as [?|Hcl]; [congruence|].
  unfold closer in Hcl. rewrite (rd_members _ _ _ _ _ R) in Hcl. unfold zsum_with in Hcl.
  rewrite <-!list_fmap_compose in Hcl. unfold distance.
  rewrite situation_names, turn_names, <-(situation_names cur D). exact Hcl.
Qed.
End turn.

Lemma distance_nonneg cur D : (0 ≤ distance cur D)%Z.
Proof.
  apply zsum_with_nonneg. intros k _. unfold member_distance, Z.b2z. repeat case_match; lia.
Qed.

Lemma run_completes fuel cur D :
  loop_ok cur → (distance cur D < Z.of_nat fuel)%Z →
  ∃ s, run fuel cur D = Some s ∧ Complete s = true
    ∧ ∀ k, mget (STargets s) k = mget (Targets desired) k.
Proof.
  revert cur D. induction fuel as [|fuel IH]; intros cur D Hok Hd.
  { pose proof (distance_nonneg cur D). lia. }
  destruct (decideStep_returns (situation cur D) false (situation_args cur D Hok)
    (situation_valid cur D Hok)) as (v & b & f & s & Hr & Hs).
  pose proof (readTransition_reading _ _ _ _ _ (situation_args cur D Hok) Hr) as R.
  cbn [run]. unfold Advance, advanceTransition. rewrite Hr. cbn [obind]. rewrite Hs.
  destruct (Complete s) eqn:Ec.
  - exists s. split_and!; [done|done|]. intros k. by apply (turn_complete cur D Hok R Hs).
  - apply IH; [by apply (turn_loop_ok cur D Hok R Hs)|].
    pose proof (turn_closer cur D Hok R Hs Ec). lia.
Qed.
End loop.

(** What the code requires of two plans it moves between, with the values of
    their fields in their types. *)
Record move_valid (from desired : Plan) (surge : Z) (cur : gmap string Z) : Prop := {
  mv_from : ∀ k v, Targets from !! k = Some v → k ≠ "" ∧ 0 ≤ v ≤ MaxInt32;
  mv_desired : ∀ k v, Targets desired !! k = Some v → k ≠ "" ∧ 0 ≤ v ≤ MaxInt32;
  mv_current : ∀ k v, cur !! k = Some v → k ≠ "" ∧ 0 ≤ v ≤ MaxInt32;
  mv_unassigned : 0 ≤ Unassigned from ≤ MaxInt32;
  mv_limit : Z.max (replicas from) (replicas desired) + surge ≤ MaxInt64;
  mv_size : Z.of_nat (size (loop_names from desired cur)) ≤ maxMembers;
}.

(** C11: a move completes.  From any applied targets and any set of drained
    members, when every member carries out each step before the next call, a
    surge allowance of at least one and a desired plan that assigns all its
    replicas are enough: after at most two calls for every replica still to
    move, one for every drain or resume still to come and one to confirm,
    [Advance] reports the move complete, with the desired targets applied. *)
Theorem moves_complete from desired surge cur D :
  move_valid from desired surge cur → Unassigned desired = 0 → 1 ≤ surge →
  ∃ s, run from desired surge (S (Z.to_nat (distance from desired surge cur D))) cur D = Some s
    ∧ Complete s = true ∧ ∀ k, mget (STargets s) k = mget (Targets desired) k.
Proof.
  intros [Hf Hd Hc Hu Hl Hsz] Hun Hs. apply run_completes; try done.
  1,2: intros k x Hk; (apply Hf in Hk || apply Hd in Hk); unfold int32_range; lia.
  1,2: intros k x Hk; (apply Hf in Hk || apply Hd in Hk); naive_solver lia.
  - split_and!; [|intros k x Hk; apply Hc in Hk; naive_solver lia|done].
    intros k x Hk. apply Hc in Hk. unfold int32_range. lia.
  - pose proof (distance_nonneg from desired surge cur D). lia.
Qed.

Definition all_on (k : string) (n : Z) : Plan := mkPlan {[k := n]} 0.

Lemma moves_complete_witness :
  ∃ s, run (all_on "a" 2) (all_on "b" 2) 1 9 {["a" := 2]} {["a"]} = Some s
    ∧ Complete s = true ∧ ∀ k, mget (STargets s) k = mget (Targets (all_on "b" 2)) k.
Proof.
  assert (9%nat = S (Z.to_nat (distance (all_on "a" 2) (all_on "b" 2) 1 {["a" := 2]} {["a"]})))
    as -> by (vm_compute; reflexivity).
  apply (moves_complete (all_on "a" 2) (all_on "b" 2) 1 {["a" := 2]} {["a"]}); [|done|lia].
  split; unfold all_on; cbn [Targets Unassigned]; first [by_entries | done | vm_compute; done].
Defined.
