(* ===== verification/Quantity.v ===== *)
(** * Quantities

    [resource.Quantity] (k8s.io/apimachinery) and the decimal it converts to
    ([inf.Dec]) are third-party code.  The quota packages use them through the
    operations of [QuantityOps]; what they rely on is [QuantityLaws], the
    documented meaning of those operations: a quantity denotes an exact decimal
    number, [AsDec] exposes it as an unscaled integer and a scale, and the
    arithmetic and the comparisons are those of the numbers denoted.  Every
    component that handles quantities is parametric in the class, and
    [decimal] below is an instance, with which the witnesses compute. *)

From Stdlib Require Export QArith Qcanon.
From stdpp Require Import pretty.
From S2P Require Import Prelude.
Local Open Scope Z_scope.

Class QuantityOps (Q : Type) := {
  (** the zero value [resource.Quantity{}] *)
  q_zero : Q;
  q_Add : Q → Q → Q;
  q_Sub : Q → Q → Q;
  (** negative, zero or positive *)
  q_Cmp : Q → Q → Z;
  q_Sign : Q → Z;
  q_IsZero : Q → bool;
  q_String : Q → string;
  (** the field [Format]; empty for the zero value *)
  q_Format : Q → string;
  (** [AsDec().UnscaledBig()] and [AsDec().Scale()] *)
  q_Unscaled : Q → Z;
  q_Scale : Q → Z;
  (** [NewDecimalQuantity] of [inf.NewDecBig(unscaled, scale)] *)
  q_NewDecimal : Z → Z → string → Q;
}.

(** [10^-s]. *)
Definition ten_to (s : Z) : Qc := (Qc_of_Z (10 ^ Z.max 0 (- s)) / Qc_of_Z (10 ^ Z.max 0 s))%Qc.

(** The number a quantity denotes. *)
Definition q_value {Q} `{QuantityOps Q} (q : Q) : Qc :=
  (Qc_of_Z (q_Unscaled q) * ten_to (q_Scale q))%Qc.

(** The sign convention of [Cmp] and [Sign]. *)
Definition cmp_sign (c : comparison) : Z :=
  match c with Lt => -1 | Eq => 0 | Gt => 1 end.

Class QuantityLaws (Q : Type) `{QuantityOps Q} : Prop := {
  law_zero : q_value q_zero = 0%Qc;
  law_Add a b : q_value (q_Add a b) = (q_value a + q_value b)%Qc;
  law_Sub a b : q_value (q_Sub a b) = (q_value a - q_value b)%Qc;
  law_Cmp a b : q_Cmp a b = cmp_sign (q_value a ?= q_value b)%Qc;
  law_Sign a : q_Sign a = cmp_sign (q_value a ?= 0)%Qc;
  law_IsZero a : q_IsZero a = true ↔ q_value a = 0%Qc;
  law_NewDecimal u s f : q_value (q_NewDecimal u s f) = (Qc_of_Z u * ten_to s)%Qc;
}.

(** ** Powers of ten *)

Lemma pow10_pos n : 0 ≤ n → 0 < 10 ^ n.
Proof. intros. apply Z.pow_pos_nonneg; lia. Qed.

Lemma Qc_of_Z_pos z : 0 < z → (0 < Qc_of_Z z)%Qc.
Proof. intros H. rewrite <-Z2Qc_inj_0. exact (proj1 (Z2Qc_inj_lt 0 z) H). Qed.

Lemma Qc_pow10_ne n : 0 ≤ n → Qc_of_Z (10 ^ n) ≠ 0%Qc.
Proof. intros H E. by apply (Qclt_not_eq _ _ (Qc_of_Z_pos _ (pow10_pos n H))). Qed.

Lemma ten_to_pos s : (0 < ten_to s)%Qc.
Proof.
  unfold ten_to, Qcdiv. apply Qcmult_pos_pos; [|apply Qcinv_pos];
    apply Qc_of_Z_pos, pow10_pos; lia.
Qed.

Lemma ten_to_ne s : ten_to s ≠ 0%Qc.
Proof. intros E. by apply (Qclt_not_eq _ _ (ten_to_pos s)). Qed.

(** A coarser unit is a whole number of finer ones. *)
Lemma ten_to_shift s k : 0 ≤ k → ten_to s = (Qc_of_Z (10 ^ k) * ten_to (s + k))%Qc.
Proof.
  intros Hk. unfold ten_to.
  assert (Qc_of_Z (10 ^ Z.max 0 s) ≠ 0%Qc) by (apply Qc_pow10_ne; lia).
  assert (Qc_of_Z (10 ^ Z.max 0 (s + k)) ≠ 0%Qc) by (apply Qc_pow10_ne; lia).
  assert (Qc_of_Z (10 ^ Z.max 0 (- s)) * Qc_of_Z (10 ^ Z.max 0 (s + k))
    = Qc_of_Z (10 ^ k) * Qc_of_Z (10 ^ Z.max 0 (- (s + k))) * Qc_of_Z (10 ^ Z.max 0 s))%Qc as E.
  { rewrite <-!Z2Qc_inj_mul, <-!Z.pow_add_r by lia. do 2 f_equal. lia. }
  field_simplify_eq; [|done]. rewrite E. ring.
Qed.

Lemma qc_compare_scaled a b s :
  ((Qc_of_Z a * ten_to s)%Qc ?= (Qc_of_Z b * ten_to s)%Qc)%Qc = (a ?= b).
Proof.
  pose proof (ten_to_pos s) as Hs. destruct (Z.compare_spec a b) as [->|H|H].
  - by apply (proj1 (Qceq_alt _ _)).
  - apply (proj1 (Qclt_alt _ _)), (proj1 (Qcmult_lt_mono_pos_r _ _ _ Hs)).
    by apply (proj1 (Z2Qc_inj_lt a b)).
  - apply (proj1 (Qcgt_alt _ _)), (proj1 (Qcmult_lt_mono_pos_r _ _ _ Hs)).
    by apply (proj1 (Z2Qc_inj_lt b a)).
Qed.

(** ** Decimals: an instance *)

Record decimal := mkDec { d_unscaled : Z; d_scale : Z; d_format : string }.

(** The unscaled value at a finer scale. *)
Definition d_at (s : Z) (d : decimal) : Z := d_unscaled d * 10 ^ (s - d_scale d).

Definition d_lift (f : Z → Z → Z) (a b : decimal) : decimal :=
  let s := Z.max (d_scale a) (d_scale b) in
  mkDec (f (d_at s a) (d_at s b)) s (d_format a).

Definition d_compare (a b : decimal) : comparison :=
  let s := Z.max (d_scale a) (d_scale b) in d_at s a ?= d_at s b.

#[export] Instance decimal_ops : QuantityOps decimal := {
  q_zero := mkDec 0 0 "";
  q_Add := d_lift Z.add;
  q_Sub := d_lift Z.sub;
  q_Cmp a b := cmp_sign (d_compare a b);
  q_Sign a := cmp_sign (d_unscaled a ?= 0);
  q_IsZero a := d_unscaled a =? 0;
  q_String a := pretty (d_unscaled a) +:+ "e" +:+ pretty (- d_scale a);
  q_Format := d_format;
  q_Unscaled := d_unscaled;
  q_Scale := d_scale;
  q_NewDecimal := mkDec;
}.

Lemma d_at_value s d : d_scale d ≤ s → q_value d = (Qc_of_Z (d_at s d) * ten_to s)%Qc.
Proof.
  intros Hs. unfold q_value, d_at. cbn. rewrite (ten_to_shift (d_scale d) (s - d_scale d)) by lia.
  rewrite Z2Qc_inj_mul, Qcmult_assoc. do 2 f_equal. lia.
Qed.

Ltac dcbn :=
  cbn [q_Add q_Sub q_Sign q_IsZero q_Unscaled q_Scale decimal_ops d_lift d_unscaled d_scale].

#[export] Instance decimal_laws : QuantityLaws decimal.
Proof.
  split.
  - done.
  - intros a b. set (s := Z.max (d_scale a) (d_scale b)).
    rewrite (d_at_value s a), (d_at_value s b) by lia.
    unfold q_value. dcbn. fold s. rewrite Z2Qc_inj_add. ring.
  - intros a b. set (s := Z.max (d_scale a) (d_scale b)).
    rewrite (d_at_value s a), (d_at_value s b) by lia.
    unfold q_value. dcbn. fold s. rewrite Z2Qc_inj_sub. ring.
  - intros a b. set (s := Z.max (d_scale a) (d_scale b)).
    rewrite (d_at_value s a), (d_at_value s b), qc_compare_scaled by lia. done.
  - intros a. unfold q_value. dcbn.
    by rewrite <-(qc_compare_scaled _ 0 (d_scale a)), Z2Qc_inj_0, Qcmult_0_l.
  - intros a. dcbn. rewrite Z.eqb_eq. unfold q_value. dcbn.
    split; [intros ->; by rewrite Z2Qc_inj_0, Qcmult_0_l|].
    intros [E|E]%Qcmult_integral; [apply Z2Qc_inj; by rewrite E, Z2Qc_inj_0|by apply ten_to_ne in E].
  - done.
Qed.

Definition dec (z : Z) : decimal := mkDec z 0 "DecimalSI".

(** ** Sums of quantities *)

Definition qc_sum {A} (f : A → Qc) (l : list A) : Qc := foldr (λ a s, (f a + s)%Qc) 0%Qc l.

Section qc_sum.
Context {A : Type}.
Implicit Types f g : A → Qc.

Lemma qc_sum_nil f : qc_sum f [] = 0%Qc.
Proof. done. Qed.

Lemma qc_sum_cons f x l : qc_sum f (x :: l) = (f x + qc_sum f l)%Qc.
Proof. done. Qed.

Lemma qc_sum_app f l l' : qc_sum f (l ++ l') = (qc_sum f l + qc_sum f l')%Qc.
Proof.
  induction l as [|x l IH]; [symmetry; apply Qcplus_0_l|].
  cbn [app]. rewrite !qc_sum_cons, IH. ring.
Qed.

#[export] Instance qc_sum_perm f : Proper ((≡ₚ) ==> (=)) (qc_sum f).
Proof.
  induction 1 as [|x l l' _ IH|x y l|l l' l'' _ IH _ IH']; rewrite ?qc_sum_cons; [done| | |].
  - by rewrite IH.
  - ring.
  - by rewrite IH.
Qed.

Lemma qc_sum_ext f g l : (∀ x, x ∈ l → f x = g x) → qc_sum f l = qc_sum g l.
Proof.
  induction l as [|x l IH]; intros Hfg; [done|]. rewrite !qc_sum_cons, Hfg, IH by set_solver. done.
Qed.

Lemma qc_sum_zero f l : (∀ x, x ∈ l → f x = 0%Qc) → qc_sum f l = 0%Qc.
Proof. induction l as [|x l IH]; intros Hz; [done|]. rewrite qc_sum_cons, Hz, IH by set_solver. ring. Qed.

(** Elements that weigh nothing may be left out. *)
Lemma qc_sum_filter f (P : A → Prop) `{∀ x, Decision (P x)} l :
  (∀ x, x ∈ l → ¬ P x → f x = 0%Qc) → qc_sum f (filter P l) = qc_sum f l.
Proof.
  induction l as [|x l IH]; intros Hz; [done|]. rewrite filter_cons. case_decide; rewrite !qc_sum_cons.
  - rewrite IH by set_solver. done.
  - rewrite IH, (Hz x) by set_solver. ring.
Qed.
End qc_sum.

Lemma qc_sum_fmap {A B} (f : B → Qc) (g : A → B) l : qc_sum f (g <$> l) = qc_sum (λ a, f (g a)) l.
Proof. induction l as [|x l IH]; [done|]. cbn [fmap list_fmap]. rewrite !qc_sum_cons. f_equal. exact IH. Qed.

(** Sums over the values of a map. *)
Definition map_qc_sum {K} `{Countable K} {A} (f : A → Qc) (m : gmap K A) : Qc :=
  qc_sum (λ kv, f kv.2) (map_to_list m).

Section map_qc_sum.
Context {K : Type} `{Countable K} {A : Type} (f : A → Qc).
Implicit Types m : gmap K A.

Lemma map_qc_sum_at m k :
  map_qc_sum f m = (from_option f 0%Qc (m !! k) + map_qc_sum f (delete k m))%Qc.
Proof.
  unfold map_qc_sum. destruct (m !! k) as [x|] eqn:Hk; cbn [from_option].
  - by rewrite <-(map_to_list_delete m k x Hk).
  - rewrite delete_id by done. symmetry. apply Qcplus_0_l.
Qed.

Lemma map_qc_sum_insert m k x :
  map_qc_sum f (<[k := x]> m) = (f x + map_qc_sum f (delete k m))%Qc.
Proof. rewrite (map_qc_sum_at _ k), lookup_insert_eq, delete_insert_eq. done. Qed.

(** Writing one value changes the sum by the difference. *)
Lemma map_qc_sum_update m k x :
  map_qc_sum f (<[k := x]> m) = (map_qc_sum f m + (f x - from_option f 0%Qc (m !! k)))%Qc.
Proof. rewrite map_qc_sum_insert, (map_qc_sum_at m k). ring. Qed.
End map_qc_sum.

(** ** Decimals the code computes with *)

(** The operations of [inf.Dec] (gopkg.in/inf.v0) that the code uses on the
    decimal a quantity converts to, and their documented meaning: [NewDec]
    makes [unscaled * 10^-scale], [Mul] and [Cmp] are exact. *)
Class DecOps (Q D : Type) := {
  AsDec : Q → D;
  NewDec : Z → Z → D;
  dec_Mul : D → D → D;
  dec_Cmp : D → D → Z;
  dec_value : D → Qc;
}.

Class DecLaws (Q D : Type) `{QuantityOps Q} `{DecOps Q D} : Prop := {
  law_AsDec (q : Q) : dec_value (AsDec q) = q_value q;
  law_NewDec u s : dec_value (NewDec u s) = (Qc_of_Z u * ten_to s)%Qc;
  law_dec_Mul a b : dec_value (dec_Mul a b) = (dec_value a * dec_value b)%Qc;
  law_dec_Cmp a b : dec_Cmp a b = cmp_sign (dec_value a ?= dec_value b)%Qc;
}.

#[export] Instance decimal_dec : DecOps decimal decimal := {
  AsDec d := d;
  NewDec u s := mkDec u s "";
  dec_Mul a b := mkDec (d_unscaled a * d_unscaled b) (d_scale a + d_scale b) "";
  dec_Cmp := q_Cmp;
  dec_value := q_value;
}.

Lemma ten_to_add a b : ten_to (a + b) = (ten_to a * ten_to b)%Qc.
Proof.
  unfold ten_to.
  assert (Qc_of_Z (10 ^ Z.max 0 (a + b)) ≠ 0%Qc) by (apply Qc_pow10_ne; lia).
  assert (Qc_of_Z (10 ^ Z.max 0 a) ≠ 0%Qc) by (apply Qc_pow10_ne; lia).
  assert (Qc_of_Z (10 ^ Z.max 0 b) ≠ 0%Qc) by (apply Qc_pow10_ne; lia).
  assert (Qc_of_Z (10 ^ Z.max 0 (- (a + b))) * (Qc_of_Z (10 ^ Z.max 0 a) * Qc_of_Z (10 ^ Z.max 0 b))
    = Qc_of_Z (10 ^ Z.max 0 (- a)) * Qc_of_Z (10 ^ Z.max 0 (- b)) * Qc_of_Z (10 ^ Z.max 0 (a + b)))%Qc as E.
  { rewrite <-!Z2Qc_inj_mul, <-!Z.pow_add_r by lia. do 2 f_equal. lia. }
  field_simplify_eq; [|split_and!; done]. rewrite <-Qcmult_assoc, E. ring.
Qed.

#[export] Instance decimal_dec_laws : DecLaws decimal decimal.
Proof.
  split; [done|done| |].
  - intros a b.
    change (q_value (mkDec (d_unscaled a * d_unscaled b) (d_scale a + d_scale b) "") = (q_value a * q_value b)%Qc).
    unfold q_value. dcbn. rewrite Z2Qc_inj_mul, ten_to_add. ring.
  - intros a b. apply law_Cmp.
Qed.
