(* ===== verification/Shares.v ===== *)
(** * Splitting a fleet budget

    [pkg/quota/shares/shares.go]: [Proportional] splits a fleet-wide quantity
    over clusters in proportion to their capacities, by largest remainder on
    unbounded integers; [Sum] adds shares up.  The Go slices indexed by the
    position of a weight are lists indexed the same way; [*big.Int] is [Z].
    The correctness theorems tie the list program to the specification of
    [Remainder], and the quantities it returns to the numbers they denote. *)

From S2P Require Import Prelude Quantity Remainder.
Local Open Scope Z_scope.

Section model.
Context {Q : Type} `{QuantityOps Q}.

Record Weight := mkWeight { wCluster : string; wCapacity : Q }.
Record Share := mkShare { sCluster : string; sNominal : Q }.

Inductive shares_error :=
| ErrNoClusters
| ErrTotalNegative (total : string)
| ErrNoClusterName
| ErrClusterTwice (cluster : string)
| ErrCapacityNegative (cluster capacity : string)
| ErrZeroBasis.

(** [int32(q.AsDec().Scale())]. *)
Definition decScale (q : Q) : Z := i32 (q_Scale q).

(** [q] as a whole number of [10^-scale] units; the shift is an [int32]. *)
Definition unitsAt (q : Q) (scale : Z) : Z :=
  let shift := i32 (scale - i32 (q_Scale q)) in
  if shift >? 0 then q_Unscaled q * 10 ^ shift else q_Unscaled q.

Definition quantityAt (units scale : Z) (format : string) : Q :=
  q_NewDecimal units scale format.

(** The body of the validation loop; the state is the set of names seen. *)
Definition checkWeight (seen : gset string) (w : Weight) : outcome shares_error (gset string) :=
  if decide (wCluster w = "") then Err ErrNoClusterName
  else if decide (wCluster w ∈ seen) then Err (ErrClusterTwice (wCluster w))
  else if decide (q_Sign (wCapacity w) < 0)
  then Err (ErrCapacityNegative (wCluster w) (q_String (wCapacity w)))
  else Ok ({[wCluster w]} ∪ seen).

Definition weightScaleOf (weights : list Weight) : Z :=
  foldl (λ s w, let s' := decScale (wCapacity w) in if s' >? s then s' else s) 0 weights.

(** One cluster's entry in the ranking: its position and what division left. *)
Record portion := mkPortion { index : nat; rest : Z }.

Definition clusterAt (weights : list Weight) (i : nat) : string :=
  default "" (wCluster <$> weights !! i).

Definition portionLess (weights : list Weight) (a b : portion) : bool :=
  lex_less rest Z.gtb (λ a b, str_lt (clusterAt weights (index a)) (clusterAt weights (index b))) a b.

(** [for leftover > 0]: the front of the ranking gets one unit and leaves it.
    Reading the front of an empty slice panics. *)
Fixpoint handUnits (leftover : Z) (portions : list portion) (assigned : list Z)
    : outcome shares_error (list Z) :=
  if decide (0 < leftover) then
    match portions with
    | [] => Panic
    | p :: portions => handUnits (leftover - 1) portions (alter (Z.add 1) (index p) assigned)
    end
  else Ok assigned.

Definition Proportional (total : Q) (weights : list Weight) : outcome shares_error (list Share) :=
  (if decide (weights = []) then Err ErrNoClusters
   else if decide (q_Sign total < 0) then Err (ErrTotalNegative (q_String total))
   else
     let? _ := ofold checkWeight ∅ weights in
     let scale := decScale total in
     let units := unitsAt total scale in
     let weightScale := weightScaleOf weights in
     let weighted := (λ w, unitsAt (wCapacity w) weightScale) <$> weights in
     let basis := foldl Z.add 0 weighted in
     if decide (basis = 0) then Err ErrZeroBasis
     else
       let assigned := (λ w, Z.quot (units * w) basis) <$> weighted in
       let portions := imap (λ i w, mkPortion i (Z.rem (units * w) basis)) weighted in
       let placed := foldl Z.add 0 assigned in
       let? assigned := handUnits (units - placed) (sort_slice (portionLess weights) portions)
                          assigned in
       Ok (sort_slice (λ a b, str_lt (sCluster a) (sCluster b))
             (zip_with (λ w u, mkShare (wCluster w) (quantityAt u scale (q_Format total)))
                weights assigned)))%go.

Definition Sum (shares : list Share) : Q := foldl (λ t s, q_Add t (sNominal s)) q_zero shares.
End model.
Arguments Weight : clear implicits.
Arguments Share : clear implicits.

Example split_4_over_3 :
  Proportional (dec 4) [mkWeight "c" (dec 8); mkWeight "a" (dec 8); mkWeight "b" (dec 8)]
  = Ok [mkShare "a" (dec 2); mkShare "b" (dec 1); mkShare "c" (dec 1)].
Proof. vm_compute. reflexivity. Qed.

(** ** Units *)

Section units.
Context {Q : Type} `{QuantityOps Q} `{!QuantityLaws Q}.

(** A scale far from the ends of [int32], so that no difference of two wraps;
    a quantity's scale is a handful of digits. *)
Definition scale_ok (q : Q) : Prop := Z.abs (q_Scale q) ≤ 1073741823.

Lemma decScale_id q : scale_ok q → decScale q = q_Scale q.
Proof. intros Hs. unfold decScale, scale_ok in *. apply i32_id. unfold int32_range. lia. Qed.

(** Nothing is rounded at a scale at least as fine as the quantity's. *)
Lemma unitsAt_value q s :
  scale_ok q → q_Scale q ≤ s ≤ 1073741823 →
  q_value q = (Qc_of_Z (unitsAt q s) * ten_to s)%Qc.
Proof.
  intros Hq Hs. unfold scale_ok in Hq. unfold q_value, unitsAt. unwrap.
  destruct (s - q_Scale q >? 0) eqn:E.
  - rewrite (ten_to_shift (q_Scale q) (s - q_Scale q)) by lia.
    rewrite Z2Qc_inj_mul, Qcmult_assoc. do 2 f_equal. lia.
  - do 2 f_equal. lia.
Qed.

Lemma unitsAt_own q : scale_ok q → unitsAt q (decScale q) = q_Unscaled q.
Proof.
  intros Hq. rewrite decScale_id by done. unfold unitsAt, scale_ok in *. unwrap.
  by rewrite Z.sub_diag.
Qed.

Lemma unitsAt_nonneg q s : 0 ≤ q_Unscaled q → 0 ≤ unitsAt q s.
Proof.
  intros Hq. unfold unitsAt. destruct (_ >? 0) eqn:E; [|done].
  apply Z.mul_nonneg_nonneg; [done|]. apply Z.pow_nonneg. lia.
Qed.

(** The sign a quantity reports is that of its unscaled integer. *)
Lemma q_Sign_unscaled q : q_Sign q = cmp_sign (q_Unscaled q ?= 0).
Proof.
  rewrite law_Sign. unfold q_value.
  by rewrite <-(qc_compare_scaled _ 0 (q_Scale q)), Z2Qc_inj_0, Qcmult_0_l.
Qed.

Lemma q_Sign_nonneg q : (q_Sign q < 0) ↔ ¬ 0 ≤ q_Unscaled q.
Proof.
  rewrite q_Sign_unscaled. destruct (Z.compare_spec (q_Unscaled q) 0); cbn; lia.
Qed.

(** The scale of the weights is the largest of theirs, and at least zero. *)
Lemma weightScale_spec (ws : list (Weight Q)) :
  (weightScaleOf ws = 0 ∨ ∃ w, w ∈ ws ∧ weightScaleOf ws = decScale (wCapacity w))
  ∧ 0 ≤ weightScaleOf ws ∧ ∀ w, w ∈ ws → decScale (wCapacity w) ≤ weightScaleOf ws.
Proof.
  unfold weightScaleOf. apply (foldl_ind _ (λ pre s,
    (s = 0 ∨ ∃ w, w ∈ pre ∧ s = decScale (wCapacity w))
    ∧ 0 ≤ s ∧ ∀ w, w ∈ pre → decScale (wCapacity w) ≤ s));
    [split_and!; [by left|lia|set_solver]|].
  intros pre w post s Hws (Hs & H0 & Hle). cbn zeta.
  destruct (decScale (wCapacity w) >? s) eqn:E; (split_and!; [|lia|]).
  - right. exists w. set_solver.
  - intros w' [?%Hle| ->%list_elem_of_singleton]%elem_of_app; lia.
  - destruct Hs as [->|(w' & ? & ->)]; [by left|right]. exists w'. set_solver.
  - intros w' [?%Hle| ->%list_elem_of_singleton]%elem_of_app; lia.
Qed.

Lemma weightScale_bounds (ws : list (Weight Q)) :
  Forall (λ w, scale_ok (wCapacity w)) ws →
  0 ≤ weightScaleOf ws ≤ 1073741823
  ∧ ∀ w, w ∈ ws → q_Scale (wCapacity w) ≤ weightScaleOf ws.
Proof.
  intros Hall. pose proof (proj1 (Forall_forall _ _) Hall) as Hok.
  destruct (weightScale_spec ws) as (Hs & H0 & Hle). split.
  - destruct Hs as [?|(w & Hw%Hok & ?)]; [lia|].
    pose proof (decScale_id _ Hw) as E. unfold scale_ok in Hw. lia.
  - intros w Hw. specialize (Hle w Hw). by rewrite decScale_id in Hle by auto.
Qed.

Lemma weightScale_perm (ws ws' : list (Weight Q)) :
  ws ≡ₚ ws' → weightScaleOf ws = weightScaleOf ws'.
Proof.
  intros Hp.
  destruct (weightScale_spec ws) as (Hs & H0 & Hle), (weightScale_spec ws') as (Hs' & H0' & Hle').
  apply Z.le_antisymm.
  - destruct Hs as [->|(w & Hw & ->)]; [done|]. apply Hle'. by rewrite <-Hp.
  - destruct Hs' as [->|(w & Hw & ->)]; [done|]. apply Hle. by rewrite Hp.
Qed.
End units.

(** ** Positions and names *)

(** The amounts of a slice indexed like the weights, by cluster name. *)
Definition byName (names : list string) (amounts : list Z) : gmap string Z :=
  list_to_map (zip names amounts).

Section byName.
Context (names : list string) (Hnd : NoDup names).

Lemma byName_lookup amounts i k x :
  names !! i = Some k → amounts !! i = Some x → length amounts = length names →
  byName names amounts !! k = Some x.
Proof.
  intros Hk Hx Hl. apply elem_of_list_to_map_1.
  - by rewrite fst_zip by lia.
  - apply list_elem_of_lookup. exists i. by rewrite lookup_zip_with, Hk, Hx.
Qed.

Lemma byName_None amounts k :
  k ∉ names → length amounts = length names → byName names amounts !! k = None.
Proof.
  intros Hk Hl. apply not_elem_of_list_to_map_1. by rewrite fst_zip by lia.
Qed.

Lemma byName_fmap {A} (f : A → Z) (l : list A) i k x :
  names !! i = Some k → l !! i = Some x → length l = length names →
  byName names (f <$> l) !! k = Some (f x).
Proof.
  intros Hk Hx Hl. apply (byName_lookup _ i); [done| |by rewrite length_fmap].
  by rewrite list_lookup_fmap, Hx.
Qed.

Lemma byName_alter amounts i k :
  names !! i = Some k → length amounts = length names →
  byName names (alter (Z.add 1) i amounts) = bump (byName names amounts) k.
Proof.
  intros Hk Hl. apply map_eq. intros j. unfold bump.
  destruct (lookup_lt_is_Some_2 amounts i) as [x Hx].
  { apply lookup_lt_Some in Hk. lia. }
  assert (byName names amounts !! k = Some x) as Hbx by (by eapply byName_lookup).
  destruct (decide (j = k)) as [->|Hne].
  - rewrite lookup_insert_eq. unfold mget. rewrite Hbx. cbn.
    apply (byName_lookup _ i); [done| |by rewrite length_alter].
    rewrite list_lookup_alter_eq, Hx. cbn. f_equal. lia.
  - rewrite lookup_insert_ne by done. destruct (decide (j ∈ names)) as [Hj|Hj].
    + apply list_elem_of_lookup in Hj as [i' Hi'].
      destruct (lookup_lt_is_Some_2 amounts i') as [y Hy].
      { apply lookup_lt_Some in Hi'. lia. }
      assert (i ≠ i') by congruence.
      rewrite (byName_lookup amounts i' j y) by done.
      apply (byName_lookup _ i'); [done| |by rewrite length_alter].
      by rewrite list_lookup_alter_ne.
    + by rewrite !byName_None by (done || by rewrite length_alter).
Qed.

Lemma byName_sum amounts :
  length amounts = length names → map_zsum (byName names amounts) = zsum amounts.
Proof.
  intros Hl. assert ((zip names amounts).*1 = names) as E by (apply fst_zip; lia).
  unfold map_zsum, byName. rewrite map_to_list_to_map by (by rewrite E).
  unfold zsum_with. by rewrite snd_zip by lia.
Qed.
End byName.

Lemma foldl_add_zsum a l : foldl Z.add a l = a + zsum l.
Proof.
  revert a. induction l as [|x l IH]; intros a; simpl; [lia|]. rewrite IH.
  change (zsum (x :: l)) with (x + zsum l). lia.
Qed.

(** ** The split *)

Section split.
Context {Q : Type} `{QuantityOps Q} `{!QuantityLaws Q}.
Context (total : Q) (ws : list (Weight Q)).

Definition names : list string := wCluster <$> ws.
Definition weighted : list Z := (λ w, unitsAt (wCapacity w) (weightScaleOf ws)) <$> ws.
Definition units : Z := unitsAt total (decScale total).

(** The weights by name, in whole units of the finest capacity. *)
Definition weightMap : gmap string Z := byName names weighted.

(** What [Proportional] accepts. *)
Record split_valid : Prop := {
  sv_some : ws ≠ [];
  sv_total : 0 ≤ q_Unscaled total;
  sv_names : "" ∉ names;
  sv_unique : NoDup names;
  sv_capacity : ∀ w, w ∈ ws → 0 ≤ q_Unscaled (wCapacity w);
  sv_positive : ∃ w, w ∈ ws ∧ 0 < q_Unscaled (wCapacity w);
}.

(** The validation loop accepts exactly the named, distinct, nonnegative
    weights. *)
Lemma checkWeight_loop :
  (∃ seen, ofold checkWeight ∅ ws = Ok seen) ↔
  ("" ∉ names) ∧ NoDup names ∧ ∀ w, w ∈ ws → 0 ≤ q_Unscaled (wCapacity w).
Proof.
  cut (∀ l seen, (∃ seen', ofold checkWeight seen l = Ok seen') ↔
    ("" ∉ (wCluster <$> l)) ∧ NoDup (wCluster <$> l) ∧ (∀ w, w ∈ l → wCluster w ∉ seen)
    ∧ ∀ w, w ∈ l → 0 ≤ q_Unscaled (wCapacity w)).
  { intros Hc. rewrite (Hc ws ∅). unfold names. split; [naive_solver|].
    intros (? & ? & ?). split_and!; [done|done|set_solver|done]. }
  induction l as [|w l IH]; intros seen; simpl.
  { split; [|eauto]. intros _. split_and!; [set_solver|constructor|set_solver|set_solver]. }
  unfold checkWeight at 1.
  destruct (decide (wCluster w = "")) as [E|E].
  { cbn. split; [naive_solver|]. rewrite E. set_solver. }
  destruct (decide (wCluster w ∈ seen)) as [Ei|Ei].
  { cbn. split; [naive_solver|]. set_solver. }
  destruct (decide (q_Sign (wCapacity w) < 0)) as [Es|Es]; rewrite q_Sign_nonneg in Es.
  { cbn. split; [naive_solver|]. set_solver. }
  cbn [obind]. rewrite IH, NoDup_cons, !not_elem_of_cons. apply dec_stable in Es.
  split.
  - intros (? & ? & Hs & ?). split_and!; [congruence|done| |done| |].
    + intros (w' & Heq & Hw')%list_elem_of_fmap. apply (Hs w' Hw'). set_solver.
    + intros w' [->|Hw']%elem_of_cons; [done|]. specialize (Hs w' Hw'). set_solver.
    + intros w' [->|?]%elem_of_cons; auto.
  - intros ([_ ?] & [Hn ?] & Hs & ?). split_and!; [done|done| |set_solver].
    intros w' Hw'. apply not_elem_of_union. split; [|set_solver].
    intros Heq%elem_of_singleton. apply Hn. rewrite <-Heq. by apply list_elem_of_fmap_2.
Qed.

Lemma length_names : length names = length ws.
Proof. apply length_fmap. Qed.

Lemma length_weighted : length weighted = length names.
Proof. unfold weighted, names. by rewrite !length_fmap. Qed.

Lemma clusterAt_names i k : names !! i = Some k → clusterAt ws i = k.
Proof. unfold names, clusterAt. rewrite list_lookup_fmap. by intros ->. Qed.

Context (Hv : split_valid).

Lemma weighted_nonneg x : x ∈ weighted → 0 ≤ x.
Proof.
  intros (w & -> & Hw)%list_elem_of_fmap. apply unitsAt_nonneg. by apply (sv_capacity Hv).
Qed.

Lemma weightMap_nonneg k x : weightMap !! k = Some x → 0 ≤ x.
Proof.
  intros Hk%elem_of_list_to_map_2%elem_of_zip_r. by apply weighted_nonneg.
Qed.

Lemma weightMap_basis : basis weightMap = zsum weighted.
Proof. apply byName_sum; [apply Hv|apply length_weighted]. Qed.

Lemma weightMap_dom k : is_Some (weightMap !! k) ↔ k ∈ names.
Proof.
  split.
  - intros [x Hk%elem_of_list_to_map_2%elem_of_zip_l]. done.
  - intros [i Hi]%list_elem_of_lookup. destruct (lookup_lt_is_Some_2 weighted i) as [x Hx].
    { rewrite length_weighted. by apply lookup_lt_Some in Hi. }
    exists x. apply (byName_lookup _ (sv_unique Hv) _ i); [done|done|apply length_weighted].
Qed.

Lemma units_nonneg : 0 ≤ units.
Proof. apply unitsAt_nonneg, Hv. Qed.

Lemma unitsAt_pos q s : 0 < q_Unscaled q → 0 < unitsAt q s.
Proof.
  intros Hq. unfold unitsAt. destruct (_ >? 0) eqn:E; [|done].
  apply Z.mul_pos_pos; [done|]. apply pow10_pos. lia.
Qed.

Lemma basis_pos : 0 < basis weightMap.
Proof.
  rewrite weightMap_basis. destruct (sv_positive Hv) as (w & Hw & Hpos).
  assert (unitsAt (wCapacity w) (weightScaleOf ws) ≤ zsum weighted) as Hle.
  { apply (zsum_with_elem_le (λ w, unitsAt (wCapacity w) (weightScaleOf ws)) ws w); [|done].
    intros x Hx. apply unitsAt_nonneg. by apply (sv_capacity Hv). }
  pose proof (unitsAt_pos (wCapacity w) (weightScaleOf ws) Hpos). lia.
Qed.

(** At a position, the floor and the rest are those of the cluster's name. *)
Lemma position_quotient i k x :
  names !! i = Some k → weighted !! i = Some x →
  Z.quot (units * x) (zsum weighted) = quotient units weightMap k
  ∧ Z.rem (units * x) (zsum weighted) = remainder units weightMap k.
Proof.
  intros Hk Hx. pose proof basis_pos as Hb. rewrite weightMap_basis in Hb.
  assert (mget weightMap k = x) as Hm.
  { unfold mget, weightMap. by rewrite (byName_lookup _ (sv_unique Hv) _ i k x) by (done || apply length_weighted). }
  assert (0 ≤ x) by (apply weighted_nonneg, list_elem_of_lookup; eauto).
  pose proof units_nonneg. unfold quotient, remainder. rewrite Hm, weightMap_basis.
  split; [apply Z.quot_div_nonneg|apply Z.rem_mod_nonneg]; nia.
Qed.

Definition floors : list Z := (λ w, Z.quot (units * w) (zsum weighted)) <$> weighted.
Definition portions : list portion :=
  imap (λ i w, mkPortion i (Z.rem (units * w) (zsum weighted))) weighted.
Definition ranking : list portion := sort_slice (portionLess ws) portions.
Definition ranked : list string := (λ p, clusterAt ws (index p)) <$> ranking.

Lemma portions_names : (λ p, clusterAt ws (index p)) <$> portions = names.
Proof.
  apply list_eq. intros i. unfold portions.
  rewrite list_lookup_fmap, list_lookup_imap.
  destruct (weighted !! i) as [x|] eqn:Ex; cbn.
  - assert (i < length names)%nat as [k Hk]%lookup_lt_is_Some_2
      by (rewrite <-length_weighted; by apply lookup_lt_Some in Ex).
    by rewrite Hk, (clusterAt_names i k Hk).
  - apply lookup_ge_None in Ex. rewrite length_weighted in Ex. symmetry. by apply lookup_ge_None.
Qed.

Lemma ranked_perm : ranked ≡ₚ names.
Proof. unfold ranked, ranking. rewrite sort_slice_perm. by rewrite portions_names. Qed.

(** A ranked portion is a position with its name and rest. *)
Lemma elem_of_ranking p :
  p ∈ ranking → ∃ k, names !! index p = Some k ∧ clusterAt ws (index p) = k
    ∧ rest p = remainder units weightMap k.
Proof.
  unfold ranking, portions. rewrite elem_of_sort_slice.
  intros (i & x & -> & Hx)%elem_of_lookup_imap. cbn.
  assert (i < length names)%nat as [k Hk]%lookup_lt_is_Some_2
    by (rewrite <-length_weighted; by apply lookup_lt_Some in Hx).
  exists k. split_and!; [done|by apply clusterAt_names|by eapply position_quotient].
Qed.

Lemma portionLess_weak : StrictWeak (portionLess ws).
Proof. unfold portionLess. apply _. Qed.

Lemma NoDup_ranked : NoDup ranked.
Proof. rewrite ranked_perm. apply Hv. Qed.

Lemma ranking_beats : StronglySorted (beats units weightMap) ranked.
Proof.
  cut (∀ l, (∀ p, p ∈ l → p ∈ ranking) → StronglySorted (not_after (portionLess ws)) l →
    NoDup ((λ p, clusterAt ws (index p)) <$> l) →
    StronglySorted (beats units weightMap) ((λ p, clusterAt ws (index p)) <$> l)).
  { intros Hc. apply (Hc ranking); [done| |apply NoDup_ranked].
    apply (@sort_slice_sorted _ (portionLess ws) portionLess_weak). }
  intros l Hin Hs. induction Hs as [|p l Hs IH Hp]; simpl; intros Hnd; [constructor|].
  apply NoDup_cons in Hnd as [Hnp Hnd]. constructor; [apply IH; [set_solver|done]|].
  pose proof (proj1 (Forall_forall _ _) Hp) as Hall. apply Forall_forall. intros k (p' & -> & Hp')%list_elem_of_fmap.
  clear Hp; pose proof (Hall p' Hp') as Hp. unfold not_after, portionLess, lex_less in Hp.
  destruct (elem_of_ranking p) as (k & _ & Hk & Hr); [set_solver|].
  destruct (elem_of_ranking p') as (k' & _ & Hk' & Hr'); [set_solver|].
  rewrite Hk, Hk' in *. rewrite Hr, Hr' in Hp. unfold beats.
  destruct (decide (remainder units weightMap k' = remainder units weightMap k)) as [E|E]; [right|left; lia].
  split; [done|]. destruct (str_lt k k') eqn:Elt; [done|exfalso]. apply Hnp.
  rewrite (st_eq k k' Elt Hp), <-Hk'. apply list_elem_of_fmap. eauto.
Qed.

(** The loop bumps the first clusters of the ranking and never runs out. *)
Lemma handUnits_run n ps amounts :
  (n ≤ length ps)%nat → (∀ p, p ∈ ps → p ∈ ranking) → length amounts = length names →
  ∃ amounts', handUnits (Z.of_nat n) ps amounts = Ok amounts'
    ∧ length amounts' = length names
    ∧ byName names amounts'
      = bump_all (byName names amounts) (take n ((λ p, clusterAt ws (index p)) <$> ps)).
Proof.
  revert n amounts. induction ps as [|p ps IH]; intros n amounts Hn Hps Hl; cbn in Hn.
  { assert (n = 0%nat) as -> by lia. eexists. done. }
  destruct n as [|n]; [eexists; done|]. cbn [handUnits].
  rewrite decide_True by lia.
  destruct (elem_of_ranking p) as (k & Hk & Hc & _); [set_solver|].
  destruct (IH n (alter (Z.add 1) (index p) amounts)) as (amounts' & Hr & Hl' & Hb);
    [lia|set_solver|by rewrite length_alter|].
  exists amounts'. replace (Z.of_nat (S n) - 1) with (Z.of_nat n) by lia.
  split_and!; [done|done|]. rewrite Hb. cbn [fmap list_fmap take]. rewrite Hc.
  by rewrite (byName_alter names (sv_unique Hv) amounts (index p) k).
Qed.

Lemma floors_lookup k :
  byName names floors !! k
  = if decide (k ∈ ranked) then Some (quotient units weightMap k) else None.
Proof.
  assert (length floors = length names) as Hl.
  { unfold floors. by rewrite length_fmap, length_weighted. }
  rewrite (decide_ext (k ∈ ranked) (k ∈ names)) by (by rewrite ranked_perm). case_decide as Hk.
  - apply list_elem_of_lookup in Hk as [i Hi].
    destruct (lookup_lt_is_Some_2 weighted i) as [x Hx].
    { rewrite length_weighted. by apply lookup_lt_Some in Hi. }
    destruct (position_quotient i k x Hi Hx) as [<- _].
    apply (byName_fmap _ (sv_unique Hv) (λ w, Z.quot (units * w) (zsum weighted)) weighted i);
      [done|done|apply length_weighted].
  - by apply byName_None.
Qed.

(** The hand-out ends with the largest-remainder split. *)
Lemma handUnits_split :
  ∃ amounts, handUnits (units - zsum floors) ranking floors = Ok amounts
    ∧ length amounts = length names
    ∧ LargestRemainder units weightMap (byName names amounts).
Proof.
  assert (length floors = length names) as Hl.
  { unfold floors. by rewrite length_fmap, length_weighted. }
  assert (∀ k, k ∈ ranked ↔ is_Some (weightMap !! k)) as Hdom.
  { intros k. by rewrite ranked_perm, weightMap_dom. }
  assert (zsum floors = zsum_with (quotient units weightMap) ranked) as Hfl.
  { rewrite <-(byName_sum names (sv_unique Hv) floors Hl).
    rewrite (map_zsum_keys _ ranked NoDup_ranked).
    - apply zsum_with_ext. intros k Hk. by rewrite floors_lookup, decide_True.
    - intros k. rewrite floors_lookup. case_decide; [split; eauto|]. by split; [|intros [? ?]]. }
  destruct (leftover_bounds units weightMap basis_pos ranked NoDup_ranked Hdom) as (Hge & _ & Hle).
  destruct (handUnits_run (Z.to_nat (units - zsum floors)) ranking floors) as (amounts & Hr & Hla & Hb).
  - rewrite Hfl. assert (length ranked = length ranking) by apply length_fmap. lia.
  - done.
  - done.
  - exists amounts. rewrite Z2Nat.id in Hr by lia. split_and!; [done|done|]. rewrite Hb, Hfl.
    apply bump_ranked_spec; [apply basis_pos|apply weightMap_nonneg|apply units_nonneg
      |apply NoDup_ranked|apply Hdom|apply ranking_beats|apply floors_lookup].
Qed.

Definition shares_of (amounts : list Z) : list (Share Q) :=
  sort_slice (λ a b, str_lt (sCluster a) (sCluster b))
    (zip_with (λ w u, mkShare (wCluster w) (quantityAt u (decScale total) (q_Format total)))
       ws amounts).

(** On valid arguments the program is its arithmetic. *)
Lemma Proportional_valid :
  ∃ amounts, Proportional total ws = Ok (shares_of amounts)
    ∧ length amounts = length names
    ∧ LargestRemainder units weightMap (byName names amounts).
Proof.
  destruct handUnits_split as (amounts & Hr & Hl & L). exists amounts.
  split_and!; [|done|done]. unfold Proportional.
  rewrite decide_False by apply Hv.
  rewrite decide_False by (rewrite q_Sign_nonneg; pose proof (sv_total Hv); lia).
  destruct (proj2 checkWeight_loop) as [seen ->].
  { split_and!; [apply Hv|apply Hv|apply (sv_capacity Hv)]. }
  cbn [obind]. fold weighted units. rewrite !foldl_add_zsum, !Z.add_0_l.
  rewrite decide_False by (pose proof basis_pos; rewrite weightMap_basis in *; lia).
  fold floors portions ranking. by rewrite Hr.
Qed.
End split.

Section results.
Context {Q : Type} `{QuantityOps Q} `{!QuantityLaws Q}.

(** [Proportional] returns an error on everything else. *)
Lemma Proportional_cases total (ws : list (Weight Q)) :
  (∃ e, Proportional total ws = Err e) ∨ split_valid total ws.
Proof.
  unfold Proportional. case_decide; [by left; eauto|]. case_decide as Hs; [by left; eauto|].
  rewrite q_Sign_nonneg in Hs. apply dec_stable in Hs.
  destruct (ofold checkWeight ∅ ws) as [seen|e|] eqn:Hc; cbn [obind]; [|by left; eauto|exfalso].
  - destruct (proj1 (checkWeight_loop ws)) as (Hn & Hnd & Hcap); [eauto|].
    rewrite foldl_add_zsum, Z.add_0_l. case_decide as Hb; [by left; eauto|right].
    split; try done.
    destruct (decide (Exists (λ w, 0 < q_Unscaled (wCapacity w)) ws)) as [Hex|Hex];
      [by apply Exists_exists in Hex|].
    exfalso. apply Hb. rewrite <-Forall_Exists_neg in Hex.
    pose proof (proj1 (Forall_forall _ _) Hex) as Hz. cbn in Hz.
    transitivity (zsum_with (λ _ : Weight Q, 0) ws); [|by rewrite zsum_with_const].
    apply zsum_with_ext. intros w Hw. specialize (Hz w Hw). specialize (Hcap w Hw).
    assert (q_Unscaled (wCapacity w) = 0) as E by lia. unfold unitsAt. rewrite E.
    by destruct (_ >? 0).
  - revert Hc. apply ofold_no_panic. intros seen w. unfold checkWeight. by repeat case_decide.
Qed.

Lemma Proportional_Ok_valid total (ws : list (Weight Q)) out :
  Proportional total ws = Ok out → split_valid total ws.
Proof. destruct (Proportional_cases total ws) as [[e ->]|]; done. Qed.
End results.

Section theorems.
Context {Q : Type} `{QuantityOps Q} `{!QuantityLaws Q}.

(** The shares a split by name stands for, in name order. *)
Definition shares_by_name (total : Q) (split : gmap string Z) : list (Share Q) :=
  (λ k, mkShare k (quantityAt (mget split k) (decScale total) (q_Format total)))
    <$> sorted_keys split.

Lemma shares_of_by_name total (ws : list (Weight Q)) amounts :
  NoDup (names ws) → length amounts = length (names ws) →
  shares_of total ws amounts = shares_by_name total (byName (names ws) amounts).
Proof.
  intros Hnd Hl. unfold shares_of, shares_by_name, sorted_keys.
  erewrite (sort_slice_fmap _ _ (λ a b : Share Q, str_lt (sCluster a) (sCluster b))) by done.
  rewrite <-list_fmap_compose.
  set (g := (λ p : string * Z, mkShare p.1 (quantityAt p.2 (decScale total) (q_Format total)))).
  assert (zip_with (λ w u, mkShare (wCluster w) (quantityAt u (decScale total) (q_Format total)))
    ws amounts = g <$> zip (names ws) amounts) as ->.
  { unfold names, g. clear. revert amounts. induction ws as [|w ws IH]; intros [|u us]; simpl; auto.
    by rewrite IH. }
  assert ((zip (names ws) amounts).*1 = names ws) as Ef by (apply fst_zip; lia).
  apply (@sort_slice_unique _ (λ a b : Share Q, str_lt (sCluster a) (sCluster b)) _).
  - intros x y (p & -> & Hp)%list_elem_of_fmap (p' & -> & Hp')%list_elem_of_fmap H1 H2.
    cbn in H1, H2. f_equal. destruct p as [k u], p' as [k' u']. cbn in *.
    pose proof (st_eq _ _ H1 H2) as <-. f_equal.
    apply (elem_of_list_to_map_1 (M := gmap string)) in Hp, Hp'; [congruence|by rewrite Ef..].
  - transitivity (g <$> map_to_list (byName (names ws) amounts)).
    + unfold byName. by rewrite map_to_list_to_map by (by rewrite Ef).
    + rewrite (list_fmap_ext _ (λ p, mkShare p.1
        (quantityAt (mget (byName (names ws) amounts) p.1) (decScale total) (q_Format total)))
        (map_to_list _)); [done|].
      intros i [k u] Hi. unfold g, mget. cbn.
      apply list_elem_of_lookup_2, elem_of_map_to_list in Hi. by rewrite Hi.
Qed.

Lemma byName_perm (l l' : list (string * Z)) :
  NoDup l.*1 → l ≡ₚ l' → byName l.*1 l.*2 = byName l'.*1 l'.*2.
Proof.
  intros Hnd Hp. unfold byName. rewrite !zip_fst_snd. by apply list_to_map_proper.
Qed.

Lemma weightMap_perm (ws ws' : list (Weight Q)) :
  NoDup (names ws) → ws ≡ₚ ws' → weightMap ws = weightMap ws'.
Proof.
  intros Hnd Hp. unfold weightMap, weighted, names. rewrite <-(weightScale_perm ws ws' Hp).
  pose (g w := (wCluster w, unitsAt (wCapacity w) (weightScaleOf ws))).
  pose proof (byName_perm (g <$> ws) (g <$> ws')) as Hb.
  rewrite <-!list_fmap_compose in Hb. apply Hb; [done|by rewrite Hp].
Qed.

Lemma Sum_shares total split ks :
  q_value (Sum ((λ k, mkShare (Q := Q) k
    (quantityAt (mget split k) (decScale total) (q_Format total))) <$> ks))
  = (Qc_of_Z (zsum_with (mget split) ks) * ten_to (decScale total))%Qc.
Proof.
  unfold Sum. cut (∀ a, q_value (foldl (λ t s, q_Add t (sNominal s)) a
    ((λ k, mkShare k (quantityAt (mget split k) (decScale total) (q_Format total))) <$> ks))
    = (q_value a + Qc_of_Z (zsum_with (mget split) ks) * ten_to (decScale total))%Qc).
  { intros Hc. rewrite Hc, law_zero. ring. }
  induction ks as [|k ks IH]; intros a; [cbn; rewrite Z2Qc_inj_0; ring|].
  cbn [fmap list_fmap foldl sNominal]. rewrite IH, law_Add, zsum_with_cons, Z2Qc_inj_add.
  unfold quantityAt. rewrite law_NewDecimal. ring.
Qed.

Lemma Proportional_inv total (ws : list (Weight Q)) out :
  Forall (λ w, scale_ok (wCapacity w)) ws → scale_ok total → Proportional total ws = Ok out →
  split_valid total ws
  ∧ ∃ split, LargestRemainder (q_Unscaled total) (weightMap ws) split
    ∧ out = shares_by_name total split.
Proof.
  intros Hs Ht Hp. pose proof (Proportional_Ok_valid _ _ _ Hp) as Hv. split; [done|].
  destruct (Proportional_valid total ws Hv) as (amounts & Hp' & Hl & L).
  exists (byName (names ws) amounts). rewrite <-(unitsAt_own total Ht). split; [done|].
  rewrite <-shares_of_by_name by (apply Hv || done). congruence.
Qed.
Lemma Proportional_shares total (ws : list (Weight Q)) out :
  Forall (λ w, scale_ok (wCapacity w)) ws → scale_ok total → Proportional total ws = Ok out →
  q_value (Sum out) = q_value total
  ∧ StronglySorted (λ a b, str_lt (sCluster a) (sCluster b) = true) out
  ∧ (sCluster <$> out) ≡ₚ (wCluster <$> ws).
Proof.
  intros Hs Ht (Hv & split & L & ->)%Proportional_inv; [|done..]. unfold shares_by_name.
  split_and!.
  - rewrite Sum_shares. unfold q_value. rewrite decScale_id by done. do 2 f_equal.
    rewrite <-(lr_sum _ _ _ L). symmetry. apply map_zsum_keys; [apply NoDup_sorted_keys|].
    intros k. apply elem_of_sorted_keys.
  - apply StronglySorted_fmap with (R1 := λ x y, str_lt x y = true); [by intros|].
    apply sorted_keys_strict.
  - rewrite <-list_fmap_compose, list_fmap_id. apply NoDup_Permutation;
      [apply NoDup_sorted_keys|apply Hv|].
    intros k. by rewrite elem_of_sorted_keys, (lr_dom _ _ _ L), (weightMap_dom total ws Hv).
Qed.

Lemma Proportional_never_panics total (ws : list (Weight Q)) : Proportional total ws ≠ Panic.
Proof.
  destruct (Proportional_cases total ws) as [[e ->]|Hv]; [done|].
  by destruct (Proportional_valid total ws Hv) as (amounts & -> & _).
Qed.

Lemma Sum_value (shares : list (Share Q)) : q_value (Sum shares) = qc_sum (λ s, q_value (sNominal s)) shares.
Proof.
  unfold Sum. cut (∀ a, q_value (foldl (λ t s, q_Add t (sNominal s)) a shares)
    = (q_value a + qc_sum (λ s, q_value (sNominal s)) shares)%Qc).
  { intros Hc. rewrite Hc, law_zero. ring. }
  induction shares as [|x shares IH]; intros a; cbn [foldl].
  - rewrite qc_sum_nil. ring.
  - rewrite IH, law_Add, qc_sum_cons. ring.
Qed.
End theorems.

Definition two_and_one : list (Weight decimal) :=
  [mkWeight "b" (dec 2); mkWeight "a" (mkDec 10 1 "DecimalSI")].

(** The split is exact, in the unit the total was written in: the shares
    add up to the total, are sorted by name, and there is one for every cluster
    and no other. *)
Theorem Proportional_exact {Q} `{QuantityOps Q} `{!QuantityLaws Q} total (ws : list (Weight Q)) out :
  Forall (λ w, scale_ok (wCapacity w)) ws → scale_ok total → Proportional total ws = Ok out →
  q_value (Sum out) = q_value total
  ∧ StronglySorted (λ a b, str_lt (sCluster a) (sCluster b) = true) out
  ∧ (sCluster <$> out) ≡ₚ (wCluster <$> ws).
Proof. apply Proportional_shares. Qed.

Lemma Proportional_exact_witness :
  ∃ out, Proportional (dec 5) two_and_one = Ok out ∧ q_value (Sum out) = q_value (dec 5).
Proof.
  eexists. split; [vm_compute; reflexivity|].
  eapply (Proportional_exact (dec 5) two_and_one); [|done|vm_compute; reflexivity].
  repeat constructor; done.
Defined.

(** C13: the shares are the largest-remainder split of the total's units over
    the capacities, whole units only: every cluster has the floor of its
    proportional share or one unit more, and the extra units go to the largest
    remainders, ties to the smaller name. *)
Theorem Proportional_largest_remainder {Q} `{QuantityOps Q} `{!QuantityLaws Q} total
    (ws : list (Weight Q)) out :
  Forall (λ w, scale_ok (wCapacity w)) ws → scale_ok total → Proportional total ws = Ok out →
  ∃ split, LargestRemainder (q_Unscaled total) (weightMap ws) split
    ∧ out = shares_by_name total split.
Proof. intros Hs Ht (_ & Hsplit)%Proportional_inv; done. Qed.

Lemma Proportional_largest_remainder_witness :
  ∃ split, LargestRemainder (q_Unscaled (dec 5)) (weightMap two_and_one) split
    ∧ [mkShare "a" (dec 2); mkShare "b" (dec 3)] = shares_by_name (dec 5) split.
Proof.
  apply (Proportional_largest_remainder (dec 5) two_and_one); [|done|vm_compute; reflexivity].
  repeat constructor; done.
Defined.

(** The split is a function of the set of weights: listing the clusters in
    another order gives the same shares. *)
Theorem Proportional_order {Q} `{QuantityOps Q} `{!QuantityLaws Q} total (ws ws' : list (Weight Q)) out :
  Forall (λ w, scale_ok (wCapacity w)) ws → scale_ok total → ws ≡ₚ ws' →
  Proportional total ws = Ok out → Proportional total ws' = Ok out.
Proof.
  intros Hs Ht Hp (Hv & split & L & ->)%Proportional_inv; [|done..].
  assert (split_valid total ws') as Hv'.
  { pose proof Hv as [? ? ? ? Hc (w & Hw & ?)]. unfold names in *.
    split; unfold names; rewrite <-?Hp; try done.
    - intros ->. by apply Permutation_nil_r in Hp.
    - intros w'. rewrite <-Hp. apply Hc.
    - exists w. by rewrite <-Hp. }
  destruct (Proportional_valid total ws' Hv') as (amounts & -> & Hl & L').
  rewrite shares_of_by_name by (apply Hv' || done). do 2 f_equal.
  unfold units in L'. rewrite unitsAt_own in L' by done.
  rewrite <-(weightMap_perm ws ws') in L' by (apply Hv || done).
  by apply (largest_remainder_unique _ _ _ _ L' L).
Qed.

Lemma Proportional_order_witness :
  Proportional (dec 5) (reverse two_and_one) = Ok [mkShare "a" (dec 2); mkShare "b" (dec 3)].
Proof.
  apply (Proportional_order (dec 5) two_and_one);
    [repeat constructor; done|done|by rewrite reverse_Permutation|vm_compute; reflexivity].
Defined.

(** When a split comes back and when it does not: there must be clusters,
    all named and none twice, the total and the capacities must not be
    negative, and some capacity must be positive.  The hand-out never reads
    past the end of the ranking. *)
Theorem Proportional_ok_iff {Q} `{QuantityOps Q} `{!QuantityLaws Q} total (ws : list (Weight Q)) :
  Forall (λ w, scale_ok (wCapacity w)) ws → scale_ok total →
  ((∃ out, Proportional total ws = Ok out) ↔ split_valid total ws) ∧ Proportional total ws ≠ Panic.
Proof.
  intros Hs Ht. split; [split|].
  - intros [out Ho]. by apply Proportional_Ok_valid in Ho.
  - intros Hv. destruct (Proportional_valid total ws Hv) as (amounts & -> & _). eauto.
  - apply Proportional_never_panics.
Qed.

Lemma Proportional_ok_iff_witness :
  ((∃ out, Proportional (dec 5) [mkWeight "a" (dec 0)] = Ok out)
     ↔ split_valid (dec 5) [mkWeight "a" (dec 0)])
  ∧ Proportional (dec 5) [mkWeight "a" (dec 0)] ≠ Panic.
Proof. apply Proportional_ok_iff; [|done]. repeat constructor; done. Defined.
