(* ===== verification/Api.v ===== *)
(** * The AcceleratorQuota object

    [pkg/apis/ome/v1beta1/acceleratorquota_types.go]: the fields of the object
    that the quota packages read, with a Go pointer as an option and a string
    enum as the string it is.  [ParentRef] and [Distribution] are pointers to
    one-field structs; the model keeps the field.  Quantities are a parameter
    ([Quantity]). *)

From S2P Require Import Prelude.

Section types.
Context {Q : Type}.

Record AcceleratorClusterShare := mkClusterShare { csCluster : string; csNominal : Q }.

Record AcceleratorBudget := mkBudget {
  ResourceName : string; ResourceFlavor : string; Policy : string; Nominal : Q;
  BorrowingLimit : option Q; LendingLimit : option Q;
  PerCluster : list AcceleratorClusterShare;
}.

Record AcceleratorQuotaSpec := mkSpec {
  SpecRole : string; ParentRef : option string; PriorityTier : string;
  Distribution : option string; Budgets : list AcceleratorBudget;
}.

Record AcceleratorQuota := mkQuota {
  QName : string; UID : string; Generation : Z;
  Labels : gmap string string; Annotations : gmap string string;
  Spec : AcceleratorQuotaSpec;
}.
End types.
Arguments AcceleratorClusterShare : clear implicits.
Arguments AcceleratorBudget : clear implicits.
Arguments AcceleratorQuotaSpec : clear implicits.
Arguments AcceleratorQuota : clear implicits.

Definition AcceleratorQuotaReasonParentMissing := "ParentMissing".
Definition AcceleratorQuotaReasonParentCycle := "ParentCycle".
Definition AcceleratorQuotaReasonUnreachable := "Unreachable".
Definition AcceleratorQuotaReasonDuplicateNode := "DuplicateNode".
Definition AcceleratorQuotaReasonNodeKindInvalid := "NodeKindInvalid".
Definition AcceleratorQuotaReasonDepthExceeded := "DepthExceeded".
Definition AcceleratorQuotaReasonContainmentViolated := "ContainmentViolated".
Definition AcceleratorQuotaReasonShareUnresolved := "ShareUnresolved".

Definition AcceleratorQuotaRoleCohort := "Cohort".
Definition AcceleratorQuotaRoleClusterQueue := "ClusterQueue".

Definition AcceleratorQuotaDistributionExplicit := "Explicit".
Definition AcceleratorQuotaDistributionProportional := "Proportional".

(** ** Messages *)

(** An operator-facing message, kept as the call that renders it: the format
    and its arguments.  No code reads a message back. *)
Inductive message :=
| Sprintf (format : string) (args : list marg)
with marg :=
| AStr (s : string)
| AInt (z : Z)
| AStrs (l : list string)
| AJoin (sep : string) (l : list string)
| AMsg (m : message)
| AMsgs (sep : string) (l : list message).
