(* ===== verification/Violation.v ===== *)
(** * Violations of the quota tree

    [pkg/quota/tree/violation.go]: a violation is attributed to a node, carries
    a reason and a subject, and is compared across builds by its [Key].  The
    admission webhook admits a write when [Diff] of the violations after and
    before it is empty. *)

From S2P Require Import Prelude Api.
Local Open Scope Z_scope.

Record Violation := mkViolation {
  VNode : string; VReason : string; VSubject : string; VMessage : message;
}.

(** The zero value of the struct. *)
Definition noViolation : Violation := mkViolation "" "" "" (Sprintf "" []).

Definition Key (v : Violation) : string * string * string := (VNode v, VReason v, VSubject v).

Definition ViolationString (v : Violation) : message :=
  if decide (VNode v = "") then VMessage v
  else Sprintf "%s: %s" [AStr (VNode v); AMsg (VMessage v)].

Definition violation (node reason subject format : string) (args : list marg) : Violation :=
  mkViolation node reason subject (Sprintf format args).

Definition reasonRank : gmap string Z := list_to_map [
  (AcceleratorQuotaReasonParentMissing, 0);
  (AcceleratorQuotaReasonParentCycle, 1);
  (AcceleratorQuotaReasonUnreachable, 2);
  (AcceleratorQuotaReasonDuplicateNode, 3);
  (AcceleratorQuotaReasonNodeKindInvalid, 4);
  (AcceleratorQuotaReasonDepthExceeded, 5);
  (AcceleratorQuotaReasonContainmentViolated, 6);
  (AcceleratorQuotaReasonShareUnresolved, 7)].

Definition rankOf (reason : string) : Z :=
  match reasonRank !! reason with
  | Some r => r
  | None => Z.of_nat (size reasonRank)
  end.

Abbreviation Violations := (list Violation).

Definition ErrorText (vs : Violations) : message :=
  match vs with
  | [] => Sprintf "" []
  | [v] => ViolationString v
  | _ => Sprintf "%d invariants violated: %s"
           [AInt (Z.of_nat (length vs)); AMsgs "; " (ViolationString <$> vs)]
  end.

(** A nil error for no violations. *)
Definition OrNil (vs : Violations) : option Violations :=
  match vs with [] => None | _ => Some vs end.

Definition ForNode (vs : Violations) (node : string) : Violations :=
  List.filter (λ v, bool_decide (VNode v = node)) vs.

(** The loop of [Primary]; the option is the flag [first]. *)
Definition betterOf (best : option Violation) (v : Violation) : option Violation :=
  match best with
  | None => Some v
  | Some b => if rankOf (VReason v) <? rankOf (VReason b) then Some v else Some b
  end.

Definition Primary (vs : Violations) : Violation := default noViolation (foldl betterOf None vs).

Definition Diff (vs before : Violations) : Violations :=
  let seen : gset (string * string * string) := list_to_set (Key <$> before) in
  List.filter (λ v, negb (bool_decide (Key v ∈ seen))) vs.

(** The distinct nodes that carry a violation, sorted. *)
Definition VNodes (vs : Violations) : list string :=
  let seen : gset string := list_to_set (List.filter (λ n, negb (bool_decide (n = ""))) (VNode <$> vs)) in
  sort_slice str_lt (elements seen).

Definition violationLess : Violation → Violation → bool :=
  lex_less VNode str_lt
    (lex_less (λ v, rankOf (VReason v)) Z.ltb (λ a b, str_lt (VSubject a) (VSubject b))).

Definition sorted (vs : Violations) : Violations := sort_slice violationLess vs.

(** ** Lemmas *)

Lemma elem_of_ForNode vs n v : v ∈ ForNode vs n ↔ v ∈ vs ∧ VNode v = n.
Proof.
  unfold ForNode. rewrite !list_elem_of_In, filter_In, bool_decide_eq_true. done.
Qed.

Lemma elem_of_VNodes vs n : n ∈ VNodes vs ↔ n ≠ "" ∧ ∃ v, v ∈ vs ∧ VNode v = n.
Proof.
  unfold VNodes. rewrite elem_of_sort_slice, elem_of_elements, elem_of_list_to_set.
  rewrite list_elem_of_In, filter_In, <-list_elem_of_In, list_elem_of_fmap.
  rewrite negb_true_iff, bool_decide_eq_false. naive_solver.
Qed.

Lemma NoDup_VNodes vs : NoDup (VNodes vs).
Proof. apply NoDup_sort_slice, NoDup_elements. Qed.

Lemma VNodes_sorted vs : StronglySorted (λ a b, str_lt a b = true) (VNodes vs).
Proof. apply sorted_strict; [apply _|apply NoDup_elements]. Qed.

#[export] Instance violationLess_weak : StrictWeak violationLess.
Proof. unfold violationLess. apply _. Qed.

Lemma elem_of_sorted vs v : v ∈ sorted vs ↔ v ∈ vs.
Proof. apply elem_of_sort_slice. Qed.

Lemma sorted_nil vs : sorted vs = [] ↔ vs = [].
Proof.
  split; [|by intros ->]. intros H. apply Permutation_nil_r. rewrite <-H.
  symmetry. apply sort_slice_perm.
Qed.

(** ** Properties *)

Lemma betterOf_run best vs :
  ∃ v, foldl betterOf (Some best) vs = Some v ∧ (v = best ∨ v ∈ vs)
    ∧ rankOf (VReason v) ≤ rankOf (VReason best)
    ∧ ∀ w, w ∈ vs → rankOf (VReason v) ≤ rankOf (VReason w).
Proof.
  revert best. induction vs as [|w vs IH]; intros best; simpl.
  { exists best. split_and!; [done|by left|lia|set_solver]. }
  destruct (rankOf (VReason w) <? rankOf (VReason best)) eqn:E.
  - destruct (IH w) as (v & -> & Hv & Hle & Hall). exists v. split_and!; [done|set_solver|lia|].
    intros x [->|Hx]%elem_of_cons; [lia|auto].
  - destruct (IH best) as (v & -> & Hv & Hle & Hall). exists v. split_and!; [done|set_solver|lia|].
    intros x [->|Hx]%elem_of_cons; [lia|auto].
Qed.

Lemma Primary_in vs : vs ≠ [] → Primary vs ∈ vs.
Proof.
  destruct vs as [|v vs]; [done|]. intros _. unfold Primary. simpl.
  destruct (betterOf_run v vs) as (p & -> & Hp & _). set_solver.
Qed.
