(* ===== verification/Tree.v ===== *)
(** * The quota tree

    [pkg/quota/tree/tree.go]: [Build] assembles a list of quota objects into a
    tree and reports every invariant they break.  Every [*Node] that [Build]
    allocates is stored in [Tree.nodes] under its object's name, so the model
    uses the name as the pointer: [Parent] and [Children] hold names, and
    following a pointer is a lookup.  The loops that walk parents or a queue
    carry fuel, the number of nodes; [TreeFacts] shows it is never short. *)

From S2P Require Import Prelude Quantity Api Violation.
Local Open Scope Z_scope.

Definition maxRenderedCyclePath : Z := 8.

Record Options := mkOptions { RootName : string; MaxDepth : Z }.

Inductive tree_error := ErrRootNameUnset.

Section model.
Context {Q : Type} `{QuantityOps Q}.

Record Node := mkNode {
  Quota : AcceleratorQuota Q; Parent : option string; Children : list string; Depth : Z;
}.

Record Tree := mkTree { Root : option string; nodes : gmap string Node }.

Definition NodeName (n : Node) : string := QName (Quota n).
Definition NodeRole (n : Node) : string := SpecRole (Spec (Quota n)).
Definition IsLeaf (n : Node) : bool :=
  bool_decide (SpecRole (Spec (Quota n)) = AcceleratorQuotaRoleClusterQueue).
Definition Reachable (n : Node) : bool := 0 <=? Depth n.

(** Following the pointer [k.Parent]. *)
Definition parentAt (t : Tree) (k : string) : option string := nodes t !! k ≫= Parent.
Definition childrenAt (t : Tree) (k : string) : list string :=
  default [] (Children <$> nodes t !! k).

(** The upward loop of [Ancestors]: [cur] is the pointer, [seen] the names met. *)
Fixpoint climb (fuel : nat) (t : Tree) (seen : gset string) (cur : option string) : list string :=
  match fuel, cur with
  | S fuel, Some c =>
      if decide (c ∈ seen) then []
      else c :: climb fuel t ({[c]} ∪ seen) (parentAt t c)
  | _, _ => []
  end.

Definition Ancestors (t : Tree) (k : string) : list string :=
  rev (climb (size (nodes t)) t {[k]} (parentAt t k)).

Definition NodeNamed (t : Tree) (name : string) : option Node := nodes t !! name.
Definition Len (t : Tree) : Z := Z.of_nat (size (nodes t)).

Definition Nodes (t : Tree) : list Node :=
  sort_slice (λ a b, str_lt (NodeName a) (NodeName b)) (map_to_list (nodes t)).*2.

Definition Leaves (t : Tree) : list Node := List.filter IsLeaf (Nodes t).

(** The recursive walk of [Subtree]; the state is what it has collected, in
    order.  The Go map [seen] holds exactly the collected names. *)
Fixpoint walk (fuel : nat) (t : Tree) (out : list string) (k : string) : list string :=
  match fuel with
  | O => out
  | S fuel =>
      if decide (k ∈ out) then out
      else foldl (walk fuel t) (out ++ [k]) (childrenAt t k)
  end.

Definition Subtree (t : Tree) (name : string) : list string :=
  match nodes t !! name with
  | None => []
  | Some _ => walk (S (size (nodes t))) t [] name
  end.

Definition Frozen (t : Tree) (vs : Violations) : gmap string Violation :=
  let own := foldl (λ m name, <[name := Primary (ForNode vs name)]> m) ∅ (VNodes vs) in
  foldl (λ m name,
      let cause := default noViolation (m !! name) in
      foldl (λ m d, if decide (is_Some (m !! d)) then m else <[d := cause]> m)
        m (Subtree t name))
    own (VNodes vs).

(** ** Linking *)

Definition withNodes (t : Tree) (ns : gmap string Node) : Tree := mkTree (Root t) ns.
Definition setParent (n : Node) (p : string) : Node :=
  mkNode (Quota n) (Some p) (Children n) (Depth n).
Definition setChildren (n : Node) (cs : list string) : Node :=
  mkNode (Quota n) (Parent n) cs (Depth n).
Definition setDepth (n : Node) (d : Z) : Node :=
  mkNode (Quota n) (Parent n) (Children n) d.

(** The body of the first loop of [linkParents]. *)
Definition linkNode (st : Tree * Violations) (n : Node) : Tree * Violations :=
  let '(t, vs) := st in
  match ParentRef (Spec (Quota n)) with
  | None => (t, vs)
  | Some ref =>
      if decide (ref = NodeName n) then
        (t, vs ++ [mkViolation (NodeName n) AcceleratorQuotaReasonParentCycle (NodeName n)
                     (Sprintf "parentRef points at the node itself" [])])
      else if decide (is_Some (nodes t !! ref)) then
        (withNodes t
           (alter (λ p, setChildren p (Children p ++ [NodeName n])) ref
              (alter (λ m, setParent m ref) (NodeName n) (nodes t))), vs)
      else
        (t, vs ++ [mkViolation (NodeName n) AcceleratorQuotaReasonParentMissing ref
                     (Sprintf "parentRef %q does not resolve to an existing AcceleratorQuota"
                        [AStr ref])])
  end.

(** The walk of [cycleMembers]: [path] is the names met, in order; the Go map
    [seen] holds their positions. *)
Fixpoint walkUp (fuel : nat) (t : Tree) (path : list string) (cur : option string)
    : option (list string) :=
  match cur with
  | None => None
  | Some c =>
      match list_find (eq c) path with
      | Some (at', _) => Some (drop at' path ++ [c])
      | None =>
          match fuel with
          | O => None
          | S fuel => walkUp fuel t (path ++ [c]) (parentAt t c)
          end
      end
  end.

Definition cycleMembers (t : Tree) (k : string) : option (list string) :=
  walkUp (size (nodes t)) t [] (Some k).

Definition renderPath (names : list string) : message :=
  if decide (maxRenderedCyclePath < Z.of_nat (length names)) then
    Sprintf "%s -> ... (%d more)"
      [AJoin " -> " (take (Z.to_nat maxRenderedCyclePath) names);
       AInt (Z.of_nat (length names) - maxRenderedCyclePath)]
  else Sprintf "%s" [AJoin " -> " names].

(** The smallest of a cycle's names. *)
Definition cycleId (members : list string) : string :=
  match members with
  | [] => ""
  | m :: ms => foldl (λ id m, if str_lt m id then m else id) m ms
  end.

Definition reportCycle (t : Tree) (st : gset string * Violations) (n : Node)
    : gset string * Violations :=
  let '(rendered, vs) := st in
  match cycleMembers t (NodeName n) with
  | None => (rendered, vs)
  | Some members =>
      let id := cycleId members in
      let msg := if decide (id ∈ rendered)
                 then Sprintf "node is inside the parentRef cycle through %q" [AStr id]
                 else Sprintf "parentRef forms a cycle: %s" [AMsg (renderPath members)] in
      ({[id]} ∪ rendered,
       vs ++ [mkViolation (NodeName n) AcceleratorQuotaReasonParentCycle id msg])
  end.

Definition reportCycles (t : Tree) : Violations :=
  snd (foldl (reportCycle t) (∅, []) (Nodes t)).

(** The second loop of [linkParents]: [sort.Slice(n.Children, ...)]. *)
Definition sortChildren (t : Tree) : Tree :=
  withNodes t ((λ n, setChildren n (sort_slice str_lt (Children n))) <$> nodes t).

Definition linkParents (t : Tree) : Tree * Violations :=
  let '(t, vs) := foldl linkNode (t, []) (Nodes t) in
  let t := sortChildren t in
  (t, vs ++ reportCycles t).

(** ** Positions *)

(** One child of the node being expanded; the state is the tree and the queue. *)
Definition visitChild (d : Z) (st : Tree * list string) (c : string) : Tree * list string :=
  let '(t, queue) := st in
  match nodes t !! c with
  | None => st
  | Some n =>
      if Reachable n then st
      else (withNodes t (<[c := setDepth n (d + 1)]> (nodes t)), queue ++ [c])
  end.

Fixpoint drainQueue (fuel : nat) (t : Tree) (queue : list string) : Tree :=
  match fuel, queue with
  | S fuel, k :: queue =>
      match nodes t !! k with
      | None => drainQueue fuel t queue
      | Some n =>
          let '(t, queue) := foldl (visitChild (Depth n)) (t, queue) (Children n) in
          drainQueue fuel t queue
      end
  | _, _ => t
  end.

Definition assignDepth (t : Tree) (root : string) : Tree :=
  drainQueue (size (nodes t)) (withNodes t (alter (λ n, setDepth n 0) root (nodes t))) [root].

(** The body of the loop of [resolveRoot]. *)
Definition rootNode (rootName : string) (st : Tree * Violations) (n : Node) : Tree * Violations :=
  let '(t, vs) := st in
  match ParentRef (Spec (Quota n)) with
  | Some _ => (t, vs)
  | None =>
      if decide (NodeName n = rootName) then (mkTree (Some (NodeName n)) (nodes t), vs)
      else
        (t, vs ++ [mkViolation (NodeName n) AcceleratorQuotaReasonParentMissing rootName
                     (Sprintf "only the reserved root %q may omit parentRef; every other node must name its parent"
                        [AStr rootName])])
  end.

Definition resolveRoot (t : Tree) (rootName : string) : Tree * Violations :=
  let '(t, vs) := foldl (rootNode rootName) (t, []) (Nodes t) in
  match Root t with
  | Some r => (assignDepth t r, vs)
  | None => (t, vs)
  end.

(** ** Checks *)

Definition checkUnreachable (t : Tree) (found : Violations) : Violations :=
  let faulted : gset string := list_to_set (VNodes found) in
  n ← Nodes t;
  if Reachable n then []
  else if decide (NodeName n ∈ faulted) then []
  else
    let cause := default (NodeName n)
      (snd <$> list_find (λ a, a ∈ faulted) (Ancestors t (NodeName n))) in
    [violation (NodeName n) AcceleratorQuotaReasonUnreachable cause
       "node has no position in the tree because ancestor %q is unresolved" [AStr cause]].

Definition checkDepth (t : Tree) (maxDepth : Z) : Violations :=
  if decide (maxDepth ≤ 0) then []
  else
    n ← Nodes t;
    if decide (maxDepth < Depth n) then
      [violation (NodeName n) AcceleratorQuotaReasonDepthExceeded ""
         "node is %d levels below the root, exceeding the configured maximum of %d"
         [AInt (Depth n); AInt maxDepth]]
    else [].

Definition budgetKey (resourceName flavor : string) : string :=
  resourceName +:+ " on " +:+ flavor.

Definition carriesLeafOnlyFields (b : AcceleratorBudget Q) : bool :=
  negb (bool_decide (Policy b = "")) || bool_decide (is_Some (BorrowingLimit b))
  || bool_decide (is_Some (LendingLimit b)) || negb (Nat.eqb (length (PerCluster b)) 0).

Definition checkClusterQueueNode (n : Node) : Violations :=
  ((λ c, violation c AcceleratorQuotaReasonNodeKindInvalid (NodeName n)
      "parent %q is a ClusterQueue node, which takes no children; attach to a Cohort, or add a ClusterQueue leaf beside it instead"
      [AStr (NodeName n)]) <$> Children n)
  ++ (if decide (Budgets (Spec (Quota n)) = []) then
        [violation (NodeName n) AcceleratorQuotaReasonNodeKindInvalid ""
           "a ClusterQueue node must carry at least one budget" []]
      else []).

Definition checkCohortNode (n : Node) : Violations :=
  let spec := Spec (Quota n) in
  let set := (if decide (PriorityTier spec = "") then [] else ["priorityTier"])
             ++ (if decide (Distribution spec = None) then [] else ["distribution"]) in
  (match set with
   | [] => []
   | _ => [violation (NodeName n) AcceleratorQuotaReasonNodeKindInvalid (String.concat "," set)
             "a Cohort node must not set %s; no workload binds to a grouping" [AJoin ", " set]]
   end)
  ++ (b ← Budgets spec;
      if carriesLeafOnlyFields b then
        let key := budgetKey (ResourceName b) (ResourceFlavor b) in
        [violation (NodeName n) AcceleratorQuotaReasonNodeKindInvalid key
           "budget %s carries leaf-only fields; a Cohort budget is an authoring guardrail that never materializes, so it holds only resourceName, resourceFlavor, and nominal"
           [AStr key]]
      else []).

Definition checkNodeKind (t : Tree) : Violations :=
  n ← Nodes t;
  if decide (NodeRole n = AcceleratorQuotaRoleClusterQueue) then checkClusterQueueNode n
  else if decide (NodeRole n = AcceleratorQuotaRoleCohort) then checkCohortNode n
  else [violation (NodeName n) AcceleratorQuotaReasonNodeKindInvalid "" "unknown role %q"
          [AStr (NodeRole n)]].

(** The children's nominals, added up per key. *)
Definition addNominal (sums : gmap string Q) (b : AcceleratorBudget Q) : gmap string Q :=
  let k := budgetKey (ResourceName b) (ResourceFlavor b) in
  match sums !! k with
  | Some cur => <[k := q_Add cur (Nominal b)]> sums
  | None => <[k := Nominal b]> sums
  end.

Definition childBudgets (t : Tree) (n : Node) : list (AcceleratorBudget Q) :=
  c ← Children n; default [] ((λ m, Budgets (Spec (Quota m))) <$> nodes t !! c).

Definition checkContainment (t : Tree) : Violations :=
  n ← Nodes t;
  if IsLeaf n || Nat.eqb (length (Children n)) 0 || Nat.eqb (length (Budgets (Spec (Quota n)))) 0
  then []
  else
    let sums := foldl addNominal ∅ (childBudgets t n) in
    b ← Budgets (Spec (Quota n));
    let k := budgetKey (ResourceName b) (ResourceFlavor b) in
    match sums !! k with
    | None => []
    | Some sum =>
        if decide (q_Cmp (Nominal b) sum < 0) then
          [violation (NodeName n) AcceleratorQuotaReasonContainmentViolated k
             "budget %s is %s but its children total %s"
             [AStr k; AStr (q_String (Nominal b)); AStr (q_String sum)]]
        else []
    end.

(** ** Assembly *)

(** One object into the node map: the first of a name wins. *)
Definition addQuota (st : gmap string Node * Violations) (q : AcceleratorQuota Q)
    : gmap string Node * Violations :=
  let '(ns, vs) := st in
  if decide (is_Some (ns !! QName q)) then
    (ns, vs ++ [mkViolation (QName q) AcceleratorQuotaReasonDuplicateNode ""
                  (Sprintf "node name appears more than once in the assembled set" [])])
  else (<[QName q := mkNode q None [] (-1)]> ns, vs).

Definition Build (quotas : list (AcceleratorQuota Q)) (opts : Options)
    : outcome tree_error (Tree * Violations) :=
  if decide (RootName opts = "") then Err ErrRootNameUnset
  else
    let '(ns, vs) := foldl addQuota (∅, []) quotas in
    let t := mkTree None ns in
    let '(t, vs1) := linkParents t in
    let vs := vs ++ vs1 in
    let '(t, vs2) := resolveRoot t (RootName opts) in
    let vs := vs ++ vs2 in
    let vs := vs ++ checkUnreachable t vs in
    let vs := vs ++ checkDepth t (MaxDepth opts) in
    let vs := vs ++ checkNodeKind t in
    let vs := vs ++ checkContainment t in
    Ok (t, sorted vs).

Definition Splice (existing : list (AcceleratorQuota Q)) (incoming : AcceleratorQuota Q)
    : list (AcceleratorQuota Q) :=
  let out := (λ q, if decide (QName q = QName incoming) then incoming else q) <$> existing in
  if decide (QName incoming ∈ QName <$> existing) then out else out ++ [incoming].

Definition Without (existing : list (AcceleratorQuota Q)) (name : string)
    : list (AcceleratorQuota Q) :=
  List.filter (λ q, negb (bool_decide (QName q = name))) existing.
End model.
Arguments Node : clear implicits.
Arguments Tree : clear implicits.
