(* ===== verification/TreeFacts.v ===== *)
(** * What the quota tree's loops compute

    Lemmas on [Tree]: linking gives every node the parent its object names and
    its children in name order; the cycle walk finds a cycle exactly when the
    parents never end; the queue of [assignDepth] gives a node its distance from
    the root exactly when its parents lead there; [Ancestors] and [Subtree] list
    the nodes above and below.  The fuel of every loop is shown to be enough. *)

From S2P Require Import Prelude Quantity Api Violation Tree.
Local Open Scope Z_scope.

(** ** Parents as a function of the objects *)

Section parents.
Context {Q : Type}.
Implicit Types qs : gmap string (AcceleratorQuota Q).

(** The parent an object resolves to: the one it names, if that is another
    object of the set. *)
Definition parentOf qs (k : string) : option string :=
  match qs !! k with
  | Some q =>
      match ParentRef (Spec q) with
      | Some r => if decide (r ≠ k ∧ is_Some (qs !! r)) then Some r else None
      | None => None
      end
  | None => None
  end.

Definition childrenOf qs (k : string) : list string :=
  sort_slice str_lt
    (List.filter (λ c, bool_decide (parentOf qs c = Some k)) (sorted_keys qs)).

(** The [n]-th parent. *)
Fixpoint above qs (n : nat) (k : string) : option string :=
  match n with
  | O => Some k
  | S n => parentOf qs k ≫= above qs n
  end.

(** The objects sit under their names. *)
Definition keyed qs : Prop := ∀ k q, qs !! k = Some q → QName q = k.

Lemma parentOf_dom qs k p : parentOf qs k = Some p → is_Some (qs !! k) ∧ is_Some (qs !! p) ∧ p ≠ k.
Proof.
  unfold parentOf. destruct (qs !! k) as [q|] eqn:E; [|done].
  destruct (ParentRef (Spec q)); [|done]. case_decide as Hd; [|done]. intros [= <-].
  split_and!; [done|apply Hd|apply Hd].
Qed.

Lemma elem_of_childrenOf qs c k : c ∈ childrenOf qs k ↔ parentOf qs c = Some k.
Proof.
  unfold childrenOf. rewrite elem_of_sort_slice, list_elem_of_In, filter_In, <-list_elem_of_In, elem_of_sorted_keys.
  rewrite bool_decide_eq_true. split; [tauto|]. intros Hp. split; [|done].
  apply (parentOf_dom _ _ _ Hp).
Qed.

Lemma NoDup_childrenOf qs k : NoDup (childrenOf qs k).
Proof.
  apply NoDup_sort_slice, NoDup_ListNoDup, List.NoDup_filter, NoDup_ListNoDup, NoDup_sorted_keys.
Qed.

Lemma above_S_r qs n k : above qs (S n) k = above qs n k ≫= parentOf qs.
Proof.
  revert k. induction n as [|n IH]; intros k; [cbn; by destruct (parentOf qs k)|].
  change (above qs (S (S n)) k) with (parentOf qs k ≫= above qs (S n)).
  change (above qs (S n) k) with (parentOf qs k ≫= above qs n).
  destruct (parentOf qs k) as [p|]; [|done]. cbn [mbind option_bind]. apply IH.
Qed.

Lemma above_add qs n m k : above qs (n + m) k = above qs n k ≫= above qs m.
Proof.
  revert k. induction n as [|n IH]; intros k; [done|]. cbn.
  destruct (parentOf qs k) as [p|]; [|done]. cbn. apply IH.
Qed.

Lemma above_dom qs n k p :
  is_Some (qs !! k) → above qs n k = Some p → is_Some (qs !! p).
Proof.
  revert k. induction n as [|n IH]; intros k Hk; cbn; [by intros [= <-]|].
  destruct (parentOf qs k) as [r|] eqn:E; [|done]. cbn.
  apply parentOf_dom in E as (_ & ? & _). by apply IH.
Qed.

Lemma above_prefix qs n m k : (n ≤ m)%nat → is_Some (above qs m k) → is_Some (above qs n k).
Proof.
  intros Hle [p Hp]. replace m with (n + (m - n))%nat in Hp by lia. rewrite above_add in Hp.
  destruct (above qs n k); [eauto|done].
Qed.

(** Two equal ancestors mean the parents never end. *)
Lemma above_loop qs i j k c :
  (i < j)%nat → above qs i k = Some c → above qs j k = Some c → ∀ n, is_Some (above qs n k).
Proof.
  intros Hlt Hi Hj.
  assert (∀ m, above qs (i + m * (j - i)) k = Some c) as Hm.
  { induction m as [|m IH]; [by rewrite Nat.add_0_r|].
    replace (i + S m * (j - i))%nat with ((i + m * (j - i)) + (j - i))%nat by lia.
    rewrite above_add, IH. cbn. replace j with (i + (j - i))%nat in Hj by lia.
    rewrite above_add, Hi in Hj. exact Hj. }
  intros n. apply (above_prefix qs n (i + n * (j - i))); [nia|]. rewrite Hm. eauto.
Qed.

(** The ancestors [0..n-1], when they exist. *)
Lemma above_chain qs n k :
  is_Some (above qs n k) → ∃ path, length path = S n ∧ ∀ i, (i ≤ n)%nat → path !! i = above qs i k.
Proof.
  induction n as [|n IH]; intros Hs.
  { exists [k]. split; [done|]. intros i Hi. by assert (i = 0%nat) as -> by lia. }
  destruct IH as (path & Hl & Hp); [by apply (above_prefix qs n (S n)); [lia|]|].
  destruct Hs as [c Hc]. exists (path ++ [c]). split; [rewrite length_app; cbn; lia|].
  intros i Hi. destruct (decide (i = S n)) as [->|].
  - by rewrite lookup_app_r, Hl, Nat.sub_diag by lia.
  - rewrite lookup_app_l by lia. apply Hp. lia.
Qed.

(** Parents that go on for as many steps as there are objects repeat. *)
Lemma above_pigeonhole qs k :
  is_Some (qs !! k) → is_Some (above qs (size qs) k) →
  ∃ i j c, (i < j ≤ size qs)%nat ∧ above qs i k = Some c ∧ above qs j k = Some c.
Proof.
  intros Hk Hs. destruct (above_chain qs (size qs) k Hs) as (path & Hl & Hp).
  destruct (decide (NoDup path)) as [Hnd|Hdup].
  - exfalso. assert (length path ≤ size qs)%nat; [|lia].
    rewrite <-size_dom. rewrite <-(size_list_to_set (C := gset string)) by done.
    apply subseteq_size. intros c [i Hi]%elem_of_list_to_set%list_elem_of_lookup.
    assert (i ≤ size qs)%nat by (apply lookup_lt_Some in Hi; lia).
    apply elem_of_dom. eapply above_dom; [done|]. by rewrite <-Hp.
  - assert (∃ i j c, i < j ∧ path !! i = Some c ∧ path !! j = Some c)%nat as (i & j & c & Hij & Hi & Hj).
    { clear -Hdup. induction path as [|x l IH]; [by destruct Hdup; constructor|].
      destruct (decide (x ∈ l)) as [[j Hj]%list_elem_of_lookup|Hx].
      - exists 0%nat, (S j), x. split_and!; [lia|done|done].
      - destruct IH as (i & j & c & ? & ? & ?); [intros ?; apply Hdup; by constructor|].
        exists (S i), (S j), c. split_and!; [lia|done|done]. }
    assert (j ≤ size qs)%nat by (apply lookup_lt_Some in Hj; lia).
    exists i, j, c. rewrite <-!Hp by lia. done.
Qed.

(** Parents end within as many steps as there are objects, or never. *)
Lemma above_ends qs k :
  is_Some (qs !! k) →
  above qs (size qs) k = None ∨ (∀ n, is_Some (above qs n k)).
Proof.
  intros Hk. destruct (above qs (size qs) k) eqn:E; [right|by left].
  destruct (above_pigeonhole qs k Hk) as (i & j & c & ? & Hi & Hj); [by rewrite E|].
  by apply (above_loop qs i j k c); [lia|..].
Qed.
End parents.

(** ** Linking *)

Section linking.
Context {Q : Type} `{QuantityOps Q}.
Implicit Types qs : gmap string (AcceleratorQuota Q).
Implicit Types t : Tree Q.

Definition node_keyed t : Prop := ∀ k n, nodes t !! k = Some n → NodeName n = k.

Lemma elem_of_Nodes t n : node_keyed t → n ∈ Nodes t ↔ nodes t !! NodeName n = Some n.
Proof.
  intros Hk. unfold Nodes. rewrite elem_of_sort_slice, list_elem_of_fmap. split.
  - intros ([k m] & -> & Hm%elem_of_map_to_list). cbn. by rewrite (Hk k m Hm).
  - intros Hn. exists (NodeName n, n). split; [done|]. by apply elem_of_map_to_list.
Qed.

Lemma Nodes_names t : node_keyed t → NodeName <$> Nodes t = sorted_keys (nodes t).
Proof.
  intros Hk. unfold Nodes, sorted_keys.
  rewrite (sort_slice_fmap NodeName _ str_lt) by done. f_equal. rewrite <-list_fmap_compose.
  apply list_fmap_ext. intros i [k n] Hi. cbn.
  by apply list_elem_of_lookup_2, elem_of_map_to_list, Hk in Hi.
Qed.

Lemma NoDup_Nodes_names t : node_keyed t → NoDup (NodeName <$> Nodes t).
Proof. intros Hk. rewrite Nodes_names by done. apply NoDup_sorted_keys. Qed.

(** A tree over the objects [qs], linked. *)
Record shaped qs t : Prop := {
  sh_keyed : keyed qs;
  sh_node : ∀ k n, nodes t !! k = Some n →
    qs !! k = Some (Quota n) ∧ Parent n = parentOf qs k ∧ Children n = childrenOf qs k;
  sh_dom : ∀ k, is_Some (nodes t !! k) ↔ is_Some (qs !! k);
}.

Lemma shaped_keyed qs t : shaped qs t → node_keyed t.
Proof. intros S k n Hn. apply (sh_node _ _ S) in Hn as (Hq & _). by apply (sh_keyed _ _ S) in Hq. Qed.

Lemma shaped_size qs t : shaped qs t → size (nodes t) = size qs.
Proof.
  intros S. rewrite <-!size_dom. f_equal. apply set_eq. intros k.
  by rewrite !elem_of_dom, (sh_dom _ _ S).
Qed.

Lemma shaped_parentAt qs t k : shaped qs t → parentAt t k = parentOf qs k.
Proof.
  intros S. unfold parentAt. destruct (nodes t !! k) as [n|] eqn:E; cbn.
  - by apply (sh_node _ _ S) in E as (_ & ? & _).
  - unfold parentOf. destruct (qs !! k) eqn:E'; [|done]. exfalso.
    assert (is_Some (nodes t !! k)) as [? ?] by (apply (sh_dom _ _ S); eauto). congruence.
Qed.

Lemma shaped_childrenAt qs t k : shaped qs t → ∀ c, c ∈ childrenAt t k ↔ parentOf qs c = Some k.
Proof.
  intros S c. unfold childrenAt. destruct (nodes t !! k) as [n|] eqn:E; cbn.
  - apply (sh_node _ _ S) in E as (_ & _ & ->). apply elem_of_childrenOf.
  - split; [set_solver|]. intros (_ & Hk & _)%parentOf_dom. apply (sh_dom _ _ S) in Hk.
    rewrite E in Hk. by destruct Hk.
Qed.

(** The violations the linking loop reports for one node. *)
Definition linkFaults qs (n : Node Q) : Violations :=
  match ParentRef (Spec (Quota n)) with
  | None => []
  | Some ref =>
      if decide (ref = NodeName n) then
        [mkViolation (NodeName n) AcceleratorQuotaReasonParentCycle (NodeName n)
           (Sprintf "parentRef points at the node itself" [])]
      else if decide (is_Some (qs !! ref)) then []
      else [mkViolation (NodeName n) AcceleratorQuotaReasonParentMissing ref
              (Sprintf "parentRef %q does not resolve to an existing AcceleratorQuota" [AStr ref])]
  end.

(** The tree before linking. *)
Definition bare qs : gmap string (Node Q) := (λ q, mkNode q None [] (-1)) <$> qs.

(** The node of [k] once the nodes named [pre] have been linked. *)
Definition partly qs (pre : list string) (k : string) (q : AcceleratorQuota Q) : Node Q :=
  mkNode q (if decide (k ∈ pre) then parentOf qs k else None)
    (List.filter (λ c, bool_decide (parentOf qs c = Some k)) pre) (-1).

Lemma linkNode_step qs pre n t vs :
  keyed qs → qs !! NodeName n = Some (Quota n) → (NodeName n ∉ pre) →
  nodes t = map_imap (λ k q, Some (partly qs pre k q)) qs →
  linkNode (t, vs) n
  = (mkTree (Root t) (map_imap (λ k q, Some (partly qs (pre ++ [NodeName n]) k q)) qs),
     vs ++ linkFaults qs n).
Proof.
  intros Hk Hq Hpre Ht. unfold linkNode, linkFaults.
  assert (∀ ref, is_Some (nodes t !! ref) ↔ is_Some (qs !! ref)) as Hdom.
  { intros ref. rewrite Ht, map_lookup_imap. destruct (qs !! ref); cbn; [split; eauto|done]. }
  assert (∀ k q, parentOf qs (NodeName n) ≠ Some k → k ≠ NodeName n ∨ parentOf qs k = None →
    partly qs (pre ++ [NodeName n]) k q = partly qs pre k q) as Hsame.
  { intros k q Hp Hor. unfold partly. f_equal.
    - destruct (decide (k ∈ pre)); [by rewrite decide_True by set_solver|].
      destruct (decide (k = NodeName n)) as [->|].
      + destruct Hor as [?| ->]; [done|by rewrite decide_True by set_solver].
      + by rewrite decide_False by set_solver.
    - rewrite List.filter_app. cbn. rewrite bool_decide_false by done. by rewrite app_nil_r. }
  assert (parentOf qs (NodeName n) = None → nodes t
    = map_imap (λ k q, Some (partly qs (pre ++ [NodeName n]) k q)) qs) as Hnone.
  { intros Hp. rewrite Ht. apply map_imap_ext. intros k. destruct (qs !! k); cbn; [|done].
    do 2 f_equal. symmetry. apply Hsame; [congruence|].
    destruct (decide (k = NodeName n)) as [->|]; [by right|by left]. }
  assert (parentOf qs (NodeName n) = match ParentRef (Spec (Quota n)) with
    | Some r => if decide (r ≠ NodeName n ∧ is_Some (qs !! r)) then Some r else None
    | None => None end) as Hpo by (unfold parentOf; by rewrite Hq).
  destruct (ParentRef (Spec (Quota n))) as [ref|].
  2:{ rewrite app_nil_r. rewrite <-Hnone by done. by destruct t. }
  destruct (decide (ref = NodeName n)) as [->|Hne].
  { rewrite decide_False in Hpo by tauto. rewrite <-Hnone by done. by destruct t. }
  rewrite (decide_ext _ _ _ _ (Hdom ref)).
  destruct (decide (is_Some (qs !! ref))) as [Href|Href].
  2:{ rewrite decide_False in Hpo by tauto. rewrite <-Hnone by done. by destruct t. }
  rewrite decide_True in Hpo by done. rewrite app_nil_r. unfold withNodes. do 2 f_equal.
  apply map_eq. intros k. rewrite Ht, map_lookup_imap.
  destruct (decide (k = ref)) as [->|Hkr].
  - rewrite lookup_alter_eq, lookup_alter_ne, map_lookup_imap by done.
    destruct Href as [q ->]. cbn. f_equal. unfold partly, setChildren. cbn. f_equal.
    + rewrite (decide_ext (ref ∈ pre ++ [NodeName n]) (ref ∈ pre)) by set_solver. done.
    + rewrite List.filter_app. cbn. by rewrite bool_decide_true.
  - rewrite lookup_alter_ne by done.
    destruct (decide (k = NodeName n)) as [->|Hkn].
    + rewrite lookup_alter_eq, map_lookup_imap, Hq. cbn. f_equal. unfold partly, setParent. cbn.
      f_equal; [by rewrite decide_True by set_solver|].
      rewrite List.filter_app. cbn. rewrite bool_decide_false by congruence. by rewrite app_nil_r.
    + rewrite lookup_alter_ne, map_lookup_imap by done. destruct (qs !! k); cbn; [|done].
      f_equal. symmetry. apply Hsame; [congruence|by left].
Qed.

Lemma bare_keyed qs r : keyed qs → node_keyed (mkTree r (bare qs)).
Proof.
  intros Hk k n. cbn. unfold bare. rewrite lookup_fmap. intros (q & Hq & ->)%fmap_Some.
  by apply Hk.
Qed.

Lemma bare_names qs : sorted_keys (bare qs) = sorted_keys qs.
Proof.
  apply (StronglySorted_unique_strong (λ x y, str_lt x y = true)).
  - intros x y _ _ H1 H2. apply sw_asym in H1. congruence.
  - apply sorted_keys_strict.
  - apply sorted_keys_strict.
  - apply NoDup_Permutation; [apply NoDup_sorted_keys..|]. intros k.
    rewrite !elem_of_sorted_keys. unfold bare. rewrite lookup_fmap. apply fmap_is_Some.
Qed.

Lemma bare_quota qs r n : keyed qs → n ∈ Nodes (mkTree r (bare qs)) → qs !! NodeName n = Some (Quota n).
Proof.
  intros Hk Hn. rewrite elem_of_Nodes in Hn by (by apply bare_keyed). cbn in Hn. unfold bare in Hn.
  rewrite lookup_fmap in Hn. apply fmap_Some in Hn as (q & Hq & ->). exact Hq.
Qed.

(** The first loop of [linkParents]. *)
Lemma linkNode_loop qs r :
  keyed qs →
  foldl linkNode (mkTree r (bare qs), []) (Nodes (mkTree r (bare qs)))
  = (mkTree r (map_imap (λ k q, Some (partly qs (sorted_keys qs) k q)) qs),
     Nodes (mkTree r (bare qs)) ≫= linkFaults qs).
Proof.
  intros Hk. set (l := Nodes (mkTree r (bare qs))).
  assert (NodeName <$> l = sorted_keys qs) as Hl.
  { unfold l. rewrite Nodes_names by (by apply bare_keyed). cbn [nodes]. apply bare_names. }
  rewrite <-Hl.
  apply (foldl_ind linkNode (λ pre st, st
    = (mkTree r (map_imap (λ k q, Some (partly qs (NodeName <$> pre) k q)) qs),
       pre ≫= linkFaults qs))).
  - cbn. do 2 f_equal. unfold bare. apply map_eq. intros k. rewrite lookup_fmap, map_lookup_imap.
    destruct (qs !! k); done.
  - intros pre n post st Heq ->.
    erewrite linkNode_step; [|done| | |done].
    + by rewrite fmap_app, bind_app, bind_singleton.
    + apply (bare_quota qs r); [done|]. fold l. rewrite Heq. set_solver.
    + pose proof (NoDup_sorted_keys qs) as Hnd. rewrite <-Hl, Heq, fmap_app in Hnd.
      apply NoDup_app in Hnd as (_ & Hd & _). intros Hin. apply (Hd _ Hin). cbn. set_solver.
Qed.

Definition linked qs : Tree Q :=
  mkTree None ((λ p, mkNode (snd p) (parentOf qs (fst p)) (childrenOf qs (fst p)) (-1))
    <$> map_imap (λ k q, Some (k, q)) qs).

Lemma linked_lookup qs k :
  nodes (linked qs) !! k
  = (λ q, mkNode q (parentOf qs k) (childrenOf qs k) (-1)) <$> qs !! k.
Proof.
  cbn. rewrite lookup_fmap, map_lookup_imap. by destruct (qs !! k).
Qed.

Lemma linked_shaped qs : keyed qs → shaped qs (linked qs).
Proof.
  intros Hk. split; [done| |].
  - intros k n. rewrite linked_lookup. intros (q & Hq & ->)%fmap_Some. by rewrite Hq.
  - intros k. rewrite linked_lookup. apply fmap_is_Some.
Qed.

Lemma linkParents_linked qs :
  keyed qs →
  linkParents (mkTree None (bare qs))
  = (linked qs, (Nodes (mkTree None (bare qs)) ≫= linkFaults qs) ++ reportCycles (linked qs)).
Proof.
  intros Hk. unfold linkParents. rewrite linkNode_loop by done.
  assert (sortChildren (mkTree None (map_imap
    (λ k q, Some (partly qs (sorted_keys qs) k q)) qs)) = linked qs) as ->; [|done].
  unfold sortChildren, withNodes. cbn [Root nodes]. unfold linked. f_equal. apply map_eq. intros k.
  rewrite !lookup_fmap, !map_lookup_imap. destruct (qs !! k) as [q|] eqn:E; cbn; [|done].
  f_equal. unfold setChildren, partly. cbn. f_equal.
  rewrite decide_True; [done|]. apply elem_of_sorted_keys. eauto.
Qed.

(** ** Cycles *)

(** The walk holds the ancestors in order, all different. *)
Lemma walkUp_spec qs t k fuel path :
  shaped qs t → is_Some (qs !! k) →
  (∀ i, (i ≤ length path)%nat → path !! i = if decide (i = length path) then None else above qs i k) →
  NoDup path → (size qs ≤ length path + fuel)%nat →
  (is_Some (walkUp fuel t path (above qs (length path) k)) ↔ ∀ n, is_Some (above qs n k)).
Proof.
  intros S Hk. revert path. induction fuel as [|fuel IH]; intros path Hpath Hnd Hsz.
  all: destruct (above qs (length path) k) as [c|] eqn:Ec; cbn [walkUp].
  all: try (split; [by intros [? ?]|]; intros Hall; specialize (Hall (length path)); by rewrite Ec in Hall).
  all: destruct (list_find (eq c) path) as [[i c']|] eqn:Ef.
  1,3: apply list_find_Some in Ef as (Hi & <- & _); split; [intros _|eauto];
    apply (above_loop qs i (length path) k c); [by apply lookup_lt_Some in Hi| |done];
    pose proof (lookup_lt_Some _ _ _ Hi); rewrite Hpath in Hi by lia; case_decide; [lia|done].
  - exfalso. assert (length (path ++ [c]) ≤ size qs)%nat as Hle; [|rewrite length_app in Hle; cbn in Hle; lia].
    assert (NoDup (path ++ [c])) as Hnd'.
    { apply NoDup_app. split_and!; [done| |apply NoDup_singleton].
      intros x Hx ->%list_elem_of_singleton. by apply list_find_None, Forall_forall with (x := c) in Ef. }
    rewrite <-size_dom, <-(size_list_to_set (C := gset string)) by done.
    apply subseteq_size. intros x [Hx|Hx]%elem_of_list_to_set%elem_of_app.
    + apply list_elem_of_lookup in Hx as [i Hi]. pose proof (lookup_lt_Some _ _ _ Hi).
      rewrite Hpath in Hi by lia. case_decide; [lia|].
      apply elem_of_dom. by eapply above_dom.
    + apply list_elem_of_singleton in Hx as ->. apply elem_of_dom. by eapply above_dom.
  - rewrite (shaped_parentAt qs) by done.
    assert (parentOf qs c = above qs (length (path ++ [c])) k) as ->.
    { rewrite length_app, Nat.add_comm. cbn [length Nat.add]. by rewrite above_S_r, Ec. }
    apply IH.
    + intros i Hi. rewrite length_app in *. cbn [length] in *.
      destruct (decide (i = length path)) as [->|].
      * rewrite decide_False by lia. by rewrite lookup_app_r, Nat.sub_diag by lia.
      * destruct (decide (i = length path + 1)%nat) as [->|].
        { by rewrite lookup_ge_None_2 by (rewrite length_app; cbn; lia). }
        rewrite lookup_app_l by lia. rewrite Hpath by lia. by rewrite decide_False by lia.
    + apply NoDup_app. split_and!; [done| |apply NoDup_singleton].
      intros x Hx ->%list_elem_of_singleton. by apply list_find_None, Forall_forall with (x := c) in Ef.
    + rewrite length_app. cbn. lia.
Qed.

(** The walk finds a cycle exactly when the parents never end. *)
Lemma cycleMembers_spec qs t k :
  shaped qs t → is_Some (qs !! k) →
  is_Some (cycleMembers t k) ↔ ∀ n, is_Some (above qs n k).
Proof.
  intros S Hk. unfold cycleMembers. rewrite (shaped_size qs t S).
  apply (walkUp_spec qs t k (size qs) []); [done|done| |constructor|cbn; lia].
  intros i Hi. cbn in *. by assert (i = 0%nat) as -> by lia.
Qed.
End linking.

(** ** Positions *)

Section positions.
Context {Q : Type} `{QuantityOps Q}.
Context (qs : gmap string (AcceleratorQuota Q)) (root : string).
Implicit Types t : Tree Q.

Definition visited t (k : string) : Prop := ∃ n, nodes t !! k = Some n ∧ 0 ≤ Depth n.
Definition unvisited t : nat :=
  size (filter (λ p : string * Node Q, Depth p.2 < 0) (nodes t)).

(** Every depth is [-1] or the distance to the root. *)
Definition depths_sound t : Prop :=
  ∀ k n, nodes t !! k = Some n →
    Depth n = -1 ∨ ∃ d, Depth n = Z.of_nat d ∧ above qs d k = Some root.

Record searching t (queue : list string) : Prop := {
  se_shaped : shaped qs t;
  se_sound : depths_sound t;
  se_queue : ∀ k, k ∈ queue → visited t k;
  se_root : visited t root;
}.

(** The children of every visited node outside [open] are visited. *)
Definition closed_except t (open : list string) : Prop :=
  ∀ k c, visited t k → (k ∉ open) → parentOf qs c = Some k → visited t c.

Lemma setDepth_shaped t k n d :
  shaped qs t → nodes t !! k = Some n →
  shaped qs (withNodes t (<[k := setDepth n d]> (nodes t))).
Proof.
  intros [Hk Hn Hd] E. split; [done| |].
  - intros j m. cbn. destruct (decide (j = k)) as [->|].
    + rewrite lookup_insert_eq. intros [= <-]. cbn. by apply Hn.
    + rewrite lookup_insert_ne by done. apply Hn.
  - intros j. cbn. rewrite <-Hd. destruct (decide (j = k)) as [->|].
    + rewrite lookup_insert_eq, E. split; eauto.
    + by rewrite lookup_insert_ne.
Qed.

Lemma visited_setDepth t k n d j :
  nodes t !! k = Some n → 0 ≤ d →
  visited (withNodes t (<[k := setDepth n d]> (nodes t))) j ↔ j = k ∨ visited t j.
Proof.
  intros E Hd. unfold visited. cbn. destruct (decide (j = k)) as [->|].
  - rewrite lookup_insert_eq. split; [by left|]. intros _. eexists. split; [done|]. cbn. lia.
  - rewrite lookup_insert_ne by done. naive_solver.
Qed.

Lemma unvisited_setDepth t k n d :
  nodes t !! k = Some n → Depth n < 0 → 0 ≤ d →
  unvisited t = S (unvisited (withNodes t (<[k := setDepth n d]> (nodes t)))).
Proof.
  intros E Hn Hd. unfold unvisited. cbn.
  rewrite <-(insert_delete_id (nodes t) k n) at 1 by done.
  rewrite map_filter_insert_True by done.
  rewrite map_size_insert_None by (apply map_lookup_filter_None; left; apply lookup_delete_eq).
  f_equal. rewrite map_filter_insert_False by (cbn; lia). done.
Qed.

Section expand.
Context (k : string) (dk : nat) (Hk : above qs dk k = Some root).
Context (t0 : Tree Q) (queue0 : list string) (cs : list string).
Context (Hcs : ∀ c, c ∈ cs → parentOf qs c = Some k).

Record expanded (pre : list string) (st : Tree Q * list string) : Prop := {
  ex_search : searching st.1 st.2;
  ex_pre : ∀ c, c ∈ pre → visited st.1 c;
  ex_mono : ∀ j, visited t0 j → visited st.1 j;
  ex_new : ∀ j, visited st.1 j → visited t0 j ∨ j ∈ st.2;
  ex_old : ∀ j, j ∈ queue0 → j ∈ st.2;
  ex_count : (length st.2 + unvisited st.1 = length queue0 + unvisited t0)%nat;
}.

Lemma visitChild_expanded pre c st :
  c ∈ cs → expanded pre st → expanded (pre ++ [c]) (visitChild (Z.of_nat dk) st c).
Proof.
  intros Hc [[Hs Hsound Hq Hr] Hpre Hmono Hnew Hold Hcount]. destruct st as [t queue]. cbn in *.
  pose proof (Hcs c Hc) as Hpar.
  assert (is_Some (nodes t !! c)) as [n En].
  { apply (sh_dom _ _ Hs). by apply parentOf_dom in Hpar as (? & _). }
  rewrite En. unfold Reachable. destruct (0 <=? Depth n) eqn:E.
  { split; cbn; try done. intros j [?| ->%list_elem_of_singleton]%elem_of_app; [by apply Hpre|].
    exists n. split; [done|lia]. }
  pose proof (visited_setDepth t c n (Z.of_nat dk + 1)) as Hvis.
  assert (0 ≤ Z.of_nat dk + 1) as Hpos by lia.
  split; cbn [fst snd].
  - split.
    + by apply setDepth_shaped.
    + intros j m. cbn. destruct (decide (j = c)) as [->|].
      * rewrite lookup_insert_eq. intros [= <-]. right. exists (S dk). cbn [Depth setDepth].
        split; [lia|]. cbn. rewrite Hpar. done.
      * rewrite lookup_insert_ne by done. apply Hsound.
    + intros j [?| ->%list_elem_of_singleton]%elem_of_app; apply Hvis; auto.
    + apply Hvis; auto.
  - intros j [?| ->%list_elem_of_singleton]%elem_of_app; apply Hvis; auto.
  - intros j ?. apply Hvis; auto.
  - intros j Hj. apply Hvis in Hj as [->|[?|?]%Hnew]; [|auto|auto|done|done].
    + right. set_solver.
    + right. set_solver.
  - intros j ?%Hold. set_solver.
  - rewrite (unvisited_setDepth t c n (Z.of_nat dk + 1)) in Hcount by (done || lia).
    rewrite length_app. cbn. lia.
Qed.

Lemma expand_all :
  searching t0 queue0 → expanded cs (foldl (visitChild (Z.of_nat dk)) (t0, queue0) cs).
Proof.
  intros Hs. apply (foldl_ind _ expanded).
  - split; cbn; try done; [set_solver|auto].
  - intros pre c post st Heq. apply visitChild_expanded. rewrite Heq. set_solver.
Qed.
End expand.

Lemma drainQueue_spec fuel t queue :
  searching t queue → closed_except t queue → (length queue + unvisited t ≤ fuel)%nat →
  searching (drainQueue fuel t queue) [] ∧ closed_except (drainQueue fuel t queue) []
  ∧ Root (drainQueue fuel t queue) = Root t.
Proof.
  revert t queue. induction fuel as [|fuel IH]; intros t queue Hs Hcl Hf.
  { destruct queue; [|cbn in Hf; lia]. done. }
  destruct queue as [|k queue]; [done|]. cbn [drainQueue].
  destruct (se_queue _ _ Hs k) as (n & En & Hn); [set_solver|]. rewrite En.
  destruct (se_sound _ _ Hs k n En) as [?|(dk & Hd & Hab)]; [lia|]. rewrite Hd.
  destruct (sh_node _ _ (se_shaped _ _ Hs) k n En) as (_ & _ & Hch).
  assert (searching t queue) as Hs' by (destruct Hs; split; set_solver).
  pose proof (expand_all k dk Hab t queue (Children n)) as He.
  specialize (He ltac:(intros c; rewrite Hch; apply elem_of_childrenOf) Hs').
  assert (Root (fst (foldl (visitChild (Z.of_nat dk)) (t, queue) (Children n))) = Root t) as Hroot.
  { apply (foldl_ind (visitChild (Z.of_nat dk)) (λ _ st, Root (fst st) = Root t)); [done|].
    intros ? c ? [t' q'] _ <-. cbn. destruct (nodes t' !! c); [|done]. by destruct (Reachable _). }
  destruct (foldl _ _ _) as [t' queue'] eqn:Ef. cbn [fst] in Hroot. rewrite <-Hroot.
  destruct He as [Hs2 Hpre Hmono Hnew Hold Hcount]. cbn [fst snd] in *.
  apply IH; [done| |cbn in Hf; lia].
  intros j c Hj Hjq Hp. destruct (Hnew j Hj) as [Hj0|?]; [|done].
  destruct (decide (j = k)) as [->|Hjk].
  - apply Hpre. rewrite Hch. by apply elem_of_childrenOf.
  - apply Hmono. apply (Hcl j c Hj0); [|done]. intros [?|?%Hold]%elem_of_cons; done.
Qed.
End positions.

Section roots.
Context {Q : Type} `{QuantityOps Q}.
Implicit Types qs : gmap string (AcceleratorQuota Q).
Implicit Types t : Tree Q.

(** [k] is [d] parents below the reserved root, which names no parent. *)
Definition rooted qs (rootName : string) (d : nat) (k : string) : Prop :=
  above qs d k = Some rootName ∧ ∃ q, qs !! rootName = Some q ∧ ParentRef (Spec q) = None.

(** Every node's depth is its distance from the root, [-1] when it has none. *)
Definition positioned qs (rootName : string) t : Prop :=
  ∀ k n, nodes t !! k = Some n →
    (Depth n = -1 ∧ ∀ d, ¬ rooted qs rootName d k)
    ∨ ∃ d, Depth n = Z.of_nat d ∧ rooted qs rootName d k.

Lemma assignDepth_positioned qs root q t :
  shaped qs t → (∀ k n, nodes t !! k = Some n → Depth n = -1) →
  qs !! root = Some q → ParentRef (Spec q) = None →
  shaped qs (assignDepth t root) ∧ positioned qs root (assignDepth t root)
  ∧ Root (assignDepth t root) = Root t.
Proof.
  intros S Hd Hq Hpr. unfold assignDepth.
  assert (is_Some (nodes t !! root)) as [n En] by (apply (sh_dom _ _ S); eauto).
  assert (alter (λ n, setDepth n 0) root (nodes t) = <[root := setDepth n 0]> (nodes t)) as ->.
  { apply map_eq. intros k. destruct (decide (k = root)) as [->|].
    - by rewrite lookup_alter_eq, lookup_insert_eq, En.
    - by rewrite lookup_alter_ne, lookup_insert_ne. }
  set (t1 := withNodes t (<[root := setDepth n 0]> (nodes t))).
  assert (∀ j, visited t1 j ↔ j = root) as Hv.
  { intros j. unfold t1. rewrite (visited_setDepth t root n 0 j En) by lia. split; [|by left].
    intros [?|(m & Hm & ?)]; [done|]. apply Hd in Hm. lia. }
  assert (searching qs root t1 [root]) as Hs.
  { split; [by apply setDepth_shaped| |set_solver|by apply Hv].
    intros k m. unfold t1. cbn. destruct (decide (k = root)) as [->|].
    - rewrite lookup_insert_eq. intros [= <-]. right. by exists 0%nat.
    - rewrite lookup_insert_ne by done. intros Hm. left. by eapply Hd. }
  destruct (drainQueue_spec qs root (size (nodes t)) t1 [root]) as (Hs' & Hcl & Hroot); [done| | |].
  { intros k c Hk Hko _. apply Hv in Hk as ->. set_solver. }
  { pose proof (unvisited_setDepth t root n 0 En) as Hu. rewrite (Hd _ _ En) in Hu.
    fold t1 in Hu. specialize (Hu ltac:(lia) ltac:(lia)).
    assert (unvisited t = size (nodes t)) as Hsz; [|cbn; lia]. unfold unvisited.
    rewrite map_filter_id; [done|]. intros k m Hm. cbn. apply Hd in Hm. lia. }
  split_and!; [apply Hs'| |done].
  assert (∀ d k, above qs d k = Some root → is_Some (qs !! k) →
    visited (drainQueue (size (nodes t)) t1 [root]) k) as Hvis.
  { induction d as [|d IH]; intros k Hab Hk; cbn in Hab; [injection Hab as ->; apply (se_root _ _ _ _ Hs')|].
    destruct (parentOf qs k) as [p|] eqn:Ep; [|done]. cbn in Hab.
    apply (Hcl p k); [|set_solver|done]. apply IH; [done|]. by apply parentOf_dom in Ep as (_ & ? & _). }
  intros k m Hm. destruct (se_sound _ _ _ _ Hs' k m Hm) as [Hneg|(d & ? & ?)].
  - left. split; [done|]. intros d [Hab _].
    destruct (Hvis d k Hab) as (m' & Hm' & ?); [apply (sh_dom _ _ (se_shaped _ _ _ _ Hs')); eauto|].
    rewrite Hm in Hm'. injection Hm' as <-. lia.
  - right. exists d. split; [done|]. split; [done|]. eauto.
Qed.

Definition rootFaults (rootName : string) (n : Node Q) : Violations :=
  match ParentRef (Spec (Quota n)) with
  | Some _ => []
  | None =>
      if decide (NodeName n = rootName) then []
      else [mkViolation (NodeName n) AcceleratorQuotaReasonParentMissing rootName
              (Sprintf "only the reserved root %q may omit parentRef; every other node must name its parent"
                 [AStr rootName])]
  end.

Definition isRoot (rootName : string) (n : Node Q) : bool :=
  bool_decide (NodeName n = rootName) && bool_decide (ParentRef (Spec (Quota n)) = None).

(** The node that takes the root's place. *)
Definition rootOf qs (rootName : string) : option string :=
  match qs !! rootName with
  | Some q => if decide (ParentRef (Spec q) = None) then Some rootName else None
  | None => None
  end.

Lemma rootNode_loop qs rootName t :
  shaped qs t → Root t = None →
  foldl (rootNode rootName) (t, []) (Nodes t)
  = (mkTree (rootOf qs rootName) (nodes t), Nodes t ≫= rootFaults rootName).
Proof.
  intros S Hr. pose proof (shaped_keyed _ _ S) as Hk.
  assert (foldl (rootNode rootName) (t, []) (Nodes t)
    = (mkTree (if existsb (isRoot rootName) (Nodes t) then Some rootName else None) (nodes t),
       Nodes t ≫= rootFaults rootName)) as ->.
  - apply (foldl_ind _ (λ pre st, st
      = (mkTree (if existsb (isRoot rootName) pre then Some rootName else None) (nodes t),
         pre ≫= rootFaults rootName))).
    + cbn. destruct t. cbn in *. congruence.
    + intros pre n post st _ ->. rewrite bind_app, bind_singleton, existsb_app.
      assert (rootFaults rootName n = match ParentRef (Spec (Quota n)) with Some _ => [] | None =>
        if decide (NodeName n = rootName) then [] else rootFaults rootName n end) as Hf.
      { unfold rootFaults. destruct (ParentRef _); [done|]. by case_decide. }
      assert (isRoot rootName n = match ParentRef (Spec (Quota n)) with Some _ => false
        | None => bool_decide (NodeName n = rootName) end) as Hi.
      { unfold isRoot. destruct (ParentRef _); [apply andb_false_r|apply andb_true_r]. }
      rewrite Hf. unfold rootNode. cbn [existsb]. rewrite Hi.
      destruct (ParentRef (Spec (Quota n))) eqn:Ep.
      * by rewrite app_nil_r, !orb_false_r.
      * destruct (decide (NodeName n = rootName)) as [<-|Hne].
        { by rewrite app_nil_r, bool_decide_true, orb_true_r by done. }
        rewrite (bool_decide_false _ Hne), !orb_false_r. do 2 f_equal.
        unfold rootFaults. by rewrite Ep, decide_False.
  - do 2 f_equal. unfold rootOf. destruct (existsb _ _) eqn:Hex.
    + apply existsb_exists in Hex as (n & Hn%list_elem_of_In & Hr').
      unfold isRoot in Hr'. rewrite andb_true_iff, !bool_decide_eq_true in Hr'. destruct Hr' as [<- Hp].
      apply elem_of_Nodes in Hn; [|done].
      apply (sh_node _ _ S) in Hn as (-> & _). by rewrite decide_True.
    + destruct (qs !! rootName) as [q|] eqn:Eq; [|done]. rewrite decide_False; [done|].
      intros Hp. assert (existsb (isRoot rootName) (Nodes t) = true); [|congruence].
      apply existsb_exists. destruct (proj2 (sh_dom _ _ S rootName)) as [n En]; [eauto|].
      pose proof (Hk _ _ En) as Hname. exists n.
      apply (sh_node _ _ S) in En as Hn. destruct Hn as (Hq & _). unfold isRoot.
      rewrite <-list_elem_of_In, andb_true_iff, !bool_decide_eq_true.
      split_and!; [apply elem_of_Nodes; [done|by rewrite Hname]|done|congruence].
Qed.

(** [resolveRoot] leaves a linked tree whose depths are the distances from
    the reserved root. *)
Lemma resolveRoot_positioned qs rootName t :
  shaped qs t → Root t = None → (∀ k n, nodes t !! k = Some n → Depth n = -1) →
  ∃ t', resolveRoot t rootName = (t', Nodes t ≫= rootFaults rootName)
    ∧ shaped qs t' ∧ positioned qs rootName t' ∧ Root t' = rootOf qs rootName.
Proof.
  intros S Hr Hd. unfold resolveRoot. rewrite (rootNode_loop qs) by done. cbn [Root].
  set (t1 := mkTree (rootOf qs rootName) (nodes t)).
  assert (shaped qs t1) as S1 by (by destruct S).
  unfold rootOf in *. destruct (qs !! rootName) as [q|] eqn:Eq; [destruct (decide _) as [Hp|Hp]|].
  - destruct (assignDepth_positioned qs rootName q t1) as (? & ? & ?); [done..|]. eauto.
  - eexists. split_and!; [done|done| |done]. intros k n Hn. left. split; [by eapply Hd|].
    intros d [_ (q' & Hq' & ?)]. congruence.
  - eexists. split_and!; [done|done| |done]. intros k n Hn. left. split; [by eapply Hd|].
    intros d [_ (q' & Hq' & ?)]. congruence.
Qed.
End roots.

(** ** Descendants *)

Section descendants.
Context {Q : Type} `{QuantityOps Q}.
Context (qs : gmap string (AcceleratorQuota Q)) (t : Tree Q) (S : shaped qs t).

(** [x] is [k] or below it. *)
Definition under (k x : string) : Prop := ∃ n, above qs n x = Some k.

Lemma under_refl k : under k k.
Proof. by exists 0%nat. Qed.

Lemma under_step k p x : under k p → parentOf qs x = Some p → under k x.
Proof. intros [n Hn] Hp. exists (Datatypes.S n). cbn. by rewrite Hp. Qed.

Lemma under_trans k j x : under k j → under j x → under k x.
Proof. intros [n Hn] [m Hm]. exists (m + n)%nat. by rewrite above_add, Hm. Qed.

(** Going on from what has been collected, visiting [starts] and all below. *)
Record grows (starts out res : list string) (new : list string) : Prop := {
  gw_app : res = out ++ new;
  gw_nodup : NoDup res;
  gw_below : ∀ x, x ∈ new → is_Some (qs !! x) ∧ ∃ s, s ∈ starts ∧ under s x;
  gw_starts : ∀ s, s ∈ starts → s ∈ res;
  gw_closed : ∀ x c, x ∈ new → parentOf qs c = Some x → c ∈ res;
  gw_order : ∀ pre x post, new = pre ++ x :: post →
    x ∈ starts ∨ ∃ p, parentOf qs x = Some p ∧ p ∈ pre;
}.

Lemma grows_nil out : NoDup out → grows [] out out [].
Proof.
  intros Hnd. split; [by rewrite app_nil_r|done|set_solver|set_solver|set_solver|].
  intros [|] ??; done.
Qed.

Lemma grows_snoc ss c out r1 r2 new1 new2 :
  grows ss out r1 new1 → grows [c] r1 r2 new2 → grows (ss ++ [c]) out r2 (new1 ++ new2).
Proof.
  intros [-> N1 B1 S1 C1 O1] [-> N2 B2 S2 C2 O2].
  split; [by rewrite app_assoc|done| | | |].
  - intros x [Hx|Hx]%elem_of_app.
    + destruct (B1 x Hx) as (? & s & ? & ?). split; [done|]. exists s. set_solver.
    + destruct (B2 x Hx) as (? & s & ? & ?). split; [done|]. exists s. set_solver.
  - intros s [Hs|Hs]%elem_of_app; [specialize (S1 s Hs)|specialize (S2 s Hs)]; set_solver.
  - intros x d [Hx|Hx]%elem_of_app Hp; [specialize (C1 x d Hx Hp)|specialize (C2 x d Hx Hp)]; set_solver.
  - intros pre x post Heq. apply app_eq_inv in Heq as [(l & -> & Heq)|(l & -> & ->)].
    + destruct l as [|y l]; cbn in Heq.
      * destruct (O2 [] x post) as [?|(p & ? & ?)]; [done|set_solver|set_solver].
      * injection Heq as <- ->.
        destruct (O1 pre x l) as [?|(p & ? & ?)]; [done|set_solver|right; eauto].
    + destruct (O2 l x post) as [?|(p & ? & ?)]; [done|set_solver|]. right. exists p. set_solver.
Qed.

Lemma walk_grows fuel out k :
  NoDup out → (∀ x, x ∈ out → is_Some (qs !! x)) → is_Some (qs !! k) →
  (size qs < length out + fuel)%nat →
  ∃ new, grows [k] out (walk fuel t out k) new.
Proof.
  revert out k. induction fuel as [|fuel IH]; intros out k Hnd Hout Hk Hsz.
  { exfalso. assert (length out ≤ size qs)%nat; [|lia].
    rewrite <-size_dom, <-(size_list_to_set (C := gset string)) by done.
    apply subseteq_size. intros x Hx%elem_of_list_to_set. by apply elem_of_dom, Hout. }
  cbn [walk]. destruct (decide (k ∈ out)) as [Hin|Hin].
  { exists []. split; [by rewrite app_nil_r|done|set_solver|set_solver|set_solver|].
    intros [|] ??; done. }
  pose proof (shaped_childrenAt qs t k S) as Hcs. set (cs := childrenAt t k) in *.
  assert (NoDup (out ++ [k])) as Hnd'.
  { apply NoDup_app. split_and!; [done| |apply NoDup_singleton]. set_solver. }
  assert (∃ new, grows cs (out ++ [k]) (foldl (walk fuel t) (out ++ [k]) cs) new) as [new G].
  { apply (foldl_ind (walk fuel t) (λ pre r, ∃ new, grows pre (out ++ [k]) r new)).
    - exists []. by apply grows_nil.
    - intros pre c post r Heq [new1 G1].
      assert (parentOf qs c = Some k) as Hc by (apply Hcs; rewrite Heq; set_solver).
      destruct (IH r c) as [new2 G2].
      + apply G1.
      + rewrite (gw_app _ _ _ _ G1). intros x [[?|?]%elem_of_app|Hx]%elem_of_app; [auto|set_solver|].
        by destruct (gw_below _ _ _ _ G1 x Hx).
      + apply (parentOf_dom _ _ _ Hc).
      + rewrite (gw_app _ _ _ _ G1), !length_app. cbn. lia.
      + exists (new1 ++ new2). by eapply grows_snoc. }
  exists (k :: new). destruct G as [-> N B St C O].
  split; [by rewrite <-app_assoc|done| |set_solver| |].
  - intros x [->|Hx]%elem_of_cons; [split; [done|]; exists k; split; [set_solver|apply under_refl]|].
    destruct (B x Hx) as (? & s & Hs & Hu). split; [done|]. exists k. split; [set_solver|].
    eapply under_trans; [|done]. eapply under_step; [apply under_refl|]. by apply Hcs.
  - intros x c [->|Hx]%elem_of_cons Hp; [by apply St, Hcs|by eapply C].
  - intros [|y pre] x post Heq; injection Heq as <- ->; [set_solver|].
    destruct (O pre x post eq_refl) as [Hx|(p & ? & ?)]; right; [exists k|exists p]; set_solver.
Qed.

Lemma Subtree_grows k :
  is_Some (qs !! k) → grows [k] [] (Subtree t k) (Subtree t k).
Proof.
  intros Hk. unfold Subtree. destruct (proj2 (sh_dom _ _ S k) Hk) as [n ->].
  rewrite (shaped_size qs t S).
  destruct (walk_grows (Datatypes.S (size qs)) [] k) as [new G];
    [constructor|set_solver|done|cbn; lia|].
  pose proof (gw_app _ _ _ _ G) as Hr. cbn [app] in Hr. rewrite Hr in *. done.
Qed.

(** [Subtree] lists the node and its descendants. *)
Lemma elem_of_Subtree k x :
  is_Some (qs !! k) → (x ∈ Subtree t k ↔ is_Some (qs !! x) ∧ under k x).
Proof.
  intros Hk. pose proof (Subtree_grows k Hk) as G. split.
  - intros Hx. destruct (gw_below _ _ _ _ G x Hx) as (? & s & ->%list_elem_of_singleton & ?). done.
  - intros [Hx [n Hn]]. revert x Hx Hn. induction n as [|n IH]; intros x Hx Hn; cbn in Hn.
    + injection Hn as ->. apply (gw_starts _ _ _ _ G). set_solver.
    + destruct (parentOf qs x) as [p|] eqn:Ep; [|done]. cbn in Hn.
      apply (gw_closed _ _ _ _ G p x); [|done]. apply IH; [|done].
      by apply parentOf_dom in Ep as (_ & ? & _).
Qed.

(** ** Ancestors *)

(** The first [d] parents, nearest first. *)
Fixpoint lineage (d : nat) (k : string) : list string :=
  match d with
  | O => []
  | Datatypes.S d => match parentOf qs k with Some p => p :: lineage d p | None => [] end
  end.

Lemma lineage_lookup d k i : (i < d)%nat → lineage d k !! i = above qs (Datatypes.S i) k.
Proof.
  revert k i. induction d as [|d IH]; intros k i Hi; [lia|]. cbn.
  destruct (parentOf qs k) as [p|]; [|by destruct i]. cbn.
  destruct i as [|i]; [done|]. cbn [lookup list_lookup]. rewrite IH by lia. done.
Qed.

Lemma length_lineage d k : (length (lineage d k) ≤ d)%nat.
Proof.
  revert k. induction d as [|d IH]; intros k; cbn; [done|].
  destruct (parentOf qs k); cbn; [|lia]. specialize (IH s). lia.
Qed.

Lemma elem_of_lineage d k a :
  a ∈ lineage d k ↔ ∃ i, (i < d)%nat ∧ above qs (Datatypes.S i) k = Some a.
Proof.
  rewrite list_elem_of_lookup. split.
  - intros [i Hi]. exists i. assert (i < d)%nat as Hlt.
    { pose proof (lookup_lt_Some _ _ _ Hi). pose proof (length_lineage d k). lia. }
    by rewrite <-(lineage_lookup d).
  - intros (i & Hi & Ha). exists i. by rewrite lineage_lookup.
Qed.

(** When the parents end after [d] steps, the climb lists them all. *)
Lemma climb_ends d k seen fuel :
  above qs (Datatypes.S d) k = None →
  (∀ i a, above qs (Datatypes.S i) k = Some a → a ∉ seen) → (d ≤ fuel)%nat →
  climb fuel t seen (parentOf qs k) = lineage d k.
Proof.
  revert k seen fuel. induction d as [|d IH]; intros k seen fuel Hend Hseen Hf.
  { cbn in Hend. destruct (parentOf qs k) eqn:E; [done|]. by destruct fuel. }
  destruct fuel as [|fuel]; [lia|]. cbn [lineage].
  destruct (parentOf qs k) as [p|] eqn:Ep; [|done].
  cbn [climb]. rewrite decide_False by (apply (Hseen 0%nat); cbn; by rewrite Ep).
  assert (∀ i, above qs (Datatypes.S i) k = above qs i p) as Hsh by (intros i; cbn; by rewrite Ep).
  rewrite Hsh in Hend. rewrite (shaped_parentAt qs t p S). f_equal. apply IH; [done| |lia].
  intros i a Ha. apply not_elem_of_union. split; [|apply (Hseen (Datatypes.S i)); by rewrite Hsh].
  intros ->%elem_of_singleton.
  destruct (above_loop qs 0 (Datatypes.S i) p p ltac:(lia) eq_refl Ha (Datatypes.S d)) as [? Hx].
  congruence.
Qed.

(** Where the parents end, [Ancestors] lists them root first. *)
Lemma Ancestors_ends d k :
  is_Some (qs !! k) → above qs (Datatypes.S d) k = None → Ancestors t k = rev (lineage d k).
Proof.
  intros Hk Hend. unfold Ancestors. rewrite (shaped_size qs t S), (shaped_parentAt qs t k S). f_equal.
  destruct (above_ends qs k Hk) as [Hsz|Hall].
  2:{ destruct (Hall (Datatypes.S d)) as [? Hx]. congruence. }
  assert (∀ i a, above qs (Datatypes.S i) k = Some a → a ≠ k) as Hne.
  { intros i a Ha ->. destruct (above_loop qs 0 (Datatypes.S i) k k ltac:(lia) eq_refl Ha
      (Datatypes.S d)) as [? Hx]. congruence. }
  assert (is_Some (qs !! k) → size qs ≠ 0%nat) as Hpos.
  { intros [q Hq] H0. apply map_size_empty_inv in H0. subst. done. }
  destruct (decide (d ≤ size qs)%nat) as [Hle|Hgt].
  - apply climb_ends; [done| |done]. intros i a Ha ->%elem_of_singleton. by eapply Hne.
  - destruct (size qs) as [|n] eqn:En; [by destruct Hpos|].
    rewrite (climb_ends n k); [|done| |lia].
    + assert (∀ m k, above qs (Datatypes.S m) k = None → ∀ m', (m ≤ m')%nat →
        lineage m k = lineage m' k) as Hmono.
      { induction m as [|m IHm]; intros j Hj m' Hm.
        - cbn in Hj. destruct (parentOf qs j) eqn:E; [done|].
          destruct m'; cbn; [done|]. by rewrite E.
        - destruct m' as [|m']; [lia|]. cbn [lineage]. cbn in Hj.
          destruct (parentOf qs j) as [p|]; [|done]. f_equal. apply IHm; [done|lia]. }
      apply Hmono; [done|lia].
    + intros i a Ha ->%elem_of_singleton. by eapply Hne.
Qed.
End descendants.
