(* ===== verification/TreeBuild.v ===== *)
(** * What [Build] reports

    The theorems on [Tree]: a build is clean exactly when the objects form a
    tree under the reserved root that meets every authored rule; every object
    keeps its node; a node without a position always carries a violation of its
    own; the frozen set is closed under descent, so an unfrozen node has an
    unfrozen line up to the root; and which violation a frozen node reports. *)

From S2P Require Import Prelude Quantity Api Violation Tree TreeFacts.
Local Open Scope Z_scope.

(** ** Assembling the nodes *)

Section assembly.
Context {Q : Type} `{QuantityOps Q}.
Implicit Types quotas : list (AcceleratorQuota Q).

(** The objects by name, the first of a name. *)
Definition keepFirst (m : gmap string (AcceleratorQuota Q)) (q : AcceleratorQuota Q) :=
  if decide (is_Some (m !! QName q)) then m else <[QName q := q]> m.
Definition objects quotas : gmap string (AcceleratorQuota Q) := foldl keepFirst ∅ quotas.

Lemma objects_snoc quotas q : objects (quotas ++ [q]) = keepFirst (objects quotas) q.
Proof. unfold objects. by rewrite foldl_app. Qed.

Lemma objects_keyed quotas : keyed (objects quotas).
Proof.
  induction quotas as [|q quotas IH] using rev_ind; [by intros ?? ?|].
  rewrite objects_snoc. unfold keepFirst. case_decide; [done|].
  intros k q'. destruct (decide (k = QName q)) as [->|].
  - rewrite lookup_insert_eq. by intros [= <-].
  - rewrite lookup_insert_ne by done. apply IH.
Qed.

Lemma objects_dom quotas k : is_Some (objects quotas !! k) ↔ k ∈ QName <$> quotas.
Proof.
  induction quotas as [|q quotas IH] using rev_ind; [cbn; split; [by intros [? ?]|set_solver]|].
  rewrite objects_snoc, fmap_app, elem_of_app, <-IH. unfold keepFirst. cbn.
  rewrite list_elem_of_singleton. case_decide as Hd.
  - split; [by left|]. by intros [?| ->].
  - destruct (decide (k = QName q)) as [->|]; [rewrite lookup_insert_eq|rewrite lookup_insert_ne by done].
    + split; eauto.
    + naive_solver.
Qed.

Lemma objects_elem quotas k q : objects quotas !! k = Some q → q ∈ quotas ∧ QName q = k.
Proof.
  intros Hq. split; [|by apply objects_keyed in Hq]. revert Hq.
  induction quotas as [|q' quotas IH] using rev_ind; [done|].
  rewrite objects_snoc. unfold keepFirst. case_decide; [intros ?%IH; set_solver|].
  destruct (decide (k = QName q')) as [->|]; [rewrite lookup_insert_eq|rewrite lookup_insert_ne by done].
  - intros [= <-]. set_solver.
  - intros ?%IH. set_solver.
Qed.

Lemma objects_unique quotas q :
  NoDup (QName <$> quotas) → q ∈ quotas → objects quotas !! QName q = Some q.
Proof.
  intros Hnd Hq. destruct (proj2 (objects_dom quotas (QName q))) as [q' Hq'].
  { by apply list_elem_of_fmap_2. }
  rewrite Hq'. f_equal. apply objects_elem in Hq' as [Hq' Heq].
  apply list_elem_of_lookup in Hq as [i Hi], Hq' as [j Hj].
  assert (i = j) as ->; [|congruence].
  eapply NoDup_lookup; [exact Hnd|..]; rewrite list_lookup_fmap; [by rewrite Hi|].
  rewrite Hj. cbn. congruence.
Qed.

Definition duplicate (q : AcceleratorQuota Q) : Violation :=
  mkViolation (QName q) AcceleratorQuotaReasonDuplicateNode ""
    (Sprintf "node name appears more than once in the assembled set" []).

Lemma addQuota_loop quotas :
  ∃ dups, foldl addQuota (∅, []) quotas = (bare (objects quotas), dups)
    ∧ (dups = [] ↔ NoDup (QName <$> quotas))
    ∧ ∀ v, v ∈ dups → ∃ q, q ∈ quotas ∧ v = duplicate q.
Proof.
  induction quotas as [|q quotas IH] using rev_ind.
  { exists []. split_and!; [done|split; [constructor|done]|set_solver]. }
  destruct IH as (dups & Hl & Hnd & Hv). rewrite foldl_app, Hl, objects_snoc. cbn [foldl addQuota].
  rewrite fmap_app. unfold keepFirst, bare. cbn [fmap list_fmap].
  assert (is_Some (((λ q, mkNode q None [] (-1)) <$> objects quotas) !! QName q)
    ↔ is_Some (objects quotas !! QName q)) as Hdom by (rewrite lookup_fmap; apply fmap_is_Some).
  rewrite (decide_ext _ _ _ _ Hdom). case_decide as Hd; rewrite objects_dom in Hd.
  - eexists. split_and!; [done| |].
    + split; [by intros [_ ?]%app_nil|]. intros (_ & Hdis & _)%NoDup_app.
      exfalso. apply (Hdis _ Hd). set_solver.
    + intros v [(q' & ? & ->)%Hv| ->%list_elem_of_singleton]%elem_of_app; [|exists q]; set_solver.
  - exists dups. split_and!; [by rewrite fmap_insert| |].
    + rewrite Hnd. split; [intros ?|by intros (? & _)%NoDup_app].
      apply NoDup_app. split_and!; [done|set_solver|apply NoDup_singleton].
    + intros v (q' & ? & ->)%Hv. exists q'. set_solver.
Qed.

(** ** The cycle reports *)

Lemma reportCycles_nodes (t : Tree Q) :
  VNode <$> reportCycles t
  = NodeName <$> List.filter (λ n, bool_decide (is_Some (cycleMembers t (NodeName n)))) (Nodes t).
Proof.
  unfold reportCycles. generalize (Nodes t). intros l.
  apply (foldl_ind (reportCycle t) (λ pre st, VNode <$> snd st
    = NodeName <$> List.filter (λ n, bool_decide (is_Some (cycleMembers t (NodeName n)))) pre)); [done|].
  intros pre n post [rendered vs] _ IH. cbn in IH |- *. rewrite List.filter_app, fmap_app, <-IH. cbn.
  destruct (cycleMembers t (NodeName n)) as [ms|].
  - rewrite bool_decide_true by eauto. cbn. by rewrite fmap_app.
  - rewrite bool_decide_false by (by intros [? ?]). cbn. by rewrite app_nil_r.
Qed.

Lemma elem_of_cycle_nodes qs (t : Tree Q) k :
  shaped qs t →
  k ∈ VNode <$> reportCycles t ↔ is_Some (qs !! k) ∧ ∀ n, is_Some (above qs n k).
Proof.
  intros S. rewrite reportCycles_nodes, list_elem_of_fmap. pose proof (shaped_keyed _ _ S) as Hk.
  split.
  - intros (n & -> & [Hn%list_elem_of_In Hc]%list_elem_of_In%filter_In).
    apply elem_of_Nodes in Hn; [|done]. rewrite bool_decide_eq_true in Hc.
    assert (is_Some (qs !! NodeName n)) by (apply (sh_dom _ _ S); eauto).
    split; [done|]. by apply (cycleMembers_spec qs t).
  - intros [Hq Hall]. destruct (proj2 (sh_dom _ _ S k) Hq) as [n Hn]. exists n.
    pose proof (Hk _ _ Hn) as Hname. split; [done|].
    apply list_elem_of_In, filter_In. rewrite <-list_elem_of_In, bool_decide_eq_true.
    split; [apply elem_of_Nodes; [done|by rewrite Hname]|].
    rewrite Hname. by apply (cycleMembers_spec qs t).
Qed.

(** ** The parts of a build *)

(** The reports of the linking and of the search for the root. *)
Definition structural quotas (rootName : string) : Violations :=
  ((Nodes (mkTree None (bare (objects quotas))) ≫= linkFaults (objects quotas))
   ++ reportCycles (linked (objects quotas)))
  ++ (Nodes (linked (objects quotas)) ≫= rootFaults rootName).

(** What [Build] returns: the linked tree over the objects, the depths from
    the root, and the reports of every check in turn, sorted. *)
Record built quotas (opts : Options) (t : Tree Q) (vs : Violations) : Prop := {
  bu_shaped : shaped (objects quotas) t;
  bu_positioned : positioned (objects quotas) (RootName opts) t;
  bu_root : Root t = rootOf (objects quotas) (RootName opts);
  bu_reports : ∃ dups,
    (dups = [] ↔ NoDup (QName <$> quotas))
    ∧ (∀ v, v ∈ dups → ∃ q, q ∈ quotas ∧ v = duplicate q)
    ∧ vs = sorted
        ((dups ++ structural quotas (RootName opts))
         ++ checkUnreachable t (dups ++ structural quotas (RootName opts))
         ++ checkDepth t (MaxDepth opts) ++ checkNodeKind t ++ checkContainment t);
}.

Lemma Build_returns_built quotas opts :
  RootName opts ≠ "" → ∃ t vs, Build quotas opts = Ok (t, vs) ∧ built quotas opts t vs.
Proof.
  intros Hr. unfold Build. rewrite decide_False by done.
  destruct (addQuota_loop quotas) as (dups & -> & Hd & Hdv).
  rewrite linkParents_linked by apply objects_keyed.
  destruct (resolveRoot_positioned (objects quotas) (RootName opts) (linked (objects quotas)))
    as (t & -> & S & P & R).
  { apply linked_shaped, objects_keyed. }
  { done. }
  { intros k n. rewrite linked_lookup. by intros (q & _ & ->)%fmap_Some. }
  eexists t, _. split; [reflexivity|]. split; [done..|].
  exists dups. split_and!; [done|done|]. unfold structural. rewrite <-!app_assoc. done.
Qed.

Lemma Build_inv quotas opts t vs :
  Build quotas opts = Ok (t, vs) → RootName opts ≠ "" ∧ built quotas opts t vs.
Proof.
  intros Hb. assert (RootName opts ≠ "") as Hr.
  { intros E. unfold Build in Hb. by rewrite decide_True in Hb. }
  destruct (Build_returns_built quotas opts Hr) as (t' & vs' & Hb' & B). rewrite Hb in Hb'.
  injection Hb' as <- <-. done.
Qed.
End assembly.

(** ** A well-formed fleet *)

Lemma bind_nil {A B} (f : A → list B) l : l ≫= f = [] ↔ ∀ x, x ∈ l → f x = [].
Proof.
  induction l as [|x l IH]; cbn; [set_solver|]. rewrite app_nil. change (list_bind _ _ f l) with (l ≫= f).
  rewrite IH. set_solver.
Qed.

Section descent.
Context {Q : Type} `{QuantityOps Q}.
Context (qs : gmap string (AcceleratorQuota Q)) (root : string).

(** [k]'s parent references lead to the reserved root in [d] steps. *)
Inductive descends : nat → string → Prop :=
| descends_root q : qs !! root = Some q → ParentRef (Spec q) = None → descends 0 root
| descends_child k q p d :
    qs !! k = Some q → ParentRef (Spec q) = Some p → descends d p → descends (S d) k.

Lemma descends_dom d k : descends d k → is_Some (qs !! k).
Proof. destruct 1; eauto. Qed.

(** No step leads back to where it came from. *)
Lemma descends_irrefl d k q : descends d k → qs !! k = Some q → ParentRef (Spec q) ≠ Some k.
Proof.
  induction d as [|d IH] in k, q |- *; inversion 1; subst; intros Hq Hp.
  - congruence.
  - match goal with H1 : qs !! k = Some ?q', H2 : ParentRef (Spec ?q') = Some ?p |- _ =>
      rewrite Hq in H1; injection H1 as <-; rewrite Hp in H2; injection H2 as <- end.
    by eapply IH.
Qed.

Lemma descends_parentOf k q p d :
  qs !! k = Some q → ParentRef (Spec q) = Some p → descends d p → parentOf qs k = Some p.
Proof.
  intros Hq Hp Hd. unfold parentOf. rewrite Hq, Hp, decide_True; [done|].
  split; [|by eapply descends_dom]. intros ->. by eapply descends_irrefl.
Qed.

Lemma descends_rooted d k : descends d k → rooted qs root d k.
Proof.
  induction 1 as [q Hq Hp|k q p d Hq Hp Hd [IH IHr]]; [split; eauto|]. split; [|done].
  cbn. by rewrite (descends_parentOf k q p d).
Qed.

(** A position is a line of references. *)
Lemma rooted_descends d k : rooted qs root d k → descends d k.
Proof.
  induction d as [|d IH] in k |- *; intros [Ha (q & Hq & Hp)].
  - cbn in Ha. injection Ha as ->. by eapply descends_root.
  - cbn in Ha. destruct (parentOf qs k) as [p|] eqn:E; [|done]. cbn in Ha.
    unfold parentOf in E. destruct (qs !! k) as [qk|] eqn:Ek; [|done].
    destruct (ParentRef (Spec qk)) as [r|] eqn:Er; [|done]. case_decide; [|done]. injection E as ->.
    eapply descends_child; [done|done|]. apply IH. split; eauto.
Qed.

Lemma rooted_ends d k : rooted qs root d k → above qs (S d) k = None.
Proof.
  intros [Ha (q & Hq & Hp)]. rewrite above_S_r, Ha. cbn. unfold parentOf. by rewrite Hq, Hp.
Qed.

Lemma rooted_unique d d' k : rooted qs root d k → rooted qs root d' k → d = d'.
Proof.
  intros R R'. destruct (Nat.lt_trichotomy d d') as [Hlt|[?|Hlt]]; [exfalso|done|exfalso].
  - destruct (above_loop qs d d' k root Hlt (proj1 R) (proj1 R') (S d')) as [? Hx].
    rewrite rooted_ends in Hx; done.
  - destruct (above_loop qs d' d k root Hlt (proj1 R') (proj1 R) (S d)) as [? Hx].
    rewrite rooted_ends in Hx; done.
Qed.
End descent.

Section structure.
Context {Q : Type} `{QuantityOps Q}.
Context (quotas : list (AcceleratorQuota Q)) (root : string).
Let qs := objects quotas.

(** The nodes of a linked tree carry the objects. *)
Lemma elem_of_linked_Nodes n :
  n ∈ Nodes (linked qs) → qs !! NodeName n = Some (Quota n).
Proof.
  pose proof (linked_shaped qs (objects_keyed quotas)) as S.
  rewrite elem_of_Nodes by (by eapply shaped_keyed). by intros (? & _)%(sh_node _ _ S).
Qed.

Lemma object_bare k q : qs !! k = Some q → mkNode q None [] (-1) ∈ Nodes (mkTree None (bare qs)).
Proof.
  intros Hq. apply elem_of_Nodes; [apply bare_keyed, objects_keyed|]. cbn. unfold bare.
  unfold NodeName. cbn. rewrite lookup_fmap, (objects_keyed quotas k q Hq).
  change (objects quotas) with qs. by rewrite Hq.
Qed.

Lemma object_linked k q :
  qs !! k = Some q → mkNode q (parentOf qs k) (childrenOf qs k) (-1) ∈ Nodes (linked qs).
Proof.
  intros Hq. apply elem_of_Nodes; [eapply shaped_keyed, linked_shaped, objects_keyed|].
  unfold NodeName. cbn [Quota]. rewrite linked_lookup, (objects_keyed quotas k q Hq).
  change (objects quotas) with qs. by rewrite Hq.
Qed.

Definition resolves : Prop := ∀ k q, qs !! k = Some q →
  (ParentRef (Spec q) = None → k = root)
  ∧ (∀ r, ParentRef (Spec q) = Some r → parentOf qs k = Some r).

Lemma structural_nil :
  structural quotas root = [] ↔
  resolves ∧ ∀ k, is_Some (qs !! k) → ∃ n, above qs n k = None.
Proof.
  pose proof (linked_shaped qs (objects_keyed quotas)) as S.
  unfold structural. rewrite !app_nil, !bind_nil. fold qs. split.
  - intros [[Hl Hc] Hr]. split.
    + intros k q Hq. pose proof (objects_keyed quotas k q Hq) as Hname. split.
      * intros Hp. specialize (Hr _ (object_linked k q Hq)). unfold rootFaults in Hr.
        cbn [Quota] in Hr. rewrite Hp in Hr. case_decide as Hd; [|done]. unfold NodeName in Hd.
        cbn in Hd. congruence.
      * intros r Hp. specialize (Hl _ (object_bare k q Hq)). unfold linkFaults, NodeName in Hl.
        cbn [Quota] in Hl. rewrite Hp, Hname in Hl. unfold parentOf. rewrite Hq, Hp.
        repeat case_decide; done || tauto.
    + intros k Hk. destruct (above_ends qs k Hk) as [?|Hall]; [eauto|exfalso].
      assert (k ∈ VNode <$> reportCycles (linked qs)) as Hin.
      { apply (elem_of_cycle_nodes qs); done. }
      rewrite Hc in Hin. set_solver.
  - intros [Hres Hends]. split; [split|].
    + intros n Hn. apply bare_quota in Hn; [|apply objects_keyed]. unfold linkFaults.
      destruct (ParentRef (Spec (Quota n))) as [ref|] eqn:Ep; [|done].
      destruct (Hres _ _ Hn) as [_ Hp]. apply Hp, parentOf_dom in Ep as (_ & ? & ?).
      by rewrite decide_False, decide_True.
    + destruct (reportCycles (linked qs)) as [|v vs] eqn:Ev; [done|exfalso].
      assert (VNode v ∈ VNode <$> reportCycles (linked qs)) as Hin by (rewrite Ev; set_solver).
      apply (elem_of_cycle_nodes qs) in Hin as [Hk Hall]; [|done].
      destruct (Hends _ Hk) as [n Hn]. destruct (Hall n) as [? Hx]. congruence.
    + intros n Hn%elem_of_linked_Nodes. unfold rootFaults.
      destruct (ParentRef (Spec (Quota n))) eqn:Ep; [done|].
      destruct (Hres _ _ Hn) as [Hroot _]. by rewrite decide_True by auto.
Qed.

(** The linking reports nothing exactly when every object's references lead
    to the reserved root. *)
Lemma structural_clean :
  structural quotas root = [] ↔ ∀ k, is_Some (qs !! k) → ∃ d, descends qs root d k.
Proof.
  rewrite structural_nil. split.
  - intros [Hres Hends] k Hk.
    assert (∃ d e, above qs d k = Some e ∧ parentOf qs e = None) as (d & e & Hd & He).
    { destruct (Hends k Hk) as [n Hn]. induction n as [|n IH]; [done|].
      destruct (above qs n k) as [e|] eqn:En; [|by apply IH].
      exists n, e. split; [done|]. rewrite above_S_r, En in Hn. exact Hn. }
    exists d. revert k Hk Hd. induction d as [|d IH]; intros k [q Hq] Hd; cbn in Hd.
    + injection Hd as ->. destruct (ParentRef (Spec q)) as [r|] eqn:Ep.
      * destruct (Hres _ _ Hq) as [_ Hp]. apply Hp in Ep. congruence.
      * pose proof (proj1 (Hres _ _ Hq) Ep) as ->. by eapply descends_root.
    + destruct (parentOf qs k) as [p|] eqn:Ep; [|done]. cbn in Hd.
      assert (ParentRef (Spec q) = Some p) as Hp.
      { unfold parentOf in Ep. rewrite Hq in Ep. destruct (ParentRef (Spec q)); [|done].
        by case_decide; simplify_eq. }
      eapply descends_child; [done|done|]. apply IH; [|done]. by apply parentOf_dom in Ep as (_ & ? & _).
  - intros Hall. split.
    + intros k q Hq. destruct (Hall k) as [d Hd]; [eauto|]. split.
      * intros Hp. destruct Hd as [|k q' p d Hq' Hp' _]; [done|]. congruence.
      * intros r Hp. destruct Hd as [q' Hq' Hp'|k q' p d Hq' Hp' Hd]; [congruence|].
        assert (p = r) as -> by congruence. by eapply descends_parentOf.
    + intros k [d Hd]%Hall. exists (S d). by apply (rooted_ends qs root), descends_rooted.
Qed.
End structure.

(** ** The authored rules *)

Section rules.
Context {Q : Type} `{QuantityOps Q} `{!QuantityLaws Q}.
Context (qs : gmap string (AcceleratorQuota Q)).

(** A leaf carries a budget and nothing names it as its parent; a grouping
    sets neither tier nor distribution, and its budgets hold no leaf fields. *)
Definition kind_ok (k : string) (q : AcceleratorQuota Q) : Prop :=
  (SpecRole (Spec q) = AcceleratorQuotaRoleClusterQueue
   ∧ Budgets (Spec q) ≠ [] ∧ ∀ c, parentOf qs c ≠ Some k)
  ∨ (SpecRole (Spec q) = AcceleratorQuotaRoleCohort
     ∧ PriorityTier (Spec q) = "" ∧ Distribution (Spec q) = None
     ∧ ∀ b, b ∈ Budgets (Spec q) → carriesLeafOnlyFields b = false).

Definition keyOf (b : AcceleratorBudget Q) : string := budgetKey (ResourceName b) (ResourceFlavor b).

(** The budgets of a node's children. *)
Definition budgetsBelow (k : string) : list (AcceleratorBudget Q) :=
  c ← childrenOf qs k; default [] ((λ q, Budgets (Spec q)) <$> qs !! c).

(** The sum of the numbers that budgets of a key denote. *)
Fixpoint nominalSum (key : string) (bs : list (AcceleratorBudget Q)) : Qc :=
  match bs with
  | [] => 0%Qc
  | b :: bs => if decide (keyOf b = key) then (q_value (Nominal b) + nominalSum key bs)%Qc
               else nominalSum key bs
  end.

(** A grouping's budget covers what its children are given of the same key. *)
Definition contains (k : string) (q : AcceleratorQuota Q) : Prop :=
  SpecRole (Spec q) ≠ AcceleratorQuotaRoleClusterQueue →
  ∀ b, b ∈ Budgets (Spec q) → (∃ b', b' ∈ budgetsBelow k ∧ keyOf b' = keyOf b) →
  (nominalSum (keyOf b) (budgetsBelow k) <= q_value (Nominal b))%Qc.

Lemma nominalSum_app key bs bs' :
  nominalSum key (bs ++ bs') = (nominalSum key bs + nominalSum key bs')%Qc.
Proof.
  induction bs as [|b bs IH]; cbn; [ring|]. rewrite IH. case_decide; ring.
Qed.

(** The running sums hold, per key, the sum of the nominals. *)
Lemma addNominal_sums bs key :
  match foldl addNominal ∅ bs !! key with
  | Some s => (∃ b, b ∈ bs ∧ keyOf b = key) ∧ q_value s = nominalSum key bs
  | None => ∀ b, b ∈ bs → keyOf b ≠ key
  end.
Proof.
  apply (foldl_ind addNominal (λ pre (m : gmap string Q), match m !! key with
    | Some s => (∃ b, b ∈ pre ∧ keyOf b = key) ∧ q_value s = nominalSum key pre
    | None => ∀ b, b ∈ pre → keyOf b ≠ key end)).
  { rewrite lookup_empty. set_solver. }
  intros pre b post m _ IH. rewrite nominalSum_app. cbn [nominalSum]. unfold addNominal.
  fold (keyOf b). destruct (decide (keyOf b = key)) as [<-|Hne].
  - destruct (m !! keyOf b) as [s|]; rewrite lookup_insert_eq.
    + destruct IH as [_ IH]. split; [exists b; set_solver|]. rewrite law_Add, IH. ring.
    + split; [exists b; set_solver|].
      assert (nominalSum (keyOf b) pre = 0%Qc) as ->; [|ring].
      clear -IH. induction pre as [|x pre IHp]; cbn; [done|].
      rewrite decide_False by (apply IH; set_solver). apply IHp. set_solver.
  - assert ((match m !! keyOf b with Some cur => <[keyOf b := q_Add cur (Nominal b)]> m
      | None => <[keyOf b := Nominal b]> m end) !! key = m !! key) as ->.
    { destruct (m !! keyOf b); by rewrite lookup_insert_ne. }
    destruct (m !! key) as [s|].
    + destruct IH as [(b' & ? & ?) ->]. split; [exists b'; set_solver|ring].
    + set_solver.
Qed.

Context (t : Tree Q) (S : shaped qs t).

Lemma childBudgets_below k n : nodes t !! k = Some n → childBudgets t n = budgetsBelow k.
Proof.
  intros Hn. destruct (sh_node _ _ S k n Hn) as (_ & _ & Hc).
  unfold childBudgets, budgetsBelow. rewrite Hc. apply list_bind_ext; [|done].
  intros c. destruct (nodes t !! c) as [m|] eqn:Em.
  - by apply (sh_node _ _ S) in Em as (-> & _).
  - cbn. destruct (qs !! c) eqn:Eq; [|done]. exfalso.
    destruct (proj2 (sh_dom _ _ S c)) as [? ?]; [eauto|congruence].
Qed.

Lemma over_Nodes (P : string → Node Q → Prop) :
  (∀ n, n ∈ Nodes t → P (NodeName n) n) ↔ ∀ k n, nodes t !! k = Some n → P k n.
Proof.
  pose proof (shaped_keyed _ _ S) as Hk. split.
  - intros Hall k n Hn. pose proof (Hk k n Hn) as <-. apply Hall, elem_of_Nodes; done.
  - intros Hall n Hn%elem_of_Nodes; [|done]. by apply Hall.
Qed.

Lemma over_objects (P : string → AcceleratorQuota Q → Prop) :
  (∀ k n, nodes t !! k = Some n → P k (Quota n)) ↔ ∀ k q, qs !! k = Some q → P k q.
Proof.
  split.
  - intros Hall k q Hq. destruct (proj2 (sh_dom _ _ S k)) as [n Hn]; [eauto|].
    pose proof (sh_node _ _ S k n Hn) as (Hq' & _). assert (q = Quota n) as -> by congruence.
    by apply Hall.
  - intros Hall k n (Hq & _)%(sh_node _ _ S). by apply Hall.
Qed.

Lemma checkDepth_nil maxDepth :
  checkDepth t maxDepth = [] ↔
  (0 < maxDepth → ∀ k n, nodes t !! k = Some n → Depth n ≤ maxDepth).
Proof.
  unfold checkDepth. case_decide; [split; [lia|done]|].
  rewrite bind_nil, (over_Nodes (λ _ n, (if decide (maxDepth < Depth n) then _ else _) = [])).
  split.
  - intros Hall _ k n Hn. specialize (Hall k n Hn). case_decide; [done|lia].
  - intros Hall k n Hn. rewrite decide_False; [done|]. specialize (Hall ltac:(lia) k n Hn). lia.
Qed.

Lemma childrenOf_nil k : childrenOf qs k = [] ↔ ∀ c, parentOf qs c ≠ Some k.
Proof.
  split.
  - intros Hc c Hp%elem_of_childrenOf. rewrite Hc in Hp. set_solver.
  - intros Hall. destruct (childrenOf qs k) as [|c l] eqn:E; [done|exfalso].
    apply (Hall c), elem_of_childrenOf. rewrite E. set_solver.
Qed.

Lemma checkCohortNode_nil (n : Node Q) :
  checkCohortNode n = [] ↔
  PriorityTier (Spec (Quota n)) = "" ∧ Distribution (Spec (Quota n)) = None
  ∧ ∀ b, b ∈ Budgets (Spec (Quota n)) → carriesLeafOnlyFields b = false.
Proof.
  unfold checkCohortNode. rewrite app_nil, bind_nil.
  assert ((∀ b, b ∈ Budgets (Spec (Quota n)) → (if carriesLeafOnlyFields b then
    [violation (NodeName n) AcceleratorQuotaReasonNodeKindInvalid (keyOf b)
      "budget %s carries leaf-only fields; a Cohort budget is an authoring guardrail that never materializes, so it holds only resourceName, resourceFlavor, and nominal"
      [AStr (keyOf b)]] else []) = []) ↔
    ∀ b, b ∈ Budgets (Spec (Quota n)) → carriesLeafOnlyFields b = false) as Hb.
  { split; intros Hall b Hin; specialize (Hall b Hin); destruct (carriesLeafOnlyFields b); done. }
  setoid_rewrite Hb. repeat case_decide; cbn; naive_solver.
Qed.

Lemma checkNodeKind_nil :
  checkNodeKind t = [] ↔ ∀ k q, qs !! k = Some q → kind_ok k q.
Proof.
  unfold checkNodeKind. rewrite bind_nil.
  rewrite <-(over_objects kind_ok).
  rewrite (over_Nodes (λ _ n, (if decide (NodeRole n = AcceleratorQuotaRoleClusterQueue)
    then checkClusterQueueNode n else if decide (NodeRole n = AcceleratorQuotaRoleCohort)
    then checkCohortNode n else [violation (NodeName n) AcceleratorQuotaReasonNodeKindInvalid ""
      "unknown role %q" [AStr (NodeRole n)]]) = [])).
  apply forall_proper; intros k. apply forall_proper; intros n.
  split; intros Hk Hn; specialize (Hk Hn); revert Hk; unfold kind_ok, NodeRole;
    destruct (sh_node _ _ S k n Hn) as (_ & _ & Hc).
  - case_decide as Hr; [|case_decide as Hr2; [|done]].
    + intros Hcq. left. unfold checkClusterQueueNode in Hcq. apply app_nil in Hcq as [Hch Hb].
      apply fmap_nil_inv in Hch. rewrite Hc, childrenOf_nil in Hch. case_decide; done.
    + intros ?%checkCohortNode_nil. right. done.
  - intros [(Hr & Hb & Hch)|(Hr & Hrest)].
    + rewrite decide_True by done. unfold checkClusterQueueNode.
      apply childrenOf_nil in Hch. rewrite Hc, Hch. cbn. by rewrite decide_False.
    + rewrite Hr, decide_False, decide_True by done. by apply checkCohortNode_nil.
Qed.

Lemma Cmp_covers a b : (q_Cmp a b < 0) ↔ ¬ (q_value b <= q_value a)%Qc.
Proof.
  rewrite law_Cmp. destruct (q_value a ?= q_value b)%Qc eqn:E; cbn.
  - apply Qceq_alt in E. rewrite E. split; [lia|]. intros Hn. destruct Hn. apply Qcle_refl.
  - apply (proj2 (Qclt_alt _ _)) in E. split; [intros _; by apply Qclt_not_le|lia].
  - apply (proj2 (Qcgt_alt _ _)) in E. split; [lia|]. intros Hn. destruct Hn. by apply Qclt_le_weak.
Qed.

(** The reports of one node's containment. *)
Definition containmentFaults (k : string) (n : Node Q) : Violations :=
  if IsLeaf n || Nat.eqb (length (Children n)) 0 || Nat.eqb (length (Budgets (Spec (Quota n)))) 0
  then []
  else
    b ← Budgets (Spec (Quota n));
    match foldl addNominal ∅ (childBudgets t n) !! keyOf b with
    | None => []
    | Some sum =>
        if decide (q_Cmp (Nominal b) sum < 0) then
          [violation (NodeName n) AcceleratorQuotaReasonContainmentViolated (keyOf b)
             "budget %s is %s but its children total %s"
             [AStr (keyOf b); AStr (q_String (Nominal b)); AStr (q_String sum)]]
        else []
    end.

Lemma containmentFaults_nil k n :
  nodes t !! k = Some n → (containmentFaults k n = [] ↔ contains k (Quota n)).
Proof.
  intros Hn. destruct (sh_node _ _ S k n Hn) as (_ & _ & Hc).
  unfold containmentFaults, contains. rewrite (childBudgets_below k n Hn), Hc.
  unfold IsLeaf. destruct (decide (SpecRole (Spec (Quota n)) = AcceleratorQuotaRoleClusterQueue)).
  { rewrite bool_decide_true by done. cbn. split; [congruence|done]. }
  rewrite bool_decide_false by done. cbn [orb].
  destruct (childrenOf qs k) as [|c cs] eqn:Ec.
  { cbn. unfold budgetsBelow. rewrite Ec. cbn. split; [|done]. intros _ _ b _ (b' & Hb' & _). set_solver. }
  cbn [length Nat.eqb orb].
  destruct (Budgets (Spec (Quota n))) as [|b bs] eqn:Eb; [split; [set_solver|done]|].
  cbn [length Nat.eqb]. rewrite bind_nil. split.
  - intros Hall _ x Hx (b' & Hb' & Hk'). specialize (Hall x Hx).
    pose proof (addNominal_sums (budgetsBelow k) (keyOf x)) as Hs.
    destruct (foldl addNominal ∅ (budgetsBelow k) !! keyOf x) as [s|].
    + destruct Hs as [_ <-]. case_decide as Hd; [done|]. rewrite Cmp_covers in Hd.
      destruct (Qclt_le_dec (q_value (Nominal x)) (q_value s)); [|done].
      exfalso. apply Hd. by apply Qclt_not_le.
    + by destruct (Hs b' Hb').
  - intros Hall x Hx. pose proof (addNominal_sums (budgetsBelow k) (keyOf x)) as Hs.
    destruct (foldl addNominal ∅ (budgetsBelow k) !! keyOf x) as [s|]; [|done].
    destruct Hs as [Hex Hsum]. rewrite decide_False; [done|]. rewrite Cmp_covers, Hsum.
    intros Hn'. by destruct Hn'; apply Hall.
Qed.

Lemma checkContainment_nil :
  checkContainment t = [] ↔ ∀ k q, qs !! k = Some q → contains k q.
Proof.
  change (checkContainment t) with (Nodes t ≫= λ n, containmentFaults (NodeName n) n).
  rewrite bind_nil, <-(over_objects contains), (over_Nodes (λ k n, containmentFaults k n = [])).
  apply forall_proper; intros k. apply forall_proper; intros n.
  split; intros Hk Hn; specialize (Hk Hn); by apply (containmentFaults_nil k n Hn).
Qed.
End rules.

(** ** The build *)

(** A fleet the plane accepts: unique names; every object's parent references
    lead to the one reserved root, which has none, within the depth limit;
    leaves and groupings as their roles ask; and every grouping's budget covers
    its children's. *)
Record well_formed {Q} `{QuantityOps Q} (quotas : list (AcceleratorQuota Q)) (opts : Options) : Prop := {
  wf_unique : NoDup (QName <$> quotas);
  wf_rooted : ∀ k, is_Some (objects quotas !! k) →
    ∃ d, descends (objects quotas) (RootName opts) d k
      ∧ (0 < MaxDepth opts → Z.of_nat d ≤ MaxDepth opts);
  wf_kinds : ∀ k q, objects quotas !! k = Some q → kind_ok (objects quotas) k q;
  wf_budgets : ∀ k q, objects quotas !! k = Some q → contains (objects quotas) k q;
}.

Section build.
Context {Q : Type} `{QuantityOps Q} `{!QuantityLaws Q}.
Implicit Types quotas : list (AcceleratorQuota Q).

Lemma positioned_depth quotas opts (t : Tree Q) k n d :
  positioned (objects quotas) (RootName opts) t → nodes t !! k = Some n →
  rooted (objects quotas) (RootName opts) d k → Depth n = Z.of_nat d.
Proof.
  intros P Hn Hr. destruct (P k n Hn) as [[_ Hno]|(d' & -> & Hr')]; [by destruct (Hno d)|].
  by rewrite (rooted_unique _ _ d d' k Hr Hr').
Qed.

Lemma checkUnreachable_nil (t : Tree Q) found :
  (∀ n, n ∈ Nodes t → Reachable n = true) → checkUnreachable t found = [].
Proof. intros Hall. unfold checkUnreachable. apply bind_nil. intros n Hn. by rewrite Hall. Qed.

Lemma built_clean quotas opts t vs :
  built quotas opts t vs → (vs = [] ↔ well_formed quotas opts).
Proof.
  intros [S P _ (dups & Hd & _ & ->)]. rewrite sorted_nil, !app_nil, Hd, structural_clean.
  rewrite checkDepth_nil, checkNodeKind_nil, checkContainment_nil by done. split.
  - intros ((Hu & Hr) & _ & Hdep & Hk & Hc). split; [done| |done|done].
    intros k Hs. destruct (Hr k Hs) as [d Hdd]. exists d. split; [done|]. intros Hpos.
    destruct (proj2 (sh_dom _ _ S k) Hs) as [n Hn].
    rewrite <-(positioned_depth quotas opts t k n d P Hn) by (by apply descends_rooted).
    by apply (Hdep Hpos k).
  - intros [Hu Hr Hk Hc].
    assert (∀ k n, nodes t !! k = Some n → ∃ d, Depth n = Z.of_nat d
      ∧ (0 < MaxDepth opts → Z.of_nat d ≤ MaxDepth opts)) as Hdep.
    { intros k n Hn. destruct (Hr k) as (d & Hdd & Hmax); [apply (sh_dom _ _ S); eauto|].
      exists d. split; [|done]. eapply positioned_depth; [done|done|by apply descends_rooted]. }
    split_and!; [done|intros k Hs; destruct (Hr k Hs) as (d & ? & _); eauto| |
      |done|done].
    + apply checkUnreachable_nil. intros n Hn%elem_of_Nodes; [|by eapply shaped_keyed].
      destruct (Hdep _ _ Hn) as (d & Hdd & _). unfold Reachable. lia.
    + intros Hpos k n Hn. destruct (Hdep _ _ Hn) as (d & -> & Hmax). auto.
Qed.
End build.

(** ** Freezing *)

Lemma fill_lookup {V} (c : V) (l : list string) (m : gmap string V) x :
  foldl (λ m d, if decide (is_Some (m !! d)) then m else <[d := c]> m) m l !! x
  = match m !! x with Some v => Some v | None => if decide (x ∈ l) then Some c else None end.
Proof.
  revert m. induction l as [|d l IH]; intros m; cbn [foldl].
  { destruct (m !! x); [done|]. by rewrite decide_False by set_solver. }
  rewrite IH. destruct (decide (is_Some (m !! d))) as [Hd|Hd].
  - destruct (m !! x) eqn:Ex; [done|].
    assert (d ≠ x) by (intros ->; rewrite Ex in Hd; by destruct Hd).
    erewrite decide_ext; [reflexivity|]. set_solver.
  - destruct (decide (d = x)) as [->|Hne].
    + rewrite lookup_insert_eq. apply eq_None_not_Some in Hd. rewrite Hd.
      by rewrite decide_True by set_solver.
    + rewrite lookup_insert_ne by done. destruct (m !! x); [done|].
      erewrite decide_ext; [reflexivity|]. set_solver.
Qed.

Section frozen.
Context {Q : Type} `{QuantityOps Q}.
Context (t : Tree Q) (vs : Violations).

(** The violation a node reports for itself. *)
Definition ownCause (k : string) : Violation := Primary (ForNode vs k).

(** What [Frozen] holds: a node's own cause, or that of the first node by
    name, among those that violate, whose subtree it is in. *)
Lemma Frozen_lookup d :
  Frozen t vs !! d
  = if decide (d ∈ VNodes vs) then Some (ownCause d)
    else (λ p, ownCause (snd p)) <$> list_find (λ a, d ∈ Subtree t a) (VNodes vs).
Proof.
  unfold Frozen. set (own := foldl _ ∅ (VNodes vs)).
  assert (∀ k, own !! k = if decide (k ∈ VNodes vs) then Some (ownCause k) else None) as Hown.
  { intros k. unfold own. by rewrite (foldl_insert_lookup ownCause). }
  refine (foldl_ind _ (λ pre (m : gmap string Violation), ∀ d, m !! d
    = if decide (d ∈ VNodes vs) then Some (ownCause d)
      else (λ p, ownCause (snd p)) <$> list_find (λ a, d ∈ Subtree t a) pre)
    own (VNodes vs) _ _ d).
  { intros x. rewrite Hown. by case_decide. }
  clear d. intros pre a post m Heq IH d. rewrite fill_lookup, IH.
  assert (a ∈ VNodes vs) as Ha by (rewrite Heq; set_solver).
  pose proof (IH a) as Hma. rewrite decide_True in Hma by done. rewrite Hma.
  case_decide as Hd; [done|]. cbn [from_option id].
  destruct (list_find (λ a, d ∈ Subtree t a) pre) as [[i x]|] eqn:Ef; cbn [fmap option_fmap option_map].
  - by erewrite list_find_app_l.
  - rewrite list_find_app_r by done. cbn. case_decide; done.
Qed.
End frozen.

Section freezing.
Context {Q : Type} `{QuantityOps Q} `{!QuantityLaws Q}.
Context (quotas : list (AcceleratorQuota Q)) (opts : Options) (t : Tree Q) (vs : Violations).
Context (B : built quotas opts t vs).
Let qs := objects quotas.

(** A node without a position carries a violation of its own. *)
Lemma unreachable_reported k n :
  nodes t !! k = Some n → Reachable n = false → ∃ v, v ∈ vs ∧ VNode v = k.
Proof.
  intros Hn Hr. pose proof (bu_shaped _ _ _ _ B) as S. pose proof (shaped_keyed _ _ S k n Hn) as Hname.
  destruct (bu_reports _ _ _ _ B) as (dups & _ & _ & ->). setoid_rewrite elem_of_sorted.
  set (found := dups ++ structural quotas (RootName opts)).
  destruct (decide (k ∈ VNodes found)) as [Hf|Hf].
  { apply elem_of_VNodes in Hf as (_ & v & Hv & ?). exists v. set_solver. }
  set (un := checkUnreachable t found).
  assert (∃ v, v ∈ un ∧ VNode v = k) as (v & Hv & ?); [|exists v; set_solver].
  unfold un, checkUnreachable. set (cause := default k (snd <$> list_find (λ a,
    a ∈ (list_to_set (VNodes found) : gset string)) (Ancestors t k))).
  exists (violation k AcceleratorQuotaReasonUnreachable cause
    "node has no position in the tree because ancestor %q is unresolved" [AStr cause]).
  split; [|done]. apply list_elem_of_bind. exists n. split.
  - rewrite Hr, Hname, decide_False by (by rewrite elem_of_list_to_set). set_solver.
  - apply elem_of_Nodes; [by eapply shaped_keyed|by rewrite Hname].
Qed.

Lemma Subtree_under a d : is_Some (qs !! d) → (d ∈ Subtree t a ↔ under qs a d).
Proof.
  intros Hd. pose proof (bu_shaped _ _ _ _ B) as S.
  destruct (qs !! a) as [q|] eqn:Ea.
  - rewrite (elem_of_Subtree qs t S) by (fold qs; rewrite Ea; eauto). tauto.
  - unfold Subtree. destruct (nodes t !! a) as [n|] eqn:En.
    + exfalso. assert (is_Some (qs !! a)) as [? ?] by (apply (sh_dom _ _ S); eauto). congruence.
    + split; [set_solver|]. intros [n Hn]. apply above_dom in Hn as [? ?]; [congruence|done].
Qed.

(** The frozen nodes are those under a node that violates. *)
Lemma Frozen_under d :
  is_Some (qs !! d) →
  is_Some (Frozen t vs !! d) ↔ ∃ a, a ∈ VNodes vs ∧ under qs a d.
Proof.
  intros Hd. rewrite Frozen_lookup. case_decide as Hin.
  - split; [|eauto]. intros _. exists d. split; [done|apply under_refl].
  - rewrite fmap_is_Some. split.
    + intros [[i a] (Hi & Ha & _)%list_find_Some]. exists a. split; [|by apply Subtree_under].
      apply list_elem_of_lookup. eauto.
    + intros (a & Ha & Hu). apply (list_find_elem_of _ _ a); [done|]. by apply Subtree_under.
Qed.

Context (Hnames : "" ∉ QName <$> quotas).

Lemma object_named a : is_Some (qs !! a) → a ≠ "".
Proof. intros Ha ->. by apply objects_dom in Ha. Qed.

(** Above a node that is not frozen nothing is reported. *)
Lemma unfrozen_clear k a v :
  is_Some (qs !! k) → Frozen t vs !! k = None → under qs a k → v ∈ vs → VNode v ≠ a.
Proof.
  intros Hk Hf Hu Hv E. assert (is_Some (Frozen t vs !! k)) as [? ?]; [|congruence].
  apply Frozen_under; [done|]. exists a. split; [|done].
  destruct Hu as [i Hi]. apply elem_of_VNodes. split; [|eauto].
  apply object_named. by eapply above_dom.
Qed.

(** A node that is not frozen has a position. *)
Lemma unfrozen_reachable k n : nodes t !! k = Some n → Frozen t vs !! k = None → Reachable n = true.
Proof.
  intros Hn Hf. destruct (Reachable n) eqn:Er; [done|exfalso].
  destruct (unreachable_reported k n Hn Er) as (v & Hv & Hvk).
  eapply unfrozen_clear; [|exact Hf|apply under_refl|exact Hv|exact Hvk].
  apply (sh_dom _ _ (bu_shaped _ _ _ _ B)). eauto.
Qed.

(** The node above one that is not frozen is not frozen. *)
Lemma unfrozen_above k a :
  is_Some (qs !! k) → Frozen t vs !! k = None → under qs a k → Frozen t vs !! a = None.
Proof.
  intros Hk Hf [i Hi]. apply eq_None_not_Some.
  intros (b & [_ (v & Hv & E)]%elem_of_VNodes & Hu)%Frozen_under; [|by eapply above_dom].
  eapply (unfrozen_clear k b v); [done|done| |done|done].
  eapply under_trans; [exact Hu|]. by exists i.
Qed.
End freezing.

(** ** The properties *)

(** A grouping over two leaves. *)
Definition sample_budget (n : Z) : AcceleratorBudget decimal :=
  mkBudget "tpu" "v5" "" (dec n) None None [].
Definition sample_quota (name role : string) (parent : option string) (n : Z)
    : AcceleratorQuota decimal :=
  mkQuota name name 1 ∅ ∅ (mkSpec role parent "" None [sample_budget n]).
Definition sample_fleet : list (AcceleratorQuota decimal) :=
  [sample_quota "b" "ClusterQueue" (Some "org") 3; sample_quota "root" "Cohort" None 8;
   sample_quota "org" "Cohort" (Some "root") 4; sample_quota "a" "ClusterQueue" (Some "org") 1].

(** C16: [Build] returns a tree and reports nothing exactly when the objects are
    a well-formed fleet; with a configured root name it never fails. *)
Theorem Build_clean_iff {Q} `{QuantityOps Q} `{!QuantityLaws Q}
    (quotas : list (AcceleratorQuota Q)) opts :
  RootName opts ≠ "" →
  ∃ t vs, Build quotas opts = Ok (t, vs) ∧ (vs = [] ↔ well_formed quotas opts).
Proof.
  intros Hr. destruct (Build_returns_built quotas opts Hr) as (t & vs & Hb & B).
  exists t, vs. split; [done|]. by apply (built_clean _ _ t).
Qed.

Lemma Build_clean_iff_witness :
  ∃ t vs, Build sample_fleet (mkOptions "root" 3) = Ok (t, vs)
    ∧ (vs = [] ↔ well_formed sample_fleet (mkOptions "root" 3)).
Proof. apply (Build_clean_iff sample_fleet (mkOptions "root" 3)). done. Defined.

(** Every object keeps a node, whatever is broken, and a node's depth is
    the number of parent references from it to the reserved root, [-1] exactly
    when they do not lead there.  The first object of a name is the node's. *)
Theorem Build_depths {Q} `{QuantityOps Q} (quotas : list (AcceleratorQuota Q)) opts t vs :
  Build quotas opts = Ok (t, vs) →
  (∀ k, is_Some (nodes t !! k) ↔ k ∈ QName <$> quotas)
  ∧ ∀ k n, nodes t !! k = Some n →
      objects quotas !! k = Some (Quota n)
      ∧ (∀ d, Depth n = Z.of_nat d ↔ rooted (objects quotas) (RootName opts) d k)
      ∧ (Depth n = -1 ↔ ∀ d, ¬ rooted (objects quotas) (RootName opts) d k).
Proof.
  intros (_ & [S P _ _])%Build_inv. split.
  { intros k. by rewrite (sh_dom _ _ S), objects_dom. }
  intros k n Hn. split; [by apply (sh_node _ _ S)|].
  destruct (P k n Hn) as [[Hd Hno]|(d' & Hd & Hr)].
  - split; [|done]. intros d. split; [lia|]. by intros ?%Hno.
  - split.
    + intros d. split; [intros ?; by assert (d = d') as -> by lia|].
      intros Hr'. by rewrite (rooted_unique _ _ d d' k Hr' Hr).
    + split; [lia|]. intros Hno. by destruct (Hno d').
Qed.

Lemma Build_depths_witness :
  ∃ t vs, Build sample_fleet (mkOptions "root" 3) = Ok (t, vs) ∧ vs = []
    ∧ (∀ k, is_Some (nodes t !! k) ↔ k ∈ QName <$> sample_fleet).
Proof.
  eexists _, _. split; [vm_compute; reflexivity|]. split; [reflexivity|].
  eapply (Build_depths sample_fleet (mkOptions "root" 3)). vm_compute. reflexivity.
Defined.

(** C18: freezing is safe.  A node that is not frozen has a position, and every
    node above it up to the root is not frozen either and breaks no rule: no
    node materializes under a parent that does not. *)
Theorem Frozen_safe {Q} `{QuantityOps Q} `{!QuantityLaws Q}
    (quotas : list (AcceleratorQuota Q)) opts t vs k n :
  Build quotas opts = Ok (t, vs) → ("" ∉ QName <$> quotas) →
  nodes t !! k = Some n → Frozen t vs !! k = None →
  Reachable n = true
  ∧ ∀ i a, above (objects quotas) i k = Some a →
      Frozen t vs !! a = None ∧ ForNode vs a = [].
Proof.
  intros (_ & B)%Build_inv Hne Hn Hf. pose proof (bu_shaped _ _ _ _ B) as S.
  assert (is_Some (objects quotas !! k)) as Hk by (apply (sh_dom _ _ S); eauto).
  split; [by eapply unfrozen_reachable|]. intros i a Ha. assert (under (objects quotas) a k) as Hu by (by exists i).
  split; [by eapply (unfrozen_above quotas opts t vs B Hne k)|].
  destruct (ForNode vs a) as [|v l] eqn:E; [done|exfalso].
  assert (v ∈ ForNode vs a) as [Hv Hva]%elem_of_ForNode by (rewrite E; set_solver).
  by eapply (unfrozen_clear quotas opts t vs B Hne k a v).
Qed.

(** A grouping over its budget: the root and a sibling stay clear. *)
Definition overrun_fleet : list (AcceleratorQuota decimal) :=
  sample_fleet ++ [sample_quota "c" "ClusterQueue" (Some "org") 9;
                   sample_quota "other" "ClusterQueue" (Some "root") 2].

Lemma Frozen_safe_witness :
  ∃ t vs n, Build overrun_fleet (mkOptions "root" 3) = Ok (t, vs) ∧ vs ≠ []
    ∧ nodes t !! "other" = Some n ∧ Reachable n = true.
Proof.
  eexists _, _, _. split; [vm_compute; reflexivity|]. split; [done|]. split; [vm_compute; reflexivity|].
  eapply (Frozen_safe overrun_fleet (mkOptions "root" 3) _ _ "other");
    [vm_compute; reflexivity|apply (bool_decide_unpack _); vm_compute; exact I
    |vm_compute; reflexivity|vm_compute; reflexivity].
Defined.

(** The reasons, the most urgent first, and a finding that is more urgent than another. *)
Definition urgency : list string :=
  ["ParentMissing"; "ParentCycle"; "Unreachable"; "DuplicateNode"; "NodeKindInvalid"; "DepthExceeded";
   "ContainmentViolated"; "ShareUnresolved"].
Definition moreUrgent (w v : Violation) : Prop :=
  ∃ i, urgency !! i = Some (VReason w) ∧ ∀ j, (j ≤ i)%nat → urgency !! j ≠ Some (VReason v).

Lemma rankOf_position r :
  (∃ i, urgency !! i = Some r ∧ rankOf r = Z.of_nat i) ∨ ((∀ i, urgency !! i ≠ Some r) ∧ rankOf r = 8).
Proof.
  destruct (decide (r ∈ urgency)) as [[i Hi]%list_elem_of_lookup|Hr].
  - left. exists i. split; [done|]. do 8 (destruct i as [|i]; [by injection Hi as <-|]). done.
  - right. split; [intros i Hi; apply Hr; by eapply list_elem_of_lookup_2|].
    unfold rankOf. destruct (reasonRank !! r) as [x|] eqn:E; [|done]. exfalso. apply Hr.
    apply elem_of_list_to_map_2 in E. unfold urgency. set_solver.
Qed.

Lemma moreUrgent_rank w v : moreUrgent w v → rankOf (VReason w) < rankOf (VReason v).
Proof.
  intros (i & Hi & Hno). assert (i < 8)%nat as Hlt by (by apply lookup_lt_Some in Hi).
  assert (rankOf (VReason w) = Z.of_nat i) as ->.
  { revert Hi. do 8 (destruct i as [|i]; [by intros [= <-]|]). done. }
  destruct (rankOf_position (VReason v)) as [(j & Hj & ->)|[_ ->]]; [|lia].
  destruct (decide (j ≤ i)%nat) as [Hle|]; [by destruct (Hno j Hle)|lia].
Qed.

Lemma Primary_urgent vs v : v = Primary vs → vs ≠ [] → v ∈ vs ∧ ∀ w, w ∈ vs → ¬ moreUrgent w v.
Proof.
  intros -> Hne. split; [by apply Primary_in|]. intros w Hw Hu%moreUrgent_rank. revert Hu. unfold Primary.
  destruct vs as [|b vs]; [done|]. cbn [foldl betterOf]. destruct (betterOf_run b vs) as (p & -> & _ & Hb & Hall). cbn.
  apply elem_of_cons in Hw as [->|Hw]; [lia|]. specialize (Hall w Hw). lia.
Qed.

(** C22: which finding a frozen node reports.  A node is frozen exactly when it, or a
    node it is under, is the subject of a finding.  A node that is the subject of a
    finding reports one of its own; any other reports one of the first node by name
    among the nodes above it that are the subject of one, whether or not a nearer
    one is; and of the findings about the node it reports, never one while there is
    a more urgent one. *)
Theorem Frozen_cause {Q} `{QuantityOps Q} `{!QuantityLaws Q}
    (quotas : list (AcceleratorQuota Q)) opts t vs k :
  Build quotas opts = Ok (t, vs) → ("" ∉ QName <$> quotas) → k ∈ QName <$> quotas →
  (is_Some (Frozen t vs !! k) ↔ ∃ w, w ∈ vs ∧ under (objects quotas) (VNode w) k) ∧
  ∀ v, Frozen t vs !! k = Some v →
    v ∈ vs ∧ under (objects quotas) (VNode v) k ∧
    (∀ w, w ∈ vs → VNode w = VNode v → ¬ moreUrgent w v) ∧
    ((∃ w, w ∈ vs ∧ VNode w = k) → VNode v = k) ∧
    ((¬ ∃ w, w ∈ vs ∧ VNode w = k) → ∀ w, w ∈ vs → under (objects quotas) (VNode w) k →
       VNode w = VNode v ∨ str_lt (VNode v) (VNode w) = true).
Proof.
  intros (_ & B)%Build_inv Hne Hk. apply objects_dom in Hk.
  assert (∀ w, w ∈ vs → under (objects quotas) (VNode w) k → VNode w ∈ VNodes vs) as Hnodes.
  { intros w Hw [i Hi]. apply elem_of_VNodes. split; [|eauto]. eapply object_named; [exact Hne|]. by eapply above_dom. }
  assert (∀ a v, a ∈ VNodes vs → v = Primary (ForNode vs a) →
    v ∈ vs ∧ VNode v = a ∧ ∀ w, w ∈ vs → VNode w = VNode v → ¬ moreUrgent w v) as Hprim.
  { intros a v [_ (w & Hw & Ea)]%elem_of_VNodes Ev. apply Primary_urgent in Ev as [[Hv Eva]%elem_of_ForNode Hu].
    - split; [done|]. split; [done|]. intros w' Hw' E'. apply Hu, elem_of_ForNode. split; [done|congruence].
    - intros E. apply (not_elem_of_nil w). rewrite <-E. by apply elem_of_ForNode. }
  split.
  { rewrite (Frozen_under quotas opts t vs B k Hk). split.
    - intros (a & [_ (w & Hw & <-)]%elem_of_VNodes & Hu). eauto.
    - intros (w & Hw & Hu). exists (VNode w). split; [by apply Hnodes|done]. }
  intros v. rewrite Frozen_lookup. case_decide as Hin.
  { intros [= <-]. destruct (Hprim k _ Hin eq_refl) as (Hv & Ev & Hu). unfold ownCause. rewrite Ev in *.
    split; [done|]. split; [apply under_refl|]. split; [done|]. split; [done|]. intros Hno.
    apply elem_of_VNodes in Hin as [_ ?]. done. }
  intros ([i a] & Hf & ->)%fmap_Some. apply list_find_Some in Hf as (Hi & Ha & Hfirst). cbn [snd]. unfold ownCause.
  destruct (Hprim a _ ltac:(by eapply list_elem_of_lookup_2) eq_refl) as (Hv & Ev & Hu). rewrite Ev in *.
  rewrite (Subtree_under quotas opts t vs B a k Hk) in Ha.
  split; [done|]. split; [done|]. split; [done|]. split.
  { intros (w & Hw & E). destruct Hin. rewrite <-E. apply Hnodes; [done|]. rewrite E. apply under_refl. }
  intros _ w Hw Hwk. pose proof (Hnodes w Hw Hwk) as [j Hj]%list_elem_of_lookup.
  assert (¬ j < i)%nat as Hge.
  { intros Hlt. apply (Hfirst j _ Hj Hlt). by apply (Subtree_under quotas opts t vs B (VNode w) k Hk). }
  destruct (decide (i = j)) as [->|]; [left; congruence|right].
  apply (StronglySorted_lookup_lt _ _ i j _ _ (VNodes_sorted vs)); [done|done|lia].
Qed.

(** Two groupings over their budgets, one inside the other: ["z"] is under ["b"],
    which violates, and reports ["a"], which is above ["b"]. *)
Definition nested_fleet : list (AcceleratorQuota decimal) :=
  [sample_quota "root" "Cohort" None 8; sample_quota "a" "Cohort" (Some "root") 1;
   sample_quota "b" "Cohort" (Some "a") 2; sample_quota "z" "ClusterQueue" (Some "b") 5].

Lemma Frozen_cause_witness :
  ∃ t vs v, Build nested_fleet (mkOptions "root" 5) = Ok (t, vs)
    ∧ parentOf (objects nested_fleet) "z" = Some "b" ∧ VNodes vs = ["a"; "b"]
    ∧ Frozen t vs !! "z" = Some v ∧ VNode v = "a" ∧ under (objects nested_fleet) (VNode v) "z".
Proof.
  eexists _, _, _. split; [vm_compute; reflexivity|]. split; [vm_compute; reflexivity|].
  split; [vm_compute; reflexivity|]. split; [vm_compute; reflexivity|]. split; [vm_compute; reflexivity|].
  eapply (Frozen_cause nested_fleet (mkOptions "root" 5) _ _ "z");
    [vm_compute; reflexivity|apply (bool_decide_unpack _); vm_compute; exact I
    |apply (bool_decide_unpack _); vm_compute; exact I|vm_compute; reflexivity].
Defined.

(** ** Asking before a write *)

Section writes.
Context {Q : Type} `{QuantityOps Q}.
Implicit Types quotas : list (AcceleratorQuota Q).

Lemma Splice_names quotas q :
  QName <$> Splice quotas q
  = if decide (QName q ∈ QName <$> quotas) then QName <$> quotas else (QName <$> quotas) ++ [QName q].
Proof.
  unfold Splice.
  assert (QName <$> ((λ x, if decide (QName x = QName q) then q else x) <$> quotas)
    = QName <$> quotas) as E.
  { rewrite <-list_fmap_compose. apply list_fmap_ext. intros i x _. cbn. by case_decide. }
  case_decide; [done|]. by rewrite fmap_app, E.
Qed.

Lemma Splice_NoDup quotas q : NoDup (QName <$> quotas) → NoDup (QName <$> Splice quotas q).
Proof.
  intros Hnd. rewrite Splice_names. case_decide; [done|].
  apply NoDup_app. split_and!; [done|set_solver|apply NoDup_singleton].
Qed.

Lemma elem_of_Splice quotas q x :
  x ∈ Splice quotas q ↔ x = q ∨ (x ∈ quotas ∧ QName x ≠ QName q).
Proof.
  unfold Splice. set (l := (λ x, if decide (QName x = QName q) then q else x) <$> quotas).
  assert (x ∈ l ↔ (x = q ∧ QName q ∈ QName <$> quotas) ∨ (x ∈ quotas ∧ QName x ≠ QName q)) as Hl.
  { unfold l. rewrite list_elem_of_fmap. split.
    - intros (y & Hx & Hy). case_decide as E; subst; [left|right; done].
      split; [done|]. rewrite <-E. by apply list_elem_of_fmap_2.
    - intros [[-> (y & Hq & Hy)%list_elem_of_fmap]|[Hx Hne]].
      + exists y. by rewrite decide_True by done.
      + exists x. by rewrite decide_False. }
  case_decide as Hq; [rewrite Hl; tauto|]. rewrite elem_of_app, Hl, list_elem_of_singleton. tauto.
Qed.

Lemma objects_ext quotas (m : gmap string (AcceleratorQuota Q)) :
  NoDup (QName <$> quotas) → (∀ k q, m !! k = Some q ↔ q ∈ quotas ∧ QName q = k) → objects quotas = m.
Proof.
  intros Hnd Hm. apply map_eq. intros k. apply option_eq. intros q. rewrite Hm. split.
  - apply objects_elem.
  - intros [Hq <-]. by apply objects_unique.
Qed.

Lemma elem_of_Without quotas name x : x ∈ Without quotas name ↔ x ∈ quotas ∧ QName x ≠ name.
Proof.
  unfold Without. rewrite !list_elem_of_In, filter_In, negb_true_iff, bool_decide_eq_false. done.
Qed.

Lemma Without_NoDup quotas name : NoDup (QName <$> quotas) → NoDup (QName <$> Without quotas name).
Proof.
  induction quotas as [|q quotas IH]; [done|]. cbn. intros [Hq Hnd]%NoDup_cons.
  destruct (negb _); [|by apply IH]. cbn. apply NoDup_cons. split; [|by apply IH].
  intros (x & Hx & [? _]%elem_of_Without)%list_elem_of_fmap. apply Hq. rewrite Hx.
  by apply list_elem_of_fmap_2.
Qed.
End writes.

(** What a write would leave.  On objects with distinct names, [Splice]
    puts the incoming object under its name and [Without] removes a name, and
    every other object stays; the names stay distinct. *)
Theorem Splice_Without_objects {Q} `{QuantityOps Q} (quotas : list (AcceleratorQuota Q)) q name :
  NoDup (QName <$> quotas) →
  (NoDup (QName <$> Splice quotas q) ∧ objects (Splice quotas q) = <[QName q := q]> (objects quotas))
  ∧ (NoDup (QName <$> Without quotas name)
     ∧ objects (Without quotas name) = delete name (objects quotas)).
Proof.
  intros Hnd. assert (∀ k x, objects quotas !! k = Some x ↔ x ∈ quotas ∧ QName x = k) as Hobj.
  { intros k x. split; [apply objects_elem|]. intros [Hx <-]. by apply objects_unique. }
  split.
  - pose proof (Splice_NoDup quotas q Hnd) as Hs. split; [done|]. apply objects_ext; [done|].
    intros k x. rewrite elem_of_Splice, lookup_insert_Some, Hobj. naive_solver.
  - pose proof (Without_NoDup quotas name Hnd) as Hw. split; [done|]. apply objects_ext; [done|].
    intros k x. rewrite elem_of_Without, lookup_delete_Some, Hobj. naive_solver.
Qed.

Lemma Splice_Without_objects_witness :
  objects (Splice sample_fleet (sample_quota "a" "ClusterQueue" (Some "org") 2))
  = <["a" := sample_quota "a" "ClusterQueue" (Some "org") 2]> (objects sample_fleet).
Proof.
  apply (Splice_Without_objects sample_fleet (sample_quota "a" "ClusterQueue" (Some "org") 2) "a").
  apply (bool_decide_unpack _). vm_compute. exact I.
Defined.

Lemma Diff_nil vs before :
  Diff vs before = [] ↔ ∀ v, v ∈ vs → ∃ b, b ∈ before ∧ Key b = Key v.
Proof.
  unfold Diff. split.
  - intros Hd v Hv. destruct (decide (Key v ∈ (Key <$> before))) as [Hk|Hk].
    + apply list_elem_of_fmap in Hk as (b & Hb & ?). exists b. done.
    + exfalso. assert (v ∈ []) as []%not_elem_of_nil. rewrite <-Hd.
      apply list_elem_of_In, filter_In. rewrite <-list_elem_of_In. split; [done|].
      by rewrite bool_decide_false by (by rewrite elem_of_list_to_set).
  - intros Hall. destruct (List.filter _ vs) as [|v l] eqn:E; [done|exfalso].
    assert (v ∈ v :: l) as Hv by set_solver. rewrite <-E in Hv.
    apply list_elem_of_In, filter_In in Hv as [Hv%list_elem_of_In Hk].
    destruct (Hall v Hv) as (b & Hb & Hkey). rewrite negb_true_iff, bool_decide_eq_false in Hk.
    apply Hk, elem_of_list_to_set. rewrite <-Hkey. by apply list_elem_of_fmap_2.
Qed.
