(* ===== verification/Admission.v ===== *)
(** * The quota webhook

    [pkg/webhook/admission/acceleratorquota/validator.go]: a write of a quota object
    is put to the tree before it is stored.  The list of live objects and the
    decoded object are what the client and the decoder answered, [None] for an
    error; a status code stands for the error response that carries it. *)

From S2P Require Import Prelude Quantity Api Violation Tree TreeFacts TreeBuild.
Local Open Scope Z_scope.

Definition OperationCreate := "CREATE".
Definition OperationUpdate := "UPDATE".
Definition OperationDelete := "DELETE".
Definition StatusBadRequest : Z := 400.
Definition StatusInternalServerError : Z := 500.

Inductive Response := Allowed | Denied (reason : message) | Errored (code : Z).

Section handler.
Context {Q : Type} `{QuantityOps Q}.

Definition proposedSet (op name : string) (decoded : option (AcceleratorQuota Q)) (live : list (AcceleratorQuota Q))
    : option (list (AcceleratorQuota Q)) :=
  if decide (op = OperationDelete) then Some (Without live name)
  else incoming ← decoded; Some (Splice live incoming).

(** [None] is a panic, which no build has. *)
Definition Handle (opts : Options) (listed : option (list (AcceleratorQuota Q))) (op name : string)
    (decoded : option (AcceleratorQuota Q)) : option Response :=
  if decide (op ≠ OperationCreate ∧ op ≠ OperationUpdate ∧ op ≠ OperationDelete) then Some Allowed
  else match listed with
  | None => Some (Errored StatusInternalServerError)
  | Some live =>
      match proposedSet op name decoded live with
      | None => Some (Errored StatusBadRequest)
      | Some proposed =>
          match Build live opts with
          | Panic => None
          | Err _ => Some (Errored StatusInternalServerError)
          | Ok (_, before) =>
              match Build proposed opts with
              | Panic => None
              | Err _ => Some (Errored StatusInternalServerError)
              | Ok (_, after) =>
                  let newly := Diff after before in
                  if decide (0 < length newly)%nat then Some (Denied (ErrorText newly)) else Some Allowed
              end
          end
      end
  end.

(** ** What a request leaves *)

(** The objects with the request's change made: the written object in place of the
    one of its name, or the deleted name gone. *)
Definition leaves (op name : string) (decoded : option (AcceleratorQuota Q)) (live fleet : list (AcceleratorQuota Q)) : Prop :=
  ((op = "CREATE" ∨ op = "UPDATE") ∧
     ∃ q, decoded = Some q ∧ ∀ x, x ∈ fleet ↔ x = q ∨ (x ∈ live ∧ QName x ≠ QName q)) ∨
  (op = "DELETE" ∧ ∀ x, x ∈ fleet ↔ x ∈ live ∧ QName x ≠ name).

(** The same finding about the same node in two builds. *)
Definition sameFinding (v w : Violation) : Prop :=
  VNode v = VNode w ∧ VReason v = VReason w ∧ VSubject v = VSubject w.

(** The order of the objects does not matter to a build when their names differ. *)
Lemma Build_objects (quotas quotas' : list (AcceleratorQuota Q)) opts :
  NoDup (QName <$> quotas) → NoDup (QName <$> quotas') → objects quotas = objects quotas' →
  Build quotas opts = Build quotas' opts.
Proof.
  intros Hnd Hnd' E. unfold Build.
  destruct (addQuota_loop quotas) as (dups & -> & Hd & _), (addQuota_loop quotas') as (dups' & -> & Hd' & _).
  by rewrite (proj2 Hd Hnd), (proj2 Hd' Hnd'), E.
Qed.

Lemma same_objects (quotas quotas' : list (AcceleratorQuota Q)) :
  NoDup (QName <$> quotas) → NoDup (QName <$> quotas') → (∀ x, x ∈ quotas ↔ x ∈ quotas') → objects quotas = objects quotas'.
Proof.
  intros Hnd Hnd' E. apply objects_ext; [done|]. intros k q. rewrite E. split; [apply objects_elem|].
  intros [Hq <-]. by apply objects_unique.
Qed.

Lemma proposedSet_leaves op name decoded live fleet :
  NoDup (QName <$> live) → NoDup (QName <$> fleet) → leaves op name decoded live fleet →
  ∃ proposed, proposedSet op name decoded live = Some proposed ∧ NoDup (QName <$> proposed) ∧ ∀ x, x ∈ proposed ↔ x ∈ fleet.
Proof.
  intros Hnd Hnd' [(Hop & q & -> & Hf)|[-> Hf]]; unfold proposedSet, OperationDelete.
  - rewrite decide_False by (intros ->; naive_solver). exists (Splice live q). split; [done|].
    split; [by apply Splice_NoDup|]. intros x. by rewrite elem_of_Splice, Hf.
  - rewrite decide_True by done. exists (Without live name). split; [done|].
    split; [by apply Without_NoDup|]. intros x. by rewrite elem_of_Without, Hf.
Qed.

Lemma Key_same v b : Key b = Key v ↔ sameFinding v b.
Proof. unfold Key, sameFinding. split; [intros [= -> -> ->]; done|]. by intros (-> & -> & ->). Qed.

Lemma elem_of_Diff vs before v :
  v ∈ Diff vs before ↔ v ∈ vs ∧ ¬ ∃ b, b ∈ before ∧ sameFinding v b.
Proof.
  unfold Diff. rewrite list_elem_of_In, filter_In, <-list_elem_of_In, negb_true_iff, bool_decide_eq_false.
  rewrite elem_of_list_to_set, list_elem_of_fmap. apply and_iff_compat_l, not_iff_compat. setoid_rewrite <-Key_same. split; intros (b & ? & ?); exists b; auto.
Qed.

(** The answer, from the findings before and after. *)
Lemma Handle_leaves live fleet opts op name decoded t0 before t1 after :
  NoDup (QName <$> live) → NoDup (QName <$> fleet) → leaves op name decoded live fleet →
  Build live opts = Ok (t0, before) → Build fleet opts = Ok (t1, after) →
  Handle opts (Some live) op name decoded
    = Some (match Diff after before with [] => Allowed | newly => Denied (ErrorText newly) end).
Proof.
  intros Hnd Hnd' Hl E0 E1. destruct (proposedSet_leaves _ _ _ _ _ Hnd Hnd' Hl) as (proposed & Hp & Hndp & Hin).
  assert (Build proposed opts = Ok (t1, after)) as Ep by (rewrite <-E1; by apply Build_objects, same_objects).
  unfold Handle, OperationCreate, OperationUpdate, OperationDelete.
  rewrite decide_False, Hp, E0, Ep by (unfold leaves in Hl; naive_solver). cbv zeta.
  destruct (Diff after before); case_decide as Hd; cbn in Hd |- *; done || lia.
Qed.
End handler.

(** C21: the webhook's answer to a write of the quota tree.  With a root name
    configured and live objects of distinct names it always answers.  A creation, an
    update or a deletion is allowed exactly when every finding about the objects
    with the change made (the written object in place of the one of its name, or
    the deleted name gone) was there before about the same node, for the same
    reason and subject; otherwise it is denied with exactly the findings that are
    new.  So from a well-formed fleet it is allowed exactly when what it leaves
    is well formed, and a fleet that is damaged can always be changed where that
    adds no damage. *)
Theorem admission_sound {Q} `{QuantityOps Q} `{!QuantityLaws Q}
    (live fleet : list (AcceleratorQuota Q)) opts op name decoded :
  RootName opts ≠ "" → NoDup (QName <$> live) → NoDup (QName <$> fleet) → leaves op name decoded live fleet →
  ∃ r t0 before t1 after,
    Handle opts (Some live) op name decoded = Some r ∧
    Build live opts = Ok (t0, before) ∧ Build fleet opts = Ok (t1, after) ∧
    (r = Allowed ↔ ∀ v, v ∈ after → ∃ b, b ∈ before ∧ sameFinding v b) ∧
    (r ≠ Allowed → ∃ newly, r = Denied (ErrorText newly) ∧
       ∀ v, v ∈ newly ↔ v ∈ after ∧ ¬ ∃ b, b ∈ before ∧ sameFinding v b) ∧
    (well_formed live opts → (r = Allowed ↔ well_formed fleet opts)).
Proof.
  intros Hroot Hnd Hnd' Hl.
  destruct (Build_returns_built live opts Hroot) as (t0 & before & E0 & B0).
  destruct (Build_returns_built fleet opts Hroot) as (t1 & after & E1 & B1).
  pose proof (Handle_leaves _ _ _ _ _ _ _ _ _ _ Hnd Hnd' Hl E0 E1) as Hh.
  pose proof (Diff_nil after before) as Hnil. pose proof (elem_of_Diff after before) as Hin.
  eexists _, t0, before, t1, after. split; [exact Hh|]. split; [done|]. split; [done|].
  assert (match Diff after before with [] => Allowed | newly => Denied (ErrorText newly) end = Allowed
          ↔ ∀ v, v ∈ after → ∃ b, b ∈ before ∧ sameFinding v b) as Hr.
  { setoid_rewrite <-Key_same. rewrite <-Hnil. by destruct (Diff after before). }
  split; [exact Hr|]. split.
  - intros Hne. exists (Diff after before). split; [by destruct (Diff after before)|exact Hin].
  - intros Hw. apply (built_clean _ _ _ _ B0) in Hw as ->. rewrite Hr, <-(built_clean _ _ _ _ B1).
    split; [|intros ->; by intros v ?%not_elem_of_nil].
    intros Hall. destruct after as [|v l]; [done|]. destruct (Hall v ltac:(left)) as (b & Hb%not_elem_of_nil & _). done.
Qed.

(** A leaf lowered inside its grouping, and the grouping deleted from over its leaves. *)
Lemma admission_sound_witness :
  Handle (mkOptions "root" 3) (Some sample_fleet) "DELETE" "org" None ≠ Some Allowed ∧
  ∃ r, Handle (mkOptions "root" 3) (Some sample_fleet) "UPDATE" "a" (Some (sample_quota "a" "ClusterQueue" (Some "org") 1)) = Some r
    ∧ (well_formed sample_fleet (mkOptions "root" 3) → (r = Allowed ↔ well_formed sample_fleet (mkOptions "root" 3))).
Proof.
  split; [vm_compute; discriminate|].
  destruct (admission_sound sample_fleet sample_fleet (mkOptions "root" 3) "UPDATE" "a"
    (Some (sample_quota "a" "ClusterQueue" (Some "org") 1))) as (r & _ & _ & _ & _ & Hh & _ & _ & _ & _ & Hw).
  - discriminate.
  - apply (bool_decide_unpack _). vm_compute. exact I.
  - apply (bool_decide_unpack _). vm_compute. exact I.
  - left. split; [by right|]. eexists. split; [reflexivity|]. intros x. unfold sample_fleet.
    rewrite !elem_of_cons, !elem_of_nil. split.
    + intros [->|[->|[->|[->|[]]]]]; [right; split; [tauto|discriminate]..|by left].
    + intros [->|[? _]]; tauto.
  - exists r. split; [exact Hh|exact Hw].
Defined.
