(* ===== verification/Projection.v ===== *)
(** * The copy of a fleet tree for one cluster

    [pkg/quota/projection/projection.go]: a leaf that was apportioned something
    on a cluster is copied there with its resolved numbers, and so is every
    tier between it and the root, without budgets.  [Quantity.DeepCopy] is the
    identity on values.  A failure names the first node it is met at; the Go
    code visits the nodes in the order of a map, the model by name. *)

From stdpp Require Import pretty.
From S2P Require Import Prelude Quantity Api Violation Tree.
Local Open Scope Z_scope.

Definition AcceleratorQuotaOriginLabel := "ome.io/quota-origin".
Definition AcceleratorQuotaOriginUIDAnnotation := "ome.io/quota-origin-uid".
Definition AcceleratorQuotaSourceGenerationAnnotation := "ome.io/quota-source-generation".
Definition AcceleratorQuotaClusterAnnotation := "ome.io/quota-cluster".

(** [Options] of the package: the management plane's identity. *)
Record ProjectOptions := mkProjectOptions { Origin : string }.

Inductive projection_error :=
| ErrNoCluster
| ErrNoOrigin
| ErrNotInTree (node : string)
| ErrNotALeaf (node : string)
| ErrNoBudget (node resource flavor : string).

(** [key{resource, flavor}]. *)
Abbreviation key := (string * string)%type (only parsing).

Section model.
Context {Q : Type} `{QuantityOps Q}.

Record Allowance := mkAllowance {
  ANode : string; AResourceName : string; AResourceFlavor : string; ANominal : Q }.

Definition keyOfBudget (b : AcceleratorBudget Q) : key := (ResourceName b, ResourceFlavor b).
Definition keyOfAllowance (a : Allowance) : key := (AResourceName a, AResourceFlavor a).

(** The comparison of the budgets' sort. *)
Definition budgetLess : AcceleratorBudget Q → AcceleratorBudget Q → bool :=
  lex_less ResourceName str_lt (λ a b, str_lt (ResourceFlavor a) (ResourceFlavor b)).

Definition copyQuantity (q : option Q) : option Q := q.

(** The budgets of the source, by pair: the last of a pair wins. *)
Definition sourceBudgets (src : AcceleratorQuota Q) : gmap key (AcceleratorBudget Q) :=
  foldl (λ m b, <[keyOfBudget b := b]> m) ∅ (Budgets (Spec src)).

Definition projectBudget (src : AcceleratorQuota Q) (sources : gmap key (AcceleratorBudget Q))
    (out : list (AcceleratorBudget Q)) (a : Allowance)
    : outcome projection_error (list (AcceleratorBudget Q)) :=
  match sources !! keyOfAllowance a with
  | None => Err (ErrNoBudget (QName src) (AResourceName a) (AResourceFlavor a))
  | Some b => Ok (out ++ [mkBudget (ResourceName b) (ResourceFlavor b) "" (ANominal a)
                            (copyQuantity (BorrowingLimit b)) (copyQuantity (LendingLimit b)) []])
  end.

Definition projectBudgets (src : AcceleratorQuota Q) (given : list Allowance)
    : outcome projection_error (list (AcceleratorBudget Q)) :=
  (let? out := ofold (projectBudget src (sourceBudgets src)) [] given in
   Ok (sort_slice budgetLess out))%go.

(** The metadata every copy carries. *)
Definition copyOf (src : AcceleratorQuota Q) (cluster : string) (opts : ProjectOptions)
    (tier : string) (budgets : list (AcceleratorBudget Q)) : AcceleratorQuota Q :=
  mkQuota (QName src) "" 0
    {[ AcceleratorQuotaOriginLabel := Origin opts ]}
    (list_to_map [(AcceleratorQuotaOriginUIDAnnotation, UID src);
                  (AcceleratorQuotaSourceGenerationAnnotation, pretty (Generation src));
                  (AcceleratorQuotaClusterAnnotation, cluster)])
    (mkSpec (SpecRole (Spec src)) (ParentRef (Spec src)) tier None budgets).

Definition render (node : Node Q) (cluster : string) (given : list Allowance) (opts : ProjectOptions)
    : outcome projection_error (AcceleratorQuota Q) :=
  (let src := Quota node in
   if negb (IsLeaf node) then Ok (copyOf src cluster opts "" [])
   else
     let? budgets := projectBudgets src given in
     Ok (copyOf src cluster opts (PriorityTier (Spec src)) budgets))%go.

(** One allowance into the map by node. *)
Definition groupAllowance (t : Tree Q) (byNode : gmap string (list Allowance)) (a : Allowance)
    : outcome projection_error (gmap string (list Allowance)) :=
  match NodeNamed t (ANode a) with
  | None => Err (ErrNotInTree (ANode a))
  | Some node =>
      if negb (IsLeaf node) then Err (ErrNotALeaf (ANode a))
      else Ok (<[ANode a := default [] (byNode !! ANode a) ++ [a]]> byNode)
  end.

(** One tier above a leaf; the root is the member's to create. *)
Definition includeAncestor (t : Tree Q) (include : gmap string (Node Q)) (a : string)
    : gmap string (Node Q) :=
  match nodes t !! a with
  | Some ancestor => if decide (Parent ancestor = None) then include
                     else <[NodeName ancestor := ancestor]> include
  | None => include
  end.

(** A leaf and the tiers above it. *)
Definition includeLeaf (t : Tree Q) (include : gmap string (Node Q)) (name : string)
    : gmap string (Node Q) :=
  match NodeNamed t name with
  | None => include
  | Some node => foldl (includeAncestor t) (<[name := node]> include) (Ancestors t name)
  end.

Definition renderIncluded (cluster : string) (byNode : gmap string (list Allowance))
    (opts : ProjectOptions) (include : gmap string (Node Q)) (out : list (AcceleratorQuota Q))
    (name : string) : outcome projection_error (list (AcceleratorQuota Q)) :=
  (match include !! name with
   | None => Ok out
   | Some node => let? rendered := render node cluster (default [] (byNode !! name)) opts in
                  Ok (out ++ [rendered])
   end)%go.

(** The comparison of the final sort: by depth, then by name. *)
Definition depthLess (include : gmap string (Node Q)) : AcceleratorQuota Q → AcceleratorQuota Q → bool :=
  lex_less (λ q, default 0 (Depth <$> include !! QName q)) Z.ltb (λ a b, str_lt (QName a) (QName b)).

Definition For (t : Tree Q) (cluster : string) (allowances : list Allowance) (opts : ProjectOptions)
    : outcome projection_error (list (AcceleratorQuota Q)) :=
  (if decide (cluster = "") then Err ErrNoCluster
   else if decide (Origin opts = "") then Err ErrNoOrigin
   else
     let? byNode := ofold (groupAllowance t) ∅ allowances in
     let include := foldl (includeLeaf t) ∅ (sorted_keys byNode) in
     let? out := ofold (renderIncluded cluster byNode opts include) [] (sorted_keys include) in
     Ok (sort_slice (depthLess include) out))%go.
End model.
Arguments Allowance : clear implicits.
