(* ===== verification/Allowances.v ===== *)
(** * Resolving every leaf's share on every cluster

    [pkg/quota/projection/allowances.go]: each budget of each leaf is split
    over the clusters, by the admin's own figures or in proportion to what the
    members report, and a leaf that cannot be split is reported and held.  A
    reason is a message, which is never the empty string, so "no reason" is a
    successful outcome. *)

From S2P Require Import Prelude Quantity Api Shares Violation Tree Projection.
Local Open Scope Z_scope.

(** [ResolveOptions]. *)
Record ResolveOptions := mkResolveOptions { DefaultPolicy : string }.

Section model.
Context {Q : Type} `{QuantityOps Q}.

(** [Capacity]: what one member reports for one pair. *)
Record MemberCapacity := mkMemberCapacity {
  mcCluster : string; mcResourceName : string; mcResourceFlavor : string;
  mcAllocatable : Q; mcHighWaterMark : Q; mcObservedAt : option Z }.

Record Fleet := mkFleet { Registered : list string; Reported : list string;
                          FleetCapacity : list MemberCapacity }.

Definition silent (f : Fleet) : list string :=
  let reported : gset string := list_to_set (Reported f) in
  sort_slice str_lt (filter (λ c, c ∉ reported) (Registered f)).

Record Resolution := mkResolution {
  ByCluster : gmap string (list (Allowance Q)); Unresolved : gmap string message }.

Record placed := mkPlaced { pCluster : string; pHome : bool; pAllowance : Allowance Q }.

Definition onItsClusters (resolved : list placed) : list placed :=
  let keep : gset string :=
    foldl (λ keep a, if pHome a || negb (q_IsZero (ANominal (pAllowance a)))
                     then {[pCluster a]} ∪ keep else keep) ∅ resolved in
  filter (λ a, pCluster a ∈ keep) resolved.

Definition effectivePolicy (q : AcceleratorQuota Q) (b : AcceleratorBudget Q) (opts : ResolveOptions)
    : string :=
  if decide (Policy b ≠ "") then Policy b
  else match Distribution (Spec q) with
       | Some p => if decide (p ≠ "") then p else DefaultPolicy opts
       | None => DefaultPolicy opts
       end.

(** One per-cluster figure; the state is the shares and the names seen. *)
Definition explicitShare (b : AcceleratorBudget Q) (st : list (Share Q) * gset string)
    (p : AcceleratorClusterShare Q) : outcome message (list (Share Q) * gset string) :=
  let '(out, seen) := st in
  if decide (csCluster p ∈ seen) then
    Err (Sprintf "budget %s/%s names cluster %s twice"
           [AStr (ResourceName b); AStr (ResourceFlavor b); AStr (csCluster p)])
  else Ok (out ++ [mkShare (csCluster p) (csNominal p)], {[csCluster p]} ∪ seen).

Definition shareLess (a b : Share Q) : bool := str_lt (sCluster a) (sCluster b).

Definition explicit (b : AcceleratorBudget Q) : outcome message (list (Share Q)) :=
  (if decide (PerCluster b = []) then
     Err (Sprintf "budget %s/%s is Explicit but names no per-cluster shares"
            [AStr (ResourceName b); AStr (ResourceFlavor b)])
   else
     let? st := ofold (explicitShare b) ([], ∅) (PerCluster b) in
     let sum := Sum (fst st) in
     if decide (q_Cmp sum (Nominal b) ≠ 0) then
       Err (Sprintf "budget %s/%s is %s but its per-cluster shares sum to %s"
              [AStr (ResourceName b); AStr (ResourceFlavor b); AStr (q_String (Nominal b)); AStr (q_String sum)])
     else Ok (sort_slice shareLess (fst st)))%go.

Definition attach (node : string) (b : AcceleratorBudget Q) (split : list (Share Q)) : list placed :=
  (λ s, mkPlaced (sCluster s) false
          (mkAllowance node (ResourceName b) (ResourceFlavor b) (sNominal s))) <$> split.

(** The text of an error of [Proportional]. *)
Definition sharesErrorText (e : shares_error) : message :=
  match e with
  | ErrNoClusters => Sprintf "no clusters to split across" []
  | ErrTotalNegative total => Sprintf "total %s is negative" [AStr total]
  | ErrNoClusterName => Sprintf "a weight carries no cluster name" []
  | ErrClusterTwice c => Sprintf "cluster %s appears twice" [AStr c]
  | ErrCapacityNegative c q => Sprintf "cluster %s has negative capacity %s" [AStr c; AStr q]
  | ErrZeroBasis => Sprintf "every cluster reports zero capacity, so there is nothing to be proportional to" []
  end.

Definition resolveBudget (leaf : Node Q) (byPair : gmap key (list (Weight Q)))
    (homes : gmap key (gset string)) (silent : list string) (opts : ResolveOptions)
    (out : list placed) (b : AcceleratorBudget Q) : outcome message (list placed) :=
  (let policy := effectivePolicy (Quota leaf) b opts in
   if decide (policy = AcceleratorQuotaDistributionExplicit) then
     let? split := explicit b in
     Ok (out ++ attach (NodeName leaf) b split)
   else if decide (policy = AcceleratorQuotaDistributionProportional) then
     if decide (silent ≠ []) then
       Err (Sprintf "holding %s/%s: %v has not reported capacity, and splitting without it would over-grant the fleet"
              [AStr (ResourceName b); AStr (ResourceFlavor b); AStrs silent])
     else
       let weights := default [] (byPair !! keyOfBudget b) in
       if decide (weights = []) then
         Err (Sprintf "no cluster has reported capacity for %s/%s yet, so a proportional split has nothing to divide by"
                [AStr (ResourceName b); AStr (ResourceFlavor b)])
       else
         let? split := omap_err (λ e, Sprintf "splitting %s/%s: %v"
                         [AStr (ResourceName b); AStr (ResourceFlavor b); AMsg (sharesErrorText e)])
                         (Proportional (Nominal b) weights) in
         Ok (out ++ ((λ a, mkPlaced (pCluster a)
                        (bool_decide (pCluster a ∈ default ∅ (homes !! keyOfBudget b))) (pAllowance a))
                     <$> attach (NodeName leaf) b split))
   else
     Err (Sprintf "budget %s/%s has no distribution policy, and none is configured fleet-wide"
            [AStr (ResourceName b); AStr (ResourceFlavor b)]))%go.

Definition resolveLeaf (leaf : Node Q) (byPair : gmap key (list (Weight Q)))
    (homes : gmap key (gset string)) (silent : list string) (opts : ResolveOptions)
    : outcome message (list placed) :=
  ofold (resolveBudget leaf byPair homes silent opts) [] (Budgets (Spec (Quota leaf))).

(** One reading into the two indexes. *)
Definition readCapacity (st : gmap key (list (Weight Q)) * gmap key (gset string)) (c : MemberCapacity)
    : gmap key (list (Weight Q)) * gmap key (gset string) :=
  let '(byPair, homes) := st in
  let k := (mcResourceName c, mcResourceFlavor c) in
  (<[k := default [] (byPair !! k) ++ [mkWeight (mcCluster c) (mcAllocatable c)]]> byPair,
   if q_IsZero (mcHighWaterMark c) then homes
   else <[k := {[mcCluster c]} ∪ default ∅ (homes !! k)]> homes).

Definition weightLess (a b : Weight Q) : bool := str_lt (wCluster a) (wCluster b).

Definition addPlaced (m : gmap string (list (Allowance Q))) (a : placed) : gmap string (list (Allowance Q)) :=
  <[pCluster a := default [] (m !! pCluster a) ++ [pAllowance a]]> m.

(** One leaf into the resolution. *)
Definition addLeaf (byPair : gmap key (list (Weight Q))) (homes : gmap key (gset string))
    (silent : list string) (opts : ResolveOptions) (out : Resolution) (leaf : Node Q)
    : outcome message Resolution :=
  match resolveLeaf leaf byPair homes silent opts with
  | Err reason => Ok (mkResolution (ByCluster out) (<[NodeName leaf := reason]> (Unresolved out)))
  | Ok resolved => Ok (mkResolution (foldl addPlaced (ByCluster out) (onItsClusters resolved)) (Unresolved out))
  | Panic => Panic
  end.

Definition allowanceLess : Allowance Q → Allowance Q → bool :=
  lex_less ANode str_lt
    (lex_less AResourceName str_lt (λ a b, str_lt (AResourceFlavor a) (AResourceFlavor b))).

Definition Resolve (t : Tree Q) (fleet : Fleet) (opts : ResolveOptions) : outcome message Resolution :=
  (let '(byPair, homes) := foldl readCapacity (∅, ∅) (FleetCapacity fleet) in
   let byPair := sort_slice weightLess <$> byPair in
   let silent := silent fleet in
   let? out := ofold (addLeaf byPair homes silent opts) (mkResolution ∅ ∅) (Leaves t) in
   Ok (mkResolution (sort_slice allowanceLess <$> ByCluster out) (Unresolved out)))%go.
End model.
Arguments MemberCapacity : clear implicits.
Arguments Fleet : clear implicits.
Arguments Resolution : clear implicits.
Arguments placed : clear implicits.
