(* ===== verification/AllowancesFacts.v ===== *)
(** * The split of the fleet's budgets is exact

    What [Resolve] of [Allowances] guarantees: it always returns; a leaf is
    either held with a reason and granted nothing, or granted, over all the
    clusters together, exactly what was authored; and a member that has not
    reported holds every proportional budget. *)

From S2P Require Import Prelude Remainder Quantity Api Shares.
From S2P Require Import Violation Tree TreeFacts TreeBuild Projection Allowances.
Local Open Scope Z_scope.

Section facts.
Context {Q : Type} `{QuantityOps Q} `{!QuantityLaws Q}.

(** What an allowance grants node [n] of pair [k]. *)
Definition grant (n : string) (k : key) (a : Allowance Q) : Qc :=
  if decide (ANode a = n ∧ keyOfAllowance a = k) then q_value (ANominal a) else 0%Qc.

(** What the projections grant node [n] of pair [k], over all the clusters. *)
Definition granted (m : gmap string (list (Allowance Q))) (n : string) (k : key) : Qc :=
  map_qc_sum (qc_sum (grant n k)) m.

(** What budgets authorize of pair [k]. *)
Definition authored (k : key) (bs : list (AcceleratorBudget Q)) : Qc :=
  qc_sum (λ b, if decide (keyOfBudget b = k) then q_value (Nominal b) else 0%Qc) bs.

Definition nominals (l : list (placed Q)) : Qc := qc_sum (λ a, q_value (ANominal (pAllowance a))) l.

Lemma cmp_sign_0 c : cmp_sign c = 0 → c = Eq.
Proof. by destruct c. Qed.

Lemma Cmp_0 a b : q_Cmp a b = 0 → q_value a = q_value b.
Proof. rewrite law_Cmp. intros E%cmp_sign_0. by apply Qceq_alt. Qed.

(** ** One budget *)

Lemma explicit_exact b split :
  explicit b = Ok split → qc_sum (λ s, q_value (sNominal s)) split = q_value (Nominal b).
Proof.
  unfold explicit. case_decide; [done|]. intros (st & _ & Hs)%obind_Ok_inv. cbv zeta in Hs.
  destruct (decide _) as [|Hc] in Hs; [done|]. injection Hs as <-. apply dec_stable, Cmp_0 in Hc.
  rewrite sort_slice_perm. by rewrite <-Sum_value.
Qed.

Lemma nominals_attach n b (split : list (Share Q)) :
  nominals (attach n b split) = qc_sum (λ s, q_value (sNominal s)) split.
Proof. unfold nominals, attach. by rewrite qc_sum_fmap. Qed.

(** The entries one budget adds: its leaf's and its pair's, adding up to it. *)
Definition entries_of (leaf : Node Q) (b : AcceleratorBudget Q) (new : list (placed Q)) : Prop :=
  (∀ a, a ∈ new → ANode (pAllowance a) = NodeName leaf ∧ keyOfAllowance (pAllowance a) = keyOfBudget b) ∧
  nominals new = q_value (Nominal b).

Lemma attach_entries leaf b split :
  qc_sum (λ s, q_value (sNominal s)) split = q_value (Nominal b) →
  entries_of leaf b (attach (NodeName leaf) b split).
Proof.
  intros Hs. split; [|by rewrite nominals_attach].
  unfold attach. by intros a (s & -> & _)%list_elem_of_fmap.
Qed.

(** Marking the clusters that are homes changes no entry. *)
Lemma home_entries leaf b l f :
  entries_of leaf b l → entries_of leaf b ((λ a, mkPlaced (pCluster a) (f a) (pAllowance a)) <$> l).
Proof.
  intros [He Hn]. split.
  - intros a (p & -> & Hp)%list_elem_of_fmap. exact (He p Hp).
  - unfold nominals. rewrite qc_sum_fmap. exact Hn.
Qed.

Context (byPair : gmap key (list (Weight Q))) (homes : gmap key (gset string))
  (members : list string) (opts : ResolveOptions).
Context (Hw : ∀ k ws, byPair !! k = Some ws → Forall (λ w, scale_ok (wCapacity w)) ws).

Lemma resolveBudget_entries leaf out b out' :
  scale_ok (Nominal b) → resolveBudget leaf byPair homes members opts out b = Ok out' →
  ∃ new, out' = out ++ new ∧ entries_of leaf b new.
Proof.
  intros Hb. unfold resolveBudget. case_decide.
  { intros (split & Hs%explicit_exact & [= <-])%obind_Ok_inv. eexists. split; [done|].
    by apply attach_entries. }
  case_decide; [|done]. case_decide; [done|]. case_decide; [done|].
  intros (split & Hs & [= <-])%obind_Ok_inv. eexists. split; [done|].
  apply home_entries, attach_entries.
  destruct (Proportional (Nominal b) _) as [sh| |] eqn:Hp; [|done..]. injection Hs as ->.
  rewrite <-Sum_value. eapply Proportional_shares; [|done|exact Hp].
  destruct (byPair !! keyOfBudget b) eqn:E; [by eapply Hw|done].
Qed.

Lemma resolveBudget_no_panic leaf out b : resolveBudget leaf byPair homes members opts out b ≠ Panic.
Proof.
  unfold resolveBudget, explicit. repeat case_decide; try done.
  - assert (ofold (explicitShare b) ([], ∅) (PerCluster b) ≠ Panic) as Hn.
    { apply ofold_no_panic. intros [o seen] x. unfold explicitShare. by case_decide. }
    destruct (ofold _ _ _); cbn; [|done..]. by case_decide.
  - pose proof (Proportional_never_panics (Nominal b) (default [] (byPair !! keyOfBudget b))) as Hn.
    by destruct (Proportional _ _).
Qed.

(** ** One leaf *)

Lemma resolveLeaf_no_panic leaf : resolveLeaf leaf byPair homes members opts ≠ Panic.
Proof. apply ofold_no_panic. intros. apply resolveBudget_no_panic. Qed.

Lemma grant_entries leaf b new k :
  entries_of leaf b new →
  qc_sum (λ a, grant (NodeName leaf) k (pAllowance a)) new
  = if decide (keyOfBudget b = k) then q_value (Nominal b) else 0%Qc.
Proof.
  intros [He Hn]. case_decide as Hk.
  - rewrite <-Hn. apply qc_sum_ext. intros a Ha. unfold grant.
    destruct (He a Ha) as [-> ->]. by rewrite decide_True.
  - apply qc_sum_zero. intros a Ha. unfold grant. destruct (He a Ha) as [-> ->].
    rewrite decide_False by naive_solver. done.
Qed.

Lemma resolveLeaf_exact leaf out :
  Forall (λ b, scale_ok (Nominal b)) (Budgets (Spec (Quota leaf))) →
  resolveLeaf leaf byPair homes members opts = Ok out →
  (∀ a, a ∈ out → ANode (pAllowance a) = NodeName leaf ∧
     keyOfAllowance (pAllowance a) ∈ keyOfBudget <$> Budgets (Spec (Quota leaf))) ∧
  ∀ k, qc_sum (λ a, grant (NodeName leaf) k (pAllowance a)) out
       = authored k (Budgets (Spec (Quota leaf))).
Proof.
  intros Hsc Hr. unfold resolveLeaf in Hr.
  refine (ofold_Ok_ind _ (λ pre out,
    (∀ a, a ∈ out → ANode (pAllowance a) = NodeName leaf ∧
       keyOfAllowance (pAllowance a) ∈ keyOfBudget <$> pre) ∧
    ∀ k, qc_sum (λ a, grant (NodeName leaf) k (pAllowance a)) out = authored k pre)
    _ _ _ _ _ Hr); [split; [set_solver|done]|].
  intros pre b post o o' Hl [IHa IHs] Hb.
  apply resolveBudget_entries in Hb as (new & -> & Hnew).
  2:{ rewrite Forall_forall in Hsc. apply Hsc. rewrite Hl. set_solver. }
  split.
  - intros a [Ha|Ha]%elem_of_app; rewrite fmap_app.
    + destruct (IHa a Ha). set_solver.
    + destruct (proj1 Hnew a Ha) as [? ->]. set_solver.
  - intros k. unfold authored. rewrite !qc_sum_app, IHs, (grant_entries leaf b new k Hnew).
    rewrite qc_sum_cons, qc_sum_nil. unfold authored. ring.
Qed.
End facts.

Section clusters.
Context {Q : Type} `{QuantityOps Q} `{!QuantityLaws Q}.

(** ** The clusters a leaf stays on *)

Lemma elem_of_onItsClusters (resolved : list (placed Q)) p :
  p ∈ onItsClusters resolved ↔
  p ∈ resolved ∧ ∃ a, a ∈ resolved ∧ pCluster a = pCluster p ∧
    (pHome a = true ∨ q_IsZero (ANominal (pAllowance a)) = false).
Proof.
  unfold onItsClusters. rewrite list_elem_of_filter.
  set (keep := foldl _ ∅ resolved).
  assert (∀ c, c ∈ keep ↔ ∃ a, a ∈ resolved ∧ pCluster a = c ∧
    (pHome a = true ∨ q_IsZero (ANominal (pAllowance a)) = false)) as Hk; [|rewrite Hk; naive_solver].
  unfold keep. refine (foldl_ind _ (λ pre (keep : gset string), ∀ c, c ∈ keep ↔ ∃ a, a ∈ pre ∧ pCluster a = c ∧
    (pHome a = true ∨ q_IsZero (ANominal (pAllowance a)) = false)) _ _ _ _); [set_solver|].
  intros pre x post m _ IH c.
  destruct (pHome x || negb (q_IsZero (ANominal (pAllowance x)))) eqn:E.
  - assert (pHome x = true ∨ q_IsZero (ANominal (pAllowance x)) = false) as Hx.
    { destruct (pHome x); [by left|right]. by destruct (q_IsZero _). }
    rewrite elem_of_union, elem_of_singleton, IH. split.
    + intros [->|(a & Ha & Hc & Hh)]; [exists x|exists a]; (split; [apply elem_of_app|done]).
      * right. by apply list_elem_of_singleton.
      * by left.
    + intros (a & [Ha|Ha%list_elem_of_singleton]%elem_of_app & Hc & Hh); [by right; eauto|subst; by left].
  - rewrite IH. split.
    + intros (a & Ha & Hc & Hh). exists a. split; [apply elem_of_app; by left|done].
    + intros (a & [Ha|Ha%list_elem_of_singleton]%elem_of_app & Hc & Hh); [by eauto|subst a].
      apply orb_false_iff in E as [E1 E2]. destruct Hh as [?|E3]; [congruence|]. by rewrite E3 in E2.
Qed.

(** What is left out grants nothing. *)
Lemma onItsClusters_sum (resolved : list (placed Q)) n k :
  qc_sum (λ a, grant n k (pAllowance a)) (onItsClusters resolved)
  = qc_sum (λ a, grant n k (pAllowance a)) resolved.
Proof.
  pose proof (elem_of_onItsClusters resolved) as Hel. unfold onItsClusters in *.
  apply qc_sum_filter. intros a Ha Hno. unfold grant. case_decide; [|done].
  destruct (q_IsZero (ANominal (pAllowance a))) eqn:Ez; [by apply law_IsZero|].
  destruct Hno. specialize (Hel a). rewrite list_elem_of_filter in Hel.
  apply (proj2 Hel). split; [done|]. eauto.
Qed.

Lemma elem_of_addPlaced m (l : list (placed Q)) c a :
  a ∈ default [] (foldl addPlaced m l !! c) ↔
  a ∈ default [] (m !! c) ∨ ∃ p, p ∈ l ∧ pCluster p = c ∧ pAllowance p = a.
Proof.
  revert m. induction l as [|p l IH]; intros m; cbn [foldl]; [set_solver|].
  rewrite IH. unfold addPlaced. destruct (decide (c = pCluster p)) as [->|Hne].
  - rewrite lookup_insert_eq. cbn [default from_option id]. set_solver.
  - rewrite lookup_insert_ne by done. set_solver.
Qed.

Lemma granted_addPlaced m (l : list (placed Q)) n k :
  granted (foldl addPlaced m l) n k = (granted m n k + qc_sum (λ a, grant n k (pAllowance a)) l)%Qc.
Proof.
  revert m. induction l as [|p l IH]; intros m; cbn [foldl].
  { rewrite qc_sum_nil. ring. }
  rewrite IH, qc_sum_cons. unfold granted, addPlaced.
  rewrite map_qc_sum_update, qc_sum_app, qc_sum_cons, qc_sum_nil.
  destruct (m !! pCluster p); cbn [default from_option id]; rewrite ?qc_sum_nil; ring.
Qed.

(** A node no allowance names is granted nothing. *)
Lemma granted_none (m : gmap string (list (Allowance Q))) n k :
  (∀ c a, a ∈ default [] (m !! c) → ANode a ≠ n) → granted m n k = 0%Qc.
Proof.
  intros Hno. unfold granted, map_qc_sum. apply qc_sum_zero. intros [c l] Hc%elem_of_map_to_list.
  apply qc_sum_zero. intros a Ha. unfold grant. rewrite decide_False; [done|].
  intros [Hn _]. apply (Hno c a); [|done]. by rewrite Hc.
Qed.
End clusters.

(** ** The whole pass *)

Section pass.
Context {Q : Type} `{QuantityOps Q} `{!QuantityLaws Q}.
Context (fleet : Fleet Q) (opts : ResolveOptions).

Definition weightsOf : gmap key (list (Weight Q)) :=
  sort_slice weightLess <$> (foldl readCapacity (∅, ∅) (FleetCapacity fleet)).1.
Definition homesOf : gmap key (gset string) := (foldl readCapacity (∅, ∅) (FleetCapacity fleet)).2.

(** What the pass makes of one leaf. *)
Definition splitOf (leaf : Node Q) : outcome message (list (placed Q)) :=
  resolveLeaf leaf weightsOf homesOf (silent fleet) opts.

Definition fleet_scales : Prop := Forall (λ c, scale_ok (mcAllocatable c)) (FleetCapacity fleet).
Definition leaf_scales (leaf : Node Q) : Prop :=
  Forall (λ b, scale_ok (Nominal b)) (Budgets (Spec (Quota leaf))).

Lemma weightsOf_scales k ws :
  fleet_scales → weightsOf !! k = Some ws → Forall (λ w, scale_ok (wCapacity w)) ws.
Proof.
  intros Hf. unfold weightsOf. rewrite lookup_fmap. intros (ws0 & Hk & ->)%fmap_Some.
  rewrite sort_slice_perm. revert k ws0 Hk.
  refine (foldl_ind readCapacity (λ pre st, ∀ k ws, st.1 !! k = Some ws → Forall (λ w, scale_ok (wCapacity w)) ws)
    (∅, ∅) (FleetCapacity fleet) _ _); [intros k ws Hk; cbn [fst] in Hk; by rewrite lookup_empty in Hk|].
  intros pre c post [m h] Hl IH k ws. cbn. intros [[<- <-]|[_ Hk]]%lookup_insert_Some; [|by eapply IH].
  apply Forall_app. split.
  - destruct (m !! _) eqn:E; [by eapply IH|constructor].
  - constructor; [|constructor]. unfold fleet_scales in Hf. rewrite Forall_forall in Hf.
    apply Hf. rewrite Hl. set_solver.
Qed.

Lemma silent_spec : silent fleet ≠ [] ↔ ∃ m, m ∈ Registered fleet ∧ m ∉ Reported fleet.
Proof.
  unfold silent. set (l := filter _ _). split.
  - intros Hne. destruct (sort_slice str_lt l) as [|m s] eqn:E; [done|]. exists m.
    assert (m ∈ l) as Hm by (rewrite <-(elem_of_sort_slice str_lt), E; set_solver).
    unfold l in Hm. rewrite list_elem_of_filter, elem_of_list_to_set in Hm. tauto.
  - intros (m & Hm & Hr) E.
    assert (m ∈ sort_slice str_lt l) as Hin.
    { rewrite elem_of_sort_slice. unfold l. rewrite list_elem_of_filter, elem_of_list_to_set. done. }
    rewrite E in Hin. by apply elem_of_nil in Hin.
Qed.

(** A leaf with a proportional budget cannot be split while a member is
    silent. *)
Lemma silent_holds leaf b :
  silent fleet ≠ [] → b ∈ Budgets (Spec (Quota leaf)) →
  effectivePolicy (Quota leaf) b opts = AcceleratorQuotaDistributionProportional →
  ∃ reason, splitOf leaf = Err reason.
Proof.
  intros Hs Hb Hp. unfold splitOf, resolveLeaf.
  pose proof (resolveLeaf_no_panic weightsOf homesOf (silent fleet) opts leaf) as Hnp.
  unfold resolveLeaf in Hnp.
  destruct (ofold _ _ _) as [out|e|] eqn:E; [exfalso|eauto|done].
  apply list_elem_of_split in Hb as (l1 & l2 & Hl). rewrite Hl, ofold_app in E.
  apply obind_Ok_inv in E as (o & _ & E). cbn [ofold] in E.
  apply obind_Ok_inv in E as (o' & E & _). unfold resolveBudget in E.
  rewrite Hp, decide_False, decide_True, decide_True in E by done. done.
Qed.

(** The state of the pass after the leaves [pre]. *)
Record passed (pre : list (Node Q)) (out : Resolution Q) : Prop := {
  ps_held leaf reason : leaf ∈ pre → splitOf leaf = Err reason →
    Unresolved out !! NodeName leaf = Some reason;
  ps_reason n reason : Unresolved out !! n = Some reason →
    ∃ leaf, leaf ∈ pre ∧ NodeName leaf = n ∧ splitOf leaf = Err reason;
  ps_allowance c a : a ∈ default [] (ByCluster out !! c) ↔
    ∃ leaf resolved p, leaf ∈ pre ∧ splitOf leaf = Ok resolved ∧ p ∈ onItsClusters resolved ∧
      pCluster p = c ∧ pAllowance p = a;
  ps_granted leaf resolved k : leaf ∈ pre → splitOf leaf = Ok resolved →
    granted (ByCluster out) (NodeName leaf) k = authored k (Budgets (Spec (Quota leaf)));
}.

Context (t : Tree Q) (Hkeyed : node_keyed t).
Context (Hfleet : fleet_scales) (Hleaves : ∀ leaf, leaf ∈ Leaves t → leaf_scales leaf).

Lemma elem_of_Leaves leaf : leaf ∈ Leaves t ↔ nodes t !! NodeName leaf = Some leaf ∧ IsLeaf leaf = true.
Proof.
  unfold Leaves. rewrite <-(elem_of_Nodes t leaf Hkeyed).
  rewrite !list_elem_of_In, List.filter_In. done.
Qed.

Lemma splitOf_exact leaf resolved :
  leaf ∈ Leaves t → splitOf leaf = Ok resolved →
  (∀ a, a ∈ resolved → ANode (pAllowance a) = NodeName leaf ∧
     keyOfAllowance (pAllowance a) ∈ keyOfBudget <$> Budgets (Spec (Quota leaf))) ∧
  ∀ k, qc_sum (λ a, grant (NodeName leaf) k (pAllowance a)) (onItsClusters resolved)
       = authored k (Budgets (Spec (Quota leaf))).
Proof.
  intros Hl Hr. destruct (resolveLeaf_exact weightsOf homesOf (silent fleet) opts) with leaf resolved
    as [Ha Hs]; [intros k ws; by apply weightsOf_scales|by apply Hleaves|done|].
  split; [done|]. intros k. by rewrite onItsClusters_sum.
Qed.

(** Leaves have names of their own. *)
Lemma Leaves_name leaf leaf' : leaf ∈ Leaves t → leaf' ∈ Leaves t → NodeName leaf = NodeName leaf' → leaf = leaf'.
Proof. rewrite !elem_of_Leaves. intros [H1 _] [H2 _] E. rewrite E in H1. congruence. Qed.

Lemma NoDup_Leaves : NoDup (Leaves t).
Proof.
  unfold Leaves. pose proof (NoDup_Nodes_names t Hkeyed) as Hnd. apply NoDup_fmap_1 in Hnd.
  rewrite NoDup_ListNoDup in Hnd |- *. by apply List.NoDup_filter.
Qed.

Lemma passed_held pre x post out reason :
  Leaves t = pre ++ x :: post → passed pre out → splitOf x = Err reason →
  passed (pre ++ [x]) (mkResolution (ByCluster out) (<[NodeName x := reason]> (Unresolved out))).
Proof.
  intros Hl P Hx. assert (∀ leaf, leaf ∈ pre ++ [x] ↔ leaf ∈ pre ∨ leaf = x) as Hin by set_solver.
  assert (∀ leaf, leaf ∈ pre → NodeName leaf ≠ NodeName x) as Hne.
  { intros leaf Hleaf E. pose proof NoDup_Leaves as Hnd. rewrite Hl in Hnd.
    apply NoDup_app in Hnd as (_ & Hd & _). apply (Hd leaf Hleaf).
    rewrite (Leaves_name leaf x); [left|rewrite Hl; set_solver..|done]. }
  split; cbn [ByCluster Unresolved].
  - intros leaf r [Hleaf| ->]%Hin Hr; [|by rewrite lookup_insert_eq; congruence].
    rewrite lookup_insert_ne by (by apply not_eq_sym, Hne). by apply (ps_held _ _ P).
  - intros n r [[<- <-]|[_ Hn]]%lookup_insert_Some; [exists x; set_solver|].
    apply (ps_reason _ _ P) in Hn as (leaf & ? & ? & ?). exists leaf. set_solver.
  - intros c a. rewrite (ps_allowance _ _ P). setoid_rewrite Hin.
    split; intros (leaf & r & p & Hleaf & Hr & Hp).
    + exists leaf, r, p. auto.
    + destruct Hleaf as [Hleaf| ->]; [exists leaf, r, p; auto|congruence].
  - intros leaf r k [Hleaf| ->]%Hin Hr; [by apply (ps_granted _ _ P leaf r)|congruence].
Qed.

Lemma passed_split pre x post out resolved :
  Leaves t = pre ++ x :: post → passed pre out → splitOf x = Ok resolved →
  passed (pre ++ [x]) (mkResolution (foldl addPlaced (ByCluster out) (onItsClusters resolved)) (Unresolved out)).
Proof.
  intros Hl P Hx. assert (∀ leaf, leaf ∈ pre ++ [x] ↔ leaf ∈ pre ∨ leaf = x) as Hin by set_solver.
  assert (∀ leaf, leaf ∈ pre → leaf ∈ Leaves t) as Hpre by (rewrite Hl; set_solver).
  assert (x ∈ Leaves t) as HxL by (rewrite Hl; set_solver).
  assert (∀ leaf, leaf ∈ pre → NodeName leaf ≠ NodeName x) as Hne.
  { intros leaf Hleaf E. pose proof NoDup_Leaves as Hnd. rewrite Hl in Hnd.
    apply NoDup_app in Hnd as (_ & Hd & _). apply (Hd leaf Hleaf).
    rewrite (Leaves_name leaf x); [left|by auto..|done]. }
  destruct (splitOf_exact x resolved HxL Hx) as [Hnode Hsum].
  split; cbn [ByCluster Unresolved].
  - intros leaf r [Hleaf| ->]%Hin Hr; [by apply (ps_held _ _ P)|congruence].
  - intros n r Hn. apply (ps_reason _ _ P) in Hn as (leaf & ? & ? & ?). exists leaf. set_solver.
  - intros c a. rewrite elem_of_addPlaced, (ps_allowance _ _ P). setoid_rewrite Hin. split.
    + intros [(leaf & r & p & Hleaf & Hr)|(p & Hp)]; [exists leaf, r, p|exists x, resolved, p]; auto.
    + intros (leaf & r & p & [Hleaf| ->] & Hr & Hp); [left; exists leaf, r, p; auto|right].
      exists p. assert (r = resolved) as -> by congruence. done.
  - intros leaf r k Hleaf Hr. rewrite granted_addPlaced. apply Hin in Hleaf as [Hleaf| ->].
    + rewrite (ps_granted _ _ P leaf r) by done. rewrite qc_sum_zero; [ring|].
      intros p [Hp _]%elem_of_onItsClusters. unfold grant. rewrite decide_False; [done|].
      intros [E _]. destruct (Hnode p Hp) as [E' _]. apply (Hne leaf Hleaf). congruence.
    + rewrite granted_none, Hsum; [ring|]. intros c a Ha E.
      apply (ps_allowance _ _ P) in Ha as (leaf & r' & p & Hleaf & Hr' & [Hp _]%elem_of_onItsClusters & _ & <-).
      destruct (splitOf_exact leaf r' (Hpre leaf Hleaf) Hr') as [Hn' _].
      apply (Hne leaf Hleaf). destruct (Hn' p Hp) as [E' _]. congruence.
Qed.

Lemma Resolve_passed : ∃ out, Resolve t fleet opts = Ok out ∧ passed (Leaves t) out.
Proof.
  unfold Resolve. destruct (foldl readCapacity (∅, ∅) (FleetCapacity fleet)) as [bp h] eqn:E.
  assert (sort_slice weightLess <$> bp = weightsOf) as -> by (unfold weightsOf; by rewrite E).
  assert (h = homesOf) as -> by (unfold homesOf; by rewrite E).
  cut (∃ out, ofold (addLeaf weightsOf homesOf (silent fleet) opts) (mkResolution ∅ ∅) (Leaves t) = Ok out ∧
    passed (Leaves t) out).
  { intros (out & -> & P). eexists. split; [done|]. split; cbn [ByCluster Unresolved]; try apply P.
    - intros c a. rewrite <-(ps_allowance _ _ P c a), lookup_fmap.
      destruct (ByCluster out !! c); cbn; [|done]. by rewrite elem_of_sort_slice.
    - intros leaf r k Hleaf Hr. rewrite <-(ps_granted _ _ P leaf r k Hleaf Hr).
      unfold granted, map_qc_sum. rewrite map_to_list_fmap, qc_sum_fmap.
      apply qc_sum_ext. intros [c l] _. cbn [prod_map fst snd]. by rewrite sort_slice_perm. }
  destruct (ofold _ _ _) as [out|e|] eqn:Eo.
  - exists out. split; [done|].
    refine (ofold_Ok_ind _ passed _ _ _ _ _ Eo).
    { split; cbn; set_solver. }
    intros pre x post b b' Hl P Hb. unfold addLeaf in Hb. fold (splitOf x) in Hb.
    destruct (splitOf x) as [r|reason|] eqn:Ex; [..|done]; injection Hb as <-;
      [by eapply passed_split|by eapply passed_held].
  - exfalso. revert Eo. generalize (mkResolution (Q := Q) ∅ ∅). generalize (Leaves t).
    induction l as [|x l IH]; intros r; [done|]. cbn [ofold]. unfold addLeaf at 1.
    destruct (resolveLeaf x _ _ _ _); cbn [obind]; [apply IH..|done].
  - exfalso. revert Eo. apply ofold_no_panic. intros b x. unfold addLeaf.
    pose proof (resolveLeaf_no_panic weightsOf homesOf (silent fleet) opts x). by destruct (resolveLeaf x _ _ _ _).
Qed.
End pass.

(** ** When a leaf is held *)

Section held.
Context {Q : Type} `{QuantityOps Q} `{!QuantityLaws Q}.
Context (fleet : Fleet Q) (opts : ResolveOptions).

(** What the members report for a pair. *)
Definition pairWeights (k : key) : list (Weight Q) :=
  (λ c, mkWeight (mcCluster c) (mcAllocatable c)) <$>
    filter (λ c, (mcResourceName c, mcResourceFlavor c) = k) (FleetCapacity fleet).

Lemma weightsOf_pair k : default [] (weightsOf fleet !! k) ≡ₚ pairWeights k.
Proof.
  unfold weightsOf, pairWeights. rewrite lookup_fmap.
  assert (default [] ((foldl readCapacity (∅, ∅) (FleetCapacity fleet)).1 !! k)
    = (λ c, mkWeight (mcCluster c) (mcAllocatable c)) <$>
        filter (λ c, (mcResourceName c, mcResourceFlavor c) = k) (FleetCapacity fleet)) as <-.
  { set (P := λ pre (st : gmap key (list (Weight Q)) * gmap key (gset string)), default [] (st.1 !! k)
      = (λ c, mkWeight (mcCluster c) (mcAllocatable c)) <$>
          filter (λ c, (mcResourceName c, mcResourceFlavor c) = k) pre).
    apply (foldl_ind readCapacity P); [done|].
    unfold P. intros pre c post [m h] _ IH. cbn [fst] in IH. rewrite filter_app, fmap_app, <-IH.
    rewrite filter_cons, filter_nil. cbn [readCapacity fst]. case_decide as Hk.
    - rewrite <-Hk, lookup_insert_eq. done.
    - rewrite lookup_insert_ne by done. by rewrite app_nil_r. }
  destruct (_ !! k); cbn; [|done]. apply sort_slice_perm.
Qed.

Lemma split_valid_perm total (ws ws' : list (Weight Q)) :
  ws ≡ₚ ws' → split_valid total ws → split_valid total ws'.
Proof.
  intros Hp [H1 H2 H3 H4 H5 (w & Hw & Hpos)]. split; unfold names in *.
  - intros ->. by apply Permutation_nil_r in Hp.
  - done.
  - by rewrite <-Hp.
  - by rewrite <-Hp.
  - intros x Hx. rewrite <-Hp in Hx. auto.
  - exists w. by rewrite <-Hp.
Qed.

(** The policy of a budget: the first that is named of its own, its node's and the
    fleet's. *)
Definition governs (q : AcceleratorQuota Q) (b : AcceleratorBudget Q) (policy : string) : Prop :=
  head (filter (λ p, p ≠ "") [Policy b; default "" (Distribution (Spec q)); DefaultPolicy opts]) = Some policy.

(** What a budget needs to be split: under [Explicit], figures for distinct
    clusters that add up to it; under [Proportional], a report from every
    registered member, and capacities of its pair to be proportional to. *)
Definition splittable (q : AcceleratorQuota Q) (b : AcceleratorBudget Q) : Prop :=
  (governs q b "Explicit" ∧
   PerCluster b ≠ [] ∧ NoDup (csCluster <$> PerCluster b) ∧
   qc_sum (λ p, q_value (csNominal p)) (PerCluster b) = q_value (Nominal b)) ∨
  (governs q b "Proportional" ∧
   (∀ m, m ∈ Registered fleet → m ∈ Reported fleet) ∧
   split_valid (Nominal b) (pairWeights (ResourceName b, ResourceFlavor b))).

Lemma governs_policy q b policy : policy ≠ "" → governs q b policy ↔ effectivePolicy q b opts = policy.
Proof using.
  intros Hp. unfold governs, effectivePolicy.
  destruct (decide (Policy b ≠ "")) as [H1|H1].
  { rewrite filter_cons_True by done. cbn. split; [by intros [= ->]|by intros ->]. }
  rewrite filter_cons_False by done.
  assert (∀ p, head (filter (λ p, p ≠ "") [p; DefaultPolicy opts]) = Some policy ↔
    (if decide (p ≠ "") then p else DefaultPolicy opts) = policy) as Hd.
  { intros p. destruct (decide (p ≠ "")) as [H2|H2].
    - rewrite filter_cons_True by done. cbn. split; [by intros [= ->]|by intros ->].
    - rewrite filter_cons_False by done. destruct (decide (DefaultPolicy opts ≠ "")) as [H3|H3].
      + rewrite filter_cons_True by done. cbn. split; [by intros [= ->]|by intros ->].
      + rewrite filter_cons_False by done. apply dec_stable in H3. cbn. rewrite H3. naive_solver. }
  rewrite Hd. destruct (Distribution (Spec q)); cbn; [done|]. by rewrite decide_False by tauto.
Qed.

(** The explicit figures pass the loop exactly when no cluster is named
    twice. *)
Lemma explicitShare_loop b (ps : list (AcceleratorClusterShare Q)) :
  (∃ st, ofold (explicitShare b) ([], ∅) ps = Ok st) ↔ NoDup (csCluster <$> ps).
Proof.
  cut (∀ out (seen : gset string), (∃ st, ofold (explicitShare b) (out, seen) ps = Ok st) ↔
    NoDup (csCluster <$> ps) ∧ ∀ p, p ∈ ps → csCluster p ∉ seen).
  { intros Hc. rewrite Hc. set_solver. }
  induction ps as [|p ps IH]; intros out seen; cbn [ofold fmap list_fmap].
  { split; [intros _; split; [constructor|set_solver]|eauto]. }
  unfold explicitShare at 1. case_decide as Hseen; cbn [obind].
  - split; [by intros []|]. intros [_ Hs]. destruct (Hs p); [left|done].
  - rewrite IH, NoDup_cons. set_solver.
Qed.

Lemma explicitShare_out b (ps : list (AcceleratorClusterShare Q)) st :
  ofold (explicitShare b) ([], ∅) ps = Ok st →
  st.1 = (λ p, mkShare (csCluster p) (csNominal p)) <$> ps.
Proof.
  intros Hf. refine (ofold_Ok_ind _ (λ pre st, st.1 = (λ p, mkShare (csCluster p) (csNominal p)) <$> pre)
    _ _ _ _ _ Hf); [done|].
  intros pre x post [o seen] b' _ IH. unfold explicitShare. case_decide; [done|].
  intros [= <-]. cbn in *. by rewrite fmap_app, IH.
Qed.

Lemma Cmp_0_iff a b : q_Cmp a b = 0 ↔ q_value a = q_value b.
Proof. split; [apply Cmp_0|]. intros E. rewrite law_Cmp, E, (proj1 (Qceq_alt _ _) eq_refl). done. Qed.

Lemma explicit_ok b :
  (∃ split, explicit b = Ok split) ↔
  PerCluster b ≠ [] ∧ NoDup (csCluster <$> PerCluster b) ∧
  qc_sum (λ p, q_value (csNominal p)) (PerCluster b) = q_value (Nominal b).
Proof.
  unfold explicit. case_decide as Hn; [split; [by intros []|by intros []]|].
  rewrite <-(explicitShare_loop b).
  destruct (ofold (explicitShare b) ([], ∅) (PerCluster b)) as [st|e|] eqn:E; cbn [obind].
  - assert (q_value (Sum st.1) = qc_sum (λ p, q_value (csNominal p)) (PerCluster b)) as Hs.
    { by rewrite Sum_value, (explicitShare_out _ _ _ E), qc_sum_fmap. }
    case_decide as Hc; rewrite Cmp_0_iff, Hs in Hc.
    + split; [by intros []|]. by intros (_ & _ & ?).
    + split; eauto.
  - split; [by intros []|]. by intros (_ & [] & _).
  - split; [by intros []|]. by intros (_ & [] & _).
Qed.

Lemma resolveBudget_ok leaf out b :
  (∃ out', resolveBudget leaf (weightsOf fleet) (homesOf fleet) (silent fleet) opts out b = Ok out') ↔
  splittable (Quota leaf) b.
Proof.
  unfold resolveBudget, splittable. rewrite !governs_policy by done.
  change (ResourceName b, ResourceFlavor b) with (keyOfBudget b).
  set (policy := effectivePolicy (Quota leaf) b opts).
  case_decide as He.
  { assert (policy ≠ AcceleratorQuotaDistributionProportional) by (by rewrite He).
    rewrite <-explicit_ok. destruct (explicit b); cbn; naive_solver. }
  case_decide as Hp; [|naive_solver].
  assert ((∀ m, m ∈ Registered fleet → m ∈ Reported fleet) ↔ silent fleet = []) as Hrep.
  { split.
    - intros Hall. apply dec_stable. intros (m & Hm & Hn)%(silent_spec fleet). by apply Hn, Hall.
    - intros Hno m Hm. apply dec_stable. intros Hn. apply (proj2 (silent_spec fleet)); eauto. }
  rewrite Hrep. case_decide as Hs; [naive_solver|].
  pose proof (weightsOf_pair (keyOfBudget b)) as Hw.
  case_decide as Hnil.
  { rewrite Hnil in Hw. apply Permutation_nil_l in Hw. split; [by intros []|].
    intros [[? _]|(_ & _ & Hv)]; [done|]. by destruct (sv_some _ _ Hv). }
  destruct (Proportional_cases (Nominal b) (default [] (weightsOf fleet !! keyOfBudget b))) as [[e Hpe]|Hv].
  - rewrite Hpe. cbn. split; [by intros []|]. intros [[? _]|(_ & _ & Hv)]; [done|].
    apply (split_valid_perm _ _ _ (symmetry Hw)) in Hv.
    destruct (Proportional_valid _ _ Hv) as (amounts & Hok & _). congruence.
  - destruct (Proportional_valid _ _ Hv) as (amounts & -> & _). cbn. split; [|eauto].
    intros _. right. split_and!; [done..|]. by apply (split_valid_perm _ _ _ Hw).
Qed.

Lemma splitOf_ok leaf :
  (∃ resolved, splitOf fleet opts leaf = Ok resolved) ↔
  ∀ b, b ∈ Budgets (Spec (Quota leaf)) → splittable (Quota leaf) b.
Proof.
  unfold splitOf, resolveLeaf. generalize (@nil (placed Q)) as out.
  induction (Budgets (Spec (Quota leaf))) as [|b bs IH]; intros out; cbn [ofold]; [set_solver|].
  pose proof (resolveBudget_ok leaf out b) as Hb.
  destruct (resolveBudget leaf _ _ _ _ out b) as [o| |]; cbn [obind].
  - rewrite IH. assert (splittable (Quota leaf) b) by (apply Hb; eauto). set_solver.
  - split; [by intros []|]. intros Hall. destruct (proj2 Hb) as [? [=]]. apply Hall. left.
  - split; [by intros []|]. intros Hall. destruct (proj2 Hb) as [? [=]]. apply Hall. left.
Qed.
End held.

(** ** The properties *)

(** Two members with the sample fleet's flavor, the second one's nodes parked. *)
Definition two_members : Fleet decimal :=
  mkFleet ["east"; "west"] ["west"; "east"]
    [mkMemberCapacity "west" "tpu" "v5" (dec 0) (dec 4) None;
     mkMemberCapacity "east" "tpu" "v5" (dec 8) (dec 8) None].
Definition proportional : ResolveOptions := mkResolveOptions "Proportional".

Definition sample_options : Options := mkOptions "root" 3.
Definition sample_tree : Tree decimal :=
  match Build sample_fleet sample_options with Ok (t, _) => t | _ => mkTree None ∅ end.
Definition resolution (fleet : Fleet decimal) : Resolution decimal :=
  match Resolve sample_tree fleet proportional with Ok res => res | _ => mkResolution ∅ ∅ end.

Lemma sample_tree_built : Build sample_fleet sample_options = Ok (sample_tree, []).
Proof. vm_compute. reflexivity. Qed.

Lemma sample_leaves leaf : leaf ∈ Leaves sample_tree → leaf_scales leaf.
Proof.
  intros Hleaf. vm_compute in Hleaf.
  apply elem_of_cons in Hleaf as [-> | [-> | []%elem_of_nil]%elem_of_cons]; repeat constructor; done.
Qed.

(** Leaf [b] of the sample. *)
Definition leaf_b : Node decimal := default (mkNode (sample_quota "" "" None 0) None [] 0) (nodes sample_tree !! "b").

Lemma leaf_b_leaf : leaf_b ∈ Leaves sample_tree.
Proof. vm_compute. right. left. Qed.

Example resolve_sample :
  Unresolved (resolution two_members) = ∅ ∧
  ByCluster (resolution two_members) !! "west" =
    Some [mkAllowance "a" "tpu" "v5" (dec 0); mkAllowance "b" "tpu" "v5" (dec 0)].
Proof. split; vm_compute; reflexivity. Qed.

(** C30: One pass of the split always returns, and no leaf is granted more or
    less than was authored: a leaf is either held with a reason, and then no
    cluster has an allowance of it, or it has no reason and, for every
    (resource, flavor) pair, its allowances over all the clusters add up
    exactly to its budgets of that pair. *)
Theorem Resolve_conserves {Q} `{QuantityOps Q} `{!QuantityLaws Q}
    (quotas : list (AcceleratorQuota Q)) topts t vs (fleet : Fleet Q) opts :
  Build quotas topts = Ok (t, vs) → fleet_scales fleet →
  (∀ leaf, leaf ∈ Leaves t → leaf_scales leaf) →
  ∃ res, Resolve t fleet opts = Ok res ∧
    ∀ leaf, leaf ∈ Leaves t →
      (is_Some (Unresolved res !! NodeName leaf) ∧
       ∀ c a, a ∈ default [] (ByCluster res !! c) → ANode a ≠ NodeName leaf) ∨
      (Unresolved res !! NodeName leaf = None ∧
       ∀ k, granted (ByCluster res) (NodeName leaf) k = authored k (Budgets (Spec (Quota leaf)))).
Proof.
  intros (_ & B)%Build_inv Hf Hl. pose proof (shaped_keyed _ _ (bu_shaped _ _ _ _ B)) as Hk.
  destruct (Resolve_passed fleet opts t Hk Hf Hl) as (res & Hres & P). exists res. split; [done|].
  intros leaf Hleaf. destruct (splitOf fleet opts leaf) as [r|reason|] eqn:E.
  - right. split.
    + apply eq_None_not_Some. intros [reason Hr].
      apply (ps_reason _ _ _ _ P) in Hr as (leaf' & Hleaf' & Hn & E').
      rewrite (Leaves_name t Hk leaf' leaf) in E' by done. congruence.
    + intros k. by apply (ps_granted _ _ _ _ P leaf r).
  - left. split; [exists reason; by apply (ps_held _ _ _ _ P)|]. intros c a Ha Hn.
    apply (ps_allowance _ _ _ _ P) in Ha as (leaf' & r & p & Hleaf' & E' & [Hp _]%elem_of_onItsClusters & _ & <-).
    destruct (splitOf_exact fleet opts t Hf Hl leaf' r Hleaf' E') as [Hnode _].
    destruct (Hnode p Hp) as [Hn' _]. rewrite (Leaves_name t Hk leaf' leaf) in E' by congruence. congruence.
  - by apply resolveLeaf_no_panic in E.
Qed.

Lemma Resolve_conserves_witness :
  Resolve sample_tree two_members proportional = Ok (resolution two_members) ∧
  granted (ByCluster (resolution two_members)) "b" ("tpu", "v5")
  = authored ("tpu", "v5") (Budgets (Spec (Quota leaf_b))).
Proof.
  destruct (Resolve_conserves sample_fleet sample_options sample_tree [] two_members proportional)
    as (res & Hres & Hall).
  - apply sample_tree_built.
  - repeat constructor; done.
  - apply sample_leaves.
  - assert (res = resolution two_members) as -> by (unfold resolution; by rewrite Hres).
    split; [exact Hres|]. destruct (Hall leaf_b leaf_b_leaf) as [[[? Hr] _]|[_ Hg]]; [|exact (Hg _)].
    vm_compute in Hr. done.
Defined.

(** C31: Exactly which leaves are held.  A leaf is reported unresolved exactly
    when one of its budgets cannot be split: an explicit budget without
    figures, with a cluster named twice or with figures that do not add up to
    it; a proportional budget while a registered member has not reported, or
    whose pair no member can be proportional to; or a budget without any
    policy.  A budget's policy is its own, its node's where it names none, and the
    fleet's where neither does. *)
Theorem Resolve_unresolved_iff {Q} `{QuantityOps Q} `{!QuantityLaws Q}
    (quotas : list (AcceleratorQuota Q)) topts t vs (fleet : Fleet Q) opts res leaf :
  Build quotas topts = Ok (t, vs) → fleet_scales fleet →
  (∀ leaf, leaf ∈ Leaves t → leaf_scales leaf) →
  Resolve t fleet opts = Ok res → leaf ∈ Leaves t →
  is_Some (Unresolved res !! NodeName leaf) ↔
  ¬ ∀ b, b ∈ Budgets (Spec (Quota leaf)) → splittable fleet opts (Quota leaf) b.
Proof.
  intros (_ & B)%Build_inv Hf Hl Hres Hleaf. pose proof (shaped_keyed _ _ (bu_shaped _ _ _ _ B)) as Hk.
  destruct (Resolve_passed fleet opts t Hk Hf Hl) as (res' & Hres' & P).
  assert (res' = res) as -> by congruence. rewrite <-(splitOf_ok fleet opts leaf). split.
  - intros [reason Hr] [r E]. apply (ps_reason _ _ _ _ P) in Hr as (leaf' & Hleaf' & Hn & E').
    rewrite (Leaves_name t Hk leaf' leaf) in E' by done. congruence.
  - intros Hno. destruct (splitOf fleet opts leaf) as [r|reason|] eqn:E; [by destruct Hno; eauto| |].
    + exists reason. by apply (ps_held _ _ _ _ P).
    + by apply resolveLeaf_no_panic in E.
Qed.

(** West is registered and has not reported: leaf [b] is held. *)
Definition west_silent : Fleet decimal := mkFleet ["east"; "west"] ["east"] (FleetCapacity two_members).

Lemma Resolve_unresolved_iff_witness :
  is_Some (Unresolved (resolution west_silent) !! "b") ∧
  ¬ ∀ b, b ∈ Budgets (Spec (Quota leaf_b)) → splittable west_silent proportional (Quota leaf_b) b.
Proof.
  assert (is_Some (Unresolved (resolution west_silent) !! "b")) as Hr by (vm_compute; eauto).
  split; [exact Hr|].
  apply (Resolve_unresolved_iff sample_fleet sample_options sample_tree [] west_silent proportional
           (resolution west_silent) leaf_b).
  - apply sample_tree_built.
  - repeat constructor; done.
  - apply sample_leaves.
  - vm_compute. reflexivity.
  - apply leaf_b_leaf.
  - exact Hr.
Defined.
