(* ===== verification/ProjectionFacts.v ===== *)
(** * A projection is a tree its member accepts

    The loops of [For], and the theorems about its result: which objects it
    holds and what they carry, exactly when it fails, and that a member that
    applies the copies one at a time, in the order they come, has a well-formed
    tree after every one of them. *)

From S2P Require Import Prelude Quantity Api Violation Tree TreeFacts TreeBuild Projection.
Local Open Scope Z_scope.

Section loops.
Context {Q : Type} `{QuantityOps Q}.
Context (t : Tree Q).

(** ** The allowances by node *)

(** The allowances of one node, in the order given. *)
Definition allowancesOf (l : list (Allowance Q)) (n : string) : list (Allowance Q) :=
  filter (λ a, ANode a = n) l.

Definition on_leaf (a : Allowance Q) : Prop := ∃ nd, nodes t !! ANode a = Some nd ∧ IsLeaf nd = true.

Lemma groupAllowance_ok m a :
  (∃ m', groupAllowance t m a = Ok m') ↔ on_leaf a.
Proof.
  unfold groupAllowance, NodeNamed, on_leaf. destruct (nodes t !! ANode a) as [nd|].
  - destruct (IsLeaf nd) eqn:E; cbn; split; eauto; [by intros []|].
    intros (nd' & [= <-] & ?). congruence.
  - split; [by intros []|]. by intros (? & ? & ?).
Qed.

Lemma groupAllowance_loop l m :
  (∃ m', ofold (groupAllowance t) m l = Ok m') ↔ ∀ a, a ∈ l → on_leaf a.
Proof.
  revert m. induction l as [|a l IH]; intros m; cbn [ofold]; [set_solver|].
  pose proof (groupAllowance_ok m a) as Ha.
  destruct (groupAllowance t m a) as [m'| |]; cbn [obind].
  - rewrite IH. assert (on_leaf a) by (apply Ha; eauto). set_solver.
  - split; [by intros []|]. intros Hall. destruct (proj2 Ha) as [? [=]]. apply Hall. left.
  - split; [by intros []|]. intros Hall. destruct (proj2 Ha) as [? [=]]. apply Hall. left.
Qed.

Lemma groupAllowance_spec l m :
  ofold (groupAllowance t) ∅ l = Ok m →
  ∀ n, m !! n = if decide (allowancesOf l n = []) then None else Some (allowancesOf l n).
Proof.
  intros Hf. refine (ofold_Ok_ind _ (λ pre (m : gmap string (list (Allowance Q))),
    ∀ n, m !! n = if decide (allowancesOf pre n = []) then None else Some (allowancesOf pre n))
    _ _ _ _ _ Hf); [done|].
  intros pre a post b b' _ IH Hb n. unfold groupAllowance in Hb.
  destruct (NodeNamed t (ANode a)) as [nd|]; [|done]. destruct (negb (IsLeaf nd)); [done|].
  injection Hb as <-. unfold allowancesOf. rewrite filter_app, filter_cons, filter_nil.
  destruct (decide (ANode a = n)) as [<-|Hne].
  - rewrite lookup_insert_eq, decide_False by (by intros [_ ?]%app_nil). rewrite IH.
    case_decide as E; cbn; [unfold allowancesOf in E; by rewrite E|done].
  - rewrite lookup_insert_ne, app_nil_r by done. apply IH.
Qed.

Lemma grouped_keys l m n :
  ofold (groupAllowance t) ∅ l = Ok m → (is_Some (m !! n) ↔ ∃ a, a ∈ l ∧ ANode a = n).
Proof.
  intros Hm. rewrite (groupAllowance_spec l m Hm). case_decide as E.
  - split; [by intros []|]. intros (a & Ha & Hn).
    assert (a ∈ allowancesOf l n) as Hin by (by apply list_elem_of_filter).
    rewrite E in Hin. by apply elem_of_nil in Hin.
  - split; [|eauto]. intros _. destruct (allowancesOf l n) as [|a l'] eqn:E'; [done|].
    assert (a ∈ allowancesOf l n) as [Hn Ha]%list_elem_of_filter by (rewrite E'; left). eauto.
Qed.

(** ** The nodes that are copied *)

Context (Hkeyed : node_keyed t).

(** A leaf with allowances, or a tier above one, the root left out. *)
Definition copied (ns : list string) (k : string) (nd : Node Q) : Prop :=
  nodes t !! k = Some nd ∧
  ∃ n, n ∈ ns ∧ is_Some (nodes t !! n) ∧ (k = n ∨ k ∈ Ancestors t n ∧ Parent nd ≠ None).

(** A tier is entered when it is in the tree and is not the root. *)
Definition tier (l : list string) (k : string) : option (Node Q) :=
  nodes t !! k ≫= λ nd, if decide (k ∈ l ∧ Parent nd ≠ None) then Some nd else None.

Lemma tier_Some l k nd : tier l k = Some nd ↔ nodes t !! k = Some nd ∧ k ∈ l ∧ Parent nd ≠ None.
Proof.
  unfold tier. destruct (nodes t !! k) as [nd'|]; cbn; [|naive_solver].
  case_decide; naive_solver.
Qed.

Lemma include_ancestors l (m : gmap string (Node Q)) k :
  foldl (includeAncestor t) m l !! k = from_option Some (m !! k) (tier l k).
Proof.
  revert m. induction l as [|a l IH]; intros m; cbn [foldl].
  { unfold tier. destruct (nodes t !! k); cbn; [|done]. by rewrite decide_False by set_solver. }
  rewrite IH. unfold tier, includeAncestor.
  destruct (decide (k = a)) as [->|Hne].
  - destruct (nodes t !! a) as [na|] eqn:Ea; cbn; [|done]. rewrite (Hkeyed a na Ea).
    destruct (decide (Parent na = None)) as [Hp|Hp].
    + by rewrite !decide_False by (by intros [_ ?]).
    + rewrite lookup_insert_eq, (decide_True (P := a ∈ a :: l ∧ _)) by (split; [left|done]).
      by case_decide.
  - assert (∀ m' : gmap string (Node Q), (∀ k', k' ≠ a → m' !! k' = m !! k') → m' !! k = m !! k) as Hm by auto.
    rewrite Hm.
    2:{ intros k' Hk'. destruct (nodes t !! a) as [na|] eqn:Ea; [|done]. case_decide; [done|].
        rewrite (Hkeyed a na Ea). by rewrite lookup_insert_ne. }
    destruct (nodes t !! k) as [nd|]; cbn; [|done]. erewrite decide_ext; [reflexivity|]. set_solver.
Qed.

Lemma include_spec ns k nd :
  foldl (includeLeaf t) ∅ ns !! k = Some nd ↔ copied ns k nd.
Proof.
  refine (foldl_ind (includeLeaf t) (λ pre (m : gmap string (Node Q)), ∀ k nd, m !! k = Some nd ↔ copied pre k nd)
    ∅ ns _ _ k nd).
  { intros k' nd'. rewrite lookup_empty. unfold copied. split; [done|]. set_solver. }
  clear k nd. intros pre n post m _ IH k nd. unfold includeLeaf, NodeNamed.
  assert (copied (pre ++ [n]) k nd ↔ copied pre k nd ∨
    (nodes t !! k = Some nd ∧ is_Some (nodes t !! n) ∧ (k = n ∨ k ∈ Ancestors t n ∧ Parent nd ≠ None))) as ->.
  { unfold copied. split.
    - intros (Hk & n' & [Hn|Hn%list_elem_of_singleton]%elem_of_app & Hs & Hor); [left; eauto 10|right; by subst].
    - intros [(Hk & n' & Hn & Hs & Hor)|(Hk & Hs & Hor)]; (split; [done|]).
      + exists n'. split; [apply elem_of_app; by left|done].
      + exists n. split; [apply elem_of_app; right; by apply list_elem_of_singleton|done]. }
  destruct (nodes t !! n) as [nn|] eqn:En.
  2:{ rewrite IH. split; [by left|]. intros [?|(_ & [] & _)]; done. }
  rewrite include_ancestors. destruct (tier (Ancestors t n) k) as [nt|] eqn:Et; cbn [from_option].
  - apply tier_Some in Et as (Hk & Ha & Hp). split.
    + intros [= ->]. right. split; [done|]. split; [by eauto|]. by right.
    + intros [Hc|(Hk' & _)]; [|congruence]. destruct Hc as [Hk' _]. congruence.
  - assert (¬ (nodes t !! k = Some nd ∧ k ∈ Ancestors t n ∧ Parent nd ≠ None)) as Hno.
    { rewrite <-tier_Some. congruence. }
    destruct (decide (k = n)) as [->|Hne].
    + rewrite lookup_insert_eq. split.
      * intros [= ->]. right. split; [done|]. split; [by eauto|by left].
      * intros [Hc|(Hk' & _)]; [|congruence]. destruct Hc as [Hk' _]. congruence.
    + rewrite lookup_insert_ne, IH by done. split; [by left|].
      intros [Hc|(Hk' & _ & [?|[Ha Hp]])]; [done|congruence|]. by destruct Hno.
Qed.
End loops.

Section rendering.
Context {Q : Type} `{QuantityOps Q}.

(** ** The budgets of a copy *)

Lemma sourceBudgets_spec (src : AcceleratorQuota Q) k :
  (∀ b, sourceBudgets src !! k = Some b → b ∈ Budgets (Spec src) ∧ keyOfBudget b = k) ∧
  (is_Some (sourceBudgets src !! k) ↔ k ∈ keyOfBudget <$> Budgets (Spec src)).
Proof.
  unfold sourceBudgets.
  refine (foldl_ind _ (λ pre (m : gmap key (AcceleratorBudget Q)), ∀ k,
    (∀ b, m !! k = Some b → b ∈ pre ∧ keyOfBudget b = k) ∧ (is_Some (m !! k) ↔ k ∈ keyOfBudget <$> pre))
    ∅ (Budgets (Spec src)) _ _ k).
  { intros k'. rewrite lookup_empty. split; [done|]. split; [by intros []|]. cbn. by intros ?%elem_of_nil. }
  clear k. intros pre b post m _ IH k. rewrite fmap_app. cbn [fmap list_fmap].
  rewrite elem_of_app, list_elem_of_singleton. destruct (IH k) as [IH1 IH2]. split.
  - intros b' [[Hk <-]|[_ Hm]]%lookup_insert_Some.
    + split; [apply elem_of_app; right; by apply list_elem_of_singleton|done].
    + destruct (IH1 b' Hm). split; [apply elem_of_app; by left|done].
  - destruct (decide (keyOfBudget b = k)) as [Hk|Hk].
    + rewrite Hk, lookup_insert_eq. split; eauto.
    + rewrite lookup_insert_ne by done. rewrite IH2. split; [by left|]. intros [?|?]; congruence.
Qed.

(** A projected budget: the pair and the limits of a source budget, the
    resolved number, and nothing of the split. *)
Definition budget_copy (src : AcceleratorQuota Q) (a : Allowance Q) (b : AcceleratorBudget Q) : Prop :=
  keyOfBudget b = keyOfAllowance a ∧ Nominal b = ANominal a ∧ Policy b = "" ∧ PerCluster b = [] ∧
  ∃ s, s ∈ Budgets (Spec src) ∧ keyOfBudget s = keyOfAllowance a ∧
    BorrowingLimit b = BorrowingLimit s ∧ LendingLimit b = LendingLimit s.

Definition funded (src : AcceleratorQuota Q) (a : Allowance Q) : Prop :=
  keyOfAllowance a ∈ keyOfBudget <$> Budgets (Spec src).

Lemma projectBudget_ok src out a :
  (∃ out', projectBudget src (sourceBudgets src) out a = Ok out') ↔ funded src a.
Proof.
  unfold projectBudget, funded. rewrite <-(proj2 (sourceBudgets_spec src (keyOfAllowance a))).
  destruct (sourceBudgets src !! keyOfAllowance a); split; eauto; by intros [].
Qed.

Lemma projectBudget_loop src out given :
  (∃ out', ofold (projectBudget src (sourceBudgets src)) out given = Ok out') ↔
  ∀ a, a ∈ given → funded src a.
Proof.
  revert out. induction given as [|a given IH]; intros out; cbn [ofold]; [set_solver|].
  pose proof (projectBudget_ok src out a) as Ha.
  destruct (projectBudget src _ out a) as [o| |]; cbn [obind].
  - rewrite IH. assert (funded src a) by (apply Ha; eauto). set_solver.
  - split; [by intros []|]. intros Hall. destruct (proj2 Ha) as [? [=]]. apply Hall. left.
  - split; [by intros []|]. intros Hall. destruct (proj2 Ha) as [? [=]]. apply Hall. left.
Qed.

Lemma projectBudgets_copies src given out :
  projectBudgets src given = Ok out → ∃ out0, out ≡ₚ out0 ∧ Forall2 (budget_copy src) given out0.
Proof.
  unfold projectBudgets. intros (out0 & Hf & [= <-])%obind_Ok_inv. exists out0.
  split; [apply sort_slice_perm|].
  refine (ofold_Ok_ind _ (Forall2 (budget_copy src)) _ _ _ _ _ Hf); [constructor|].
  intros pre a post o o' _ IH. unfold projectBudget.
  destruct (sourceBudgets src !! keyOfAllowance a) as [s|] eqn:E; [|done]. intros [= <-].
  apply Forall2_app; [done|]. constructor; [|constructor].
  destruct (proj1 (sourceBudgets_spec src _) s E) as [Hs Hk].
  split; [done|]. split_and!; [done..|]. exists s. done.
Qed.

(** ** One copy *)

(** What the copy of a node carries over, and what it leaves behind. *)
Record copy_spec (nd : Node Q) (cluster : string) (given : list (Allowance Q)) (opts : ProjectOptions)
    (q : AcceleratorQuota Q) : Prop := {
  cp_name : QName q = NodeName nd;
  cp_role : SpecRole (Spec q) = NodeRole nd;
  cp_parent : ParentRef (Spec q) = ParentRef (Spec (Quota nd));
  cp_distribution : Distribution (Spec q) = None;
  cp_tier : PriorityTier (Spec q) = if IsLeaf nd then PriorityTier (Spec (Quota nd)) else "";
  cp_origin : Labels q = {[ AcceleratorQuotaOriginLabel := Origin opts ]};
  cp_cluster : Annotations q !! AcceleratorQuotaClusterAnnotation = Some cluster;
  cp_budgets : if IsLeaf nd
               then ∃ bs, Budgets (Spec q) ≡ₚ bs ∧ Forall2 (budget_copy (Quota nd)) given bs
               else Budgets (Spec q) = [];
}.

Lemma render_spec nd cluster given opts q :
  render nd cluster given opts = Ok q → copy_spec nd cluster given opts q.
Proof.
  unfold render. destruct (IsLeaf nd) eqn:El; cbn [negb].
  - intros (bs & Hb & [= <-])%obind_Ok_inv. apply projectBudgets_copies in Hb.
    split; try done; rewrite El; done.
  - intros [= <-]. split; try done; rewrite El; done.
Qed.

Lemma render_ok nd cluster given opts :
  (∃ q, render nd cluster given opts = Ok q) ↔
  (IsLeaf nd = true → ∀ a, a ∈ given → funded (Quota nd) a).
Proof.
  unfold render, projectBudgets. destruct (IsLeaf nd); cbn [negb]; [|split; [done|eauto]].
  pose proof (projectBudget_loop (Quota nd) [] given) as Hl.
  destruct (ofold _ [] given) as [o| |]; cbn [obind].
  - split; [|eauto]. intros _ _. apply Hl. eauto.
  - split; [by intros []|]. intros Hall. destruct (proj2 Hl (Hall eq_refl)) as [? [=]].
  - split; [by intros []|]. intros Hall. destruct (proj2 Hl (Hall eq_refl)) as [? [=]].
Qed.

(** ** The loop over the copied nodes *)

Context (cluster : string) (opts : ProjectOptions).
Context (byNode : gmap string (list (Allowance Q))) (include : gmap string (Node Q)).

Definition rendered (k : string) (q : AcceleratorQuota Q) : Prop :=
  ∃ nd, include !! k = Some nd ∧ render nd cluster (default [] (byNode !! k)) opts = Ok q.

Lemma renderIncluded_loop ks out :
  (∀ k, k ∈ ks → is_Some (include !! k)) →
  ofold (renderIncluded cluster byNode opts include) [] ks = Ok out → Forall2 rendered ks out.
Proof.
  intros Hks Hf. refine (ofold_Ok_ind _ (Forall2 rendered) _ _ _ _ _ Hf); [constructor|].
  intros pre k post o o' Hl IH. unfold renderIncluded.
  destruct (Hks k) as [nd Hnd]; [rewrite Hl; apply elem_of_app; right; left|]. rewrite Hnd.
  intros (q & Hq & [= <-])%obind_Ok_inv. apply Forall2_app; [done|].
  constructor; [exists nd; done|constructor].
Qed.

Lemma renderIncluded_total ks out :
  (∀ k nd, k ∈ ks → include !! k = Some nd →
     ∃ q, render nd cluster (default [] (byNode !! k)) opts = Ok q) →
  ∃ out', ofold (renderIncluded cluster byNode opts include) out ks = Ok out'.
Proof.
  revert out. induction ks as [|k ks IH]; intros out Hall; cbn [ofold]; [eauto|].
  unfold renderIncluded at 1. destruct (include !! k) as [nd|] eqn:E.
  - destruct (Hall k nd) as [q Hq]; [left|done|]. rewrite Hq. cbn [obind]. apply IH.
    intros k' nd' Hk'. apply Hall. by right.
  - cbn [obind]. apply IH. intros k' nd' Hk'. apply Hall. by right.
Qed.
End rendering.

(** ** The line above a node that is not frozen *)

Section lines.
Context {Q : Type} `{QuantityOps Q} `{!QuantityLaws Q}.
Context (quotas : list (AcceleratorQuota Q)) (opts : Options) (t : Tree Q) (vs : Violations).
Context (B : built quotas opts t vs) (Hnames : "" ∉ QName <$> quotas).
Let qs := objects quotas.

(** [k] has a place within the depth limit, and only groupings above it. *)
Definition line_ok (k : string) : Prop :=
  (∃ d, descends qs (RootName opts) d k ∧ (0 < MaxDepth opts → Z.of_nat d ≤ MaxDepth opts)) ∧
  ∀ j a, above qs (S j) k = Some a →
    ∃ qa, qs !! a = Some qa ∧ SpecRole (Spec qa) = AcceleratorQuotaRoleCohort.

(** What the checks report of a node is among the violations. *)
Lemma reported v : v ∈ checkDepth t (MaxDepth opts) ∨ v ∈ checkNodeKind t → v ∈ vs.
Proof.
  intros Hv. destruct (bu_reports _ _ _ _ B) as (dups & _ & _ & ->). rewrite elem_of_sorted, !elem_of_app. tauto.
Qed.

Lemma node_in_Nodes k n : nodes t !! k = Some n → NodeName n = k ∧ n ∈ Nodes t.
Proof.
  intros Hn. pose proof (shaped_keyed _ _ (bu_shaped _ _ _ _ B)) as Hk. split; [by apply Hk|].
  apply elem_of_Nodes; [done|]. by rewrite (Hk k n Hn).
Qed.

Lemma unfrozen_depth k n :
  nodes t !! k = Some n → Frozen t vs !! k = None → 0 < MaxDepth opts → Depth n ≤ MaxDepth opts.
Proof.
  intros Hn Hf Hpos. apply Z.nlt_ge. intros Hlt. destruct (node_in_Nodes k n Hn) as [Hname Hin].
  eapply (unfrozen_clear quotas opts t vs B Hnames k k (violation k AcceleratorQuotaReasonDepthExceeded ""
    "node is %d levels below the root, exceeding the configured maximum of %d"
    [AInt (Depth n); AInt (MaxDepth opts)])); [|done|apply under_refl| |done].
  - apply (sh_dom _ _ (bu_shaped _ _ _ _ B)). eauto.
  - apply reported. left. unfold checkDepth. rewrite decide_False by lia.
    apply list_elem_of_bind. exists n. split; [|done]. rewrite decide_True, Hname by done. left.
Qed.

(** A parent above such a node is a grouping. *)
Lemma unfrozen_grouping k c a na :
  is_Some (qs !! k) → Frozen t vs !! k = None → under qs c k → parentOf qs c = Some a →
  nodes t !! a = Some na → NodeRole na = AcceleratorQuotaRoleCohort.
Proof.
  intros Hk Hf Hc Hp Hna. destruct (node_in_Nodes a na Hna) as [Hname Hin].
  assert (under qs a k) as Ha.
  { destruct Hc as [i Hi]. exists (S i). by rewrite above_S_r, Hi. }
  assert (∀ v, v ∈ (if decide (NodeRole na = AcceleratorQuotaRoleClusterQueue) then checkClusterQueueNode na
     else if decide (NodeRole na = AcceleratorQuotaRoleCohort) then checkCohortNode na
     else [violation (NodeName na) AcceleratorQuotaReasonNodeKindInvalid "" "unknown role %q" [AStr (NodeRole na)]])
     → v ∈ vs) as Hrep.
  { intros v Hv. apply reported. right. unfold checkNodeKind. apply list_elem_of_bind. eauto. }
  destruct (decide (NodeRole na = AcceleratorQuotaRoleClusterQueue)) as [Hq|Hq].
  - exfalso. set (v := violation c AcceleratorQuotaReasonNodeKindInvalid (NodeName na)
      "parent %q is a ClusterQueue node, which takes no children; attach to a Cohort, or add a ClusterQueue leaf beside it instead"
      [AStr (NodeName na)]).
    apply (unfrozen_clear quotas opts t vs B Hnames k c v Hk Hf Hc); [|done]. apply Hrep.
    unfold checkClusterQueueNode. apply elem_of_app. left. apply list_elem_of_fmap. exists c. split; [done|].
    apply (shaped_childrenAt qs t a (bu_shaped _ _ _ _ B) c) in Hp. unfold childrenAt in Hp.
    by rewrite Hna in Hp.
  - destruct (decide (NodeRole na = AcceleratorQuotaRoleCohort)) as [?|Hno]; [done|exfalso].
    eapply (unfrozen_clear quotas opts t vs B Hnames k a _ Hk Hf Ha); [apply Hrep; left|done].
Qed.

Lemma unfrozen_line k : is_Some (nodes t !! k) → Frozen t vs !! k = None → line_ok k.
Proof.
  intros [n Hn] Hf. pose proof (bu_shaped _ _ _ _ B) as S.
  assert (is_Some (qs !! k)) as Hk by (apply (sh_dom _ _ S); eauto).
  pose proof (unfrozen_reachable quotas opts t vs B Hnames k n Hn Hf) as Hr. split.
  - destruct (bu_positioned _ _ _ _ B k n Hn) as [[Hd _]|(d & Hd & Hroot)].
    { unfold Reachable in Hr. rewrite Hd in Hr. done. }
    exists d. split; [by apply rooted_descends|]. intros Hpos.
    rewrite <-Hd. by eapply unfrozen_depth.
  - intros j a Ha. rewrite above_S_r in Ha. destruct (above qs j k) as [c|] eqn:Hc; [|done]. cbn in Ha.
    apply parentOf_dom in Ha as Hdom. destruct Hdom as (_ & [qa Hqa] & _). exists qa. split; [done|].
    destruct (proj2 (sh_dom _ _ S a)) as [na Hna]; [by eauto|].
    pose proof (sh_node _ _ S a na Hna) as (Hqa' & _). fold qs in Hqa'. assert (Quota na = qa) as <- by congruence.
    eapply (unfrozen_grouping k c a na); [done|done|by exists j|done|done].
Qed.
End lines.

(** ** The result *)

Section result.
Context {Q : Type} `{QuantityOps Q}.
Context (t : Tree Q) (Hkeyed : node_keyed t).
Context (cluster : string) (allowances : list (Allowance Q)) (opts : ProjectOptions).

(** The nodes a cluster gets copies of: every leaf with an allowance there and
    every tier above it that has a parent. *)
Definition projected (k : string) (nd : Node Q) : Prop :=
  nodes t !! k = Some nd ∧
  ∃ a, a ∈ allowances ∧ (k = ANode a ∨ k ∈ Ancestors t (ANode a) ∧ Parent nd ≠ None).

(** The comparison [For] sorts by, and what it is applied to. *)
Record assembled (include : gmap string (Node Q)) (out : list (AcceleratorQuota Q)) : Prop := {
  as_leaves : ∀ a, a ∈ allowances → on_leaf t a;
  as_include : ∀ k nd, include !! k = Some nd ↔ projected k nd;
  as_out : ∃ out0, out = sort_slice (depthLess include) out0 ∧
    Forall2 (λ k q, ∃ nd, projected k nd ∧ render nd cluster (allowancesOf allowances k) opts = Ok q)
      (sorted_keys include) out0;
}.

Lemma grouped_default byNode k :
  ofold (groupAllowance t) ∅ allowances = Ok byNode → default [] (byNode !! k) = allowancesOf allowances k.
Proof. intros Hb. rewrite (groupAllowance_spec t _ _ Hb). by case_decide as E; [rewrite E|]. Qed.

Lemma include_projected byNode k nd :
  ofold (groupAllowance t) ∅ allowances = Ok byNode →
  foldl (includeLeaf t) ∅ (sorted_keys byNode) !! k = Some nd ↔ projected k nd.
Proof.
  intros Hb. rewrite (include_spec t Hkeyed). unfold copied, projected.
  assert (∀ a, a ∈ allowances → on_leaf t a) as Hleaf by (apply (proj1 (groupAllowance_loop t allowances ∅)); eauto).
  split; intros (Hk & n & Hn & Hor); (split; [done|]).
  - rewrite elem_of_sorted_keys, (grouped_keys t _ _ _ Hb) in Hn. destruct Hn as (a & Ha & <-).
    exists a. split; [done|]. apply Hor.
  - exists (ANode n). rewrite elem_of_sorted_keys, (grouped_keys t _ _ _ Hb). split; [by eauto|].
    split; [|done]. destruct (Hleaf n Hn) as (m & Hm & _). eauto.
Qed.

Lemma For_assembled out :
  For t cluster allowances opts = Ok out →
  cluster ≠ "" ∧ Origin opts ≠ "" ∧ ∃ include, assembled include out.
Proof.
  unfold For. case_decide; [done|]. case_decide; [done|].
  intros (byNode & Hb & (out0 & Ho & [= <-])%obind_Ok_inv)%obind_Ok_inv.
  split_and!; [done..|]. eexists. split.
  - apply (proj1 (groupAllowance_loop t allowances ∅)). eauto.
  - intros. by apply include_projected.
  - exists out0. split; [reflexivity|]. apply renderIncluded_loop in Ho.
    + eapply Forall2_impl; [exact Ho|]. intros k q (nd & Hnd & Hr).
      exists nd. rewrite (include_projected _ _ _ Hb) in Hnd. by rewrite (grouped_default _ _ Hb) in Hr.
    + intros k. apply elem_of_sorted_keys.
Qed.

(** When a projection can be rendered. *)
Lemma For_ok :
  (∃ out, For t cluster allowances opts = Ok out) ↔
  cluster ≠ "" ∧ Origin opts ≠ "" ∧
  ∀ a, a ∈ allowances → ∃ nd, nodes t !! ANode a = Some nd ∧ IsLeaf nd = true ∧ funded (Quota nd) a.
Proof.
  split.
  - intros [out Hf]. apply For_assembled in Hf as (H1 & H2 & include & [Hl Hi (out0 & _ & Ho)]).
    split_and!; [done..|]. intros a Ha. destruct (Hl a Ha) as (nd & Hn & Hleaf). exists nd. split_and!; [done..|].
    assert (projected (ANode a) nd) as Hp by (split; [done|]; exists a; auto).
    assert (ANode a ∈ sorted_keys include) as Hk by (apply elem_of_sorted_keys; exists nd; by apply Hi).
    apply list_elem_of_lookup in Hk as [i Hk]. destruct (Forall2_lookup_l _ _ _ _ _ Ho Hk) as (q & _ & nd' & Hp' & Hr).
    assert (nd' = nd) as -> by (destruct Hp, Hp'; congruence).
    apply (proj1 (render_ok nd cluster (allowancesOf allowances (ANode a)) opts)); [by exists q|done|]. by apply list_elem_of_filter.
  - intros (H1 & H2 & Hall). unfold For. rewrite !decide_False by done.
    destruct (proj2 (groupAllowance_loop t allowances ∅)) as [byNode Hb].
    { intros a Ha. destruct (Hall a Ha) as (nd & ? & ? & _). exists nd. done. }
    rewrite Hb. cbn [obind].
    destruct (renderIncluded_total cluster opts byNode (foldl (includeLeaf t) ∅ (sorted_keys byNode))
      (sorted_keys (foldl (includeLeaf t) ∅ (sorted_keys byNode))) []) as [out ->]; [|cbn; eauto].
    intros k nd _ Hnd. apply (include_projected _ _ _ Hb) in Hnd as [Hk _].
    apply render_ok. intros _ a Ha. rewrite (grouped_default _ _ Hb) in Ha.
    apply list_elem_of_filter in Ha as [<- Ha]. destruct (Hall a Ha) as (nd' & Hn' & _ & Hfu). congruence.
Qed.

Context (include : gmap string (Node Q)) (out : list (AcceleratorQuota Q)) (A : assembled include out).

(** A copy and the node it is of. *)
Lemma assembled_copy q :
  q ∈ out → ∃ nd, projected (QName q) nd ∧ copy_spec nd cluster (allowancesOf allowances (QName q)) opts q.
Proof.
  intros Hq. destruct (as_out _ _ A) as (out0 & -> & Ho). rewrite elem_of_sort_slice in Hq.
  apply list_elem_of_lookup in Hq as [i Hi].
  destruct (Forall2_lookup_r _ _ _ _ _ Ho Hi) as (k & Hk & nd & Hp & Hr).
  apply render_spec in Hr. assert (QName q = k) as ->.
  { rewrite (cp_name _ _ _ _ _ Hr). apply Hkeyed. apply Hp. }
  eauto.
Qed.

Lemma assembled_names : QName <$> out ≡ₚ sorted_keys include.
Proof.
  destruct (as_out _ _ A) as (out0 & -> & Ho). rewrite sort_slice_perm.
  assert (QName <$> out0 = sorted_keys include) as ->; [|done].
  symmetry. apply list_eq_Forall2, Forall2_fmap_r. eapply Forall2_impl; [exact Ho|].
  intros k q (nd & Hp & Hr). apply render_spec in Hr. change (k = QName q). rewrite (cp_name _ _ _ _ _ Hr).
  symmetry. apply Hkeyed, Hp.
Qed.

Lemma assembled_NoDup : NoDup (QName <$> out).
Proof. rewrite assembled_names. apply NoDup_sorted_keys. Qed.

Lemma elem_of_assembled k : k ∈ QName <$> out ↔ ∃ nd, projected k nd.
Proof.
  rewrite assembled_names, elem_of_sorted_keys. unfold is_Some. by setoid_rewrite (as_include _ _ A).
Qed.

(** A copy comes after every copy of a shallower node. *)
Lemma assembled_order i j q q' nd nd' :
  out !! i = Some q → out !! j = Some q' → nodes t !! QName q = Some nd → nodes t !! QName q' = Some nd' →
  Depth nd < Depth nd' → (i < j)%nat.
Proof.
  intros Hi Hj Hn Hn' Hd. destruct (decide (i < j)%nat) as [|Hge]; [done|exfalso].
  assert (∀ x n, x ∈ out → nodes t !! QName x = Some n → default 0 (Depth <$> include !! QName x) = Depth n) as Hdep.
  { intros x n Hx Hxn. assert (∃ m, projected (QName x) m) as [m Hm].
    { apply elem_of_assembled, list_elem_of_fmap. eauto. }
    assert (m = n) as -> by (destruct Hm; congruence). by rewrite (proj2 (as_include _ _ A _ _) Hm). }
  assert (i ≠ j) by (intros ->; assert (q' = q) as -> by congruence; assert (nd' = nd) as -> by congruence; lia).
  destruct (as_out _ _ A) as (out0 & Hout & _).
  pose proof (sort_slice_sorted (depthLess include) out0) as Hs. rewrite <-Hout in Hs.
  pose proof (StronglySorted_lookup_lt _ _ j i q' q Hs Hj Hi ltac:(lia)) as Hna.
  unfold not_after, depthLess, lex_less in Hna.
  rewrite (Hdep q nd), (Hdep q' nd') in Hna by (try done; by apply list_elem_of_lookup; eauto).
  rewrite decide_False in Hna by lia. lia.
Qed.
End result.
