(* ===== verification/Member.v ===== *)
(** * What a member makes of its projection

    The hub's copies for one cluster, applied one at a time onto the member's
    own root, in the order [For] returns them. *)

From S2P Require Import Prelude Remainder Quantity Api Shares Violation.
From S2P Require Import Tree TreeFacts TreeBuild Projection ProjectionFacts Allowances AllowancesFacts.
Local Open Scope Z_scope.

(** The root a member's controller creates: a grouping that sets nothing. *)
Record bare_root {Q} (rootName : string) (r : AcceleratorQuota Q) : Prop := {
  br_name : QName r = rootName;
  br_role : SpecRole (Spec r) = AcceleratorQuotaRoleCohort;
  br_parent : ParentRef (Spec r) = None;
  br_tier : PriorityTier (Spec r) = "";
  br_distribution : Distribution (Spec r) = None;
  br_budgets : Budgets (Spec r) = [];
}.

Section member.
Context {Q : Type} `{QuantityOps Q} `{!QuantityLaws Q}.
Context (quotas : list (AcceleratorQuota Q)) (topts : Options) (t : Tree Q) (vs : Violations).
Context (B : built quotas topts t vs).
Let qs := objects quotas.
Let root := RootName topts.

(** The hub's API refuses a leaf without a parent. *)
Context (Hparented : ∀ k q, qs !! k = Some q →
  SpecRole (Spec q) = AcceleratorQuotaRoleClusterQueue → ParentRef (Spec q) ≠ None).

Context (cluster : string) (allowances : list (Allowance Q)) (popts : ProjectOptions).
Context (Hlines : ∀ a, a ∈ allowances → line_ok quotas topts (ANode a)).
Context (Hleaves : ∀ a, a ∈ allowances → on_leaf t a).

Let S := bu_shaped _ _ _ _ B.
Let Hkeyed := shaped_keyed _ _ S.

Lemma line_rooted n : line_ok quotas topts n → ∃ d, rooted qs root d n ∧ (0 < MaxDepth topts → Z.of_nat d ≤ MaxDepth topts).
Proof. intros [(d & Hd & Hm) _]. exists d. split; [by apply descends_rooted|done]. Qed.

Lemma rooted_above d n j k : rooted qs root d n → above qs j n = Some k → (j ≤ d)%nat ∧ rooted qs root (d - j) k.
Proof.
  intros R Hk. pose proof (rooted_ends _ _ _ _ R) as Hend. destruct R as [Ha Hq].
  assert (j ≤ d)%nat as Hj.
  { destruct (decide (j ≤ d)%nat); [done|exfalso].
    destruct (above_prefix qs (Datatypes.S d) j n) as [? Hx]; [lia|by eauto|congruence]. }
  split; [done|]. split; [|done]. replace d with (j + (d - j))%nat in Ha by lia.
  by rewrite above_add, Hk in Ha.
Qed.

Lemma rooted_root_None d n : rooted qs root d n → parentOf qs root = None.
Proof. intros [_ (q & Hq & Hp)]. unfold parentOf. by rewrite Hq, Hp. Qed.

(** A copied node is on the line of an allowed leaf, below the root. *)
Lemma projected_line k nd :
  projected t allowances k nd →
  k ≠ root ∧ ∃ a j, a ∈ allowances ∧ above qs j (ANode a) = Some k ∧ (j = 0%nat ↔ IsLeaf nd = true).
Proof.
  intros (Hk & a & Ha & Hor). destruct (Hlines a Ha) as [_ Hup].
  destruct (line_rooted _ (Hlines a Ha)) as (d & R & _).
  pose proof (sh_node _ _ S k nd Hk) as (Hq & Hpar & _). fold qs in Hq, Hpar.
  assert (∀ j, above qs (Datatypes.S j) (ANode a) = Some k → IsLeaf nd = false) as Hnl.
  { intros j Hj. destruct (Hup j k Hj) as (qa & Hqa & Hr). fold qs in Hqa.
    assert (qa = Quota nd) as -> by congruence. unfold IsLeaf. rewrite Hr. done. }
  destruct Hor as [->|[Hanc Hp]].
  - destruct (Hleaves a Ha) as (nd' & Hn' & Hleaf). assert (nd' = nd) as -> by congruence. split.
    + intros E. destruct R as [_ (q & Hq' & Hp)]. fold root in Hq'. rewrite E in Hq.
      apply (Hparented root (Quota nd)); [done| |congruence].
      unfold IsLeaf in Hleaf. by apply bool_decide_eq_true in Hleaf.
    + by exists a, 0%nat.
  - rewrite (Ancestors_ends qs t S d) in Hanc; [| |by apply (rooted_ends _ root)].
    2:{ destruct (Hleaves a Ha) as (nd' & Hn' & _). apply (sh_dom _ _ S). eauto. }
    rewrite <-Permutation_rev in Hanc. apply elem_of_lineage in Hanc as (i & Hi & Hab). split.
    + intros ->. rewrite Hpar, (rooted_root_None _ _ R) in Hp. done.
    + exists a, (Datatypes.S i). split_and!; [done..|]. rewrite (Hnl i Hab). done.
Qed.

(** The parent of a copied node is the root or is copied. *)
Lemma projected_parent k nd p :
  projected t allowances k nd → parentOf qs k = Some p → p ≠ root → ∃ ndp, projected t allowances p ndp.
Proof.
  intros Hproj Hp Hne. destruct (projected_line k nd Hproj) as (_ & a & j & Ha & Hj & _).
  destruct (line_rooted _ (Hlines a Ha)) as (d & R & _).
  assert (above qs (Datatypes.S j) (ANode a) = Some p) as Hsj by (by rewrite above_S_r, Hj).
  destruct (rooted_above d _ _ _ R Hsj) as [Hle Rp].
  apply parentOf_dom in Hp as (_ & Hdom & _). apply (sh_dom _ _ S) in Hdom as [ndp Hndp].
  exists ndp. split; [done|]. exists a. split; [done|]. right. split.
  - rewrite (Ancestors_ends qs t S d).
    + rewrite <-Permutation_rev. apply elem_of_lineage. exists j. split; [lia|done].
    + destruct (Hleaves a Ha) as (nd' & Hn' & _). apply (sh_dom _ _ S). eauto.
    + by apply (rooted_ends _ root).
  - apply (sh_node _ _ S) in Hndp as (_ & -> & _). fold qs. destruct (d - Datatypes.S j)%nat as [|m] eqn:Em.
    + destruct Rp as [Hr _]. cbn in Hr. congruence.
    + destruct Rp as [Hr _]. cbn in Hr. intros E. by rewrite E in Hr.
Qed.

(** A copied node has a position within the limit. *)
Lemma projected_rooted k nd :
  projected t allowances k nd →
  ∃ d, rooted qs root (Datatypes.S d) k ∧ Depth nd = Z.of_nat (Datatypes.S d) ∧
    (0 < MaxDepth topts → Z.of_nat (Datatypes.S d) ≤ MaxDepth topts).
Proof.
  intros Hproj. destruct (projected_line k nd Hproj) as (Hne & a & j & Ha & Hj & _).
  destruct (line_rooted _ (Hlines a Ha)) as (d & R & Hmax). destruct (rooted_above d _ _ _ R Hj) as [Hle Rk].
  destruct (d - j)%nat as [|m] eqn:Em; [destruct Rk as [Hr _]; cbn in Hr; congruence|].
  exists m. split; [done|]. split.
  - eapply (positioned_depth quotas topts t k nd); [apply (bu_positioned _ _ _ _ B)|apply Hproj|done].
  - intros Hpos. specialize (Hmax Hpos). lia.
Qed.

(** ** Applying the copies in order *)

Context (include : gmap string (Node Q)) (out : list (AcceleratorQuota Q)).
Context (A : assembled t cluster allowances popts include out).
Context (r : AcceleratorQuota Q) (Hr : bare_root root r).

(** The member's objects after [i] copies. *)
Definition applied (i : nat) : list (AcceleratorQuota Q) := r :: take i out.

Lemma root_not_copied : root ∉ QName <$> out.
Proof.
  intros [nd Hp]%(elem_of_assembled t Hkeyed _ _ _ _ _ A). by apply projected_line in Hp as [? _].
Qed.

Lemma applied_NoDup i : NoDup (QName <$> applied i).
Proof.
  unfold applied. cbn. rewrite (br_name _ _ Hr). apply NoDup_cons. split.
  - intros Hin. apply root_not_copied. rewrite <-(take_drop i out), fmap_app. apply elem_of_app. by left.
  - pose proof (assembled_NoDup t Hkeyed _ _ _ _ _ A) as Hnd.
    rewrite <-(take_drop i out), fmap_app in Hnd. by apply NoDup_app in Hnd as (? & _).
Qed.

(** What sits under a name: the root, or a copy. *)
Lemma applied_lookup i k q :
  objects (applied i) !! k = Some q →
  (k = root ∧ q = r) ∨ (q ∈ take i out ∧ QName q = k ∧ ∃ nd, projected t allowances k nd ∧
     copy_spec nd cluster (allowancesOf allowances k) popts q).
Proof.
  intros [[->|Hq]%elem_of_cons Hk]%objects_elem.
  - left. by rewrite <-Hk, (br_name _ _ Hr).
  - right. split; [done|]. split; [done|]. rewrite <-Hk.
    apply (assembled_copy t Hkeyed _ _ _ _ _ A). by eapply elem_of_take_in.
Qed.

Lemma applied_root i : objects (applied i) !! root = Some r.
Proof.
  rewrite <-(br_name _ _ Hr). apply objects_unique; [apply applied_NoDup|left].
Qed.

Lemma applied_copy i q : q ∈ take i out → objects (applied i) !! QName q = Some q.
Proof. intros Hq. apply objects_unique; [apply applied_NoDup|by right]. Qed.

(** A copy names the parent its source resolves to. *)
Lemma copy_parent k nd q :
  projected t allowances k nd → copy_spec nd cluster (allowancesOf allowances k) popts q →
  ParentRef (Spec q) = parentOf qs k.
Proof.
  intros Hp Hc. rewrite (cp_parent _ _ _ _ _ Hc). destruct (projected_rooted k nd Hp) as (d & R & _).
  destruct Hp as [Hk _]. apply (sh_node _ _ S) in Hk as (Hq & _). fold qs in Hq.
  apply rooted_descends in R. inversion R as [|? q' p d' Hq' Hp' Hd']; subst.
  assert (q' = Quota nd) as -> by congruence. rewrite Hp'. symmetry.
  by eapply descends_parentOf.
Qed.

(** The copies lead to the member's root as their sources do to the hub's. *)
Lemma applied_descends i d k :
  k ∈ QName <$> take i out → rooted qs root (Datatypes.S d) k →
  descends (objects (applied i)) root (Datatypes.S d) k.
Proof.
  induction d as [|d IH] in k |- *; intros (q & -> & Hq)%list_elem_of_fmap R;
    assert (q ∈ out) as Hqo by (by eapply elem_of_take_in);
    destruct (assembled_copy t Hkeyed _ _ _ _ _ A q Hqo) as (nd & Hp & Hc);
    pose proof (copy_parent _ _ _ Hp Hc) as Hpar;
    (destruct (parentOf qs (QName q)) as [p|] eqn:Ep; [|destruct R as [R _]; cbn in R; by rewrite Ep in R]);
    (eapply descends_child; [by apply applied_copy|by rewrite Hpar|]);
    (assert (above qs 1 (QName q) = Some p) as Hp1 by (cbn; by rewrite Ep));
    destruct (rooted_above _ _ _ _ R Hp1) as [_ Rp]; cbn [Nat.sub] in Rp.
  - destruct Rp as [E _]. injection E as ->. eapply descends_root; [apply applied_root|apply Hr].
  - assert (p ≠ root) as Hne.
    { intros ->. assert (rooted qs root 0 root) as R0 by (split; [done|apply Rp]).
      by pose proof (rooted_unique _ _ _ _ _ Rp R0). }
    apply IH; [|done]. destruct (projected_parent _ nd p Hp Ep Hne) as [ndp Hpp].
    assert (p ∈ QName <$> out) as (qp & -> & Hqp)%list_elem_of_fmap.
    { apply (elem_of_assembled t Hkeyed _ _ _ _ _ A). eauto. }
    apply list_elem_of_fmap_2. apply list_elem_of_lookup in Hqp as [jp Hjp].
    apply list_elem_of_lookup in Hq as [j Hj]. apply lookup_take_Some in Hj as [Hj Hji].
    assert (jp < j)%nat.
    { eapply (assembled_order t Hkeyed _ _ _ _ _ A jp j qp q ndp nd); [done|done|apply Hpp|apply Hp|].
      pose proof (positioned_depth quotas topts t _ _ _ (bu_positioned _ _ _ _ B) (proj1 Hpp) Rp).
      pose proof (positioned_depth quotas topts t _ _ _ (bu_positioned _ _ _ _ B) (proj1 Hp) R). lia. }
    apply list_elem_of_lookup. exists jp. apply lookup_take_Some. split; [done|lia].
Qed.

(** Between the copies, as between their sources, only groupings have
    children. *)
Lemma applied_childless i k q nd c :
  objects (applied i) !! k = Some q → projected t allowances k nd → IsLeaf nd = true →
  parentOf (objects (applied i)) c ≠ Some k.
Proof.
  intros Hk Hp Hleaf Hc. destruct (projected_line k nd Hp) as (Hne & _).
  unfold parentOf in Hc. destruct (objects (applied i) !! c) as [qc|] eqn:Ec; [|done].
  destruct (ParentRef (Spec qc)) as [p|] eqn:Epr; [|done]. case_decide as Hd; [|done]. injection Hc as ->.
  destruct (applied_lookup i c qc Ec) as [[-> ->]|(_ & _ & ndc & Hpc & Hcopy)].
  { by rewrite (br_parent _ _ Hr) in Epr. }
  rewrite (copy_parent c ndc qc Hpc Hcopy) in Epr.
  destruct (projected_line c ndc Hpc) as (_ & a & j & Ha & Hj & _).
  destruct (proj2 (Hlines a Ha) j k) as (qa & Hqa & Hrole); [fold qs; by rewrite above_S_r, Hj|].
  destruct Hp as [Hk' _]. apply (sh_node _ _ S) in Hk' as (Hq' & _).
  assert (qa = Quota nd) as -> by congruence. unfold IsLeaf in Hleaf. by rewrite Hrole in Hleaf.
Qed.

Lemma applied_kind i k q : objects (applied i) !! k = Some q → kind_ok (objects (applied i)) k q.
Proof.
  intros Hk. destruct (applied_lookup i k q Hk) as [[-> ->]|(_ & Hname & nd & Hp & Hc)].
  { right. destruct Hr as [_ E1 _ E2 E3 E4]. split_and!; [done..|]. rewrite E4. set_solver. }
  pose proof (cp_budgets _ _ _ _ _ Hc) as Hb. pose proof (cp_tier _ _ _ _ _ Hc) as Ht.
  destruct (projected_line k nd Hp) as (_ & a & j & Ha & Hj & Hjl).
  destruct (IsLeaf nd) eqn:El.
  - left. split_and!.
    + rewrite (cp_role _ _ _ _ _ Hc). unfold IsLeaf in El. by apply bool_decide_eq_true in El.
    + destruct Hb as (bs & Hbs & Hcopies). intros E. rewrite E in Hbs. apply Permutation_nil_l in Hbs. subst bs.
      apply Forall2_nil_inv_r in Hcopies. assert (j = 0%nat) as -> by (by apply Hjl).
      cbn in Hj. injection Hj as Hj.
      assert (a ∈ allowancesOf allowances k) as Hin by (by apply list_elem_of_filter).
      rewrite Hcopies in Hin. by apply elem_of_nil in Hin.
    + intros c. by eapply applied_childless.
  - right. split_and!; [|done|by rewrite (cp_distribution _ _ _ _ _ Hc)|rewrite Hb; set_solver].
    rewrite (cp_role _ _ _ _ _ Hc). destruct j as [|j]; [by pose proof (proj1 Hjl eq_refl)|].
    destruct (proj2 (Hlines a Ha) j k Hj) as (qa & Hqa & Hrole).
    destruct Hp as [Hk' _]. apply (sh_node _ _ S) in Hk' as (Hq' & _).
    assert (qa = Quota nd) as -> by congruence. exact Hrole.
Qed.

Lemma applied_contains i k q : objects (applied i) !! k = Some q → contains (objects (applied i)) k q.
Proof.
  intros Hk Hrole b Hb. exfalso. destruct (applied_lookup i k q Hk) as [[-> ->]|(_ & _ & nd & Hp & Hc)].
  - rewrite (br_budgets _ _ Hr) in Hb. by apply elem_of_nil in Hb.
  - pose proof (cp_budgets _ _ _ _ _ Hc) as Hbs. destruct (IsLeaf nd) eqn:El.
    + rewrite (cp_role _ _ _ _ _ Hc) in Hrole. unfold IsLeaf in El. by apply bool_decide_eq_true in El.
    + rewrite Hbs in Hb. by apply elem_of_nil in Hb.
Qed.

Lemma applied_well_formed i : well_formed (applied i) topts.
Proof.
  split; [apply applied_NoDup| |apply applied_kind|apply applied_contains].
  intros k [q Hk]. destruct (applied_lookup i k q Hk) as [[-> ->]|(Hq & Hname & nd & Hp & _)].
  - exists 0%nat. split; [|lia]. eapply descends_root; [done|apply Hr].
  - destruct (projected_rooted k nd Hp) as (d & R & _ & Hmax). exists (Datatypes.S d). split; [|done].
    apply applied_descends; [|done]. rewrite <-Hname. by apply list_elem_of_fmap_2.
Qed.
End member.

(** ** From the hub to the member *)

(** What a pass resolved for a cluster can be rendered. *)
Lemma resolved_renders {Q} `{QuantityOps Q} `{!QuantityLaws Q} (t : Tree Q) (fleet : Fleet Q) ropts res
    cluster allowances popts :
  node_keyed t → fleet_scales fleet → (∀ leaf, leaf ∈ Leaves t → leaf_scales leaf) →
  Resolve t fleet ropts = Ok res → cluster ≠ "" → Origin popts ≠ "" →
  (∀ a, a ∈ allowances → a ∈ default [] (ByCluster res !! cluster)) →
  ∃ out, For t cluster allowances popts = Ok out.
Proof.
  intros Hk Hf Hl Hres Hc Ho Hsub. apply For_ok; [done|]. split_and!; [done..|].
  destruct (Resolve_passed fleet ropts t Hk Hf Hl) as (res' & Hres' & P).
  assert (res' = res) as -> by congruence. intros a Ha%Hsub.
  apply (ps_allowance _ _ _ _ P) in Ha as (leaf & r & p & Hleaf & Er & [Hp _]%elem_of_onItsClusters & _ & <-).
  destruct (splitOf_exact fleet ropts t Hf Hl leaf r Hleaf Er) as [Hn _]. destruct (Hn p Hp) as [-> Hkey].
  apply elem_of_Leaves in Hleaf as [Hleaf1 Hleaf2]; [|done]. exists leaf. done.
Qed.

Definition member_root : AcceleratorQuota decimal := mkQuota "root" "" 0 ∅ ∅ (mkSpec "Cohort" None "" None []).
Lemma member_root_bare : bare_root "root" member_root.
Proof. done. Qed.
Definition origin : ProjectOptions := mkProjectOptions "hub".

(** The sample fleet's copies for a member, parents first. *)
Example sample_projection :
  ∃ out, For sample_tree "east" (default [] (ByCluster (resolution two_members) !! "east")) origin = Ok out ∧
    QName <$> out = ["org"; "a"; "b"].
Proof. eexists. split; vm_compute; reflexivity. Qed.

(** C32: From the hub's tree to a member's.  Take any allowances the split
    resolved for a cluster, on leaves the tree does not freeze: they can be
    rendered, and a member that starts from its own bare root and applies the
    copies one at a time, in the order they are returned, has a tree without a
    single violation after every one of them; in particular no copy is refused
    for a parent that is not there yet. *)
Theorem hub_to_member {Q} `{QuantityOps Q} `{!QuantityLaws Q}
    (quotas : list (AcceleratorQuota Q)) topts t vs (fleet : Fleet Q) ropts res
    cluster allowances popts r :
  Build quotas topts = Ok (t, vs) → "" ∉ QName <$> quotas →
  (∀ k q, objects quotas !! k = Some q →
     SpecRole (Spec q) = AcceleratorQuotaRoleClusterQueue → ParentRef (Spec q) ≠ None) →
  fleet_scales fleet → (∀ leaf, leaf ∈ Leaves t → leaf_scales leaf) →
  Resolve t fleet ropts = Ok res → cluster ≠ "" → Origin popts ≠ "" →
  (∀ a, a ∈ allowances → a ∈ default [] (ByCluster res !! cluster) ∧ Frozen t vs !! ANode a = None) →
  bare_root (RootName topts) r →
  ∃ out, For t cluster allowances popts = Ok out ∧
    ∀ i, ∃ t', Build (r :: take i out) topts = Ok (t', []).
Proof.
  intros (Hroot & B)%Build_inv Hnames Hpar Hf Hl Hres Hc Ho Hsub Hr.
  pose proof (shaped_keyed _ _ (bu_shaped _ _ _ _ B)) as Hk.
  destruct (resolved_renders t fleet ropts res cluster allowances popts) as [out Hout]; [naive_solver..|].
  exists out. split; [done|]. intros i.
  apply (For_assembled t Hk) in Hout as (_ & _ & include & A).
  assert (∀ a, a ∈ allowances → line_ok quotas topts (ANode a)) as Hlines.
  { intros a Ha. destruct (as_leaves _ _ _ _ _ _ A a Ha) as (nd & Hnd & _).
    eapply unfrozen_line; [done|done|by eauto|]. by apply Hsub. }
  destruct (Build_returns_built (r :: take i out) topts Hroot) as (t' & vs' & Hb' & B').
  exists t'. rewrite Hb'. do 2 f_equal. apply (built_clean _ _ _ _ B').
  eapply (applied_well_formed quotas topts t vs B Hpar cluster allowances popts Hlines (as_leaves _ _ _ _ _ _ A)
    include out A r Hr).
Qed.

Lemma hub_to_member_witness :
  ∃ out, For sample_tree "east" (default [] (ByCluster (resolution two_members) !! "east")) origin = Ok out ∧
    ∀ i, ∃ t', Build (member_root :: take i out) sample_options = Ok (t', []).
Proof.
  apply (hub_to_member sample_fleet sample_options sample_tree [] two_members proportional
           (resolution two_members)).
  - apply sample_tree_built.
  - apply (bool_decide_unpack _). vm_compute. exact I.
  - intros k q Hq. apply objects_elem in Hq as [Hq _]. unfold sample_fleet in Hq.
    repeat (apply elem_of_cons in Hq as [->|Hq]; [done|]). by apply elem_of_nil in Hq.
  - repeat constructor; done.
  - apply sample_leaves.
  - vm_compute. reflexivity.
  - done.
  - done.
  - intros a Ha. split; [exact Ha|]. apply lookup_empty.
  - apply member_root_bare.
Defined.

(** What a projection holds.  It is rendered exactly when a cluster and an
    origin are named and every allowance names a leaf of the tree that has a
    budget of its pair; it then holds one copy of every leaf with an allowance
    and of every tier above one that has a parent, shallower copies first, and
    each copy carries its source's name, role and parent, the origin and the
    cluster; a leaf's copy carries exactly the allowed numbers with the limits
    of the source's budgets and nothing of the split, and a tier's copy no
    budget at all. *)
Theorem For_contents {Q} `{QuantityOps Q} (quotas : list (AcceleratorQuota Q)) topts t vs
    cluster allowances popts :
  Build quotas topts = Ok (t, vs) →
  ((∃ out, For t cluster allowances popts = Ok out) ↔
     cluster ≠ "" ∧ Origin popts ≠ "" ∧
     ∀ a, a ∈ allowances → ∃ nd, nodes t !! ANode a = Some nd ∧ IsLeaf nd = true ∧ funded (Quota nd) a) ∧
  ∀ out, For t cluster allowances popts = Ok out →
    NoDup (QName <$> out) ∧
    (∀ k, k ∈ QName <$> out ↔ ∃ nd, projected t allowances k nd) ∧
    (∀ q, q ∈ out → ∃ nd, nodes t !! QName q = Some nd ∧
       copy_spec nd cluster (allowancesOf allowances (QName q)) popts q) ∧
    (∀ i j q q' nd nd', out !! i = Some q → out !! j = Some q' →
       nodes t !! QName q = Some nd → nodes t !! QName q' = Some nd' → Depth nd < Depth nd' → (i < j)%nat).
Proof.
  intros (_ & B)%Build_inv. pose proof (shaped_keyed _ _ (bu_shaped _ _ _ _ B)) as Hk.
  split; [by apply For_ok|]. intros out (_ & _ & include & A)%For_assembled; [|done].
  split_and!.
  - by eapply assembled_NoDup.
  - intros k. by eapply elem_of_assembled.
  - intros q Hq. destruct (assembled_copy t Hk _ _ _ _ _ A q Hq) as (nd & Hp & Hcp).
    exists nd. split; [apply Hp|done].
  - intros. by eapply assembled_order.
Qed.

Lemma For_contents_witness :
  ∃ out, For sample_tree "east" [mkAllowance "b" "tpu" "v5" (dec 3)] origin = Ok out ∧
    NoDup (QName <$> out) ∧
    ∀ q, q ∈ out → ∃ nd, nodes sample_tree !! QName q = Some nd ∧
      copy_spec nd "east" (allowancesOf [mkAllowance "b" "tpu" "v5" (dec 3)] (QName q)) origin q.
Proof.
  destruct (For_contents sample_fleet sample_options sample_tree [] "east"
              [mkAllowance "b" "tpu" "v5" (dec 3)] origin sample_tree_built) as [Hok Hall].
  assert (∃ out, For sample_tree "east" [mkAllowance "b" "tpu" "v5" (dec 3)] origin = Ok out) as [out Hout].
  { eexists. vm_compute. reflexivity. }
  exists out. split; [exact Hout|]. destruct (Hall out Hout) as (Hnd & _ & Hcopy & _). split; [exact Hnd|exact Hcopy].
Defined.
