(* ===== verification/Domains.v ===== *)
(** * Free room per topology domain and the best-fit rule

    Models [scheduler/pkg/topology/domains.go]: the domain a gang goes to is
    the one with the least room that still holds it, ties broken by name.  A
    domain whose name is empty is never chosen, because the empty string is
    the loop's "nothing yet". *)

From S2P Require Import Prelude.
Open Scope Z_scope.

(** [map[string]int], in members. *)
Abbreviation FreeByDomain := (gmap string Z) (only parsing).

(** One round of the loop over the names, on [best] and [bestFree]. *)
Definition pickDomain (free : FreeByDomain) (gangSize : Z) (acc : string * Z) (d : string)
    : string * Z :=
  let f := default 0 (free !! d) in
  if decide (f < gangSize) then acc
  else if decide (acc.1 = "" ∨ f < acc.2) then (d, f) else acc.

Definition BestFit (free : FreeByDomain) (gangSize : Z) : string * bool :=
  if decide (gangSize ≤ 0) then ("", false)
  else
    let best := (foldl (pickDomain free gangSize) ("", 0) (sorted_keys free)).1 in
    (best, bool_decide (best ≠ "")).

(** [d] can take the gang. *)
Definition fits (free : FreeByDomain) (gangSize : Z) (d : string) : Prop :=
  d ≠ "" ∧ ∃ f, free !! d = Some f ∧ gangSize ≤ f.

(** [d] is the domain the packing rule asks for: it holds the gang, none that
    holds it has less room, and among those with the same room it is the first
    by name. *)
Definition tightest (free : FreeByDomain) (gangSize : Z) (d : string) : Prop :=
  fits free gangSize d ∧
  ∀ d', fits free gangSize d' →
    default 0 (free !! d) < default 0 (free !! d') ∨
    (default 0 (free !! d) = default 0 (free !! d') ∧ (d = d' ∨ str_lt d d' = true)).

Lemma tightest_unique free size d d' :
  tightest free size d → tightest free size d' → d = d'.
Proof.
  intros [Hd Hmin] [Hd' Hmin'].
  destruct (Hmin d' Hd') as [?|[? [?|Hlt]]], (Hmin' d Hd) as [?|[? [?|Hlt']]];
    try lia; try congruence.
  apply sw_asym in Hlt. congruence.
Qed.

(** What the loop has after visiting the names [pre]. *)
Definition best_of (free : FreeByDomain) (size : Z) (pre : list string) (acc : string * Z) : Prop :=
  (acc.1 = "" ∧ ∀ d, d ∈ pre → ¬ fits free size d) ∨
  (acc.1 ∈ pre ∧ fits free size acc.1 ∧ acc.2 = default 0 (free !! acc.1) ∧
   ∀ d, d ∈ pre → fits free size d →
     acc.2 < default 0 (free !! d) ∨
     (acc.2 = default 0 (free !! d) ∧ (acc.1 = d ∨ str_lt acc.1 d = true))).

Lemma pickDomain_step free size pre x post acc :
  0 < size → sorted_keys free = pre ++ x :: post →
  best_of free size pre acc → best_of free size (pre ++ [x]) (pickDomain free size acc x).
Proof.
  intros Hs Hk Hacc.
  assert (is_Some (free !! x)) as [f Hf] by (apply elem_of_sorted_keys; rewrite Hk; set_solver).
  assert (∀ y, y ∈ pre → str_lt y x = true) as Hlt.
  { intros y Hy. pose proof (sorted_keys_strict free) as Hst. rewrite Hk in Hst.
    eapply (StronglySorted_app_1_elem_of (λ x y, str_lt x y = true)); [exact Hst|done|left]. }
  unfold pickDomain. rewrite Hf. simpl.
  assert (∀ d, d ∈ pre ++ [x] ↔ d ∈ pre ∨ d = x) as Hin by set_solver.
  destruct (decide (f < size)) as [Hsmall|Hbig].
  { assert (¬ fits free size x) as Hnf by (unfold fits; naive_solver lia).
    destruct Hacc as [[H0 H]|(H1 & H2 & H3 & H)]; [left|right]; setoid_rewrite Hin; naive_solver. }
  destruct (decide (x = "")) as [->|Hx].
  { destruct pre as [|y pre].
    - left. destruct Hacc as [[H0 _]|(H1 & _)]; [|by apply elem_of_nil in H1].
      split; [by destruct (decide _)|]. intros d Hd. apply list_elem_of_singleton in Hd as ->.
      by intros [? _].
    - specialize (Hlt y ltac:(left)). destruct y; by vm_compute in Hlt. }
  assert (fits free size x) as Hfx by (split; [done|exists f; split; [done|lia]]).
  destruct Hacc as [[H0 H]|(H1 & H2 & H3 & H)].
  - rewrite decide_True by auto. right. cbn [fst snd]. rewrite Hf. split_and!; [set_solver|done..|].
    intros d [Hd| ->]%Hin Hfd; [by apply H in Hd|]. rewrite Hf. auto.
  - assert (acc.1 ≠ "") as Hne by apply H2. right.
    destruct (decide _) as [[?|Hless]|Hmore]; [done| |]; cbn [fst snd].
    + rewrite Hf. split_and!; [set_solver|done..|].
      intros d [Hd| ->]%Hin Hfd; [|rewrite Hf; simpl; auto].
      destruct (H d Hd Hfd) as [?|[??]]; left; lia.
    + split_and!; [set_solver|done..|].
      intros d [Hd| ->]%Hin Hfd; [by apply H|]. rewrite Hf. simpl.
      destruct (decide (acc.2 = f)); [right|left; naive_solver lia]. auto.
Qed.

Lemma BestFit_loop free size :
  0 < size → best_of free size (sorted_keys free) (foldl (pickDomain free size) ("", 0) (sorted_keys free)).
Proof.
  intros Hs. apply (foldl_ind _ (best_of free size)); [left; split; [done|set_solver]|].
  intros. by eapply pickDomain_step.
Qed.

Lemma fits_key free size d : fits free size d → d ∈ sorted_keys free.
Proof. intros (_ & f & Hf & _). apply elem_of_sorted_keys. eauto. Qed.

(** [BestFit] answers the packing rule, and answers it whenever a domain
    fits. *)
Lemma BestFit_spec free size d :
  0 < size → BestFit free size = (d, true) ↔ tightest free size d.
Proof.
  intros Hs. unfold BestFit. rewrite decide_False by lia.
  pose proof (BestFit_loop free size Hs) as Hloop. revert Hloop.
  generalize (foldl (pickDomain free size) ("", 0) (sorted_keys free)). intros [b bf] Hloop. simpl.
  assert (tightest free size b ∧ b ≠ "" ∨ b = "" ∧ ∀ d, ¬ fits free size d) as Hb.
  { destruct Hloop as [[H0 H]|(H1 & H2 & H3 & H)]; [right|left].
    - split; [done|]. intros d' Hd'. by eapply H; [eapply fits_key|].
    - simpl in *. subst bf. split; [split; [done|]|apply H2]. intros d' Hd'.
      by apply H; [eapply fits_key|]. }
  destruct Hb as [[Ht Hne]|[-> Hno]].
  - rewrite bool_decide_eq_true_2 by done. split; [by intros [= ->]|].
    intros Hd. by rewrite (tightest_unique _ _ _ _ Ht Hd).
  - rewrite bool_decide_eq_false_2 by auto. split; [done|]. intros [Hd _]. by apply Hno in Hd.
Qed.

Lemma BestFit_false free size d :
  BestFit free size = (d, false) ↔ d = "" ∧ (size ≤ 0 ∨ ∀ d', ¬ fits free size d').
Proof.
  destruct (decide (size ≤ 0)) as [Hs|Hs].
  { unfold BestFit. rewrite decide_True by done. naive_solver. }
  unfold BestFit. rewrite decide_False by done.
  pose proof (BestFit_loop free size ltac:(lia)) as Hloop. revert Hloop.
  generalize (foldl (pickDomain free size) ("", 0) (sorted_keys free)). intros [b bf] Hloop. simpl.
  destruct Hloop as [[H0 H]|(H1 & H2 & H3 & H)]; simpl in *.
  - subst b. rewrite bool_decide_eq_false_2 by auto. split; [intros [= <-]|intros [-> _]; done].
    split; [done|]. right. intros d' Hd'. by eapply H; [eapply fits_key|].
  - rewrite bool_decide_eq_true_2 by apply H2. split; [done|]. intros [-> [?|Hno]]; [lia|].
    by apply Hno in H2.
Qed.

(** For every map of free room and every gang size, [BestFit] either
    answers one domain, the one with the least room that still holds the gang
    and the first by name among those with that room, or answers none, exactly
    when the size is not positive or no named domain holds the gang. *)
Theorem BestFit_packs (free : FreeByDomain) (gangSize : Z) :
  (∃ d, BestFit free gangSize = (d, true) ∧ 0 < gangSize ∧ tightest free gangSize d ∧
        ∀ d', tightest free gangSize d' → d' = d) ∨
  (BestFit free gangSize = ("", false) ∧ (gangSize ≤ 0 ∨ ∀ d, ¬ fits free gangSize d)).
Proof.
  destruct (BestFit free gangSize) as [d [|]] eqn:Hb.
  - left. exists d. split; [done|].
    assert (0 < gangSize) as Hs.
    { unfold BestFit in Hb. destruct (decide (gangSize ≤ 0)); [done|lia]. }
    apply BestFit_spec in Hb; [|done]. eauto using tightest_unique.
  - right. by apply BestFit_false in Hb as [-> ?].
Qed.

Example BestFit_tie :
  BestFit (list_to_map [("b", 4); ("a", 4); ("c", 9); ("d", 3)]) 4 = ("a", true).
Proof. vm_compute. reflexivity. Qed.
