(* ===== verification/Assignments.v ===== *)
(** * The domain assignment store of the gang scheduler

    Models [scheduler/pkg/placement/assignments.go]: the domain each gang is
    committed to, and how many whole nodes it has reserved there and not yet
    filled.  The store keeps, beside the commitments, two running indexes, the
    outstanding reservations per domain and the number of forming gangs per
    physical node; every decision reads the indexes and not the commitments.
    One definition per method; the mutex makes each method one step.  A
    [*commitment] is held by one entry of [byGroup] and nowhere else, so
    [setRemaining] returns the updated commitment and its caller puts it back
    under the group when it is still there. *)

From S2P Require Import Prelude Domains.
Open Scope Z_scope.

Record Domain := mkDomain { TopologyKey : string; DName : string }.
#[export] Instance Domain_eq_dec : EqDecision Domain.
Proof. solve_decision. Defined.
#[export] Instance Domain_countable : Countable Domain.
Proof.
  refine (inj_countable' (λ d, (TopologyKey d, DName d)) (λ p, mkDomain p.1 p.2) _). by intros [].
Defined.

Record Gang := mkGang { Group : string; Owner : string; GTopologyKey : string }.

Record commitment := mkCommitment {
  cdomain : Domain; owner : string; remaining : Z; cid : Z; cnodes : gset string; soleFit : bool }.

Record DomainAssignments := mkAssignments {
  byGroup : gmap string commitment;
  nextID : Z;
  reserved : gmap Domain Z;
  reservedNodes : gmap string Z }.

Definition New : DomainAssignments := mkAssignments ∅ 0 ∅ ∅.

Definition withRemaining (c : commitment) (r : Z) : commitment :=
  mkCommitment (cdomain c) (owner c) r (cid c) (cnodes c) (soleFit c).
Definition withGroups (p : DomainAssignments) (m : gmap string commitment) : DomainAssignments :=
  mkAssignments m (nextID p) (reserved p) (reservedNodes p).

Definition nextCommitmentID (p : DomainAssignments) : DomainAssignments * Z :=
  let id := u64 (nextID p + 1) in
  (mkAssignments (byGroup p) id (reserved p) (reservedNodes p), id).

Definition nodeSet (nodes : list string) : gset string :=
  list_to_set (filter (λ n, n ≠ "") nodes).

(** [m[k] += delta], dropping the key when it falls to zero: how both indexes
    are kept. *)
Definition adjust {K} `{Countable K} (m : gmap K Z) (k : K) (delta : Z) : gmap K Z :=
  let v := i64 (default 0 (m !! k) + delta) in
  if decide (v ≤ 0) then delete k m else <[k := v]> m.

Definition addReservation (p : DomainAssignments) (domain : Domain) (delta : Z) : DomainAssignments :=
  mkAssignments (byGroup p) (nextID p) (adjust (reserved p) domain delta) (reservedNodes p).

Definition adjustNodes (m : gmap string Z) (delta : Z) (nodes : gset string) : gmap string Z :=
  foldl (λ m node, adjust m node delta) m (elements nodes).

Definition setRemaining (p : DomainAssignments) (c : commitment) (r : Z)
    : DomainAssignments * commitment :=
  let r := if decide (r < 0) then 0 else r in
  let wasReserved := bool_decide (0 < remaining c) in
  let willReserve := bool_decide (0 < r) in
  let p := addReservation p (cdomain c) (i64 (r - remaining c)) in
  let p :=
    if decide (wasReserved = willReserve) then p
    else mkAssignments (byGroup p) (nextID p) (reserved p)
           (adjustNodes (reservedNodes p) (if willReserve then 1 else -1) (cnodes c)) in
  (p, withRemaining c r).

Definition fittingDomains (free : FreeByDomain) (gangSize : Z) : Z :=
  foldl (λ n room, if decide (gangSize ≤ room) then i64 (n + 1) else n) 0 (map_to_list free).*2.

(** The two reasons a domain is not offered to a new gang. *)
Definition blocked (p : DomainAssignments) (key : string) (nodesByDomain : gmap string (list string))
    (d : string) : bool :=
  bool_decide (0 < default 0 (reserved p !! mkDomain key d)) ||
  existsb (λ node, bool_decide (0 < default 0 (reservedNodes p !! node)))
    (default [] (nodesByDomain !! d)).

(** The free room with blocked domains at zero. *)
Definition effectiveFree (p : DomainAssignments) (key : string) (free : FreeByDomain)
    (nodesByDomain : gmap string (list string)) : FreeByDomain :=
  map_imap (λ d f, Some (if blocked p key nodesByDomain d then 0 else f)) free.

Definition Choose (p : DomainAssignments) (gang : Gang) (free : FreeByDomain)
    (nodesByDomain : gmap string (list string)) (size : Z)
    : DomainAssignments * (string * Z * bool) :=
  match byGroup p !! Group gang with
  | Some c =>
      if decide (owner c ≠ Owner gang) then (p, ("", 0, false))
      else (p, (DName (cdomain c), cid c, true))
  | None =>
      let eff := effectiveFree p (GTopologyKey gang) free nodesByDomain in
      let '(d, fit) := BestFit eff size in
      if negb fit then (p, ("", 0, false))
      else
        let '(p, id) := nextCommitmentID p in
        let c := mkCommitment (mkDomain (GTopologyKey gang) d) (Owner gang) 0 id
                   (nodeSet (default [] (nodesByDomain !! d)))
                   (bool_decide (fittingDomains eff size < 2)) in
        let '(p, c) := setRemaining p c size in
        (withGroups p (<[Group gang := c]> (byGroup p)), (d, id, true))
  end.

(** [Set]. *)
Definition SetCommitment (p : DomainAssignments) (gang : Gang) (domain : string) (r : Z)
    (nodes : list string) : DomainAssignments * Z :=
  let r := if decide (r < 0) then 0 else r in
  let p := match byGroup p !! Group gang with
           | Some old => let '(p, old) := setRemaining p old 0 in
                         withGroups p (<[Group gang := old]> (byGroup p))
           | None => p
           end in
  let '(p, id) := nextCommitmentID p in
  let c := mkCommitment (mkDomain (GTopologyKey gang) domain) (Owner gang) 0 id (nodeSet nodes) true in
  let '(p, c) := setRemaining p c r in
  (withGroups p (<[Group gang := c]> (byGroup p)), id).

Definition Place (p : DomainAssignments) (group : string) (id : Z)
    : DomainAssignments * (bool * bool) :=
  match byGroup p !! group with
  | Some c =>
      if decide (cid c = id ∧ 0 < remaining c) then
        let '(p, c) := setRemaining p c (i64 (remaining c - 1)) in
        (withGroups p (<[group := c]> (byGroup p)), (true, bool_decide (remaining c = 0)))
      else (p, (false, false))
  | None => (p, (false, false))
  end.

(** The callback runs while the store is locked, on whatever it owns (the
    scheduler's waiting pods): a world [W] of its own. *)
Definition Release {W} (p : DomainAssignments) (group : string) (id : Z)
    (beforeUnlock : option (W → W)) (w : W) : DomainAssignments * W * bool :=
  match byGroup p !! group with
  | Some c =>
      if decide (cid c ≠ id) then (p, w, false)
      else
        let p := withGroups p (delete group (byGroup p)) in
        let '(p, _) := setRemaining p c 0 in
        (p, match beforeUnlock with Some f => f w | None => w end, true)
  | None => (p, w, false)
  end.

Definition Committed (p : DomainAssignments) (group : string) (id : Z) : bool :=
  match byGroup p !! group with
  | Some c => bool_decide (cid c = id ∧ remaining c = 0)
  | None => false
  end.

Definition SoleFit (p : DomainAssignments) (group : string) (id : Z) : bool :=
  match byGroup p !! group with
  | Some c => bool_decide (cid c = id) && soleFit c
  | None => false
  end.

Definition GetOwned (p : DomainAssignments) (group : string) : Domain * Z * Z * bool :=
  match byGroup p !! group with
  | Some c => (cdomain c, cid c, remaining c, true)
  | None => (mkDomain "" "", 0, 0, false)
  end.

Definition GetOwnedBy (p : DomainAssignments) (group own : string) : Domain * Z * Z * bool * bool :=
  match byGroup p !! group with
  | Some c => (cdomain c, cid c, remaining c, true, bool_decide (owner c = own))
  | None => (mkDomain "" "", 0, 0, false, false)
  end.

Definition Owners (p : DomainAssignments) : gmap string string := owner <$> byGroup p.

Definition AssignmentsLen (p : DomainAssignments) : Z := Z.of_nat (size (byGroup p)).

Definition BlocksNode (p : DomainAssignments) (name : string) (nodeLabels : gmap string string) : bool :=
  bool_decide (0 < default 0 (reservedNodes p !! name)) ||
  existsb (λ c, bool_decide (0 < remaining c ∧ cnodes c = ∅ ∧
                 default "" (nodeLabels !! TopologyKey (cdomain c)) = DName (cdomain c)))
    (map_to_list (byGroup p)).*2.
