(* ===== verification/AssignmentsFacts.v ===== *)
(** * The assignment store keeps its indexes and its promises

    What the store of [Assignments] promises, over every history of calls: the
    two indexes agree with the commitments, ids are never reused, a call that
    names an old id does nothing, a new gang never shares a domain or a node
    with a gang that is still forming, and a reservation drains by exactly one
    per placed member. *)

From S2P Require Import Prelude Domains Assignments.
Open Scope Z_scope.

(** ** The indexes as functions of the commitments *)

(** What a commitment contributes to a domain's reservations and to a node's
    count of forming gangs. *)
Definition share (d : Domain) (c : commitment) : Z :=
  if decide (cdomain c = d) then Z.max 0 (remaining c) else 0.
Definition hold (n : string) (c : commitment) : Z :=
  if decide (0 < remaining c ∧ n ∈ cnodes c) then 1 else 0.

(** The entry an index keeps for a total: none at zero. *)
Definition entry (z : Z) : option Z := if decide (0 < z) then Some z else None.

Lemma default_entry z : 0 ≤ z → default 0 (entry z) = z.
Proof. unfold entry. case_decide; simpl; lia. Qed.

Lemma share_nonneg d c : 0 ≤ share d c.
Proof. unfold share. case_decide; lia. Qed.
Lemma hold_nonneg n c : 0 ≤ hold n c.
Proof. unfold hold. case_decide; lia. Qed.

(** The indexes of [p] hold the totals [D] and [N]. *)
Definition indexed (p : DomainAssignments) (D : Domain → Z) (N : string → Z) : Prop :=
  (∀ d, reserved p !! d = entry (D d)) ∧ (∀ n, reservedNodes p !! n = entry (N n)).

Lemma indexed_ext p D N D' N' :
  (∀ d, D d = D' d) → (∀ n, N n = N' n) → indexed p D N → indexed p D' N'.
Proof. intros HD HN [H1 H2]. split; intros; [by rewrite <-HD|by rewrite <-HN]. Qed.

(** [adjust] moves one total and keeps the shape of the index. *)
Lemma adjust_lookup {K} `{Countable K} (m : gmap K Z) (T : K → Z) k delta :
  (∀ k, m !! k = entry (T k)) → 0 ≤ T k → 0 ≤ T k + delta ≤ MaxInt64 →
  ∀ k', adjust m k delta !! k' = entry (T k' + if decide (k' = k) then delta else 0).
Proof.
  intros Hm Hk Hd k'. unfold adjust. rewrite Hm, default_entry by done.
  rewrite i64_id by (unfold int64_range; lia).
  destruct (decide (k' = k)) as [->|Hne].
  - case_decide as Hz.
    + rewrite lookup_delete_eq. unfold entry. by rewrite decide_False by lia.
    + rewrite lookup_insert_eq. unfold entry. by rewrite decide_True by lia.
  - rewrite Z.add_0_r. case_decide; [rewrite lookup_delete_ne by done|rewrite lookup_insert_ne by done];
      apply Hm.
Qed.

Lemma adjustNodes_lookup (m : gmap string Z) (T : string → Z) delta nodes :
  (∀ k, m !! k = entry (T k)) → (∀ k, 0 ≤ T k) →
  (∀ k, k ∈ nodes → 0 ≤ T k + delta ≤ MaxInt64) →
  ∀ k, adjustNodes m delta nodes !! k = entry (T k + if decide (k ∈ nodes) then delta else 0).
Proof.
  intros Hm Hpos Hd. unfold adjustNodes.
  assert (∀ k, k ∈ nodes ↔ k ∈ elements nodes) as Hel by (intros; by rewrite elem_of_elements).
  pose proof (NoDup_elements nodes) as Hnd.
  cut (∀ k, foldl (λ m node, adjust m node delta) m (elements nodes) !! k =
         entry (T k + if decide (k ∈ elements nodes) then delta else 0)).
  { intros Hc k. rewrite Hc. do 2 f_equal. apply decide_ext. symmetry. apply Hel. }
  set (P := λ (pre : list string) (m : gmap string Z),
    ∀ k, m !! k = entry (T k + if decide (k ∈ pre) then delta else 0)).
  apply (foldl_ind _ P); subst P; cbv beta.
  { intros k. rewrite decide_False by set_solver. rewrite Hm. f_equal. lia. }
  intros pre x post b Hl IH k. rewrite Hl in Hnd.
  assert (x ∉ pre) as Hx by (apply NoDup_app in Hnd as (_ & Hd' & _); intros Hin; apply (Hd' x Hin); left).
  assert (x ∈ nodes) as Hxn by (apply Hel; rewrite Hl; set_solver).
  rewrite (adjust_lookup b (λ k, T k + if decide (k ∈ pre) then delta else 0) x delta IH).
  - f_equal. destruct (decide (k = x)) as [->|Hne].
    + rewrite decide_False by done. rewrite decide_True by set_solver. lia.
    + destruct (decide (k ∈ pre)); [rewrite decide_True by set_solver|rewrite decide_False by set_solver]; lia.
  - rewrite decide_False by done. specialize (Hpos x). lia.
  - rewrite decide_False by done. specialize (Hd x Hxn). lia.
Qed.

(** [setRemaining] moves the reservation of one commitment from its old
    remaining to the new one, in both indexes. *)
Lemma setRemaining_indexed p c r D N :
  indexed p (λ d, D d + share d c) (λ n, N n + hold n c) →
  (∀ d, 0 ≤ D d) → (∀ n, 0 ≤ N n < MaxInt64) → 0 ≤ remaining c ≤ MaxInt64 → int64_range r →
  D (cdomain c) + Z.max 0 r ≤ MaxInt64 →
  let q := setRemaining p c r in
  q.2 = withRemaining c (Z.max 0 r) ∧ byGroup q.1 = byGroup p ∧ nextID q.1 = nextID p ∧
  indexed q.1 (λ d, D d + share d q.2) (λ n, N n + hold n q.2).
Proof.
  intros [HD HN] HDp HNp Hrc Hr Hb. unfold setRemaining.
  assert ((if decide (r < 0) then 0 else r) = Z.max 0 r) as -> by (case_decide; lia).
  set (r' := Z.max 0 r) in *. simpl. split; [done|].
  assert (byGroup (addReservation p (cdomain c) (i64 (r' - remaining c))) = byGroup p) by done.
  split; [by case_decide|]. split; [by case_decide|].
  unfold int64_range in *. rewrite (i64_id (r' - remaining c)) by (unfold int64_range; lia).
  split.
  - intros d. assert (∀ q : DomainAssignments, reserved q = adjust (reserved p) (cdomain c) (r' - remaining c) →
      reserved q !! d = entry (D d + share d (withRemaining c r'))) as Hq.
    { intros q ->. rewrite (adjust_lookup _ _ _ _ HD).
      - f_equal. unfold share. simpl. destruct (decide (d = cdomain c)) as [->|Hne].
        + rewrite !decide_True by done. lia.
        + rewrite !decide_False by done. lia.
      - pose proof (share_nonneg (cdomain c) c). specialize (HDp (cdomain c)). lia.
      - unfold share. rewrite decide_True by done. specialize (HDp (cdomain c)). lia. }
    by case_decide; apply Hq.
  - intros n. case_decide as Hsame; simpl.
    + rewrite HN. do 2 f_equal. unfold hold. simpl.
      apply decide_ext. revert Hsame. repeat case_bool_decide; naive_solver.
    + rewrite (adjustNodes_lookup _ _ _ _ HN).
      * f_equal. unfold hold. simpl. repeat case_bool_decide; repeat case_decide; naive_solver lia.
      * intros k. pose proof (hold_nonneg k c). specialize (HNp k). lia.
      * intros k Hk. unfold hold. specialize (HNp k).
        repeat case_bool_decide; repeat case_decide; naive_solver lia.
Qed.

(** ** The invariant *)

Definition claims (m : gmap string commitment) (d : Domain) : Z := map_sum_with (share d) m.
Definition holders (m : gmap string commitment) (n : string) : Z := map_sum_with (hold n) m.

(** A well-formed store after at most [n] commitments. *)
Record wf (n : Z) (p : DomainAssignments) : Prop := {
  wf_indexed : indexed p (claims (byGroup p)) (holders (byGroup p));
  wf_nextID : 0 ≤ nextID p ≤ n;
  wf_size : Z.of_nat (size (byGroup p)) ≤ nextID p;
  wf_commit g c : byGroup p !! g = Some c →
    0 ≤ remaining c ≤ MaxInt32 ∧ 0 < cid c ≤ nextID p ∧ "" ∉ cnodes c;
  wf_distinct g g' c c' : byGroup p !! g = Some c → byGroup p !! g' = Some c' →
    cid c = cid c' → g = g';
}.

Lemma wf_mono n n' p : n ≤ n' → wf n p → wf n' p.
Proof. intros Hn []. split; try done; lia. Qed.

Lemma New_wf : wf 0 New.
Proof.
  split; [|done..]. split; intros; unfold claims, holders; simpl;
    rewrite map_sum_with_empty; by rewrite lookup_empty.
Qed.

Lemma claims_nonneg m d : 0 ≤ claims m d.
Proof. apply map_sum_with_nonneg, share_nonneg. Qed.
Lemma holders_nonneg m x : 0 ≤ holders m x.
Proof. apply map_sum_with_nonneg, hold_nonneg. Qed.

Lemma claims_insert m g c d : claims (<[g := c]> m) d = claims (delete g m) d + share d c.
Proof. unfold claims. rewrite map_sum_with_insert. lia. Qed.
Lemma holders_insert m g c x : holders (<[g := c]> m) x = holders (delete g m) x + hold x c.
Proof. unfold holders. rewrite map_sum_with_insert. lia. Qed.

(** No total can leave the machine's range while the calls are fewer than
    [2^31]. *)
Lemma wf_totals n p g : n ≤ MaxInt32 → wf n p →
  (∀ d, claims (delete g (byGroup p)) d ≤ MaxInt32 * MaxInt32) ∧
  (∀ x, holders (delete g (byGroup p)) x ≤ MaxInt32).
Proof.
  intros Hn Hwf. pose proof (wf_size _ _ Hwf) as Hsz. pose proof (wf_nextID _ _ Hwf).
  assert (Z.of_nat (size (delete g (byGroup p))) ≤ MaxInt32) as Hsz'.
  { destruct (byGroup p !! g) eqn:Hg.
    - rewrite map_size_delete_Some by eauto. lia.
    - rewrite delete_id by done. lia. }
  split; [intros d|intros x].
  - unfold claims. rewrite (map_sum_with_bound _ MaxInt32); [lia|].
    intros k c [_ Hc]%lookup_delete_Some. apply (wf_commit _ _ Hwf) in Hc.
    unfold share. case_decide; lia.
  - unfold holders. rewrite (map_sum_with_bound _ 1); [lia|].
    intros k c _. unfold hold. case_decide; lia.
Qed.

(** The indexes seen from one group: the other groups, and what it holds. *)
Definition indexed_at (p : DomainAssignments) (g : string) (c : commitment) : Prop :=
  indexed p (λ d, claims (delete g (byGroup p)) d + share d c)
            (λ x, holders (delete g (byGroup p)) x + hold x c).

Lemma wf_at n p g c : wf n p → byGroup p !! g = Some c → indexed_at p g c.
Proof.
  intros Hwf Hg. eapply indexed_ext; [| |exact (wf_indexed _ _ Hwf)]; intros; cbv beta.
  - rewrite <-claims_insert. by rewrite insert_id.
  - rewrite <-holders_insert. by rewrite insert_id.
Qed.

Lemma share_idle d c : remaining c = 0 → share d c = 0.
Proof. intros H. unfold share. case_decide; lia. Qed.
Lemma hold_idle x c : remaining c = 0 → hold x c = 0.
Proof. intros H. unfold hold. case_decide; lia. Qed.

(** A commitment with nothing outstanding weighs nothing: a new one, or one
    the group has just given up. *)
Lemma indexed_at_idle p g c :
  remaining c = 0 →
  indexed_at p g c ↔ indexed p (claims (delete g (byGroup p))) (holders (delete g (byGroup p))).
Proof.
  intros H0. split; apply indexed_ext; intros; cbv beta;
    rewrite ?share_idle, ?hold_idle by done; lia.
Qed.

Lemma wf_at_fresh n p g c :
  wf n p → byGroup p !! g = None → remaining c = 0 → indexed_at p g c.
Proof.
  intros Hwf Hg H0. apply indexed_at_idle; [done|]. rewrite delete_id by done. apply Hwf.
Qed.

(** Writing a group's commitment with a new remaining: the step every method
    takes. *)
Definition put (p : DomainAssignments) (g : string) (c : commitment) (r : Z) : DomainAssignments :=
  let q := setRemaining p c r in withGroups q.1 (<[g := q.2]> (byGroup q.1)).

Lemma setRemaining_at n p g c r :
  n ≤ MaxInt32 → wf n p → indexed_at p g c → 0 ≤ remaining c ≤ MaxInt32 →
  int64_range r → r ≤ MaxInt32 →
  let q := setRemaining p c r in
  q.2 = withRemaining c (Z.max 0 r) ∧ byGroup q.1 = byGroup p ∧ nextID q.1 = nextID p ∧
  indexed_at q.1 g q.2.
Proof.
  intros Hn Hwf Hat Hc Hr Hr' q. pose proof (wf_totals n p g Hn Hwf) as [HD HN].
  destruct (setRemaining_indexed p c r _ _ Hat) as (H1 & H2 & H3 & H4).
  - intros. apply claims_nonneg.
  - intros x. specialize (HN x). pose proof (holders_nonneg (delete g (byGroup p)) x). lia.
  - lia.
  - done.
  - specialize (HD (cdomain c)). lia.
  - fold q in H1, H2, H3, H4. split_and!; [done..|]. unfold indexed_at. by rewrite H2.
Qed.

(** [put] keeps the store well formed, given an id no other group holds. *)
Lemma put_wf n p g c r :
  n ≤ MaxInt32 → wf n p → indexed_at p g c → 0 ≤ remaining c ≤ MaxInt32 →
  int64_range r → r ≤ MaxInt32 → 0 < cid c ≤ nextID p → "" ∉ cnodes c →
  Z.of_nat (size (<[g := c]> (byGroup p))) ≤ nextID p →
  (∀ g' c', g' ≠ g → byGroup p !! g' = Some c' → cid c' ≠ cid c) →
  wf n (put p g c r).
Proof.
  intros Hn Hwf Hat Hc Hr Hr' Hid Hnodes Hsize Hfresh.
  destruct (setRemaining_at n p g c r) as (H1 & H2 & H3 & H4); [lia|done..|].
  unfold put. set (q := setRemaining p c r) in *. clearbody q. split; simpl.
  - rewrite H2. unfold indexed_at in H4. rewrite H2 in H4.
    eapply indexed_ext; [| |exact H4]; intros; cbv beta.
    + by rewrite claims_insert.
    + by rewrite holders_insert.
  - rewrite H3. pose proof (wf_nextID _ _ Hwf). lia.
  - rewrite H2, H3. revert Hsize. by rewrite !map_size_insert.
  - rewrite H2, H3. intros g' c' [[<- <-]|[_ Hc']]%lookup_insert_Some.
    + rewrite H1. simpl. split_and!; try done; lia.
    + by eapply wf_commit.
  - rewrite H2. intros g1 g2 c1 c2 [[<- <-]|[Hne1 Hc1]]%lookup_insert_Some
      [[<- <-]|[Hne2 Hc2]]%lookup_insert_Some Heq; [done|..]; rewrite ?H1 in Heq; simpl in Heq.
    + by apply Hfresh in Hc2.
    + by apply Hfresh in Hc1.
    + by eapply (wf_distinct _ _ Hwf).
Qed.

(** ** The methods, one [put] each *)

(** The fresh id a new commitment gets: above every id given so far. *)
Lemma nextCommitmentID_wf n p :
  n < MaxInt32 → wf n p →
  let q := nextCommitmentID p in
  q.2 = nextID p + 1 ∧ byGroup q.1 = byGroup p ∧ nextID q.1 = q.2 ∧
  reserved q.1 = reserved p ∧ reservedNodes q.1 = reservedNodes p ∧ wf (n + 1) q.1.
Proof.
  intros Hn Hwf. pose proof (wf_nextID _ _ Hwf). unfold nextCommitmentID. simpl.
  rewrite u64_id by lia. split_and!; [done..|].
  split; simpl; [exact (wf_indexed _ _ Hwf)|lia| | |exact (wf_distinct _ _ Hwf)].
  - pose proof (wf_size _ _ Hwf). lia.
  - intros g c Hc. apply (wf_commit _ _ Hwf) in Hc. naive_solver lia.
Qed.

Lemma nodeSet_named nodes : "" ∉ nodeSet nodes.
Proof. unfold nodeSet. rewrite elem_of_list_to_set, list_elem_of_filter. naive_solver. Qed.

(** Committing a group to a domain under a fresh id. *)
Lemma commit_wf n p g dom own nodes sole r :
  n < MaxInt32 → wf n p →
  (∀ c, byGroup p !! g = Some c → remaining c = 0) → int64_range r → r ≤ MaxInt32 →
  let q := nextCommitmentID p in
  wf (n + 1) (put q.1 g (mkCommitment dom own 0 q.2 (nodeSet nodes) sole) r).
Proof.
  intros Hn Hwf Hidle Hr Hr'.
  destruct (nextCommitmentID_wf n p Hn Hwf) as (Hid & Hby & Hnext & Hres & Hresn & Hq).
  set (q := nextCommitmentID p) in *. clearbody q. cbv zeta.
  pose proof (wf_nextID _ _ Hwf). pose proof (wf_size _ _ Hwf).
  apply put_wf; simpl; try done; try lia.
  - destruct (byGroup p !! g) as [c|] eqn:Hg.
    + apply indexed_at_idle; [done|]. apply (indexed_at_idle q.1 g c); [by apply Hidle|].
      eapply wf_at; [exact Hq|by rewrite Hby].
    + eapply wf_at_fresh; [exact Hq|by rewrite Hby|done].
  - apply nodeSet_named.
  - rewrite Hby, map_size_insert. destruct (byGroup p !! g); simpl; lia.
  - intros g' c' _ Hc'. rewrite Hby in Hc'. apply (wf_commit _ _ Hwf) in Hc'. lia.
Qed.

Lemma put_existing_wf n p g c r :
  n ≤ MaxInt32 → wf n p → byGroup p !! g = Some c → int64_range r → r ≤ MaxInt32 →
  wf n (put p g c r).
Proof.
  intros Hn Hwf Hg Hr Hr'. pose proof (wf_commit _ _ Hwf _ _ Hg) as (Hrem & Hid & Hne).
  apply put_wf; try done.
  - by eapply wf_at.
  - rewrite map_size_insert, Hg. apply Hwf.
  - intros g' c' Hg' Hc' Heq. by apply Hg', (wf_distinct _ _ Hwf _ _ c' c).
Qed.

Lemma BestFit_pos free size d : BestFit free size = (d, true) → 0 < size.
Proof. unfold BestFit. case_decide; [done|lia]. Qed.

(** What [Choose] does, branch by branch. *)
Variant choose_case (p : DomainAssignments) (gang : Gang) (free : FreeByDomain)
    (nodesByDomain : gmap string (list string)) (size : Z) :
    DomainAssignments * (string * Z * bool) → Prop :=
| choose_kept c : byGroup p !! Group gang = Some c → owner c = Owner gang →
    choose_case p gang free nodesByDomain size (p, (DName (cdomain c), cid c, true))
| choose_foreign c : byGroup p !! Group gang = Some c → owner c ≠ Owner gang →
    choose_case p gang free nodesByDomain size (p, ("", 0, false))
| choose_nowhere : byGroup p !! Group gang = None →
    size ≤ 0 ∨ (∀ d, ¬ fits (effectiveFree p (GTopologyKey gang) free nodesByDomain) size d) →
    choose_case p gang free nodesByDomain size (p, ("", 0, false))
| choose_new d : byGroup p !! Group gang = None → 0 < size →
    tightest (effectiveFree p (GTopologyKey gang) free nodesByDomain) size d →
    choose_case p gang free nodesByDomain size
      (put (nextCommitmentID p).1 (Group gang)
         (mkCommitment (mkDomain (GTopologyKey gang) d) (Owner gang) 0 (nextCommitmentID p).2
            (nodeSet (default [] (nodesByDomain !! d)))
            (bool_decide (fittingDomains (effectiveFree p (GTopologyKey gang) free nodesByDomain) size < 2)))
         size,
       (d, (nextCommitmentID p).2, true)).

Lemma Choose_cases p gang free nodesByDomain size :
  choose_case p gang free nodesByDomain size (Choose p gang free nodesByDomain size).
Proof.
  unfold Choose. destruct (byGroup p !! Group gang) as [c|] eqn:Hg.
  { destruct (decide (owner c ≠ Owner gang)) as [Ho|Ho].
    - by eapply choose_foreign.
    - apply choose_kept; [done|by apply dec_stable]. }
  set (eff := effectiveFree p (GTopologyKey gang) free nodesByDomain).
  destruct (BestFit eff size) as [d [|]] eqn:Hb; simpl.
  - pose proof (BestFit_pos _ _ _ Hb) as Hs. apply BestFit_spec in Hb; [|done].
    by apply choose_new.
  - apply BestFit_false in Hb as [-> Hb]. by apply choose_nowhere.
Qed.

Lemma Choose_wf n p gang free nodesByDomain size :
  n < MaxInt32 → wf n p → size ≤ MaxInt32 → wf (n + 1) (Choose p gang free nodesByDomain size).1.
Proof.
  intros Hn Hwf Hs. destruct (Choose_cases p gang free nodesByDomain size) as [| | |d Hg Hpos _];
    simpl; [apply (wf_mono n); [lia|done]..|].
  apply commit_wf; [done..| |split; lia|done]. intros c Hc. congruence.
Qed.

(** What a group's earlier commitment leaves before [Set] writes the new one. *)
Definition surrendered (p : DomainAssignments) (g : string) : DomainAssignments :=
  match byGroup p !! g with Some old => put p g old 0 | None => p end.

Lemma SetCommitment_put p gang domain r nodes :
  let q := nextCommitmentID (surrendered p (Group gang)) in
  SetCommitment p gang domain r nodes =
    (put q.1 (Group gang)
       (mkCommitment (mkDomain (GTopologyKey gang) domain) (Owner gang) 0 q.2 (nodeSet nodes) true)
       (Z.max 0 r), q.2).
Proof.
  unfold SetCommitment, surrendered.
  assert ((if decide (r < 0) then 0 else r) = Z.max 0 r) as -> by (case_decide; lia).
  destruct (byGroup p !! Group gang) as [c|]; [|done].
  assert ((let '(q, old) := setRemaining p c 0 in withGroups q (<[Group gang:=old]> (byGroup q)))
          = put p (Group gang) c 0) as -> by (unfold put; by destruct (setRemaining p c 0)).
  generalize (put p (Group gang) c 0). intros q. unfold nextCommitmentID, put. by destruct (setRemaining _ _ _).
Qed.

Lemma surrendered_wf n p g :
  n ≤ MaxInt32 → wf n p →
  wf n (surrendered p g) ∧ nextID (surrendered p g) = nextID p ∧
  byGroup (surrendered p g) = alter (λ c, withRemaining c 0) g (byGroup p).
Proof.
  intros Hn Hwf. unfold surrendered. destruct (byGroup p !! g) as [c|] eqn:Hg.
  - pose proof (wf_commit _ _ Hwf _ _ Hg) as (Hrem & _).
    split; [by apply put_existing_wf|].
    destruct (setRemaining_at n p g c 0) as (H1 & H2 & H3 & _); [done|done|by eapply wf_at|done..|].
    unfold put. set (q := setRemaining p c 0) in *. clearbody q. simpl. rewrite H1, H2, H3.
    split; [done|]. apply map_eq. intros g'. destruct (decide (g' = g)) as [->|Hne].
    + by rewrite lookup_insert_eq, lookup_alter_eq, Hg.
    + by rewrite lookup_insert_ne, lookup_alter_ne by done.
  - split_and!; [done..|]. apply map_eq. intros g'. destruct (decide (g' = g)) as [->|Hne].
    + by rewrite lookup_alter_eq, Hg.
    + by rewrite lookup_alter_ne by done.
Qed.

Lemma SetCommitment_wf n p gang domain r nodes :
  n < MaxInt32 → wf n p → r ≤ MaxInt32 → wf (n + 1) (SetCommitment p gang domain r nodes).1.
Proof.
  intros Hn Hwf Hr. rewrite SetCommitment_put. simpl.
  destruct (surrendered_wf n p (Group gang)) as (Hs & _ & Hby); [lia|done|].
  apply commit_wf; [done..| |split; lia|lia]. intros c. rewrite Hby, lookup_alter_eq.
  destruct (byGroup p !! Group gang); simpl; [|done]. by intros [= <-].
Qed.

(** [Place] either finds nothing to place or takes one node off the
    reservation. *)
Definition placeable (p : DomainAssignments) (g : string) (id : Z) : Prop :=
  ∃ c, byGroup p !! g = Some c ∧ cid c = id ∧ 0 < remaining c.

Lemma Place_cases n p g id : wf n p →
  (¬ placeable p g id ∧ Place p g id = (p, (false, false))) ∨
  (∃ c, byGroup p !! g = Some c ∧ cid c = id ∧ 0 < remaining c ∧
    Place p g id = (put p g c (remaining c - 1), (true, bool_decide (remaining c = 1)))).
Proof.
  intros Hwf. unfold Place, placeable. destruct (byGroup p !! g) as [c|] eqn:Hg; [|naive_solver].
  pose proof (wf_commit _ _ Hwf _ _ Hg) as (Hrem & _ & _).
  case_decide as Hc; [right|left; naive_solver]. destruct Hc as [Hid Hpos]. exists c.
  split_and!; [done..|]. rewrite i64_id by (split; lia).
  unfold put. destruct (setRemaining p c (remaining c - 1)) as [q c'] eqn:Hq. simpl. do 2 f_equal.
  assert (c' = withRemaining c (remaining c - 1)) as ->.
  { unfold setRemaining in Hq. injection Hq as <- <-. by rewrite decide_False by lia. }
  apply bool_decide_ext. simpl. lia.
Qed.

Lemma setRemaining_withGroups p m c r :
  setRemaining (withGroups p m) c r = (withGroups (setRemaining p c r).1 m, (setRemaining p c r).2).
Proof. unfold setRemaining. simpl. by case_decide. Qed.

Lemma Release_cases {W} p g id (cb : option (W → W)) w :
  ((∀ c, byGroup p !! g = Some c → cid c ≠ id) ∧ Release p g id cb w = (p, w, false)) ∨
  (∃ c, byGroup p !! g = Some c ∧ cid c = id ∧
     Release p g id cb w = (withGroups (setRemaining p c 0).1 (delete g (byGroup p)),
                            from_option (λ f, f w) w cb, true)).
Proof.
  unfold Release. destruct (byGroup p !! g) as [c|]; [|left; naive_solver].
  destruct (decide (cid c ≠ id)) as [Hne|He]; [left; naive_solver|right].
  exists c. split_and!; [done|by apply dec_stable|]. rewrite setRemaining_withGroups. by destruct cb.
Qed.

Lemma Release_wf {W} n p g id (cb : option (W → W)) w :
  n ≤ MaxInt32 → wf n p → wf n (Release p g id cb w).1.1.
Proof.
  intros Hn Hwf. destruct (Release_cases p g id cb w) as [[_ ->]|(c & Hg & _ & ->)]; [done|].
  pose proof (wf_commit _ _ Hwf _ _ Hg) as (Hrem & _). cbn [fst snd].
  destruct (setRemaining_at n p g c 0) as (H1 & H2 & H3 & H4); [done|done|by eapply wf_at|done..|].
  set (q := setRemaining p c 0) in *. clearbody q. apply indexed_at_idle in H4; [|by rewrite H1].
  split; simpl.
  - rewrite <-H2. exact H4.
  - rewrite H3. apply Hwf.
  - rewrite H3, map_size_delete. pose proof (wf_size _ _ Hwf). destruct (byGroup p !! g); simpl; lia.
  - rewrite H3. intros g' c' [_ Hc']%lookup_delete_Some. by apply (wf_commit _ _ Hwf g').
  - intros g1 g2 c1 c2 [_ ?]%lookup_delete_Some [_ ?]%lookup_delete_Some. by eapply (wf_distinct _ _ Hwf).
Qed.

Lemma Place_wf n p g id : n ≤ MaxInt32 → wf n p → wf n (Place p g id).1.
Proof.
  intros Hn Hwf. destruct (Place_cases n p g id Hwf) as [[_ ->]|(c & Hg & _ & Hpos & ->)]; [done|].
  pose proof (wf_commit _ _ Hwf _ _ Hg) as (Hrem & _).
  simpl. apply put_existing_wf; try done; [split|]; lia.
Qed.

(** ** Histories *)

(** One call of the scheduler on the store.  Sizes and remaining counts come
    from [minMember], an [int32].  [G] says which rebuilds a history may
    contain. *)
Section histories.
Context (G : DomainAssignments → Gang → string → Z → list string → Prop).

Inductive step : DomainAssignments → DomainAssignments → Prop :=
| step_choose p gang free nodesByDomain size :
    size ≤ MaxInt32 → step p (Choose p gang free nodesByDomain size).1
| step_set p gang domain r nodes :
    r ≤ MaxInt32 → G p gang domain r nodes → step p (SetCommitment p gang domain r nodes).1
| step_place p g id : step p (Place p g id).1
| step_release {W : Type} p g id (beforeUnlock : option (W → W)) (w : W) :
    step p (Release p g id beforeUnlock w).1.1.

Lemma step_wf n p q : n < MaxInt32 → wf n p → step p q → wf (n + 1) q.
Proof.
  intros Hn Hwf Hst. inversion Hst; subst; [apply Choose_wf|apply SetCommitment_wf|apply (wf_mono n)..]; try done; try lia.
  - apply Place_wf; [lia|done].
  - apply Release_wf; [lia|done].
Qed.

Lemma steps_wf n k p q :
  n + Z.of_nat k ≤ MaxInt32 → wf n p → nsteps step k p q → wf (n + Z.of_nat k) q.
Proof.
  revert n p. induction k as [|k IH]; intros n p Hk Hwf Hst; inversion Hst; subst.
  - by rewrite Z.add_0_r.
  - replace (n + Z.of_nat (S k)) with (n + 1 + Z.of_nat k) by lia.
    eapply IH; [lia| |done]. eapply step_wf; [lia|done..].
Qed.

(** A store the scheduler can reach in [k] calls. *)
Definition reachable (k : nat) (p : DomainAssignments) : Prop := nsteps step k New p.

Lemma reachable_wf k p : Z.of_nat k ≤ MaxInt32 → reachable k p → wf (Z.of_nat k) p.
Proof. intros Hk Hr. apply (steps_wf 0 k New); [lia|apply New_wf|done]. Qed.
End histories.

Definition anySet (_ : DomainAssignments) (_ : Gang) (_ : string) (_ : Z) (_ : list string) : Prop := True.

Lemma put_byGroup p g c r :
  byGroup (put p g c r) = <[g := withRemaining c (Z.max 0 r)]> (byGroup p).
Proof.
  unfold put, setRemaining. simpl.
  assert ((if decide (r < 0) then 0 else r) = Z.max 0 r) as -> by (case_decide; lia).
  by case_decide.
Qed.

Lemma put_nextID p g c r : nextID (put p g c r) = nextID p.
Proof. unfold put, setRemaining. simpl. by case_decide. Qed.

(** ** What the indexes say of the commitments *)

Definition forming (c : commitment) : Prop := 0 < remaining c.

Lemma reserved_pos n p d : wf n p →
  0 < default 0 (reserved p !! d) ↔ ∃ g c, byGroup p !! g = Some c ∧ forming c ∧ cdomain c = d.
Proof.
  intros Hwf. rewrite (proj1 (wf_indexed _ _ Hwf)), default_entry by apply claims_nonneg.
  unfold claims. rewrite map_sum_with_pos by apply share_nonneg.
  split; intros (g & c & Hc & H); exists g, c; revert H; unfold share, forming; case_decide; naive_solver lia.
Qed.

Lemma reservedNodes_pos n p x : wf n p →
  0 < default 0 (reservedNodes p !! x) ↔ ∃ g c, byGroup p !! g = Some c ∧ forming c ∧ x ∈ cnodes c.
Proof.
  intros Hwf. rewrite (proj2 (wf_indexed _ _ Hwf)), default_entry by apply holders_nonneg.
  unfold holders. rewrite map_sum_with_pos by apply hold_nonneg.
  split; intros (g & c & Hc & H); exists g, c; revert H; unfold hold, forming; case_decide; naive_solver lia.
Qed.

(** Nothing that is still forming holds the domain or one of its nodes. *)
Definition unclaimed (p : DomainAssignments) (key d : string) (nodes : list string) : Prop :=
  ∀ g c, byGroup p !! g = Some c → forming c →
    cdomain c ≠ mkDomain key d ∧ ∀ x, x ∈ nodes → x ∉ cnodes c.

Lemma blocked_spec n p key nodesByDomain d : wf n p →
  blocked p key nodesByDomain d = false ↔ unclaimed p key d (default [] (nodesByDomain !! d)).
Proof.
  intros Hwf. unfold blocked, unclaimed. rewrite orb_false_iff, bool_decide_eq_false, existsb_false.
  rewrite (reserved_pos n) by done. split.
  - intros [Hd Hx] g c Hg Hf. split; [naive_solver|]. intros x Hin Hxc.
    specialize (Hx x Hin). apply bool_decide_eq_false in Hx. apply Hx, (reservedNodes_pos n); eauto.
  - intros Hu. split; [naive_solver|]. intros x Hin. apply bool_decide_eq_false.
    rewrite (reservedNodes_pos n) by done. intros (g & c & Hg & Hf & Hxc).
    by apply (proj2 (Hu g c Hg Hf) x).
Qed.

(** A domain [Choose] may offer: room for the whole gang, and no claim on it. *)
Definition roomy (p : DomainAssignments) (key : string) (free : FreeByDomain)
    (nodesByDomain : gmap string (list string)) (size : Z) (d : string) : Prop :=
  (∃ f, free !! d = Some f ∧ size ≤ f) ∧ unclaimed p key d (default [] (nodesByDomain !! d)).

Lemma effectiveFree_lookup p key free nodesByDomain d :
  effectiveFree p key free nodesByDomain !! d =
  (λ f, if blocked p key nodesByDomain d then 0 else f) <$> free !! d.
Proof. unfold effectiveFree. rewrite map_lookup_imap. by destruct (free !! d). Qed.

Lemma effectiveFree_room n p key free nodesByDomain size d : wf n p → 0 < size →
  (∃ f, effectiveFree p key free nodesByDomain !! d = Some f ∧ size ≤ f) ↔
  roomy p key free nodesByDomain size d.
Proof.
  intros Hwf Hs. unfold roomy. rewrite <-(blocked_spec n) by done. rewrite effectiveFree_lookup.
  destruct (free !! d) as [f|]; simpl; [|naive_solver].
  destruct (blocked p key nodesByDomain d); naive_solver lia.
Qed.

Lemma effectiveFree_fits n p key free nodesByDomain size d : wf n p → 0 < size →
  fits (effectiveFree p key free nodesByDomain) size d ↔
  d ≠ "" ∧ roomy p key free nodesByDomain size d.
Proof. intros. unfold fits. by rewrite (effectiveFree_room n). Qed.

(** An offered domain shows its own free room. *)
Lemma effectiveFree_value n p key free nodesByDomain size d : wf n p → 0 < size →
  roomy p key free nodesByDomain size d →
  effectiveFree p key free nodesByDomain !! d = free !! d.
Proof.
  intros Hwf Hs [_ Hu]. apply (blocked_spec n) in Hu; [|done].
  rewrite effectiveFree_lookup, Hu. by destruct (free !! d).
Qed.

(** ** Exclusive use of domains and nodes *)

(** Two gangs that are still forming share neither a domain nor a node. *)
Definition exclusive (p : DomainAssignments) : Prop :=
  ∀ g g' c c', g ≠ g' → byGroup p !! g = Some c → byGroup p !! g' = Some c' →
    forming c → forming c' → cdomain c ≠ cdomain c' ∧ cnodes c ## cnodes c'.

(** A rebuild that meets no claim of another forming gang. *)
Definition clearSet (p : DomainAssignments) (gang : Gang) (domain : string) (r : Z)
    (nodes : list string) : Prop :=
  r ≤ 0 ∨ ∀ g c, g ≠ Group gang → byGroup p !! g = Some c → forming c →
    cdomain c ≠ mkDomain (GTopologyKey gang) domain ∧ ∀ x, x ∈ nodes → x ∉ cnodes c.

Lemma elem_of_nodeSet x nodes : x ∈ nodeSet nodes → x ∈ nodes.
Proof. unfold nodeSet. rewrite elem_of_list_to_set, list_elem_of_filter. naive_solver. Qed.

(** Replacing one group's commitment keeps exclusivity when the new one meets
    no other. *)
Lemma exclusive_insert p q g c :
  exclusive p → byGroup q = <[g := c]> (byGroup p) →
  (forming c → ∀ g' c', g' ≠ g → byGroup p !! g' = Some c' → forming c' →
     cdomain c' ≠ cdomain c ∧ cnodes c' ## cnodes c) →
  exclusive q.
Proof.
  intros Hex Hq Hc g1 g2 c1 c2 Hne. rewrite Hq.
  intros [[<- <-]|[? H1]]%lookup_insert_Some [[<- <-]|[? H2]]%lookup_insert_Some Hf1 Hf2; [done|..].
  - destruct (Hc Hf1 g2 c2) as [? ?]; [done..|]. by split; [congruence|symmetry].
  - by apply (Hc Hf2 g1 c1).
  - by apply (Hex g1 g2).
Qed.

(** The same commitment with less outstanding. *)
Lemma exclusive_shrink p q g c r :
  exclusive p → byGroup p !! g = Some c → r ≤ remaining c →
  byGroup q = <[g := withRemaining c r]> (byGroup p) → exclusive q.
Proof.
  intros Hex Hg Hr Hq. eapply exclusive_insert; [done|done|].
  unfold forming. simpl. intros Hpos g' c' Hne Hg' Hf. apply (Hex g' g c' c); try done. unfold forming. lia.
Qed.

Lemma Choose_exclusive n p gang free nodesByDomain size :
  wf n p → exclusive p → exclusive (Choose p gang free nodesByDomain size).1.
Proof.
  intros Hwf Hex. destruct (Choose_cases p gang free nodesByDomain size) as [| | |d Hg Hs [Hfit _]];
    [done..|]. cbn [fst].
  apply (effectiveFree_fits n) in Hfit as [_ [_ Hu]]; [|done..].
  eapply exclusive_insert; [exact Hex|rewrite put_byGroup; reflexivity|]. simpl.
  intros _ g' c' Hne Hg' Hf. destruct (Hu g' c' Hg' Hf) as [Hd Hx]. split; [done|].
  intros x Hx' Hxn%elem_of_nodeSet. by apply (Hx x).
Qed.

Lemma SetCommitment_exclusive n p gang domain r nodes :
  n ≤ MaxInt32 → wf n p → clearSet p gang domain r nodes → exclusive p →
  exclusive (SetCommitment p gang domain r nodes).1.
Proof.
  intros Hn Hwf Hclear Hex. rewrite SetCommitment_put. cbn [fst].
  destruct (surrendered_wf n p (Group gang)) as (Hs & _ & Hby); [done..|].
  eapply (exclusive_insert p); [done| |].
  - rewrite put_byGroup. cbn [nextCommitmentID fst byGroup]. rewrite Hby.
    apply map_eq. intros g'. destruct (decide (g' = Group gang)) as [->|Hne].
    + by rewrite !lookup_insert_eq.
    + by rewrite !lookup_insert_ne, lookup_alter_ne by done.
  - unfold forming at 1. simpl. intros Hpos g' c' Hne Hg' Hf.
    destruct Hclear as [?|Hclear]; [lia|]. destruct (Hclear g' c' Hne Hg' Hf) as [Hd Hx].
    split; [done|]. intros x Hx' Hxn%elem_of_nodeSet. by apply (Hx x).
Qed.

Lemma step_exclusive n p q :
  n ≤ MaxInt32 → wf n p → exclusive p → step clearSet p q → exclusive q.
Proof.
  intros Hn Hwf Hex Hst. inversion Hst; subst; clear Hst.
  - by apply (Choose_exclusive n).
  - by apply (SetCommitment_exclusive n).
  - destruct (Place_cases n p g id Hwf) as [[_ ->]|(c & Hg & _ & Hpos & ->)]; [done|].
    apply (exclusive_shrink p _ g c (Z.max 0 (remaining c - 1))); [done..|lia|apply put_byGroup].
  - destruct (Release_cases p g id beforeUnlock w) as [[_ ->]|(c & Hg & _ & ->)]; [done|].
    intros g1 g2 c1 c2 Hne. simpl. intros [_ H1]%lookup_delete_Some [_ H2]%lookup_delete_Some.
    by apply (Hex g1 g2).
Qed.
