(* ===== verification/AssignmentsHistory.v ===== *)
(** * Histories of the assignment store

    The theorems about every sequence of calls the scheduler can make on the
    store of [Assignments]: consistent indexes, exclusive domains and nodes,
    stale callbacks, the choice of a domain, draining, and the filter's
    question about a node. *)

From S2P Require Import Prelude Domains Assignments AssignmentsFacts.
Open Scope Z_scope.

(** A small history: two gangs over three domains, the first one's members
    placed one after the other. *)
Definition free3 : gmap string Z := list_to_map [("r1", 2); ("r2", 3); ("r3", 8)].
Definition nodes3 : gmap string (list string) :=
  list_to_map [("r1", ["n1"; "n2"]); ("r2", ["n2"; "n3"]); ("r3", ["n4"])].
Definition gangA : Gang := mkGang "a" "uid-a" "rack".
Definition gangB : Gang := mkGang "b" "uid-b" "rack".
Definition storeA : DomainAssignments := (Choose New gangA free3 nodes3 2).1.
Definition storeAB : DomainAssignments := (Choose storeA gangB free3 nodes3 2).1.

(** The second gang skips [r2], which shares the node [n2] with [r1]. *)
Example second_choice : (Choose storeA gangB free3 nodes3 2).2 = ("r3", 2, true).
Proof. vm_compute. reflexivity. Qed.

Lemma storeAB_reachable G : reachable G 2 storeAB.
Proof. repeat econstructor; lia. Qed.

(** C24: Over every history of fewer than [2^31] calls, with sizes and
    remaining counts in the range of an [int32], the store's two indexes agree
    exactly with its commitments: the reservation recorded for a domain is the
    sum of what the gangs committed to it have outstanding, the count of a node
    is the number of forming gangs that hold it, and neither index keeps an
    entry at zero.  No two groups hold the same id, ids are positive and at
    most the last one given, and no outstanding count is negative. *)
Theorem store_consistent (k : nat) (p : DomainAssignments) :
  Z.of_nat k ≤ MaxInt32 → reachable anySet k p →
  (∀ d, default 0 (reserved p !! d) =
        map_sum_with (λ c, if decide (cdomain c = d) then remaining c else 0) (byGroup p)) ∧
  (∀ n, default 0 (reservedNodes p !! n) =
        map_sum_with (λ c, if decide (0 < remaining c ∧ n ∈ cnodes c) then 1 else 0) (byGroup p)) ∧
  (∀ d v, reserved p !! d = Some v → 0 < v) ∧
  (∀ n v, reservedNodes p !! n = Some v → 0 < v) ∧
  (∀ g c, byGroup p !! g = Some c → 0 ≤ remaining c ∧ 0 < cid c ≤ nextID p) ∧
  (∀ g g' c c', byGroup p !! g = Some c → byGroup p !! g' = Some c' → cid c = cid c' → g = g').
Proof.
  intros Hk Hr. apply reachable_wf in Hr as Hwf; [|done].
  destruct (wf_indexed _ _ Hwf) as [HD HN]. split_and!.
  - intros d. rewrite HD, default_entry by apply claims_nonneg.
    unfold claims, map_sum_with. apply zsum_with_ext. intros [g c] Hc%elem_of_map_to_list.
    apply (wf_commit _ _ Hwf) in Hc. unfold share. simpl. case_decide; lia.
  - intros n. by rewrite HN, default_entry by apply holders_nonneg.
  - intros d v. rewrite HD. unfold entry. case_decide; naive_solver.
  - intros n v. rewrite HN. unfold entry. case_decide; naive_solver.
  - intros g c Hc. apply (wf_commit _ _ Hwf) in Hc. naive_solver.
  - apply Hwf.
Qed.

Lemma store_consistent_witness :
  default 0 (reserved storeAB !! mkDomain "rack" "r1") = 2 ∧
  default 0 (reservedNodes storeAB !! "n2") =
  map_sum_with (λ c, if decide (0 < remaining c ∧ "n2" ∈ cnodes c) then 1 else 0) (byGroup storeAB).
Proof.
  destruct (store_consistent 2 storeAB) as (HD & HN & _); [lia|apply storeAB_reachable|].
  split; [rewrite HD; vm_compute; reflexivity|apply HN].
Defined.

(** C25: As long as a rebuild ([Set] with members still owed) never meets a
    claim of another forming gang, no history brings two forming gangs onto
    the same domain or onto a common node, whatever topology keys their
    domains are read under. *)
Theorem forming_gangs_exclusive (k : nat) (p : DomainAssignments) :
  Z.of_nat k ≤ MaxInt32 → reachable clearSet k p → exclusive p.
Proof.
  intros Hk Hr. unfold reachable in Hr. revert p Hk Hr.
  induction k as [|k IH]; intros p Hk Hr.
  { inversion Hr; subst. intros ?????. simpl. by rewrite lookup_empty. }
  apply nsteps_inv_r in Hr as (q & Hq & Hst).
  apply (step_exclusive (Z.of_nat k) q); [lia| |apply IH; [lia|done]|done].
  apply (reachable_wf clearSet); [lia|done].
Qed.

Lemma forming_gangs_exclusive_witness :
  ∃ c c', byGroup storeAB !! "a" = Some c ∧ byGroup storeAB !! "b" = Some c' ∧
    forming c ∧ forming c' ∧ cdomain c ≠ cdomain c' ∧ cnodes c ## cnodes c'.
Proof.
  pose proof (forming_gangs_exclusive 2 storeAB ltac:(lia) (storeAB_reachable clearSet)) as Hex.
  assert (remaining <$> byGroup storeAB !! "a" = Some 2) as Ra by (vm_compute; reflexivity).
  assert (remaining <$> byGroup storeAB !! "b" = Some 2) as Rb by (vm_compute; reflexivity).
  apply fmap_Some in Ra as (c & Ha & Ra). apply fmap_Some in Rb as (c' & Hb & Rb).
  assert (forming c) as Fa by (unfold forming; lia). assert (forming c') as Fb by (unfold forming; lia).
  exists c, c'. destruct (Hex "a" "b" c c') as [Hd Hn]; [done..|]. by split_and!.
Defined.

(** ** Stale callbacks *)

(** [id] owns the group's commitment. *)
Definition owns (p : DomainAssignments) (g : string) (id : Z) : Prop :=
  ∃ c, byGroup p !! g = Some c ∧ cid c = id.

(** After a step, an id that owns a group owned it before or is new. *)
Lemma step_owns n p q g id :
  n < MaxInt32 → wf n p → step anySet p q → owns q g id → owns p g id ∨ nextID p < id.
Proof.
  intros Hn Hwf Hst (c & Hc & Hid). unfold owns. pose proof (wf_nextID _ _ Hwf).
  assert (∀ p', nextID p' = nextID p → (nextCommitmentID p').2 = nextID p + 1) as Hnew.
  { intros p' Hp'. unfold nextCommitmentID. simpl. rewrite Hp', u64_id by lia. done. }
  inversion Hst as [? gang free nbd size Hs|? gang dom r nodes Hr _|? g' id'|W ? g' id' cb w]; subst; clear Hst.
  - destruct (Choose_cases p gang free nbd size) as [| | |d Hg _ _]; [by eauto..|]. cbn [fst] in Hc.
    rewrite put_byGroup in Hc. apply lookup_insert_Some in Hc as [[_ <-]|[_ Hc]]; [right|by eauto].
    cbn [cid withRemaining]. rewrite Hnew by done. lia.
  - rewrite SetCommitment_put in Hc. cbn [fst] in Hc. rewrite put_byGroup in Hc.
    destruct (surrendered_wf n p (Group gang)) as (_ & Hnext & Hby); [lia|done|].
    apply lookup_insert_Some in Hc as [[_ <-]|[Hne Hc]].
    + right. cbn [cid withRemaining]. rewrite Hnew by done. lia.
    + cbn [nextCommitmentID fst byGroup] in Hc. rewrite Hby, lookup_alter_ne in Hc by done. eauto.
  - destruct (Place_cases n p g' id' Hwf) as [[_ Heq]|(c' & Hg & _ & _ & Heq)]; rewrite Heq in Hc; [by eauto|].
    cbn [fst] in Hc. rewrite put_byGroup in Hc.
    apply lookup_insert_Some in Hc as [[<- <-]|[_ Hc]]; left; eauto.
  - destruct (Release_cases p g' id' cb w) as [[_ Heq]|(c' & Hg & _ & Heq)]; rewrite Heq in Hc; [by eauto|].
    cbn [fst byGroup withGroups] in Hc. apply lookup_delete_Some in Hc as [_ Hc]. eauto.
Qed.

Lemma step_nextID n p q : n < MaxInt32 → wf n p → step anySet p q → nextID p ≤ nextID q.
Proof.
  intros Hn Hwf Hst. pose proof (wf_nextID _ _ Hwf).
  inversion Hst as [? gang free nbd size Hs|? gang dom r nodes Hr _|? g' id'|W ? g' id' cb w]; subst; clear Hst.
  - destruct (Choose_cases p gang free nbd size) as [| | |d Hg _ _]; cbn [fst]; [lia..|].
    rewrite put_nextID. simpl. rewrite u64_id by lia. lia.
  - rewrite SetCommitment_put. cbn [fst]. rewrite put_nextID.
    destruct (surrendered_wf n p (Group gang)) as (_ & Hnext & _); [lia|done|].
    simpl. rewrite Hnext, u64_id by lia. lia.
  - destruct (Place_cases n p g' id' Hwf) as [[_ ->]|(c' & Hg & _ & _ & ->)]; cbn [fst]; [lia|].
    by rewrite put_nextID.
  - destruct (Release_cases p g' id' cb w) as [[_ ->]|(c' & Hg & _ & ->)]; cbn [fst]; [lia|].
    unfold setRemaining. simpl. by case_decide.
Qed.

Lemma steps_not_owns n m p q g id :
  n + Z.of_nat m ≤ MaxInt32 → wf n p → nsteps (step anySet) m p q →
  id ≤ nextID p → ¬ owns p g id → ¬ owns q g id.
Proof.
  revert n p. induction m as [|m IH]; intros n p Hm Hwf Hst Hid Hno; inversion Hst as [|? ? y ? Hs Hrest]; subst.
  { done. }
  assert (wf (n + 1) y) as Hwf' by (eapply step_wf; [lia|done..]).
  apply (IH (n + 1) y); [lia|done..| |].
  - pose proof (step_nextID n p y ltac:(lia) Hwf Hs). lia.
  - intros Ho. destruct (step_owns n p y g id ltac:(lia) Hwf Hs Ho); [done|lia].
Qed.

(** Once an id that was already given does not own a group's commitment
    (released, replaced by a rebuild, or never its own), it never owns it
    again: however the store moves on from there, a callback that names it
    places nothing, releases nothing, runs no callback, and reads neither a
    committed gang nor a sole fit; the store stays as it is. *)
Theorem stale_callbacks (n m : nat) (p q : DomainAssignments) (g : string) (id : Z) :
  Z.of_nat n + Z.of_nat m ≤ MaxInt32 → reachable anySet n p → nsteps (step anySet) m p q →
  id ≤ nextID p → ¬ owns p g id →
  Place q g id = (q, (false, false)) ∧
  (∀ W (beforeUnlock : option (W → W)) w, Release q g id beforeUnlock w = (q, w, false)) ∧
  Committed q g id = false ∧ SoleFit q g id = false.
Proof.
  intros Hnm Hr Hst Hid Hno. apply reachable_wf in Hr; [|lia].
  assert (¬ owns q g id) as Hq by (by eapply (steps_not_owns (Z.of_nat n) m p)).
  unfold owns in Hq. unfold Place, Release, Committed, SoleFit.
  destruct (byGroup q !! g) as [c|]; [|done].
  assert (cid c ≠ id) as Hne by naive_solver.
  rewrite decide_False by naive_solver. rewrite !bool_decide_eq_false_2 by naive_solver.
  split_and!; try done. intros. by rewrite decide_True.
Qed.

(** Gang [a] was released and chosen again: its first id is stale. *)
Definition released : DomainAssignments := (Release storeAB "a" 1 (W:=unit) None tt).1.1.
Definition rechosen : DomainAssignments := (Choose released gangA free3 nodes3 2).1.

Lemma stale_callbacks_witness :
  owns rechosen "a" 3 ∧ Place rechosen "a" 1 = (rechosen, (false, false)).
Proof.
  split; [eexists; vm_compute; split; reflexivity|].
  apply (stale_callbacks 3 1 released rechosen "a" 1).
  - lia.
  - eapply nsteps_r; [apply storeAB_reachable|]. apply (step_release anySet storeAB "a" 1 None tt).
  - apply nsteps_once, step_choose. lia.
  - by vm_compute.
  - intros (c & Hc & _). by vm_compute in Hc.
Defined.

(** ** The choice of a domain *)

Lemma map_to_list_filter_perm {V} (P : string * V → Prop) `{∀ x, Decision (P x)} (m : gmap string V) :
  map_to_list (filter P m) ≡ₚ filter P (map_to_list m).
Proof.
  apply NoDup_Permutation; [apply NoDup_map_to_list|apply NoDup_filter, NoDup_map_to_list|].
  intros [k v]. rewrite elem_of_map_to_list, map_lookup_filter_Some, list_elem_of_filter, elem_of_map_to_list.
  naive_solver.
Qed.

Lemma fittingDomains_count (free : FreeByDomain) gangSize :
  Z.of_nat (size free) ≤ MaxInt64 →
  fittingDomains free gangSize = Z.of_nat (size (filter (λ kv, gangSize ≤ kv.2) free)).
Proof.
  intros Hb. unfold fittingDomains.
  rewrite <-(length_map_to_list (filter _ free)), map_to_list_filter_perm.
  rewrite <-(length_map_to_list free) in Hb. revert Hb. generalize (map_to_list free). clear free.
  set (f := λ n room, if decide (gangSize ≤ room) then i64 (n + 1) else n).
  cut (∀ l n, 0 ≤ n → n + Z.of_nat (length l) ≤ MaxInt64 →
    foldl f n l.*2 = n + Z.of_nat (length (filter (λ kv : string * Z, gangSize ≤ kv.2) l))).
  { intros Hc l Hl. rewrite (Hc l 0); lia. }
  induction l as [|[k room] l IH]; intros n Hn Hl; simpl in *; [lia|].
  rewrite filter_cons. unfold f at 2. simpl. case_decide.
  - rewrite i64_id by (split; lia). rewrite IH by lia. simpl. lia.
  - apply IH; lia.
Qed.

Lemma size_lt_2 {V} (m : gmap string V) k v :
  m !! k = Some v → (Z.of_nat (size m) < 2 ↔ ∀ k', is_Some (m !! k') → k' = k).
Proof.
  intros Hk. assert (size m = S (size (delete k m))) as Hs.
  { rewrite map_size_delete_Some by eauto. pose proof (map_size_ne_0_lookup_2 m k ltac:(eauto)). lia. }
  split.
  - intros Hlt k' [v' Hk']. apply dec_stable. intros Hne.
    assert (size (delete k m) ≠ 0%nat); [|lia]. apply (map_size_ne_0_lookup_2 _ k').
    by rewrite lookup_delete_ne; eauto.
  - intros Hu. assert (delete k m = ∅) as He; [|rewrite He, map_size_empty in Hs; lia].
    apply map_empty. intros k'. apply lookup_delete_None.
    destruct (m !! k') eqn:Hk'; [left|by right]. symmetry. apply Hu. eauto.
Qed.

Lemma sole_spec n p key free nodesByDomain size d :
  Z.of_nat (base.size free) ≤ MaxInt64 → wf n p → 0 < size → roomy p key free nodesByDomain size d →
  bool_decide (fittingDomains (effectiveFree p key free nodesByDomain) size < 2) = true ↔
  ∀ d', roomy p key free nodesByDomain size d' → d' = d.
Proof.
  intros Hb Hwf Hs Hd. rewrite bool_decide_eq_true, fittingDomains_count.
  - set (m := filter _ _). assert (∀ d', is_Some (m !! d') ↔ roomy p key free nodesByDomain size d') as Hm.
    { intros d'. rewrite <-(effectiveFree_room n) by done. unfold m, is_Some.
      setoid_rewrite map_lookup_filter_Some. done. }
    destruct (proj2 (Hm d) Hd) as [v Hv]. rewrite (size_lt_2 _ _ _ Hv). by setoid_rewrite Hm.
  - unfold effectiveFree.
    assert (base.size (map_imap (λ d f, Some (if blocked p key nodesByDomain d then 0 else f)) free) = base.size free)
      as ->; [|done].
    rewrite <-!size_dom. f_equal. apply set_eq. intros x. rewrite !elem_of_dom, map_lookup_imap.
    destruct (free !! x); simpl; split; intros [? ?]; eauto; done.
Qed.

(** C27: What [Choose] does, in terms of the commitments alone.  A gang that
    holds a commitment keeps it when the owner is the same and gets nothing
    otherwise, and the store does not move.  A gang without one is given the
    tightest named domain that has room for it and that no forming gang holds,
    by domain or by node, under the next id, with its whole size outstanding
    and its nodes recorded, and no other group is touched; the commitment is a
    sole fit exactly when no other domain could have taken the gang.  It gets
    nothing exactly when there is no such domain. *)
Theorem Choose_spec (k : nat) (p : DomainAssignments) (gang : Gang) (free : FreeByDomain)
    (nodesByDomain : gmap string (list string)) (size : Z) :
  Z.of_nat k < MaxInt32 → Z.of_nat (base.size free) ≤ MaxInt64 → reachable anySet k p →
  let offered := roomy p (GTopologyKey gang) free nodesByDomain size in
  let '(q, (d, id, ok)) := Choose p gang free nodesByDomain size in
  match byGroup p !! Group gang with
  | Some c =>
      q = p ∧ (d, id, ok) = if decide (owner c = Owner gang)
                            then (DName (cdomain c), cid c, true) else ("", 0, false)
  | None =>
      if ok then
        0 < size ∧ d ≠ "" ∧ offered d ∧
        (∀ d', d' ≠ "" → offered d' →
           default 0 (free !! d) < default 0 (free !! d') ∨
           (default 0 (free !! d) = default 0 (free !! d') ∧ (d = d' ∨ str_lt d d' = true))) ∧
        id = nextID p + 1 ∧ nextID q = id ∧
        ∃ sole, (sole = true ↔ ∀ d', offered d' → d' = d) ∧
          byGroup q = <[Group gang := mkCommitment (mkDomain (GTopologyKey gang) d) (Owner gang) size id
                          (nodeSet (default [] (nodesByDomain !! d))) sole]> (byGroup p)
      else q = p ∧ (size ≤ 0 ∨ ∀ d', d' ≠ "" → ¬ offered d')
  end.
Proof.
  intros Hk Hfree Hr. apply reachable_wf in Hr as Hwf; [|lia]. cbv zeta.
  pose proof (wf_nextID _ _ Hwf) as Hid.
  destruct (Choose_cases p gang free nodesByDomain size) as [c Hg Ho|c Hg Ho|Hg Hno|d Hg Hs [Hfit Hmin]];
    rewrite Hg.
  - by rewrite decide_True.
  - by rewrite decide_False.
  - split; [done|]. destruct (decide (size ≤ 0)) as [|Hs]; [by left|right]. destruct Hno as [|Hno]; [done|].
    intros d' Hd' Hroom. apply (Hno d'), (effectiveFree_fits (Z.of_nat k)); [done|lia|done].
  - apply (effectiveFree_fits (Z.of_nat k)) in Hfit as [Hne Hroom]; [|done..].
    assert ((nextCommitmentID p).2 = nextID p + 1) as Hnew by (cbn; rewrite u64_id by lia; done).
    rewrite put_nextID, put_byGroup. split_and!; try done.
    + intros d' Hd' Hroom'. specialize (Hmin d').
      rewrite (effectiveFree_fits (Z.of_nat k)) in Hmin by done. specialize (Hmin (conj Hd' Hroom')).
      by rewrite !(effectiveFree_value (Z.of_nat k) _ _ _ _ size) in Hmin by done.
    + eexists. split; [apply (sole_spec (Z.of_nat k)); [done..|exact Hroom]|].
      unfold withRemaining. cbn [cdomain owner cid cnodes soleFit]. rewrite Z.max_r by lia. done.
Qed.

Lemma Choose_spec_witness : (Choose storeA gangB free3 nodes3 2).2 = ("r3", 2, true) ∧
  roomy storeA "rack" free3 nodes3 2 "r3".
Proof.
  pose proof (Choose_spec 1 storeA gangB free3 nodes3 2 ltac:(lia) ltac:(by vm_compute)) as H.
  assert (reachable anySet 1 storeA) as Hr by (repeat econstructor; lia). specialize (H Hr).
  assert ((Choose storeA gangB free3 nodes3 2).2 = ("r3", 2, true)) as E by (vm_compute; reflexivity).
  split; [exact E|]. destruct (Choose storeA gangB free3 nodes3 2) as [q [[d id] ok]].
  simpl in E. injection E as -> -> ->.
  assert (byGroup storeA !! Group gangB = None) as Hn by (vm_compute; reflexivity).
  rewrite Hn in H. by destruct H as (_ & _ & Hroom & _).
Defined.

(** ** Draining *)

(** The members of a gang landing one after the other. *)
Fixpoint placeN (k : nat) (p : DomainAssignments) (g : string) (id : Z)
    : DomainAssignments * list (bool * bool) :=
  match k with
  | O => (p, [])
  | S k => let '(p, r) := Place p g id in
           let '(p, rs) := placeN k p g id in (p, r :: rs)
  end.

Lemma placeN_run n k p g c :
  n ≤ MaxInt32 → wf n p → byGroup p !! g = Some c → remaining c = Z.of_nat (S k) →
  ∃ q, placeN (S k) p g (cid c) = (q, replicate k (true, false) ++ [(true, true)]) ∧
       wf n q ∧ byGroup q = <[g := withRemaining c 0]> (byGroup p).
Proof.
  intros Hn. revert p c. induction k as [|k IH]; intros p c Hwf Hg Hrem;
    (destruct (Place_cases n p g (cid c) Hwf) as [[Hno _]|(c' & Hg' & _ & _ & Heq)];
     [destruct Hno; exists c; split_and!; [done..|lia]|]);
    assert (c' = c) as -> by congruence;
    pose proof (Place_wf n p g (cid c) Hn Hwf) as Hwf'; rewrite Heq in Hwf'; cbn [fst] in Hwf'.
  - exists (put p g c (remaining c - 1)). cbn [placeN]. rewrite Heq.
    rewrite bool_decide_eq_true_2 by lia. split_and!; [done..|].
    rewrite put_byGroup. do 2 f_equal. lia.
  - change (placeN (S (S k)) p g (cid c)) with
      (let '(p, r) := Place p g (cid c) in let '(p, rs) := placeN (S k) p g (cid c) in (p, r :: rs)).
    rewrite Heq. rewrite bool_decide_eq_false_2 by lia.
    set (c' := withRemaining c (Z.max 0 (remaining c - 1))).
    destruct (IH (put p g c (remaining c - 1)) c') as (q & Hq & Hwfq & Hby); [done| |simpl; lia|].
    { rewrite put_byGroup. by rewrite lookup_insert_eq. }
    change (cid c') with (cid c) in Hq. rewrite Hq. exists q. split_and!; [done..|].
    rewrite Hby, put_byGroup. by rewrite insert_insert_eq.
Qed.

(** A reservation of [r] nodes is drained by exactly [r] placed members:
    each of the first [r - 1] calls of [Place] reports a placed member, the
    last one reports that the reservation drained, the gang is then committed,
    its domain's reservation has shrunk by [r], the other groups are as they
    were, and a further call places nothing. *)
Theorem place_drains (k : nat) (p : DomainAssignments) (g : string) (c : commitment) :
  Z.of_nat k ≤ MaxInt32 → reachable anySet k p → byGroup p !! g = Some c → 0 < remaining c →
  let '(q, reports) := placeN (Z.to_nat (remaining c)) p g (cid c) in
  reports = replicate (Z.to_nat (remaining c - 1)) (true, false) ++ [(true, true)] ∧
  Committed q g (cid c) = true ∧ Committed p g (cid c) = false ∧
  byGroup q = <[g := withRemaining c 0]> (byGroup p) ∧
  (∀ d, default 0 (reserved q !! d) =
        default 0 (reserved p !! d) - if decide (cdomain c = d) then remaining c else 0) ∧
  Place q g (cid c) = (q, (false, false)).
Proof.
  intros Hk Hr Hg Hpos. apply reachable_wf in Hr as Hwf; [|lia].
  destruct (placeN_run (Z.of_nat k) (Z.to_nat (remaining c - 1)) p g c) as (q & Hq & Hwfq & Hby); [done..|lia|].
  replace (S (Z.to_nat (remaining c - 1))) with (Z.to_nat (remaining c)) in Hq by lia.
  rewrite Hq. split; [done|].
  assert (byGroup q !! g = Some (withRemaining c 0)) as Hgq by (by rewrite Hby, lookup_insert_eq).
  split_and!; [| |done| |].
  - unfold Committed. by rewrite Hgq, bool_decide_eq_true_2.
  - unfold Committed. rewrite Hg, bool_decide_eq_false_2; [done|]. intros [_ ?]. lia.
  - intros d. rewrite (proj1 (wf_indexed _ _ Hwf)), (proj1 (wf_indexed _ _ Hwfq)).
    rewrite !default_entry by apply claims_nonneg. rewrite Hby, claims_insert.
    unfold claims at 2. rewrite (map_sum_with_at _ _ g), Hg. simpl. fold (claims (delete g (byGroup p)) d).
    unfold share. simpl. case_decide; lia.
  - unfold Place. rewrite Hgq. simpl. by rewrite decide_False by lia.
Qed.

Lemma place_drains_witness :
  (placeN 2 storeAB "a" 1).2 = [(true, false); (true, true)] ∧
  Committed (placeN 2 storeAB "a" 1).1 "a" 1 = true.
Proof.
  assert ((λ c, (remaining c, cid c)) <$> byGroup storeAB !! "a" = Some (2, 1)) as Ra by (vm_compute; reflexivity).
  apply fmap_Some in Ra as (c & Ha & [= Hrem Hid]).
  pose proof (place_drains 2 storeAB "a" c ltac:(lia) (storeAB_reachable anySet) Ha ltac:(lia)) as H.
  rewrite <-Hrem, <-Hid in H. change (Z.to_nat 2) with 2%nat in H.
  change (Z.to_nat (2 - 1)) with 1%nat in H.
  destruct (placeN 2 storeAB "a" 1) as [q rs]. destruct H as (Hrs & Hc & _).
  split; [exact Hrs|exact Hc].
Defined.

(** The filter's question: [BlocksNode] holds a node back exactly when
    some forming gang recorded it among its domain's nodes, or a forming gang
    recorded no nodes and the node's label for that gang's topology key names
    its domain (a node without the label reads as the empty value). *)
Theorem BlocksNode_spec (k : nat) (p : DomainAssignments) (name : string) (labels : gmap string string) :
  Z.of_nat k ≤ MaxInt32 → reachable anySet k p →
  BlocksNode p name labels = true ↔
  ∃ g c, byGroup p !! g = Some c ∧ forming c ∧
    (name ∈ cnodes c ∨
     cnodes c = ∅ ∧ default "" (labels !! TopologyKey (cdomain c)) = DName (cdomain c)).
Proof.
  intros Hk Hr. apply reachable_wf in Hr as Hwf; [|lia].
  unfold BlocksNode. rewrite orb_true_iff, bool_decide_eq_true, existsb_true.
  rewrite (reservedNodes_pos (Z.of_nat k)) by done.
  assert (∀ c, c ∈ (map_to_list (byGroup p)).*2 ↔ ∃ g, byGroup p !! g = Some c) as Hin.
  { intros c. rewrite list_elem_of_fmap. split.
    - intros ([g c'] & -> & Hc%elem_of_map_to_list). eauto.
    - intros [g Hc%elem_of_map_to_list]. by exists (g, c). }
  unfold forming. setoid_rewrite Hin. setoid_rewrite bool_decide_eq_true. naive_solver.
Qed.

Lemma BlocksNode_spec_witness :
  BlocksNode storeAB "n2" ∅ = true ∧ BlocksNode storeAB "n9" ∅ = false ∧
  ∃ g c, byGroup storeAB !! g = Some c ∧ forming c ∧
    ("n2" ∈ cnodes c ∨ cnodes c = ∅ ∧
     default "" ((∅ : gmap string string) !! TopologyKey (cdomain c)) = DName (cdomain c)).
Proof.
  split; [by vm_compute|]. split; [by vm_compute|].
  apply (BlocksNode_spec 2 storeAB "n2" ∅); [lia|apply storeAB_reachable|by vm_compute].
Defined.
