(* ===== verification/Capacity.v ===== *)
(** * What a cluster's nodes add up to

    [pkg/quota/capacity/capacity.go] and [highwater.go]: the accelerators of a
    node list, added up per (resource, flavor), and the damped high-water mark
    kept of the installed capacity.  A Kubernetes node is the fields the
    package reads.  Counts are Go [int]s. *)

From S2P Require Import Prelude Quantity.
Local Open Scope Z_scope.

(** [Options]. *)
Record CapacityOptions := mkCapacityOptions { AcceleratorResources : list string }.

(** [Flavor]; [UID] is not read here. *)
Record Flavor := mkFlavor { FlavorName : string; FlavorUID : string; NodeLabels : gmap string string }.

Definition ReasonNoFlavor := "NoMatchingFlavor".
Definition ReasonAmbiguous := "AmbiguousFlavor".

Inductive capacity_error :=
| ErrFlavorUnnamed
| ErrFlavorTwice (name : string).

(** [resourceFlavor{resource, flavor}]. *)
Abbreviation resourceFlavor := (string * string)%type (only parsing).

Section model.
Context {Q : Type} `{QuantityOps Q}.

(** [corev1.Node]: [Status.Conditions] as pairs of type and status. *)
Record KNode := mkKNode {
  KName : string; KLabels : gmap string string; Unschedulable : bool;
  Conditions : list (string * string); KAllocatable : gmap string Q }.

Record Capacity := mkCapacity {
  CResourceName : string; CResourceFlavor : string; Allocatable : Q; Unavailable : Q;
  NodesCount : Z; UnavailableNodes : Z }.

Record Unattributed := mkUnattributed {
  UNode : string; UResourceName : string; UQuantity : Q; UReason : string }.

Record Result := mkResult { Capacities : list Capacity; UnattributedOf : list Unattributed }.

Definition checkFlavor (seen : gset string) (f : Flavor) : outcome capacity_error (gset string) :=
  if decide (FlavorName f = "") then Err ErrFlavorUnnamed
  else if decide (FlavorName f ∈ seen) then Err (ErrFlavorTwice (FlavorName f))
  else Ok ({[FlavorName f]} ∪ seen).

Definition validateFlavors (flavors : list Flavor) : outcome capacity_error unit :=
  (let? _ := ofold checkFlavor ∅ flavors in Ok tt)%go.

Record chip := mkChip { chipName : string; chipQuantity : Q }.

Definition acceleratorsOf (node : KNode) (wanted : gset string) : list chip :=
  sort_slice (λ a b, str_lt (chipName a) (chipName b))
    ((λ e, mkChip e.1 e.2) <$>
       filter (λ e, q_IsZero e.2 = false ∧ e.1 ∈ wanted) (map_to_list (KAllocatable node))).

(** The first condition of type [Ready] decides. *)
Definition available (node : KNode) : bool :=
  if Unschedulable node then false
  else match list_find (λ c, c.1 = "Ready") (Conditions node) with
       | Some (_, c) => bool_decide (c.2 = "True")
       | None => false
       end.

Definition matchesLabels (node : KNode) (want : gmap string string) : bool :=
  forallb (λ e, bool_decide (default "" (KLabels node !! e.1) = e.2)) (map_to_list want).

(** One flavor of the loop of [match]: the best name, its number of labels
    and whether another matched as many. *)
Definition matchFlavor (node : KNode) (st : string * Z * bool) (f : Flavor) : string * Z * bool :=
  let '(best, bestLabels, tied) := st in
  if negb (matchesLabels node (NodeLabels f)) then st
  else
    let n := Z.of_nat (size (NodeLabels f)) in
    if decide (bestLabels < n) then (FlavorName f, n, false)
    else if decide (n = bestLabels) then (best, bestLabels, true)
    else st.

(** [match]. *)
Definition match_flavor (node : KNode) (flavors : list Flavor) : string * string :=
  let '(best, _, tied) := foldl (matchFlavor node) ("", -1, false) flavors in
  if decide (best = "") then ("", ReasonNoFlavor)
  else if tied : bool then ("", ReasonAmbiguous)
  else (best, "").

Definition newCapacity (k : resourceFlavor) : Capacity := mkCapacity k.1 k.2 q_zero q_zero 0 0.

(** One chip into its total. *)
Definition addChip (flavor : string) (usable : bool) (totals : gmap resourceFlavor Capacity) (c : chip)
    : gmap resourceFlavor Capacity :=
  let k := (chipName c, flavor) in
  let t := default (newCapacity k) (totals !! k) in
  <[k := if usable
         then mkCapacity (CResourceName t) (CResourceFlavor t) (q_Add (Allocatable t) (chipQuantity c))
                (Unavailable t) (i64 (NodesCount t + 1)) (UnavailableNodes t)
         else mkCapacity (CResourceName t) (CResourceFlavor t) (Allocatable t)
                (q_Add (Unavailable t) (chipQuantity c)) (NodesCount t) (i64 (UnavailableNodes t + 1))]> totals.

Definition addNode (totals : gmap resourceFlavor Capacity) (chips : list chip) (flavor : string)
    (usable : bool) : gmap resourceFlavor Capacity :=
  foldl (addChip flavor usable) totals chips.

Definition unattributedChips (nodeName : string) (chips : list chip) (reason : string) : list Unattributed :=
  (λ c, mkUnattributed nodeName (chipName c) (chipQuantity c) reason) <$> chips.

Definition capacityLess : Capacity → Capacity → bool :=
  lex_less CResourceName str_lt (λ a b, str_lt (CResourceFlavor a) (CResourceFlavor b)).
Definition unattributedLess : Unattributed → Unattributed → bool :=
  lex_less UNode str_lt (λ a b, str_lt (UResourceName a) (UResourceName b)).

Definition sortedResult (totals : gmap resourceFlavor Capacity) (unattributed : list Unattributed) : Result :=
  mkResult (sort_slice capacityLess (map_to_list totals).*2) (sort_slice unattributedLess unattributed).

(** One node of the loop of [Sum]. *)
Definition sumNode (wanted : gset string) (flavors : list Flavor)
    (st : gmap resourceFlavor Capacity * list Unattributed) (node : KNode)
    : gmap resourceFlavor Capacity * list Unattributed :=
  let '(totals, unattributed) := st in
  let chips := acceleratorsOf node wanted in
  if decide (chips = []) then st
  else
    let '(flavor, reason) := match_flavor node flavors in
    if decide (flavor = "")
    then (totals, unattributed ++ unattributedChips (KName node) chips reason)
    else (addNode totals chips flavor (available node), unattributed).

Definition Sum (nodes : list KNode) (flavors : list Flavor) (opts : CapacityOptions)
    : outcome capacity_error Result :=
  (if decide (AcceleratorResources opts = []) then Ok (mkResult [] [])
   else
     let? _ := validateFlavors flavors in
     let wanted : gset string := list_to_set (AcceleratorResources opts) in
     let '(totals, unattributed) := foldl (sumNode wanted flavors) (∅, []) nodes in
     Ok (sortedResult totals unattributed))%go.

(** ** The high-water mark *)

Record Mark := mkMark {
  MResourceName : string; MResourceFlavor : string; MAllocatable : Q; HighWaterMark : Q }.

Definition Track {D} `{DecOps Q D} (mark observed : Q) (bandPercent : Z) : Q :=
  if decide (0 ≤ q_Cmp observed mark) then observed
  else if decide (bandPercent ≤ 0) then observed
  else if decide (100 ≤ bandPercent) then mark
  else
    let scaled := dec_Mul (AsDec observed) (NewDec 100 0) in
    let threshold := dec_Mul (AsDec mark) (NewDec (i32 (100 - bandPercent)) 0) in
    if decide (dec_Cmp scaled threshold < 0) then observed else mark.

Definition installed (c : Capacity) : Q := q_Add (Allocatable c) (Unavailable c).

(** The marks carried in: the first of a pair counts. *)
Definition readMark (st : gmap resourceFlavor Q * list resourceFlavor) (p : Mark)
    : gmap resourceFlavor Q * list resourceFlavor :=
  let '(marks, order) := st in
  let k := (MResourceName p, MResourceFlavor p) in
  if decide (is_Some (marks !! k)) then st
  else (<[k := HighWaterMark p]> marks, order ++ [k]).

Definition markLess : Mark → Mark → bool :=
  lex_less MResourceName str_lt (λ a b, str_lt (MResourceFlavor a) (MResourceFlavor b)).

Definition TrackAll {D} `{DecOps Q D} (previous : list Mark) (observed : list Capacity) (bandPercent : Z)
    : list Mark :=
  let '(marks, order) := foldl readMark (∅, []) previous in
  let fresh := (λ c, let k := (CResourceName c, CResourceFlavor c) in
                 mkMark (CResourceName c) (CResourceFlavor c) (Allocatable c)
                   (Track (default q_zero (marks !! k)) (installed c) bandPercent)) <$> observed in
  let seen : gset resourceFlavor := list_to_set ((λ c, (CResourceName c, CResourceFlavor c)) <$> observed) in
  let carried := k ← order;
    if decide (k ∈ seen) then []
    else let mark := default q_zero (marks !! k) in
         if q_IsZero mark then [] else [mkMark k.1 k.2 q_zero mark] in
  sort_slice markLess (fresh ++ carried).
End model.
Arguments KNode : clear implicits.
Arguments Capacity : clear implicits.
Arguments Unattributed : clear implicits.
Arguments Result : clear implicits.
Arguments chip : clear implicits.
Arguments Mark : clear implicits.
