(* ===== verification/CapacityFacts.v ===== *)
(** * Nothing a node offers is lost or counted twice

    Which flavor a node belongs to, what the totals of [Sum] hold, and the
    balance between the nodes and the totals; then how the high-water mark of
    [TrackAll] follows what is observed. *)

From S2P Require Import Prelude Quantity Capacity.
Local Open Scope Z_scope.

(** ** The flavor of a node *)

Section flavors.
Context {Q : Type} `{QuantityOps Q}.
Context (node : KNode Q).

Definition fits_flavor (f : Flavor) : Prop :=
  ∀ k v, NodeLabels f !! k = Some v → default "" (KLabels node !! k) = v.
Definition specificity (f : Flavor) : Z := Z.of_nat (size (NodeLabels f)).

Lemma matchesLabels_spec f : matchesLabels node (NodeLabels f) = true ↔ fits_flavor f.
Proof.
  unfold matchesLabels, fits_flavor. rewrite forallb_forall. split.
  - intros Hall k v Hk. specialize (Hall (k, v)). rewrite bool_decide_eq_true in Hall.
    apply Hall, list_elem_of_In, elem_of_map_to_list. done.
  - intros Hall [k v] Hin%list_elem_of_In%elem_of_map_to_list. apply bool_decide_eq_true. by apply Hall.
Qed.

(** A node belongs to the flavor that matches it more specifically than any
    other. *)
Definition belongs (flavors : list Flavor) (name : string) : Prop :=
  ∃ f, f ∈ flavors ∧ FlavorName f = name ∧ fits_flavor f ∧
    ∀ f', f' ∈ flavors → fits_flavor f' → FlavorName f' ≠ name → specificity f' < specificity f.

(** The loop of [match] over the flavors [pre]. *)
Definition best_match (pre : list Flavor) (st : string * Z * bool) : Prop :=
  let '(best, n, tied) := st in
  (best = "" ∧ n = -1 ∧ tied = false ∧ ∀ f, f ∈ pre → ¬ fits_flavor f) ∨
  ∃ l1 f l2, pre = l1 ++ f :: l2 ∧ best = FlavorName f ∧ n = specificity f ∧ fits_flavor f ∧
    (∀ f', f' ∈ l1 ++ l2 → fits_flavor f' → specificity f' ≤ n) ∧
    (tied = true ↔ ∃ f', f' ∈ l1 ++ l2 ∧ fits_flavor f' ∧ specificity f' = n).

Lemma matchFlavor_step pre f st :
  best_match pre st → best_match (pre ++ [f]) (matchFlavor node st f).
Proof.
  destruct st as [[best n] tied]. intros P. unfold matchFlavor.
  destruct (matchesLabels node (NodeLabels f)) eqn:Hm; cbn [negb].
  2:{ assert (¬ fits_flavor f) as Hno by (rewrite <-matchesLabels_spec; congruence).
      destruct P as [(-> & -> & -> & Hall)|(l1 & g & l2 & -> & -> & -> & Hg & Hmax & Ht)]; [left|right].
      - split_and!; try done. intros f' [Hf| ->%list_elem_of_singleton]%elem_of_app; auto.
      - exists l1, g, (l2 ++ [f]). rewrite <-app_assoc, app_comm_cons. split_and!; try done.
        + intros f' [Hf|[Hf| ->%list_elem_of_singleton]%elem_of_app]%elem_of_app Hfit;
            [apply Hmax; [apply elem_of_app; auto|done]..|done].
        + rewrite Ht. split.
          * intros (f' & Hf & Hfit). exists f'. split; [rewrite app_assoc; apply elem_of_app; by left|done].
          * intros (f' & Hf & Hfit & E). exists f'. split; [|done].
            rewrite app_assoc in Hf. apply elem_of_app in Hf as [?| ->%list_elem_of_singleton]; done. }
  apply matchesLabels_spec in Hm. fold (specificity f).
  destruct P as [(-> & -> & -> & Hall)|(l1 & g & l2 & -> & -> & -> & Hg & Hmax & Ht)].
  - rewrite decide_True by (unfold specificity; lia). right. exists pre, f, []. rewrite app_nil_r.
    split_and!; try done; [naive_solver|]. split; [done|naive_solver].
  - assert (∀ f', f' ∈ l1 ++ g :: l2 → fits_flavor f' → specificity f' ≤ specificity g) as Hmax'.
    { intros f' [?|[->|?]%elem_of_cons]%elem_of_app Hfit; [|done|]; apply Hmax; try done; apply elem_of_app; auto. }
    case_decide as Hlt; [|case_decide as Heq].
    + right. exists (l1 ++ g :: l2), f, []. rewrite app_nil_r. split_and!; try done.
      * intros f' Hf Hfit. specialize (Hmax' f' Hf Hfit). lia.
      * split; [done|]. intros (f' & Hf & Hfit & E). specialize (Hmax' f' Hf Hfit). lia.
    + right. exists l1, g, (l2 ++ [f]). rewrite <-app_assoc, app_comm_cons. split_and!; try done.
      * intros f' Hf Hfit. rewrite app_assoc in Hf.
        apply elem_of_app in Hf as [?| ->%list_elem_of_singleton]; [by apply Hmax|lia].
      * split; [|done]. intros _. exists f. split_and!; [|done|done].
        rewrite app_assoc. apply elem_of_app. right. by apply list_elem_of_singleton.
    + right. exists l1, g, (l2 ++ [f]). rewrite <-app_assoc, app_comm_cons. split_and!; try done.
      * intros f' Hf Hfit. rewrite app_assoc in Hf.
        apply elem_of_app in Hf as [?| ->%list_elem_of_singleton]; [by apply Hmax|lia].
      * rewrite Ht. split.
        -- intros (f' & Hf & Hfit). exists f'. split; [rewrite app_assoc; apply elem_of_app; by left|done].
        -- intros (f' & Hf & Hfit & E). exists f'. split; [|done].
           rewrite app_assoc in Hf. apply elem_of_app in Hf as [?| ->%list_elem_of_singleton]; [done|lia].
Qed.

Lemma match_loop flavors : best_match flavors (foldl (matchFlavor node) ("", -1, false) flavors).
Proof.
  apply (foldl_ind _ best_match); [left; split_and!; try done; intros f ?%elem_of_nil; done|].
  intros. by apply matchFlavor_step.
Qed.

(** With flavors of distinct, non-empty names, [match] answers the one a node
    belongs to. *)
Lemma match_flavor_spec flavors name :
  NoDup (FlavorName <$> flavors) → "" ∉ FlavorName <$> flavors → name ≠ "" →
  (match_flavor node flavors).1 = name ↔ belongs flavors name.
Proof.
  intros Hnd Hne Hname. unfold match_flavor. pose proof (match_loop flavors) as P.
  destruct (foldl (matchFlavor node) ("", -1, false) flavors) as [[best n] tied].
  destruct P as [(-> & _ & _ & Hall)|(l1 & f & l2 & -> & -> & -> & Hf & Hmax & Ht)].
  { rewrite decide_True by done. split; [by intros <-|]. intros (f & Hf & _ & Hfit & _). by apply Hall in Hf. }
  rewrite fmap_app, fmap_cons in Hnd, Hne. apply NoDup_app in Hnd as (_ & Hd1 & [Hd2 _]%NoDup_cons).
  assert (∀ f', f' ∈ l1 ++ l2 → FlavorName f' ≠ FlavorName f) as Hdiff.
  { intros f' [Hf'|Hf']%elem_of_app E.
    - apply (Hd1 (FlavorName f')); [by apply list_elem_of_fmap_2|]. rewrite E. left.
    - apply Hd2. rewrite <-E. by apply list_elem_of_fmap_2. }
  assert (∀ f', f' ∈ l1 ++ f :: l2 → f' = f ∨ f' ∈ l1 ++ l2) as Hcase.
  { intros f' [?|[->|?]%elem_of_cons]%elem_of_app; [right|by left|right]; apply elem_of_app; auto. }
  rewrite decide_False.
  2:{ intros E. apply Hne, elem_of_app. right. rewrite E. left. }
  destruct tied; cbn [fst].
  - split; [by intros <-|]. intros (g & Hg & <- & Hfit & Hbest). exfalso.
    destruct (proj1 Ht eq_refl) as (f' & Hf' & Hfit' & E').
    assert (f' ∈ l1 ++ f :: l2) as Hin'.
    { apply elem_of_app in Hf' as [?|?]; apply elem_of_app; [by left|right; by right]. }
    destruct (Hcase g Hg) as [->|Hg'].
    + specialize (Hbest f' Hin' Hfit' (Hdiff f' Hf')). lia.
    + assert (FlavorName f ≠ FlavorName g) as Hfg by (by apply not_eq_sym, Hdiff).
      specialize (Hbest f ltac:(apply elem_of_app; right; left) Hf Hfg). specialize (Hmax g Hg' Hfit). lia.
  - assert (∀ f', f' ∈ l1 ++ l2 → fits_flavor f' → specificity f' < specificity f) as Hstrict.
    { intros f' Hf' Hfit. specialize (Hmax f' Hf' Hfit). destruct (decide (specificity f' = specificity f)); [|lia].
      assert (false = true); [|done]. apply Ht. eauto. }
    split.
    + intros <-. exists f. split_and!; [apply elem_of_app; right; left|done|done|].
      intros f' Hf' Hfit Hn. destruct (Hcase f' Hf') as [->|?]; [done|by apply Hstrict].
    + intros (g & Hg & <- & Hfit & Hbest). destruct (Hcase g Hg) as [->|Hg']; [done|exfalso].
      specialize (Hstrict g Hg' Hfit).
      assert (FlavorName f ≠ FlavorName g) as Hfg by (by apply not_eq_sym, Hdiff).
      specialize (Hbest f ltac:(apply elem_of_app; right; left) Hf Hfg). lia.
Qed.
End flavors.

Lemma validateFlavors_spec flavors :
  validateFlavors flavors = Ok tt ↔ NoDup (FlavorName <$> flavors) ∧ "" ∉ FlavorName <$> flavors.
Proof.
  unfold validateFlavors.
  cut (∀ seen : gset string, is_ok (ofold checkFlavor seen flavors) = true ↔
    NoDup (FlavorName <$> flavors) ∧ ("" ∉ FlavorName <$> flavors) ∧ ∀ f, f ∈ flavors → FlavorName f ∉ seen).
  { intros Hc. specialize (Hc ∅). destruct (ofold checkFlavor ∅ flavors); cbn in *.
    - split; [intros _|done]. destruct (proj1 Hc eq_refl) as (? & ? & _). done.
    - split; [done|]. intros [? ?]. assert (false = true); [|done]. apply Hc. set_solver.
    - split; [done|]. intros [? ?]. assert (false = true); [|done]. apply Hc. set_solver. }
  induction flavors as [|f flavors IH]; intros seen; cbn [ofold fmap list_fmap].
  { split; [|done]. intros _. split_and!; [constructor|set_solver|set_solver]. }
  unfold checkFlavor at 1. rewrite NoDup_cons. case_decide as Hn; [|case_decide as Hs]; cbn [obind].
  - split; [done|]. rewrite Hn. set_solver.
  - split; [done|]. intros (_ & _ & Hall). destruct (Hall f); [left|done].
  - rewrite IH. set_solver.
Qed.

(** ** The chips of a node *)

Section chips.
Context {Q : Type} `{QuantityOps Q} `{!QuantityLaws Q}.
Context (wanted : gset string).

(** What a node offers of a resource, as a number. *)
Definition amount (r : string) (n : KNode Q) : Qc :=
  if decide (r ∈ wanted) then from_option q_value 0%Qc (KAllocatable n !! r) else 0%Qc.

(** The node offers some of a wanted resource. *)
Definition offers (r : string) (n : KNode Q) : Prop :=
  r ∈ wanted ∧ ∃ q, KAllocatable n !! r = Some q ∧ q_IsZero q = false.
#[export] Instance offers_dec r n : Decision (offers r n).
Proof.
  destruct (KAllocatable n !! r) as [q|] eqn:E.
  - destruct (decide (r ∈ wanted ∧ q_IsZero q = false)) as [[? ?]|Hn].
    + left. split; [done|]. rewrite E. eauto.
    + right. intros [? (q' & Hq' & ?)]. rewrite E in Hq'. injection Hq' as <-. by apply Hn.
  - right. intros [_ (q' & Hq' & _)]. by rewrite E in Hq'.
Defined.

Lemma elem_of_acceleratorsOf n c :
  c ∈ acceleratorsOf n wanted ↔
  KAllocatable n !! chipName c = Some (chipQuantity c) ∧ q_IsZero (chipQuantity c) = false ∧ chipName c ∈ wanted.
Proof.
  unfold acceleratorsOf. rewrite elem_of_sort_slice, list_elem_of_fmap. split.
  - intros ([r q] & -> & [[Hz Hw] Hin%elem_of_map_to_list]%list_elem_of_filter). done.
  - intros (Hin & Hz & Hw). exists (chipName c, chipQuantity c). split; [by destruct c|].
    apply list_elem_of_filter. split; [done|]. by apply elem_of_map_to_list.
Qed.

Lemma NoDup_chips n : NoDup (chipName <$> acceleratorsOf n wanted).
Proof.
  unfold acceleratorsOf. rewrite sort_slice_perm, <-list_fmap_compose.
  assert (NoDup ((filter (λ e : string * Q, q_IsZero e.2 = false ∧ e.1 ∈ wanted)
    (map_to_list (KAllocatable n))).*1)) as Hnd; [|exact Hnd].
  pose proof (NoDup_fst_map_to_list (KAllocatable n)) as Hall. revert Hall.
  generalize (map_to_list (KAllocatable n)). induction l as [|e l IH]; intros Hall; [constructor|].
  rewrite filter_cons. cbn in Hall. apply NoDup_cons in Hall as [He Hall].
  case_decide; cbn; [|by apply IH]. apply NoDup_cons. split; [|by apply IH].
  intros (x & Ex & [_ Hx]%list_elem_of_filter)%list_elem_of_fmap. apply He. rewrite Ex. by apply list_elem_of_fmap_2.
Qed.

Lemma offers_chip r n : offers r n ↔ ∃ c, c ∈ acceleratorsOf n wanted ∧ chipName c = r.
Proof.
  unfold offers. setoid_rewrite elem_of_acceleratorsOf. split.
  - intros (Hw & q & Hq & Hz). exists (mkChip r q). done.
  - intros (c & (Hq & Hz & Hw) & <-). eauto.
Qed.

Lemma amount_chip n c : c ∈ acceleratorsOf n wanted → q_value (chipQuantity c) = amount (chipName c) n.
Proof.
  intros (Hq & Hz & Hw)%elem_of_acceleratorsOf. unfold amount. by rewrite decide_True, Hq.
Qed.

Lemma amount_none r n : ¬ offers r n → amount r n = 0%Qc.
Proof.
  intros Hno. unfold amount. case_decide as Hw; [|done].
  destruct (KAllocatable n !! r) as [q|] eqn:Hq; [|done]. cbn. apply law_IsZero.
  destruct (q_IsZero q) eqn:Hz; [done|]. destruct Hno. split; eauto.
Qed.

(** The chips of a name add up to what is offered of it. *)
Lemma chips_sum r n :
  qc_sum (λ c, if decide (chipName c = r) then q_value (chipQuantity c) else 0%Qc) (acceleratorsOf n wanted)
  = amount r n.
Proof.
  destruct (decide (offers r n)) as [Ho|Ho].
  - apply offers_chip in Ho as (c & Hc & <-). pose proof (NoDup_chips n) as Hnd.
    pose proof (amount_chip n c Hc) as Ha. apply list_elem_of_split in Hc as (l1 & l2 & E).
    rewrite E, fmap_app, fmap_cons in Hnd. apply NoDup_app in Hnd as (_ & Hd1 & [Hd2 _]%NoDup_cons).
    rewrite E, qc_sum_app, qc_sum_cons, decide_True by done.
    rewrite !qc_sum_zero; [rewrite Ha; ring|..]; intros x Hx; rewrite decide_False; try done; intros Ex.
    + apply Hd2. rewrite <-Ex. by apply list_elem_of_fmap_2.
    + apply (Hd1 (chipName x)); [by apply list_elem_of_fmap_2|]. rewrite Ex. left.
  - rewrite amount_none by done. apply qc_sum_zero. intros c Hc. rewrite decide_False; [done|].
    intros Ec. apply Ho, offers_chip. eauto.
Qed.
End chips.

(** ** The totals *)

Section totals.
Context {Q : Type} `{QuantityOps Q} `{!QuantityLaws Q}.
Implicit Types totals : gmap (string * string) (Capacity Q).

(** One node's share added to a total. *)
Definition bump (usable : bool) (q : Q) (c : Capacity Q) : Capacity Q :=
  if usable
  then mkCapacity (CResourceName c) (CResourceFlavor c) (q_Add (Allocatable c) q) (Unavailable c)
         (i64 (NodesCount c + 1)) (UnavailableNodes c)
  else mkCapacity (CResourceName c) (CResourceFlavor c) (Allocatable c) (q_Add (Unavailable c) q)
         (NodesCount c) (i64 (UnavailableNodes c + 1)).

Lemma addChip_bump flavor usable totals c :
  addChip flavor usable totals c =
  <[(chipName c, flavor) := bump usable (chipQuantity c)
      (default (newCapacity (chipName c, flavor)) (totals !! (chipName c, flavor)))]> totals.
Proof. unfold addChip, bump. by destruct usable. Qed.

(** A node's chips are distinct, so a total takes at most one of them. *)
Lemma addNode_lookup flavor usable chips totals k :
  NoDup (chipName <$> chips) →
  addNode totals chips flavor usable !! k =
  match list_find (λ c, chipName c = k.1) chips with
  | Some (_, c) => if decide (k.2 = flavor)
                   then Some (bump usable (chipQuantity c) (default (newCapacity k) (totals !! k)))
                   else totals !! k
  | None => totals !! k
  end.
Proof.
  intros Hnd. unfold addNode. revert totals Hnd. induction chips as [|c chips IH]; intros totals; cbn [foldl fmap list_fmap].
  { done. }
  intros [Hc Hnd]%NoDup_cons. rewrite IH, addChip_bump by done. clear IH. cbn [list_find].
  destruct k as [r f]. cbn [fst snd]. destruct (decide (chipName c = r)) as [<-|Hne].
  - destruct (list_find (λ c0, chipName c0 = chipName c) chips) as [[i c']|] eqn:El.
    { apply list_find_Some in El as (Hi & E & _). exfalso. apply Hc. rewrite <-E.
      apply list_elem_of_fmap_2, list_elem_of_lookup. eauto. }
    case_decide as Hf; [subst; by rewrite lookup_insert_eq|]. rewrite lookup_insert_ne; [done|]. congruence.
  - assert ((<[(chipName c, flavor) := bump usable (chipQuantity c)
       (default (newCapacity (chipName c, flavor)) (totals !! (chipName c, flavor)))]> totals) !! (r, f)
       = totals !! (r, f)) as -> by (apply lookup_insert_ne; congruence).
    destruct (list_find (λ c0, chipName c0 = r) chips) as [[i c']|]; done.
Qed.

(** What an entry adds to the balance of a resource. *)
Definition held (r : string) (c : Capacity Q) : Qc :=
  if decide (CResourceName c = r) then (q_value (Allocatable c) + q_value (Unavailable c))%Qc else 0%Qc.

Lemma held_bump r usable q c :
  held r (bump usable q c) = (held r c + if decide (CResourceName c = r) then q_value q else 0)%Qc.
Proof.
  unfold held, bump. destruct usable; cbn; case_decide; rewrite ?law_Add; ring.
Qed.

(** Every entry sits under its own pair. *)
Definition under_pair totals : Prop :=
  ∀ k c, totals !! k = Some c → CResourceName c = k.1 ∧ CResourceFlavor c = k.2.

Lemma addChip_held r flavor usable totals c :
  under_pair totals →
  map_qc_sum (held r) (addChip flavor usable totals c)
  = (map_qc_sum (held r) totals + if decide (chipName c = r) then q_value (chipQuantity c) else 0)%Qc
  ∧ under_pair (addChip flavor usable totals c).
Proof.
  intros Hu. rewrite addChip_bump. set (k := (chipName c, flavor)).
  assert (CResourceName (default (newCapacity k) (totals !! k)) = chipName c ∧
          CResourceFlavor (default (newCapacity k) (totals !! k)) = flavor) as [Hn Hf].
  { destruct (totals !! k) as [x|] eqn:E; [|done]. by apply Hu in E. }
  split.
  - rewrite map_qc_sum_update, held_bump, Hn. destruct (totals !! k) as [x|]; cbn [default from_option id].
    + ring.
    + unfold held at 2. cbn. rewrite law_zero. case_decide; ring.
  - intros k' x [[<- <-]|[_ Hx]]%lookup_insert_Some; [|by apply Hu].
    unfold bump. destruct usable; done.
Qed.

Lemma addNode_held r flavor usable chips totals :
  under_pair totals →
  map_qc_sum (held r) (addNode totals chips flavor usable)
  = (map_qc_sum (held r) totals
     + qc_sum (λ c, if decide (chipName c = r) then q_value (chipQuantity c) else 0%Qc) chips)%Qc
  ∧ under_pair (addNode totals chips flavor usable).
Proof.
  unfold addNode. revert totals. induction chips as [|c chips IH]; intros totals Hu; cbn [foldl].
  { split; [rewrite qc_sum_nil; ring|done]. }
  destruct (addChip_held r flavor usable totals c Hu) as [Hs Hu']. destruct (IH _ Hu') as [-> ?].
  split; [|done]. rewrite Hs, qc_sum_cons. ring.
Qed.
End totals.

(** ** The loop over the nodes *)

Section summing.
Context {Q : Type} `{QuantityOps Q} `{!QuantityLaws Q}.
Context (wanted : gset string) (flavors : list Flavor).

(** The flavor a node is counted into, empty for none. *)
Definition flavorOf (n : KNode Q) : string := (match_flavor n flavors).1.

(** The node counts into the available (or parked) side of pair [k]. *)
Definition counts (usable : bool) (k : string * string) (n : KNode Q) : Prop :=
  flavorOf n = k.2 ∧ available n = usable ∧ offers wanted k.1 n.
#[export] Instance counts_dec usable k n : Decision (counts usable k n).
Proof. unfold counts. apply _. Defined.

Definition part (usable : bool) (k : string * string) (n : KNode Q) : Qc :=
  if decide (counts usable k n) then amount wanted k.1 n else 0%Qc.

Definition count (usable : bool) (k : string * string) (nodes : list (KNode Q)) : Z :=
  Z.of_nat (length (filter (counts usable k) nodes)).

(** What the report of a node without a flavor holds. *)
Definition lost (n : KNode Q) : list (Unattributed Q) :=
  if decide (flavorOf n = "")
  then unattributedChips (KName n) (acceleratorsOf n wanted) (match_flavor n flavors).2 else [].

Definition reported_of (r : string) (u : Unattributed Q) : Qc :=
  if decide (UResourceName u = r) then q_value (UQuantity u) else 0%Qc.

(** A total holds what the nodes [pre] put into it. *)
Definition exact_total (pre : list (KNode Q)) (k : string * string) (c : Capacity Q) : Prop :=
  q_value (Allocatable c) = qc_sum (part true k) pre ∧ q_value (Unavailable c) = qc_sum (part false k) pre ∧
  NodesCount c = count true k pre ∧ UnavailableNodes c = count false k pre.

Record summed (pre : list (KNode Q)) (st : gmap (string * string) (Capacity Q) * list (Unattributed Q)) : Prop := {
  su_pair : under_pair st.1;
  su_total : ∀ k, k.2 ≠ "" → exact_total pre k (default (newCapacity k) (st.1 !! k));
  su_dom : ∀ k, is_Some (st.1 !! k) ↔ k.2 ≠ "" ∧ ∃ n, n ∈ pre ∧ flavorOf n = k.2 ∧ offers wanted k.1 n;
  su_lost : st.2 = pre ≫= lost;
  su_balance : ∀ r, (map_qc_sum (held r) st.1 + qc_sum (reported_of r) st.2)%Qc = qc_sum (amount wanted r) pre;
}.

Lemma summed_nil : summed [] (∅, []).
Proof.
  split; cbn.
  - intros k c. by rewrite lookup_empty.
  - intros k _. rewrite lookup_empty. unfold exact_total. cbn. by rewrite law_zero.
  - intros k. rewrite lookup_empty. split; [by intros []|]. by intros (_ & n & ?%elem_of_nil & _).
  - done.
  - intros r. unfold map_qc_sum. rewrite map_to_list_empty, !qc_sum_nil. ring.
Qed.

Lemma count_snoc usable k pre n :
  count usable k (pre ++ [n]) = count usable k pre + if decide (counts usable k n) then 1 else 0.
Proof.
  unfold count. rewrite filter_app, length_app, filter_cons, filter_nil. case_decide; cbn; lia.
Qed.

Lemma count_le usable k pre : count usable k pre ≤ Z.of_nat (length pre).
Proof. unfold count. pose proof (length_filter (counts usable k) pre). lia. Qed.

Lemma part_snoc usable k pre n :
  qc_sum (part usable k) (pre ++ [n]) = (qc_sum (part usable k) pre + part usable k n)%Qc.
Proof. rewrite qc_sum_app, qc_sum_cons, qc_sum_nil. ring. Qed.

Lemma part_no usable k n : ¬ counts usable k n → part usable k n = 0%Qc.
Proof. intros Hn. unfold part. by rewrite decide_False. Qed.
Lemma part_yes usable k n : counts usable k n → part usable k n = amount wanted k.1 n.
Proof. intros Hn. unfold part. by rewrite decide_True. Qed.

(** A node that does not count into a pair leaves its total exact. *)
Lemma exact_skip pre k c n :
  (∀ usable, ¬ counts usable k n) → exact_total pre k c → exact_total (pre ++ [n]) k c.
Proof.
  intros Hno (H1 & H2 & H3 & H4). unfold exact_total. rewrite !part_snoc, !count_snoc.
  rewrite !part_no, !decide_False by done. split_and!; [rewrite H1; ring|rewrite H2; ring|lia|lia].
Qed.

Lemma exact_bump pre k c n q :
  Z.of_nat (length pre) < MaxInt64 → flavorOf n = k.2 → offers wanted k.1 n →
  q_value q = amount wanted k.1 n → exact_total pre k c → exact_total (pre ++ [n]) k (bump (available n) q c).
Proof.
  intros Hlen Hf Ho Hq (H1 & H2 & H3 & H4). unfold exact_total. rewrite !part_snoc, !count_snoc.
  pose proof (count_le true k pre). pose proof (count_le false k pre).
  assert (counts (available n) k n) as Hc by done.
  assert (¬ counts (negb (available n)) k n) as Hnc.
  { intros (_ & E & _). by destruct (available n). }
  unfold bump. destruct (available n); cbn [negb] in *;
    rewrite (part_yes _ _ _ Hc), (part_no _ _ _ Hnc), (decide_True _ _ Hc), (decide_False _ _ Hnc);
    cbn; rewrite law_Add, Hq, ?H1, ?H2; unfold count in *;
    (split_and!; [ring|ring|rewrite ?i64_id by (split; lia); lia..]).
Qed.

Lemma lost_sum r n :
  qc_sum (reported_of r) (unattributedChips (KName n) (acceleratorsOf n wanted) (match_flavor n flavors).2)
  = amount wanted r n.
Proof. unfold unattributedChips. rewrite qc_sum_fmap. apply chips_sum. Qed.

(** The chip a node adds to a pair. *)
Lemma find_chip k n :
  match list_find (λ c, chipName c = k.1) (acceleratorsOf n wanted) with
  | Some (_, c) => offers wanted k.1 n ∧ q_value (chipQuantity c) = amount wanted (k : string * string).1 n
  | None => ¬ offers wanted k.1 n
  end.
Proof.
  destruct (list_find _ _) as [[i c]|] eqn:E.
  - apply list_find_Some in E as (Hi & Hc & _).
    assert (c ∈ acceleratorsOf n wanted) as Hin by (apply list_elem_of_lookup; eauto).
    split; [apply offers_chip; eauto|]. rewrite <-Hc. by apply amount_chip.
  - apply list_find_None in E. rewrite offers_chip. intros (c & Hc & Hn).
    rewrite Forall_forall in E. by apply (E c).
Qed.

Lemma sumNode_step pre n st :
  Z.of_nat (length pre) < MaxInt64 → summed pre st → summed (pre ++ [n]) (sumNode wanted flavors st n).
Proof.
  intros Hlen [Hu Ht Hd Hl Hb]. destruct st as [totals un]. cbn [fst snd] in *.
  assert (∀ r, qc_sum (amount wanted r) (pre ++ [n]) = (qc_sum (amount wanted r) pre + amount wanted r n)%Qc) as Hsn.
  { intros r. rewrite qc_sum_app, qc_sum_cons, qc_sum_nil. ring. }
  assert (∀ k, (∃ m, m ∈ pre ++ [n] ∧ flavorOf m = k.2 ∧ offers wanted k.1 m) ↔
    (∃ m, m ∈ pre ∧ flavorOf m = k.2 ∧ offers wanted k.1 m) ∨ (flavorOf n = k.2 ∧ offers wanted k.1 n)) as Hex.
  { intros k. split.
    - intros (m & [Hm| ->%list_elem_of_singleton]%elem_of_app & Hm'); [left; eauto|by right].
    - intros [(m & Hm & Hm')|Hn]; [exists m|exists n]; (split; [apply elem_of_app|done]); [by left|right; by apply list_elem_of_singleton]. }
  unfold sumNode. case_decide as Hc.
  { assert (∀ r, ¬ offers wanted r n) as Hno.
    { intros r. rewrite offers_chip, Hc. by intros (c & ?%elem_of_nil & _). }
    split; cbn [fst snd]; [done|..].
    - intros k Hk. apply exact_skip; [|by apply Ht]. intros usable (_ & _ & Ho). by apply Hno in Ho.
    - intros k. rewrite Hd, Hex. split; [by intros [? ?]; auto|].
      intros (? & [?|[_ Ho]]); [done|by apply Hno in Ho].
    - rewrite bind_app, <-Hl. cbn. unfold lost. rewrite Hc. case_decide; by rewrite !app_nil_r.
    - intros r. rewrite Hsn, amount_none by done. rewrite Hb. ring. }
  destruct (match_flavor n flavors) as [flavor reason] eqn:Em.
  assert (flavorOf n = flavor) as Hf by (unfold flavorOf; by rewrite Em).
  case_decide as Hz; (split; cbn [fst snd]; [|..]).
  - done.
  - intros k Hk. apply exact_skip; [|by apply Ht]. intros usable (E & _). congruence.
  - intros k. rewrite Hd, Hex. split; [by intros [? ?]; auto|].
    intros (Hk & [?|[E _]]); [done|congruence].
  - rewrite bind_app, <-Hl. cbn. unfold lost. rewrite decide_True, Em by congruence. cbn. by rewrite app_nil_r.
  - intros r. rewrite Hsn, qc_sum_app, Qcplus_assoc, Hb.
    rewrite <-(lost_sum r n). by rewrite Em.
  - by apply (addNode_held "" flavor (available n) (acceleratorsOf n wanted) totals).
  - intros k Hk. rewrite addNode_lookup by apply NoDup_chips. pose proof (find_chip k n) as Hfind.
    destruct (list_find _ _) as [[i c]|].
    + destruct Hfind as [Ho Hq]. case_decide as Hkf.
      * cbn [default from_option id]. apply exact_bump; [done|congruence|done|done|by apply Ht].
      * apply exact_skip; [|by apply Ht]. intros usable (E & _). congruence.
    + apply exact_skip; [|by apply Ht]. intros usable (_ & _ & Ho). by apply Hfind.
  - intros k. rewrite Hex, addNode_lookup by apply NoDup_chips. pose proof (find_chip k n) as Hfind.
    specialize (Hd k). destruct (list_find _ _) as [[i c]|].
    + destruct Hfind as [Ho Hq]. case_decide as Hkf.
      * split; [intros _|eauto]. split; [congruence|]. right. split; [congruence|done].
      * rewrite Hd. split; [by intros [? ?]; auto|]. intros (Hk & [?|[E _]]); [done|congruence].
    + rewrite Hd. split; [by intros [? ?]; auto|]. intros (Hk & [?|[_ Ho]]); [done|by apply Hfind in Ho].
  - rewrite bind_app, <-Hl. cbn. unfold lost. rewrite decide_False by congruence. by rewrite !app_nil_r.
  - intros r. destruct (addNode_held r flavor (available n) (acceleratorsOf n wanted) totals Hu) as [-> _].
    rewrite chips_sum, Hsn, <-Hb. ring.
Qed.

Lemma sumNode_loop nodes :
  Z.of_nat (length nodes) ≤ MaxInt64 → summed nodes (foldl (sumNode wanted flavors) (∅, []) nodes).
Proof.
  intros Hlen. apply (foldl_ind _ summed); [apply summed_nil|].
  intros pre n post st E P. apply sumNode_step; [|done]. rewrite E, length_app in Hlen. cbn in Hlen. lia.
Qed.
End summing.

(** ** The properties of the totals *)

Definition gpu_node (name class : string) (ready : string) (n : Z) : KNode decimal :=
  mkKNode name {[ "class" := class ]} false [("Ready", ready)] {[ "nvidia.com/gpu" := dec n; "cpu" := dec 64 ]}.
Definition gpu_flavors : list Flavor :=
  [mkFlavor "any" "1" ∅; mkFlavor "h100" "2" {[ "class" := "h100" ]};
   mkFlavor "a" "3" {[ "class" := "a100" ]}; mkFlavor "b" "4" {[ "class" := "a100" ]}].
Definition gpu_nodes : list (KNode decimal) :=
  [gpu_node "n1" "h100" "True" 8; gpu_node "n2" "h100" "False" 8; gpu_node "n3" "a100" "True" 4;
   gpu_node "n4" "l40" "True" 2].
Definition gpu_options : CapacityOptions := mkCapacityOptions ["nvidia.com/gpu"].

(** Two flavors claim [n3], so its chips are reported and counted nowhere. *)
Example sum_gpus :
  Sum gpu_nodes gpu_flavors gpu_options =
  Ok (mkResult
        [mkCapacity "nvidia.com/gpu" "any" (mkDec 2 0 "") (mkDec 0 0 "") 1 0;
         mkCapacity "nvidia.com/gpu" "h100" (mkDec 8 0 "") (mkDec 8 0 "") 1 1]
        [mkUnattributed "n3" "nvidia.com/gpu" (dec 4) ReasonAmbiguous]).
Proof. vm_compute. reflexivity. Qed.

(** The capacity of a cluster, to the chip.  [Sum] fails exactly when a
    flavor has no name or two share one.  Otherwise a node counts into the one
    flavor that matches it strictly more specifically than every other; there
    is an entry for a pair exactly when some node of that flavor offers some of
    the resource, with the exact totals and node counts of its available and
    its parked nodes; and for every resource, the entries together with the
    unattributed chips add up to what the nodes offer: nothing is lost and
    nothing is counted twice. *)
Theorem Sum_accounts {Q} `{QuantityOps Q} `{!QuantityLaws Q} (nodes : list (KNode Q)) flavors opts :
  Z.of_nat (length nodes) ≤ MaxInt64 → AcceleratorResources opts ≠ [] →
  let wanted : gset string := list_to_set (AcceleratorResources opts) in
  ((∃ res, Sum nodes flavors opts = Ok res) ↔
     NoDup (FlavorName <$> flavors) ∧ "" ∉ (FlavorName <$> flavors)) ∧
  ∀ res, Sum nodes flavors opts = Ok res →
    (∀ (n : KNode Q) f, f ≠ "" → flavorOf flavors n = f ↔ belongs n flavors f) ∧
    (∀ k, (∃ c, c ∈ Capacities res ∧ (CResourceName c, CResourceFlavor c) = k) ↔
       k.2 ≠ "" ∧ ∃ n, n ∈ nodes ∧ flavorOf flavors n = k.2 ∧ offers wanted k.1 n) ∧
    NoDup ((λ c, (CResourceName c, CResourceFlavor c)) <$> Capacities res) ∧
    (∀ c, c ∈ Capacities res →
       exact_total wanted flavors nodes (CResourceName c, CResourceFlavor c) c) ∧
    (∀ r, (qc_sum (held r) (Capacities res) + qc_sum (reported_of r) (UnattributedOf res))%Qc
          = qc_sum (amount wanted r) nodes).
Proof.
  intros Hlen Hopts wanted. unfold Sum. rewrite decide_False by done.
  pose proof (validateFlavors_spec flavors) as Hv.
  pose proof (sumNode_loop wanted flavors nodes Hlen) as [Hu Ht Hd Hl Hb]. fold wanted.
  destruct (validateFlavors flavors) as [[]|e|]; cbn [obind].
  2,3: (split; [split; [by intros []|intros Hok%Hv; done]|done]).
  destruct (foldl (sumNode wanted flavors) (∅, []) nodes) as [totals un]. cbn [fst snd] in *.
  destruct (proj1 Hv eq_refl) as [Hnd Hne]. split; [split; [done|eauto]|]. intros res [= <-]. cbn [Capacities UnattributedOf sortedResult].
  assert (∀ c, c ∈ sort_slice capacityLess (map_to_list totals).*2 ↔ ∃ k, totals !! k = Some c) as Hin.
  { intros c. rewrite elem_of_sort_slice, list_elem_of_fmap. split.
    - intros ([k c'] & -> & Hc%elem_of_map_to_list). eauto.
    - intros [k Hc%elem_of_map_to_list]. by exists (k, c). }
  split_and!.
  - intros n f Hf. by apply match_flavor_spec.
  - intros k. rewrite <-Hd. split.
    + intros (c & [k' Hc]%Hin & Hk). destruct (Hu k' c Hc) as [E1 E2]. rewrite E1, E2 in Hk.
      assert (k' = k) as -> by (by destruct k'). eauto.
    + intros [c Hc]. exists c. split; [apply Hin; eauto|]. destruct (Hu k c Hc) as [-> ->]. by destruct k.
  - rewrite sort_slice_perm, <-list_fmap_compose.
    rewrite (list_fmap_ext _ fst); [apply NoDup_fst_map_to_list|].
    intros i [k c] Hc%list_elem_of_lookup_2%elem_of_map_to_list. cbn. destruct (Hu k c Hc) as [-> ->].
    by destruct k.
  - intros c [k Hc]%Hin. destruct (Hu k c Hc) as [-> ->]. destruct k as [r f]. cbn.
    assert ((r, f).2 ≠ "") as Hf by (apply (proj1 (Hd (r, f))); eauto).
    specialize (Ht (r, f) Hf). by rewrite Hc in Ht.
  - intros r. rewrite !sort_slice_perm, <-Hb. unfold map_qc_sum. by rewrite qc_sum_fmap.
Qed.

Lemma Sum_accounts_witness :
  ∃ res, Sum gpu_nodes gpu_flavors gpu_options = Ok res ∧
    (∀ r, (qc_sum (held r) (Capacities res) + qc_sum (reported_of r) (UnattributedOf res))%Qc
          = qc_sum (amount (list_to_set (AcceleratorResources gpu_options)) r) gpu_nodes).
Proof.
  destruct (Sum_accounts gpu_nodes gpu_flavors gpu_options) as [_ Hall]; [vm_compute; done|done|].
  eexists. split; [apply sum_gpus|]. destruct (Hall _ sum_gpus) as (_ & _ & _ & _ & Hb). exact Hb.
Defined.

(** ** The high-water mark *)

Section tracking.
Context {Q D : Type} `{QuantityOps Q} `{!QuantityLaws Q} `{!DecOps Q D} `{!DecLaws Q D}.
Implicit Types mark observed : Q.

Lemma cmp_sign_neg (a b : Qc) : cmp_sign (a ?= b)%Qc < 0 ↔ (a < b)%Qc.
Proof.
  destruct (a ?= b)%Qc eqn:E; cbn.
  - apply Qceq_alt in E. subst. split; [lia|]. intros Hlt. by apply Qclt_not_le in Hlt; destruct Hlt; apply Qcle_refl.
  - split; [intros _; by apply Qclt_alt|lia].
  - apply (proj2 (Qcgt_alt _ _)) in E. split; [lia|]. intros Hlt. exfalso.
    apply (Qclt_not_le _ _ Hlt). by apply Qclt_le_weak.
Qed.

(** The drop is believed: it exceeds the band. *)
Definition believed (m o : Qc) (band : Z) : Prop :=
  (m <= o)%Qc ∨ band ≤ 0 ∨ (band < 100 ∧ (o * Qc_of_Z 100 < m * Qc_of_Z (100 - band))%Qc).

Lemma Track_value mark observed band :
  (believed (q_value mark) (q_value observed) band → Track (D := D) mark observed band = observed) ∧
  (¬ believed (q_value mark) (q_value observed) band → Track (D := D) mark observed band = mark).
Proof.
  unfold Track, believed.
  assert (0 ≤ q_Cmp observed mark ↔ (q_value mark <= q_value observed)%Qc) as Hc.
  { rewrite law_Cmp, Qcle_ngt, <-cmp_sign_neg. lia. }
  case_decide as H1; [apply Hc in H1; tauto|]. rewrite Hc in H1.
  case_decide as H2; [tauto|]. case_decide as H3; [split; [|done]; intros [?|[?|[? _]]]; [done|lia|lia]|].
  assert (dec_Cmp (dec_Mul (AsDec observed) (NewDec 100 0)) (dec_Mul (AsDec mark) (NewDec (i32 (100 - band)) 0)) < 0
    ↔ (q_value observed * Qc_of_Z 100 < q_value mark * Qc_of_Z (100 - band))%Qc) as Hd.
  { rewrite law_dec_Cmp, cmp_sign_neg, !law_dec_Mul, !law_AsDec, !law_NewDec.
    rewrite i32_id by (split; lia). change (ten_to 0) with 1%Qc. by rewrite !Qcmult_1_r. }
  case_decide as H4; rewrite Hd in H4; [split; [done|]; intros Hn; destruct Hn; right; right; split; [lia|done]|].
  split; [|done]. intros [?|[?|[_ ?]]]; [done|lia|done].
Qed.

(** What the mark promises of what is installed, [m] before and [h] after. *)
Record damped (m o h : Qc) (band : Z) : Prop := {
  dm_covers : (o <= h)%Qc;
  dm_either : h = o ∨ h = m;
  dm_follows : band ≤ 0 → h = o;
  dm_keeps : 100 ≤ band → (m <= h)%Qc;
  dm_band : 0 < band < 100 → (0 <= o)%Qc → (h * Qc_of_Z (100 - band) <= o * Qc_of_Z 100)%Qc;
  dm_dip : 0 < band < 100 → (m * Qc_of_Z (100 - band) <= o * Qc_of_Z 100)%Qc → (m <= h)%Qc;
}.

Lemma Track_damped mark observed band :
  damped (q_value mark) (q_value observed) (q_value (Track (D := D) mark observed band)) band.
Proof.
  destruct (Track_value mark observed band) as [Hyes Hno].
  set (m := q_value mark) in *. set (o := q_value observed) in *.
  assert (believed m o band ∨ ¬ believed m o band) as [Hb|Hb].
  { unfold believed. destruct (decide (band ≤ 0)), (decide (band < 100)); [tauto..| |];
      destruct (Qclt_le_dec o m) as [Hlt|Hle]; try tauto;
      try (destruct (Qclt_le_dec (o * Qc_of_Z 100) (m * Qc_of_Z (100 - band))) as [Hlt'|Hle'];
           [tauto|]; apply Qcle_ngt in Hle');
      right; intros [Hx|[Hx|[Hx Hy]]]; try done; try lia; by apply (Qcle_not_lt _ _ Hx). }
  - rewrite (Hyes Hb). fold o. split; [apply Qcle_refl|by left|done| | |].
    + intros Hband. destruct Hb as [?|[?|[? _]]]; [done|lia|lia].
    + intros Hband Ho. apply Qcmult_le_mono_nonneg_l; [done|]. apply (proj1 (Z2Qc_inj_le _ _)). lia.
    + intros Hband Hdip. destruct Hb as [?|[?|[_ Hlt]]]; [done|lia|]. by apply (Qcle_not_lt _ _ Hdip) in Hlt.
  - rewrite (Hno Hb). fold m. unfold believed in Hb.
    assert (o <= m)%Qc as Hle.
    { destruct (Qclt_le_dec m o) as [Hlt|]; [|done]. destruct Hb. left. by apply Qclt_le_weak. }
    split; [done|by right|tauto|intros; apply Qcle_refl| |intros; apply Qcle_refl].
    intros Hband _. apply Qcle_ngt. intros Hlt. apply Hb. right. right. split; [lia|done].
Qed.

(** ** All the pairs *)

Definition pairOf (c : Capacity Q) : string * string := (CResourceName c, CResourceFlavor c).
Definition markPair (p : Mark Q) : string * string := (MResourceName p, MResourceFlavor p).

(** The mark a pair carries in: the first one's, zero without one. *)
Definition markBefore (previous : list (Mark Q)) (k : string * string) : Q :=
  default q_zero (HighWaterMark <$> (snd <$> list_find (λ p, markPair p = k) previous)).

Lemma readMark_loop previous :
  let st := foldl readMark (∅, []) previous in
  (∀ k, st.1 !! k = HighWaterMark <$> (snd <$> list_find (λ p, markPair p = k) previous)) ∧
  NoDup st.2 ∧ ∀ k, k ∈ st.2 ↔ is_Some (st.1 !! k).
Proof.
  refine (foldl_ind readMark (λ pre st,
    (∀ k, st.1 !! k = HighWaterMark <$> (snd <$> list_find (λ p, markPair p = k) pre)) ∧
    NoDup st.2 ∧ ∀ k, k ∈ st.2 ↔ is_Some (st.1 !! k)) (∅, []) previous _ _).
  { cbn. split_and!; [done|constructor|]. intros k. rewrite lookup_empty.
    split; [by intros ?%elem_of_nil|by intros []]. }
  intros pre p post [marks order] _ (IH1 & IH2 & IH3). cbn [fst snd] in *. unfold readMark. fold (markPair p).
  assert (∀ k, list_find (λ p0, markPair p0 = k) (pre ++ [p]) =
    match list_find (λ p0, markPair p0 = k) pre with
    | Some x => Some x
    | None => if decide (markPair p = k) then Some (length pre, p) else None
    end) as Hfind.
  { intros k. destruct (list_find _ pre) as [[i x]|] eqn:E.
    - by erewrite list_find_app_l.
    - rewrite list_find_app_r by done. cbn. case_decide; cbn; [|done]. done. }
  case_decide as Hs; cbn [fst snd].
  - split_and!; [|done|done]. intros k. rewrite IH1, Hfind.
    destruct (list_find (λ p0, markPair p0 = k) pre) as [[]|] eqn:E; [done|].
    case_decide as Hk; [|done]. rewrite Hk, IH1, E in Hs. by destruct Hs.
  - split_and!.
    + intros k. rewrite Hfind. destruct (decide (markPair p = k)) as [<-|Hne].
      * rewrite lookup_insert_eq. rewrite IH1 in Hs.
        destruct (list_find _ pre) as [[]|]; [|done]. destruct Hs. cbn. eauto.
      * rewrite lookup_insert_ne, IH1 by done. by destruct (list_find _ pre) as [[]|].
    + apply NoDup_app. split_and!; [done| |apply NoDup_singleton].
      intros k Hk ->%list_elem_of_singleton. by apply IH3 in Hk.
    + intros k. rewrite elem_of_app, list_elem_of_singleton, IH3.
      destruct (decide (k = markPair p)) as [->|Hne].
      * rewrite lookup_insert_eq. split; eauto.
      * rewrite lookup_insert_ne by done. split; [by intros [?|?]|by left].
Qed.

Lemma elem_of_TrackAll (previous : list (Mark Q)) (observed : list (Capacity Q)) band mk :
  mk ∈ TrackAll (D := D) previous observed band ↔
  (∃ c, c ∈ observed ∧ mk = mkMark (CResourceName c) (CResourceFlavor c) (Allocatable c)
                              (Track (D := D) (markBefore previous (pairOf c)) (installed c) band)) ∨
  (∃ k, (k ∉ pairOf <$> observed) ∧ q_IsZero (markBefore previous k) = false ∧
     is_Some (list_find (λ p, markPair p = k) previous) ∧ mk = mkMark k.1 k.2 q_zero (markBefore previous k)).
Proof.
  unfold TrackAll. destruct (readMark_loop previous) as (Hm & _ & Ho).
  destruct (foldl readMark (∅, []) previous) as [marks order]. cbn [fst snd] in *.
  assert (∀ k, default q_zero (marks !! k) = markBefore previous k) as Hb by (intros k; by rewrite Hm).
  rewrite elem_of_sort_slice, elem_of_app, list_elem_of_fmap, list_elem_of_bind.
  assert (∀ k, k ∈ order ↔ is_Some (list_find (λ p, markPair p = k) previous)) as Ho'.
  { intros k. rewrite Ho, Hm, !fmap_is_Some. done. }
  split; (intros [Hl|Hr]; [left|right]).
  - destruct Hl as (c & -> & Hc). exists c. split; [done|]. cbv zeta. by rewrite Hb.
  - destruct Hr as (k & Hk & Hin). exists k. rewrite <-Ho'. rewrite Hb in Hk.
    case_decide as Hs; [by apply elem_of_nil in Hk|]. destruct (q_IsZero _) eqn:Ez; [by apply elem_of_nil in Hk|].
    apply list_elem_of_singleton in Hk. split_and!; [|done..].
    intros Hin'. apply Hs. by apply elem_of_list_to_set.
  - destruct Hl as (c & Hc & ->). exists c. split; [|done]. cbv zeta. by rewrite Hb.
  - destruct Hr as (k & Hk & Hz & Hs & ->). exists k. rewrite Ho'. split; [|done]. rewrite decide_False.
    + rewrite Hb, Hz. by apply list_elem_of_singleton.
    + intros Hin. apply Hk. by apply elem_of_list_to_set in Hin.
Qed.

Lemma TrackAll_NoDup (previous : list (Mark Q)) (observed : list (Capacity Q)) band :
  NoDup (pairOf <$> observed) → NoDup (markPair <$> TrackAll (D := D) previous observed band).
Proof.
  intros Hnd. unfold TrackAll. destruct (readMark_loop previous) as (_ & Hord & _).
  destruct (foldl readMark (∅, []) previous) as [marks order]. cbn [fst snd] in *.
  rewrite sort_slice_perm, fmap_app. apply NoDup_app. split_and!.
  - rewrite <-list_fmap_compose. exact Hnd.
  - intros k (mk & -> & (c & -> & Hc)%list_elem_of_fmap)%list_elem_of_fmap.
    intros (mk' & E & (k' & Hk' & Hin)%list_elem_of_bind)%list_elem_of_fmap.
    case_decide as Hs; [by apply elem_of_nil in Hk'|]. destruct (q_IsZero _); [by apply elem_of_nil in Hk'|].
    apply list_elem_of_singleton in Hk' as ->. apply Hs, elem_of_list_to_set, list_elem_of_fmap.
    exists c. split; [|done]. unfold markPair in E. cbn in E. destruct k' as [r f]. cbn in E. congruence.
  - clear Hnd. induction order as [|k order IH]; [constructor|]. apply NoDup_cons in Hord as [Hk Hord].
    cbn [mbind list_bind]. rewrite fmap_app. apply NoDup_app. split_and!; [| |by apply IH].
    + case_decide; [constructor|]. destruct (q_IsZero _); [constructor|apply NoDup_singleton].
    + intros x Hx Hx'.
      assert (x = k) as ->.
      { apply list_elem_of_fmap in Hx as (mk & -> & Hmk).
        case_decide; [by apply elem_of_nil in Hmk|]. destruct (q_IsZero _); [by apply elem_of_nil in Hmk|].
        apply list_elem_of_singleton in Hmk as ->. by destruct k. }
      clear Hx. apply list_elem_of_fmap in Hx' as (mk & E & (k' & Hk' & Hin)%list_elem_of_bind).
      case_decide; [by apply elem_of_nil in Hk'|]. destruct (q_IsZero _); [by apply elem_of_nil in Hk'|].
      apply list_elem_of_singleton in Hk' as ->. unfold markPair in E. cbn in E. apply Hk.
      rewrite E. by destruct k'.
Qed.
End tracking.

(** How the marks follow what is installed.  Every pair has one mark.  For
    a pair that is observed, the mark covers what is installed, available and
    parked together, and is either that or the mark carried in; with no band it
    follows the observation, with a band of 100 or more it never falls, and in
    between it never overstates what is installed by more than the band, and a
    dip within the band does not lower it.  A pair that is no longer observed
    keeps its mark with nothing allocatable, and is dropped exactly when the
    mark is zero. *)
Theorem TrackAll_marks {Q D} `{QuantityOps Q} `{!QuantityLaws Q} `{!DecOps Q D} `{!DecLaws Q D}
    (previous : list (Mark Q)) (observed : list (Capacity Q)) (band : Z) :
  NoDup (pairOf <$> observed) →
  let out := TrackAll (D := D) previous observed band in
  NoDup (markPair <$> out) ∧
  (∀ c, c ∈ observed → ∃ mk, mk ∈ out ∧ markPair mk = pairOf c ∧ MAllocatable mk = Allocatable c ∧
     damped (q_value (markBefore previous (pairOf c))) (q_value (Allocatable c) + q_value (Unavailable c))%Qc
       (q_value (HighWaterMark mk)) band) ∧
  (∀ k, k ∉ (pairOf <$> observed) →
     ((∃ mk, mk ∈ out ∧ markPair mk = k) ↔ q_value (markBefore previous k) ≠ 0%Qc) ∧
     ∀ mk, mk ∈ out → markPair mk = k →
       HighWaterMark mk = markBefore previous k ∧ q_value (MAllocatable mk) = 0%Qc).
Proof.
  intros Hnd out. split; [by apply TrackAll_NoDup|]. unfold out. setoid_rewrite elem_of_TrackAll. split.
  - intros c Hc. eexists. split; [left; by eauto|]. split_and!; [done..|]. cbn.
    rewrite <-law_Add. apply Track_damped.
  - intros k Hk.
    assert (∀ mk, ((∃ c, c ∈ observed ∧ mk = mkMark (CResourceName c) (CResourceFlavor c) (Allocatable c)
        (Track (D := D) (markBefore previous (pairOf c)) (installed c) band)) ∨
      (∃ k, (k ∉ pairOf <$> observed) ∧ q_IsZero (markBefore previous k) = false ∧
        is_Some (list_find (λ p, markPair p = k) previous) ∧ mk = mkMark k.1 k.2 q_zero (markBefore previous k))) →
      markPair mk = k → mk = mkMark k.1 k.2 q_zero (markBefore previous k) ∧
        q_IsZero (markBefore previous k) = false) as Hof.
    { intros mk [(c & Hc & ->)|(k' & _ & Hz & _ & ->)] E.
      - destruct Hk. rewrite <-E. apply list_elem_of_fmap. by exists c.
      - unfold markPair in E. cbn in E. assert (k' = k) as -> by (rewrite <-E; by destruct k'). done. }
    split.
    + rewrite <-law_IsZero. split.
      * intros (mk & Hmk & E). destruct (Hof mk Hmk E) as [_ Hz]. by rewrite Hz.
      * intros Hz. exists (mkMark k.1 k.2 q_zero (markBefore previous k)). split; [|by destruct k].
        right. exists k. split_and!; [done|by destruct (q_IsZero _)| |done].
        destruct (list_find (λ p, markPair p = k) previous) as [x|] eqn:E; [by eauto|].
        destruct Hz. unfold markBefore. rewrite E. cbn. apply law_IsZero, law_zero.
    + intros mk Hmk E. destruct (Hof mk Hmk E) as [-> _]. split; [done|apply law_zero].
Qed.

(** A quarter of the fleet is drained, within a band of 30 percent. *)
Definition drained : list (Capacity decimal) := [mkCapacity "gpu" "h100" (dec 75) (dec 0) 3 1].
Definition carried_in : list (Mark decimal) :=
  [mkMark "gpu" "h100" (dec 100) (dec 100); mkMark "gpu" "old" (dec 0) (dec 9)].

Example marks_drained :
  TrackAll carried_in drained 30 =
  [mkMark "gpu" "h100" (dec 75) (dec 100); mkMark "gpu" "old" (mkDec 0 0 "") (dec 9)].
Proof. vm_compute. reflexivity. Qed.

Lemma TrackAll_marks_witness :
  ∃ mk, mk ∈ TrackAll carried_in drained 30 ∧ markPair mk = ("gpu", "h100") ∧
    damped (q_value (dec 100)) (q_value (dec 75) + q_value (dec 0))%Qc (q_value (HighWaterMark mk)) 30.
Proof.
  destruct (TrackAll_marks carried_in drained 30) as (_ & Hobs & _).
  - apply (bool_decide_unpack _). vm_compute. exact I.
  - destruct (Hobs (mkCapacity "gpu" "h100" (dec 75) (dec 0) 3 1)) as (mk & Hmk & Hp & _ & Hd); [left|].
    exists mk. split; [exact Hmk|]. split; [exact Hp|exact Hd].
Defined.
