(* ===== verification/Usage.v ===== *)
(** * Rolling consumption up the tree

    [pkg/quota/usage/usage.go]: what the leaves' queues hold is added up onto
    every node.  A nil map reads as an empty one, so both are the empty map. *)

From S2P Require Import Prelude Quantity Api Violation Tree TreeFacts TreeBuild.
Local Open Scope Z_scope.

(** [Key]. *)
Abbreviation usageKey := (string * string)%type (only parsing).

Section model.
Context {Q : Type} `{QuantityOps Q}.

Record Observed := mkObserved { OAdmitted : Q; OReserved : Q; OBorrowed : Q }.
Record Total := mkTotal { TAdmitted : Q; TReserved : Q; TBorrowed : Q }.

(** The zero value. *)
Definition zeroTotal : Total := mkTotal q_zero q_zero q_zero.

Definition add (dst src : Q) : Q :=
  if decide (q_IsZero dst = true ∧ q_Format dst = "") then src else q_Add dst src.

(** One reading of a leaf into the totals of a node. *)
Definition addReading (leafNode : bool) (totals : gmap usageKey Total) (r : usageKey * Observed)
    : gmap usageKey Total :=
  let '(k, o) := r in
  let agg := default zeroTotal (totals !! k) in
  <[k := mkTotal (add (TAdmitted agg) (OAdmitted o)) (add (TReserved agg) (OReserved o))
           (if leafNode then add (TBorrowed agg) (OBorrowed o) else TBorrowed agg)]> totals.

(** One node of the subtree: only a leaf holds anything. *)
Definition addDescendant (t : Tree Q) (leafNode : bool) (leaves : gmap string (gmap usageKey Observed))
    (totals : gmap usageKey Total) (d : string) : gmap usageKey Total :=
  match nodes t !! d with
  | Some n => if negb (IsLeaf n) then totals
              else foldl (addReading leafNode) totals (map_to_list (default ∅ (leaves !! NodeName n)))
  | None => totals
  end.

(** The nominals a node was authored to hold: the last of a pair wins. *)
Definition authoredNominals (node : Node Q) : gmap usageKey Q :=
  foldl (λ m b, <[(ResourceName b, ResourceFlavor b) := Nominal b]> m) ∅ (Budgets (Spec (Quota node))).

Definition borrowedAboveNominal (node : Node Q) (totals : gmap usageKey Total) : gmap usageKey Total :=
  map_imap (λ k t, Some (mkTotal (TAdmitted t) (TReserved t)
    (match authoredNominals node !! k with
     | None => q_zero
     | Some n => let over := q_Sub (TAdmitted t) n in
                 if decide (q_Sign over ≤ 0) then q_zero else over
     end))) totals.

(** The totals of one node. *)
Definition rollNode (t : Tree Q) (leaves : gmap string (gmap usageKey Observed))
    (out : gmap string (gmap usageKey Total)) (node : Node Q) : gmap string (gmap usageKey Total) :=
  let name := NodeName node in
  let totals := foldl (addDescendant t (IsLeaf node) leaves) ∅ (Subtree t name) in
  if decide (totals = ∅) then out
  else <[name := if negb (IsLeaf node) then borrowedAboveNominal node totals else totals]> out.

Definition Roll (t : option (Tree Q)) (leaves : gmap string (gmap usageKey Observed))
    : gmap string (gmap usageKey Total) :=
  match t with
  | None => ∅
  | Some t => if decide (size leaves = 0%nat) then ∅ else foldl (rollNode t leaves) ∅ (Nodes t)
  end.

(** [SortedKeys]. *)
Definition usageKeyLess : usageKey → usageKey → bool :=
  lex_less fst str_lt (λ a b, str_lt (snd a) (snd b)).
Definition SortedKeys (totals : gmap usageKey Total) : list usageKey :=
  sort_slice usageKeyLess (map_to_list totals).*1.
End model.
Arguments Observed : clear implicits.
Arguments Total : clear implicits.
