(* ===== verification/UsageFacts.v ===== *)
(** * What the rolled-up consumption adds up to

    Each node's totals are the readings of the leaves below it, each counted
    once, and a grouping's totals are those of its children. *)

From S2P Require Import Prelude Quantity Api Violation Tree TreeFacts TreeBuild Usage.
Local Open Scope Z_scope.

Section sums.
Context {Q : Type} `{QuantityOps Q} `{!QuantityLaws Q}.
Implicit Types (t : Tree Q) (leaves : gmap string (gmap (string * string) (Observed Q))).
Implicit Types (f : Observed Q → Q) (k : string * string) (totals : gmap (string * string) (Total Q)) (rs : list ((string * string) * Observed Q)).

Lemma add_value (a b : Q) : q_value (add a b) = (q_value a + q_value b)%Qc.
Proof.
  unfold add. case_decide as Hz; [|apply law_Add].
  destruct Hz as [Hz _]. apply law_IsZero in Hz. rewrite Hz. ring.
Qed.

(** What the readings of a pair [k] in a list come to. *)
Definition readAt (f : Observed Q → Q) (k : string * string) rs : Qc :=
  qc_sum (λ r, if decide (r.1 = k) then q_value (f r.2) else 0%Qc) rs.

(** The totals of a list of readings. *)
Definition tallied (leafNode : bool) rs totals : Prop := ∀ k,
  match totals !! k with
  | None => ∀ o, (k, o) ∉ rs
  | Some tot =>
      (∃ o, (k, o) ∈ rs) ∧ q_value (TAdmitted tot) = readAt OAdmitted k rs ∧
      q_value (TReserved tot) = readAt OReserved k rs ∧
      (leafNode = true → q_value (TBorrowed tot) = readAt OBorrowed k rs)
  end.

Lemma readAt_snoc f k rs r :
  readAt f k (rs ++ [r]) = (readAt f k rs + if decide (r.1 = k) then q_value (f r.2) else 0)%Qc.
Proof. unfold readAt. rewrite qc_sum_app, qc_sum_cons, qc_sum_nil. ring. Qed.

Lemma readAt_absent f k rs : (∀ o, (k, o) ∉ rs) → readAt f k rs = 0%Qc.
Proof.
  intros Hno. apply qc_sum_zero. intros [k' o] Hin. case_decide as E; [|done].
  cbn in E. subst. by apply Hno in Hin.
Qed.

Lemma addReading_tallied leafNode rs totals r :
  tallied leafNode rs totals → tallied leafNode (rs ++ [r]) (addReading leafNode totals r).
Proof.
  destruct r as [k0 o0]. intros Ht k. unfold addReading. specialize (Ht k). rewrite !readAt_snoc. cbn [fst snd].
  destruct (decide (k0 = k)) as [->|Hne].
  - rewrite lookup_insert_eq. split; [exists o0; set_solver|]. cbn [TAdmitted TReserved TBorrowed].
    destruct (totals !! k) as [tot|]; cbn [default from_option id].
    + destruct Ht as (_ & HA & HR & HB). rewrite !add_value, HA, HR. split_and!; [done..|].
      intros ->. rewrite add_value, HB by done. done.
    + rewrite !readAt_absent by done. unfold zeroTotal. cbn [TAdmitted TReserved TBorrowed].
      rewrite !add_value, law_zero. split_and!; [done..|]. intros ->. by rewrite add_value, law_zero.
  - rewrite lookup_insert_ne by done. destruct (totals !! k) as [tot|].
    + destruct Ht as ((o & Ho) & HA & HR & HB). split; [exists o; set_solver|].
      rewrite !Qcplus_0_r. done.
    + intros o [Ho|[= -> ->]%list_elem_of_singleton]%elem_of_app; [by apply (Ht o)|done].
Qed.

Lemma readings_tallied leafNode rs : tallied leafNode rs (foldl (addReading leafNode) ∅ rs).
Proof.
  apply (foldl_ind (addReading leafNode) (tallied leafNode)).
  - intros k. rewrite lookup_empty. intros o Ho. by apply elem_of_nil in Ho.
  - intros pre r post totals _ Ht. by apply addReading_tallied.
Qed.

(** What the queue of a leaf holds; other nodes hold nothing. *)
Definition holdings t leaves (d : string) : gmap (string * string) (Observed Q) :=
  match nodes t !! d with
  | Some n => if IsLeaf n then default ∅ (leaves !! d) else ∅
  | None => ∅
  end.

(** All readings of a list of nodes. *)
Definition readingsOf t leaves (ds : list string) : list ((string * string) * Observed Q) :=
  ds ≫= λ d, map_to_list (holdings t leaves d).

Lemma addDescendant_readings t leafNode leaves totals d :
  node_keyed t →
  addDescendant t leafNode leaves totals d
  = foldl (addReading leafNode) totals (map_to_list (holdings t leaves d)).
Proof.
  intros Hk. unfold addDescendant, holdings. destruct (nodes t !! d) as [n|] eqn:E; [|by rewrite map_to_list_empty].
  rewrite (Hk d n E). destruct (IsLeaf n); cbn [negb]; [done|by rewrite map_to_list_empty].
Qed.

Lemma descendants_readings t leafNode leaves totals ds :
  node_keyed t →
  foldl (addDescendant t leafNode leaves) totals ds
  = foldl (addReading leafNode) totals (readingsOf t leaves ds).
Proof.
  intros Hk. revert totals. induction ds as [|d ds IH]; intros totals; [done|].
  cbn [foldl]. unfold readingsOf. cbn [mbind list_bind]. rewrite foldl_app, IH.
  by rewrite addDescendant_readings.
Qed.

(** A pair of one queue counts once. *)
Lemma readAt_map (f : Observed Q → Q) (k : string * string) (m : gmap (string * string) (Observed Q)) :
  readAt f k (map_to_list m) = from_option (λ o, q_value (f o)) 0%Qc (m !! k).
Proof.
  unfold readAt. destruct (m !! k) as [o|] eqn:E; cbn [from_option].
  - rewrite <-(map_to_list_delete m k o E), qc_sum_cons. cbn [fst snd]. rewrite decide_True by done.
    rewrite qc_sum_zero; [ring|]. intros [k' o'] Hin%elem_of_map_to_list. case_decide as Ek; [|done].
    cbn in Ek. subst. by rewrite lookup_delete_eq in Hin.
  - apply qc_sum_zero. intros [k' o'] Hin%elem_of_map_to_list. case_decide as Ek; [|done].
    cbn in Ek. subst. congruence.
Qed.

(** What a list of nodes holds of a pair. *)
Definition held t leaves (f : Observed Q → Q) (k : string * string) (ds : list string) : Qc :=
  qc_sum (λ d, from_option (λ o, q_value (f o)) 0%Qc (holdings t leaves d !! k)) ds.

Lemma readAt_held t leaves f k ds : readAt f k (readingsOf t leaves ds) = held t leaves f k ds.
Proof.
  induction ds as [|d ds IH]; [done|]. unfold readingsOf, held. cbn [mbind list_bind].
  unfold readAt. rewrite qc_sum_app, qc_sum_cons. fold (readAt f k (map_to_list (holdings t leaves d))).
  rewrite readAt_map. f_equal. exact IH.
Qed.

Lemma elem_of_readingsOf t leaves ds k o :
  (k, o) ∈ readingsOf t leaves ds ↔ ∃ d, d ∈ ds ∧ holdings t leaves d !! k = Some o.
Proof.
  unfold readingsOf. rewrite list_elem_of_bind. setoid_rewrite elem_of_map_to_list.
  split; intros (d & ? & ?); by exists d.
Qed.

(** Only leaves matter. *)
Definition leafAt t (d : string) : bool := match nodes t !! d with Some n => IsLeaf n | None => false end.
Definition leavesUnder t (k : string) : list string := List.filter (leafAt t) (Subtree t k).

Lemma holdings_leaf t leaves d : leafAt t d = false → holdings t leaves d = ∅.
Proof. unfold leafAt, holdings. destruct (nodes t !! d); [by intros ->|done]. Qed.

Lemma held_leaves t leaves f k ds : held t leaves f k (List.filter (leafAt t) ds) = held t leaves f k ds.
Proof.
  unfold held. induction ds as [|d ds IH]; [done|]. cbn [List.filter]. destruct (leafAt t d) eqn:E.
  - rewrite !qc_sum_cons. f_equal. exact IH.
  - rewrite qc_sum_cons, holdings_leaf, lookup_empty by done. cbn [from_option]. rewrite Qcplus_0_l. exact IH.
Qed.

(** The totals of one node, before [Roll] stores them. *)
Definition totalsOf t leaves (n : Node Q) : gmap (string * string) (Total Q) :=
  let totals := foldl (addReading (IsLeaf n)) ∅ (readingsOf t leaves (Subtree t (NodeName n))) in
  if IsLeaf n then totals else borrowedAboveNominal n totals.

Lemma borrowed_lookup (n : Node Q) totals k :
  is_Some (borrowedAboveNominal n totals !! k) ↔ is_Some (totals !! k).
Proof. unfold borrowedAboveNominal. rewrite map_lookup_imap. destruct (totals !! k); cbn; split; eauto. Qed.

Lemma rollNode_lookup t leaves out n (k : string) :
  node_keyed t → (out !! NodeName n = None) →
  rollNode t leaves out n !! k
  = if decide (k = NodeName n)
    then (if decide (totalsOf t leaves n = ∅) then None else Some (totalsOf t leaves n))
    else out !! k.
Proof.
  intros Hk Hout. unfold rollNode, totalsOf. rewrite descendants_readings by done.
  set (totals := foldl _ ∅ _).
  assert (borrowedAboveNominal n totals = ∅ ↔ totals = ∅) as Hb.
  { rewrite !map_empty. split; intros He i; specialize (He i); apply eq_None_not_Some;
      apply eq_None_not_Some in He; by rewrite borrowed_lookup in *. }
  destruct (IsLeaf n); cbn [negb].
  - destruct (decide (totals = ∅)); destruct (decide (k = NodeName n)) as [->|]; [done|done| |].
    + by rewrite lookup_insert_eq.
    + by rewrite lookup_insert_ne.
  - destruct (decide (totals = ∅)) as [E|E].
    + rewrite (decide_True _ _ (proj2 Hb E)). by destruct (decide (k = NodeName n)) as [->|].
    + rewrite (decide_False (P := borrowedAboveNominal n totals = ∅)) by tauto.
      destruct (decide (k = NodeName n)) as [->|]; [by rewrite lookup_insert_eq|by rewrite lookup_insert_ne].
Qed.

Lemma holdings_no_leaves t leaves d : size leaves = 0%nat → holdings t leaves d = ∅.
Proof.
  intros ->%map_size_empty_inv. unfold holdings. destruct (nodes t !! d) as [n|]; [|done]. by destruct (IsLeaf n).
Qed.

Lemma readingsOf_no_leaves t leaves ds : size leaves = 0%nat → readingsOf t leaves ds = [].
Proof.
  intros Hz. induction ds as [|d ds IH]; [done|]. unfold readingsOf. cbn [mbind list_bind].
  rewrite holdings_no_leaves, map_to_list_empty by done. exact IH.
Qed.

(** What [Roll] stores under each name. *)
Lemma Roll_lookup t leaves (k : string) :
  node_keyed t →
  default ∅ (Roll (Some t) leaves !! k) = from_option (totalsOf t leaves) ∅ (nodes t !! k) ∧
  Roll (Some t) leaves !! k ≠ Some ∅.
Proof.
  intros Hk. cbn [Roll]. case_decide as Hz.
  { rewrite lookup_empty. split; [|done]. destruct (nodes t !! k) as [n|]; [|done]. cbn [default from_option].
    unfold totalsOf. rewrite readingsOf_no_leaves by done. cbn [foldl]. by destruct (IsLeaf n). }
  assert (∀ k : string, foldl (rollNode t leaves) ∅ (Nodes t) !! k =
    n ← nodes t !! k; if decide (totalsOf t leaves n = ∅) then None else Some (totalsOf t leaves n)) as Hall.
  { pose proof (NoDup_Nodes_names t Hk) as Hnd.
    assert (∀ (k : string) n, nodes t !! k = Some n ↔ n ∈ Nodes t ∧ NodeName n = k) as Hin.
    { intros k' n. rewrite elem_of_Nodes by done. split; [|by intros [? <-]].
      intros E. pose proof (Hk k' n E) as <-. done. }
    destruct (foldl_ind (rollNode t leaves) (λ pre out,
      (∀ n, n ∈ pre → out !! NodeName n =
         if decide (totalsOf t leaves n = ∅) then None else Some (totalsOf t leaves n)) ∧
      (∀ k : string, k ∉ NodeName <$> pre → out !! k = None)) ∅ (Nodes t)) as [H1 H2].
    - split; [|done]. intros n Hn. by apply elem_of_nil in Hn.
    - intros pre n post out Heq [IH1 IH2].
      assert (NodeName n ∉ NodeName <$> pre) as Hn.
      { rewrite Heq, fmap_app in Hnd. apply NoDup_app in Hnd as (_ & Hd & _).
        intros Hx. apply (Hd _ Hx). rewrite fmap_cons. left. }
      split.
      + intros n' [Hp| ->%list_elem_of_singleton]%elem_of_app; rewrite rollNode_lookup by auto.
        * rewrite decide_False; [by apply IH1|]. intros E. apply Hn. rewrite <-E. by apply list_elem_of_fmap_2.
        * by rewrite decide_True.
      + intros k'. rewrite fmap_app, not_elem_of_app. cbn. rewrite list_elem_of_singleton. intros [Hp Hx].
        rewrite rollNode_lookup by auto. rewrite decide_False by done. by apply IH2.
    - intros k'. destruct (nodes t !! k') as [n|] eqn:E; cbn.
      + apply Hin in E as [E <-]. by apply H1.
      + apply H2. intros (n & -> & Hn)%list_elem_of_fmap. rewrite elem_of_Nodes in Hn by done. congruence. }
  rewrite Hall. destruct (nodes t !! k) as [n|]; cbn; [|done]. case_decide as E; cbn; [by rewrite E|].
  split; [done|]. congruence.
Qed.
End sums.

(** ** What a node reports *)

Section accounts.
Context {Q : Type} `{QuantityOps Q} `{!QuantityLaws Q}.
Implicit Types (t : Tree Q) (leaves : gmap string (gmap (string * string) (Observed Q))).

(** The figure [f] of what is observed under a name for a pair, zero when
    nothing is. *)
Definition observedAt leaves (f : Observed Q → Q) (p : string * string) (d : string) : Qc :=
  from_option (λ o, q_value (f o)) 0%Qc (leaves !! d ≫= lookup p).

(** The budget that counts as authored for a pair: the last one listed. *)
Definition authoredFor (n : Node Q) (p : string * string) : option (AcceleratorBudget Q) :=
  last (filter (λ b, (ResourceName b, ResourceFlavor b) = p) (Budgets (Spec (Quota n)))).

Lemma authoredNominals_lookup (n : Node Q) (p : string * string) :
  authoredNominals n !! p = Nominal <$> authoredFor n p.
Proof.
  unfold authoredNominals, authoredFor.
  refine (foldl_ind _ (λ pre m, m !! p = Nominal <$> last (filter (λ b, (ResourceName b, ResourceFlavor b) = p) pre))
    _ _ _ _); [done|].
  intros pre b post m _ IH. rewrite filter_app, filter_cons, filter_nil. case_decide as E.
  - rewrite last_snoc, <-E. apply lookup_insert_eq.
  - rewrite app_nil_r, <-IH. by apply lookup_insert_ne.
Qed.

(** What a node reports as borrowed for a pair of which [admitted] is held:
    a leaf, what its queue reports; a grouping, what is held above what it was
    authored to hold, and nothing when nothing was authored. *)
Definition borrows leaves t (k : string) (n : Node Q) (p : string * string) (admitted borrowed : Qc) : Prop :=
  if IsLeaf n then borrowed = qc_sum (observedAt leaves OBorrowed p) (leavesUnder t k)
  else match authoredFor n p with
       | None => borrowed = 0%Qc
       | Some b => (q_value (Nominal b) < admitted → borrowed = admitted - q_value (Nominal b))%Qc ∧
                   (admitted ≤ q_value (Nominal b) → borrowed = 0)%Qc
       end.

Lemma held_observed t leaves f (p : string * string) (k : string) :
  held t leaves f p (Subtree t k) = qc_sum (observedAt leaves f p) (leavesUnder t k).
Proof.
  rewrite <-held_leaves. fold (leavesUnder t k). apply qc_sum_ext. intros d Hd.
  apply list_elem_of_In, filter_In in Hd as [_ Hd]. unfold leafAt in Hd. unfold holdings, observedAt.
  destruct (nodes t !! d) as [n|]; [|done]. rewrite Hd. by destruct (leaves !! d).
Qed.

Lemma reading_iff t leaves (p : string * string) (k : string) :
  (∃ o, (p, o) ∈ readingsOf t leaves (Subtree t k)) ↔
  ∃ d, d ∈ leavesUnder t k ∧ is_Some (leaves !! d ≫= lookup p).
Proof.
  setoid_rewrite elem_of_readingsOf. unfold leavesUnder. split.
  - intros (o & d & Hd & Ho). exists d. unfold holdings in Ho.
    destruct (nodes t !! d) as [n|] eqn:E; [|done]. destruct (IsLeaf n) eqn:Hl; [|done]. split.
    + apply list_elem_of_In, filter_In. split; [by apply list_elem_of_In|]. unfold leafAt. by rewrite E.
    + destruct (leaves !! d); [by exists o|done].
  - intros (d & [Hd Hl]%list_elem_of_In%filter_In & [o Ho]). apply list_elem_of_In in Hd.
    exists o, d. split; [done|]. unfold holdings, leafAt in *. destruct (nodes t !! d) as [n|]; [|done].
    rewrite Hl. by destruct (leaves !! d).
Qed.

Lemma no_reading t leaves (p : string * string) (k : string) :
  (∀ o, (p, o) ∉ readingsOf t leaves (Subtree t k)) →
  ∀ d, d ∈ leavesUnder t k → leaves !! d ≫= lookup p = None.
Proof.
  intros Hno d Hd. apply eq_None_not_Some. intros Hs.
  destruct (proj2 (reading_iff t leaves p k)) as [o Ho]; [by exists d|]. by apply (Hno o).
Qed.

Lemma cmp_sign_le (a b : Qc) : cmp_sign (a ?= b)%Qc ≤ 0 ↔ (a ≤ b)%Qc.
Proof.
  rewrite Qcle_alt. destruct (a ?= b)%Qc; cbn; split; (done || lia).
Qed.

Lemma over_le (a b : Qc) : (a - b ≤ 0)%Qc ↔ (a ≤ b)%Qc.
Proof.
  rewrite (Qcplus_le_mono_r (a - b) 0 b)%Qc.
  replace (a - b + b)%Qc with a by ring. by rewrite Qcplus_0_l.
Qed.

(** The figures of one pair of a node. *)
Lemma totalsOf_figures t leaves (k : string) n (p : string * string) :
  NodeName n = k →
  match totalsOf t leaves n !! p with
  | None => ∀ d, d ∈ leavesUnder t k → leaves !! d ≫= lookup p = None
  | Some tot =>
      (∃ d, d ∈ leavesUnder t k ∧ is_Some (leaves !! d ≫= lookup p)) ∧
      q_value (TAdmitted tot) = qc_sum (observedAt leaves OAdmitted p) (leavesUnder t k) ∧
      q_value (TReserved tot) = qc_sum (observedAt leaves OReserved p) (leavesUnder t k) ∧
      borrows leaves t k n p (q_value (TAdmitted tot)) (q_value (TBorrowed tot))
  end.
Proof.
  intros Hname. unfold totalsOf, borrows. rewrite Hname.
  pose proof (readings_tallied (IsLeaf n) (readingsOf t leaves (Subtree t k)) p) as Ht.
  revert Ht. generalize (foldl (addReading (IsLeaf n)) ∅ (readingsOf t leaves (Subtree t k))). intros totals.
  rewrite !readAt_held, !held_observed.
  destruct (IsLeaf n).
  - destruct (totals !! p) as [tot|]; [|by apply no_reading].
    intros (Ho & HA & HR & HB). split; [by apply reading_iff|]. rewrite HA, HR, HB by done. done.
  - unfold borrowedAboveNominal. rewrite map_lookup_imap.
    destruct (totals !! p) as [tot|]; cbn [mbind option_bind]; [|by apply no_reading].
    intros (Ho & HA & HR & _). split; [by apply reading_iff|]. cbn [TAdmitted TReserved TBorrowed].
    rewrite HR. split_and!; [done|done|]. rewrite authoredNominals_lookup.
    destruct (authoredFor n p) as [b|]; cbn [fmap option_fmap option_map]; [|apply law_zero].
    case_decide as Hs; rewrite law_Sign, law_Sub, cmp_sign_le, over_le in Hs.
    + split; [|intros _; apply law_zero]. intros Hlt. by apply Qclt_not_le in Hlt.
    + split; [intros _; apply law_Sub|]. intros Hle. by apply Hs in Hle.
Qed.
End accounts.

(** ** The leaves of a grouping are those of its children *)

Section children.
Context {Q : Type} `{QuantityOps Q}.
Context (quotas : list (AcceleratorQuota Q)) (opts : Options) (t : Tree Q) (vs : Violations).
Context (B : built quotas opts t vs).
Let qs := objects quotas.

Lemma leafAt_object d :
  leafAt t d = true ↔ ∃ q, qs !! d = Some q ∧ SpecRole (Spec q) = AcceleratorQuotaRoleClusterQueue.
Proof.
  pose proof (bu_shaped _ _ _ _ B) as S. unfold leafAt. destruct (nodes t !! d) as [n|] eqn:E.
  - apply (sh_node _ _ S) in E as (Hq & _). fold qs in Hq. unfold IsLeaf. rewrite bool_decide_eq_true, Hq. split.
    + intros Hr. by exists (Quota n).
    + by intros (q & [= <-] & Hr).
  - split; [done|]. intros (q & Hq & _). destruct (proj2 (sh_dom _ _ S d)) as [n Hn]; [by exists q|congruence].
Qed.

Lemma elem_of_leavesUnder k d :
  is_Some (qs !! k) →
  d ∈ leavesUnder t k ↔
  under qs k d ∧ ∃ q, qs !! d = Some q ∧ SpecRole (Spec q) = AcceleratorQuotaRoleClusterQueue.
Proof.
  intros Hk. unfold leavesUnder. rewrite list_elem_of_In, filter_In, <-list_elem_of_In, leafAt_object.
  rewrite (elem_of_Subtree qs t (bu_shaped _ _ _ _ B)) by done. split.
  - by intros [[_ Hu] Hl].
  - intros [Hu (q & Hq & Hl)]. split; [split; [by exists q|done]|by exists q].
Qed.

Lemma NoDup_leavesUnder k : is_Some (qs !! k) → NoDup (leavesUnder t k).
Proof.
  intros Hk. unfold leavesUnder. apply NoDup_ListNoDup, List.NoDup_filter, NoDup_ListNoDup.
  apply (gw_nodup qs [k] [] _ (Subtree t k)), (Subtree_grows qs t (bu_shaped _ _ _ _ B) k Hk).
Qed.

(** A node with a position is on no cycle. *)
Lemma positioned_acyclic k n j : nodes t !! k = Some n → Reachable n = true → above qs (S j) k ≠ Some k.
Proof.
  intros Hn Hr Hj. destruct (bu_positioned _ _ _ _ B k n Hn) as [[Hd _]|(d & Hd & R)].
  { unfold Reachable in Hr. lia. }
  destruct (above_loop qs 0 (S j) k k ltac:(lia) eq_refl Hj (S d)) as [x Hx].
  pose proof (rooted_ends _ _ _ _ R) as Hend. fold qs in Hend. congruence.
Qed.

(** Two children of such a node have nothing below them in common. *)
Lemma children_disjoint k n c c' d :
  nodes t !! k = Some n → Reachable n = true →
  parentOf qs c = Some k → parentOf qs c' = Some k → under qs c d → under qs c' d → c = c'.
Proof.
  intros Hn Hr Hc Hc' [i Hi] [j Hj].
  assert (∀ a b i j, parentOf qs a = Some k → parentOf qs b = Some k → above qs i d = Some a →
    above qs j d = Some b → (i < j)%nat → False) as Hlt.
  { clear i j Hi Hj c c' Hc Hc'. intros a b i j Ha Hb Hi Hj Hlt.
    replace j with (i + S (j - i - 1))%nat in Hj by lia. rewrite above_add, Hi in Hj. cbn in Hj.
    rewrite Ha in Hj. cbn in Hj. apply (positioned_acyclic k n (j - i - 1) Hn Hr).
    by rewrite above_S_r, Hj. }
  destruct (Nat.lt_trichotomy i j) as [?|[->|?]].
  - by destruct (Hlt c c' i j).
  - congruence.
  - by destruct (Hlt c' c j i).
Qed.

Lemma leavesUnder_children k n :
  nodes t !! k = Some n → Reachable n = true → IsLeaf n = false →
  leavesUnder t k ≡ₚ (Children n ≫= leavesUnder t).
Proof.
  intros Hn Hr Hl. pose proof (bu_shaped _ _ _ _ B) as S.
  assert (is_Some (qs !! k)) as Hk by (apply (sh_dom _ _ S); by exists n).
  pose proof (sh_node _ _ S k n Hn) as (Hq & _ & Hch). fold qs in Hq, Hch.
  assert (∀ c, c ∈ Children n → is_Some (qs !! c) ∧ parentOf qs c = Some k) as Hc.
  { intros c Hc. rewrite Hch, elem_of_childrenOf in Hc. split; [|done]. by apply parentOf_dom in Hc as [? _]. }
  apply NoDup_Permutation; [by apply NoDup_leavesUnder| |].
  - assert (NoDup (Children n)) as Hnd by (rewrite Hch; apply NoDup_childrenOf).
    revert Hc Hnd. generalize (Children n). clear Hch. intros cs. induction cs as [|c cs IH]; intros Hc Hnd; [constructor|].
    apply NoDup_cons in Hnd as [Hcn Hnd]. cbn [mbind list_bind]. apply NoDup_app. split_and!.
    + apply NoDup_leavesUnder, Hc. left.
    + intros d Hd (c' & Hd' & Hin)%list_elem_of_bind. apply Hcn.
      destruct (Hc c) as [Hcs Hcp]; [left|]. destruct (Hc c') as [Hcs' Hcp']; [by right|].
      apply elem_of_leavesUnder in Hd as [Hd _]; [|done]. apply elem_of_leavesUnder in Hd' as [Hd' _]; [|done].
      by rewrite (children_disjoint k n c c' d).
    + apply IH; [|done]. intros c' Hin. apply Hc. by right.
  - intros d. rewrite elem_of_leavesUnder, list_elem_of_bind by done. split.
    + intros [[[|i] Hi] (q & Hqd & Hrole)].
      { injection Hi as ->. rewrite Hq in Hqd. injection Hqd as <-. unfold IsLeaf in Hl.
        by rewrite bool_decide_eq_false in Hl. }
      rewrite above_S_r in Hi. destruct (above qs i d) as [c|] eqn:Ec; [|done]. cbn in Hi.
      assert (c ∈ Children n) as Hin by (by rewrite Hch, elem_of_childrenOf).
      exists c. split; [|done]. apply elem_of_leavesUnder; [by apply Hc|]. split; [by exists i|by exists q].
    + intros (c & Hd & Hin). destruct (Hc c Hin) as [Hcs Hcp].
      apply elem_of_leavesUnder in Hd as [Hu Hq']; [|done]. split; [|done].
      eapply under_trans; [|exact Hu]. exists 1%nat. cbn. by rewrite Hcp.
Qed.
End children.

(** ** The properties *)

Section reported.
Context {Q : Type} `{QuantityOps Q} `{!QuantityLaws Q}.

(** A figure of what [Roll] reports for a node and a pair, zero when nothing. *)
Definition reported (t : Tree Q) (leaves : gmap string (gmap (string * string) (Observed Q)))
    (f : Total Q → Q) (k : string) (p : string * string) : Qc :=
  from_option (λ tot, q_value (f tot)) 0%Qc (default ∅ (Roll (Some t) leaves !! k) !! p).

Lemma reported_sum (t : Tree Q) leaves (k : string) n (p : string * string) :
  node_keyed t → nodes t !! k = Some n →
  reported t leaves TAdmitted k p = qc_sum (observedAt leaves OAdmitted p) (leavesUnder t k) ∧
  reported t leaves TReserved k p = qc_sum (observedAt leaves OReserved p) (leavesUnder t k).
Proof.
  intros Hk Hn. unfold reported. rewrite (proj1 (Roll_lookup t leaves k Hk)), Hn. cbn [from_option].
  pose proof (totalsOf_figures t leaves k n p (Hk k n Hn)) as Hf.
  destruct (totalsOf t leaves n !! p) as [tot|]; cbn [from_option]; [by destruct Hf as (_ & ? & ? & _)|].
  rewrite !qc_sum_zero; [done| |]; intros d Hd; unfold observedAt; by rewrite (Hf d Hd).
Qed.

Lemma qc_sum_bind {A C} (f : A → Qc) (g : C → list A) l : qc_sum f (l ≫= g) = qc_sum (λ x, qc_sum f (g x)) l.
Proof. induction l as [|x l IH]; [done|]. cbn [mbind list_bind]. rewrite qc_sum_app, qc_sum_cons. f_equal. exact IH. Qed.
End reported.

(** What [Roll] reports for every node of an assembled tree.  A node's
    figures for a pair are over the leaves at or below it, each counted once:
    it reports the pair exactly when one of their queues has a reading for it,
    and then admitted and reserved are the sums of what those queues report.
    A leaf's borrowed figure is its queues' own; a grouping's is what is
    admitted above its authored nominal, and nothing without one.  Names that
    are no node, and nodes with nothing to report, have no entry. *)
Theorem Roll_accounts {Q} `{QuantityOps Q} `{!QuantityLaws Q} (quotas : list (AcceleratorQuota Q)) (opts : Options) (t : Tree Q) (vs : Violations)
    (leaves : gmap string (gmap (string * string) (Observed Q))) :
  Build quotas opts = Ok (t, vs) →
  (∀ k, Roll (Some t) leaves !! k ≠ Some ∅ ∧ (nodes t !! k = None → Roll (Some t) leaves !! k = None)) ∧
  ∀ k n, nodes t !! k = Some n →
    NoDup (leavesUnder t k) ∧
    (∀ d, d ∈ leavesUnder t k ↔ under (objects quotas) k d ∧
       ∃ q, objects quotas !! d = Some q ∧ SpecRole (Spec q) = AcceleratorQuotaRoleClusterQueue) ∧
    ∀ p, match default ∅ (Roll (Some t) leaves !! k) !! p with
         | None => ∀ d, d ∈ leavesUnder t k → leaves !! d ≫= lookup p = None
         | Some tot =>
             (∃ d, d ∈ leavesUnder t k ∧ is_Some (leaves !! d ≫= lookup p)) ∧
             q_value (TAdmitted tot) = qc_sum (observedAt leaves OAdmitted p) (leavesUnder t k) ∧
             q_value (TReserved tot) = qc_sum (observedAt leaves OReserved p) (leavesUnder t k) ∧
             borrows leaves t k n p (q_value (TAdmitted tot)) (q_value (TBorrowed tot))
         end.
Proof.
  intros (_ & B)%Build_inv. pose proof (shaped_keyed _ _ (bu_shaped _ _ _ _ B)) as Hk. split.
  - intros k. destruct (Roll_lookup t leaves k Hk) as [Hl Hne]. split; [done|]. intros Hn.
    rewrite Hn in Hl. cbn [from_option] in Hl. destruct (Roll (Some t) leaves !! k); [cbn in Hl; congruence|done].
  - intros k n Hn.
    assert (is_Some (objects quotas !! k)) as Hko by (apply (sh_dom _ _ (bu_shaped _ _ _ _ B)); by exists n).
    split_and!.
    + by eapply NoDup_leavesUnder.
    + intros d. by eapply elem_of_leavesUnder.
    + intros p. rewrite (proj1 (Roll_lookup t leaves k Hk)), Hn. cbn [from_option].
      apply totalsOf_figures. by apply Hk.
Qed.

(** Both leaves of the sample fleet hold accelerators; the grouping is above
    its nominal of 4 by 2. *)
Definition sample_readings : gmap string (gmap (string * string) (Observed decimal)) :=
  {["a" := {[("tpu", "v5") := mkObserved (dec 2) (dec 2) (dec 1)]};
    "b" := {[("tpu", "v5") := mkObserved (dec 4) (dec 5) (dec 1)]}]}.
Definition usage_tree : Tree decimal :=
  match Build sample_fleet (mkOptions "root" 3) with Ok (t, _) => t | _ => mkTree None ∅ end.

Lemma usage_tree_built : Build sample_fleet (mkOptions "root" 3) = Ok (usage_tree, []).
Proof. vm_compute. reflexivity. Qed.

Example rolled_org :
  Roll (Some usage_tree) sample_readings !! "org"
  = Some {[("tpu", "v5") := mkTotal (dec 6) (dec 7) (dec 2)]}.
Proof. vm_compute. reflexivity. Qed.

Lemma Roll_accounts_witness :
  ∃ n, nodes usage_tree !! "org" = Some n ∧ NoDup (leavesUnder usage_tree "org") ∧
    borrows sample_readings usage_tree "org" n ("tpu", "v5") (q_value (dec 6)) (q_value (dec 2)).
Proof.
  destruct (Roll_accounts sample_fleet (mkOptions "root" 3) usage_tree [] sample_readings usage_tree_built) as [_ Hall].
  destruct (nodes usage_tree !! "org") as [n|] eqn:E; [|exfalso; revert E; vm_compute; discriminate].
  exists n. split; [reflexivity|]. destruct (Hall "org" n E) as (Hnd & _ & Hp). split; [exact Hnd|].
  specialize (Hp ("tpu", "v5")). rewrite rolled_org in Hp. cbn [default from_option id] in Hp.
  rewrite lookup_singleton_eq in Hp. exact (proj2 (proj2 (proj2 Hp))).
Defined.

(** Consumption adds up level by level.  For a grouping with a position
    in the tree, admitted and reserved of every pair are the sums of what its
    children report: no accelerator is counted twice or lost on the way up,
    whatever else is wrong with the fleet. *)
Theorem Roll_additive {Q} `{QuantityOps Q} `{!QuantityLaws Q} (quotas : list (AcceleratorQuota Q)) (opts : Options) (t : Tree Q) (vs : Violations)
    (leaves : gmap string (gmap (string * string) (Observed Q))) (k : string) (n : Node Q) (p : string * string) :
  Build quotas opts = Ok (t, vs) → nodes t !! k = Some n → Reachable n = true → IsLeaf n = false →
  reported t leaves TAdmitted k p = qc_sum (λ c, reported t leaves TAdmitted c p) (Children n) ∧
  reported t leaves TReserved k p = qc_sum (λ c, reported t leaves TReserved c p) (Children n).
Proof.
  intros (_ & B)%Build_inv Hn Hr Hl. pose proof (bu_shaped _ _ _ _ B) as S.
  pose proof (shaped_keyed _ _ S) as Hk. destruct (reported_sum t leaves k n p Hk Hn) as [-> ->].
  pose proof (leavesUnder_children quotas opts t vs B k n Hn Hr Hl) as Hperm. rewrite !Hperm, !qc_sum_bind.
  assert (∀ c, c ∈ Children n → ∃ nc, nodes t !! c = Some nc) as Hc.
  { intros c Hc. apply (sh_node _ _ S) in Hn as (_ & _ & Hch). rewrite Hch, elem_of_childrenOf in Hc.
    apply (sh_dom _ _ S). by apply parentOf_dom in Hc as [? _]. }
  split; apply qc_sum_ext; intros c [nc Hnc]%Hc; symmetry; by apply (reported_sum t leaves c nc p Hk Hnc).
Qed.

Lemma Roll_additive_witness :
  ∃ n, nodes usage_tree !! "root" = Some n ∧
    reported usage_tree sample_readings TAdmitted "root" ("tpu", "v5")
    = qc_sum (λ c, reported usage_tree sample_readings TAdmitted c ("tpu", "v5")) (Children n).
Proof.
  destruct (nodes usage_tree !! "root") as [n|] eqn:E; [|exfalso; revert E; vm_compute; discriminate].
  exists n. split; [reflexivity|].
  refine (proj1 (Roll_additive sample_fleet (mkOptions "root" 3) usage_tree [] sample_readings "root" n
    ("tpu", "v5") usage_tree_built E _ _)); revert E; vm_compute; intros [= <-]; reflexivity.
Defined.
