(* ===== verification/Kueue.v ===== *)
(** * Rendering the tree into Kueue objects

    [pkg/quota/backend/kueue/render.go], [options.go] and the plan and result
    of [pkg/quota/backend/backend.go].  The apply configurations are builders of
    a client library; the model keeps the fields the code sets, with a field it
    may leave unset as an option.  [validation.IsDNS1123Label] and
    [resource.MustParse] are library code and are parameters.  A [*tree.Node] is
    only read here, so it is the node. *)

From S2P Require Import Prelude Quantity Api Violation Tree.
Local Open Scope Z_scope.

Definition AcceleratorQuotaReasonFlavorMissing := "FlavorMissing".
Definition AcceleratorQuotaReasonMaterializationFailed := "MaterializationFailed".
Definition AcceleratorQuotaReasonObjectConflict := "ObjectConflict".
Definition AcceleratorQuotaManagedByLabel := "ome.io/quota-managed-by".
Definition AcceleratorQuotaNodeLabel := "ome.io/accelerator-quota".
(** [corev1.LabelMetadataName] and [metav1.LabelSelectorOpIn]. *)
Definition LabelMetadataName := "kubernetes.io/metadata.name".
Definition LabelSelectorOpIn := "In".

(** The value [resource.MustParse("0")], which is zero. *)
Class ParsedZero (Q : Type) := { parsed_zero : Q }.
Class ParsedZeroLaw (Q : Type) `{QuantityOps Q} `{!ParsedZero Q} : Prop := {
  law_parsed_zero : q_value parsed_zero = 0%Qc;
}.
#[export] Instance decimal_parsed_zero : ParsedZero decimal := { parsed_zero := dec 0 }.
#[export] Instance decimal_parsed_zero_law : ParsedZeroLaw decimal.
Proof. split. done. Qed.

(** ** The plan and the result *)

Record NodeOutcome := mkNodeOutcome { Reason : string; Message : message }.

Record BackendResult := mkBackendResult { Applied : Z; OutcomeOf : gmap string NodeOutcome }.

(** The first problem of a node is kept. *)
Definition Note (r : BackendResult) (node reason : string) (message : message) : BackendResult :=
  if decide (is_Some (OutcomeOf r !! node)) then r
  else mkBackendResult (Applied r) (<[node := mkNodeOutcome reason message]> (OutcomeOf r)).

Section model.
Context {Q : Type} `{QuantityOps Q} `{!ParsedZero Q}.

Record BackendPlan := mkBackendPlan { Write : list (Node Q); Retain : gset string }.

(** ** Options *)

Record KueueOptions := mkKueueOptions {
  FieldManager : string; CoverResources : gmap string Q; EnrolledNamespaces : list string;
}.

Inductive options_error :=
| ErrNoFieldManager
| ErrNoCoverResource
| ErrNoNamespace
| ErrCoverUnnamed
| ErrCoverNotPositive (name : string) (qty : Q)
| ErrNamespaceInvalid (ns : string) (errs : list string)
| ErrNamespaceTwice (ns : string).

Definition Enabled (o : KueueOptions) : bool :=
  negb (bool_decide (FieldManager o = "")) && bool_decide (0 < size (CoverResources o))%nat
  && bool_decide (0 < length (EnrolledNamespaces o))%nat.

Definition checkCover (o : KueueOptions) (_ : unit) (name : string) : outcome options_error unit :=
  if decide (name = "") then Err ErrCoverUnnamed
  else let qty := default q_zero (CoverResources o !! name) in
       if decide (q_Sign qty ≤ 0) then Err (ErrCoverNotPositive name qty) else Ok tt.

Definition checkNamespace (IsDNS1123Label : string → list string) (seen : gset string) (ns : string)
    : outcome options_error (gset string) :=
  if decide (IsDNS1123Label ns ≠ []) then Err (ErrNamespaceInvalid ns (IsDNS1123Label ns))
  else if decide (ns ∈ seen) then Err (ErrNamespaceTwice ns)
  else Ok ({[ns]} ∪ seen).

Definition Validate (IsDNS1123Label : string → list string) (o : KueueOptions) : outcome options_error unit :=
  if decide (FieldManager o = "" ∧ size (CoverResources o) = 0%nat ∧ EnrolledNamespaces o = []) then Ok tt
  else if decide (FieldManager o = "") then Err ErrNoFieldManager
  else if decide (size (CoverResources o) = 0%nat) then Err ErrNoCoverResource
  else if decide (EnrolledNamespaces o = []) then Err ErrNoNamespace
  else obind (ofold (checkCover o) tt (sorted_keys (CoverResources o))) (λ _,
       obind (ofold (checkNamespace IsDNS1123Label) ∅ (EnrolledNamespaces o)) (λ _, Ok tt)).

(** ** The objects *)

Record CohortConfig := mkCohort {
  CohortName : string; CohortLabels : gmap string string; ParentName : option string;
}.

Record ResourceQuota := mkResourceQuota {
  RQName : string; NominalQuota : Q; RQBorrowing : option Q; RQLending : option Q;
}.
Record FlavorQuotas := mkFlavorQuotas { FQName : string; FQResources : list ResourceQuota }.
Record ResourceGroup := mkResourceGroup { RGCovered : list string; RGFlavors : list FlavorQuotas }.
Record SelectorRequirement := mkRequirement { SKey : string; SOperator : string; SValues : list string }.

Record ClusterQueueConfig := mkClusterQueue {
  CQName : string; CQLabels : gmap string string; NamespaceSelector : list SelectorRequirement;
  CQCohort : option string; ResourceGroups : list ResourceGroup;
}.

Record LocalQueueConfig := mkLocalQueue {
  LQName : string; LQNamespace : string; LQLabels : gmap string string; LQClusterQueue : string;
}.

Record Objects := mkObjects {
  Cohorts : list CohortConfig; ClusterQueues : list ClusterQueueConfig;
  LocalQueues : list LocalQueueConfig; Skipped : gmap string (list string);
}.

Definition parentName (node : Node Q) : string := default "" (ParentRef (Spec (Quota node))).

Definition labelsFor (node : Node Q) (opts : KueueOptions) : gmap string string :=
  {[AcceleratorQuotaManagedByLabel := FieldManager opts; AcceleratorQuotaNodeLabel := NodeName node]}.

(** A reference that is set when the name is not empty. *)
Definition named (parent : string) : option string := if decide (parent = "") then None else Some parent.

Definition renderCohort (node : Node Q) (opts : KueueOptions) : CohortConfig :=
  mkCohort (NodeName node) (labelsFor node opts) (named (parentName node)).

Definition namespaceSelector (namespaces : list string) : list SelectorRequirement :=
  [mkRequirement LabelMetadataName LabelSelectorOpIn (sort_slice str_lt namespaces)].

Definition usableBudgets (node : Node Q) (flavors : gset string) : list (AcceleratorBudget Q) * list string :=
  let budgets := Budgets (Spec (Quota node)) in
  if decide (size flavors = 0%nat) then (budgets, [])
  else (filter (λ b, ResourceFlavor b ∈ flavors) budgets,
        sort_slice str_lt (ResourceFlavor <$> filter (λ b, ResourceFlavor b ∉ flavors) budgets)).

Definition coveredResources (budgets : list (AcceleratorBudget Q)) (opts : KueueOptions) : list string :=
  let seen : gset string := dom (CoverResources opts) ∪ list_to_set (ResourceName <$> budgets) in
  sort_slice str_lt (elements seen).

Definition resourceQuota (name : string) (funded : gmap string (AcceleratorBudget Q)) (opts : KueueOptions)
    : ResourceQuota :=
  match CoverResources opts !! name with
  | Some cover => mkResourceQuota name cover None None
  | None =>
      match funded !! name with
      | None => mkResourceQuota name parsed_zero (Some parsed_zero) None
      | Some budget =>
          mkResourceQuota name (Nominal budget) (Some (default parsed_zero (BorrowingLimit budget)))
            (LendingLimit budget)
      end
  end.

(** One budget into the table of flavors and resources. *)
Definition addBudget (byFlavor : gmap string (gmap string (AcceleratorBudget Q))) (b : AcceleratorBudget Q)
    : gmap string (gmap string (AcceleratorBudget Q)) :=
  <[ResourceFlavor b := <[ResourceName b := b]> (default ∅ (byFlavor !! ResourceFlavor b))]> byFlavor.

Definition resourceGroup (budgets : list (AcceleratorBudget Q)) (opts : KueueOptions) : option ResourceGroup :=
  match budgets with
  | [] => None
  | _ =>
      let covered := coveredResources budgets opts in
      let byFlavor := foldl addBudget ∅ budgets in
      Some (mkResourceGroup covered
        ((λ flavor, mkFlavorQuotas flavor
             ((λ name, resourceQuota name (default ∅ (byFlavor !! flavor)) opts) <$> covered))
         <$> sorted_keys byFlavor))
  end.

Definition renderClusterQueue (node : Node Q) (flavors : gset string) (opts : KueueOptions)
    : ClusterQueueConfig * list string :=
  let '(budgets, skipped) := usableBudgets node flavors in
  (mkClusterQueue (NodeName node) (labelsFor node opts) (namespaceSelector (EnrolledNamespaces opts))
     (named (parentName node)) (option_list (resourceGroup budgets opts)), skipped).

Definition renderLocalQueues (node : Node Q) (opts : KueueOptions) : list LocalQueueConfig :=
  (λ ns, mkLocalQueue (NodeName node) ns (labelsFor node opts) (NodeName node))
  <$> sort_slice str_lt (EnrolledNamespaces opts).

(** One node of the plan. *)
Definition renderNode (flavors : gset string) (opts : KueueOptions) (out : Objects) (node : Node Q) : Objects :=
  if decide (NodeRole node = AcceleratorQuotaRoleCohort) then
    mkObjects (Cohorts out ++ [renderCohort node opts]) (ClusterQueues out) (LocalQueues out) (Skipped out)
  else
    let '(cq, skipped) := renderClusterQueue node flavors opts in
    mkObjects (Cohorts out) (ClusterQueues out ++ [cq]) (LocalQueues out ++ renderLocalQueues node opts)
      (if decide (0 < length skipped)%nat then <[NodeName node := skipped]> (Skipped out) else Skipped out).

Definition Render (plan : BackendPlan) (flavors : gset string) (opts : KueueOptions) : Objects :=
  foldl (renderNode flavors opts) (mkObjects [] [] [] ∅) (Write plan).
End model.
Arguments BackendPlan : clear implicits.
Arguments KueueOptions : clear implicits.
Arguments options_error : clear implicits.
Arguments ResourceQuota : clear implicits.
Arguments FlavorQuotas : clear implicits.
Arguments ResourceGroup : clear implicits.
Arguments ClusterQueueConfig : clear implicits.
Arguments Objects : clear implicits.
