(* ===== verification/KueueApply.v ===== *)
(** * Applying, sweeping and reading Kueue objects

    [pkg/quota/backend/kueue/backend.go] and [usage.go].  The cluster is reached
    through a client, which is library code talking to a server: [KueueClient]
    is the calls the backend makes, each a step of the world [W] with an answer
    that may be a failure, and [KueueClientLaws] is what they are documented to
    do, over the objects a world holds.  The world also decides which calls
    fail, so every pattern of failures is covered. *)

From S2P Require Import Prelude Quantity Api Violation Tree Usage Kueue.
Local Open Scope Z_scope.

Record objectRef := mkRef { kind : string; name : string; namespace : string }.
#[export] Instance objectRef_eq_dec : EqDecision objectRef.
Proof. solve_decision. Defined.
#[export] Instance objectRef_countable : Countable objectRef.
Proof.
  refine (inj_countable' (λ r, (kind r, name r, namespace r)) (λ '(k, n, ns), mkRef k n ns) _). by intros [].
Defined.

Definition objectRefString (r : objectRef) : message :=
  if decide (namespace r = "") then Sprintf "%s %s" [AStr (kind r); AStr (name r)]
  else Sprintf "%s %s/%s" [AStr (kind r); AStr (namespace r); AStr (name r)].

(** Answers of the client. *)
Inductive get_answer := Found (labels : gmap string string) | NotFound | GetFailed (err : string).
(** [NoMatch] is a cluster without the kind. *)
Inductive list_answer (A : Type) := Listed (items : list A) | NoMatch (err : string) | ListFailed (err : string).
Arguments Listed {_} _.
Arguments NoMatch {_} _.
Arguments ListFailed {_} _.
Inductive delete_answer := Deleted | Gone | DeleteFailed (err : string).

(** ** The status of a queue *)

Section status.
Context {Q : Type} `{QuantityOps Q}.

(** [kueuev1beta2.ResourceUsage], [FlavorUsage] and the part of
    [ClusterQueueStatus] that is read. *)
Record ResourceUsage := mkResourceUsage { RUName : string; RUTotal : Q; RUBorrowed : Q }.
Record FlavorUsage := mkFlavorUsage { FUName : string; FUResources : list ResourceUsage }.
Record QueueStatus := mkQueueStatus {
  FlavorsUsage : list FlavorUsage; FlavorsReservation : list FlavorUsage;
}.

(** The zero value of [usage.Observed]. *)
Definition zeroObserved : Observed Q := mkObserved q_zero q_zero q_zero.

Definition usageOf (out : gmap (string * string) (Observed Q)) (flavor : string) (r : ResourceUsage) :=
  let key := (RUName r, flavor) in
  let seen := default zeroObserved (out !! key) in
  <[key := mkObserved (RUTotal r) (OReserved seen) (RUBorrowed r)]> out.

Definition reservationOf (out : gmap (string * string) (Observed Q)) (flavor : string) (r : ResourceUsage) :=
  let key := (RUName r, flavor) in
  let seen := default zeroObserved (out !! key) in
  <[key := mkObserved (OAdmitted seen) (RUTotal r) (OBorrowed seen)]> out.

Definition readFlavor (f : gmap (string * string) (Observed Q) → string → ResourceUsage →
      gmap (string * string) (Observed Q))
    (out : gmap (string * string) (Observed Q)) (flavor : FlavorUsage) : gmap (string * string) (Observed Q) :=
  foldl (λ out r, f out (FUName flavor) r) out (FUResources flavor).

(** Reserved is never below admitted. *)
Definition atLeastAdmitted (seen : Observed Q) : Observed Q :=
  if decide (q_Cmp (OReserved seen) (OAdmitted seen) < 0)
  then mkObserved (OAdmitted seen) (OAdmitted seen) (OBorrowed seen) else seen.

Definition observed (status : QueueStatus) : gmap (string * string) (Observed Q) :=
  let out := foldl (readFlavor usageOf) ∅ (FlavorsUsage status) in
  let out := foldl (readFlavor reservationOf) out (FlavorsReservation status) in
  atLeastAdmitted <$> out.

Definition sameResource (x y : ResourceUsage) : bool :=
  bool_decide (RUName x = RUName y) && bool_decide (q_Cmp (RUTotal x) (RUTotal y) = 0)
  && bool_decide (q_Cmp (RUBorrowed x) (RUBorrowed y) = 0).

Definition sameFlavor (x y : FlavorUsage) : bool :=
  bool_decide (FUName x = FUName y) && bool_decide (length (FUResources x) = length (FUResources y))
  && forallb (λ '(a, b), sameResource a b) (zip (FUResources x) (FUResources y)).

Definition equalFlavorUsage (a b : list FlavorUsage) : bool :=
  bool_decide (length a = length b) && forallb (λ '(x, y), sameFlavor x y) (zip a b).

Definition owned (fieldManager : string) (labels : gmap string string) : bool :=
  bool_decide (default "" (labels !! AcceleratorQuotaManagedByLabel) = fieldManager).

(** [UpdateFunc]: whether an update of a queue wakes the controller. *)
Definition wakesOnUpdate (fieldManager : string) (labelsAfter : gmap string string) (before after : QueueStatus)
    : bool :=
  if negb (owned fieldManager labelsAfter) then false
  else negb (equalFlavorUsage (FlavorsUsage before) (FlavorsUsage after))
       || negb (equalFlavorUsage (FlavorsReservation before) (FlavorsReservation after)).
End status.
Arguments ResourceUsage : clear implicits.
Arguments FlavorUsage : clear implicits.
Arguments QueueStatus : clear implicits.

(** ** The client *)

(** An apply configuration handed to [Apply]. *)
Inductive applied (Q : Type) :=
| ApplyCohort (c : CohortConfig)
| ApplyClusterQueue (c : ClusterQueueConfig Q)
| ApplyLocalQueue (c : LocalQueueConfig).
Arguments ApplyCohort {_} _.
Arguments ApplyClusterQueue {_} _.
Arguments ApplyLocalQueue {_} _.

Definition refOf {Q} (a : applied Q) : objectRef :=
  match a with
  | ApplyCohort c => mkRef "Cohort" (CohortName c) ""
  | ApplyClusterQueue c => mkRef "ClusterQueue" (CQName c) ""
  | ApplyLocalQueue c => mkRef "LocalQueue" (LQName c) (LQNamespace c)
  end.

Definition labelsOf {Q} (a : applied Q) : gmap string string :=
  match a with
  | ApplyCohort c => CohortLabels c
  | ApplyClusterQueue c => CQLabels c
  | ApplyLocalQueue c => LQLabels c
  end.

(** A listed object. *)
Record listedObject := mkListed { ListedRef : objectRef; ListedLabels : gmap string string }.

Class KueueClient (Q W : Type) := {
  (** [Reader.List] of the flavors *)
  list_flavors : W → W * list_answer string;
  (** [Reader.Get], of which the labels are read *)
  get_labels : W → objectRef → W * get_answer;
  (** [Writer.Apply] with the field owner; [None] is success *)
  apply_config : W → string → applied Q → W * option string;
  (** [Writer.Delete] *)
  delete_object : W → objectRef → W * delete_answer;
  (** [Reader.List] of a kind, where a label has a value *)
  list_kind : W → string → string → string → W * list_answer listedObject;
  (** the same for the queues whose status is read *)
  list_queues : W → string → string → W * list_answer (gmap string string * QueueStatus Q);
}.

Section model.
Context {Q W : Type} `{QuantityOps Q} `{!ParsedZero Q} `{!KueueClient Q W}.
Implicit Types (opts : KueueOptions Q) (w : W).

(** The set of flavors, or an error; without the resource kind, none. *)
Definition flavors w : W * outcome string (gset string) :=
  let '(w, answer) := list_flavors w in
  match answer with
  | Listed items => (w, Ok (list_to_set items))
  | NoMatch _ => (w, Ok ∅)
  | ListFailed err => (w, Err err)
  end.

Definition ownedByUs opts w (ref : objectRef) : W * outcome string bool :=
  let '(w, answer) := get_labels w ref in
  match answer with
  | NotFound => (w, Ok true)
  | GetFailed err => (w, Err err)
  | Found labels =>
      (w, Ok (bool_decide (default "" (labels !! AcceleratorQuotaManagedByLabel) = FieldManager opts)))
  end.

Definition applyOne opts (st : W * BackendResult) (node : string) (ac : applied Q) : W * BackendResult :=
  let '(w, result) := st in
  let ref := refOf ac in
  match ownedByUs opts w ref with
  | (w, Err err) =>
      (w, Note result node AcceleratorQuotaReasonMaterializationFailed
            (Sprintf "cannot read %s: %v" [AMsg (objectRefString ref); AStr err]))
  | (w, Ok false) =>
      (w, Note result node AcceleratorQuotaReasonObjectConflict
            (Sprintf "%s already exists and is not managed by %s; refusing to adopt it"
               [AMsg (objectRefString ref); AStr (FieldManager opts)]))
  | (w, Ok true) =>
      match apply_config w (FieldManager opts) ac with
      | (w, Some err) =>
          (w, Note result node AcceleratorQuotaReasonMaterializationFailed
                (Sprintf "cannot apply %s: %v" [AMsg (objectRefString ref); AStr err]))
      | (w, None) => (w, mkBackendResult (Applied result + 1) (OutcomeOf result))
      end
  | (w, Panic) => (w, result)
  end.

(** The node an object is reported against, and what is applied. *)
Definition writesOf (objs : Objects Q) : list (string * applied Q) :=
  ((λ c, (CohortName c, ApplyCohort c)) <$> Cohorts objs)
  ++ ((λ c, (CQName c, ApplyClusterQueue c)) <$> ClusterQueues objs)
  ++ ((λ c, (default "" (LQLabels c !! AcceleratorQuotaNodeLabel), ApplyLocalQueue c)) <$> LocalQueues objs).

Definition noteSkipped (r : BackendResult) (s : string * list string) : BackendResult :=
  Note r s.1 AcceleratorQuotaReasonFlavorMissing
    (Sprintf "no ResourceFlavor named %v on this cluster; those budgets are not materialized" [AStrs s.2]).

Definition Materialize opts w (plan : BackendPlan Q) : W * outcome string BackendResult :=
  match flavors w with
  | (w, Ok fs) =>
      let objs := Render plan fs opts in
      let result := foldl noteSkipped (mkBackendResult 0 ∅) (map_to_list (Skipped objs)) in
      let '(w, result) := foldl (λ st a, applyOne opts st a.1 a.2) (w, result) (writesOf objs) in
      (w, Ok result)
  | (w, Err err) => (w, Err err)
  | (w, Panic) => (w, Panic)
  end.

(** ** The sweep *)

Definition deleteObject w (ref : objectRef) : W * option message :=
  match delete_object w ref with
  | (w, DeleteFailed err) => (w, Some (Sprintf "delete %T %s: %w" [AStr (kind ref); AStr (name ref); AStr err]))
  | (w, _) => (w, None)
  end.

(** The state of a sweep: the world, the count and the errors. *)
Definition sweepOne (keep : gset string) (st : W * Z * list message) (o : listedObject) : W * Z * list message :=
  let '(w, deleted, errs) := st in
  if decide (default "" (ListedLabels o !! AcceleratorQuotaNodeLabel) ∈ keep) then st
  else match deleteObject w (ListedRef o) with
       | (w, Some err) => (w, deleted, errs ++ [err])
       | (w, None) => (w, deleted + 1, errs)
       end.

Definition sweepKind opts (keep : gset string) (st : W * Z * list message) (k : string)
    : outcome (W * Z * string) (W * Z * list message) :=
  let '(w, deleted, errs) := st in
  match list_kind w k AcceleratorQuotaManagedByLabel (FieldManager opts) with
  | (w, ListFailed err) => Err (w, deleted, err)
  | (w, NoMatch _) => Ok (w, deleted, errs)
  | (w, Listed items) => Ok (foldl (sweepOne keep) (w, deleted, errs) items)
  end.

(** What went wrong in a sweep; the text of the deletion failures is sorted
    for display. *)
Inductive sweep_error := SweepListFailed (err : string) | SweepFailed (errs : list message).

(** [Sweep]: the world and the count, and what went wrong. *)
Definition Sweep opts w (keep : gset string) : W * Z * option sweep_error :=
  match ofold (sweepKind opts keep) (w, 0, []) ["LocalQueue"; "ClusterQueue"; "Cohort"] with
  | Err (w, deleted, err) => (w, deleted, Some (SweepListFailed err))
  | Ok (w, deleted, errs) => (w, deleted, match errs with [] => None | _ => Some (SweepFailed errs) end)
  | Panic => (w, 0, None)
  end.

(** ** Reading consumption *)

Definition indexQueue (byNode : gmap string (QueueStatus Q)) (q : gmap string string * QueueStatus Q) :=
  let node := default "" (q.1 !! AcceleratorQuotaNodeLabel) in
  if decide (node = "") then byNode else <[node := q.2]> byNode.

Definition readLeaf (byNode : gmap string (QueueStatus Q))
    (out : gmap string (gmap (string * string) (Observed Q))) (leaf : Node Q) :=
  match byNode !! NodeName leaf with
  | None => out
  | Some status => <[NodeName leaf := observed status]> out
  end.

Definition ReadUsage opts w (leaves : list (Node Q))
    : W * outcome message (gmap string (gmap (string * string) (Observed Q))) :=
  if decide (leaves = []) then (w, Ok ∅)
  else match list_queues w AcceleratorQuotaManagedByLabel (FieldManager opts) with
       | (w, Listed items) =>
           let byNode := foldl indexQueue ∅ items in
           (w, Ok (foldl (readLeaf byNode) ∅ leaves))
       | (w, NoMatch err) | (w, ListFailed err) => (w, Err (Sprintf "listing ClusterQueues: %w" [AStr err]))
       end.
End model.

(** ** One pass of the controller

    [materialize] of [pkg/controller/v1beta1/acceleratorquota/materialize.go],
    for a manager whose backend is this one. *)

Section pass.
Context {Q W : Type} `{QuantityOps Q} `{!ParsedZero Q} `{!KueueClient Q W}.

(** One node of the plan and of the set of names to keep. *)
Definition planNode (frozen : gmap string Violation) (st : BackendPlan Q * gset string) (node : Node Q)
    : BackendPlan Q * gset string :=
  let '(plan, keep) := st in
  let keep := {[NodeName node]} ∪ keep in
  if decide (is_Some (frozen !! NodeName node)) then
    (mkBackendPlan (Write plan) ({[NodeName node]} ∪ Retain plan), keep)
  else if negb (Reachable node) then (mkBackendPlan (Write plan) ({[NodeName node]} ∪ Retain plan), keep)
  else (mkBackendPlan (Write plan ++ [node]) (Retain plan), keep).

Definition planOf (built : Tree Q) (frozen : gmap string Violation) : BackendPlan Q * gset string :=
  foldl (planNode frozen) (mkBackendPlan [] ∅, ∅) (Nodes built).

Inductive pass_error := PassNotMaterialized (err : string) | PassNotSwept (err : sweep_error).

(** The world, the outcomes of the nodes when there are any, and the error. *)
Definition materialize (opts : KueueOptions Q) (w : W) (built : Tree Q) (frozen : gmap string Violation)
    : W * option (gmap string NodeOutcome) * option pass_error :=
  let '(plan, keep) := planOf built frozen in
  match Materialize opts w plan with
  | (w, Ok result) =>
      match Sweep opts w keep with
      | (w, _, None) => (w, Some (OutcomeOf result), None)
      | (w, _, Some err) => (w, Some (OutcomeOf result), Some (PassNotSwept err))
      end
  | (w, Err err) => (w, None, Some (PassNotMaterialized err))
  | (w, Panic) => (w, None, None)
  end.

Section status.
Context {T : Type}.

(** [AcceleratorQuotaMaterialization]; [T] is the clock's readings. *)
Record Materialization := mkMaterialization {
  MFrozen : bool; FrozenAt : option T; MReason : string;
  LastAppliedGeneration : Z; LastAppliedTime : option T;
}.

(** The condition that is stamped: its status, reason and message. *)
Record Condition := mkCondition { CStatus : bool; CReason : string; CMessage : message }.

Definition AcceleratorQuotaReasonAdmitted := "Admitted".
Definition AcceleratorQuotaReasonFrozen := "Frozen".

(** A new, zero bookkeeping. *)
Definition zeroMaterialization : Materialization := mkMaterialization false None "" 0 None.

Definition setMaterializationStatus (status : option Materialization) (generation : Z)
    (outcome : NodeOutcome) (isFrozen : bool) (now : T) : option Materialization * Condition :=
  if isFrozen then
    let m := default zeroMaterialization status in
    let m := if negb (MFrozen m)
             then mkMaterialization true (Some now) (MReason m) (LastAppliedGeneration m) (LastAppliedTime m)
             else m in
    (Some (mkMaterialization (MFrozen m) (FrozenAt m) AcceleratorQuotaReasonFrozen
             (LastAppliedGeneration m) (LastAppliedTime m)),
     mkCondition false AcceleratorQuotaReasonFrozen
       (Sprintf "output is held at its last-good state; no objects were written or removed" []))
  else if decide (Reason outcome ≠ "") then
    (status, mkCondition false (Reason outcome) (Message outcome))
  else
    (Some (mkMaterialization false None "" generation (Some now)),
     mkCondition true AcceleratorQuotaReasonAdmitted
       (Sprintf "enforcement objects match this node's budget" [])).

Definition equalMaterialization (a b : option Materialization) : bool :=
  match a, b with
  | Some a, Some b => eqb (MFrozen a) (MFrozen b) && bool_decide (MReason a = MReason b)
                      && bool_decide (LastAppliedGeneration a = LastAppliedGeneration b)
  | None, None => true
  | _, _ => false
  end.
End status.
End pass.
