(* ===== verification/KueueFacts.v ===== *)
(** * What a pass over the Kueue objects guarantees

    The client's documented behaviour as laws over the content of a cluster,
    and what follows for [Materialize], [Sweep] and the controller's pass: which
    objects change, and that nothing goes missing unreported. *)

From S2P Require Import Prelude Quantity Api Violation Tree TreeFacts TreeBuild Usage Kueue KueueApply.
Local Open Scope Z_scope.

(** ** What the client is documented to do *)

(** [content] is what a cluster holds.  A read leaves it alone and answers from
    it.  A successful apply leaves the object there, with the labels and fields
    of the configuration; a failed one may or may not have reached the server.
    A delete that succeeds removes the object or leaves it terminating.  No call
    touches another object. *)
Class KueueWorld (Q W : Type) `{!KueueClient Q W} := {
  stored_object : Type;
  content : W → gmap objectRef stored_object;
  object_labels : stored_object → gmap string string;
  carries : stored_object → applied Q → Prop;
  terminating : stored_object → Prop;
  law_list_flavors w : content (list_flavors w).1 = content w;
  law_get w ref :
    content (get_labels w ref).1 = content w ∧
    match (get_labels w ref).2 with
    | Found labels => ∃ o, content w !! ref = Some o ∧ object_labels o = labels
    | NotFound => content w !! ref = None
    | GetFailed _ => True
    end;
  law_apply w manager ac :
    (∀ ref, ref ≠ refOf ac → content (apply_config w manager ac).1 !! ref = content w !! ref) ∧
    ((apply_config w manager ac).2 = None →
     ∃ o, content (apply_config w manager ac).1 !! refOf ac = Some o ∧ carries o ac ∧
       labelsOf ac ⊆ object_labels o);
  law_delete w ref :
    (∀ ref', ref' ≠ ref → content (delete_object w ref).1 !! ref' = content w !! ref') ∧
    match (delete_object w ref).2 with
    | DeleteFailed _ => True
    | _ => ∀ o, content (delete_object w ref).1 !! ref = Some o → terminating o
    end;
  law_list_kind w k label value :
    content (list_kind w k label value).1 = content w ∧
    match (list_kind w k label value).2 with
    | Listed items => NoDup (ListedRef <$> items) ∧ ∀ x, x ∈ items ↔
        ∃ o, content w !! ListedRef x = Some o ∧ kind (ListedRef x) = k ∧
          object_labels o = ListedLabels x ∧ object_labels o !! label = Some value
    | NoMatch _ => ∀ ref o, content w !! ref = Some o → kind ref ≠ k
    | ListFailed _ => True
    end;
}.

Section materialize.
Context {Q W : Type} `{QuantityOps Q} `{!ParsedZero Q} `{!KueueClient Q W} `{!KueueWorld Q W}.
Implicit Types (opts : KueueOptions Q) (w : W) (ref : objectRef) (ac : applied Q).

(** An object is somebody else's. *)
Definition foreign opts w ref : Prop :=
  ∃ o, content w !! ref = Some o ∧
    default "" (object_labels o !! AcceleratorQuotaManagedByLabel) ≠ FieldManager opts.

Lemma Note_keeps (r : BackendResult) node reason msg k o :
  OutcomeOf r !! k = Some o → OutcomeOf (Note r node reason msg) !! k = Some o.
Proof.
  intros Hk. unfold Note. case_decide as Hs; [done|]. cbn. rewrite lookup_insert_ne; [done|].
  intros ->. rewrite Hk in Hs. by destruct Hs.
Qed.

Lemma Note_notes (r : BackendResult) node reason msg : is_Some (OutcomeOf (Note r node reason msg) !! node).
Proof. unfold Note. case_decide as Hs; [done|]. cbn. rewrite lookup_insert_eq. by eexists. Qed.

(** What one application does: it changes at most its own object, and only one
    that is free or ours; it succeeds or its node has an outcome. *)
Lemma applyOne_step opts w r node ac w' r' :
  applyOne opts (w, r) node ac = (w', r') →
  (∀ ref, ref ≠ refOf ac → content w' !! ref = content w !! ref) ∧
  (foreign opts w (refOf ac) → content w' = content w) ∧
  (∀ k o, OutcomeOf r !! k = Some o → OutcomeOf r' !! k = Some o) ∧
  ((Applied r' = Applied r + 1 ∧ OutcomeOf r' = OutcomeOf r ∧
    ∃ o, content w' !! refOf ac = Some o ∧ carries o ac ∧ labelsOf ac ⊆ object_labels o) ∨
   (Applied r' = Applied r ∧ is_Some (OutcomeOf r' !! node))).
Proof.
  assert (∀ r reason msg, Applied (Note r node reason msg) = Applied r) as HN.
  { intros r0 reason msg. unfold Note. by case_decide. }
  unfold applyOne, ownedByUs. destruct (get_labels w (refOf ac)) as [w1 answer] eqn:Eg.
  destruct (law_get w (refOf ac)) as [Hc Ha]. rewrite Eg in Hc, Ha. cbn in Hc, Ha.
  assert (∀ reason msg, (w1, Note r node reason msg) = (w', r') →
    (∀ ref, ref ≠ refOf ac → content w' !! ref = content w !! ref) ∧
    (foreign opts w (refOf ac) → content w' = content w) ∧
    (∀ k o, OutcomeOf r !! k = Some o → OutcomeOf r' !! k = Some o) ∧
    Applied r' = Applied r ∧ is_Some (OutcomeOf r' !! node)) as Hnote.
  { intros reason msg [= <- <-]. rewrite Hc, HN.
    split_and!; [done|done|intros; by apply Note_keeps|done|apply Note_notes]. }
  assert (∀ b : bool, (b = true → ¬ foreign opts w (refOf ac)) →
    (if b then match apply_config w1 (FieldManager opts) ac with
     | (w, Some err) => (w, Note r node AcceleratorQuotaReasonMaterializationFailed
         (Sprintf "cannot apply %s: %v" [AMsg (objectRefString (refOf ac)); AStr err]))
     | (w, None) => (w, mkBackendResult (Applied r + 1) (OutcomeOf r)) end
     else (w1, Note r node AcceleratorQuotaReasonObjectConflict
            (Sprintf "%s already exists and is not managed by %s; refusing to adopt it"
               [AMsg (objectRefString (refOf ac)); AStr (FieldManager opts)]))) = (w', r') →
    (∀ ref, ref ≠ refOf ac → content w' !! ref = content w !! ref) ∧
    (foreign opts w (refOf ac) → content w' = content w) ∧
    (∀ k o, OutcomeOf r !! k = Some o → OutcomeOf r' !! k = Some o) ∧
    ((Applied r' = Applied r + 1 ∧ OutcomeOf r' = OutcomeOf r ∧
      ∃ o, content w' !! refOf ac = Some o ∧ carries o ac ∧ labelsOf ac ⊆ object_labels o) ∨
     (Applied r' = Applied r ∧ is_Some (OutcomeOf r' !! node)))) as Happly.
  { intros [] Hf; [|by intros (?&?&?&?&?)%Hnote; split_and!; [..|right]]. specialize (Hf eq_refl).
    destruct (law_apply w1 (FieldManager opts) ac) as [Hother Hok].
    destruct (apply_config w1 (FieldManager opts) ac) as [w2 [err|]]; cbn in Hother, Hok; intros [= <- <-];
      rewrite Hc in Hother; split_and!; [done|done|intros; by apply Note_keeps| |done|done|done|].
    - right. rewrite HN. split; [done|apply Note_notes].
    - left. split_and!; [done|done|by apply Hok]. }
  destruct answer as [labels| |err].
  - intros E. apply (Happly (bool_decide (default "" (labels !! AcceleratorQuotaManagedByLabel) = FieldManager opts)));
      [|by destruct (bool_decide _)].
    intros Eb%bool_decide_eq_true (o & Ho & Hl). destruct Ha as (o' & Ho' & <-). congruence.
  - intros E. apply (Happly true); [|done]. intros _ (o & Ho & _). congruence.
  - intros E%Hnote. destruct E as (?&?&?&?&?). split_and!; [..|right]; done.
Qed.

Abbreviation placed_at w ac := (∃ o, content w !! refOf ac = Some o ∧ carries o ac ∧ labelsOf ac ⊆ object_labels o).

(** What a run of applications does, the objects being distinct. *)
Lemma apply_loop opts w r (ws : list (string * applied Q)) :
  NoDup (refOf ∘ snd <$> ws) →
  let '(w', r') := foldl (λ st a, applyOne opts st a.1 a.2) (w, r) ws in
  (∀ ref, ref ∉ (refOf ∘ snd <$> ws) → content w' !! ref = content w !! ref) ∧
  (∀ ref, foreign opts w ref → content w' !! ref = content w !! ref) ∧
  (∀ k o, OutcomeOf r !! k = Some o → OutcomeOf r' !! k = Some o) ∧
  (∀ node ac, (node, ac) ∈ ws → placed_at w' ac ∨ is_Some (OutcomeOf r' !! node)).
Proof.
  revert w r. induction ws as [|[node ac] ws IH]; intros w r Hnd; cbn [foldl].
  { split_and!; [done..|]. intros node ac Hin. by apply elem_of_nil in Hin. }
  rewrite fmap_cons in Hnd. apply NoDup_cons in Hnd as [Hnew Hnd]. cbn [fst snd].
  destruct (applyOne opts (w, r) node ac) as [w1 r1] eqn:E.
  destruct (applyOne_step _ _ _ _ _ _ _ E) as (Hother & Hfor & Hkeep & Hdone).
  specialize (IH w1 r1 Hnd). destruct (foldl _ (w1, r1) ws) as [w2 r2].
  destruct IH as (IHother & IHfor & IHkeep & IHdone).
  assert (∀ ref, foreign opts w ref → content w1 !! ref = content w !! ref) as Hfor1.
  { intros ref Hf. destruct (decide (ref = refOf ac)) as [->|Hne]; [by rewrite Hfor|by apply Hother]. }
  split_and!.
  - intros ref [Hne Hin]%not_elem_of_cons. rewrite IHother by done. by apply Hother.
  - intros ref Hf. rewrite <-(Hfor1 ref Hf). apply IHfor. destruct Hf as (o & Ho & Hl). exists o.
    split; [|done]. rewrite Hfor1; [done|by exists o].
  - auto.
  - intros node' ac' [[= -> ->]|Hin]%elem_of_cons; [|by apply IHdone].
    destruct Hdone as [(_ & _ & o & Ho & Hca)|(_ & o & Ho)]; [left|right].
    + exists o. rewrite IHother by done. done.
    + exists o. by apply IHkeep.
Qed.
End materialize.

(** ** What is rendered *)

Section rendered.
Context {Q : Type} `{QuantityOps Q} `{!ParsedZero Q}.
Implicit Types (opts : KueueOptions Q) (fs : gset string) (ns : list (Node Q)).

Abbreviation isCohort n := (NodeRole n = AcceleratorQuotaRoleCohort).

Lemma Render_fold (plan : BackendPlan Q) fs opts :
  let objs := Render plan fs opts in
  Cohorts objs = (λ n, renderCohort n opts) <$> filter (λ n, isCohort n) (Write plan) ∧
  ClusterQueues objs = (λ n, (renderClusterQueue n fs opts).1) <$> filter (λ n, ¬ isCohort n) (Write plan) ∧
  LocalQueues objs = filter (λ n, ¬ isCohort n) (Write plan) ≫= (λ n, renderLocalQueues n opts).
Proof.
  cbv zeta. unfold Render. refine (foldl_ind (renderNode fs opts) (λ pre objs,
    Cohorts objs = (λ n, renderCohort n opts) <$> filter (λ n, isCohort n) pre ∧
    ClusterQueues objs = (λ n, (renderClusterQueue n fs opts).1) <$> filter (λ n, ¬ isCohort n) pre ∧
    LocalQueues objs = filter (λ n, ¬ isCohort n) pre ≫= (λ n, renderLocalQueues n opts)) _ _ _ _); [done|].
  intros pre n post objs _ (IHc & IHq & IHl). unfold renderNode. rewrite !filter_app, !filter_cons, !filter_nil.
  destruct (decide (isCohort n)) as [Hc|Hc].
  - rewrite decide_False by tauto. rewrite !app_nil_r, fmap_app. cbn [Cohorts ClusterQueues LocalQueues]. by rewrite IHc.
  - rewrite decide_True, app_nil_r, fmap_app, bind_app by done.
    destruct (renderClusterQueue n fs opts) as [cq skipped] eqn:E. cbn [Cohorts ClusterQueues LocalQueues].
    rewrite IHq, IHl. cbn. rewrite E, app_nil_r. done.
Qed.

(** The nodes whose names are skipped, the last of a name counting. *)
Lemma Render_skipped (plan : BackendPlan Q) fs opts k :
  NoDup (NodeName <$> Write plan) →
  Skipped (Render plan fs opts) !! k
  = n ← snd <$> list_find (λ n, NodeName n = k ∧ ¬ isCohort n) (Write plan);
    let skipped := (renderClusterQueue n fs opts).2 in if decide (skipped = []) then None else Some skipped.
Proof.
  intros Hnd. unfold Render. revert Hnd. generalize (Write plan). intros l Hnd.
  assert (∀ objs, (∀ n, n ∈ l → Skipped objs !! NodeName n = None) →
    Skipped (foldl (renderNode fs opts) objs l) !! k =
    match list_find (λ n, NodeName n = k ∧ ¬ isCohort n) l with
    | Some (_, n) => let skipped := (renderClusterQueue n fs opts).2 in if decide (skipped = []) then None else Some skipped
    | None => Skipped objs !! k
    end) as Hgen; [|rewrite Hgen by done; by destruct (list_find _ l) as [[]|]].
  induction l as [|n l IH]; intros objs Hobjs; [done|]. rewrite fmap_cons in Hnd. apply NoDup_cons in Hnd as [Hn Hnd].
  assert (∀ n', n' ∈ l → NodeName n' ≠ NodeName n) as Hne.
  { intros n' Hn' E. apply Hn. rewrite <-E. by apply list_elem_of_fmap_2. }
  assert (Skipped objs !! NodeName n = None) as Hnone by (apply Hobjs; left).
  assert (∀ n', n' ∈ l → Skipped objs !! NodeName n' = None) as Hrest by (intros n' ?; apply Hobjs; by right).
  cbn [foldl list_find]. unfold renderNode at 2. destruct (decide (isCohort n)) as [Hc|Hc].
  { rewrite decide_False by tauto. rewrite IH by done. by destruct (list_find _ l) as [[]|]. }
  destruct (renderClusterQueue n fs opts) as [cq skipped] eqn:E.
  rewrite IH; [|done|].
  2:{ intros n' Hn'. cbn [Skipped]. case_decide; [|by apply Hrest]. rewrite lookup_insert_ne; [by apply Hrest|].
      intros Eq. by apply (Hne n'). }
  cbn [Skipped]. destruct (decide (NodeName n = k)) as [<-|Hk].
  - rewrite (decide_True (P := NodeName n = NodeName n ∧ ¬ isCohort n)) by done. rewrite E. cbn [snd].
    assert (list_find (λ n0, NodeName n0 = NodeName n ∧ ¬ isCohort n0) l = None) as ->.
    { apply list_find_None, Forall_forall. intros n' Hn' [En' _]. by apply (Hne n'). }
    destruct skipped as [|x sk]; [done|]. cbn [snd]. rewrite (decide_True (P := (0 < length (x :: sk))%nat)) by (cbn; lia).
    by rewrite lookup_insert_eq.
  - rewrite (decide_False (P := NodeName n = k ∧ ¬ isCohort n)) by tauto.
    case_decide; [rewrite lookup_insert_ne by done|]; by destruct (list_find _ l) as [[]|].
Qed.

(** What a node is rendered to. *)
Definition renders (n : Node Q) fs opts (ac : applied Q) : Prop :=
  if decide (isCohort n) then ac = ApplyCohort (renderCohort n opts)
  else ac = ApplyClusterQueue (renderClusterQueue n fs opts).1 ∨
       ∃ q, q ∈ renderLocalQueues n opts ∧ ac = ApplyLocalQueue q.

Lemma queue_labels n fs opts :
  CQName (renderClusterQueue n fs opts).1 = NodeName n ∧ CQLabels (renderClusterQueue n fs opts).1 = labelsFor n opts.
Proof. unfold renderClusterQueue. by destruct (usableBudgets n fs). Qed.

Lemma labelsFor_node n opts : labelsFor n opts !! AcceleratorQuotaNodeLabel = Some (NodeName n).
Proof. done. Qed.

Lemma labelsFor_manager n opts : labelsFor n opts !! AcceleratorQuotaManagedByLabel = Some (FieldManager opts).
Proof. done. Qed.

Lemma elem_of_writesOf (plan : BackendPlan Q) fs opts node ac :
  (node, ac) ∈ writesOf (Render plan fs opts) ↔ ∃ n, n ∈ Write plan ∧ NodeName n = node ∧ renders n fs opts ac.
Proof.
  unfold writesOf, renders. destruct (Render_fold plan fs opts) as (-> & -> & ->).
  rewrite !elem_of_app, !list_elem_of_fmap. split.
  - intros [(c & [= -> ->] & (n & -> & [Hc Hn]%list_elem_of_filter)%list_elem_of_fmap)|
      [(c & [= -> ->] & (n & -> & [Hc Hn]%list_elem_of_filter)%list_elem_of_fmap)|
       (c & [= -> ->] & (n & Hl & [Hc Hn]%list_elem_of_filter)%list_elem_of_bind)]].
    + exists n. by rewrite decide_True.
    + exists n. rewrite decide_False by done. destruct (queue_labels n fs opts) as [-> _].
      split_and!; [done|done|by left].
    + exists n. rewrite decide_False by done. split; [done|].
      split; [|right; by exists c].
      unfold renderLocalQueues in Hl. apply list_elem_of_fmap in Hl as (ns & -> & _). cbn [LQLabels]. by rewrite labelsFor_node.
  - intros (n & Hn & <- & Hr). case_decide as Hc; [|destruct Hr as [->|(q & Hq & ->)]].
    + left. exists (renderCohort n opts). subst. split; [done|]. apply list_elem_of_fmap. exists n.
      split; [done|]. by apply list_elem_of_filter.
    + right. left. eexists. destruct (queue_labels n fs opts) as [Hnm _]. split; [by rewrite Hnm|]. apply list_elem_of_fmap.
      exists n. split; [done|]. by apply list_elem_of_filter.
    + right. right. exists q. split.
      * unfold renderLocalQueues in Hq. apply list_elem_of_fmap in Hq as (ns & -> & _). cbn [LQLabels]. by rewrite labelsFor_node.
      * apply list_elem_of_bind. exists n. split; [done|]. by apply list_elem_of_filter.
Qed.

(** An object is named after its node and carries its labels. *)
Lemma renders_named n fs opts ac :
  renders n fs opts ac → name (refOf ac) = NodeName n ∧ labelsOf ac = labelsFor n opts.
Proof.
  unfold renders. case_decide; [by intros ->|]. intros [->|(q & Hq & ->)].
  - apply queue_labels.
  - unfold renderLocalQueues in Hq. by apply list_elem_of_fmap in Hq as (ns & -> & _).
Qed.

(** The objects written are distinct. *)
Lemma writesOf_NoDup (plan : BackendPlan Q) fs opts :
  NoDup (NodeName <$> Write plan) → NoDup (EnrolledNamespaces opts) →
  NoDup (refOf ∘ snd <$> writesOf (Render plan fs opts)).
Proof.
  intros Hnd Hns. unfold writesOf. destruct (Render_fold plan fs opts) as (-> & -> & ->).
  set (coh := filter (λ n, isCohort n) (Write plan)). set (cqs := filter (λ n, ¬ isCohort n) (Write plan)).
  assert (NoDup (NodeName <$> coh) ∧ NoDup (NodeName <$> cqs)) as [Hcoh Hcqs].
  { split; eauto with ome. }
  set (lqs := cqs ≫= _). rewrite !fmap_app, <-!list_fmap_compose.
  apply NoDup_app. split_and!; [| |apply NoDup_app; split_and!].
  - apply (NoDup_fmap_1 name). rewrite <-list_fmap_compose. exact Hcoh.
  - intros ref (n & -> & _)%list_elem_of_fmap [(m & E & _)%list_elem_of_fmap|(m & E & _)%list_elem_of_fmap]%elem_of_app;
      cbn in E; discriminate.
  - apply (NoDup_fmap_1 name). rewrite <-list_fmap_compose.
    erewrite list_fmap_ext; [exact Hcqs|]. intros i n _. apply queue_labels.
  - intros ref (n & -> & _)%list_elem_of_fmap (m & E & _)%list_elem_of_fmap. cbn in E. discriminate.
  - unfold lqs. revert Hcqs. generalize cqs. clear - Hns. intros cqs Hcqs.
    induction cqs as [|n cqs IH]; [constructor|]. rewrite fmap_cons in Hcqs. apply NoDup_cons in Hcqs as [Hn Hnd].
    cbn [mbind list_bind]. rewrite fmap_app. apply NoDup_app. split_and!; [| |by apply IH].
    + unfold renderLocalQueues. rewrite <-list_fmap_compose. apply NoDup_fmap_on; [|by apply NoDup_sort_slice].
      intros x y _ _ E. cbn in E. congruence.
    + intros ref (q & -> & (ns & -> & _)%list_elem_of_fmap)%list_elem_of_fmap.
      intros (q' & E & (n' & (ns' & -> & _)%list_elem_of_fmap & Hn')%list_elem_of_bind)%list_elem_of_fmap.
      apply Hn. cbn in E. injection E as E _. rewrite E. by apply list_elem_of_fmap_2.
Qed.
End rendered.

(** ** Materializing a plan *)

Section plan.
Context {Q W : Type} `{QuantityOps Q} `{!ParsedZero Q} `{!KueueClient Q W} `{!KueueWorld Q W}.
Implicit Types (opts : KueueOptions Q) (w : W) (ref : objectRef) (ac : applied Q).

Abbreviation placed w ac := (∃ o, content w !! refOf ac = Some o ∧ carries o ac ∧ labelsOf ac ⊆ object_labels o).

(** What a node with budgets in absent flavors reports. *)
Definition flavorMissing (missing : list string) : NodeOutcome :=
  mkNodeOutcome AcceleratorQuotaReasonFlavorMissing
    (Sprintf "no ResourceFlavor named %v on this cluster; those budgets are not materialized" [AStrs missing]).

Lemma noteSkipped_loop (m : gmap string (list string)) k missing :
  m !! k = Some missing →
  OutcomeOf (foldl noteSkipped (mkBackendResult 0 ∅) (map_to_list m)) !! k = Some (flavorMissing missing).
Proof.
  intros Hk. pose proof (NoDup_fst_map_to_list m) as Hnd. apply elem_of_map_to_list in Hk. revert Hnd Hk.
  generalize (map_to_list m). intros l Hnd Hk.
  assert (∀ r, OutcomeOf r !! k = None → OutcomeOf (foldl noteSkipped r l) !! k = Some (flavorMissing missing)) as Hgen;
    [|by apply Hgen].
  assert (∀ l' r o, OutcomeOf r !! k = Some o → OutcomeOf (foldl noteSkipped r l') !! k = Some o) as Hkeep.
  { intros l'. induction l' as [|x l' IH]; intros r o Ho; [done|]. cbn [foldl]. apply IH. by apply Note_keeps. }
  induction l as [|[k' miss'] l IH]; intros r Hr; [by apply elem_of_nil in Hk|].
  rewrite fmap_cons in Hnd. apply NoDup_cons in Hnd as [Hn Hnd]. cbn [foldl fst] in *.
  apply elem_of_cons in Hk as [[= -> ->]|Hk].
  - apply Hkeep. unfold noteSkipped, Note. cbn [fst snd]. rewrite decide_False by (rewrite Hr; by intros []).
    apply lookup_insert_eq.
  - apply IH; [done|done|]. unfold noteSkipped, Note. cbn [fst snd]. case_decide; [done|]. cbn [OutcomeOf].
    rewrite lookup_insert_ne; [done|]. intros ->. apply Hn, list_elem_of_fmap. by exists (k, missing).
Qed.

Lemma flavors_read w : content (flavors w).1 = content w ∧ (flavors w).2 ≠ Panic.
Proof.
  unfold flavors. pose proof (law_list_flavors w) as Hc. destruct (list_flavors w) as [w1 []]; by cbn.
Qed.

Lemma Materialize_effect opts w (plan : BackendPlan Q) w' res :
  NoDup (NodeName <$> Write plan) → NoDup (EnrolledNamespaces opts) →
  Materialize opts w plan = (w', res) →
  match res with
  | Panic => False
  | Err _ => content w' = content w
  | Ok r => ∃ fs, (flavors w).2 = Ok fs ∧
      (∀ ref, (∀ n ac, n ∈ Write plan → renders n fs opts ac → refOf ac ≠ ref) →
         content w' !! ref = content w !! ref) ∧
      (∀ ref, foreign opts w ref → content w' !! ref = content w !! ref) ∧
      (∀ n ac, n ∈ Write plan → renders n fs opts ac →
         placed w' ac ∨ is_Some (OutcomeOf r !! NodeName n)) ∧
      (∀ n, n ∈ Write plan → NodeRole n ≠ AcceleratorQuotaRoleCohort → (usableBudgets n fs).2 ≠ [] →
         OutcomeOf r !! NodeName n = Some (flavorMissing (usableBudgets n fs).2))
  end.
Proof.
  intros Hnd Hns. unfold Materialize. destruct (flavors_read w) as [Hc Hp].
  destruct (flavors w) as [w1 [fs|err|]]; cbn in Hc, Hp; [|by intros [= <- <-]|done].
  set (r0 := foldl noteSkipped _ _).
  pose proof (apply_loop opts w1 r0 _ (writesOf_NoDup plan fs opts Hnd Hns)) as Hloop.
  destruct (foldl _ (w1, r0) _) as [w2 r2]. intros [= <- <-]. exists fs.
  destruct Hloop as (Hother & Hfor & Hkeep & Hdone).
  unfold foreign in Hfor. rewrite Hc in Hother, Hfor. split_and!; [done| |done| |].
  - intros ref Hne. apply Hother. intros ([node ac] & -> & Hin)%list_elem_of_fmap.
    apply elem_of_writesOf in Hin as (n & Hn & _ & Hr). by eapply Hne.
  - intros n ac Hn Hr. apply Hdone, elem_of_writesOf. by exists n.
  - intros n Hn Hcoh Hsk. apply Hkeep, noteSkipped_loop. rewrite Render_skipped by done.
    destruct (list_find_elem_of (λ n0, NodeName n0 = NodeName n ∧ NodeRole n0 ≠ AcceleratorQuotaRoleCohort)
      (Write plan) n Hn) as [[i n'] Hf]; [done|].
    rewrite Hf. apply list_find_Some in Hf as (Hi & [Hname _] & _).
    apply list_elem_of_lookup_2 in Hi. rewrite (NoDup_fmap_elem NodeName _ n' n Hnd Hi Hn Hname).
    cbn. unfold renderClusterQueue. destruct (usableBudgets n fs) as [us sk]. cbn in *. by rewrite decide_False.
Qed.

(** ** The sweep *)

(** The node an object is labelled with. *)
Abbreviation nodeLabel labels := (default "" (labels !! AcceleratorQuotaNodeLabel)).

Lemma sweep_items keep items w d errs :
  NoDup (ListedRef <$> items) →
  let '(w', d', errs') := foldl (sweepOne keep) (w, d, errs) items in
  (∀ ref, (∀ x, x ∈ items → ListedRef x = ref → nodeLabel (ListedLabels x) ∈ keep) →
     content w' !! ref = content w !! ref) ∧
  ∃ es, errs' = errs ++ es ∧
    (es = [] → ∀ x, x ∈ items → nodeLabel (ListedLabels x) ∉ keep →
       ∀ o, content w' !! ListedRef x = Some o → terminating o).
Proof.
  revert w d errs. induction items as [|x items IH]; intros w d errs Hnd; cbn [foldl].
  { split; [done|]. exists []. rewrite app_nil_r. split; [done|]. intros _ x Hx. by apply elem_of_nil in Hx. }
  rewrite fmap_cons in Hnd. apply NoDup_cons in Hnd as [Hx Hnd]. unfold sweepOne at 2.
  destruct (decide (nodeLabel (ListedLabels x) ∈ keep)) as [Hin|Hin].
  { specialize (IH w d errs Hnd). destruct (foldl _ _ items) as [[w' d'] errs']. destruct IH as [IH1 (es & -> & IH2)].
    split; [intros ref Hall; apply IH1; intros y Hy; apply Hall; by right|].
    exists es. split; [done|]. intros Hes y [->|Hy]%elem_of_cons Hk; [done|by apply IH2]. }
  destruct (law_delete w (ListedRef x)) as [Hother Hgone]. unfold deleteObject.
  destruct (delete_object w (ListedRef x)) as [w1 answer]. cbn [fst snd] in Hother, Hgone.
  assert (∀ d1 errs1 e1, errs1 = errs ++ e1 →
    (e1 = [] → ∀ o, content w1 !! ListedRef x = Some o → terminating o) →
    let '(w', d', errs') := foldl (sweepOne keep) (w1, d1, errs1) items in
    (∀ ref, (∀ y, y ∈ x :: items → ListedRef y = ref → nodeLabel (ListedLabels y) ∈ keep) →
       content w' !! ref = content w !! ref) ∧
    ∃ es, errs' = errs ++ es ∧
      (es = [] → ∀ y, y ∈ x :: items → nodeLabel (ListedLabels y) ∉ keep →
         ∀ o, content w' !! ListedRef y = Some o → terminating o)) as Hgen.
  { intros d1 errs1 e1 -> Ht. specialize (IH w1 d1 (errs ++ e1) Hnd). destruct (foldl _ _ items) as [[w' d'] errs'].
    destruct IH as [IH1 (es & -> & IH2)]. split.
    - intros ref Hall. rewrite IH1 by (intros y Hy; apply Hall; by right). apply Hother. intros ->.
      apply Hin, (Hall x); [left|done].
    - exists (e1 ++ es). rewrite app_assoc. split; [done|]. intros [-> ->]%app_eq_nil y [->|Hy]%elem_of_cons Hk.
      + intros o. rewrite IH1; [by apply Ht|]. intros z Hz E. destruct Hx. rewrite <-E. by apply list_elem_of_fmap_2.
      + by apply IH2. }
  destruct answer as [| |err].
  - apply (Hgen _ _ []); [by rewrite app_nil_r|by intros _].
  - apply (Hgen _ _ []); [by rewrite app_nil_r|by intros _].
  - by apply (Hgen _ _ [Sprintf "delete %T %s: %w" [AStr (kind (ListedRef x)); AStr (name (ListedRef x)); AStr err]]).
Qed.

(** The objects a sweep is to remove. *)
Definition orphan opts (keep : gset string) w ref : Prop :=
  ∃ o, content w !! ref = Some o ∧
    object_labels o !! AcceleratorQuotaManagedByLabel = Some (FieldManager opts) ∧
    nodeLabel (object_labels o) ∉ keep.

Lemma sweepKind_effect opts keep w d errs k :
  match sweepKind opts keep (w, d, errs) k with
  | Panic => False
  | Err (w', _, _) => content w' = content w
  | Ok (w', _, errs') =>
      (∀ ref, ¬ (kind ref = k ∧ orphan opts keep w ref) → content w' !! ref = content w !! ref) ∧
      ∃ es, errs' = errs ++ es ∧
        (es = [] → ∀ ref, kind ref = k → orphan opts keep w ref →
           ∀ o, content w' !! ref = Some o → terminating o)
  end.
Proof.
  unfold sweepKind. destruct (law_list_kind w k AcceleratorQuotaManagedByLabel (FieldManager opts)) as [Hc Hl].
  destruct (list_kind w k _ _) as [w1 answer]. cbn [fst snd] in Hc, Hl. destruct answer as [items|err|err]; [| |done].
  - destruct Hl as [Hnd Hl]. pose proof (sweep_items keep items w1 d errs Hnd) as Hs.
    destruct (foldl _ _ items) as [[w2 d2] errs2]. destruct Hs as [Hs1 (es & -> & Hs2)]. rewrite Hc in Hs1. split.
    + intros ref Hno. apply Hs1. intros x (o & Ho & Hk & Hlab & Hman)%Hl <-.
      destruct (decide (nodeLabel (ListedLabels x) ∈ keep)) as [Hi|Hi]; [done|]. destruct Hno. split; [done|].
      exists o. by rewrite Hlab in *.
    + exists es. split; [done|]. intros Hes ref Hk (o & Ho & Hman & Hkeep).
      apply (Hs2 Hes (mkListed ref (object_labels o))); [|done]. apply Hl. by exists o.
  - rewrite Hc. split; [done|]. exists []. rewrite app_nil_r. split; [done|].
    intros _ ref Hk (o & Ho & _). by apply Hl in Ho.
Qed.

Lemma orphan_same opts keep w w' ref :
  content w' !! ref = content w !! ref → orphan opts keep w' ref ↔ orphan opts keep w ref.
Proof. intros E. unfold orphan. by rewrite E. Qed.

Lemma sweep_kinds opts keep ks w d errs :
  NoDup ks →
  match ofold (sweepKind opts keep) (w, d, errs) ks with
  | Panic => False
  | Err (w', _, _) => ∀ ref, ¬ (kind ref ∈ ks ∧ orphan opts keep w ref) → content w' !! ref = content w !! ref
  | Ok (w', _, errs') =>
      (∀ ref, ¬ (kind ref ∈ ks ∧ orphan opts keep w ref) → content w' !! ref = content w !! ref) ∧
      ∃ es, errs' = errs ++ es ∧
        (es = [] → ∀ ref, kind ref ∈ ks → orphan opts keep w ref →
           ∀ o, content w' !! ref = Some o → terminating o)
  end.
Proof.
  revert w d errs. induction ks as [|k ks IH]; intros w d errs Hnd; cbn [ofold].
  { split; [done|]. exists []. rewrite app_nil_r. split; [done|]. intros _ ref Hk. by apply elem_of_nil in Hk. }
  apply NoDup_cons in Hnd as [Hk Hnd]. pose proof (sweepKind_effect opts keep w d errs k) as Hstep.
  destruct (sweepKind opts keep (w, d, errs) k) as [[[w1 d1] errs1]|[[w1 d1] err]|]; cbn [obind]; [| |done].
  2:{ intros ref _. by rewrite Hstep. }
  destruct Hstep as [Hs1 (e1 & -> & Hs2)]. specialize (IH w1 d1 (errs ++ e1) Hnd).
  assert (∀ w2, (∀ ref, ¬ (kind ref ∈ ks ∧ orphan opts keep w1 ref) → content w2 !! ref = content w1 !! ref) →
    ∀ ref, ¬ (kind ref ∈ k :: ks ∧ orphan opts keep w ref) → content w2 !! ref = content w !! ref) as Hframe.
  { intros w2 H2 ref Hno. assert (content w1 !! ref = content w !! ref) as E1.
    { apply Hs1. intros [Ek Ho]. apply Hno. split; [rewrite Ek; left|done]. }
    rewrite <-E1. apply H2. rewrite (orphan_same _ _ _ _ _ E1). intros [? ?]. apply Hno. split; [by right|done]. }
  destruct (ofold _ _ ks) as [[[w2 d2] errs2]|[[w2 d2] err]|]; [|by apply Hframe|done].
  destruct IH as [IH1 (es & -> & IH2)]. split; [by apply Hframe|].
  exists (e1 ++ es). rewrite app_assoc. split; [done|].
  intros [-> ->]%app_eq_nil ref [Hkr|Hin]%elem_of_cons Hor o.
  - rewrite IH1; [by apply Hs2|]. intros [Hin _]. congruence.
  - apply IH2; [done|done|]. rewrite (orphan_same _ _ w); [done|]. apply Hs1. intros [E _]. congruence.
Qed.

Abbreviation sweptKinds := ["LocalQueue"; "ClusterQueue"; "Cohort"].

Lemma Sweep_effect opts w keep :
  let '(w', _, err) := Sweep opts w keep in
  (∀ ref, ¬ (kind ref ∈ sweptKinds ∧ orphan opts keep w ref) → content w' !! ref = content w !! ref) ∧
  (err = None → ∀ ref, kind ref ∈ sweptKinds → orphan opts keep w ref →
     ∀ o, content w' !! ref = Some o → terminating o).
Proof.
  assert (NoDup sweptKinds) as Hnd by (apply (bool_decide_unpack _); vm_compute; exact I).
  unfold Sweep. pose proof (sweep_kinds opts keep sweptKinds w 0 [] Hnd) as Hk.
  destruct (ofold _ _ _) as [[[w' d] errs]|[[w' d] err]|]; [| |done].
  - destruct Hk as [Hk1 (es & -> & Hk2)]. cbn [app]. split; [done|]. destruct es; [|done]. by intros _; apply Hk2.
  - done.
Qed.

(** ** A pass *)

(** What the plan writes, holds and keeps. *)
Lemma planOf_spec (t : Tree Q) (frozen : gmap string Violation) :
  Write (planOf t frozen).1 = filter (λ n, frozen !! NodeName n = None ∧ Reachable n = true) (Nodes t) ∧
  (∀ k, k ∈ (planOf t frozen).2 ↔ k ∈ NodeName <$> Nodes t).
Proof.
  unfold planOf. refine (foldl_ind (planNode frozen) (λ pre st,
    Write st.1 = filter (λ n, frozen !! NodeName n = None ∧ Reachable n = true) pre ∧
    ∀ k, k ∈ st.2 ↔ k ∈ NodeName <$> pre) _ _ _ _).
  { split; [done|]. intros k. cbn. rewrite elem_of_nil. split; [by intros ?%elem_of_empty|done]. }
  intros pre n post [plan keep] _ [IHw IHk]. cbn [fst snd] in *. rewrite filter_app, filter_cons, filter_nil.
  assert (∀ k, k ∈ {[NodeName n]} ∪ keep ↔ k ∈ NodeName <$> pre ++ [n]) as Hkeep.
  { intros k. rewrite fmap_app, elem_of_app, elem_of_union, elem_of_singleton, IHk. cbn. rewrite list_elem_of_singleton. tauto. }
  unfold planNode. destruct (frozen !! NodeName n) as [v|] eqn:Ef; [|destruct (Reachable n) eqn:Er].
  - rewrite decide_True by eauto. rewrite decide_False by (by intros []). by rewrite app_nil_r.
  - rewrite decide_False by (by intros []). rewrite decide_True by done. cbn. by rewrite IHw.
  - rewrite decide_False by (by intros []). rewrite decide_False by (by intros []). by rewrite app_nil_r.
Qed.
End plan.
