(* ===== verification/KueueClaims.v ===== *)
(** * Enforcement through Kueue: the properties

    What is rendered for a leaf, what a materialization leaves behind, and what
    a whole pass of the controller guarantees for frozen nodes, other people's
    objects and orphans. *)

From S2P Require Import Prelude Quantity Api Violation Tree TreeFacts TreeBuild Usage.
From S2P Require Import Kueue KueueApply KueueFacts.
Local Open Scope Z_scope.

(** ** The resource group of a leaf *)

Section group.
Context {Q : Type} `{QuantityOps Q} `{!ParsedZero Q}.
Implicit Types (budgets : list (AcceleratorBudget Q)) (opts : KueueOptions Q).

(** The budget of a pair: the last listed. *)
Definition budgetFor budgets (r f : string) : option (AcceleratorBudget Q) :=
  last (filter (λ b, ResourceName b = r ∧ ResourceFlavor b = f) budgets).

Lemma byFlavor_lookup budgets f :
  (∀ r, default ∅ (foldl addBudget ∅ budgets !! f) !! r = budgetFor budgets r f) ∧
  (is_Some (foldl addBudget ∅ budgets !! f) ↔ f ∈ ResourceFlavor <$> budgets).
Proof.
  refine (foldl_ind addBudget (λ pre m,
    (∀ r, default ∅ (m !! f) !! r = budgetFor pre r f) ∧ (is_Some (m !! f) ↔ f ∈ ResourceFlavor <$> pre)) ∅ budgets _ _).
  { split; [done|]. rewrite lookup_empty, elem_of_nil. split; [by intros []|done]. }
  intros pre b post m _ [IH1 IH2]. unfold addBudget. rewrite fmap_app, elem_of_app. cbn. rewrite list_elem_of_singleton.
  destruct (decide (ResourceFlavor b = f)) as [<-|Hf].
  - rewrite lookup_insert_eq. split; [|split; [by right|by eexists]]. intros r. cbn [default from_option id].
    unfold budgetFor. rewrite filter_app, filter_cons, filter_nil. destruct (decide (ResourceName b = r)) as [<-|Hr].
    + rewrite decide_True, last_snoc by done. apply lookup_insert_eq.
    + rewrite decide_False, app_nil_r, lookup_insert_ne by tauto. apply IH1.
  - rewrite lookup_insert_ne by done. split; [|rewrite IH2; split; [by left|by intros [?| ->]]].
    intros r. rewrite IH1. unfold budgetFor. rewrite filter_app, filter_cons, filter_nil.
    by rewrite decide_False, app_nil_r by tauto.
Qed.

(** What one resource of one flavor is given: the cover, the authored budget
    with a borrowing limit in any case, or nothing at all. *)
Definition funded opts budgets (f : string) (q : ResourceQuota Q) : Prop :=
  match CoverResources opts !! RQName q with
  | Some cover => q = mkResourceQuota (RQName q) cover None None
  | None =>
      ∃ limit, RQBorrowing q = Some limit ∧
      match budgetFor budgets (RQName q) f with
      | Some b => NominalQuota q = Nominal b ∧ RQLending q = LendingLimit b ∧
                  q_value limit = from_option q_value 0%Qc (BorrowingLimit b)
      | None => q_value (NominalQuota q) = 0%Qc ∧ q_value limit = 0%Qc ∧ RQLending q = None
      end
  end.

(** A well-formed group: every flavor lists every covered resource. *)
Record groupFor opts budgets (g : ResourceGroup Q) : Prop := {
  gf_covered : StronglySorted (λ x y, str_lt x y = true) (RGCovered g);
  gf_resources r : r ∈ RGCovered g ↔ is_Some (CoverResources opts !! r) ∨ r ∈ ResourceName <$> budgets;
  gf_sorted : StronglySorted (λ x y, str_lt x y = true) (FQName <$> RGFlavors g);
  gf_flavors f : f ∈ FQName <$> RGFlavors g ↔ f ∈ ResourceFlavor <$> budgets;
  gf_rows fq : fq ∈ RGFlavors g → RQName <$> FQResources fq = RGCovered g;
  gf_funded fq q : fq ∈ RGFlavors g → q ∈ FQResources fq → funded opts budgets (FQName fq) q;
}.

Lemma RQName_resourceQuota r m opts : RQName (resourceQuota r m opts) = r.
Proof. unfold resourceQuota. destruct (CoverResources opts !! r); [done|]. by destruct (m !! r). Qed.

Lemma resourceQuota_funded `{!QuantityLaws Q} `{!ParsedZeroLaw Q} opts budgets r f m :
  (∀ r, m !! r = budgetFor budgets r f) → funded opts budgets f (resourceQuota r m opts).
Proof.
  intros Hm. unfold funded. rewrite RQName_resourceQuota. unfold resourceQuota.
  destruct (CoverResources opts !! r); [done|]. rewrite Hm.
  destruct (budgetFor budgets r f) as [b|]; cbn; eexists; (split; [done|]).
  - split_and!; [done..|]. destruct (BorrowingLimit b); [done|apply law_parsed_zero].
  - split_and!; [apply law_parsed_zero..|done].
Qed.

Lemma resourceGroup_spec `{!QuantityLaws Q} `{!ParsedZeroLaw Q} opts budgets :
  match resourceGroup budgets opts with
  | None => budgets = []
  | Some g => budgets ≠ [] ∧ groupFor opts budgets g
  end.
Proof.
  unfold resourceGroup. destruct budgets as [|b0 bs]; [done|]. set (budgets := b0 :: bs). split; [done|].
  assert (FQName <$> ((λ flavor, mkFlavorQuotas flavor ((λ name, resourceQuota name
      (default ∅ (foldl addBudget ∅ budgets !! flavor)) opts) <$> coveredResources budgets opts))
    <$> sorted_keys (foldl addBudget ∅ budgets)) = sorted_keys (foldl addBudget ∅ budgets)) as Hnames.
  { rewrite <-list_fmap_compose. apply list_fmap_id. }
  split; cbn [RGCovered RGFlavors].
  - apply sorted_strict; [apply _|apply NoDup_elements].
  - intros r. unfold coveredResources. rewrite elem_of_sort_slice, elem_of_elements, elem_of_union, elem_of_dom.
    by rewrite elem_of_list_to_set.
  - rewrite Hnames. apply sorted_keys_strict.
  - intros f. rewrite Hnames, elem_of_sorted_keys. apply byFlavor_lookup.
  - intros fq (f & -> & _)%list_elem_of_fmap. cbn [FQResources]. rewrite <-list_fmap_compose.
    erewrite list_fmap_ext; [apply list_fmap_id|]. intros i r _. apply RQName_resourceQuota.
  - intros fq q (f & -> & _)%list_elem_of_fmap (r & -> & _)%list_elem_of_fmap. cbn [FQName].
    apply resourceQuota_funded. apply byFlavor_lookup.
Qed.
End group.

(** The budgets of a node whose flavor exists; all of them when no flavor could
    be read. *)
Definition usable {Q} (n : Node Q) (fs : gset string) : list (AcceleratorBudget Q) :=
  filter (λ b, fs = ∅ ∨ ResourceFlavor b ∈ fs) (Budgets (Spec (Quota n))).

Lemma usableBudgets_spec {Q} (n : Node Q) fs :
  (usableBudgets n fs).1 = usable n fs ∧
  (usableBudgets n fs).2 ≡ₚ ResourceFlavor <$> filter (λ b, ¬ (fs = ∅ ∨ ResourceFlavor b ∈ fs)) (Budgets (Spec (Quota n))).
Proof.
  unfold usableBudgets, usable. destruct (decide (size fs = 0%nat)) as [Hz|Hz]; cbn [fst snd].
  - apply size_empty_inv in Hz. apply leibniz_equiv in Hz. split.
    + symmetry. apply filter_all. intros b _. by left.
    + rewrite filter_none; [done|]. intros b _ Hb. tauto.
  - assert (fs ≠ ∅) as Hne by (intros ->; by rewrite size_empty in Hz). split.
    + apply list_filter_iff. intros b. tauto.
    + rewrite sort_slice_perm. f_equiv. erewrite list_filter_iff; [done|]. intros b. cbn. tauto.
Qed.

(** What is rendered for the nodes a plan writes.  A grouping becomes a
    cohort under its parent and carries no quota of its own.  A leaf becomes one
    queue, which selects the enrolled namespaces, and one local queue in each
    of them.  A leaf with a usable budget has exactly one resource group, in
    which every flavor with a budget lists every covered or budgeted resource,
    in order and once; each is given the cover, the authored nominal, or
    nothing, and everything but the cover has a borrowing limit, zero unless
    authored: no leaf can hold what nobody granted it.  Budgets are left out
    exactly when their flavor is known not to exist. *)
Theorem Render_leaf {Q} `{QuantityOps Q} `{!QuantityLaws Q} `{!ParsedZero Q} `{!ParsedZeroLaw Q}
    (plan : BackendPlan Q) (fs : gset string) (opts : KueueOptions Q) (n : Node Q) :
  n ∈ Write plan → NoDup (NodeName <$> Write plan) →
  let objs := Render plan fs opts in
  (NodeRole n = AcceleratorQuotaRoleCohort →
     mkCohort (NodeName n) (labelsFor n opts) (named (parentName n)) ∈ Cohorts objs ∧
     ∀ q, q ∈ ClusterQueues objs → CQName q ≠ NodeName n) ∧
  (NodeRole n ≠ AcceleratorQuotaRoleCohort →
     ∃ q, (∀ q', q' ∈ ClusterQueues objs ∧ CQName q' = NodeName n ↔ q' = q) ∧
       CQCohort q = named (parentName n) ∧
       SValues <$> NamespaceSelector q = [sort_slice str_lt (EnrolledNamespaces opts)] ∧
       (∀ ns, mkLocalQueue (NodeName n) ns (labelsFor n opts) (NodeName n) ∈ LocalQueues objs ↔
          ns ∈ EnrolledNamespaces opts) ∧
       (usable n fs = [] → ResourceGroups q = []) ∧
       (usable n fs ≠ [] → ∃ g, ResourceGroups q = [g] ∧ groupFor opts (usable n fs) g) ∧
       default [] (Skipped objs !! NodeName n) ≡ₚ
         ResourceFlavor <$> filter (λ b, ¬ (fs = ∅ ∨ ResourceFlavor b ∈ fs)) (Budgets (Spec (Quota n)))).
Proof.
  intros Hn Hnd objs. unfold objs. destruct (Render_fold plan fs opts) as (Hco & Hcq & Hlq). rewrite Hco, Hcq, Hlq.
  assert (∀ m, m ∈ Write plan → NodeName m = NodeName n → m = n) as Huniq.
  { intros m Hm E. by apply (NoDup_fmap_elem NodeName (Write plan)). }
  split.
  { intros Hc. split.
    - apply list_elem_of_fmap. exists n. split; [done|]. by apply list_elem_of_filter.
    - intros q (m & -> & [Hm1 Hm2]%list_elem_of_filter)%list_elem_of_fmap.
      destruct (queue_labels m fs opts) as [-> _]. intros E. by rewrite (Huniq m Hm2 E) in Hm1. }
  intros Hc. exists (renderClusterQueue n fs opts).1. destruct (usableBudgets_spec n fs) as [Hu Hs].
  pose proof (Render_skipped plan fs opts (NodeName n) Hnd) as Hsk. split_and!.
  - intros q'. split.
    + intros [(m & -> & [Hm1 Hm2]%list_elem_of_filter)%list_elem_of_fmap E].
      destruct (queue_labels m fs opts) as [E' _]. rewrite E' in E. by rewrite (Huniq m Hm2 E).
    + intros ->. split; [|apply queue_labels]. apply list_elem_of_fmap. exists n. split; [done|]. by apply list_elem_of_filter.
  - unfold renderClusterQueue. by destruct (usableBudgets n fs).
  - unfold renderClusterQueue. by destruct (usableBudgets n fs).
  - intros ns. rewrite list_elem_of_bind. split.
    + intros (m & (ns' & E & Hns)%list_elem_of_fmap & _). injection E as _ -> _. by apply elem_of_sort_slice in Hns.
    + intros Hns. exists n. split; [|by apply list_elem_of_filter]. apply list_elem_of_fmap. exists ns.
      split; [done|]. by apply elem_of_sort_slice.
  - intros E. unfold renderClusterQueue. destruct (usableBudgets n fs) as [us sk]. cbn in *. rewrite Hu, E. done.
  - intros E. unfold renderClusterQueue. destruct (usableBudgets n fs) as [us sk]. cbn in *. rewrite Hu.
    pose proof (resourceGroup_spec opts (usable n fs)) as Hg. destruct (resourceGroup (usable n fs) opts) as [g|]; [|done].
    exists g. split; [done|]. apply Hg.
  - rewrite Hsk, <-Hs. destruct (list_find_elem_of (λ m, NodeName m = NodeName n ∧ NodeRole m ≠ AcceleratorQuotaRoleCohort)
      (Write plan) n Hn) as [[i m] Hf]; [done|]. rewrite Hf. apply list_find_Some in Hf as (Hi & [E _] & _). cbn.
    rewrite (Huniq m) by (try done; apply list_elem_of_lookup; eauto).
    unfold renderClusterQueue. destruct (usableBudgets n fs) as [us sk]. cbn [snd].
    by destruct (decide (sk = [])) as [->|].
Qed.

(** ** A simulated cluster *)

(** Objects with their labels and what was last applied, and the references no
    call reaches. *)
Record simWorld := mkSim {
  sim_objects : gmap objectRef (gmap string string * option (applied decimal));
  sim_flavors : list string;
  sim_down : gset objectRef;
}.

Definition sim_set (w : simWorld) (os : gmap objectRef (gmap string string * option (applied decimal))) : simWorld :=
  mkSim os (sim_flavors w) (sim_down w).

#[export] Instance sim_client : KueueClient decimal simWorld := {
  list_flavors w := (w, Listed (sim_flavors w));
  get_labels w ref := (w, if decide (ref ∈ sim_down w) then GetFailed "timeout" else
    match sim_objects w !! ref with Some o => Found o.1 | None => NotFound end);
  apply_config w _ ac := if decide (refOf ac ∈ sim_down w) then (w, Some "timeout") else
    (sim_set w (<[refOf ac := (labelsOf ac ∪ default ∅ (fst <$> sim_objects w !! refOf ac), Some ac)]> (sim_objects w)), None);
  delete_object w ref := if decide (ref ∈ sim_down w) then (w, DeleteFailed "timeout") else
    (sim_set w (delete ref (sim_objects w)), Deleted);
  list_kind w k label value := (w, Listed ((λ e, mkListed e.1 e.2.1) <$>
    filter (λ e, kind e.1 = k ∧ e.2.1 !! label = Some value) (map_to_list (sim_objects w))));
  list_queues w _ _ := (w, Listed []);
}.

#[export] Instance sim_world : KueueWorld decimal simWorld.
Proof.
  refine {| content := sim_objects; object_labels := fst; carries o ac := o.2 = Some ac; terminating _ := False |}.
  - done.
  - intros w ref. split; [done|]. cbn. case_decide; [done|]. destruct (sim_objects w !! ref) as [o|]; [|done]. by exists o.
  - intros w manager ac. cbn. case_decide; cbn; [done|]. split.
    + intros ref Hne. by apply lookup_insert_ne.
    + intros _. eexists. rewrite lookup_insert_eq. split; [done|]. split; [done|]. cbn. apply map_union_subseteq_l.
  - intros w ref. cbn. case_decide; cbn; [done|]. split.
    + intros ref' Hne. by apply lookup_delete_ne.
    + intros o. by rewrite lookup_delete_eq.
  - intros w k label value. split; [done|]. cbn. split.
    + rewrite <-list_fmap_compose. eapply sublist_NoDup; [apply (NoDup_fst_map_to_list (sim_objects w))|].
      apply fmap_sublist, sublist_filter.
    + intros x. rewrite list_elem_of_fmap. split.
      * intros ([ref o] & -> & [[Hk Hl] Ho%elem_of_map_to_list]%list_elem_of_filter). by exists o.
      * intros (o & Ho & Hk & Hl & Hv). exists (ListedRef x, o). destruct x as [ref labels]. cbn in *. subst labels.
        split; [done|]. apply list_elem_of_filter. split; [done|]. by apply elem_of_map_to_list.
Defined.

Definition kueue_options : KueueOptions decimal := mkKueueOptions "ome" {["cpu" := dec 1000]} ["team"].
Definition kueue_tree : Tree decimal :=
  match Build sample_fleet (mkOptions "root" 3) with Ok (t, _) => t | _ => mkTree None ∅ end.
Lemma kueue_tree_built : Build sample_fleet (mkOptions "root" 3) = Ok (kueue_tree, []).
Proof. vm_compute. reflexivity. Qed.

(** A stranger's queue has the name of one of ours, and one orphan is left. *)
Definition kueue_cluster : simWorld :=
  mkSim {[mkRef "ClusterQueue" "a" "" := (∅, None);
          mkRef "LocalQueue" "gone" "team" :=
            ({[AcceleratorQuotaManagedByLabel := "ome"; AcceleratorQuotaNodeLabel := "gone"]}, None)]}
    ["v5"] ∅.

Example pass_outcomes :
  match (materialize kueue_options kueue_cluster kueue_tree ∅).1.2 with
  | Some o => map_to_list (Reason <$> o) | None => [] end = [("a", AcceleratorQuotaReasonObjectConflict)].
Proof. vm_compute. reflexivity. Qed.

Lemma Render_leaf_witness :
  ∃ n, nodes kueue_tree !! "a" = Some n ∧
    let objs := Render (mkBackendPlan [n] ∅) {["v5"]} kueue_options in
    ∃ q, (∀ q', q' ∈ ClusterQueues objs ∧ CQName q' = "a" ↔ q' = q) ∧
      ∃ g, ResourceGroups q = [g] ∧ groupFor kueue_options (usable n {["v5"]}) g.
Proof.
  destruct (nodes kueue_tree !! "a") as [n|] eqn:E; [|exfalso; revert E; vm_compute; discriminate].
  exists n. split; [reflexivity|].
  assert (NodeName n = "a" ∧ NodeRole n = "ClusterQueue" ∧ usable n {["v5"]} = [sample_budget 1]) as (Hnm & Hrole & Hu)
    by (revert E; vm_compute; intros [= <-]; done).
  destruct (Render_leaf (mkBackendPlan [n] ∅) {["v5"]} kueue_options n) as [_ Hleaf].
  - left.
  - apply NoDup_singleton.
  - destruct Hleaf as (q & Hq & _ & _ & _ & _ & Hg & _); [rewrite Hrole; discriminate|].
    rewrite Hnm in Hq. exists q. split; [exact Hq|]. apply Hg. rewrite Hu. discriminate.
Defined.

(** ** The pass *)

Section pass.
Context {Q W : Type} `{QuantityOps Q} `{!ParsedZero Q} `{!KueueClient Q W} `{!KueueWorld Q W}.
Context (opts : KueueOptions Q) (t : Tree Q) (frozen : gmap string Violation).
Context (Hkeyed : node_keyed t) (Hns : NoDup (EnrolledNamespaces opts)).
Implicit Types (w : W) (ref : objectRef).

(** The nodes a pass writes. *)
Definition written (n : Node Q) : Prop :=
  nodes t !! NodeName n = Some n ∧ frozen !! NodeName n = None ∧ Reachable n = true.

Lemma elem_of_Write n : n ∈ Write (planOf t frozen).1 ↔ written n.
Proof.
  destruct (planOf_spec t frozen) as [-> _]. rewrite list_elem_of_filter, elem_of_Nodes by done. unfold written. tauto.
Qed.

Lemma NoDup_Write : NoDup (NodeName <$> Write (planOf t frozen).1).
Proof.
  destruct (planOf_spec t frozen) as [-> _]. apply NoDup_fmap_filter, (NoDup_Nodes_names t Hkeyed).
Qed.

Lemma elem_of_keep k : k ∈ (planOf t frozen).2 ↔ is_Some (nodes t !! k).
Proof. destruct (planOf_spec t frozen) as [_ ->]. by rewrite (Nodes_names t Hkeyed), elem_of_sorted_keys. Qed.

(** A pass is a materialization, unchanged or followed by a sweep. *)
Lemma materialize_cases w w' outcomes err :
  materialize opts w t frozen = (w', outcomes, err) →
  (outcomes = None ∧ err ≠ None ∧ content w' = content w) ∨
  ∃ w1 r fs, outcomes = Some (OutcomeOf r) ∧ (flavors w).2 = Ok fs ∧
    (∀ ref, (∀ n ac, written n → renders n fs opts ac → refOf ac ≠ ref) → content w1 !! ref = content w !! ref) ∧
    (∀ ref, foreign opts w ref → content w1 !! ref = content w !! ref) ∧
    (∀ n ac, written n → renders n fs opts ac →
       (∃ o, content w1 !! refOf ac = Some o ∧ carries o ac ∧ labelsOf ac ⊆ object_labels o) ∨
       is_Some (OutcomeOf r !! NodeName n)) ∧
    (∀ ref, ¬ (kind ref ∈ ["LocalQueue"; "ClusterQueue"; "Cohort"] ∧ orphan opts (planOf t frozen).2 w1 ref) →
       content w' !! ref = content w1 !! ref) ∧
    (err = None → ∀ ref, kind ref ∈ ["LocalQueue"; "ClusterQueue"; "Cohort"] →
       orphan opts (planOf t frozen).2 w1 ref → ∀ o, content w' !! ref = Some o → terminating o).
Proof using Hkeyed Hns.
  unfold materialize. pose proof NoDup_Write as Hnd. pose proof elem_of_Write as Hw.
  destruct (planOf t frozen) as [plan keep]. cbn [fst snd] in *.
  destruct (Materialize opts w plan) as [w1 res] eqn:Em.
  pose proof (Materialize_effect opts w plan w1 res Hnd Hns Em) as He. destruct res as [r|e|]; [| |done].
  - destruct He as (fs & Hfs & H1 & H2 & H3 & _). setoid_rewrite Hw in H1. setoid_rewrite Hw in H3.
    pose proof (Sweep_effect opts w1 keep) as Hs. destruct (Sweep opts w1 keep) as [[w2 d] serr].
    intros E. right. exists w1, r, fs. destruct Hs as [Hs1 Hs2].
    destruct serr as [serr|]; injection E as <- <- <-; split_and!; try done. intros _. by apply Hs2.
  - intros [= <- <- <-]. left. done.
Qed.

Lemma foreign_not_orphan keep w w1 ref :
  foreign opts w ref → content w1 !! ref = content w !! ref → ¬ orphan opts keep w1 ref.
Proof. intros (o & Ho & Hl) E (o' & Ho' & Hm & _). rewrite E, Ho in Ho'. injection Ho' as <-. by rewrite Hm in Hl. Qed.
End pass.

(** C39: A pass writes everything it should or says why not, and takes over
    nothing.  Whatever calls fail: an object somebody else manages is left as it
    was; a pass that reports no outcomes at all failed as a whole and changed
    nothing; and otherwise every object rendered for a node that is neither
    frozen nor out of the tree is in the cluster, with the fields and labels it
    was rendered with, or that node has an outcome to report. *)
Theorem pass_writes {Q W} `{QuantityOps Q} `{!ParsedZero Q} `{!KueueClient Q W} `{!KueueWorld Q W}
    (quotas : list (AcceleratorQuota Q)) (bopts : Options) (t : Tree Q) (vs : Violations) (opts : KueueOptions Q)
    (frozen : gmap string Violation) (w w' : W) outcomes err :
  Build quotas bopts = Ok (t, vs) → NoDup (EnrolledNamespaces opts) →
  materialize opts w t frozen = (w', outcomes, err) →
  (∀ ref, foreign opts w ref → content w' !! ref = content w !! ref) ∧
  (outcomes = None → err ≠ None ∧ content w' = content w) ∧
  (∀ out, outcomes = Some out → ∃ fs, (flavors w).2 = Ok fs ∧
     ∀ n ac, written t frozen n → renders n fs opts ac →
       (∃ o, content w' !! refOf ac = Some o ∧ carries o ac ∧ labelsOf ac ⊆ object_labels o) ∨
       is_Some (out !! NodeName n)).
Proof.
  intros (_ & B)%Build_inv Hns Hp. pose proof (shaped_keyed _ _ (bu_shaped _ _ _ _ B)) as Hk.
  destruct (materialize_cases opts t frozen Hk Hns w w' outcomes err Hp)
    as [(-> & He & Hc)|(w1 & r & fs & -> & Hfs & H1 & H2 & H3 & H4 & H5)].
  { split_and!; [by rewrite Hc|done|done]. }
  split_and!; [|done|].
  - intros ref Hf. rewrite <-(H2 ref Hf). apply H4. intros [_ Ho].
    exact (foreign_not_orphan opts _ w w1 ref Hf (H2 ref Hf) Ho).
  - intros out [= <-]. exists fs. split; [done|]. intros n ac Hn Hr.
    destruct (H3 n ac Hn Hr) as [(o & Ho & Hca & Hl)|?]; [left|by right]. exists o. split; [|done].
    rewrite H4; [done|]. intros [_ (o' & Ho' & _ & Hkeep)]. apply Hkeep, (elem_of_keep t frozen Hk).
    rewrite Ho in Ho'. injection Ho' as <-. destruct (renders_named n fs opts ac Hr) as [_ El].
    assert (object_labels o !! AcceleratorQuotaNodeLabel = Some (NodeName n)) as ->
      by (eapply lookup_weaken; [apply labelsFor_node|by rewrite <-El]).
    cbn. exists n. apply Hn.
Qed.

Lemma pass_writes_witness :
  let '(w', out, err) := materialize kueue_options kueue_cluster kueue_tree ∅ in
  content w' !! mkRef "ClusterQueue" "a" "" = content kueue_cluster !! mkRef "ClusterQueue" "a" "" ∧
  (out = None → err ≠ None ∧ content w' = content kueue_cluster).
Proof.
  destruct (materialize kueue_options kueue_cluster kueue_tree ∅) as [[w' out] err] eqn:E.
  destruct (pass_writes sample_fleet (mkOptions "root" 3) kueue_tree [] kueue_options ∅ kueue_cluster w' out err
    kueue_tree_built) as (Hf & Hn & _).
  - apply NoDup_singleton.
  - exact E.
  - split; [|exact Hn]. apply Hf. exists (∅, None). split; [reflexivity|]. cbn. discriminate.
Defined.

(** C40: What a pass holds on to and what it lets go.  A frozen node, or one
    without a place in the tree, keeps its objects exactly as they are, however
    the pass goes: an object changes only when it is rendered for a node that is
    written, or is an orphan.  And a pass that ends without an error leaves no
    queue or cohort of ours that belongs to no node of the tree, other than
    ones already terminating. *)
Theorem pass_holds {Q W} `{QuantityOps Q} `{!ParsedZero Q} `{!KueueClient Q W} `{!KueueWorld Q W}
    (quotas : list (AcceleratorQuota Q)) (bopts : Options) (t : Tree Q) (vs : Violations) (opts : KueueOptions Q)
    (frozen : gmap string Violation) (w w' : W) outcomes err :
  Build quotas bopts = Ok (t, vs) → NoDup (EnrolledNamespaces opts) →
  materialize opts w t frozen = (w', outcomes, err) →
  (∀ ref o n, content w !! ref = Some o → nodes t !! name ref = Some n → ¬ written t frozen n →
     is_Some (nodes t !! default "" (object_labels o !! AcceleratorQuotaNodeLabel)) →
     content w' !! ref = Some o) ∧
  (∀ ref, (∀ n, written t frozen n → NodeName n ≠ name ref) →
     ¬ orphan opts (planOf t frozen).2 w ref → content w' !! ref = content w !! ref) ∧
  (err = None → ∀ ref o, content w' !! ref = Some o → kind ref ∈ ["LocalQueue"; "ClusterQueue"; "Cohort"] →
     object_labels o !! AcceleratorQuotaManagedByLabel = Some (FieldManager opts) →
     is_Some (nodes t !! default "" (object_labels o !! AcceleratorQuotaNodeLabel)) ∨ terminating o).
Proof.
  intros (_ & B)%Build_inv Hns Hp. pose proof (shaped_keyed _ _ (bu_shaped _ _ _ _ B)) as Hk.
  assert (∀ ref, (∀ n, written t frozen n → NodeName n ≠ name ref) →
    ¬ orphan opts (planOf t frozen).2 w ref → content w' !! ref = content w !! ref) as Hframe.
  { intros ref Hno Hor. destruct (materialize_cases opts t frozen Hk Hns w w' outcomes err Hp)
      as [(_ & _ & ->)|(w1 & r & fs & -> & Hfs & H1 & H2 & H3 & H4 & H5)]; [done|].
    assert (content w1 !! ref = content w !! ref) as E1.
    { apply H1. intros n ac Hn Hr <-. destruct (renders_named n fs opts ac Hr) as [Enm _]. by apply (Hno n Hn). }
    rewrite H4; [done|]. intros [_ Ho]. apply Hor. by rewrite <-(orphan_same opts _ w w1 ref E1). }
  split_and!; [|done|].
  - intros ref o n Ho Hn Hnw Hlab. rewrite Hframe; [done| |].
    + intros m Hm E. apply Hnw. destruct Hm as (Hm & Hrest). rewrite E, Hn in Hm. injection Hm as ->.
      split; [by rewrite E|exact Hrest].
    + intros (o' & Ho' & _ & Hkeep). rewrite Ho in Ho'. injection Ho' as <-. by apply Hkeep, (elem_of_keep t frozen Hk).
  - intros -> ref o Ho Hkind Hman. destruct (materialize_cases opts t frozen Hk Hns w w' outcomes None Hp)
      as [(_ & He & _)|(w1 & r & fs & -> & Hfs & H1 & H2 & H3 & H4 & H5)]; [done|].
    destruct (decide (is_Some (nodes t !! default "" (object_labels o !! AcceleratorQuotaNodeLabel)))) as [Hs|Hs];
      [by left|right].
    destruct (content w1 !! ref) as [o1|] eqn:E1; [|rewrite H4, E1 in Ho; [done|by intros [_ (? & ? & _)]; congruence]].
    destruct (decide (object_labels o1 !! AcceleratorQuotaManagedByLabel = Some (FieldManager opts) ∧
      default "" (object_labels o1 !! AcceleratorQuotaNodeLabel) ∉ (planOf t frozen).2)) as [Hd|Hd].
    + eapply H5; [done|done| |exact Ho]. by exists o1.
    + exfalso. rewrite H4, E1 in Ho.
      * injection Ho as ->. apply Hd. split; [done|]. by rewrite (elem_of_keep t frozen Hk).
      * intros [_ (o' & Ho' & Hrest)]. rewrite E1 in Ho'. injection Ho' as <-. by apply Hd.
Qed.

(** With [org] frozen, the queues below it and their objects stay. *)
Definition held_cluster : simWorld :=
  mkSim {[mkRef "Cohort" "org" "" :=
            ({[AcceleratorQuotaManagedByLabel := "ome"; AcceleratorQuotaNodeLabel := "org"]}, None)]} ["v5"] ∅.
Definition org_frozen : gmap string Violation := {["org" := noViolation; "a" := noViolation; "b" := noViolation]}.

Lemma pass_holds_witness :
  let '(w', out, err) := materialize kueue_options held_cluster kueue_tree org_frozen in
  content w' !! mkRef "Cohort" "org" "" = content held_cluster !! mkRef "Cohort" "org" "".
Proof.
  destruct (materialize kueue_options held_cluster kueue_tree org_frozen) as [[w' out] err] eqn:E.
  destruct (pass_holds sample_fleet (mkOptions "root" 3) kueue_tree [] kueue_options org_frozen held_cluster w' out err
    kueue_tree_built) as (Hf & _ & _).
  - apply NoDup_singleton.
  - exact E.
  - destruct (nodes kueue_tree !! "org") as [n|] eqn:En; [|exfalso; revert En; vm_compute; discriminate].
    apply (Hf (mkRef "Cohort" "org" "") _ n).
    + reflexivity.
    + exact En.
    + intros (_ & Hfr & _). revert Hfr. assert (NodeName n = "org") as -> by (revert En; vm_compute; intros [= <-]; reflexivity).
      vm_compute. discriminate.
    + change (is_Some (nodes kueue_tree !! "org")). rewrite En. exists n. reflexivity.
Defined.
