(* ===== verification/GangRoom.v ===== *)
(** * Room for a gang in a domain

    [scheduler/pkg/plugins/gangpack/nodes.go] and [gang.go]: which members of a
    gang fit which nodes, and whether the members still to place fit a domain
    together, decided by a bipartite matching grown by augmenting paths.

    The scheduler framework's own functions (taints, required node affinity,
    the request of a pod, affinity terms) are library code and are the fields
    of [SchedulerLib]; pods and nodes carry a part only those functions read. *)

From S2P Require Import Prelude Domains.
Local Open Scope Z_scope.

Definition podGroupLabel := "scheduling.x-k8s.io/pod-group".

Record Resource := mkResource {
  MilliCPU : Z; Memory : Z; EphemeralStorage : Z; AllowedPodNumber : Z; ScalarResources : gmap string Z;
}.
Definition zeroResource : Resource := mkResource 0 0 0 0 ∅.

(** [SP] and [SN] are what only the library reads of a pod and of a node. *)
Record Pod (SP : Type) := mkPod {
  PodName : string; PodNamespace : string; PodLabels : gmap string string; PodNodeName : string; PodRest : SP;
}.
Arguments mkPod {_}.
Arguments PodName {_}.
Arguments PodNamespace {_}.
Arguments PodLabels {_}.
Arguments PodNodeName {_}.
Arguments PodRest {_}.
Record KubeNode (SN : Type) := mkKubeNode {
  KubeName : string; KubeLabels : gmap string string; Cordoned : bool; KubeRest : SN;
}.
Arguments mkKubeNode {_}.
Arguments KubeName {_}.
Arguments KubeLabels {_}.
Arguments Cordoned {_}.
Arguments KubeRest {_}.

(** [framework.NodeInfo]: a nil pointer is [None]. *)
Record NodeInfo (SP SN : Type) := mkNodeInfo {
  InfoNode : option (KubeNode SN); InfoAllocatable : option Resource; InfoRequested : option Resource;
  InfoPods : list (option (Pod SP));
}.
Arguments mkNodeInfo {_ _}.
Arguments InfoNode {_ _}.
Arguments InfoAllocatable {_ _}.
Arguments InfoRequested {_ _}.
Arguments InfoPods {_ _}.

Class SchedulerLib (SP SN : Type) := {
  (** no [NoSchedule] or [NoExecute] taint of the node is untolerated *)
  tolerated : KubeNode SN → Pod SP → bool;
  (** [GetRequiredNodeAffinity(pod).Match(node)]; [None] is an error *)
  affinity_match : Pod SP → KubeNode SN → option bool;
  (** [NewResource] of [PodRequests] *)
  pod_requests : Pod SP → Resource;
  (** [SetMaxResource] with [PodRequests] *)
  set_max_resource : Resource → Pod SP → Resource;
  (** whether a required anti-affinity term of the first matches the second;
      [None] when the terms cannot be read *)
  anti_affinity : Pod SP → option (list (Pod SP → bool));
}.

Section model.
Context {SP SN : Type} `{!SchedulerLib SP SN}.
Implicit Types (pod : option (Pod SP)) (pods : list (option (Pod SP))) (info : NodeInfo SP SN).

(** ** Nodes and pods *)

Definition domainOf (node : option (KubeNode SN)) (topologyKey : string) : string :=
  match node with None => "" | Some n => default "" (KubeLabels n !! topologyKey) end.

Definition nodeSchedulable (node : KubeNode SN) (p : Pod SP) : bool :=
  if Cordoned node then false else tolerated node p.

Definition nodeFitsPod info pod : bool :=
  match InfoNode info, InfoAllocatable info, InfoRequested info, pod with
  | Some node, Some allocatable, Some requested, Some p =>
      if negb (nodeSchedulable node p) then false
      else if decide (PodNodeName p ≠ "" ∧ PodNodeName p ≠ KubeName node) then false
      else match affinity_match p node with
           | Some true =>
               let req := pod_requests p in
               if decide (i64 (MilliCPU allocatable - MilliCPU requested) < MilliCPU req ∨
                          i64 (Memory allocatable - Memory requested) < Memory req ∨
                          i64 (EphemeralStorage allocatable - EphemeralStorage requested) < EphemeralStorage req ∨
                          AllowedPodNumber allocatable ≤ Z.of_nat (length (InfoPods info))) then false
               else forallb (λ e, negb (i64 (default 0 (ScalarResources allocatable !! e.1)
                                       - default 0 (ScalarResources requested !! e.1)) <? e.2))
                      (map_to_list (ScalarResources req))
           | _ => false
           end
  | _, _, _, _ => false
  end.

Definition podGroupNameOf pod : option (string * string) :=
  match pod with
  | None => None
  | Some p => let name := default "" (PodLabels p !! podGroupLabel) in
              if decide (name = "") then None else Some (PodNamespace p, name)
  end.

Record boundGangPlacement := mkBound {
  bgDomain : string; bgCount : Z; bgSplit : bool; bgPlaced : gmap string (Pod SP);
}.

(** One pod of a node in domain [dom]. *)
Definition inspectPod (ns pgName dom : string) (result : boundGangPlacement) (mp : option (Pod SP))
    : boundGangPlacement :=
  match mp with
  | None => result
  | Some p =>
      if decide (PodNamespace p = ns ∧ default "" (PodLabels p !! podGroupLabel) = pgName) then
        let placed := <[PodName p := p]> (bgPlaced result) in
        if decide (dom = "") then mkBound (bgDomain result) (i64 (bgCount result + 1)) true placed
        else mkBound dom (i64 (bgCount result + 1))
               (bgSplit result || bool_decide (bgDomain result ≠ "" ∧ bgDomain result ≠ dom)) placed
      else result
  end.

Definition inspectNode (ns pgName topologyKey : string) (result : boundGangPlacement) info : boundGangPlacement :=
  match InfoNode info with
  | None => result
  | Some n => foldl (inspectPod ns pgName (domainOf (Some n) topologyKey)) result (InfoPods info)
  end.

Definition inspectBoundGangMembers (nodeInfos : list (NodeInfo SP SN)) pod (topologyKey : string) : boundGangPlacement :=
  match podGroupNameOf pod with
  | None => mkBound "" 0 false ∅
  | Some (ns, pgName) => foldl (inspectNode ns pgName topologyKey) (mkBound "" 0 false ∅) nodeInfos
  end.

Definition countFree (topologyKey : string) pod (out : FreeByDomain) info : FreeByDomain :=
  let dom := domainOf (InfoNode info) topologyKey in
  if decide (dom = "") then out
  else let seen := default 0 (out !! dom) in
       <[dom := if nodeFitsPod info pod then i64 (seen + 1) else seen]> out.

Definition freeByDomain (nodeInfos : list (NodeInfo SP SN)) (topologyKey : string) pod : FreeByDomain :=
  foldl (countFree topologyKey pod) ∅ nodeInfos.

(** ** How many members a node holds *)

Definition boundCopies (copies free perCopy : Z) : Z :=
  if decide (perCopy ≤ 0 ∨ copies ≤ 0) then copies
  else if decide (free < i64 (perCopy * copies)) then Z.max free 0 `quot` perCopy
  else copies.

Definition copiesThatFit info (request : Resource) : Z :=
  let allocatable := default zeroResource (InfoAllocatable info) in
  let requested := default zeroResource (InfoRequested info) in
  let copies := i64 (AllowedPodNumber allocatable - Z.of_nat (length (InfoPods info))) in
  let copies := boundCopies copies (i64 (MilliCPU allocatable - MilliCPU requested)) (MilliCPU request) in
  let copies := boundCopies copies (i64 (Memory allocatable - Memory requested)) (Memory request) in
  let copies := boundCopies copies (i64 (EphemeralStorage allocatable - EphemeralStorage requested))
                  (EphemeralStorage request) in
  foldl (λ copies e, boundCopies copies
      (i64 (default 0 (ScalarResources allocatable !! e.1) - default 0 (ScalarResources requested !! e.1))) e.2)
    copies (map_to_list (ScalarResources request)).

Definition membersMustStayApart pods : bool :=
  existsb (λ pod, match pod with
    | None => false
    | Some p => match anti_affinity p with
                | None => true
                | Some terms => existsb (λ term : Pod SP → bool, existsb (λ member : option (Pod SP),
                    match member with None => false | Some m => term m end) pods) terms
                end
    end) pods.

(** ** The room of a domain *)

Record gangRoom := mkGangRoom {
  grPods : list (option (Pod SP)); grNodes : list (NodeInfo SP SN);
  grFits : list (list bool); grRoom : list Z;
}.

(** One node: which pods fit it, and how many at once. *)
Definition roomOf (pods : list (option (Pod SP))) (perNode : Z) info : list bool * Z :=
  let fits := nodeFitsPod info <$> pods in
  let fitting := omap id (filter (λ pod, nodeFitsPod info pod = true) pods) in
  let largest := foldl set_max_resource zeroResource fitting in
  (fits, if decide (fitting = []) then 0 else Z.max 1 (Z.min perNode (copiesThatFit info largest))).

Definition newGangRoom (nodes : list (NodeInfo SP SN)) pods (need : Z) : gangRoom :=
  let perNode := if membersMustStayApart pods then 1 else need in
  let rooms := roomOf pods perNode <$> nodes in
  mkGangRoom pods nodes rooms.*1 rooms.*2.

Definition total (r : gangRoom) : Z := foldl (λ t room, i64 (t + room)) 0 (grRoom r).
End model.
Arguments gangRoom : clear implicits.

(** ** Matching *)

(** Pods and nodes by their index; [fits] and [room] are the two tables, read
    at indices in range.  The state of the search is the nodes seen and the pods
    assigned to each node. *)
Section matching.
Context (fits : nat → nat → bool) (room : nat → Z) (nNodes : nat).

Abbreviation search := (gset nat * list (list nat))%type (only parsing).

(** [assigned[node]]. *)
Definition heldBy (assigned : list (list nat)) (node : nat) : list nat := default [] (assigned !! node).

(** The loop over the pods a full node holds: the position whose pod moved
    elsewhere. *)
Fixpoint tryOthers (place : nat → search → option (bool * search)) (others : list nat) (i : nat) (st : search)
    : option (option nat * search) :=
  match others with
  | [] => Some (None, st)
  | other :: others =>
      match place other st with
      | None => None
      | Some (true, st) => Some (Some i, st)
      | Some (false, st) => tryOthers place others (S i) st
      end
  end.

(** The loop over the nodes. *)
Fixpoint tryNodes (place : nat → search → option (bool * search)) (pod : nat) (ns : list nat) (st : search)
    : option (bool * search) :=
  match ns with
  | [] => Some (false, st)
  | node :: ns =>
      let '(seen, assigned) := st in
      if decide (node ∈ seen ∨ room node ≤ 0 ∨ fits node pod = false) then tryNodes place pod ns st
      else
        let seen := {[node]} ∪ seen in
        let here := heldBy assigned node in
        if decide (Z.of_nat (length here) < room node) then Some (true, (seen, <[node := here ++ [pod]]> assigned))
        else match tryOthers place here 0 (seen, assigned) with
             | None => None
             | Some (Some i, (seen, assigned)) =>
                 Some (true, (seen, <[node := <[i := pod]> (heldBy assigned node)]> assigned))
             | Some (None, st) => tryNodes place pod ns st
             end
  end.

(** [place]: every call below it has one more node seen, so [fuel] never needs
    to exceed the number of nodes by more than one. *)
Fixpoint place (fuel pod : nat) (st : search) : option (bool * search) :=
  match fuel with
  | O => None
  | S fuel => tryNodes (place fuel) pod (seq 0 nNodes) st
  end.

(** The loop over the surplus pods. *)
Fixpoint matchPods (pods : list nat) (limit : Z) (matched : Z) (assigned : list (list nat)) : option Z :=
  match pods with
  | [] => Some matched
  | pod :: pods =>
      if decide (matched < limit) then
        match place (S nNodes) pod (∅, assigned) with
        | None => None
        | Some (true, (_, assigned)) => matchPods pods limit (matched + 1) assigned
        | Some (false, (_, assigned)) => matchPods pods limit matched assigned
        end
      else Some matched
  end.

(** [None] is the case that fuel ran out, which never happens. *)
Definition maxMatching (nPods : nat) (limit : Z) : option Z :=
  if decide (limit ≤ 0) then Some 0
  else matchPods (seq 1 (nPods - 1)) limit 0 (replicate nNodes []).
End matching.

Section joining.
Context {SP SN : Type} `{!SchedulerLib SP SN}.
Implicit Types r : gangRoom SP SN.

Definition fitAt r (node pod : nat) : bool := default false (default [] (grFits r !! node) !! pod).
Definition roomAt r (node : nat) : Z := default 0 (grRoom r !! node).

(** [left] is the table with one slot of [node] taken. *)
Definition restFitsBeside r (node : nat) (count : Z) : option bool :=
  let left n := if decide (n = node) then roomAt r n - 1 else roomAt r n in
  (λ m, bool_decide (count ≤ m)) <$> maxMatching (fitAt r) left (length (grNodes r)) (length (grPods r)) count.

(** The condition [fits[n][0] && room[n] > 0 && restFitsBeside(n, count)]. *)
Definition mayTake r (count : Z) (n : nat) : option bool :=
  if fitAt r n 0 && bool_decide (0 < roomAt r n) then restFitsBeside r n count else Some false.

Fixpoint joinLoop r (count : Z) (ns : list nat) : option bool :=
  match ns with
  | [] => Some false
  | n :: ns =>
      match mayTake r count n with
      | Some true => Some true
      | Some false => joinLoop r count ns
      | None => None
      end
  end.

Definition currentCanJoin r (need : Z) : option bool :=
  if decide (need ≤ 0 ∨ Z.of_nat (length (grPods r)) < need) then Some false
  else joinLoop r (need - 1) (seq 0 (length (grNodes r))).

Definition nodeNameAt r (n : nat) : string :=
  match grNodes r !! n with
  | Some info => match InfoNode info with Some node => KubeName node | None => "" end
  | None => ""
  end.

Fixpoint candidateLoop r (count : Z) (ns : list nat) (out : gset string) : option (gset string) :=
  match ns with
  | [] => Some out
  | n :: ns =>
      match mayTake r count n with
      | Some true => candidateLoop r count ns ({[nodeNameAt r n]} ∪ out)
      | Some false => candidateLoop r count ns out
      | None => None
      end
  end.

(** With no pod at all, reading the current member is out of range. *)
Definition candidates r (count : Z) : outcome unit (gset string) :=
  if decide (grPods r = [] ∧ grNodes r ≠ []) then Panic
  else match candidateLoop r count (seq 0 (length (grNodes r))) ∅ with Some out => Ok out | None => Err tt end.

Definition groupNode (topologyKey : string) (byDomain : gmap string (list (NodeInfo SP SN))) (info : NodeInfo SP SN) :=
  let domain := domainOf (InfoNode info) topologyKey in
  if decide (domain = "") then byDomain
  else <[domain := default [] (byDomain !! domain) ++ [info]]> byDomain.

Definition feasibleAtLeastByDomain (nodeInfos : list (NodeInfo SP SN)) (topologyKey : string)
    (pods : list (option (Pod SP))) (need : Z) : FreeByDomain :=
  (λ nodes, let room := newGangRoom nodes pods need in
            match currentCanJoin room need with Some true => total room | _ => 0 end)
  <$> foldl (groupNode topologyKey) ∅ nodeInfos.
End joining.
