(* ===== verification/GangMatching.v ===== *)
(** * The matching is maximum

    [place] grows a matching by augmenting paths.  A search that fails leaves
    the matching as it was and exposes a set of nodes that is full and closed:
    every pod held there, and the pod that failed, fits nowhere else.  Such a
    set stays as it is for good, so at the end the pods that found no slot and
    those held inside the set compete for exactly its slots, which bounds every
    other matching. *)

From S2P Require Import Prelude Domains GangRoom.
Local Open Scope nat_scope.

Section matching.
Context (fits : nat → nat → bool) (room : nat → Z) (nNodes : nat).
Implicit Types (a : list (list nat)) (seen D : gset nat) (pod n : nat).

Abbreviation nodes_set := (set_seq 0 nNodes : gset nat).

(** The nodes a pod could use. *)
Definition usesNode n pod : Prop := n < nNodes ∧ (0 < room n)%Z ∧ fits n pod = true.

(** All nodes a pod could use are in [D]. *)
Definition within D pod : Prop := ∀ n, usesNode n pod → n ∈ D.

Definition full a n : Prop := n < nNodes ∧ (room n ≤ Z.of_nat (length (heldBy a n)))%Z.

(** A matching: every pod is on a node it fits, and no node is over its room. *)
Record seated a : Prop := {
  se_length : length a = nNodes;
  se_uses n q : q ∈ heldBy a n → usesNode n q;
  se_room n : (Z.of_nat (length (heldBy a n)) ≤ Z.max 0 (room n))%Z;
}.

(** Full and closed. *)
Definition closed a D : Prop := ∀ n, n ∈ D → full a n ∧ ∀ q, q ∈ heldBy a n → within D q.

(** Every node that was newly seen is full, and its pods fit only seen nodes. *)
Definition exhausted a seen seen' : Prop :=
  ∀ n, n ∈ seen' → (n ∉ seen) → full a n ∧ ∀ q, q ∈ heldBy a n → within seen' q.

(** What a search among the nodes [ns] that starts with [seen] and [a] ends
    with. *)
Record searched (ns : list nat) pod seen a (found : bool) seen' a' : Prop := {
  sr_seen : seen ⊆ seen';
  sr_failed : found = false →
    a' = a ∧ (∀ n, n ∈ ns → usesNode n pod → n ∈ seen') ∧ exhausted a seen seen';
  sr_seated : found = true → seated a';
  sr_grown : found = true → concat a' ≡ₚ pod :: concat a;
  sr_kept : found = true → ∀ n, n ∈ seen → heldBy a' n = heldBy a n;
  sr_closed D : closed a D →
    (within D pod → found = false) ∧ (found = true → ∀ n, n ∈ D → heldBy a' n = heldBy a n);
}.

Lemma heldBy_insert a n m l :
  n < length a → heldBy (<[n := l]> a) m = if decide (m = n) then l else heldBy a m.
Proof.
  intros Hn. unfold heldBy. destruct (decide (m = n)) as [->|Hne].
  - by rewrite list_lookup_insert_eq.
  - by rewrite list_lookup_insert_ne.
Qed.

Lemma heldBy_short a n : length a ≤ n → heldBy a n = [].
Proof. intros Hn. unfold heldBy. by rewrite lookup_ge_None_2. Qed.

(** Replacing what one node holds. *)
Lemma concat_insert a n l :
  n < length a → heldBy a n ++ concat (<[n := l]> a) ≡ₚ l ++ concat a.
Proof.
  revert n. induction a as [|x a IH]; intros n Hn; [cbn in Hn; lia|]. destruct n as [|n]; cbn [insert list_insert concat].
  - unfold heldBy. cbn [lookup list_lookup default from_option id]. rewrite !app_assoc. f_equiv. apply Permutation_app_comm.
  - change (heldBy (x :: a) (S n)) with (heldBy a n). cbn in Hn. specialize (IH n ltac:(lia)).
    change (heldBy a n ++ x ++ concat (<[n := l]> a) ≡ₚ l ++ x ++ concat a).
    rewrite !(Permutation_app_swap_app _ x). by rewrite IH.
Qed.

Lemma within_mono D D' pod : D ⊆ D' → within D pod → within D' pod.
Proof. intros Hs Hw n Hn. apply Hs, Hw, Hn. Qed.

(** A pod added to a node with a free slot. *)
Lemma seat_free pod n a :
  seated a → usesNode n pod → (Z.of_nat (length (heldBy a n)) < room n)%Z →
  seated (<[n := heldBy a n ++ [pod]]> a) ∧ concat (<[n := heldBy a n ++ [pod]]> a) ≡ₚ pod :: concat a.
Proof.
  intros S U Hfree. assert (n < length a) as Hn by (rewrite (se_length _ S); apply U). split.
  - split.
    + rewrite length_insert. apply S.
    + intros m q. rewrite heldBy_insert by done. case_decide as E; [subst|apply S].
      intros [Hq| ->%list_elem_of_singleton]%elem_of_app; [by apply S|done].
    + intros m. rewrite heldBy_insert by done. case_decide as E; [subst|apply S]. rewrite length_app. cbn. lia.
  - apply (Permutation_app_inv_l (heldBy a n)). rewrite concat_insert by done.
    rewrite <-app_assoc. cbn. done.
Qed.

(** A pod takes the place of one that has moved to another node. *)
Lemma seat_moved pod n a a1 i other :
  seated a1 → usesNode n pod → heldBy a1 n = heldBy a n → heldBy a n !! i = Some other →
  concat a1 ≡ₚ other :: concat a →
  seated (<[n := <[i := pod]> (heldBy a1 n)]> a1) ∧ concat (<[n := <[i := pod]> (heldBy a1 n)]> a1) ≡ₚ pod :: concat a.
Proof.
  intros S U Hsame Hi Hperm. assert (n < length a1) as Hn by (rewrite (se_length _ S); apply U).
  rewrite <-Hsame in Hi. split.
  - split.
    + rewrite length_insert. apply S.
    + intros m q. rewrite heldBy_insert by done. case_decide as E; [subst|apply S].
      intros [j Hj]%list_elem_of_lookup. apply list_lookup_insert_Some in Hj as [(<- & <- & _)|(_ & Hj)]; [done|].
      apply S, list_elem_of_lookup. eauto.
    + intros m. rewrite heldBy_insert by done. case_decide as E; [subst|apply S]. rewrite length_insert. apply S.
  - assert (other :: <[i := pod]> (heldBy a1 n) ≡ₚ pod :: heldBy a1 n) as Hswap.
    { rewrite (insert_take_drop _ i pod) by (by apply lookup_lt_Some in Hi).
      rewrite <-(take_drop_middle (heldBy a1 n) i other Hi) at 3.
      rewrite <-!Permutation_middle. apply perm_swap. }
    apply (Permutation_app_inv_l (other :: heldBy a1 n)). cbn [app]. rewrite concat_insert by done.
    rewrite Hperm. rewrite app_comm_cons, Hswap. cbn [app]. rewrite <-!Permutation_middle. apply perm_swap.
Qed.

(** What is promised of the recursive call, for searches with at most [f]
    unseen nodes. *)
Definition searches (pl : nat → gset nat * list (list nat) → option (bool * (gset nat * list (list nat)))) (f : nat) : Prop :=
  ∀ pod seen a, seated a → size (nodes_set ∖ seen) < f →
    ∃ found seen' a', pl pod (seen, a) = Some (found, (seen', a')) ∧ searched (seq 0 nNodes) pod seen a found seen' a'.

Lemma unseen_mono seen seen' f :
  seen ⊆ seen' → size (nodes_set ∖ seen) < f → size (nodes_set ∖ seen') < f.
Proof. intros Hs Hlt. eapply Nat.le_lt_trans; [|exact Hlt]. apply subseteq_size. set_solver. Qed.

Lemma exhausted_trans a seen1 seen2 seen3 :
  seen2 ⊆ seen3 → exhausted a seen1 seen2 → exhausted a seen2 seen3 → exhausted a seen1 seen3.
Proof.
  intros Hs H1 H2 n Hn Hno. destruct (decide (n ∈ seen2)) as [Hin|Hin]; [|by apply H2].
  destruct (H1 n Hin Hno) as [Hf Hq]. split; [done|]. intros q Hh. by eapply within_mono, Hq.
Qed.

(** The search for a pod of a full node that can move. *)
Lemma tryOthers_spec pl f others i seen a :
  searches pl f → seated a → size (nodes_set ∖ seen) < f →
  ∃ r seen' a', tryOthers pl others i (seen, a) = Some (r, (seen', a')) ∧ seen ⊆ seen' ∧
    match r with
    | None => a' = a ∧ (∀ q, q ∈ others → within seen' q) ∧ exhausted a seen seen'
    | Some j => ∃ k other, j = i + k ∧ others !! k = Some other ∧ seated a' ∧ concat a' ≡ₚ other :: concat a ∧
        (∀ n, n ∈ seen → heldBy a' n = heldBy a n) ∧
        (∀ D, closed a D → ¬ within D other ∧ ∀ n, n ∈ D → heldBy a' n = heldBy a n)
    end.
Proof.
  intros Hpl Hs. revert i seen. induction others as [|other others IH]; intros i seen Hsz; cbn [tryOthers].
  { eexists None, seen, a. split_and!; [done|done|done| |]; [intros q Hq; by apply elem_of_nil in Hq|done]. }
  destruct (Hpl other seen a Hs Hsz) as (found & seen1 & a1 & -> & R). destruct found.
  - eexists (Some i), seen1, a1. split_and!; [done|apply R|]. exists 0, other.
    split_and!; [lia|done|by apply R|by apply R|by apply R|].
    intros D HD. destruct (sr_closed _ _ _ _ _ _ _ R D HD) as [Hno Hk]. split; [|by apply Hk].
    intros Hw. by apply Hno in Hw.
  - destruct (sr_failed _ _ _ _ _ _ _ R eq_refl) as (-> & Hw & Hex).
    destruct (IH (S i) seen1) as (r & seen2 & a2 & -> & Hs2 & Hr).
    { by eapply unseen_mono, Hsz; apply R. }
    eexists r, seen2, a2. split; [done|]. assert (seen ⊆ seen1) as Hs1 by apply R. split; [set_solver|].
    destruct r as [j|].
    + destruct Hr as (k & o & -> & Ho & Hse & Hp & Hk & HD). exists (S k), o. split_and!; [lia|done|done|done|set_solver|done].
    + destruct Hr as (-> & Hall & Hex2). split_and!; [done| |by eapply exhausted_trans].
      intros q [->|Hq]%elem_of_cons; [|by apply Hall]. eapply within_mono; [exact Hs2|].
      intros n Hn. apply Hw; [|done]. apply elem_of_seq. destruct Hn. lia.
Qed.

(** A search goes on past a node it cannot use, or has used up. *)
Lemma searched_cons node ns pod seen seen1 a found seen' a' :
  seen ⊆ seen1 → exhausted a seen seen1 → (usesNode node pod → node ∈ seen1) →
  searched ns pod seen1 a found seen' a' → searched (node :: ns) pod seen a found seen' a'.
Proof.
  intros Hs Hex Hnode R. pose proof (sr_seen _ _ _ _ _ _ _ R) as Hs1. split; [set_solver| | | | |].
  - intros E. destruct (sr_failed _ _ _ _ _ _ _ R E) as (-> & Hw & Hex'). split_and!; [done| |by eapply exhausted_trans].
    intros n [->|Hn]%elem_of_cons Hu; [by apply Hs1, Hnode|by apply Hw].
  - apply R.
  - apply R.
  - intros E n Hn. apply (sr_kept _ _ _ _ _ _ _ R E). set_solver.
  - apply R.
Qed.

(** A search that ends by seating the pod on [node]. *)
Lemma searched_found node ns pod seen seen' a a' :
  usesNode node pod → (node ∉ seen) → seen ⊆ seen' → seated a' → concat a' ≡ₚ pod :: concat a →
  (∀ n, n ≠ node → n ∈ seen → heldBy a' n = heldBy a n) →
  (∀ D, closed a D → (node ∉ D) ∧ ∀ n, n ≠ node → n ∈ D → heldBy a' n = heldBy a n) →
  searched ns pod seen a true seen' a'.
Proof.
  intros Hu Hno Hs Hse Hp Hk HD. split; try done.
  - intros _ n Hn. apply Hk; [|done]. by intros ->.
  - intros D Hc. destruct (HD D Hc) as [Hn Hrest]. split; [intros Hw; by apply Hw in Hu|].
    intros _ n HnD. apply Hrest; [|done]. by intros ->.
Qed.

Lemma tryNodes_spec pl f pod ns seen a :
  searches pl f → seated a → (∀ n, n ∈ ns → n < nNodes) → size (nodes_set ∖ seen) ≤ f →
  ∃ found seen' a', tryNodes fits room pl pod ns (seen, a) = Some (found, (seen', a')) ∧
    searched ns pod seen a found seen' a'.
Proof.
  intros Hpl Hs. revert seen. induction ns as [|node ns IH]; intros seen Hns Hsz; cbn [tryNodes].
  { exists false, seen, a. split; [done|]. split; try done. intros _. split_and!; [done| |done].
    intros n Hn. by apply elem_of_nil in Hn. }
  assert (∀ n, n ∈ ns → n < nNodes) as Hns' by (intros n ?; apply Hns; by right).
  case_decide as Hskip.
  { destruct (IH seen Hns' Hsz) as (found & seen' & a' & -> & R). exists found, seen', a'. split; [done|].
    eapply searched_cons; [done|by intros n ? ?| |exact R]. intros (_ & Hr & Hf). destruct Hskip as [?|[?|?]]; [done|lia|congruence]. }
  assert (usesNode node pod ∧ node ∉ seen) as [Hu Hno].
  { split; [split_and!|]; [apply Hns; left|apply Z.nle_gt; tauto|destruct (fits node pod); tauto|tauto]. }
  set (seen1 := {[node]} ∪ seen).
  assert (node < length a) as Hlen by (rewrite (se_length _ Hs); apply Hu).
  case_decide as Hfree.
  { exists true, seen1, (<[node := heldBy a node ++ [pod]]> a). split; [done|].
    destruct (seat_free pod node a Hs Hu Hfree) as [Hse Hp].
    eapply (searched_found node); [done|done|set_solver|done|done| |].
    - intros n Hne _. rewrite heldBy_insert by done. by rewrite decide_False.
    - intros D HD. split; [intros Hin; destruct (HD node Hin) as [[_ Hf] _]; lia|].
      intros n Hne _. rewrite heldBy_insert by done. by rewrite decide_False. }
  assert (size (nodes_set ∖ seen1) < f) as Hsz1.
  { eapply Nat.lt_le_trans; [|exact Hsz]. apply subset_size. split; [set_solver|]. intros Hsub.
    assert (node ∈ nodes_set ∖ seen) as Hin by (apply elem_of_difference; rewrite elem_of_set_seq; destruct Hu; split; [lia|done]).
    apply Hsub in Hin. set_solver. }
  destruct (tryOthers_spec pl f (heldBy a node) 0 seen1 a Hpl Hs Hsz1) as (r & seen2 & a2 & -> & Hs2 & Hr).
  destruct r as [j|].
  - destruct Hr as (k & other & -> & Ho & Hse2 & Hp2 & Hk2 & HD2). cbn [Nat.add].
    destruct (seat_moved pod node a a2 k other Hse2 Hu) as [Hse Hp]; [apply Hk2; set_solver|done|done|].
    assert (node < length a2) as Hlen2 by (rewrite (se_length _ Hse2); apply Hu).
    eexists true, seen2, _. split; [done|]. eapply (searched_found node); [done|done|set_solver|done|done| |].
    + intros n Hne Hn. rewrite heldBy_insert by done. rewrite decide_False by done. apply Hk2. set_solver.
    + intros D HD. destruct (HD2 D HD) as [Hnw Hk]. split.
      * intros Hin. apply Hnw. destruct (HD node Hin) as [_ Hall]. apply Hall, list_elem_of_lookup. eauto.
      * intros n Hne Hn. rewrite heldBy_insert by done. rewrite decide_False by done. by apply Hk.
  - destruct Hr as (-> & Hall & Hex).
    destruct (IH seen2 Hns') as (found & seen' & a' & -> & R).
    { apply Nat.lt_le_incl. by eapply unseen_mono, Hsz1. }
    exists found, seen', a'. split; [done|]. eapply searched_cons; [| | |exact R]; [set_solver| |set_solver].
    intros n Hn Hnn. destruct (decide (n = node)) as [->|Hne]; [|apply Hex; [done|set_solver]].
    split; [|done]. split; [apply Hu|lia].
Qed.

(** Fuel beyond the number of unseen nodes is enough, and every search ends as
    promised. *)
Lemma place_searches fuel : searches (place fits room nNodes fuel) fuel.
Proof.
  induction fuel as [|fuel IH]; intros pod seen a Hs Hsz; [lia|]. cbn [place].
  apply (tryNodes_spec _ fuel); [done|done| |lia]. intros n Hn. apply elem_of_seq in Hn. lia.
Qed.

(** ** The loop over the pods *)

Lemma size_nodes : size (nodes_set ∖ ∅) < S nNodes.
Proof.
  rewrite difference_empty_L. assert (size nodes_set = nNodes) as ->; [|lia].
  rewrite <-(list_to_set_seq (C := gset nat)), size_list_to_set by apply NoDup_seq. apply length_seq.
Qed.

(** The state of the loop after the pods [tried]: the matching, and a closed
    set within which every pod that found no slot is confined. *)
Record matchState (tried : list nat) a D : Prop := {
  ms_seated : seated a;
  ms_closed : closed a D;
  ms_pods q : q ∈ concat a → q ∈ tried;
  ms_nodup : NoDup (concat a);
  ms_failed q : q ∈ tried → q ∉ concat a → within D q;
}.

Lemma closed_kept a a' D : (∀ n, n ∈ D → heldBy a' n = heldBy a n) → closed a D → closed a' D.
Proof. intros Hk Hc n Hn. unfold full. rewrite Hk by done. by apply Hc. Qed.

Lemma matchState_step tried pod a D :
  matchState tried a D → pod ∉ tried →
  ∃ found seen' a', place fits room nNodes (S nNodes) pod (∅, a) = Some (found, (seen', a')) ∧
    (if found then length (concat a') = S (length (concat a)) else a' = a) ∧
    ∃ D', matchState (tried ++ [pod]) a' D'.
Proof.
  intros M Hnew. destruct (place_searches (S nNodes) pod ∅ a (ms_seated _ _ _ M) size_nodes) as (found & seen' & a' & -> & R).
  exists found, seen', a'. split; [done|]. destruct found.
  - pose proof (sr_grown _ _ _ _ _ _ _ R eq_refl) as Hp. split; [by rewrite Hp|]. exists D.
    destruct (sr_closed _ _ _ _ _ _ _ R D (ms_closed _ _ _ M)) as [_ Hk]. split.
    + by apply R.
    + eapply closed_kept; [by apply Hk|apply M].
    + intros q. rewrite Hp. intros [->|Hq]%elem_of_cons; [set_solver|]. apply elem_of_app. left. by apply M.
    + rewrite Hp. apply NoDup_cons. split; [|apply M]. intros Hq. by apply M in Hq.
    + intros q Hq. rewrite Hp, not_elem_of_cons. intros [Hne Hno]. apply M; [|done]. set_solver.
  - destruct (sr_failed _ _ _ _ _ _ _ R eq_refl) as (-> & Hw & Hex). split; [done|]. exists (D ∪ seen'). split.
    + apply M.
    + intros n [Hn|Hn]%elem_of_union.
      * destruct (ms_closed _ _ _ M n Hn) as [Hf Hq]. split; [done|]. intros q Hh. eapply within_mono; [|by apply Hq]. set_solver.
      * destruct (Hex n Hn) as [Hf Hq]; [set_solver|]. split; [done|]. intros q Hh. eapply within_mono; [|by apply Hq]. set_solver.
    + intros q Hq. apply elem_of_app. left. by apply M.
    + apply M.
    + intros q [Hq| ->%list_elem_of_singleton]%elem_of_app Hno.
      * eapply within_mono; [|by apply M]. set_solver.
      * intros n Hn. apply elem_of_union. right. apply Hw; [|done]. apply elem_of_seq. destruct Hn. lia.
Qed.

Lemma matchPods_spec pods limit tried a D matched :
  matchState tried a D → NoDup pods → (∀ q, q ∈ pods → q ∉ tried) →
  matched = Z.of_nat (length (concat a)) → (matched ≤ limit)%Z →
  ∃ r tried' a' D', matchPods fits room nNodes pods limit matched a = Some r ∧ (r ≤ limit)%Z ∧
    matchState tried' a' D' ∧ r = Z.of_nat (length (concat a')) ∧
    (∀ q, q ∈ tried' → q ∈ tried ++ pods) ∧ ((r < limit)%Z → tried' = tried ++ pods).
Proof.
  revert tried a D matched. induction pods as [|pod pods IH]; intros tried a D matched M Hnd Hnew Hm Hle; cbn [matchPods].
  { exists matched, tried, a, D. rewrite app_nil_r. done. }
  apply NoDup_cons in Hnd as [Hpod Hnd].
  case_decide as Hlt.
  2:{ exists matched, tried, a, D. split_and!; [done|done|done|done|set_solver|lia]. }
  destruct (matchState_step tried pod a D M) as (found & seen' & a' & -> & Hf & D' & M'); [apply Hnew; left|].
  assert (∀ q, q ∈ pods → q ∉ tried ++ [pod]) as Hnew'.
  { intros q Hq. rewrite not_elem_of_app, list_elem_of_singleton. split; [apply Hnew; by right|by intros ->]. }
  assert (∀ m, m = Z.of_nat (length (concat a')) → (m ≤ limit)%Z →
    ∃ r tried' a'' D'', matchPods fits room nNodes pods limit m a' = Some r ∧ (r ≤ limit)%Z ∧
    matchState tried' a'' D'' ∧ r = Z.of_nat (length (concat a'')) ∧
    (∀ q, q ∈ tried' → q ∈ tried ++ pod :: pods) ∧ ((r < limit)%Z → tried' = tried ++ pod :: pods)) as Hrest.
  { intros m Hm' Hle'. destruct (IH _ _ _ m M' Hnd Hnew' Hm' Hle') as (r & tried' & a'' & D'' & ? & ? & ? & ? & Hin & Heq).
    exists r, tried', a'', D''. rewrite <-app_assoc in Hin, Heq. done. }
  destruct found; [apply Hrest; lia|subst a'; by apply Hrest].
Qed.

(** ** No matching is larger *)

(** Pods with the nodes they are given. *)
Record seating (l : list (nat * nat)) : Prop := {
  st_once : NoDup l.*1;
  st_uses p n : (p, n) ∈ l → usesNode n p;
  st_room n : (Z.of_nat (length (filter (λ x, x.2 = n) l)) ≤ Z.max 0 (room n))%Z;
}.

Lemma elem_of_concat_held a q : seated a → q ∈ concat a ↔ ∃ n, q ∈ heldBy a n.
Proof.
  intros S. rewrite list_elem_of_In, in_concat. unfold heldBy. split.
  - intros (l & Hl%list_elem_of_In & Hq%list_elem_of_In). apply list_elem_of_lookup in Hl as [n Hn]. exists n. by rewrite Hn.
  - intros [n Hq]. destruct (a !! n) as [l|] eqn:E; [|by apply elem_of_nil in Hq]. exists l.
    rewrite <-!list_elem_of_In. split; [apply list_elem_of_lookup; eauto|done].
Qed.

Lemma held_NoDup a n : NoDup (concat a) → NoDup (heldBy a n).
Proof.
  revert n. induction a as [|x a IH]; intros n Hnd; [constructor|]. cbn in Hnd. apply NoDup_app in Hnd as (Hx & _ & Ha).
  destruct n; [done|by apply IH].
Qed.

Lemma held_disjoint a n m q : NoDup (concat a) → q ∈ heldBy a n → q ∈ heldBy a m → n = m.
Proof.
  revert n m. induction a as [|x a IH]; intros n m Hnd Hn Hm; [by apply elem_of_nil in Hn|].
  cbn in Hnd. apply NoDup_app in Hnd as (_ & Hd & Ha).
  assert (∀ k, q ∈ heldBy a k → q ∈ concat a) as Hin.
  { intros k Hk. unfold heldBy in Hk. destruct (a !! k) as [l|] eqn:E; [|by apply elem_of_nil in Hk].
    apply list_elem_of_In, in_concat. exists l. rewrite <-!list_elem_of_In. split; [apply list_elem_of_lookup; eauto|done]. }
  destruct n as [|n], m as [|m]; [done| | |f_equal; by eapply IH].
  - exfalso. apply (Hd q Hn). by apply (Hin m).
  - exfalso. apply (Hd q Hm). by apply (Hin n).
Qed.

Lemma rows_NoDup a ds : NoDup (concat a) → NoDup ds → NoDup (ds ≫= heldBy a).
Proof.
  intros Ha. induction 1 as [|d ds Hd _ IH]; [constructor|]. cbn [mbind list_bind]. apply NoDup_app. split_and!; [by apply held_NoDup| |done].
  intros q Hq (n & Hn & Hin)%list_elem_of_bind. by rewrite (held_disjoint a d n q) in Hd.
Qed.

(** The pairs on a set of nodes are no more than what those nodes hold. *)
Lemma seated_on_full l a ds :
  seating l → (∀ n, n ∈ ds → full a n) →
  length (filter (λ x : nat * nat, x.2 ∈ ds) l) ≤ length (ds ≫= heldBy a).
Proof.
  intros L Hf. induction ds as [|d ds IH]; [rewrite filter_none; [cbn; lia|]; intros x _ Hx; by apply elem_of_nil in Hx|].
  cbn [mbind list_bind]. rewrite length_app. specialize (IH (λ n Hn, Hf n (list_elem_of_further _ _ _ Hn))).
  assert (length (filter (λ x : nat * nat, x.2 ∈ d :: ds) l)
    ≤ length (filter (λ x, x.2 = d) l) + length (filter (λ x : nat * nat, x.2 ∈ ds) l)) as Hsplit.
  { clear. induction l as [|x l IHl]; [done|]. rewrite !filter_cons.
    destruct (decide (x.2 ∈ d :: ds)) as [Hin|Hin], (decide (x.2 = d)), (decide (x.2 ∈ ds)); cbn [length]; try lia.
    exfalso. apply elem_of_cons in Hin. tauto. }
  destruct (Hf d) as [_ Hd]; [left|]. pose proof (st_room l L d). lia.
Qed.

Lemma matching_bound tried a D l :
  matchState tried a D → seating l → (∀ p n, (p, n) ∈ l → p ∈ tried) → length l ≤ length (concat a).
Proof.
  intros M L Htried. set (inn := elements D ≫= heldBy a). set (out := filter (λ x : nat * nat, x.2 ∉ elements D) l).
  assert (length l = length (filter (λ x : nat * nat, x.2 ∈ elements D) l) + length out) as ->.
  { unfold out. clear. induction l as [|x l IHl]; [done|]. rewrite !filter_cons.
    destruct (decide (x.2 ∈ elements D)), (decide (x.2 ∉ elements D)); cbn [length]; try done; lia. }
  pose proof (seated_on_full l a (elements D) L) as Hin.
  assert (length (out.*1 ++ inn) ≤ length (concat a)) as Hout.
  { apply submseteq_length, NoDup_submseteq.
    - apply NoDup_app. split_and!.
      + unfold out. apply NoDup_fmap_filter, L.
      + intros p ((p' & n) & -> & [Hn Hp]%list_elem_of_filter)%list_elem_of_fmap (m & Hm & HmD)%list_elem_of_bind.
        apply Hn, elem_of_elements. apply elem_of_elements in HmD.
        destruct (ms_closed _ _ _ M m HmD) as [_ Hw]. by eapply Hw, L.
      + apply rows_NoDup; [apply M|apply NoDup_elements].
    - intros p [((p' & n) & -> & [Hn Hp]%list_elem_of_filter)%list_elem_of_fmap|(m & Hm & _)%list_elem_of_bind]%elem_of_app.
      + destruct (decide (p' ∈ concat a)) as [Hc|Hc]; [done|]. exfalso. apply Hn, elem_of_elements.
        apply (ms_failed _ _ _ M p' (Htried _ _ Hp) Hc). by apply L.
      + apply (elem_of_concat_held a p (ms_seated _ _ _ M)). eauto. }
  rewrite length_app, length_fmap in Hout. fold inn in Hin.
  assert (∀ n, n ∈ elements D → full a n) as Hf by (intros n Hn%elem_of_elements; by apply (ms_closed _ _ _ M)).
  specialize (Hin Hf). lia.
Qed.

(** The pairs of a matching. *)
Definition pairsOf a : list (nat * nat) := seq 0 nNodes ≫= λ n, (λ p, (p, n)) <$> heldBy a n.

Lemma elem_of_pairsOf a p n : seated a → (p, n) ∈ pairsOf a ↔ p ∈ heldBy a n.
Proof.
  intros S. unfold pairsOf. rewrite list_elem_of_bind. split.
  - intros (m & (q & [= -> ->] & Hq)%list_elem_of_fmap & _). done.
  - intros Hp. exists n. split; [apply list_elem_of_fmap; by exists p|]. apply elem_of_seq.
    destruct (se_uses _ S n p Hp). lia.
Qed.

Lemma pairsOf_fst a : seated a → (pairsOf a).*1 = concat a.
Proof.
  intros S. unfold pairsOf. rewrite <-(se_length _ S).
  assert (∀ k b, (∀ i, i < length b → heldBy a (k + i) = heldBy b i) →
    (seq k (length b) ≫= λ n, (λ p, (p, n)) <$> heldBy a n).*1 = concat b) as Hgen.
  { intros k b. revert k. induction b as [|x b IH]; intros k Hb; [done|]. cbn [length seq mbind list_bind concat].
    rewrite fmap_app, <-list_fmap_compose. f_equal.
    - specialize (Hb 0 ltac:(cbn; lia)). rewrite Nat.add_0_r in Hb. rewrite Hb. apply list_fmap_id.
    - apply IH. intros i Hi. rewrite Nat.add_succ_comm. rewrite Hb by (cbn; lia). done. }
  by apply Hgen.
Qed.

Lemma seated_seating a : seated a → NoDup (concat a) → seating (pairsOf a).
Proof.
  intros S Hnd. split.
  - by rewrite pairsOf_fst.
  - intros p n Hp. apply elem_of_pairsOf in Hp; [|done]. by apply S.
  - intros n. assert (length (filter (λ x : nat * nat, x.2 = n) (pairsOf a)) ≤ length (heldBy a n)) as Hle.
    { rewrite <-(length_fmap fst). apply submseteq_length, NoDup_submseteq.
      - apply NoDup_fmap_filter. by rewrite pairsOf_fst.
      - intros p ((p' & m) & -> & [E Hp]%list_elem_of_filter)%list_elem_of_fmap. cbn in E. subst m.
        by apply elem_of_pairsOf in Hp. }
    pose proof (se_room _ S n). lia.
Qed.

(** The loop returns the size of a largest matching of the surplus pods, or
    the limit when that is smaller. *)
Lemma maxMatching_spec nPods limit :
  ∃ r, maxMatching fits room nNodes nPods limit = Some r ∧
    (∃ l, seating l ∧ (∀ p n, (p, n) ∈ l → 1 ≤ p < nPods) ∧ Z.of_nat (length l) = r) ∧
    (∀ l, seating l → (∀ p n, (p, n) ∈ l → 1 ≤ p < nPods) → (Z.min limit (Z.of_nat (length l)) ≤ r)%Z).
Proof.
  unfold maxMatching. case_decide as Hl.
  { exists 0%Z. split; [done|]. split; [|intros; lia]. exists []. split; [|split; [|done]].
    - split; [constructor|intros p n Hp; by apply elem_of_nil in Hp|intros n; cbn; lia].
    - intros p n Hp. by apply elem_of_nil in Hp. }
  assert (∀ n, heldBy (replicate nNodes []) n = []) as Hempty.
  { intros n. unfold heldBy. destruct (replicate nNodes [] !! n) as [x|] eqn:E; [|done].
    by apply lookup_replicate in E as [-> _]. }
  assert (concat (replicate nNodes ([] : list nat)) = []) as Hconcat by (clear; induction nNodes; done).
  assert (matchState [] (replicate nNodes []) ∅) as M0.
  { split.
    - split; [apply length_replicate|intros n q Hq; rewrite Hempty in Hq; by apply elem_of_nil in Hq|].
      intros n. rewrite Hempty. cbn. lia.
    - intros n Hn. by apply elem_of_empty in Hn.
    - rewrite Hconcat. intros q Hq. by apply elem_of_nil in Hq.
    - rewrite Hconcat. constructor.
    - intros q Hq. by apply elem_of_nil in Hq. }
  destruct (matchPods_spec (seq 1 (nPods - 1)) limit [] _ ∅ 0 M0) as (r & tried & a & D & Hr & Hle & M & Hsize & Htried & Hall).
  { apply NoDup_seq. }
  { intros q _ Hq. by apply elem_of_nil in Hq. }
  { by rewrite Hconcat. }
  { lia. }
  exists r. split; [done|]. cbn [app] in *. split.
  - exists (pairsOf a). split; [apply seated_seating; apply M|]. split.
    + intros p n Hp. apply elem_of_pairsOf in Hp; [|apply M].
      assert (p ∈ concat a) as Hc by (apply (elem_of_concat_held a p (ms_seated _ _ _ M)); eauto).
      apply M, Htried, elem_of_seq in Hc. lia.
    + rewrite Hsize, <-(pairsOf_fst a) by apply M. by rewrite length_fmap.
  - intros l L Hrange. destruct (decide (r < limit)%Z) as [Hlt|Hge]; [|lia]. specialize (Hall Hlt). subst tried.
    assert (length l ≤ length (concat a)); [|lia]. eapply matching_bound; [exact M|done|].
    intros p n Hp. apply Hrange in Hp. apply elem_of_seq. lia.
Qed.
End matching.
