(* ===== verification/GangFit.v ===== *)
(** * A gang fits a domain exactly when the scheduler says so

    From the maximum matching to what the plugin asks: whether the current
    member can join a domain, which nodes it may take, and the room per domain
    that the choice of a domain starts from. *)

From S2P Require Import Prelude Domains GangRoom GangMatching.
Local Open Scope Z_scope.

Section joins.
Context {SP SN : Type} `{!SchedulerLib SP SN}.
Implicit Types r : gangRoom SP SN.

Abbreviation seats r := (seating (fitAt r) (roomAt r) (length (grNodes r))).

(** [l] gives a slot to [size] members, the current one on [n]. *)
Definition joined r (size : Z) (n : nat) (l : list (nat * nat)) : Prop :=
  seats r l ∧ (0%nat, n) ∈ l ∧ (∀ p m, (p, m) ∈ l → (p < length (grPods r))%nat) ∧ Z.of_nat (length l) = size.

Lemma seating_sublist (fits : nat → nat → bool) (room : nat → Z) N l l' :
  sublist l' l → seating fits room N l → seating fits room N l'.
Proof.
  intros Hs L. split.
  - eapply sublist_NoDup; [apply L|]. by apply fmap_sublist.
  - intros p n Hp. apply L. by eapply elem_of_submseteq, sublist_submseteq.
  - intros n. pose proof (st_room _ _ _ _ L n). assert (length (filter (λ x : nat * nat, x.2 = n) l')
      ≤ length (filter (λ x : nat * nat, x.2 = n) l))%nat as Hle.
    { clear - Hs. induction Hs as [|x l1 l2 _ IH|x l1 l2 _ IH]; [done| |].
      - rewrite !filter_cons. case_decide; cbn; lia.
      - rewrite filter_cons. case_decide; cbn; lia. }
    lia.
Qed.

(** Taking one slot of [n], as [restFitsBeside] does. *)
Lemma restFitsBeside_spec r n count :
  (n < length (grNodes r))%nat → fitAt r n 0 = true → 0 < roomAt r n → 0 ≤ count → grPods r ≠ [] →
  ∃ b, restFitsBeside r n count = Some b ∧ (b = true ↔ ∃ l, joined r (count + 1) n l).
Proof.
  intros Hn Hfit Hroom Hcount Hpods. unfold restFitsBeside.
  set (left := λ m, if decide (m = n) then roomAt r m - 1 else roomAt r m).
  destruct (maxMatching_spec (fitAt r) left (length (grNodes r)) (length (grPods r)) count)
    as (k & -> & (l0 & L0 & Hr0 & Hk) & Hmax). cbn [fmap option_fmap option_map]. eexists. split; [done|].
  rewrite bool_decide_eq_true. split.
  - intros Hle. set (l := take (Z.to_nat count) l0). exists ((0%nat, n) :: l).
    assert (seating (fitAt r) left (length (grNodes r)) l) as L by (eapply seating_sublist, L0; apply sublist_take).
    assert (∀ p m, (p, m) ∈ l → (1 ≤ p < length (grPods r))%nat) as Hr by (intros p m Hp; apply (Hr0 p m); by eapply elem_of_take_in).
    assert (length l = Z.to_nat count) as Hl by (unfold l; rewrite length_take; lia).
    split_and!; [|left| |cbn; lia].
    + split.
      * cbn. apply NoDup_cons. split; [|apply L]. intros ((p & m) & E & Hp)%list_elem_of_fmap. cbn in E. subst.
        apply Hr in Hp. lia.
      * intros p m [[= -> ->]|Hp]%elem_of_cons; [done|]. destruct (st_uses _ _ _ _ L p m Hp) as (? & Hlm & ?).
        split_and!; [done| |done]. unfold left in Hlm. case_decide; lia.
      * intros m. rewrite filter_cons. cbn [snd]. pose proof (st_room _ _ _ _ L m) as Hm. unfold left in Hm.
        destruct (decide (n = m)) as [<-|Hne]; [rewrite decide_True in Hm by done; cbn; lia|].
        by rewrite decide_False in Hm by done.
    + intros p m [[= -> ->]|Hp]%elem_of_cons; [|apply Hr in Hp; lia]. destruct (grPods r); [done|cbn; lia].
  - intros (l & L & Hin & Hr & Hl). apply list_elem_of_split in Hin as (l1 & l2 & ->).
    assert ((l1 ++ (0%nat, n) :: l2).*1 ≡ₚ 0%nat :: (l1 ++ l2).*1) as Hperm.
    { rewrite !fmap_app, fmap_cons. cbn. by rewrite Permutation_middle. }
    assert (NoDup (0%nat :: (l1 ++ l2).*1)) as [Hno Hnd]%NoDup_cons by (rewrite <-Hperm; apply L).
    assert (∀ p m, (p, m) ∈ l1 ++ l2 → (p, m) ∈ l1 ++ (0%nat, n) :: l2) as Hsub.
    { intros p m. rewrite !elem_of_app, elem_of_cons. tauto. }
    assert (Z.min count (Z.of_nat (length (l1 ++ l2))) ≤ k) as Hk'.
    { apply Hmax.
      - split; [done| |].
        + intros p m Hp. destruct (st_uses _ _ _ _ L p m (Hsub _ _ Hp)) as (Hm & Hrm & Hf). split_and!; [done| |done].
          unfold left. case_decide as E; [subst m|done].
          assert (1 ≤ Z.of_nat (length (filter (λ x : nat * nat, x.2 = n) (l1 ++ l2)))).
          { destruct (filter (λ x : nat * nat, x.2 = n) (l1 ++ l2)) eqn:E; cbn; [|lia].
            by eapply (filter_nil_not_elem_of _ _ _ E) in Hp. }
          pose proof (st_room _ _ _ _ L n) as Hrn. rewrite filter_app, filter_cons_True, length_app in Hrn by done.
          cbn [length] in Hrn. rewrite filter_app, length_app in *. lia.
        + intros m. pose proof (st_room _ _ _ _ L m) as Hrm. rewrite filter_app, filter_cons, length_app in Hrm. cbn [snd] in Hrm.
          rewrite filter_app, length_app. unfold left. destruct (decide (m = n)) as [->|Hne].
          * rewrite decide_True in Hrm by done. cbn [length] in Hrm. lia.
          * rewrite decide_False in Hrm by done. lia.
      - intros p m Hp. split; [|by eapply Hr, Hsub]. destruct p; [|lia]. exfalso. apply Hno.
        apply list_elem_of_fmap. by exists (0%nat, m). }
    rewrite length_app in *. cbn [length] in Hl. lia.
Qed.

(** A placement puts the current member on a node that has room for it. *)
Lemma joined_current r size n l : joined r size n l → (n < length (grNodes r))%nat ∧ fitAt r n 0 = true ∧ 0 < roomAt r n.
Proof. intros (L & Hin & _). apply (st_uses _ _ _ _ L) in Hin as (? & ? & ?). done. Qed.

Lemma mayTake_spec r count n :
  0 ≤ count → grPods r ≠ [] → (n < length (grNodes r))%nat →
  ∃ b, mayTake r count n = Some b ∧ (b = true ↔ ∃ l, joined r (count + 1) n l).
Proof.
  intros Hc Hp Hn. unfold mayTake. destruct (fitAt r n 0 && bool_decide (0 < roomAt r n)) eqn:E.
  - apply andb_true_iff in E as [Hf Hr%bool_decide_eq_true]. by apply restFitsBeside_spec.
  - exists false. split; [done|]. split; [done|]. intros (l & (_ & Hf & Hr)%joined_current).
    rewrite Hf, bool_decide_eq_true_2 in E by done. done.
Qed.

Lemma joinLoop_spec r count ns :
  0 ≤ count → grPods r ≠ [] → (∀ n, n ∈ ns → (n < length (grNodes r))%nat) →
  ∃ b, joinLoop r count ns = Some b ∧ (b = true ↔ ∃ n l, n ∈ ns ∧ joined r (count + 1) n l).
Proof.
  intros Hc Hp. induction ns as [|n ns IH]; intros Hns; cbn [joinLoop].
  { exists false. split; [done|]. split; [done|]. intros (n & l & Hn & _). by apply elem_of_nil in Hn. }
  destruct IH as (b & Hb & Hiff); [intros m Hm; apply Hns; by right|].
  destruct (mayTake_spec r count n Hc Hp) as (b' & -> & Hiff'); [apply Hns; left|]. destruct b'.
  - exists true. split; [done|]. split; [|done]. intros _. destruct (proj1 Hiff' eq_refl) as [l Hl]. exists n, l. split; [left|done].
  - exists b. split; [done|]. rewrite Hiff. split.
    + intros (m & l & Hm & Hl). exists m, l. split; [by right|done].
    + intros (m & l & [->|Hm]%elem_of_cons & Hl); [|by exists m, l]. assert (false = true) by (apply Hiff'; eauto). done.
Qed.

Lemma currentCanJoin_spec r need :
  ∃ b, currentCanJoin r need = Some b ∧ (b = true ↔ 0 < need ∧ ∃ n l, joined r need n l).
Proof.
  unfold currentCanJoin. case_decide as Hn.
  { exists false. split; [done|]. split; [done|]. intros (Hpos & n & l & L & Hin & Hr & Hl).
    destruct Hn as [?|Hn]; [lia|]. exfalso.
    assert (length l.*1 ≤ length (seq 0 (length (grPods r))))%nat as Hle.
    { apply submseteq_length, NoDup_submseteq; [apply L|]. intros p ((p' & m) & -> & Hp)%list_elem_of_fmap.
      apply Hr in Hp. apply elem_of_seq. cbn. lia. }
    rewrite length_fmap, length_seq in Hle. lia. }
  destruct (joinLoop_spec r (need - 1) (seq 0 (length (grNodes r)))) as (b & -> & Hiff).
  { lia. }
  { intros E. rewrite E in Hn. cbn in Hn. lia. }
  { intros n Hn'. apply elem_of_seq in Hn'. lia. }
  exists b. split; [done|]. rewrite Hiff. replace (need - 1 + 1) with need by lia. split.
  - intros (n & l & _ & Hl). split; [lia|]. by exists n, l.
  - intros (_ & n & l & Hl). exists n, l. split; [|done]. apply joined_current in Hl as (? & _ & _). apply elem_of_seq. lia.
Qed.

Lemma candidateLoop_spec r count ns out0 :
  0 ≤ count → grPods r ≠ [] → (∀ n, n ∈ ns → (n < length (grNodes r))%nat) →
  ∃ out, candidateLoop r count ns out0 = Some out ∧
    ∀ name, name ∈ out ↔ name ∈ out0 ∨ ∃ n l, n ∈ ns ∧ joined r (count + 1) n l ∧ nodeNameAt r n = name.
Proof.
  intros Hc Hp. revert out0. induction ns as [|n ns IH]; intros out0 Hns; cbn [candidateLoop].
  { exists out0. split; [done|]. intros name. split; [by left|]. intros [?|(n & l & Hn & _)]; [done|by apply elem_of_nil in Hn]. }
  assert (∀ m, m ∈ ns → (m < length (grNodes r))%nat) as Hns' by (intros m ?; apply Hns; by right).
  destruct (mayTake_spec r count n Hc Hp) as (b & -> & Hiff); [apply Hns; left|].
  assert (∀ name, (∃ m l, m ∈ n :: ns ∧ joined r (count + 1) m l ∧ nodeNameAt r m = name) ↔
    (b = true ∧ nodeNameAt r n = name) ∨ ∃ m l, m ∈ ns ∧ joined r (count + 1) m l ∧ nodeNameAt r m = name) as Hsplit.
  { intros name. rewrite Hiff. split.
    - intros (m & l & [->|Hm]%elem_of_cons & Hj & E); [left; split; [by exists l|done]|right; by exists m, l].
    - intros [[[l Hj] E]|(m & l & Hm & Hj & E)]; [exists n, l; split; [left|done]|exists m, l; split; [by right|done]]. }
  destruct b; [destruct (IH ({[nodeNameAt r n]} ∪ out0) Hns') as (out & -> & Hout)|destruct (IH out0 Hns') as (out & -> & Hout)];
    exists out; (split; [done|]); intros name; rewrite Hout, Hsplit.
  - rewrite elem_of_union, elem_of_singleton. naive_solver.
  - naive_solver.
Qed.

(** The candidates are the nodes from which the rest still fits. *)
Lemma candidates_spec r count :
  0 ≤ count → grPods r ≠ [] →
  ∃ out, candidates r count = Ok out ∧
    ∀ name, name ∈ out ↔ ∃ n l, joined r (count + 1) n l ∧ nodeNameAt r n = name.
Proof.
  intros Hc Hp. unfold candidates. rewrite decide_False by tauto.
  destruct (candidateLoop_spec r count (seq 0 (length (grNodes r))) ∅ Hc Hp) as (out & -> & Hout).
  { intros n Hn. apply elem_of_seq in Hn. lia. }
  exists out. split; [done|]. intros name. rewrite Hout. split.
  - intros [?%elem_of_empty|(n & l & _ & ? & ?)]; [done|by exists n, l].
  - intros (n & l & Hj & Hn). right. exists n, l. split_and!; [|done|done]. apply joined_current in Hj as (? & _ & _).
    apply elem_of_seq. lia.
Qed.
End joins.

(** ** A domain's room *)

Section domain.
Context {SP SN : Type} `{!SchedulerLib SP SN}.
Implicit Types (nodes : list (NodeInfo SP SN)) (pods : list (option (Pod SP))) (info : NodeInfo SP SN).

(** How many members a node is given at most. *)
Definition slots pods (need : Z) info : Z :=
  (roomOf pods (if membersMustStayApart pods then 1 else need) info).2.

(** [l] gives [need] members, the first among them, a node each: every one
    fits the node it is given, and no node is given more than its slots. *)
Record placement nodes pods (need : Z) (l : list (nat * nat)) : Prop := {
  pl_once : NoDup l.*1;
  pl_size : Z.of_nat (length l) = need;
  pl_current : ∃ n, (0%nat, n) ∈ l;
  pl_fits p n : (p, n) ∈ l →
    ∃ info pod, nodes !! n = Some info ∧ pods !! p = Some pod ∧ nodeFitsPod info pod = true;
  pl_slots n info : nodes !! n = Some info →
    Z.of_nat (length (filter (λ x, x.2 = n) l)) ≤ slots pods need info;
}.

Lemma fitAt_newGangRoom nodes pods need n p :
  fitAt (newGangRoom nodes pods need) n p = true ↔
  ∃ info pod, nodes !! n = Some info ∧ pods !! p = Some pod ∧ nodeFitsPod info pod = true.
Proof.
  unfold fitAt, newGangRoom. cbn [grFits]. rewrite <-list_fmap_compose, list_lookup_fmap.
  destruct (nodes !! n) as [info|]; cbn; [|split; [done|by intros (? & ? & ? & _)]].
  rewrite list_lookup_fmap. destruct (pods !! p) as [pod|]; cbn; [|split; [done|by intros (? & ? & _ & ? & _)]].
  split; [by exists info, pod|]. by intros (? & ? & [= <-] & [= <-] & ?).
Qed.

Lemma roomAt_newGangRoom nodes pods need n :
  roomAt (newGangRoom nodes pods need) n = from_option (slots pods need) 0 (nodes !! n).
Proof.
  unfold roomAt, newGangRoom. cbn [grRoom]. rewrite <-list_fmap_compose, list_lookup_fmap. by destruct (nodes !! n).
Qed.

Lemma slots_bounds pods need info : 1 ≤ need → 0 ≤ slots pods need info ≤ need.
Proof. intros Hn. unfold slots, roomOf. cbn [snd]. destruct (decide (omap id _ = [])); [lia|].
  destruct (membersMustStayApart pods); lia. Qed.

Lemma slots_pos pods need info p pod :
  pods !! p = Some pod → nodeFitsPod info pod = true → 0 < slots pods need info.
Proof.
  intros Hp Hf. unfold slots, roomOf. cbn [snd]. rewrite decide_False; [lia|]. intros E.
  assert (pod ∈ filter (λ pod, nodeFitsPod info pod = true) pods) as Hin.
  { apply list_elem_of_filter. split; [done|]. apply list_elem_of_lookup. eauto. }
  destruct pod as [pd|]; [|unfold nodeFitsPod in Hf; by destruct (InfoNode info), (InfoAllocatable info), (InfoRequested info)].
  assert (pd ∈ omap id (filter (λ pod, nodeFitsPod info pod = true) pods)) as Hin'
    by (apply list_elem_of_omap; by exists (Some pd)).
  rewrite E in Hin'. by apply elem_of_nil in Hin'.
Qed.

Lemma joined_placement nodes pods need size l :
  1 ≤ need → ((∃ n, joined (newGangRoom nodes pods need) size n l) ↔
  NoDup l.*1 ∧ Z.of_nat (length l) = size ∧ (∃ n, (0%nat, n) ∈ l) ∧
  (∀ p n, (p, n) ∈ l → ∃ info pod, nodes !! n = Some info ∧ pods !! p = Some pod ∧ nodeFitsPod info pod = true) ∧
  ∀ n info, nodes !! n = Some info → Z.of_nat (length (filter (λ x, x.2 = n) l)) ≤ slots pods need info).
Proof.
  intros Hneed. set (r := newGangRoom nodes pods need). split.
  - intros (n0 & L & Hin & _ & Hl). split_and!; [apply L|done|by exists n0| |].
    + intros p n Hp. apply (st_uses _ _ _ _ L) in Hp as (_ & _ & Hf). by apply fitAt_newGangRoom in Hf.
    + intros n info Hn. pose proof (st_room _ _ _ _ L n) as Hr. unfold r in Hr. rewrite roomAt_newGangRoom, Hn in Hr. cbn [from_option] in Hr.
      pose proof (slots_bounds pods need info Hneed). lia.
  - intros (Hnd & Hl & [n0 H0] & Hfits & Hslots). exists n0. split_and!; [|done| |done].
    + split; [done| |].
      * intros p n Hp. destruct (Hfits p n Hp) as (info & pod & Hn & Hpod & Hf). split_and!.
        -- by apply lookup_lt_Some in Hn.
        -- unfold r. rewrite roomAt_newGangRoom, Hn. by eapply slots_pos.
        -- apply fitAt_newGangRoom. by exists info, pod.
      * intros n. unfold r. rewrite roomAt_newGangRoom. destruct (nodes !! n) as [info|] eqn:Hn; cbn [from_option].
        -- specialize (Hslots n info Hn). lia.
        -- rewrite filter_none; [cbn; lia|]. intros [p m] Hp E. cbn in E. subst m.
           destruct (Hfits p n Hp) as (info & _ & Hn' & _). congruence.
    + intros p n Hp. destruct (Hfits p n Hp) as (_ & pod & _ & Hpod & _). by apply lookup_lt_Some in Hpod.
Qed.

Lemma placement_joined nodes pods need l :
  1 ≤ need → placement nodes pods need l ↔ ∃ n, joined (newGangRoom nodes pods need) need n l.
Proof.
  intros Hneed. rewrite joined_placement by done. split; [intros []; split_and!; done|].
  intros (? & ? & ? & ? & ?). by split.
Qed.

(** The total, without wrapping. *)
Lemma total_newGangRoom nodes pods need :
  1 ≤ need → Z.of_nat (length nodes) * need ≤ MaxInt64 →
  total (newGangRoom nodes pods need) = zsum_with (slots pods need) nodes.
Proof.
  intros Hneed Hsz. unfold total, newGangRoom. cbn [grRoom]. rewrite <-list_fmap_compose.
  change (snd ∘ roomOf pods (if membersMustStayApart pods then 1 else need)) with (slots pods need).
  assert (∀ ns t, 0 ≤ t → t + Z.of_nat (length ns) * need ≤ MaxInt64 →
    foldl (λ t room, i64 (t + room)) t (slots pods need <$> ns) = t + zsum_with (slots pods need) ns) as Hgen.
  { intros ns. induction ns as [|x ns IH]; intros t Ht Hle; [cbn; lia|]. cbn [length] in Hle. rewrite fmap_cons. cbn [foldl].
    pose proof (slots_bounds pods need x Hneed). rewrite i64_id by (unfold int64_range; lia).
    rewrite IH, zsum_with_cons by lia. lia. }
  rewrite Hgen by lia. lia.
Qed.

(** A placement uses up no more than the total. *)
Lemma placement_total nodes pods need l :
  placement nodes pods need l → need ≤ zsum_with (slots pods need) nodes.
Proof.
  intros P. pose proof (pl_size _ _ _ _ P) as Hsize.
  assert (∀ p n, (p, n) ∈ l → (n < length nodes)%nat) as Hn.
  { intros p n Hp. apply P in Hp as (info & _ & Hi & _). by apply lookup_lt_Some in Hi. }
  assert (∀ k ns, (∀ i info, ns !! i = Some info → nodes !! (k + i)%nat = Some info) →
    Z.of_nat (length (filter (λ x : nat * nat, (k ≤ x.2 < k + length ns)%nat) l)) ≤ zsum_with (slots pods need) ns) as Hgen.
  { intros k ns. revert k. induction ns as [|info ns IH]; intros k Hns.
    { rewrite filter_none; [cbn; lia|]. intros x _ ?. cbn in *. lia. }
    rewrite zsum_with_cons. specialize (IH (S k)).
    assert (length (filter (λ x : nat * nat, (k ≤ x.2 < k + length (info :: ns))%nat) l)
      ≤ length (filter (λ x : nat * nat, x.2 = k) l)
        + length (filter (λ x : nat * nat, (S k ≤ x.2 < S k + length ns)%nat) l))%nat as Hsplit.
    { clear. cbn [length]. induction l as [|x l IH]; [done|]. rewrite !filter_cons. repeat case_decide; cbn [length]; lia. }
    pose proof (pl_slots _ _ _ _ P k info) as Hk. specialize (Hns 0%nat info eq_refl) as H0. rewrite Nat.add_0_r in H0.
    specialize (Hk H0).
    assert (Z.of_nat (length (filter (λ x : nat * nat, (S k ≤ x.2 < S k + length ns)%nat) l)) ≤ zsum_with (slots pods need) ns).
    { apply IH. intros i info' Hi. specialize (Hns (S i) info' Hi). by rewrite Nat.add_succ_comm. }
    lia. }
  specialize (Hgen 0%nat nodes (λ i info Hi, Hi)). rewrite filter_all in Hgen; [lia|].
  intros [p n] Hp. apply Hn in Hp. cbn. lia.
Qed.

(** The nodes by domain. *)
Lemma groupNode_lookup topologyKey (nodeInfos : list (NodeInfo SP SN)) d :
  d ≠ "" →
  foldl (groupNode topologyKey) ∅ nodeInfos !! d =
  let ns := filter (λ info, domainOf (InfoNode info) topologyKey = d) nodeInfos in
  if decide (ns = []) then None else Some ns.
Proof.
  intros Hd. refine (foldl_ind (groupNode topologyKey) (λ pre m, m !! d =
    let ns := filter (λ info, domainOf (InfoNode info) topologyKey = d) pre in
    if decide (ns = []) then None else Some ns) ∅ nodeInfos _ _).
  { cbv zeta. by rewrite filter_nil, decide_True. }
  intros pre info post m _ IH. cbv zeta in *. unfold groupNode. rewrite filter_app, filter_cons, filter_nil.
  set (ns := filter _ pre) in *. clearbody ns. destruct (decide (domainOf (InfoNode info) topologyKey = d)) as [E|E].
  - rewrite E, (decide_False (P := d = "")) by done. rewrite lookup_insert_eq, IH.
    rewrite (decide_False (P := ns ++ [info] = [])) by (by intros [_ ?]%app_eq_nil).
    by destruct (decide (ns = [])) as [->|].
  - rewrite app_nil_r, <-IH. destruct (decide (domainOf (InfoNode info) topologyKey = "")); [done|].
    by apply lookup_insert_ne.
Qed.
End domain.

(** C20: Where a gang fits.  The room [feasibleAtLeastByDomain] reports for a
    domain reaches the number of members still needed exactly when that many
    members, the current one among them, can be given nodes of the domain at
    once, each on a node it fits and no node over its slots; a domain the gang
    cannot form in reports nothing.  And the candidates for the current member
    are exactly the nodes it can take in such a placement, so that taking any of
    them leaves the others a place. *)
Theorem gang_fits {SP SN} `{!SchedulerLib SP SN} (nodeInfos : list (NodeInfo SP SN)) (topologyKey d : string)
    (pods : list (option (Pod SP))) (need : Z) :
  1 ≤ need → Z.of_nat (length nodeInfos) * need ≤ MaxInt64 → d ≠ "" →
  let nodes := filter (λ info, domainOf (InfoNode info) topologyKey = d) nodeInfos in
  let free := feasibleAtLeastByDomain nodeInfos topologyKey pods need in
  (is_Some (free !! d) ↔ nodes ≠ []) ∧
  (need ≤ default 0 (free !! d) ↔ ∃ l, placement nodes pods need l) ∧
  (default 0 (free !! d) < need → default 0 (free !! d) = 0) ∧
  (pods ≠ [] → ∃ out, candidates (newGangRoom nodes pods need) (need - 1) = Ok out ∧
     ∀ name, name ∈ out ↔ ∃ l n info node, placement nodes pods need l ∧ (0%nat, n) ∈ l ∧
       nodes !! n = Some info ∧ InfoNode info = Some node ∧ KubeName node = name).
Proof.
  intros Hneed Hsz Hd nodes free.
  assert (Z.of_nat (length nodes) * need ≤ MaxInt64) as Hsz'.
  { assert (length nodes ≤ length nodeInfos)%nat by apply length_filter. nia. }
  pose proof (groupNode_lookup topologyKey nodeInfos d Hd) as Hg. cbv zeta in Hg. fold nodes in Hg.
  assert (free !! d = if decide (nodes = []) then None else
    Some (match currentCanJoin (newGangRoom nodes pods need) need with
          | Some true => total (newGangRoom nodes pods need) | _ => 0 end)) as Hfree.
  { unfold free, feasibleAtLeastByDomain. rewrite lookup_fmap, Hg. by destruct (decide (nodes = [])). }
  destruct (currentCanJoin_spec (newGangRoom nodes pods need) need) as (b & Hb & Hiff).
  assert (b = true ↔ ∃ l, placement nodes pods need l) as Hiff'.
  { rewrite Hiff. setoid_rewrite placement_joined; [|done]. split; [intros (_ & n & l & ?); by exists l, n|].
    intros (l & n & ?). split; [lia|]. by exists n, l. }
  rewrite Hb in Hfree. split_and!.
  - rewrite Hfree. destruct (decide (nodes = [])); split; [by intros []|done|done|by eexists].
  - rewrite <-Hiff', Hfree. destruct (decide (nodes = [])) as [E|E]; cbn [default from_option id].
    + split; [lia|]. intros (l & P)%Hiff'. destruct (pl_current _ _ _ _ P) as [n (info & _ & Hn & _)%P]. rewrite E in Hn. done.
    + destruct b; [|split; [lia|done]]. split; [done|]. intros (l & P)%Hiff'. rewrite total_newGangRoom by done.
      by eapply placement_total.
  - rewrite Hfree. destruct (decide (nodes = [])) as [E|E]; cbn [default from_option id]; [done|].
    destruct b; [|done]. destruct (proj1 Hiff' eq_refl) as [l P]. rewrite total_newGangRoom by done.
    pose proof (placement_total _ _ _ _ P). lia.
  - intros Hp. destruct (candidates_spec (newGangRoom nodes pods need) (need - 1)) as (out & -> & Hout); [lia|done|].
    exists out. split; [done|]. intros name. rewrite Hout. replace (need - 1 + 1) with need by lia. split.
    + intros (n & l & Hj & Hname). assert (placement nodes pods need l) as P by (apply placement_joined; [done|by exists n]).
      destruct Hj as (_ & Hin & _). destruct (pl_fits _ _ _ _ P 0%nat n Hin) as (info & pod & Hn & _ & Hf).
      destruct (InfoNode info) as [node|] eqn:Ei; [|unfold nodeFitsPod in Hf; by rewrite Ei in Hf].
      exists l, n, info, node. split_and!; [done..|]. unfold nodeNameAt in Hname. cbn [grNodes newGangRoom] in Hname.
      by rewrite Hn, Ei in Hname.
    + intros (l & n & info & node & P & Hin & Hn & Ei & Hname). exists n, l. split.
      * apply placement_joined in P as (n' & L & Hin' & Hrest); [|done]. split; [done|]. split; [done|]. exact Hrest.
      * unfold nodeNameAt. cbn [grNodes newGangRoom]. by rewrite Hn, Ei.
Qed.

(** Two nodes in one domain; the second member fits only the first node, so the
    current one must not take it. *)
#[local] Instance sample_lib : SchedulerLib bool bool := {
  tolerated _ _ := true;
  affinity_match p n := Some (PodRest p || KubeRest n);
  pod_requests _ := mkResource 1 0 0 0 ∅;
  set_max_resource _ _ := mkResource 1 0 0 0 ∅;
  anti_affinity _ := Some [];
}.
Definition sample_info (nm : string) (special : bool) : NodeInfo bool bool :=
  mkNodeInfo (Some (mkKubeNode nm {["rack" := "r1"]} false special)) (Some (mkResource 1 0 0 5 ∅)) (Some zeroResource) [].
Definition two_nodes : list (NodeInfo bool bool) := [sample_info "n1" true; sample_info "n2" false].
Definition two_pods : list (option (Pod bool)) :=
  [Some (mkPod "flexible" "ns" ∅ "" true); Some (mkPod "picky" "ns" ∅ "" false)].

Example two_fit : feasibleAtLeastByDomain two_nodes "rack" two_pods 2 !! "r1" = Some 2.
Proof. vm_compute. reflexivity. Qed.
Example two_candidates :
  match candidates (newGangRoom two_nodes two_pods 2) 1 with Ok out => elements out | _ => [] end = ["n2"].
Proof. vm_compute. reflexivity. Qed.

Lemma gang_fits_witness : ∃ l, placement two_nodes two_pods 2 l.
Proof.
  refine (proj1 (proj1 (proj2 (gang_fits two_nodes "rack" "r1" two_pods 2 _ _ _))) _).
  - lia.
  - cbn. lia.
  - discriminate.
  - rewrite two_fit. cbn. lia.
Defined.
