(* ===== verification/TpuShape.v ===== *)
(** * TPU slice shapes

    [pkg/tpuslice/shape.go]: the topology a slice has, read from and written to
    its canonical spelling, and whether a set of pods fills one exactly.  A
    topology's array is kept as the list of its first [n] entries, the others
    being zero.  Strings are byte strings; decimal digits are the Standard
    Library's. *)

From Stdlib Require Import Ascii NArith Decimal DecimalString DecimalN DecimalFacts.
From S2P Require Import Prelude.
Local Open Scope Z_scope.

Definition maxDims : nat := 3.

Record Topology := mkTopology { dims : list Z }.

Inductive topology_error :=
| ErrDimensions (s : string)
| ErrDimension (s p : string)
| ErrChipsOverflow (s : string).

(** ** Strings *)

(** [strings.Split] on one byte. *)
Fixpoint Split (sep : ascii) (s : string) : list string :=
  match s with
  | "" => [""]
  | String c s' =>
      if decide (c = sep) then "" :: Split sep s'
      else match Split sep s' with
           | [] => [String c ""]
           | p :: ps => String c p :: ps
           end
  end.

(** [strings.Join] with a one-byte separator. *)
Fixpoint Join (sep : ascii) (parts : list string) : string :=
  match parts with
  | [] => ""
  | [p] => p
  | p :: ps => p +:+ String sep (Join sep ps)
  end.

(** [strconv.FormatInt(z, 10)] of a number that is not negative. *)
Definition FormatInt (z : Z) : string := NilEmpty.string_of_uint (N.to_uint (Z.to_N z)).

(** [strconv.ParseInt(s, 10, 64)] of a string of digits: no other string is
    passed to it. *)
Definition ParseInt (s : string) : option Z :=
  match NilEmpty.uint_of_string s with
  | Some d => let z := Z.of_N (N.of_uint d) in if decide (z ≤ MaxInt64) then Some z else None
  | None => None
  end.

Definition isDigit (c : ascii) : bool := ((48 <=? N_of_ascii c) && (N_of_ascii c <=? 57))%N.

Fixpoint allDigits (p : string) : bool :=
  match p with "" => true | String c p => isDigit c && allDigits p end.

Definition canonicalDim (p : string) : bool :=
  match p with
  | "" => false
  | String c _ => if decide (c = "0"%char) then false else allDigits p
  end.

(** ** Topologies *)

(** One part of the loop: the chips so far and the dimensions read. *)
Definition parseDim (s : string) (st : Z * list Z) (p : string) : outcome topology_error (Z * list Z) :=
  let '(chips, ds) := st in
  if negb (canonicalDim p) then Err (ErrDimension s p)
  else match ParseInt p with
       | None => Err (ErrChipsOverflow s)
       | Some d => if decide (MaxInt64 `quot` d < chips) then Err (ErrChipsOverflow s)
                   else Ok (i64 (chips * d), ds ++ [d])
       end.

Definition ParseTopology (s : string) : outcome topology_error Topology :=
  let parts := Split "x" s in
  if decide (length parts < 2 ∨ maxDims < length parts)%nat then Err (ErrDimensions s)
  else (let? st := ofold (parseDim s) (1, []) parts in Ok (mkTopology st.2))%go.

Definition TopologyIsZero (t : Topology) : bool := bool_decide (dims t = []).

Definition TopologyString (t : Topology) : string := Join "x" (FormatInt <$> dims t).

Definition Chips (t : Topology) : Z :=
  if TopologyIsZero t then 0 else foldl (λ chips d, i64 (chips * d)) 1 (dims t).

Inductive tile_error :=
| ErrEmptyTopology
| ErrChipsPerHost (n : Z)
| ErrPartialHosts (t : Topology) (chips chipsPerHost : Z)
| ErrNoPods (t : Topology) (chips : Z)
| ErrPodWithoutChips (i : nat) (t : Topology)
| ErrPodsDiffer (perPod n : Z)
| ErrPodSpansHosts (perPod chipsPerHost : Z)
| ErrHostNotDivided (perPod chipsPerHost : Z)
| ErrNotFilled (pods perPod : Z) (t : Topology) (chips hosts needed : Z).

Definition Hosts (t : Topology) (chipsPerHost : Z) : outcome tile_error Z :=
  if TopologyIsZero t then Err ErrEmptyTopology
  else if decide (chipsPerHost ≤ 0) then Err (ErrChipsPerHost chipsPerHost)
  else let chips := Chips t in
       if decide (chips `rem` chipsPerHost ≠ 0) then Err (ErrPartialHosts t chips chipsPerHost)
       else Ok (chips `quot` chipsPerHost).

(** One pod of the loop of [Tile]; the state is its index. *)
Definition checkPod (t : Topology) (perPod : Z) (i : nat) (n : Z) : outcome tile_error nat :=
  if decide (n ≤ 0) then Err (ErrPodWithoutChips i t)
  else if decide (n ≠ perPod) then Err (ErrPodsDiffer perPod n)
  else Ok (S i).

Definition Tile (t : Topology) (chipsPerHost : Z) (podChips : list Z) : outcome tile_error unit :=
  (let? hosts := Hosts t chipsPerHost in
   match podChips with
   | [] => Err (ErrNoPods t (Chips t))
   | perPod :: _ =>
       let? _ := ofold (checkPod t perPod) 0%nat podChips in
       if decide (chipsPerHost < perPod) then Err (ErrPodSpansHosts perPod chipsPerHost)
       else if decide (chipsPerHost `rem` perPod ≠ 0) then Err (ErrHostNotDivided perPod chipsPerHost)
       else let chips := Chips t in
            if decide (chips `rem` perPod ≠ 0 ∨ Z.of_nat (length podChips) ≠ chips `quot` perPod)
            then Err (ErrNotFilled (Z.of_nat (length podChips)) perPod t chips hosts (chips `quot` perPod))
            else Ok tt
   end)%go.

(** ** The shape a selector names *)

Record Keys := mkKeys { AcceleratorKey : string; TopologyKey : string }.
Record Shape := mkShape { ShapeAccelerator : string; ShapeTopology : Topology }.

Inductive shape_error :=
| ErrKeysUnset
| ErrNoAccelerator (raw topologyKey acceleratorKey : string)
| ErrSelector (key : string) (e : topology_error).

(** [None] when the selector names no topology. *)
Definition FromNodeSelector (nodeSelector : gmap string string) (keys : Keys)
    : outcome shape_error (option Shape) :=
  if decide (AcceleratorKey keys = "" ∨ TopologyKey keys = "") then Err ErrKeysUnset
  else match nodeSelector !! TopologyKey keys with
       | None => Ok None
       | Some raw =>
           let accelerator := default "" (nodeSelector !! AcceleratorKey keys) in
           if decide (accelerator = "") then Err (ErrNoAccelerator raw (TopologyKey keys) (AcceleratorKey keys))
           else match ParseTopology raw with
                | Ok t => Ok (Some (mkShape accelerator t))
                | Err e => Err (ErrSelector (TopologyKey keys) e)
                | Panic => Panic
                end
       end.

(** The containers' chips, each from its limit or else its request; [value] is
    [Quantity.Value]. *)
Definition ContainerChips {Q} (value : Q → Z) (containers : list (gmap string Q * gmap string Q))
    (resource : string) : Z :=
  foldl (λ total c, match c.1 !! resource with
    | Some q => i64 (total + value q)
    | None => match c.2 !! resource with Some q => i64 (total + value q) | None => total end
    end) 0 containers.

(** ** One dimension *)

Lemma uint_of_char_digit c d :
  isDigit c = true → ∃ d', uint_of_char c (Some d) = Some d' ∧ (c ≠ "0"%char → nzhead d' = d') ∧ d' ≠ Nil.
Proof.
  destruct c as [[] [] [] [] [] [] [] []]; cbn; intros E; try discriminate E;
    (eexists; split; [reflexivity|split; [|discriminate]]); intros Hc; (reflexivity || congruence).
Qed.

Lemma allDigits_parse p : allDigits p = true → ∃ d, NilEmpty.uint_of_string p = Some d.
Proof.
  induction p as [|c p IH]; cbn; [by eexists|]. intros [Hc (d & ->)%IH]%andb_true_iff.
  destruct (uint_of_char_digit c d Hc) as (d' & -> & _). by exists d'.
Qed.

Lemma canonicalDim_parse p :
  canonicalDim p = true → ∃ d, NilEmpty.uint_of_string p = Some d ∧ nzhead d = d ∧ d ≠ Nil.
Proof.
  destruct p as [|c p]; [done|]. cbn [canonicalDim]. case_decide as E; [done|]. cbn [allDigits].
  intros [Hc (d & Hd)%allDigits_parse]%andb_true_iff. destruct (uint_of_char_digit c d Hc) as (d' & Hd' & Hn & Hne).
  exists d'. cbn. rewrite Hd. split_and!; [done|by apply Hn|done].
Qed.

Lemma string_of_uint_digits d : allDigits (NilEmpty.string_of_uint d) = true.
Proof. induction d; cbn; done. Qed.

Lemma canonicalDim_print d :
  nzhead d = d → d ≠ Nil → canonicalDim (NilEmpty.string_of_uint d) = true.
Proof.
  intros Hn Hne. destruct d; try done; try apply string_of_uint_digits.
  exfalso. by apply (nzhead_nonzero (D0 d) d).
Qed.

Lemma to_uint_norm n : n ≠ 0%N → nzhead (N.to_uint n) = N.to_uint n ∧ N.to_uint n ≠ Nil.
Proof.
  intros Hn. assert (unorm (N.to_uint n) = N.to_uint n) as Hu by (rewrite <-Unsigned.to_of, Unsigned.of_to; done).
  assert (nzhead (N.to_uint n) ≠ Nil) as Hne.
  { intros Hz%unorm_0. rewrite Hu in Hz. apply Hn. rewrite <-(Unsigned.of_to n), Hz. done. }
  rewrite <-Hu at 2. rewrite unorm_nzhead by done. split; [done|]. intros E. rewrite E in Hne. done.
Qed.

(** Canonical spellings are exactly what numbers are printed as. *)
Lemma dim_codec p v :
  canonicalDim p = true ∧ ParseInt p = Some v ↔ p = FormatInt v ∧ 1 ≤ v ≤ MaxInt64.
Proof.
  unfold ParseInt, FormatInt. split.
  - intros [(d & Hd & Hn & Hne)%canonicalDim_parse Hp]. rewrite Hd in Hp. case_decide as Hle; [|done]. injection Hp as <-.
    assert (unorm d = d) as Hu by (rewrite unorm_nzhead by (by rewrite Hn); done).
    assert (N.of_uint d ≠ 0%N) as Hpos.
    { intros E. assert (unorm d = zero) as Hz by (rewrite <-Unsigned.to_of, E; done).
      rewrite Hu in Hz. subst d. discriminate Hn. }
    rewrite N2Z.id, Unsigned.to_of, Hu. split; [symmetry; by apply NilEmpty.sus|lia].
  - intros [-> Hv]. destruct (to_uint_norm (Z.to_N v)) as [Hn Hne]; [lia|]. split; [by apply canonicalDim_print|].
    rewrite NilEmpty.usu, Unsigned.of_to, Z2N.id by lia. by rewrite decide_True by lia.
Qed.

(** ** Splitting and joining *)

(** The byte is not in the string. *)
Fixpoint lacks (sep : ascii) (s : string) : bool :=
  match s with "" => true | String c s => negb (bool_decide (c = sep)) && lacks sep s end.

Lemma Split_nonempty sep s : Split sep s ≠ [].
Proof. destruct s as [|c s]; cbn; [done|]. case_decide; [done|]. by destruct (Split sep s). Qed.

Lemma Join_Split sep s : Join sep (Split sep s) = s.
Proof.
  induction s as [|c s IH]; [done|]. cbn [Split]. pose proof (Split_nonempty sep s) as Hne. case_decide as E.
  - destruct (Split sep s) as [|p ps]; [done|]. subst c.
    change (Join sep ("" :: p :: ps)) with (String sep (Join sep (p :: ps))). by rewrite IH.
  - destruct (Split sep s) as [|p [|q ps]]; [done| |]; rewrite <-IH; done.
Qed.

Lemma Split_lacks sep s p : p ∈ Split sep s → lacks sep p = true.
Proof.
  revert p. induction s as [|c s IH]; cbn [Split]; [by intros p ->%list_elem_of_singleton|].
  case_decide as E; [intros p [->|Hp]%elem_of_cons; [done|by apply IH]|].
  destruct (Split sep s) as [|q ps]; [intros p ->%list_elem_of_singleton; cbn; by rewrite bool_decide_eq_false_2|].
  intros p [->|Hp]%elem_of_cons; [|apply IH; by right]. cbn. rewrite bool_decide_eq_false_2 by done. apply IH. left.
Qed.

Lemma Split_app sep p s : lacks sep p = true → Split sep (p +:+ String sep s) = p :: Split sep s.
Proof.
  induction p as [|c p IH]; cbn [lacks].
  { intros _. change ("" +:+ String sep s) with (String sep s). cbn [Split]. by rewrite decide_True. }
  intros [Hc%negb_true_iff%bool_decide_eq_false Hp]%andb_true_iff.
  change (String c p +:+ String sep s) with (String c (p +:+ String sep s)). cbn [Split].
  rewrite decide_False, IH by done. done.
Qed.

Lemma Split_one sep p : lacks sep p = true → Split sep p = [p].
Proof.
  induction p as [|c p IH]; cbn [lacks]; [done|]. intros [Hc%negb_true_iff%bool_decide_eq_false Hp]%andb_true_iff.
  cbn [Split]. by rewrite decide_False, IH by done.
Qed.

Lemma Split_Join sep parts : parts ≠ [] → (∀ p, p ∈ parts → lacks sep p = true) → Split sep (Join sep parts) = parts.
Proof.
  induction parts as [|p parts IH]; [done|]. intros _ Hl. destruct parts as [|q ps].
  - cbn [Join]. apply Split_one, Hl. left.
  - change (Join sep (p :: q :: ps)) with (p +:+ String sep (Join sep (q :: ps))).
    rewrite Split_app by (apply Hl; left). rewrite IH; [done|done|]. intros x Hx. apply Hl. by right.
Qed.

Lemma digits_lack_x p : allDigits p = true → lacks "x" p = true.
Proof.
  induction p as [|c p IH]; [done|]. cbn [allDigits lacks]. intros [Hc Hp]%andb_true_iff. rewrite IH by done.
  rewrite bool_decide_eq_false_2; [done|]. by intros ->.
Qed.

(** ** Topologies *)

(** The product of the dimensions. *)
Definition volume (ds : list Z) : Z := foldr Z.mul 1 ds.

(** Two or three positive dimensions whose chips are an [int64]. *)
Definition valid_topology (t : Topology) : Prop :=
  (2 ≤ length (dims t) ≤ maxDims)%nat ∧ Forall (λ d, 1 ≤ d) (dims t) ∧ volume (dims t) ≤ MaxInt64.

Lemma volume_pos ds : Forall (λ d, 1 ≤ d) ds → 1 ≤ volume ds.
Proof. induction 1 as [|d ds Hd _ IH]; cbn [volume foldr]; [lia|]. fold (volume ds). nia. Qed.

(** One step of the loop that reads the parts. *)
Lemma parseDim_Ok s c ds p st :
  1 ≤ c ≤ MaxInt64 →
  parseDim s (c, ds) p = Ok st ↔ ∃ d, p = FormatInt d ∧ 1 ≤ d ∧ c * d ≤ MaxInt64 ∧ st = (c * d, ds ++ [d]).
Proof.
  intros Hc. unfold parseDim. destruct (canonicalDim p) eqn:Ecan; cbn [negb].
  - destruct (ParseInt p) as [d|] eqn:Ep.
    + destruct (proj1 (dim_codec p d) (conj Ecan Ep)) as [-> Hd].
      assert (MaxInt64 `quot` d < c ↔ MaxInt64 < c * d) as Hquot.
      { rewrite Z.quot_div_nonneg by lia. pose proof (Z.mul_div_le MaxInt64 d ltac:(lia)).
        pose proof (Z.mul_succ_div_gt MaxInt64 d ltac:(lia)). split; nia. }
      assert (∀ d', FormatInt d = FormatInt d' → 1 ≤ d' → d' ≤ MaxInt64 → d' = d) as Hinj.
      { intros d' E H1 H2. destruct (proj2 (dim_codec (FormatInt d) d')) as [_ Ep']; [done|]. congruence. }
      case_decide as Hlt; rewrite Hquot in Hlt.
      * split; [done|]. intros (d' & E & H1 & Hle & _). rewrite (Hinj d') in Hle by (try done; nia). lia.
      * rewrite i64_id by (unfold int64_range; nia). split.
        -- intros [= <-]. exists d. split_and!; [done|lia|lia|done].
        -- intros (d' & E & H1 & Hle & ->). by rewrite (Hinj d') by (try done; nia).
    + split; [done|]. intros (d & -> & H1 & Hle & _). destruct (proj2 (dim_codec (FormatInt d) d)) as [_ Ep'].
      { split; [done|nia]. }
      congruence.
  - split; [done|]. intros (d & -> & H1 & Hle & _). destruct (proj2 (dim_codec (FormatInt d) d)) as [Ec _].
    { split; [done|nia]. }
    congruence.
Qed.

Lemma parseDims_Ok s c ds parts st :
  1 ≤ c ≤ MaxInt64 →
  ofold (parseDim s) (c, ds) parts = Ok st ↔
  ∃ vs, parts = FormatInt <$> vs ∧ Forall (λ d, 1 ≤ d) vs ∧ c * volume vs ≤ MaxInt64 ∧ st = (c * volume vs, ds ++ vs).
Proof.
  revert c ds. induction parts as [|p parts IH]; intros c ds Hc; cbn [ofold].
  { rewrite <-(app_nil_r ds) at 1. rewrite <-(Z.mul_1_r c) at 1. split.
    - intros [= <-]. exists []. split_and!; [done|constructor|cbn; lia|done].
    - intros ([|v vs] & Hf & _ & _ & ->); [done|discriminate Hf]. }
  split.
  - intros (st1 & (d & -> & H1 & Hle & ->)%parseDim_Ok & Hrest)%obind_Ok_inv; [|done].
    apply IH in Hrest as (vs & -> & Hvs & Hv & ->); [|nia]. exists (d :: vs). cbn [volume foldr].
    split_and!; [done|by constructor|fold (volume vs); nia|].
    fold (volume vs). rewrite <-app_assoc, Z.mul_assoc. done.
  - intros ([|d vs] & Hf & Hvs & Hv & ->); [discriminate Hf|]. injection Hf as -> ->. apply Forall_cons in Hvs as [Hd Hvs].
    cbn [volume foldr] in Hv |- *. fold (volume vs) in Hv |- *. pose proof (volume_pos vs Hvs).
    assert (1 ≤ c * d ≤ MaxInt64) as Hcd.
    { assert (1 ≤ c * d) by nia. rewrite Z.mul_assoc in Hv. nia. }
    rewrite (proj2 (parseDim_Ok s c ds (FormatInt d) (c * d, ds ++ [d]) Hc)) by (exists d; split_and!; [done|done|lia|done]).
    cbn [obind]. apply IH; [done|].
    exists vs. split_and!; [done|done|nia|]. rewrite <-app_assoc. f_equal. apply Z.mul_assoc.
Qed.

Lemma FormatInt_lacks_x d : lacks "x" (FormatInt d) = true.
Proof. apply digits_lack_x, string_of_uint_digits. Qed.

(** C14: Topologies and their spelling.  A string is read as a topology exactly
    when the topology is a legal shape and the string is what that shape is
    printed as: printing and reading are inverse to each other, no two spellings
    name one shape, and reading never panics. *)
Theorem topology_roundtrip (s : string) (t : Topology) :
  (ParseTopology s = Ok t ↔ valid_topology t ∧ s = TopologyString t) ∧ ParseTopology s ≠ Panic.
Proof.
  split.
  - unfold ParseTopology, TopologyString, valid_topology. case_decide as Hlen.
    + split; [done|]. intros [(Hl & _ & _) ->]. exfalso. rewrite Split_Join in Hlen.
      * rewrite length_fmap in Hlen. lia.
      * intros E%fmap_nil_inv. rewrite E in Hl. cbn in Hl. lia.
      * intros p (d & -> & _)%list_elem_of_fmap. apply FormatInt_lacks_x.
    + split.
      * intros (st & (vs & Hparts & Hvs & Hv & ->)%parseDims_Ok & [= <-])%obind_Ok_inv; [|lia]. cbn [snd app dims].
        rewrite <-Hparts, Join_Split. split_and!; [| |done|lia|done]; rewrite Hparts, length_fmap in Hlen; lia.
      * intros [(Hl & Hd & Hv) ->]. rewrite Split_Join.
        -- rewrite (proj2 (parseDims_Ok _ 1 [] (FormatInt <$> dims t) (1 * volume (dims t), [] ++ dims t) ltac:(lia))).
           { cbn. by destruct t. }
           exists (dims t). split_and!; [done|done|lia|done].
        -- intros E%fmap_nil_inv. rewrite E in Hl. cbn in Hl. lia.
        -- intros p (d & -> & _)%list_elem_of_fmap. apply FormatInt_lacks_x.
  - unfold ParseTopology. case_decide; [done|]. assert (ofold (parseDim s) (1, []) (Split "x" s) ≠ Panic) as Hnp.
    { apply ofold_no_panic. intros [c ds] p. unfold parseDim. destruct (negb (canonicalDim p)); [done|].
      destruct (ParseInt p); [|done]. by case_decide. }
    by destruct (ofold _ _ _).
Qed.

Lemma Chips_volume t : valid_topology t → Chips t = volume (dims t) ∧ 1 ≤ Chips t.
Proof.
  intros (Hl & Hd & Hv). unfold Chips, TopologyIsZero. rewrite bool_decide_eq_false_2 by (intros E; rewrite E in Hl; cbn in Hl; lia).
  assert (∀ ds c, Forall (λ d, 1 ≤ d) ds → 1 ≤ c → c * volume ds ≤ MaxInt64 →
    foldl (λ chips d, i64 (chips * d)) c ds = c * volume ds) as Hgen.
  { intros ds. induction ds as [|d ds IH]; intros c Hds Hc Hle; cbn; [lia|]. cbn in Hle. fold (volume ds) in *.
    apply Forall_cons in Hds as [Hd1 Hds]. pose proof (volume_pos ds Hds).
    rewrite i64_id by (unfold int64_range; nia). rewrite IH by (try done; nia). lia. }
  rewrite Hgen by (try done; lia). pose proof (volume_pos _ Hd). lia.
Qed.

(** The loop over the pods passes when all ask for the same positive count. *)
Lemma checkPods_Ok t c i pods :
  (∃ j, ofold (checkPod t c) i pods = Ok j) ↔ Forall (λ n, 0 < n ∧ n = c) pods.
Proof.
  revert i. induction pods as [|n pods IH]; intros i; cbn [ofold]; [split; [constructor|by eexists]|].
  rewrite Forall_cons. unfold checkPod at 1. case_decide as H0; [split; [by intros []|lia]|].
  case_decide as Hc; [split; [by intros []|intros [[_ ?] _]; done]|]. cbn [obind]. rewrite IH.
  split; [intros; split; [lia|done]|by intros []].
Qed.

Lemma zsum_const c pods : Forall (λ n, 0 < n ∧ n = c) pods → zsum pods = c * Z.of_nat (length pods).
Proof. induction 1 as [|n pods [_ ->] _ IH]; [cbn; lia|]. cbn [zsum foldr length]. fold (zsum pods). lia. Qed.

(** When pods fill a slice.  [Tile] accepts exactly the sets of pods that
    all ask for the same positive number of chips, a divisor of what a host has,
    on a topology that is a whole number of hosts, and that together ask for
    every chip of it. *)
Theorem Tile_fills (t : Topology) (chipsPerHost : Z) (podChips : list Z) :
  valid_topology t →
  Tile t chipsPerHost podChips = Ok tt ↔
  0 < chipsPerHost ∧ (chipsPerHost | Chips t) ∧ zsum podChips = Chips t ∧
  ∃ c, 0 < c ∧ (c | chipsPerHost) ∧ Forall (λ n, n = c) podChips.
Proof.
  intros Hv. destruct (Chips_volume t Hv) as [_ Hchips]. unfold Tile, Hosts.
  assert (TopologyIsZero t = false) as ->.
  { apply bool_decide_eq_false_2. intros E. destruct Hv as [Hl _]. rewrite E in Hl. cbn in Hl. lia. }
  case_decide as Hh; [split; [done|lia]|]. case_decide as Hm.
  { split; [done|]. intros (_ & Hdiv & _). apply Z.rem_divide in Hdiv; lia. }
  cbn [obind]. assert (chipsPerHost | Chips t) as Hdiv by (apply Z.rem_divide; lia).
  destruct podChips as [|c rest]; [split; [done|]; intros (_ & _ & E & _); cbn in E; lia|].
  set (pods := c :: rest).
  destruct (ofold (checkPod t c) 0%nat pods) as [j|e|] eqn:Eloop; cbn [obind].
  2,3: split; [done|]; intros (_ & _ & _ & c' & Hc' & _ & Hall); exfalso;
       assert (c' = c) as -> by (by apply Forall_cons in Hall as [? _]);
       destruct (proj2 (checkPods_Ok t c 0%nat pods)) as [j Hj]; [|congruence];
       eapply Forall_impl; [exact Hall|]; intros n ->; done.
  assert (Forall (λ n, 0 < n ∧ n = c) pods) as Hpods by (apply (checkPods_Ok t c 0%nat); eauto).
  assert (0 < c) as Hc by (by apply Forall_cons in Hpods as [[? _] _]).
  pose proof (zsum_const c pods Hpods) as Hsum.
  assert ((∃ c', 0 < c' ∧ (c' | chipsPerHost) ∧ Forall (λ n, n = c') pods) ↔ (c | chipsPerHost)) as Hex.
  { split; [intros (c' & _ & Hd & Hall); by apply Forall_cons in Hall as [-> _]|]. intros Hd. exists c.
    split_and!; [done|done|]. eapply Forall_impl; [exact Hpods|]. by intros n []. }
  rewrite Hex. case_decide as Hspan; [split; [done|]; intros (_ & _ & _ & Hd); apply Z.divide_pos_le in Hd; lia|].
  case_decide as Hhost; [split; [done|]; intros (_ & _ & _ & Hd); apply Z.rem_divide in Hd; lia|].
  assert (c | chipsPerHost) as Hd by (apply Z.rem_divide; lia).
  assert (Chips t `rem` c = 0) as Hrem by (apply Z.rem_divide; [lia|]; by etrans).
  pose proof (Z.quot_rem' (Chips t) c) as Hq. case_decide as Hfill.
  - split; [done|]. intros (_ & _ & E & _). destruct Hfill as [?|Hne]; [done|]. nia.
  - split; [|done]. intros _. split_and!; [lia|done|nia|done].
Qed.

Definition slice_4x4 : Topology := mkTopology [4; 4].

Example parse_4x4 : ParseTopology "4x4" = Ok slice_4x4.
Proof. vm_compute. reflexivity. Qed.
Example parse_leading_zero : ParseTopology "04x4" = Err (ErrDimension "04x4" "04").
Proof. vm_compute. reflexivity. Qed.

Lemma Tile_fills_witness : Tile slice_4x4 4 [4; 4; 4; 4] = Ok tt.
Proof.
  apply (Tile_fills slice_4x4 4 [4; 4; 4; 4]).
  - split; [unfold maxDims; cbn; lia|]. split; [repeat constructor; lia|]. vm_compute. discriminate.
  - split; [lia|]. split; [exists 4; reflexivity|]. split; [reflexivity|]. exists 4. split; [lia|]. split; [exists 1; reflexivity|].
    repeat constructor.
Defined.
