(* ===== verification/Floors.v ===== *)
(** * Replica floors of a placement

    [pkg/placement/protocol/floors.go]: the floors a home accepts, read from the
    resolved components and checked against them, and the division of a
    secondary component's minimum over the homes, in proportion to the primary
    targets or by weights of its own, with at least one replica wherever the
    primary runs.  Targets and minimums are [int32], sums and weights [int64],
    products 128-bit pairs.  The engine, decoder and router specs embed the one
    struct the package reads and are that struct here.  A loop over a Go map
    whose order the code leaves open goes by name. *)

From S2P Require Import Prelude Remainder Apportion.
Local Open Scope Z_scope.

(** [ComponentType]. *)
Definition EngineComponent := "engine".
Definition DecoderComponent := "decoder".
Definition RouterComponent := "router".

(** [PlacementComponentFloor]. *)
Record PlacementComponentFloor := mkFloor { Component : string; Replicas : Z }.
#[export] Instance floor_eq_dec : EqDecision PlacementComponentFloor.
Proof. solve_decision. Defined.

(** [ComponentExtensionSpec], the field the package reads; a [*int]. *)
Record ComponentExtensionSpec := mkExtension { MinReplicas : option Z }.

Inductive floors_error :=
| ErrFloorsDistinct
| ErrFloorsNoReplicaComponent
| ErrFloorNotPositive (component : string)
| ErrFloorUnresolved (component : string)
| ErrFloorsInventory
| ErrFloorDiffers (component : string)
| ErrFloorAbsent (component : string)
| ErrPrimaryComponent
| ErrPrimaryMinimum
| ErrHomeName
| ErrTargetNegative
| ErrPrimaryApportioned
| ErrComponentUnknown (component : string)
| ErrMinimumNegative (component : string)
| ErrScaledInt64
| ErrScaledInt32
| ErrTotal (component : string) (cause : floors_error)
| ErrTooFew (component : string) (total positive : Z)
| ErrHomeInvalid
| ErrHomeWeight (component home : string)
| ErrHomeWeights (component : string).

(** ** Reading and checking floors *)

Definition knownComponent (component : string) : bool :=
  bool_decide (component = EngineComponent) || bool_decide (component = DecoderComponent)
  || bool_decide (component = RouterComponent).

(** The variables of the validation loop. *)
Record floorScan := mkScan {
  seen : gset string; replicas : Z; hasReplicaComponent : bool; hasEngine : bool;
}.

Definition scanFloor (s : floorScan) (floor : PlacementComponentFloor) : outcome floors_error floorScan :=
  if negb (knownComponent (Component floor)) || bool_decide (Component floor ∈ seen s)
     || bool_decide (Replicas floor < 0)
  then Err ErrFloorsDistinct
  else
    let seen' := {[Component floor]} ∪ seen s in
    if decide (Component floor = RouterComponent)
    then Ok (mkScan seen' (replicas s) (hasReplicaComponent s) (hasEngine s))
    else
      let isEngine := bool_decide (Component floor = EngineComponent) in
      Ok (mkScan seen'
            (if isEngine || negb (hasEngine s) then Replicas floor else replicas s)
            true (hasEngine s || isEngine)).

Definition ValidateReplicaFloors (floors : list PlacementComponentFloor) : outcome floors_error Z :=
  (let? s := ofold scanFloor (mkScan ∅ 0 false false) floors in
   if hasReplicaComponent s then Ok (replicas s) else Err ErrFloorsNoReplicaComponent)%go.

Definition ValidatePositiveReplicaFloors (floors : list PlacementComponentFloor)
    : outcome floors_error Z :=
  (let? replicas := ValidateReplicaFloors floors in
   let? _ := ofold (λ _ floor, if decide (Replicas floor = 0)
                               then Err (ErrFloorNotPositive (Component floor)) else Ok tt) tt floors in
   Ok replicas)%go.

(** [resolvedFloorComponents]; [None] is a component that is not declared. *)
Definition resolvedFloorComponents (engine decoder router : option ComponentExtensionSpec)
    : list (string * option ComponentExtensionSpec) :=
  [(EngineComponent, engine); (DecoderComponent, decoder); (RouterComponent, router)].

Definition resolveFloor (floors : list PlacementComponentFloor)
    (component : string * option ComponentExtensionSpec)
    : outcome floors_error (list PlacementComponentFloor) :=
  match component.2 with
  | None => Ok floors
  | Some spec =>
      match MinReplicas spec with
      | Some value =>
          if decide (value < 0 ∨ MaxInt32 < value) then Err (ErrFloorUnresolved component.1)
          else Ok (floors ++ [mkFloor component.1 (i32 value)])
      | None => Err (ErrFloorUnresolved component.1)
      end
  end.

Definition ResolveReplicaFloors (engine decoder router : option ComponentExtensionSpec)
    : outcome floors_error (list PlacementComponentFloor) :=
  (let? floors := ofold resolveFloor [] (resolvedFloorComponents engine decoder router) in
   let? _ := ValidateReplicaFloors floors in
   Ok floors)%go.

(** The search loop: the first floor of the component decides. *)
Fixpoint matchFloor (floors : list PlacementComponentFloor) (component : string)
    (spec : option ComponentExtensionSpec) : outcome floors_error unit :=
  match floors with
  | [] => Err (ErrFloorAbsent component)
  | floor :: floors =>
      if decide (Component floor = component) then
        if decide ((spec ≫= MinReplicas) = Some (Replicas floor)) then Ok tt
        else Err (ErrFloorDiffers component)
      else matchFloor floors component spec
  end.

Definition CheckComponentReplicaFloor (floors : list PlacementComponentFloor) (component : string)
    (spec : option ComponentExtensionSpec) : outcome floors_error unit :=
  (let? _ := ValidateReplicaFloors floors in matchFloor floors component spec)%go.

Definition CheckReplicaFloors (floors : list PlacementComponentFloor)
    (engine decoder router : option ComponentExtensionSpec) : outcome floors_error unit :=
  (let? _ := ValidateReplicaFloors floors in
   let? actual := ResolveReplicaFloors engine decoder router in
   if decide (length actual ≠ length floors) then Err ErrFloorsInventory
   else
     ofold (λ _ (component : string * option ComponentExtensionSpec),
              match component.2 with
              | None => Ok tt
              | Some spec => CheckComponentReplicaFloor floors component.1 (Some spec)
              end) tt (resolvedFloorComponents engine decoder router))%go.

(** ** Dividing a minimum over homes *)

(** [ratioTotal]; the conversions and the increment are [uint64]. *)
Definition ratioTotal (targets minimum primaryMinimum : Z) : outcome floors_error Z :=
  (if decide (targets = primaryMinimum ∨ minimum = 0) then Ok minimum
   else
     let '(hi, lo) := Mul64 (u64 targets) (u64 minimum) in
     if decide (u64 primaryMinimum ≤ hi) then Err ErrScaledInt64
     else
       let? (quotient, rest) := Div64 hi lo (u64 primaryMinimum) in
       let quotient := if decide (0 < rest) then u64 (quotient + 1) else quotient in
       if decide (MaxInt32 < quotient) then Err ErrScaledInt32 else Ok (i32 quotient))%go.

(** One round of the quotient loop of [largestRemainder]: the share, what is
    left to assign, the remainder. *)
Definition takeShare (total sum : Z) (weights : gmap string Z)
    (st : gmap string Z * Z * list (string * Z)) (name : string)
    : outcome floors_error (gmap string Z * Z * list (string * Z)) :=
  (let '(shares, unassigned, remainders) := st in
   let '(hi, lo) := Mul64 (u64 total) (u64 (mget weights name)) in
   let? (quotient, rest) := Div64 hi lo (u64 sum) in
   Ok (<[name := i32 quotient]> shares, i32 (unassigned - i32 quotient),
       remainders ++ [(name, rest)]))%go.

(** [for i := int32(0); i < unassigned; i++ { shares[remainders[i].name]++ }]. *)
Fixpoint shareOut (n : nat) (i : nat) (ranked : list (string * Z)) (shares : gmap string Z)
    : outcome floors_error (gmap string Z) :=
  match n with
  | O => Ok shares
  | S n =>
      match ranked !! i with
      | None => Panic
      | Some (name, _) => shareOut n (S i) ranked (<[name := i32 (mget shares name + 1)]> shares)
      end
  end.

Definition largestRemainder (total : Z) (weights : gmap string Z)
    : outcome floors_error (gmap string Z) :=
  (let names := sorted_keys weights in
   let '(shares, sum) :=
     foldl (λ '(shares, sum) name, (<[name := 0]> shares, i64 (sum + mget weights name))) (∅, 0) names in
   if decide (sum = 0 ∨ total = 0) then Ok shares
   else
     let? (shares, unassigned, remainders) :=
       ofold (takeShare total sum weights) (shares, total, []) names in
     shareOut (Z.to_nat unassigned) 0 (sort_slice (λ a b, snd a >? snd b) remainders) shares)%go.

(** The inner loop of [liftZeroShares]: the home with the largest share above
    one, the first by name; the empty name is none. *)
Definition largerShare (shares : gmap string Z) (largest candidate : string) : string :=
  if decide (1 < mget shares candidate
             ∧ (largest = "" ∨ mget shares largest < mget shares candidate))
  then candidate else largest.

Definition largestShare (shares : gmap string Z) (names : list string) : string :=
  foldl (largerShare shares) "" names.

Fixpoint liftLoop (weights : gmap string Z) (names todo : list string) (shares : gmap string Z)
    : gmap string Z :=
  match todo with
  | [] => shares
  | name :: todo =>
      if decide (mget weights name ≤ 0 ∨ 0 < mget shares name)
      then liftLoop weights names todo shares
      else
        let largest := largestShare shares names in
        if decide (largest = "") then shares
        else
          let shares := <[largest := i32 (mget shares largest - 1)]> shares in
          liftLoop weights names todo (<[name := i32 (mget shares name + 1)]> shares)
  end.

Definition liftZeroShares (shares weights : gmap string Z) : gmap string Z :=
  liftLoop weights (sorted_keys shares) (sorted_keys shares) shares.

(** The loop over the homes: weights, their sum, and how many are positive. *)
Definition readTarget (targets : gmap string Z) (st : gmap string Z * Z * Z) (name : string)
    : outcome floors_error (gmap string Z * Z * Z) :=
  let '(weights, positive, sum) := st in
  if decide (name = "") then Err ErrHomeName
  else if decide (mget targets name < 0) then Err ErrTargetNegative
  else Ok (<[name := mget targets name]> weights,
           if decide (0 < mget targets name) then i64 (positive + 1) else positive,
           i64 (sum + mget targets name)).

(** One round of the loop over the secondary components. *)
Definition apportionComponent (primary : string) (primaryMinimum sum positive : Z)
    (weights : gmap string Z) (names : list string) (minimums : gmap string Z)
    (out : gmap string (list PlacementComponentFloor)) (component : string)
    : outcome floors_error (gmap string (list PlacementComponentFloor)) :=
  (let minimum := mget minimums component in
   if decide (component = primary) then Err ErrPrimaryApportioned
   else if negb (knownComponent component) then Err (ErrComponentUnknown component)
   else if decide (minimum < 0) then Err (ErrMinimumNegative component)
   else
     let? total := omap_err (ErrTotal component) (ratioTotal sum minimum primaryMinimum) in
     if decide (0 < total ∧ total < positive) then Err (ErrTooFew component total positive)
     else
       let? shares := largestRemainder total weights in
       let shares := if decide (0 < total) then liftZeroShares shares weights else shares in
       Ok (foldl (λ out name,
             <[name := default [] (out !! name) ++ [mkFloor component (mget shares name)]]> out)
             out names))%go.

Definition floorLess (a b : PlacementComponentFloor) : bool := str_lt (Component a) (Component b).

Definition ApportionReplicaFloors (primary : string) (primaryMinimum : Z)
    (targets minimums : gmap string Z)
    : outcome floors_error (gmap string (list PlacementComponentFloor)) :=
  (if decide (primary ≠ EngineComponent ∧ primary ≠ DecoderComponent) then Err ErrPrimaryComponent
   else if decide (primaryMinimum ≤ 0) then Err ErrPrimaryMinimum
   else
     let names := sorted_keys targets in
     let? (weights, positive, sum) := ofold (readTarget targets) (∅, 0, 0) names in
     let out := foldl (λ out name, <[name := [mkFloor primary (mget targets name)]]> out) ∅ names in
     let? out := ofold (apportionComponent primary primaryMinimum sum positive weights names minimums)
                   out (sorted_keys minimums) in
     Ok (sort_slice floorLess <$> out))%go.

(** The variables of the loop over the homes of the weighted division. *)
Record weighing := mkWeighing {
  wSum : Z; weightSum : Z; wPositive : Z; held : gmap string Z; hosts : gmap string Z;
}.

Definition weighHome (component : string) (targets weights : gmap string Z) (s : weighing) (name : string)
    : outcome floors_error weighing :=
  let target := mget targets name in
  if decide (name = "" ∨ target < 0) then Err ErrHomeInvalid
  else
    let sum := i64 (wSum s + target) in
    if decide (target = 0) then Ok (mkWeighing sum (weightSum s) (wPositive s) (held s) (hosts s))
    else
      let weight := mget weights name in
      if decide (weight < 0) then Err (ErrHomeWeight component name)
      else if decide (i64 (MaxInt64 - weightSum s) < weight) then Err (ErrHomeWeights component)
      else Ok (mkWeighing sum (i64 (weightSum s + weight)) (i64 (wPositive s + 1))
                 (<[name := weight]> (held s)) (<[name := target]> (hosts s))).

Definition ApportionWeightedReplicaFloor (component : string) (primaryMinimum : Z)
    (targets : gmap string Z) (minimum : Z) (weights : gmap string Z)
    : outcome floors_error (gmap string Z) :=
  (if negb (knownComponent component) then Err (ErrComponentUnknown component)
   else if decide (primaryMinimum ≤ 0) then Err ErrPrimaryMinimum
   else if decide (minimum < 0) then Err (ErrMinimumNegative component)
   else
     let? s := ofold (weighHome component targets weights) (mkWeighing 0 0 0 ∅ ∅) (sorted_keys targets) in
     let? total := omap_err (ErrTotal component) (ratioTotal (wSum s) minimum primaryMinimum) in
     if decide (0 < total ∧ total < wPositive s) then Err (ErrTooFew component total (wPositive s))
     else
       let held := if decide (weightSum s = 0) then hosts s else held s in
       let? shares := largestRemainder total held in
       let shares := if decide (0 < total) then liftZeroShares shares (hosts s) else shares in
       Ok (foldl (λ out name, <[name := mget shares name]> out) ∅ (sorted_keys targets)))%go.

(** ** The shape of one capacity unit *)

(** [gcd]; the remainder operator truncates.  The fuel is that of
    [gcd_spec] for an [int64]. *)
Fixpoint gcdLoop (fuel : nat) (a b : Z) : option Z :=
  match fuel with
  | O => None
  | S fuel => if decide (b = 0) then Some a else gcdLoop fuel b (Z.rem a b)
  end.

Definition gcd (a b : Z) : option Z := gcdLoop 127 a b.

Definition unitDivisor (minimums : gmap string Z) : option Z :=
  foldl (λ divisor name,
           if decide (0 < mget minimums name)
           then divisor ≫= λ d, gcd d (mget minimums name) else divisor)
        (Some 0) (sorted_keys minimums).

Definition ReplicaUnitRatio (minimums : gmap string Z) : option (gmap string Z) :=
  (λ divisor, (λ minimum, if decide (0 < minimum) then Z.quot minimum divisor else 0) <$> minimums)
    <$> unitDivisor minimums.

(** ** Examples *)

Example floors_three_homes :
  ApportionReplicaFloors EngineComponent 10 (list_to_map [("a", 8); ("b", 1); ("c", 1)])
    (list_to_map [(RouterComponent, 3); (DecoderComponent, 5)])
  = Ok (list_to_map
      [("a", [mkFloor DecoderComponent 3; mkFloor EngineComponent 8; mkFloor RouterComponent 1]);
       ("b", [mkFloor DecoderComponent 1; mkFloor EngineComponent 1; mkFloor RouterComponent 1]);
       ("c", [mkFloor DecoderComponent 1; mkFloor EngineComponent 1; mkFloor RouterComponent 1])]).
Proof. vm_compute. reflexivity. Qed.

Example floors_weighted :
  ApportionWeightedReplicaFloor DecoderComponent 4 (list_to_map [("a", 2); ("b", 2); ("c", 0)]) 3
    (list_to_map [("b", 7); ("c", 9)])
  = Ok (list_to_map [("a", 1); ("b", 2); ("c", 0)]).
Proof. vm_compute. reflexivity. Qed.

Example unit_ratio :
  ReplicaUnitRatio (list_to_map [(EngineComponent, 6); (DecoderComponent, 4); (RouterComponent, 0)])
  = Some (list_to_map [(EngineComponent, 3); (DecoderComponent, 2); (RouterComponent, 0)]).
Proof. vm_compute. reflexivity. Qed.

(** The round-up of a quotient of [2^64 - 1] wraps: the total is [2^64], far
    above the limit, and the call answers 0 instead of an error.  The sum is
    that of 2045 homes, each with an [int32] target. *)
Example ratioTotal_wraps :
  ratioTotal 4389469147148 2147477498 511 = Ok 0
  ∧ 4389469147148 * 2147477498 / 511 = 2 ^ 64 - 1 ∧ (4389469147148 * 2147477498) mod 511 ≠ 0
  ∧ 4389469147148 ≤ 2045 * MaxInt32.
Proof. vm_compute. done. Qed.
