(* ===== verification/FloorsFacts.v ===== *)
(** * Dividing a minimum over homes is exact

    The helpers of [Floors]: the scaled total is the ceiling of the ratio, the
    split is the largest-remainder split of [Remainder], and lifting moves one
    replica at a time from a largest share to a home that has none, so that the
    total stays and every home of the primary has one. *)

From S2P Require Import Prelude Remainder Apportion Floors.
Local Open Scope Z_scope.

(** ** The scaled total *)

(** The minimum at the ratio of the targets to the primary minimum, rounded up. *)
Definition scaledTotal (sum minimum primaryMinimum : Z) : Z :=
  (sum * minimum + primaryMinimum - 1) / primaryMinimum.

(** The one case in which the round-up does not fit 64 bits. *)
Definition roundsOver (sum minimum primaryMinimum : Z) : Prop :=
  sum * minimum / primaryMinimum = 2 ^ 64 - 1 ∧ (sum * minimum) mod primaryMinimum ≠ 0.

Lemma ceil_div p d :
  0 < d → (p + d - 1) / d = p / d + if decide (p mod d = 0) then 0 else 1.
Proof.
  intros Hd. pose proof (Z.div_mod p d ltac:(lia)) as E. pose proof (Z.mod_pos_bound p d Hd).
  case_decide; symmetry;
    [apply Z.div_unique with (d - 1)|apply Z.div_unique with (p mod d - 1)]; lia.
Qed.

(** Fewer than eight homes are never that many. *)
Lemma few_homes_round n sum minimum primaryMinimum :
  n < 8 → 0 ≤ sum ≤ n * MaxInt32 → 0 ≤ minimum ≤ MaxInt32 → 0 < primaryMinimum →
  ¬ roundsOver sum minimum primaryMinimum.
Proof.
  intros Hn Hs Hm Hp [E Hr].
  destruct (decide (primaryMinimum = 1)) as [->|Hne]; [by rewrite Z.mod_1_r in Hr|].
  pose proof (Z.mul_div_le (sum * minimum) primaryMinimum Hp) as Hle. rewrite E in Hle.
  assert (sum * minimum ≤ 7 * MaxInt32 * MaxInt32) by (apply Z.mul_le_mono_nonneg; lia).
  lia.
Qed.

Lemma ratioTotal_eq sum minimum pm :
  0 ≤ sum ≤ MaxInt64 → 0 ≤ minimum ≤ MaxInt32 → 0 < pm ≤ MaxInt32 →
  ¬ roundsOver sum minimum pm →
  if decide (scaledTotal sum minimum pm ≤ MaxInt32)
  then ratioTotal sum minimum pm = Ok (scaledTotal sum minimum pm)
  else ∃ e, ratioTotal sum minimum pm = Err e.
Proof.
  intros Hs Hm Hp Hover. unfold ratioTotal.
  destruct (decide (sum = pm ∨ minimum = 0)) as [Hor|Hor].
  { assert (scaledTotal sum minimum pm = minimum) as ->.
    { unfold scaledTotal. symmetry. apply Z.div_unique with (pm - 1); [lia|]. nia. }
    by rewrite decide_True by lia. }
  unfold scaledTotal. rewrite ceil_div by lia. rewrite !u64_id by lia.
  unfold Mul64, Div64. set (p := sum * minimum) in *.
  assert (0 ≤ p) by (unfold p; nia).
  assert (p / 2 ^ 64 * 2 ^ 64 + p mod 2 ^ 64 = p) as ->
    by (rewrite Z.mul_comm; symmetry; apply Z.div_mod; lia).
  assert (0 ≤ p / pm) by (apply Z.div_pos; lia).
  destruct (decide (pm ≤ p / 2 ^ 64)) as [Hhi|Hhi].
  { assert (2 ^ 64 ≤ p / pm).
    { apply Z.div_le_lower_bound; [lia|]. pose proof (Z.mul_div_le p (2 ^ 64) ltac:(lia)).
      revert Hhi. generalize dependent (p / 2 ^ 64). intros; lia. }
    rewrite decide_False by (case_decide; lia). eauto. }
  rewrite (decide_False (P := pm = 0 ∨ _)) by lia. cbn [obind].
  pose proof (Z.mod_pos_bound p pm ltac:(lia)).
  assert (p / pm < 2 ^ 64).
  { apply Z.div_lt_upper_bound; [lia|].
    pose proof (Z.mul_succ_div_gt p (2 ^ 64) ltac:(lia)).
    revert Hhi. generalize dependent (p / 2 ^ 64). intros; lia. }
  assert ((if decide (0 < p mod pm) then u64 (p / pm + 1) else p / pm)
          = p / pm + if decide (p mod pm = 0) then 0 else 1) as ->.
  { repeat case_decide; [lia| |lia..]. apply u64_id.
    assert (p / pm ≠ 2 ^ 64 - 1) by (intros E; by apply Hover). lia. }
  set (t := p / pm + _). assert (0 ≤ t) by (unfold t; case_decide; lia).
  destruct (decide (t ≤ MaxInt32)).
  - rewrite decide_False by lia. f_equal. apply i32_id. unfold int32_range. lia.
  - rewrite decide_True by lia. eauto.
Qed.

Lemma scaledTotal_nonneg sum minimum pm :
  0 ≤ sum → 0 ≤ minimum → 0 < pm → 0 ≤ scaledTotal sum minimum pm.
Proof. intros. unfold scaledTotal. apply Z.div_pos; nia. Qed.

(** There is something to divide exactly when there are targets and a minimum. *)
Lemma scaledTotal_pos sum minimum pm :
  0 ≤ sum → 0 ≤ minimum → 0 < pm → 0 < scaledTotal sum minimum pm ↔ 0 < sum ∧ 0 < minimum.
Proof.
  intros Hs Hm Hp. unfold scaledTotal. split.
  - intros Hpos. assert (sum * minimum ≠ 0); [|nia]. intros E. rewrite E in Hpos.
    rewrite Z.div_small in Hpos by lia. lia.
  - intros [??]. apply Z.div_str_pos. nia.
Qed.

(** ** The split *)

Lemma takeShare_sim total sum weights plan rems name plan' rems' :
  takeFloor total sum weights (plan, rems) name = Ok (plan', rems') →
  takeShare total sum weights (Targets plan, Unassigned plan, rems) name
  = Ok (Targets plan', Unassigned plan', rems').
Proof.
  unfold takeFloor, takeShare, Div64. destruct (Mul64 _ _) as [hi lo].
  case_decide; [done|]. cbn. by intros [= <- <-].
Qed.

Lemma takeShare_loop total sum weights ks plan rems plan' rems' :
  ofold (takeFloor total sum weights) (plan, rems) ks = Ok (plan', rems') →
  ofold (takeShare total sum weights) (Targets plan, Unassigned plan, rems) ks
  = Ok (Targets plan', Unassigned plan', rems').
Proof.
  revert plan rems. induction ks as [|k ks IH]; intros plan rems; cbn [ofold].
  { by intros [= <- <-]. }
  intros ([p r] & E & Hrest)%obind_Ok_inv. rewrite (takeShare_sim _ _ _ _ _ _ _ _ E). by apply IH.
Qed.

Lemma shareOut_sim n i ranked shares out :
  handOut n i ranked shares = Ok out → shareOut n i ranked shares = Ok out.
Proof.
  revert i shares. induction n as [|n IH]; intros i shares; cbn; [by intros [= <-]|].
  destruct (ranked !! i) as [[k v]|]; [apply IH|done].
Qed.

Lemma weightLoop (weights : gmap string Z) ks (shares : gmap string Z) sum :
  (∀ k w, weights !! k = Some w → 0 ≤ w) → 0 ≤ sum →
  sum + zsum_with (mget weights) ks ≤ MaxInt64 →
  foldl (λ '(shares, sum) name, (<[name := 0]> shares, i64 (sum + mget weights name))) (shares, sum) ks
  = (foldl (λ t name, <[name := 0]> t) shares ks, sum + zsum_with (mget weights) ks).
Proof.
  intros Hw. revert shares sum. induction ks as [|k ks IH]; intros shares sum Hs Hmax; cbn [foldl].
  { f_equal. rewrite zsum_with_nil. lia. }
  rewrite zsum_with_cons in *. pose proof (mget_weight_nonneg weights Hw k).
  assert (0 ≤ zsum_with (mget weights) ks)
    by (apply zsum_with_nonneg; intros; by apply mget_weight_nonneg).
  rewrite i64_id by (unfold int64_range; lia). rewrite IH by lia. f_equal. lia.
Qed.

(** The shares a split leaves: none to give, or the largest-remainder split. *)
Lemma largestRemainder_spec total weights :
  0 ≤ total ≤ MaxInt32 → weights_valid weights → (0 < total → 0 < basis weights) →
  ∃ shares, largestRemainder total weights = Ok shares
    ∧ (total = 0 → shares = zeroTargets (sorted_keys weights))
    ∧ (0 < total → LargestRemainder total weights shares).
Proof.
  intros Ht Hv Hpos. unfold largestRemainder.
  rewrite weightLoop; [|apply Hv|lia|rewrite Z.add_0_l, <-basis_sorted_keys; apply Hv].
  rewrite Z.add_0_l, <-basis_sorted_keys. fold (zeroTargets (sorted_keys weights)).
  case_decide as H0; [exists (zeroTargets (sorted_keys weights)); naive_solver lia|].
  destruct (apportion_core total weights) as (plan & rems & targets & E1 & E2 & L); [lia|done|lia|].
  apply takeShare_loop in E1. cbn [Targets Unassigned] in E1. rewrite E1. cbn [obind].
  fold (rankRemainders rems). rewrite (shareOut_sim _ _ _ _ _ E2). exists targets. split_and!; [done|lia|done].
Qed.

(** ** Lifting *)

Lemma largestShare_spec shares names :
  "" ∉ names →
  (largestShare shares names = "" ∧ ∀ k, k ∈ names → mget shares k ≤ 1)
  ∨ (largestShare shares names ∈ names ∧ 1 < mget shares (largestShare shares names)
     ∧ ∀ k, k ∈ names → mget shares k ≤ mget shares (largestShare shares names)).
Proof.
  intros Hne. unfold largestShare.
  apply (foldl_ind _ (λ pre l,
    (l = "" ∧ ∀ k, k ∈ pre → mget shares k ≤ 1)
    ∨ (l ∈ pre ∧ 1 < mget shares l ∧ ∀ k, k ∈ pre → mget shares k ≤ mget shares l))).
  { left. split; [done|]. intros k Hk. by apply elem_of_nil in Hk. }
  intros pre x post l Hl HP. assert (x ≠ "") as Hx by (intros ->; set_solver).
  setoid_rewrite elem_of_app. setoid_rewrite list_elem_of_singleton.
  unfold largerShare. case_decide as Hd.
  - right. split_and!; [by right|lia|].
    destruct HP as [[-> HP]|(Hin & H1 & HP)].
    + intros k [Hk| ->]; [specialize (HP k Hk)|]; lia.
    + assert (l ≠ "") as Hl0 by (intros ->; subst names; set_solver).
      intros k [Hk| ->]; [specialize (HP k Hk)|]; naive_solver lia.
  - destruct HP as [[-> HP]|(Hin & H1 & HP)]; [left|right].
    + split; [done|]. intros k [Hk| ->]; [auto|].
      destruct (decide (1 < mget shares x)); [naive_solver|lia].
    + split_and!; [by left|done|]. intros k [Hk| ->]; [auto|].
      destruct (decide (mget shares x ≤ mget shares l)); [done|]. exfalso. apply Hd. lia.
Qed.

(** [s'] is [s] with one replica moved at a time from a largest share to each
    home of [h] that had none: the sum stays, every such home has one, nothing
    else rises, and what was reduced is still within one of every share. *)
Record Lifted (h s s' : gmap string Z) : Prop := {
  lf_dom : ∀ k, is_Some (s' !! k) ↔ is_Some (s !! k);
  lf_sum : map_zsum s' = map_zsum s;
  lf_none : ∀ k, mget s k = 0 → mget s' k = if decide (k ∈ sorted_keys s ∧ 0 < mget h k) then 1 else 0;
  lf_some : ∀ k, 1 ≤ mget s k → 1 ≤ mget s' k ≤ mget s k;
  lf_largest : ∀ k j, mget s' k < mget s k → mget s' j ≤ mget s' k + 1;
}.

Lemma mget_insert (m : gmap string Z) k v j :
  mget (<[k := v]> m) j = if decide (j = k) then v else mget m j.
Proof.
  unfold mget. case_decide; [subst; by rewrite lookup_insert_eq|by rewrite lookup_insert_ne].
Qed.

Lemma mget_dom (m : gmap string Z) k : is_Some (m !! k) → m !! k = Some (mget m k).
Proof. intros [v E]. unfold mget. by rewrite E. Qed.

(** Writing one key that is there changes the sum by the difference. *)
Lemma map_zsum_write (m : gmap string Z) k v :
  is_Some (m !! k) → map_zsum (<[k := v]> m) = v - mget m k + map_zsum m.
Proof. intros Hk. by apply map_zsum_insert_Some, mget_dom. Qed.

Section lift.
Context (h s : gmap string Z).
Context (Hname : s !! "" = None).
Context (Hs : ∀ k, 0 ≤ mget s k ≤ MaxInt32).
Context (Hout : ∀ k, mget h k ≤ 0 → mget s k = 0).
Let names := sorted_keys s.
Let hostsOf := filter (λ k, 0 < mget h k) names.
Context (Henough : Z.of_nat (length hostsOf) ≤ map_zsum s).

(** What holds once the homes of [pre] have been visited. *)
Record lifting (pre : list string) (cur : gmap string Z) : Prop := {
  li_dom : ∀ k, is_Some (cur !! k) ↔ is_Some (s !! k);
  li_sum : map_zsum cur = map_zsum s;
  li_none : ∀ k, mget s k = 0 → mget cur k = if decide (k ∈ pre ∧ 0 < mget h k) then 1 else 0;
  li_some : ∀ k, 1 ≤ mget s k → 1 ≤ mget cur k ≤ mget s k;
  li_largest : ∀ k j, mget cur k < mget s k → mget cur j ≤ mget cur k + 1;
}.

Lemma no_empty_name : "" ∉ names.
Proof. unfold names. rewrite elem_of_sorted_keys, Hname. by intros [? ?]. Qed.

Lemma cur_bounds pre cur k : lifting pre cur → 0 ≤ mget cur k ≤ Z.max 1 (mget s k).
Proof.
  intros L. destruct (decide (mget s k = 0)) as [E|E].
  - rewrite (li_none _ _ L k E). case_decide; lia.
  - specialize (Hs k). pose proof (li_some _ _ L k). lia.
Qed.

Lemma sum_over_names cur : (∀ k, is_Some (cur !! k) ↔ is_Some (s !! k)) →
  map_zsum cur = zsum_with (mget cur) names.
Proof.
  intros Hd. apply map_zsum_keys; [apply NoDup_sorted_keys|].
  intros k. unfold names. by rewrite elem_of_sorted_keys, Hd.
Qed.

(** While a home of the primary has none, another has more than one. *)
Lemma taker_exists pre cur name :
  lifting pre cur → name ∈ names → 0 < mget h name → mget cur name = 0 →
  largestShare cur names ≠ "".
Proof.
  intros L Hin Hh H0 E.
  destruct (largestShare_spec cur names no_empty_name) as [[_ Hle]|(Hl & _)];
    [|rewrite E in Hl; by apply no_empty_name].
  assert (zsum_with (mget cur) names
          < zsum_with (λ k, if decide (0 < mget h k) then 1 else 0) names) as Hlt.
  { apply (zsum_with_mono_strict _ _ _ name); [|done|rewrite H0, decide_True by done; lia].
    intros k Hk. case_decide as Hd; [by apply Hle|].
    rewrite (li_none _ _ L k) by (apply Hout; lia). case_decide; lia. }
  rewrite <-(sum_over_names cur) in Hlt by apply L. rewrite (li_sum _ _ L) in Hlt.
  assert (zsum_with (λ k, if decide (0 < mget h k) then 1 else 0) names
          = Z.of_nat (length hostsOf)); [|lia].
  unfold hostsOf. clear. induction names as [|k l IH]; [done|].
  rewrite zsum_with_cons, filter_cons, IH. case_decide; cbn; lia.
Qed.

(** A visit that changes nothing. *)
Lemma lifting_skip pre cur name :
  lifting pre cur → mget h name ≤ 0 ∨ 0 < mget cur name → name ∉ pre → lifting (pre ++ [name]) cur.
Proof.
  intros L Hor Hnp. split; try apply L. intros k Hk. rewrite (li_none _ _ L k Hk).
  destruct (decide (k = name)) as [->|].
  - rewrite (decide_False (P := name ∈ pre ∧ _)) by naive_solver.
    rewrite decide_False; [done|]. intros [_ Hh].
    pose proof (li_none _ _ L name Hk) as E. rewrite decide_False in E by naive_solver. lia.
  - repeat case_decide; set_solver.
Qed.

(** A visit that moves one replica. *)
Lemma lifting_move pre cur name :
  lifting pre cur → name ∈ names → 0 < mget h name → mget cur name = 0 →
  let largest := largestShare cur names in
  let cur' := <[largest := i32 (mget cur largest - 1)]> cur in
  lifting (pre ++ [name]) (<[name := i32 (mget cur' name + 1)]> cur').
Proof.
  intros L Hin Hh H0. pose proof (taker_exists _ _ _ L Hin Hh H0) as Hne.
  destruct (largestShare_spec cur names no_empty_name) as [[? _]|(Hl & H1 & Hle)]; [done|].
  set (largest := largestShare cur names) in *. cbv zeta. set (cur' := <[largest := _]> cur).
  assert (largest ≠ name) as Hln by (intros E; rewrite E in H1; lia).
  assert (mget s name = 0) as Hs0.
  { specialize (Hs name). pose proof (li_some _ _ L name). lia. }
  assert (1 < mget s largest) as Hsl.
  { pose proof (cur_bounds _ _ largest L). lia. }
  assert (∀ k, is_Some (cur !! k) ↔ k ∈ names) as Hdom.
  { intros k. unfold names. rewrite elem_of_sorted_keys. apply L. }
  assert (∀ k, mget cur k ≤ mget cur largest) as Hmax.
  { intros k. destruct (decide (k ∈ names)) as [Hk|Hk]; [auto|]. rewrite <-Hdom in Hk.
    unfold mget at 1. rewrite (proj2 (eq_None_not_Some _) Hk). cbn. lia. }
  assert (0 ≤ mget cur largest - 1 ≤ MaxInt32) by (pose proof (cur_bounds _ _ largest L); pose proof (Hs largest); lia).
  assert (mget cur' name = 0) as E0 by (unfold cur'; by rewrite mget_insert, decide_False by done).
  rewrite E0. unfold cur'. rewrite (i32_id (0 + 1)) by (unfold int32_range; lia).
  rewrite i32_id by (unfold int32_range; lia).
  assert (∀ k, mget (<[name := 0 + 1]> (<[largest := mget cur largest - 1]> cur)) k
    = if decide (k = name) then 1 else if decide (k = largest) then mget cur largest - 1 else mget cur k) as Hget
    by (intros k; by rewrite !mget_insert).
  split.
  - intros k. rewrite !lookup_insert_is_Some', (li_dom _ _ L). split; [|naive_solver].
    intros [<-|[<-|?]]; [by apply (li_dom _ _ L), Hdom..|done].
  - rewrite !map_zsum_write; [|by apply Hdom|rewrite lookup_insert_is_Some'; right; by apply Hdom].
    rewrite mget_insert, decide_False, H0, <-(li_sum _ _ L) by done. lia.
  - intros k Hk. rewrite Hget. repeat case_decide; subst; set_solver by lia || (rewrite (li_none _ _ L k Hk); repeat case_decide; set_solver).
  - intros k Hk. rewrite Hget. pose proof (li_some _ _ L k Hk). repeat case_decide; subst; lia.
  - intros k j. rewrite !Hget. pose proof (li_largest _ _ L k j).
    pose proof (Hmax j). pose proof (cur_bounds _ _ k L). repeat case_decide; subst; lia.
Qed.

Lemma liftLoop_spec todo pre cur :
  names = pre ++ todo → lifting pre cur → lifting names (liftLoop h names todo cur).
Proof.
  revert pre cur. induction todo as [|name todo IH]; intros pre cur E L; cbn [liftLoop].
  { rewrite app_nil_r in E. by rewrite E. }
  assert (name ∈ names) as Hin by (rewrite E; set_solver).
  assert (name ∉ pre) as Hnp.
  { pose proof (NoDup_sorted_keys s) as Hnd. fold names in Hnd. rewrite E in Hnd.
    apply NoDup_app in Hnd as (_ & Hd & _). intros Hp. by apply (Hd name Hp); left. }
  assert (names = (pre ++ [name]) ++ todo) as E' by (by rewrite <-app_assoc).
  case_decide as Hor.
  - apply (IH (pre ++ [name])); [done|]. by apply lifting_skip.
  - pose proof (cur_bounds _ _ name L).
    rewrite decide_False by (apply (taker_exists pre _ name); done || lia).
    apply (IH (pre ++ [name])); [done|]. apply lifting_move; done || lia.
Qed.

Lemma liftZeroShares_spec : Lifted h s (liftZeroShares s h).
Proof.
  assert (lifting [] s) as L0.
  { split; [done|done| |intros; lia..]. intros k Hk. by rewrite Hk. }
  destruct (liftLoop_spec names [] s eq_refl L0). by split.
Qed.
End lift.

(** ** Shares of one component *)

(** The homes that hold the primary. *)
Definition positives (homes : gmap string Z) : Z :=
  Z.of_nat (length (filter (λ k, 0 < mget homes k) (sorted_keys homes))).

(** A fair division of [total] over [homes] by [weights]: it adds up, a home
    without the primary gets nothing, every home with it gets one, and apart
    from that it is the largest-remainder split. *)
Record FairShares (total : Z) (weights homes shares : gmap string Z) : Prop := {
  fs_dom : ∀ k, is_Some (shares !! k) ↔ is_Some (weights !! k);
  fs_sum : map_zsum shares = total;
  fs_range : ∀ k, 0 ≤ mget shares k ≤ total;
  fs_away : ∀ k, mget homes k ≤ 0 → mget shares k = 0;
  fs_home : 0 < total → ∀ k, 0 < mget homes k → 1 ≤ mget shares k;
  fs_split : 0 < total → ∃ s, LargestRemainder total weights s ∧ Lifted homes s shares;
}.

(** What the code computes for one component. *)
Definition divide (total : Z) (weights homes : gmap string Z) : gmap string Z :=
  match largestRemainder total weights with
  | Ok shares => if decide (0 < total) then liftZeroShares shares homes else shares
  | _ => ∅
  end.

Lemma split_mget total weights s k :
  0 ≤ total → weights_valid weights → 0 < basis weights → LargestRemainder total weights s →
  0 ≤ mget s k ≤ total ∧ (mget weights k = 0 → mget s k = 0).
Proof.
  intros Ht Hv Hb L. pose proof (wv_nonneg _ Hv) as Hnn.
  assert (∀ k v, s !! k = Some v → 0 ≤ v) as Hs.
  { intros j v Hj. pose proof (quotient_bounds total weights Hb Hnn Ht j).
    destruct (lr_quota _ _ _ L j v Hj); lia. }
  split.
  - split; [unfold mget; destruct (s !! k) eqn:E; cbn; [eauto|lia]|].
    rewrite <-(lr_sum _ _ _ L). by apply map_zsum_lookup_le.
  - intros Hw. destruct (s !! k) as [v|] eqn:E; [|unfold mget; by rewrite E].
    assert (s !! k = Some (quotient total weights k)) as Hq.
    { apply largest_remainder_exact; [done|done| |].
      - apply (lr_dom _ _ _ L). eauto.
      - unfold remainder. by rewrite Hw, Z.mul_0_r, Z.mod_0_l by lia. }
    unfold mget. rewrite Hq. cbn. unfold quotient. rewrite Hw, Z.mul_0_r. apply Z.div_0_l. lia.
Qed.

Lemma zero_sum (m : gmap string Z) : (∀ k, mget m k = 0) → map_zsum m = 0.
Proof.
  intros Hm. rewrite (map_zsum_keys m (sorted_keys m)); [|apply NoDup_sorted_keys|].
  - rewrite (zsum_with_ext _ (λ _, 0)), zsum_with_const; [lia|]. intros k _. apply Hm.
  - intros k. apply elem_of_sorted_keys.
Qed.

Lemma divide_spec total weights homes :
  0 ≤ total ≤ MaxInt32 → weights_valid weights → (0 < total → 0 < basis weights) →
  (∀ k, is_Some (weights !! k) ↔ is_Some (homes !! k)) →
  (∀ k, mget homes k ≤ 0 → mget weights k = 0) →
  (0 < total → positives homes ≤ total) →
  (∃ shares, largestRemainder total weights = Ok shares)
  ∧ FairShares total weights homes (divide total weights homes).
Proof.
  intros Ht Hv Hb Hdom Haway Hpos. unfold divide.
  destruct (largestRemainder_spec total weights Ht Hv Hb) as (s & -> & H0 & HL).
  split; [by eauto|]. case_decide as Hp.
  - specialize (HL Hp).
    assert (∀ k, 0 ≤ mget s k ≤ total ∧ (mget weights k = 0 → mget s k = 0)) as Hs
      by (intros k; apply split_mget; auto; lia).
    assert (Lifted homes s (liftZeroShares s homes)) as Hl.
    { apply liftZeroShares_spec.
      - apply eq_None_not_Some. rewrite (lr_dom _ _ _ HL), (wv_name _ Hv). by intros [? ?].
      - intros k. destruct (Hs k). lia.
      - intros k Hk. by apply Hs, Haway.
      - rewrite (lr_sum _ _ _ HL). etrans; [|by apply Hpos]. unfold positives.
        apply inj_le, submseteq_length, NoDup_submseteq; [by apply NoDup_filter, NoDup_sorted_keys|].
        intros k. rewrite !list_elem_of_filter, !elem_of_sorted_keys, (lr_dom _ _ _ HL), Hdom. done. }
    assert (∀ k, 0 ≤ mget (liftZeroShares s homes) k) as Hnn.
    { intros k. destruct (Hs k) as [? _]. destruct (decide (mget s k = 0)) as [E|E].
      - rewrite (lf_none _ _ _ Hl k E). case_decide; lia.
      - pose proof (lf_some _ _ _ Hl k). lia. }
    split; [| | | | |by eauto].
    + intros k. by rewrite (lf_dom _ _ _ Hl), (lr_dom _ _ _ HL).
    + by rewrite (lf_sum _ _ _ Hl), (lr_sum _ _ _ HL).
    + intros k. split; [auto|]. rewrite <-(lr_sum _ _ _ HL), <-(lf_sum _ _ _ Hl).
      apply map_zsum_lookup_le. intros j v Hj. specialize (Hnn j). unfold mget in Hnn. by rewrite Hj in Hnn.
    + intros k Hk. rewrite (lf_none _ _ _ Hl), decide_False; [done|lia|by apply Hs, Haway].
    + intros _ k Hk. destruct (Hs k) as [? _]. destruct (decide (mget s k = 0)) as [E|E].
      * rewrite (lf_none _ _ _ Hl k E), decide_True; [done|]. split; [|done].
        rewrite elem_of_sorted_keys, (lr_dom _ _ _ HL), Hdom. unfold mget in Hk.
        destruct (homes !! k); [by eauto|cbn in Hk; lia].
      * pose proof (lf_some _ _ _ Hl k). lia.
  - assert (total = 0) as -> by lia. rewrite H0 by done.
    assert (∀ k, mget (zeroTargets (sorted_keys weights)) k = 0) as Hz
      by (intros k; unfold mget; rewrite zeroTargets_lookup; by case_decide).
    split; [|by apply zero_sum|intros k; rewrite Hz; lia|intros; apply Hz|lia|lia].
    intros k. rewrite zeroTargets_lookup, <-elem_of_sorted_keys. case_decide; [by split; eauto|].
    split; [by intros [? ?]|done].
Qed.
