(* ===== verification/FloorsClaims.v ===== *)
(** * Replica floors: the properties

    Which floors are accepted and when they match the resolved components; when
    a minimum can be divided over homes and what each home is then given. *)

From S2P Require Import Prelude Remainder Apportion Floors FloorsFacts.
Local Open Scope Z_scope.

(** ** Accepted floors *)

(** Distinct known components with nonnegative counts, one of them the engine
    or the decoder. *)
Record floors_valid (floors : list PlacementComponentFloor) : Prop := {
  fv_distinct : NoDup (Component <$> floors);
  fv_each : ∀ f, f ∈ floors → knownComponent (Component f) = true ∧ 0 ≤ Replicas f;
  fv_replica : ∃ f, f ∈ floors ∧ Component f ≠ RouterComponent;
}.

(** The engine's floor, or the decoder's where there is no engine. *)
Definition replica_floor (floors : list PlacementComponentFloor) (n : Z) : Prop :=
  mkFloor EngineComponent n ∈ floors
  ∨ (EngineComponent ∉ Component <$> floors) ∧ mkFloor DecoderComponent n ∈ floors.

Lemma knownComponent_true c :
  knownComponent c = true ↔ c = EngineComponent ∨ c = DecoderComponent ∨ c = RouterComponent.
Proof. unfold knownComponent. rewrite !orb_true_iff, !bool_decide_eq_true. tauto. Qed.

Lemma scanFloor_Ok s f s' :
  scanFloor s f = Ok s' ↔
  (knownComponent (Component f) = true ∧ (Component f ∉ seen s) ∧ 0 ≤ Replicas f)
  ∧ s' = if decide (Component f = RouterComponent)
         then mkScan ({[Component f]} ∪ seen s) (replicas s) (hasReplicaComponent s) (hasEngine s)
         else mkScan ({[Component f]} ∪ seen s)
                (if bool_decide (Component f = EngineComponent) || negb (hasEngine s)
                 then Replicas f else replicas s)
                true (hasEngine s || bool_decide (Component f = EngineComponent)).
Proof.
  unfold scanFloor. destruct (knownComponent _); cbn [negb orb]; [|naive_solver].
  do 2 (case_bool_decide; cbn [orb]; [naive_solver lia|]).
  case_decide; naive_solver lia.
Qed.

(** What the scan knows of the floors it has seen. *)
Record scanned (floors : list PlacementComponentFloor) (s : floorScan) : Prop := {
  sc_distinct : NoDup (Component <$> floors);
  sc_each : ∀ f, f ∈ floors → knownComponent (Component f) = true ∧ 0 ≤ Replicas f;
  sc_seen : ∀ c, c ∈ seen s ↔ c ∈ Component <$> floors;
  sc_replica : hasReplicaComponent s = true ↔ ∃ f, f ∈ floors ∧ Component f ≠ RouterComponent;
  sc_engine : hasEngine s = true ↔ EngineComponent ∈ Component <$> floors;
  sc_count : hasReplicaComponent s = true → replica_floor floors (replicas s);
}.

Lemma floor_eta f : mkFloor (Component f) (Replicas f) = f.
Proof. by destruct f. Qed.

Lemma scanned_snoc pre s f s' :
  scanned pre s → scanFloor s f = Ok s' → scanned (pre ++ [f]) s'.
Proof.
  intros S ((Hk & Hn & Hr) & ->)%scanFloor_Ok. rewrite (sc_seen _ _ S) in Hn.
  assert (∀ (l : list PlacementComponentFloor) g, g ∈ l ++ [f] ↔ g ∈ l ∨ g = f) as Hin
    by (intros l g; by rewrite elem_of_app, list_elem_of_singleton).
  split.
  - rewrite fmap_app. apply NoDup_app. split_and!; [apply S| |apply NoDup_singleton].
    intros c Hc ->%list_elem_of_singleton. done.
  - intros g [Hg| ->]%Hin; [by apply S|done].
  - intros c. rewrite fmap_app, elem_of_app. cbn [fmap list_fmap]. rewrite list_elem_of_singleton, <-(sc_seen _ _ S).
    case_decide; cbn [seen]; set_solver.
  - setoid_rewrite Hin. case_decide as Hd; cbn [hasReplicaComponent].
    + rewrite (sc_replica _ _ S). naive_solver.
    + naive_solver.
  - rewrite fmap_app, elem_of_app. cbn [fmap list_fmap]. rewrite list_elem_of_singleton, <-(sc_engine _ _ S).
    case_decide as Hd; cbn [hasEngine].
    + rewrite Hd. naive_solver.
    + rewrite orb_true_iff, bool_decide_eq_true. naive_solver.
  - unfold replica_floor. rewrite fmap_app. setoid_rewrite elem_of_app. cbn [fmap list_fmap].
    setoid_rewrite list_elem_of_singleton.
    pose proof (sc_engine _ _ S) as He. pose proof (sc_count _ _ S) as Hc. unfold replica_floor in Hc.
    case_decide as Hd; cbn [replicas hasReplicaComponent]; intros Hh.
    + destruct (Hc Hh) as [?|[? ?]]; [by left; left|right].
      split; [|by left]. intros [?|E]; [done|]. by rewrite Hd in E.
    + case_bool_decide as Hb; cbn [orb]; [left; right; by rewrite <-Hb, floor_eta|].
      assert (Component f = DecoderComponent) as Hdec
        by (apply knownComponent_true in Hk; naive_solver).
      destruct (hasEngine s) eqn:E; cbn [negb].
      * left. left.
        assert (hasReplicaComponent s = true) as Hh'.
        { apply (sc_replica _ _ S). pose proof (proj1 He eq_refl) as E'.
          apply list_elem_of_fmap in E' as (g & Hg & Hgin). exists g. split; [done|]. by rewrite <-Hg. }
        destruct (Hc Hh') as [?|[Hno _]]; [done|]. exfalso. by apply Hno, He.
      * right. split; [|right; by rewrite <-Hdec, floor_eta].
        intros [Hin'|E']; [|by rewrite Hdec in E']. by apply He in Hin'.
Qed.

Lemma scan_start : scanned [] (mkScan ∅ 0 false false).
Proof.
  split; cbn; [constructor|set_solver|set_solver| | |done].
  - split; [done|]. intros (f & Hf & _). by apply elem_of_nil in Hf.
  - split; [done|]. intros Hf. by apply elem_of_nil in Hf.
Qed.

Lemma scan_run floors pre s :
  scanned pre s → NoDup (Component <$> pre ++ floors) →
  (∀ f, f ∈ floors → knownComponent (Component f) = true ∧ 0 ≤ Replicas f) →
  ∃ s', ofold scanFloor s floors = Ok s' ∧ scanned (pre ++ floors) s'.
Proof.
  revert pre s. induction floors as [|f floors IH]; intros pre s S Hnd Hall.
  { exists s. by rewrite app_nil_r. }
  assert (Component f ∉ Component <$> pre) as Hf.
  { rewrite fmap_app, fmap_cons in Hnd. apply NoDup_app in Hnd as (_ & Hd & _).
    intros Hin. apply (Hd _ Hin). by left. }
  destruct (Hall f ltac:(by left)) as [Hk Hr]. cbn [ofold].
  assert (∃ s1, scanFloor s f = Ok s1) as [s1 E].
  { eexists. apply scanFloor_Ok. split; [|reflexivity]. by rewrite (sc_seen _ _ S). }
  rewrite E. cbn [obind].
  replace (pre ++ f :: floors) with ((pre ++ [f]) ++ floors) in * by (by rewrite <-app_assoc).
  apply IH; [by eapply scanned_snoc|done|]. intros g Hg. apply Hall. by right.
Qed.

Lemma ValidateReplicaFloors_inv floors n :
  ValidateReplicaFloors floors = Ok n → floors_valid floors ∧ replica_floor floors n.
Proof.
  intros (s & E & Hs)%obind_Ok_inv.
  apply (ofold_Ok_ind _ scanned) in E as S; [|apply scan_start|intros; by eapply scanned_snoc].
  destruct (hasReplicaComponent s) eqn:Hh; [|done]. injection Hs as <-.
  split; [split; [apply S..|by apply S]|by apply S].
Qed.

(** A valid list is accepted, with the floor it stands for. *)
Lemma ValidateReplicaFloors_valid floors :
  floors_valid floors → ∃ n, ValidateReplicaFloors floors = Ok n.
Proof.
  intros V. destruct (scan_run floors [] (mkScan ∅ 0 false false)) as (s & E & S);
    [apply scan_start|apply V..|].
  unfold ValidateReplicaFloors. rewrite E. cbn [obind].
  rewrite (proj2 (sc_replica _ _ S)) by apply V. eauto.
Qed.

#[export] Instance floors_valid_perm : Proper ((≡ₚ) ==> iff) floors_valid.
Proof.
  cut (∀ l1 l2, l1 ≡ₚ l2 → floors_valid l1 → floors_valid l2).
  { intros Hc l1 l2 Hp. split; eauto. by apply Hc. }
  intros l1 l2 Hp [Hd Hf (f & Hf1 & Hf2)]. split.
  - by rewrite <-Hp.
  - intros g. rewrite <-Hp. auto.
  - exists f. by rewrite <-Hp.
Qed.

Lemma matchFloor_Ok floors c spec :
  NoDup (Component <$> floors) →
  matchFloor floors c spec = Ok tt ↔ ∃ v, (spec ≫= MinReplicas) = Some v ∧ mkFloor c v ∈ floors.
Proof.
  induction floors as [|f floors IH]; cbn [matchFloor fmap list_fmap].
  { intros _. split; [done|]. intros (v & _ & Hv). by apply elem_of_nil in Hv. }
  intros [Hf Hnd]%NoDup_cons. case_decide as Hc.
  - case_decide as Hs.
    + split; [|done]. intros _. exists (Replicas f). split; [done|]. subst c. rewrite floor_eta. by left.
    + split; [done|]. intros (v & Hv & [<-|Hin]%elem_of_cons); [by rewrite Hv in Hs|].
      exfalso. apply Hf. rewrite Hc. apply list_elem_of_fmap. by exists (mkFloor c v).
  - rewrite IH by done. setoid_rewrite elem_of_cons. split; [naive_solver|].
    intros (v & Hv & [<-|Hin]); [done|by eauto].
Qed.

(** ** The resolved components *)

(** A component that is not declared, or whose count is explicit and an
    [int32] that is not negative. *)
Definition resolved (component : string * option ComponentExtensionSpec) : Prop :=
  ∀ spec, component.2 = Some spec → ∃ v, MinReplicas spec = Some v ∧ 0 ≤ v ≤ MaxInt32.

Definition floorOf (component : string * option ComponentExtensionSpec) : option PlacementComponentFloor :=
  component.2 ≫= λ spec, mkFloor component.1 <$> MinReplicas spec.

Lemma resolveFloor_loop comps acc actual :
  ofold resolveFloor acc comps = Ok actual ↔ Forall resolved comps ∧ actual = acc ++ omap floorOf comps.
Proof.
  revert acc. induction comps as [|[c spec] comps IH]; intros acc; cbn [ofold omap list_omap].
  { rewrite app_nil_r. split; [by intros [= <-]|by intros [_ ->]]. }
  rewrite Forall_cons. unfold resolveFloor at 1, floorOf at 1, resolved at 1. cbn [fst snd].
  destruct spec as [[[v|]]|]; cbn [MinReplicas mbind option_bind fmap option_fmap option_map obind].
  - case_decide as Hd; cbn [obind].
    + split; [done|]. intros [[Hr _] _]. destruct (Hr _ eq_refl) as (w & [= <-] & ?). lia.
    + rewrite IH, i32_id by (unfold int32_range; lia). rewrite <-app_assoc. cbn [app].
      split; [|naive_solver]. intros [? ->]. split_and!; [|done|done].
      intros spec [= <-]. exists v. split; [done|lia].
  - split; [done|]. intros [[Hr _] _]. by destruct (Hr _ eq_refl) as (w & [=] & ?).
  - rewrite IH. naive_solver.
Qed.

Lemma ResolveReplicaFloors_Ok engine decoder router actual :
  ResolveReplicaFloors engine decoder router = Ok actual ↔
  Forall resolved (resolvedFloorComponents engine decoder router)
  ∧ actual = omap floorOf (resolvedFloorComponents engine decoder router) ∧ floors_valid actual.
Proof.
  unfold ResolveReplicaFloors. split.
  - intros (floors & (Hr & ->)%resolveFloor_loop & (n & (V & _)%ValidateReplicaFloors_inv & [= <-])%obind_Ok_inv)%obind_Ok_inv.
    done.
  - intros (Hr & -> & V). destruct (ValidateReplicaFloors_valid _ V) as [n E].
    rewrite (proj2 (resolveFloor_loop _ _ _) (conj Hr eq_refl)). cbn [obind app]. by rewrite E.
Qed.

Lemma elem_of_floorOf (comps : list (string * option ComponentExtensionSpec)) c v :
  mkFloor c v ∈ omap floorOf comps ↔ ∃ spec, (c, Some spec) ∈ comps ∧ MinReplicas spec = Some v.
Proof.
  rewrite list_elem_of_omap. split.
  - intros ([c' [spec|]] & Hin & E); [|done]. cbn in E.
    destruct (MinReplicas spec) eqn:Em; [|done]. cbn in E. injection E as -> ->. eauto.
  - intros (spec & Hin & E). exists (c, Some spec). split; [done|]. cbn. by rewrite E.
Qed.

Lemma floorOf_sublist (comps : list (string * option ComponentExtensionSpec)) :
  Component <$> omap floorOf comps `sublist_of` comps.*1.
Proof.
  induction comps as [|[c [[[v|]]|]] comps IH]; cbn; [done|by apply sublist_skip|by apply sublist_cons..].
Qed.

Lemma resolved_distinct engine decoder router :
  NoDup (Component <$> omap floorOf (resolvedFloorComponents engine decoder router)).
Proof.
  eapply sublist_NoDup; [|apply floorOf_sublist]. cbn.
  apply (bool_decide_unpack _). vm_compute. exact I.
Qed.

(** The pass over the declared components. *)
Lemma checkLoop floors engine decoder router :
  floors_valid floors →
  ofold (λ _ (component : string * option ComponentExtensionSpec),
           match component.2 with
           | None => Ok tt
           | Some spec => CheckComponentReplicaFloor floors component.1 (Some spec)
           end) tt (resolvedFloorComponents engine decoder router) = Ok tt
  ↔ ∀ c spec, (c, Some spec) ∈ resolvedFloorComponents engine decoder router →
      ∃ v, MinReplicas spec = Some v ∧ mkFloor c v ∈ floors.
Proof.
  intros V. rewrite ofold_check. destruct (ValidateReplicaFloors_valid _ V) as [n E].
  assert (∀ c spec, CheckComponentReplicaFloor floors c (Some spec) = Ok tt
    ↔ ∃ v, MinReplicas spec = Some v ∧ mkFloor c v ∈ floors) as Hc.
  { intros c spec. unfold CheckComponentReplicaFloor. rewrite E. cbn [obind].
    apply matchFloor_Ok, V. }
  split.
  - intros H c spec Hin. apply Hc. exact (H _ Hin).
  - intros H [c [spec|]] Hin; cbn; [|done]. apply Hc. by apply H.
Qed.

(** When the components resolve. *)
Lemma ResolveReplicaFloors_iff engine decoder router :
  (∃ actual, ResolveReplicaFloors engine decoder router = Ok actual) ↔
  Forall resolved (resolvedFloorComponents engine decoder router)
  ∧ (is_Some engine ∨ is_Some decoder).
Proof.
  setoid_rewrite ResolveReplicaFloors_Ok. split.
  - intros (actual & Hr & -> & [_ _ ([c v] & Hf & Hc)]). split; [done|].
    apply elem_of_floorOf in Hf as (spec & Hin & _). unfold resolvedFloorComponents in Hin.
    set_unfold in Hin. cbn in Hc. destruct_or!; naive_solver.
  - intros [Hr Hsome]. exists (omap floorOf (resolvedFloorComponents engine decoder router)).
    split_and!; [done|done|]. rewrite Forall_forall in Hr.
    assert (∀ c spec, (c, Some spec) ∈ resolvedFloorComponents engine decoder router →
      ∃ v, MinReplicas spec = Some v ∧ 0 ≤ v ≤ MaxInt32) as Hv by (intros c spec Hin; exact (Hr _ Hin spec eq_refl)).
    split.
    + apply resolved_distinct.
    + intros [c v] (spec & Hin & Hm)%elem_of_floorOf. destruct (Hv _ _ Hin) as (w & Hw & ?).
      split; [|cbn; naive_solver lia]. unfold resolvedFloorComponents in Hin. set_unfold in Hin.
      destruct_or!; naive_solver.
    + destruct Hsome as [[spec ->]|[spec ->]];
        [destruct (Hv EngineComponent spec) as (v & Hm & _)|destruct (Hv DecoderComponent spec) as (v & Hm & _)];
        try (by unfold resolvedFloorComponents; set_solver);
        [exists (mkFloor EngineComponent v)|exists (mkFloor DecoderComponent v)];
        (split; [|done]); apply elem_of_floorOf; exists spec; (split; [|done]);
        unfold resolvedFloorComponents; set_solver.
Qed.

(** The member's check of the accepted floors.  It passes exactly when every
    declared component has an explicit replica count in [int32] range and the
    accepted floors are, in some order, precisely those counts: no component
    missing, none extra, none different.  Resolving fails exactly when a declared
    component leaves its count open or out of range, or neither engine nor
    decoder is declared. *)
Theorem CheckReplicaFloors_iff floors engine decoder router :
  (CheckReplicaFloors floors engine decoder router = Ok tt ↔
   ∃ actual, ResolveReplicaFloors engine decoder router = Ok actual ∧ floors ≡ₚ actual)
  ∧ ((∃ actual, ResolveReplicaFloors engine decoder router = Ok actual) ↔
     Forall resolved (resolvedFloorComponents engine decoder router)
     ∧ (is_Some engine ∨ is_Some decoder)).
Proof.
  split.
  - unfold CheckReplicaFloors. split.
    + intros (n & (V & _)%ValidateReplicaFloors_inv & Hrest)%obind_Ok_inv.
      apply obind_Ok_inv in Hrest as (actual & E & Hrest). exists actual. split; [done|].
      apply ResolveReplicaFloors_Ok in E as (Hr & Ha & Va). case_decide as Hlen; [done|].
      pose proof (proj1 (checkLoop floors engine decoder router V) Hrest) as Hall. symmetry.
      apply submseteq_length_Permutation; [|lia]. apply NoDup_submseteq; [by eapply NoDup_fmap_1, Va|].
      intros [c v]. rewrite Ha, elem_of_floorOf. intros (spec & Hin & Hv).
      destruct (Hall c spec Hin) as (w & Hw & Hf). congruence.
    + intros (actual & E & Hp). pose proof E as (Hr & Ha & Va)%ResolveReplicaFloors_Ok.
      rewrite <-Hp in Va. destruct (ValidateReplicaFloors_valid _ Va) as [n En].
      rewrite En, E. cbn [obind]. rewrite decide_False by (rewrite Hp; lia).
      apply checkLoop; [done|]. intros c spec Hin.
      rewrite Forall_forall in Hr. destruct (Hr _ Hin spec eq_refl) as (v & Hv & _).
      exists v. split; [done|]. rewrite Hp, Ha, elem_of_floorOf. eauto.
  - apply ResolveReplicaFloors_iff.
Qed.

(** ** Reading the homes *)

Definition targets_ok (targets : gmap string Z) : Prop :=
  targets !! "" = None ∧ ∀ k v, targets !! k = Some v → 0 ≤ v.

Lemma targets_ok_keys targets :
  targets_ok targets ↔ ∀ k, k ∈ sorted_keys targets → k ≠ "" ∧ 0 ≤ mget targets k.
Proof.
  setoid_rewrite elem_of_sorted_keys. split.
  - intros [Hn Hv] k [v E]. split; [intros ->; congruence|]. unfold mget. rewrite E. cbn. eauto.
  - intros H. split.
    + apply eq_None_not_Some. intros Hs. by destruct (H _ Hs).
    + intros k v E. destruct (H k ltac:(eauto)) as [_ Hv]. unfold mget in Hv. by rewrite E in Hv.
Qed.

(** Assigning every key of a map its value rebuilds the map. *)
Lemma foldl_rebuild (m : gmap string Z) :
  foldl (λ t k, <[k := mget m k]> t) ∅ (sorted_keys m) = m.
Proof.
  apply map_eq. intros k. rewrite foldl_insert_lookup. case_decide as Hk; rewrite elem_of_sorted_keys in Hk.
  - symmetry. by apply mget_dom.
  - rewrite lookup_empty. symmetry. by apply eq_None_not_Some.
Qed.

(** Within its range a count of homes and a sum of [int32] targets do not wrap. *)
Definition homes_bound : Z := 1073741824.

Lemma mget_int32 (m : gmap string Z) k :
  (∀ k v, m !! k = Some v → int32_range v) → int32_range (mget m k).
Proof.
  intros Hm. unfold mget. destruct (m !! k) eqn:E; cbn; [eauto|]. unfold int32_range. lia.
Qed.

Lemma readTarget_run targets ks w p s :
  (∀ k v, targets !! k = Some v → int32_range v) →
  (∀ k, k ∈ ks → k ≠ "" ∧ 0 ≤ mget targets k) →
  0 ≤ p → 0 ≤ s → Z.of_nat (length ks) < homes_bound →
  p + Z.of_nat (length ks) ≤ homes_bound → s + MaxInt32 * Z.of_nat (length ks) ≤ MaxInt32 * homes_bound →
  ofold (readTarget targets) (w, p, s) ks
  = Ok (foldl (λ t k, <[k := mget targets k]> t) w ks,
        p + Z.of_nat (length (filter (λ k, 0 < mget targets k) ks)),
        s + zsum_with (mget targets) ks).
Proof.
  intros Hr. revert w p s. induction ks as [|k ks IH]; intros w p s Hk Hp Hs Hl Hlp Hls; cbn [ofold].
  { cbn. by rewrite !Z.add_0_r. }
  destruct (Hk k ltac:(by left)) as [Hne Hnn]. pose proof (mget_int32 targets k Hr) as [_ Hm].
  unfold homes_bound in *. cbn [length] in *. unfold readTarget at 1.
  rewrite !decide_False by (done || lia). cbn [obind].
  rewrite (i64_id (s + _)) by (unfold int64_range; lia).
  rewrite (i64_id (p + _)) by (unfold int64_range; lia).
  rewrite IH; [|intros j Hj; apply Hk; by right|case_decide; lia|lia|lia|case_decide; lia|lia].
  rewrite zsum_with_cons, filter_cons. cbn [foldl]. f_equal. f_equal; [f_equal|lia].
  case_decide; cbn [length]; lia.
Qed.

Lemma basis_bound targets :
  (∀ k v, targets !! k = Some v → int32_range v) → targets_ok targets →
  0 ≤ basis targets ≤ MaxInt32 * Z.of_nat (size targets).
Proof.
  intros Hr Hok. rewrite basis_sorted_keys. split.
  - apply zsum_with_nonneg. intros k Hk. by apply targets_ok_keys.
  - rewrite (zsum_with_mono _ (λ _, MaxInt32)), zsum_with_const, length_sorted_keys; [done|].
    intros k _. apply (mget_int32 targets k Hr).
Qed.

Lemma readTarget_loop targets r :
  (∀ k v, targets !! k = Some v → int32_range v) → Z.of_nat (size targets) < homes_bound →
  ofold (readTarget targets) (∅, 0, 0) (sorted_keys targets) = Ok r ↔
  targets_ok targets ∧ r = (targets, positives targets, basis targets).
Proof.
  intros Hr Hn.
  assert (targets_ok targets → ofold (readTarget targets) (∅, 0, 0) (sorted_keys targets)
    = Ok (targets, positives targets, basis targets)) as Hrun.
  { intros Hok. rewrite readTarget_run; rewrite ?length_sorted_keys; unfold homes_bound in *;
      [|done|by apply targets_ok_keys|lia..].
    by rewrite foldl_rebuild, !Z.add_0_l, <-basis_sorted_keys. }
  split; [|intros [Hok ->]; auto]. intros E.
  assert (targets_ok targets) as Hok.
  { apply targets_ok_keys.
    refine (ofold_Ok_ind _ (λ pre _, ∀ k, k ∈ pre → k ≠ "" ∧ 0 ≤ mget targets k) _ _ _ _ _ E).
    - intros k Hk. by apply elem_of_nil in Hk.
    - intros pre x post [[w p] s] b' _ IH Hx k. rewrite elem_of_app, list_elem_of_singleton.
      intros [Hk| ->]; [auto|]. unfold readTarget in Hx. do 2 (case_decide; [done|]). split; [done|lia]. }
  split; [done|]. rewrite (Hrun Hok) in E. congruence.
Qed.

(** ** Dividing by the primary targets *)

(** The Go types of the arguments, fewer than [2^30] homes, and no total that
    rounds over 64 bits. *)
Record floors_args (primaryMinimum : Z) (targets minimums : gmap string Z) : Prop := {
  fa_primary : int32_range primaryMinimum;
  fa_targets : ∀ k v, targets !! k = Some v → int32_range v;
  fa_minimums : ∀ c m, minimums !! c = Some m → int32_range m;
  fa_homes : Z.of_nat (size targets) < homes_bound;
  fa_round : ∀ c m, minimums !! c = Some m → ¬ roundsOver (basis targets) m primaryMinimum;
}.

(** A component whose minimum can be divided. *)
Record divisible (primary : string) (primaryMinimum : Z) (targets : gmap string Z) (c : string) (m : Z) : Prop := {
  di_other : c ≠ primary;
  di_known : knownComponent c = true;
  di_nonneg : 0 ≤ m;
  di_fits : scaledTotal (basis targets) m primaryMinimum ≤ MaxInt32;
  di_enough : 0 < scaledTotal (basis targets) m primaryMinimum →
              positives targets ≤ scaledTotal (basis targets) m primaryMinimum;
}.

Lemma appendLoop (g : string → PlacementComponentFloor) (out : gmap string (list PlacementComponentFloor)) names k :
  NoDup names →
  foldl (λ out name, <[name := default [] (out !! name) ++ [g name]]> out) out names !! k
  = if decide (k ∈ names) then Some (default [] (out !! k) ++ [g k]) else out !! k.
Proof.
  revert out. induction names as [|x names IH]; intros out; cbn [foldl].
  { intros _. rewrite decide_False; [done|]. apply not_elem_of_nil. }
  intros [Hx Hnd]%NoDup_cons. rewrite IH by done.
  destruct (decide (k = x)) as [->|Hne].
  - rewrite decide_False, decide_True, lookup_insert_eq by (done || by left). done.
  - rewrite lookup_insert_ne by done. do 2 case_decide; set_solver.
Qed.

Section division.
Context (primary : string) (pm : Z) (targets minimums : gmap string Z).
Context (A : floors_args pm targets minimums).
Context (Hok : targets_ok targets) (Hpm : 0 < pm).

Let names := sorted_keys targets.
Let total m := scaledTotal (basis targets) m pm.
Let sharesOf m := divide (total m) targets targets.
Abbreviation step := (apportionComponent primary pm (basis targets) (positives targets) targets names minimums).

Lemma targets_weights_valid : weights_valid targets.
Proof.
  pose proof (basis_bound targets (fa_targets _ _ _ A) Hok). pose proof (fa_homes _ _ _ A).
  split; [apply Hok..|]. unfold homes_bound in *. lia.
Qed.

Lemma total_nonneg m : 0 ≤ m → 0 ≤ total m.
Proof.
  intros Hm. apply scaledTotal_nonneg; [|done|done].
  by destruct (basis_bound targets (fa_targets _ _ _ A) Hok).
Qed.

Lemma sharesOf_fair c m :
  divisible primary pm targets c m →
  (∃ s, largestRemainder (total m) targets = Ok s) ∧ FairShares (total m) targets targets (sharesOf m).
Proof.
  intros D. apply divide_spec.
  - split; [apply total_nonneg, D|apply D].
  - apply targets_weights_valid.
  - intros Hp. apply scaledTotal_pos in Hp; [lia| |apply D|done].
    by destruct (basis_bound targets (fa_targets _ _ _ A) Hok).
  - done.
  - intros k Hk. pose proof (mget_weight_nonneg targets (proj2 Hok) k). lia.
  - apply D.
Qed.

(** The total of a component, or the error in its place. *)
Lemma component_total c m :
  minimums !! c = Some m → 0 ≤ m →
  if decide (total m ≤ MaxInt32) then ratioTotal (basis targets) m pm = Ok (total m)
  else ∃ e, ratioTotal (basis targets) m pm = Err e.
Proof.
  intros Hc Hm. pose proof (basis_bound targets (fa_targets _ _ _ A) Hok).
  pose proof (fa_homes _ _ _ A). pose proof (fa_primary _ _ _ A) as [_ ?].
  pose proof (fa_minimums _ _ _ A _ _ Hc) as [_ ?]. unfold homes_bound in *.
  apply ratioTotal_eq; [lia..|]. by eapply A.
Qed.

(** One round: a divisible component is appended to every home, another fails. *)
Lemma apportionComponent_Ok out c m :
  minimums !! c = Some m → divisible primary pm targets c m →
  step out c = Ok (foldl (λ out name, <[name := default [] (out !! name)
                     ++ [mkFloor c (mget (sharesOf m) name)]]> out) out names).
Proof.
  intros Hc D. destruct (sharesOf_fair c m D) as [[s Es] _].
  pose proof (component_total c m Hc (di_nonneg _ _ _ _ _ D)) as Et.
  rewrite decide_True in Et by apply D. unfold apportionComponent.
  assert (mget minimums c = m) as -> by (unfold mget; by rewrite Hc).
  rewrite decide_False by apply D. rewrite (di_known _ _ _ _ _ D). cbn [negb].
  pose proof (di_nonneg _ _ _ _ _ D). rewrite decide_False by lia.
  rewrite Et. cbn [omap_err obind]. rewrite decide_False by (pose proof (di_enough _ _ _ _ _ D); unfold total; lia).
  rewrite Es. cbn [obind]. unfold sharesOf, divide. by rewrite Es.
Qed.

Lemma apportionComponent_cases out c m :
  minimums !! c = Some m → divisible primary pm targets c m ∨ ∃ e, step out c = Err e.
Proof.
  intros Hc. unfold apportionComponent. assert (mget minimums c = m) as -> by (unfold mget; by rewrite Hc).
  case_decide as Hpr; [by eauto|]. destruct (knownComponent c) eqn:Hk; cbn [negb]; [|by eauto].
  case_decide as Hm; [by eauto|]. pose proof (component_total c m Hc ltac:(lia)) as Et.
  destruct (decide (total m ≤ MaxInt32)) as [Hf|Hf]; [|destruct Et as [e ->]; by eauto].
  rewrite Et. cbn [omap_err obind]. case_decide as He; [by eauto|]. left.
  split; [done|done|lia|done|]. fold (total m). lia.
Qed.

Lemma component_loop_inv comps out :
  (∀ c, c ∈ comps → is_Some (minimums !! c)) →
  ofold step out comps ≠ Panic
  ∧ ∀ out', ofold step out comps = Ok out' →
      ∀ c m, c ∈ comps → minimums !! c = Some m → divisible primary pm targets c m.
Proof.
  intros Hin. split.
  - apply ofold_no_panic_in. intros out1 c Hc. destruct (Hin c Hc) as [m Hm].
    destruct (apportionComponent_cases out1 c m Hm) as [D|[e ->]]; [|done].
    by rewrite (apportionComponent_Ok out1 c m Hm D).
  - intros out' E.
    refine (ofold_Ok_ind _ (λ pre _, ∀ c m, c ∈ pre → minimums !! c = Some m →
      divisible primary pm targets c m) _ _ _ _ _ E).
    + intros c m Hc. by apply elem_of_nil in Hc.
    + intros pre x post b b' _ IH Hx c m. rewrite elem_of_app, list_elem_of_singleton.
      intros [Hc| ->] Hm; [by eapply IH|].
      destruct (apportionComponent_cases b x m Hm) as [D|[e Ee]]; [done|congruence].
Qed.

(** The loop over the components. *)
Lemma component_loop comps (out : gmap string (list PlacementComponentFloor)) :
  (∀ c, c ∈ comps → ∃ m, minimums !! c = Some m ∧ divisible primary pm targets c m) →
  (∀ k, is_Some (out !! k) ↔ k ∈ names) →
  ∃ out', ofold step out comps = Ok out' ∧
    ∀ k, out' !! k = (λ fl, fl ++ ((λ c, mkFloor c (mget (sharesOf (mget minimums c)) k)) <$> comps)) <$> out !! k.
Proof.
  revert out. induction comps as [|c comps IH]; intros out Hall Hdom.
  { exists out. split; [done|]. intros k. destruct (out !! k); cbn; [by rewrite app_nil_r|done]. }
  destruct (Hall c ltac:(by left)) as (m & Hc & D). cbn [ofold].
  rewrite (apportionComponent_Ok out c m Hc D). cbn [obind].
  set (out1 := foldl _ out names).
  assert (∀ k, out1 !! k = (λ fl, fl ++ [mkFloor c (mget (sharesOf m) k)]) <$> out !! k) as H1.
  { intros k. unfold out1. rewrite (appendLoop (λ k, mkFloor c (mget (sharesOf m) k))) by apply NoDup_sorted_keys.
    case_decide as Hk; rewrite <-Hdom in Hk; [by destruct Hk as [fl ->]|].
    by rewrite (proj2 (eq_None_not_Some _) Hk). }
  destruct (IH out1) as (out' & E & H').
  - intros c' Hc'. apply Hall. by right.
  - intros k. by rewrite H1, fmap_is_Some.
  - exists out'. split; [done|]. intros k. rewrite H', H1.
    assert (mget minimums c = m) as Em by (unfold mget; by rewrite Hc).
    destruct (out !! k); cbn; [|done]. by rewrite <-app_assoc, Em.
Qed.
End division.

(** When the floors of a placement can be apportioned. *)
Record apportionable (primary : string) (pm : Z) (targets minimums : gmap string Z) : Prop := {
  ap_primary : primary = EngineComponent ∨ primary = DecoderComponent;
  ap_minimum : 0 < pm;
  ap_targets : targets_ok targets;
  ap_components : ∀ c m, minimums !! c = Some m → divisible primary pm targets c m;
}.

(** The floors of one home. *)
Definition homeFloors (primary : string) (pm : Z) (targets minimums : gmap string Z) (k : string)
    : list PlacementComponentFloor :=
  mkFloor primary (mget targets k)
  :: ((λ c, mkFloor c (mget (divide (scaledTotal (basis targets) (mget minimums c) pm) targets targets) k))
        <$> sorted_keys minimums).

Section floors.
Context (primary : string) (pm : Z) (targets minimums : gmap string Z).
Context (A : floors_args pm targets minimums).

Lemma ApportionReplicaFloors_run :
  apportionable primary pm targets minimums →
  ∃ out, ApportionReplicaFloors primary pm targets minimums = Ok out
    ∧ ∀ k, out !! k = if decide (k ∈ sorted_keys targets)
                      then Some (sort_slice floorLess (homeFloors primary pm targets minimums k)) else None.
Proof.
  intros P. pose proof (ap_minimum _ _ _ _ P). unfold ApportionReplicaFloors.
  rewrite decide_False by (pose proof (ap_primary _ _ _ _ P); naive_solver).
  rewrite decide_False by lia.
  rewrite (proj2 (readTarget_loop targets _ (fa_targets _ _ _ A) (fa_homes _ _ _ A)) (conj (ap_targets _ _ _ _ P) eq_refl)).
  cbn [obind]. set (out0 := foldl _ ∅ (sorted_keys targets)).
  assert (∀ k, out0 !! k = if decide (k ∈ sorted_keys targets) then Some [mkFloor primary (mget targets k)] else None) as H0
    by (intros k; unfold out0; by rewrite (foldl_insert_lookup (λ k, [mkFloor primary (mget targets k)]))).
  destruct (component_loop primary pm targets minimums A (ap_targets _ _ _ _ P) (ap_minimum _ _ _ _ P)
    (sorted_keys minimums) out0) as (out & E & Hout).
  - intros c [m Hm]%elem_of_sorted_keys. exists m. split; [done|]. by apply P.
  - intros k. rewrite H0. case_decide; [by split; eauto|]. by split; [intros [? ?]|].
  - rewrite E. cbn [obind]. eexists. split; [reflexivity|]. intros k.
    rewrite lookup_fmap, Hout, H0. by case_decide.
Qed.

Lemma ApportionReplicaFloors_inv :
  ApportionReplicaFloors primary pm targets minimums ≠ Panic
  ∧ ∀ out, ApportionReplicaFloors primary pm targets minimums = Ok out → apportionable primary pm targets minimums.
Proof.
  unfold ApportionReplicaFloors. case_decide as Hp; [done|]. case_decide as Hm; [done|].
  destruct (ofold (readTarget targets) (∅, 0, 0) (sorted_keys targets)) as [r| |] eqn:Er; cbn [obind]; [|done|].
  - pose proof Er as [Hok ->]%readTarget_loop; [|apply A..].
    destruct (component_loop_inv primary pm targets minimums A Hok ltac:(lia) (sorted_keys minimums)
      (foldl (λ out name, <[name := [mkFloor primary (mget targets name)]]> out) ∅ (sorted_keys targets))) as [Hnp Hinv].
    { intros c. apply elem_of_sorted_keys. }
    destruct (ofold _ _ (sorted_keys minimums)) as [o| |] eqn:Eo; cbn [obind]; [|done|done].
    split; [done|]. intros out _. split; [|lia|done|].
    + destruct (decide (primary = EngineComponent)), (decide (primary = DecoderComponent)); tauto.
    + intros c m Hc. apply (Hinv o eq_refl c m); [|done]. apply elem_of_sorted_keys. eauto.
  - exfalso. revert Er. apply ofold_no_panic. intros [[w p] s] x. unfold readTarget. by repeat case_decide.
Qed.
End floors.

(** C9: when replica floors are apportioned.  For arguments of their Go types the
    call never panics, and it returns floors exactly when the primary is the
    engine or the decoder with a positive minimum, every home has a name and a
    nonnegative target, and every other component is a known one with a
    nonnegative minimum whose scaled total fits an [int32] and, if there is
    anything to give, covers every home that holds the primary. *)
Theorem ApportionReplicaFloors_ok_iff primary pm targets minimums :
  floors_args pm targets minimums →
  ApportionReplicaFloors primary pm targets minimums ≠ Panic
  ∧ ((∃ out, ApportionReplicaFloors primary pm targets minimums = Ok out)
     ↔ apportionable primary pm targets minimums).
Proof.
  intros A. destruct (ApportionReplicaFloors_inv primary pm targets minimums A) as [Hnp Hinv].
  split; [done|]. split; [intros [out E]; by eapply Hinv|].
  intros P. destruct (ApportionReplicaFloors_run primary pm targets minimums A P) as (out & E & _). eauto.
Qed.

Definition threeHomes : gmap string Z := list_to_map [("a", 8); ("b", 1); ("c", 1)].
Definition threeMinimums : gmap string Z := list_to_map [(RouterComponent, 3); (DecoderComponent, 5)].

Lemma threeHomes_args : floors_args 10 threeHomes threeMinimums.
Proof.
  split; [done|by_entries|by_entries|by vm_compute|].
  intros c m Hc. apply (few_homes_round 3); [lia|by vm_compute| |lia].
  revert c m Hc. by_entries.
Defined.

Lemma ApportionReplicaFloors_ok_iff_witness :
  apportionable EngineComponent 10 threeHomes threeMinimums.
Proof.
  apply (ApportionReplicaFloors_ok_iff EngineComponent 10 threeHomes threeMinimums threeHomes_args).
  eexists. vm_compute. reflexivity.
Defined.

(** ** What every home is given *)

Section given.
Context (primary : string) (pm : Z) (targets minimums : gmap string Z).
Context (A : floors_args pm targets minimums).
Context (P : apportionable primary pm targets minimums).
Let fl k := sort_slice floorLess (homeFloors primary pm targets minimums k).

Lemma homeFloors_components k :
  Component <$> homeFloors primary pm targets minimums k = primary :: sorted_keys minimums.
Proof. unfold homeFloors. cbn. f_equal. rewrite <-list_fmap_compose. by rewrite list_fmap_id. Qed.

Lemma homeFloors_distinct k : NoDup (Component <$> homeFloors primary pm targets minimums k).
Proof.
  rewrite homeFloors_components. apply NoDup_cons. split; [|apply NoDup_sorted_keys].
  intros [m Hm]%elem_of_sorted_keys. by destruct (ap_components _ _ _ _ P _ _ Hm).
Qed.

Lemma elem_of_given k f :
  f ∈ fl k ↔ f = mkFloor primary (mget targets k)
    ∨ ∃ c m, minimums !! c = Some m
        ∧ f = mkFloor c (mget (divide (scaledTotal (basis targets) m pm) targets targets) k).
Proof.
  unfold fl, homeFloors. rewrite elem_of_sort_slice, elem_of_cons, list_elem_of_fmap.
  apply or_iff_compat_l. setoid_rewrite elem_of_sorted_keys. split.
  - intros (c & -> & [m Hm]). exists c, m. split; [done|]. unfold mget at 2. by rewrite Hm.
  - intros (c & m & Hm & ->). exists c. split; [|by eauto]. unfold mget at 3. by rewrite Hm.
Qed.

(** A minimum's shares are a fair division of its scaled total. *)
Lemma given_fair c m :
  minimums !! c = Some m →
  FairShares (scaledTotal (basis targets) m pm) targets targets
    (divide (scaledTotal (basis targets) m pm) targets targets).
Proof.
  intros Hm. by eapply (sharesOf_fair primary pm targets minimums A (ap_targets _ _ _ _ P) (ap_minimum _ _ _ _ P) c m), P.
Qed.

Lemma given_sorted k : StronglySorted (λ f g, str_lt (Component f) (Component g) = true) (fl k).
Proof.
  pose proof (homeFloors_distinct k) as Hnd. rewrite <-(sort_slice_perm floorLess) in Hnd. fold (fl k) in Hnd.
  assert (StronglySorted (not_after floorLess) (fl k)) as Hs by apply sort_slice_sorted, _.
  revert Hnd. induction Hs as [|f l Hs IH HR]; [constructor|]. cbn.
  intros [Hf Hnd]%NoDup_cons. constructor; [auto|]. rewrite Forall_forall in HR |- *.
  intros g Hg. specialize (HR g Hg). unfold not_after, floorLess in HR.
  destruct (str_lt (Component f) (Component g)) eqn:E; [done|]. exfalso. apply Hf.
  rewrite (st_eq _ _ E HR). by apply list_elem_of_fmap_2.
Qed.

Lemma given_valid k : floors_valid (fl k).
Proof.
  split.
  - unfold fl. rewrite sort_slice_perm. apply homeFloors_distinct.
  - intros f [->|(c & m & Hm & ->)]%elem_of_given; cbn.
    + split; [|apply mget_weight_nonneg, P]. apply knownComponent_true.
      destruct (ap_primary _ _ _ _ P); auto.
    + split; [by apply (ap_components _ _ _ _ P c m)|]. by apply (given_fair c m).
  - exists (mkFloor primary (mget targets k)). split; [apply elem_of_given; by left|]. cbn.
    destruct (ap_primary _ _ _ _ P) as [->| ->]; done.
Qed.

(** With the engine as the primary, the accepted count is the target. *)
Lemma given_engine k n :
  primary = EngineComponent → replica_floor (fl k) n → n = mget targets k.
Proof.
  intros Hp Hr. assert (mkFloor EngineComponent (mget targets k) ∈ fl k) as Hin
    by (rewrite <-Hp; apply elem_of_given; by left).
  destruct Hr as [Hn|[Hno _]].
  - pose proof (fv_distinct _ (given_valid k)) as Hnd.
    pose proof (NoDup_fmap_elem Component (fl k) _ _ Hnd Hn Hin eq_refl). congruence.
  - exfalso. apply Hno. by apply (list_elem_of_fmap_2 Component _ _ Hin).
Qed.

(** A home of the primary has a positive floor of everything that has one. *)
Lemma given_positive k f :
  0 < mget targets k → (∀ c m, minimums !! c = Some m → 0 < m) → f ∈ fl k → 0 < Replicas f.
Proof.
  intros Hk Hm [->|(c & m & Hc & ->)]%elem_of_given; [done|]. cbn.
  pose proof (fs_home _ _ _ _ (given_fair c m Hc)) as Hh. specialize (Hm c m Hc).
  assert (mget targets k ≤ basis targets) by (apply map_zsum_lookup_le, P).
  assert (0 < scaledTotal (basis targets) m pm) as Ht.
  { apply scaledTotal_pos; [lia|lia|apply P|lia]. }
  specialize (Hh Ht k Hk). lia.
Qed.
End given.

(** C12: what apportioned floors are.  Every home gets a list sorted by component,
    with the primary's target and one floor per minimum; the list is accepted by
    the member's validation, with the target as its count when the primary is the
    engine, and, where the primary runs and no minimum is zero, by the stricter
    validation of a paused placement.  Per component the floors of all homes are
    a fair division of the minimum scaled to the targets and rounded up: they add
    up to it exactly, homes without the primary get none, every other home at
    least one, and otherwise they follow the largest-remainder split. *)
Theorem ApportionReplicaFloors_divides primary pm targets minimums out :
  floors_args pm targets minimums →
  ApportionReplicaFloors primary pm targets minimums = Ok out →
  (∀ k, is_Some (out !! k) ↔ is_Some (targets !! k))
  ∧ (∀ k fl, out !! k = Some fl →
       StronglySorted (λ f g, str_lt (Component f) (Component g) = true) fl
       ∧ (∀ c, c ∈ Component <$> fl ↔ c = primary ∨ is_Some (minimums !! c))
       ∧ mkFloor primary (mget targets k) ∈ fl
       ∧ (∃ n, ValidateReplicaFloors fl = Ok n ∧ (primary = EngineComponent → n = mget targets k))
       ∧ (0 < mget targets k → (∀ c m, minimums !! c = Some m → 0 < m) →
          ∃ n, ValidatePositiveReplicaFloors fl = Ok n))
  ∧ (∀ c m, minimums !! c = Some m →
       ∃ shares, FairShares (scaledTotal (basis targets) m pm) targets targets shares
         ∧ ∀ k fl, out !! k = Some fl → mkFloor c (mget shares k) ∈ fl).
Proof.
  intros A E. destruct (ApportionReplicaFloors_inv primary pm targets minimums A) as [_ P].
  specialize (P out E). destruct (ApportionReplicaFloors_run primary pm targets minimums A P) as (out' & E' & Hout).
  assert (out' = out) as -> by congruence.
  assert (∀ k fl, out !! k = Some fl → fl = sort_slice floorLess (homeFloors primary pm targets minimums k)) as Hfl.
  { intros k fl. rewrite Hout. case_decide; congruence. }
  split_and!.
  - intros k. rewrite Hout, <-elem_of_sorted_keys. case_decide; [by split; eauto|]. by split; [intros [? ?]|].
  - intros k fl ->%Hfl. pose proof (given_valid _ _ _ _ A P k) as V.
    destruct (ValidateReplicaFloors_valid _ V) as [n En].
    pose proof (proj2 (ValidateReplicaFloors_inv _ _ En)) as Hn. split_and!.
    + by apply given_sorted.
    + intros c. rewrite sort_slice_perm, homeFloors_components, elem_of_cons, elem_of_sorted_keys. done.
    + eapply elem_of_given. by left.
    + exists n. split; [done|]. intros Hp. by eapply given_engine.
    + intros Hk Hm. exists n. unfold ValidatePositiveReplicaFloors. rewrite En. cbn [obind].
      rewrite (proj2 (ofold_check _ _)); [done|]. intros f Hf.
      pose proof (given_positive _ _ _ _ A P k f Hk Hm Hf). by rewrite decide_False by lia.
  - intros c m Hm. eexists. split; [by eapply given_fair|]. intros k fl ->%Hfl.
    eapply elem_of_given. right. eauto.
Qed.

Definition threeFloors : gmap string (list PlacementComponentFloor) := list_to_map
  [("a", [mkFloor DecoderComponent 3; mkFloor EngineComponent 8; mkFloor RouterComponent 1]);
   ("b", [mkFloor DecoderComponent 1; mkFloor EngineComponent 1; mkFloor RouterComponent 1]);
   ("c", [mkFloor DecoderComponent 1; mkFloor EngineComponent 1; mkFloor RouterComponent 1])].

Lemma ApportionReplicaFloors_divides_witness :
  ∃ shares, FairShares 5 threeHomes threeHomes shares
    ∧ ∀ k fl, threeFloors !! k = Some fl → mkFloor DecoderComponent (mget shares k) ∈ fl.
Proof.
  destruct (ApportionReplicaFloors_divides EngineComponent 10 threeHomes threeMinimums threeFloors
    threeHomes_args ltac:(vm_compute; reflexivity)) as (_ & _ & Hs).
  exact (Hs DecoderComponent 5 ltac:(vm_compute; reflexivity)).
Defined.
