(* ===== verification/FloorsWeighted.v ===== *)
(** * Dividing a minimum by weights

    The properties of [ApportionWeightedReplicaFloor], which divides one
    component over the homes of the primary by weights of its own, and of the
    shape of one capacity unit. *)

From S2P Require Import Prelude Remainder Apportion Floors FloorsFacts FloorsClaims.
Local Open Scope Z_scope.

(** ** Dividing by weights of its own *)

(** The homes that hold the primary, and the component's weights there. *)
Definition hostTargets (targets : gmap string Z) : gmap string Z :=
  filter (λ kv, 0 < kv.2) targets.
Definition heldWeights (targets weights : gmap string Z) : gmap string Z :=
  map_imap (λ k t, if decide (0 < t) then Some (mget weights k) else None) targets.

Record weighted_args (pm : Z) (targets : gmap string Z) (minimum : Z) (weights : gmap string Z) : Prop := {
  wa_primary : int32_range pm;
  wa_targets : ∀ k v, targets !! k = Some v → int32_range v;
  wa_minimum : int32_range minimum;
  wa_weights : ∀ k v, weights !! k = Some v → int64_range v;
  wa_homes : Z.of_nat (size targets) < homes_bound;
  wa_round : ¬ roundsOver (basis targets) minimum pm;
}.

(** The weights the homes of the primary carry, which is all the loop reads. *)
Record weights_ok (targets weights : gmap string Z) : Prop := {
  wo_nonneg : ∀ k w, heldWeights targets weights !! k = Some w → 0 ≤ w;
  wo_sum : basis (heldWeights targets weights) ≤ MaxInt64;
}.

Section weighing.
Context (component : string) (pm : Z) (targets : gmap string Z) (minimum : Z) (weights : gmap string Z).
Context (A : weighted_args pm targets minimum weights).
Let names := sorted_keys targets.
Let hw k := if decide (0 < mget targets k) then mget weights k else 0.
Abbreviation step := (weighHome component targets weights).

Lemma heldWeights_lookup k :
  heldWeights targets weights !! k
  = if decide (0 < mget targets k) then Some (mget weights k) else None.
Proof.
  unfold heldWeights. rewrite map_lookup_imap.
  assert (mget targets k = default 0 (targets !! k)) as -> by done.
  destruct (targets !! k); cbn; [done|]. by rewrite decide_False by lia.
Qed.

Lemma hostTargets_lookup k :
  hostTargets targets !! k = if decide (0 < mget targets k) then Some (mget targets k) else None.
Proof.
  unfold hostTargets. rewrite map_lookup_filter.
  assert (mget targets k = default 0 (targets !! k)) as -> by done. destruct (targets !! k) as [t|]; cbn.
  - unfold guard. by case_decide.
  - by rewrite decide_False by lia.
Qed.

Lemma mget_held k : mget (heldWeights targets weights) k = hw k.
Proof. unfold mget at 1. rewrite heldWeights_lookup. unfold hw. by case_decide. Qed.

Lemma mget_hosts k : 0 ≤ mget targets k → mget (hostTargets targets) k = mget targets k.
Proof. intros Hk. unfold mget at 1. rewrite hostTargets_lookup. case_decide; [done|cbn; lia]. Qed.

Lemma positive_name k : 0 < mget targets k → k ∈ names.
Proof.
  unfold names. rewrite elem_of_sorted_keys. unfold mget. destruct (targets !! k); cbn; [by eauto|lia].
Qed.

(** A map whose entries are under names sums like the names. *)
Lemma sum_names (m : gmap string Z) :
  (∀ k, is_Some (m !! k) → k ∈ names) → basis m = zsum_with (mget m) names.
Proof.
  intros Hsub. rewrite basis_sorted_keys.
  assert (names ≡ₚ sorted_keys m ++ filter (λ k, k ∉ sorted_keys m) names) as Hp.
  { apply NoDup_Permutation; [apply NoDup_sorted_keys| |].
    - apply NoDup_app. split_and!; [apply NoDup_sorted_keys| |apply NoDup_filter, NoDup_sorted_keys].
      intros k Hk. rewrite list_elem_of_filter. naive_solver.
    - intros k. rewrite elem_of_app, list_elem_of_filter. specialize (Hsub k).
      rewrite <-elem_of_sorted_keys in Hsub. destruct (decide (k ∈ sorted_keys m)); naive_solver. }
  rewrite Hp, zsum_with_app, (zsum_with_ext _ (λ _, 0) (filter _ _)), zsum_with_const; [lia|].
  intros k [Hk _]%list_elem_of_filter. rewrite elem_of_sorted_keys in Hk. unfold mget.
  by rewrite (proj2 (eq_None_not_Some _) Hk).
Qed.

Lemma held_sum : basis (heldWeights targets weights) = zsum_with hw names.
Proof.
  rewrite sum_names; [apply zsum_with_ext; intros; apply mget_held|].
  intros k. rewrite heldWeights_lookup. case_decide; [intros _; by apply positive_name|by intros [? ?]].
Qed.

(** What the loop has read once the homes of [pre] are done. *)
Record weighed (pre : list string) (s : weighing) : Prop := {
  wd_sum : wSum s = zsum_with (mget targets) pre;
  wd_sum_range : 0 ≤ wSum s ≤ MaxInt32 * Z.of_nat (length pre);
  wd_weights : weightSum s = zsum_with hw pre;
  wd_weights_range : 0 ≤ weightSum s ≤ MaxInt64;
  wd_positive : wPositive s = Z.of_nat (length (filter (λ k, 0 < mget targets k) pre));
  wd_held : ∀ k, held s !! k = if decide (k ∈ pre ∧ 0 < mget targets k) then Some (mget weights k) else None;
  wd_hosts : ∀ k, hosts s !! k = if decide (k ∈ pre ∧ 0 < mget targets k) then Some (mget targets k) else None;
}.

(** What the loop accepts of a home, after [pre]. *)
Definition home_ok (pre : list string) (name : string) : Prop :=
  name ≠ "" ∧ 0 ≤ mget targets name ∧
  (0 < mget targets name → 0 ≤ mget weights name ∧ zsum_with hw pre + mget weights name ≤ MaxInt64).

Lemma insert_seen (g : string → Z) (m : gmap string Z) pre name k :
  0 < mget targets name →
  (∀ k, m !! k = if decide (k ∈ pre ∧ 0 < mget targets k) then Some (g k) else None) →
  (<[name := g name]> m) !! k = if decide (k ∈ pre ++ [name] ∧ 0 < mget targets k) then Some (g k) else None.
Proof.
  intros Hp Hm. destruct (decide (k = name)) as [->|Hne].
  - rewrite lookup_insert_eq, decide_True; [done|]. split; [set_solver|done].
  - rewrite lookup_insert_ne, Hm by done. do 2 case_decide; set_solver.
Qed.

Lemma weighHome_step pre s name :
  weighed pre s → Z.of_nat (length pre) < homes_bound →
  match step s name with
  | Ok s' => home_ok pre name ∧ weighed (pre ++ [name]) s'
  | Err _ => ¬ home_ok pre name
  | Panic => False
  end.
Proof.
  intros W Hl. unfold weighHome, home_ok.
  pose proof (wd_sum_range _ _ W). pose proof (wd_weights_range _ _ W).
  pose proof (mget_int32 targets name (wa_targets _ _ _ _ A)) as [_ ?].
  pose proof (mget_int64 weights name (wa_weights _ _ _ _ A)).
  rewrite (i64_id (MaxInt64 - _)) by (unfold int64_range; lia).
  assert (0 ≤ wPositive s ≤ Z.of_nat (length pre)).
  { rewrite (wd_positive _ _ W). split; [lia|]. apply inj_le, length_filter. }
  unfold homes_bound in *. case_decide as Hd; [naive_solver lia|].
  rewrite (i64_id (wSum s + _)) by (unfold int64_range; lia).
  assert (∀ f : string → Z, zsum_with f (pre ++ [name]) = zsum_with f pre + f name) as Hsn
    by (intros f; rewrite zsum_with_app, zsum_with_cons, zsum_with_nil; lia).
  assert (length (pre ++ [name]) = S (length pre)) as Hlen by (rewrite length_app; cbn; lia).
  case_decide as Hz.
  { split; [naive_solver lia|]. split; cbn [wSum weightSum wPositive held hosts]; rewrite ?Hsn, ?Hlen.
    - by rewrite (wd_sum _ _ W).
    - lia.
    - unfold hw at 2. rewrite decide_False, (wd_weights _ _ W) by lia. lia.
    - done.
    - rewrite filter_app, filter_cons_False, app_nil_r by lia. apply W.
    - intros k. rewrite (wd_held _ _ W). do 2 case_decide; set_solver by lia.
    - intros k. rewrite (wd_hosts _ _ W). do 2 case_decide; set_solver by lia. }
  assert (0 < mget targets name) as Hpos by naive_solver lia.
  case_decide as Hneg; [naive_solver lia|]. rewrite <-(wd_weights _ _ W).
  case_decide as Hover; [naive_solver lia|].
  rewrite !i64_id by (unfold int64_range in *; lia).
  split; [naive_solver lia|]. split; cbn [wSum weightSum wPositive held hosts]; rewrite ?Hsn, ?Hlen.
  - by rewrite (wd_sum _ _ W).
  - lia.
  - unfold hw at 2. by rewrite decide_True, (wd_weights _ _ W) by lia.
  - lia.
  - rewrite filter_app, filter_cons_True, filter_nil, length_app, (wd_positive _ _ W) by done. cbn [length]. lia.
  - intros k. apply (insert_seen (mget weights)); [lia|apply W].
  - intros k. apply (insert_seen (mget targets)); [lia|apply W].
Qed.
Lemma weigh_start : weighed [] (mkWeighing 0 0 0 ∅ ∅).
Proof. split; cbn; try done; intros k; rewrite lookup_empty; case_decide; set_solver. Qed.

Lemma weigh_run todo pre s :
  targets_ok targets → weights_ok targets weights → names = pre ++ todo → weighed pre s →
  ∃ s', ofold step s todo = Ok s' ∧ weighed names s'.
Proof.
  intros Hok Hwo. revert pre s. induction todo as [|name todo IH]; intros pre s E W; cbn [ofold].
  { exists s. rewrite app_nil_r in E. by rewrite E. }
  assert (Z.of_nat (length names) < homes_bound) as Hlen
    by (unfold names; rewrite length_sorted_keys; apply A).
  pose proof (weighHome_step pre s name W) as Hstep.
  assert (0 ≤ zsum_with hw todo).
  { apply zsum_with_nonneg. intros k _. rewrite <-mget_held. apply mget_weight_nonneg, Hwo. }
  assert (home_ok pre name) as Hh.
  { destruct (proj1 (targets_ok_keys targets) Hok name) as [? ?]; [fold names; rewrite E; set_solver|].
    split_and!; [done|done|]. intros Hp. pose proof (wo_sum _ _ Hwo) as Hs.
    rewrite held_sum, E, zsum_with_app, zsum_with_cons in Hs. unfold hw at 2 in Hs.
    rewrite decide_True in Hs by done. split; [|lia].
    apply (wo_nonneg _ _ Hwo name). by rewrite heldWeights_lookup, decide_True. }
  destruct (step s name) as [s'| |]; [|exfalso; apply Hstep; [|done]|exfalso; apply Hstep];
    try (rewrite E, length_app in Hlen; cbn in Hlen; lia).
  cbn [obind]. destruct Hstep as [_ W']; [rewrite E, length_app in Hlen; cbn in Hlen; lia|].
  apply (IH (pre ++ [name])); [by rewrite <-app_assoc|done].
Qed.

Lemma weigh_inv s :
  ofold step (mkWeighing 0 0 0 ∅ ∅) names = Ok s → targets_ok targets ∧ weights_ok targets weights ∧ weighed names s.
Proof.
  intros E. assert (Z.of_nat (length names) < homes_bound) as Hlen
    by (unfold names; rewrite length_sorted_keys; apply A).
  assert (weighed names s ∧ ∀ k, k ∈ names → k ≠ "" ∧ 0 ≤ mget targets k ∧ 0 ≤ hw k) as [W Hk].
  { refine (ofold_Ok_ind _ (λ pre s, weighed pre s ∧ ∀ k, k ∈ pre → k ≠ "" ∧ 0 ≤ mget targets k ∧ 0 ≤ hw k) _ _ _ _ _ E).
    - split; [apply weigh_start|]. intros k Hk. by apply elem_of_nil in Hk.
    - intros pre x post b b' Hsplit [W Hpre] Hx. pose proof (weighHome_step pre b x W) as Hstep.
      rewrite Hx in Hstep. destruct Hstep as [(Hn & Ht & Hw) W'].
      { rewrite Hsplit, length_app in Hlen. cbn in Hlen. lia. }
      split; [done|]. intros k. rewrite elem_of_app, list_elem_of_singleton.
      intros [?| ->]; [auto|]. split_and!; [done|done|]. unfold hw. case_decide; [by apply Hw|lia]. }
  split_and!; [apply targets_ok_keys; intros k Hin; destruct (Hk k Hin); tauto| |done].
  split.
  - intros k w. rewrite heldWeights_lookup. case_decide as Hp; [|done]. intros [= <-].
    destruct (Hk k (positive_name k Hp)) as (_ & _ & Hw). unfold hw in Hw. by rewrite decide_True in Hw.
  - rewrite held_sum, <-(wd_weights _ _ W). apply W.
Qed.

(** What the loop leaves, in terms of the arguments. *)
Lemma weighed_all s :
  weighed names s →
  wSum s = basis targets ∧ weightSum s = basis (heldWeights targets weights) ∧ wPositive s = positives targets
  ∧ held s = heldWeights targets weights ∧ hosts s = hostTargets targets.
Proof.
  intros W. split_and!.
  - by rewrite (wd_sum _ _ W), basis_sorted_keys.
  - by rewrite held_sum, (wd_weights _ _ W).
  - apply W.
  - apply map_eq. intros k. rewrite (wd_held _ _ W), heldWeights_lookup.
    pose proof (positive_name k). do 2 case_decide; naive_solver.
  - apply map_eq. intros k. rewrite (wd_hosts _ _ W), hostTargets_lookup.
    pose proof (positive_name k). do 2 case_decide; naive_solver.
Qed.
End weighing.

(** The weights in force: the component's own where they say something, the
    targets otherwise. *)
Definition usedWeights (targets weights : gmap string Z) : gmap string Z :=
  if decide (basis (heldWeights targets weights) = 0) then hostTargets targets
  else heldWeights targets weights.

(** When a component can be divided by weights of its own. *)
Record weighable (component : string) (pm : Z) (targets : gmap string Z) (minimum : Z) (weights : gmap string Z) : Prop := {
  we_known : knownComponent component = true;
  we_primary : 0 < pm;
  we_nonneg : 0 ≤ minimum;
  we_targets : targets_ok targets;
  we_weights : weights_ok targets weights;
  we_fits : scaledTotal (basis targets) minimum pm ≤ MaxInt32;
  we_enough : 0 < scaledTotal (basis targets) minimum pm →
              positives targets ≤ scaledTotal (basis targets) minimum pm;
}.

Section weighted.
Context (component : string) (pm : Z) (targets : gmap string Z) (minimum : Z) (weights : gmap string Z).
Context (A : weighted_args pm targets minimum weights).
Let total := scaledTotal (basis targets) minimum pm.
Let used := usedWeights targets weights.

Lemma used_dom k : is_Some (used !! k) ↔ 0 < mget targets k.
Proof.
  unfold used, usedWeights. case_decide; rewrite ?heldWeights_lookup, ?hostTargets_lookup;
    case_decide; split; first [done | by eauto | by intros [? ?]].
Qed.

Lemma host_dom k : is_Some (hostTargets targets !! k) ↔ 0 < mget targets k.
Proof. rewrite hostTargets_lookup. case_decide; split; first [done | by eauto | by intros [? ?]]. Qed.

Lemma host_positives : targets_ok targets → positives (hostTargets targets) = positives targets.
Proof.
  intros Hok. unfold positives. f_equal. apply Permutation_length.
  apply NoDup_Permutation; [apply NoDup_filter, NoDup_sorted_keys..|].
  intros k. rewrite !list_elem_of_filter, !elem_of_sorted_keys, host_dom.
  pose proof (mget_weight_nonneg targets (proj2 Hok) k). rewrite (mget_hosts targets k) by done.
  pose proof (positive_name targets k) as Hp. rewrite elem_of_sorted_keys in Hp. naive_solver.
Qed.

Lemma hosts_sum : targets_ok targets → basis (hostTargets targets) = basis targets.
Proof.
  intros Hok. rewrite (sum_names targets (hostTargets targets)), (basis_sorted_keys targets).
  - apply zsum_with_ext. intros k _. apply mget_hosts, mget_weight_nonneg, Hok.
  - intros k Hk%host_dom. by apply positive_name.
Qed.

Lemma used_valid : targets_ok targets → weights_ok targets weights → weights_valid used.
Proof.
  intros Hok Hwo. pose proof (basis_bound targets (wa_targets _ _ _ _ A) Hok) as [_ Hb].
  pose proof (wa_homes _ _ _ _ A) as Hh. unfold homes_bound in Hh.
  pose proof (proj1 (targets_ok_keys targets) Hok) as Hk.
  split.
  - apply eq_None_not_Some. rewrite used_dom. intros Hp.
    destruct (Hk "" (positive_name targets "" Hp)) as [? _]. done.
  - intros k w. unfold used, usedWeights. case_decide; [|apply Hwo].
    rewrite hostTargets_lookup. case_decide; [intros [= <-]; lia|done].
  - unfold used, usedWeights. case_decide; [|apply Hwo]. rewrite hosts_sum by done. lia.
Qed.

(** Where there is something to give, some home has a weight. *)
Lemma used_positive :
  targets_ok targets → weights_ok targets weights → 0 < pm → 0 ≤ minimum → 0 < total → 0 < basis used.
Proof.
  intros Hok Hwo Hpm Hm Ht. pose proof (basis_bound targets (wa_targets _ _ _ _ A) Hok) as [Hb _].
  apply scaledTotal_pos in Ht; [|done..]. unfold used, usedWeights. case_decide as Hz.
  - rewrite hosts_sum by done. lia.
  - pose proof (basis_nonneg (heldWeights targets weights) (wo_nonneg _ _ Hwo)). lia.
Qed.

Lemma weighted_fair :
  weighable component pm targets minimum weights →
  (∃ s, largestRemainder total used = Ok s)
  ∧ FairShares total used (hostTargets targets) (divide total used (hostTargets targets)).
Proof.
  intros W. pose proof (we_targets _ _ _ _ _ W) as Hok.
  pose proof (basis_bound targets (wa_targets _ _ _ _ A) Hok) as [Hb _].
  apply divide_spec.
  - split; [apply scaledTotal_nonneg; [done|apply W..]|apply W].
  - apply used_valid; [done|apply W].
  - apply used_positive; [done|apply W..].
  - intros k. by rewrite used_dom, host_dom.
  - intros k. pose proof (mget_weight_nonneg targets (proj2 Hok) k).
    rewrite (mget_hosts targets k) by done. intros Hk. unfold mget.
    rewrite (proj2 (eq_None_not_Some _)); [done|]. rewrite used_dom. lia.
  - rewrite host_positives by done. apply W.
Qed.

(** The total, or the error in its place. *)
Lemma weighted_total :
  targets_ok targets → 0 < pm → 0 ≤ minimum →
  if decide (total ≤ MaxInt32) then ratioTotal (basis targets) minimum pm = Ok total
  else ∃ e, ratioTotal (basis targets) minimum pm = Err e.
Proof.
  intros Hok Hpm Hm. pose proof (basis_bound targets (wa_targets _ _ _ _ A) Hok).
  pose proof (wa_homes _ _ _ _ A). pose proof (wa_primary _ _ _ _ A) as [_ ?].
  pose proof (wa_minimum _ _ _ _ A) as [_ ?]. unfold homes_bound in *.
  apply ratioTotal_eq; [lia..|apply A].
Qed.

Lemma weighted_run :
  weighable component pm targets minimum weights →
  ApportionWeightedReplicaFloor component pm targets minimum weights
  = Ok (foldl (λ out k, <[k := mget (divide total used (hostTargets targets)) k]> out) ∅ (sorted_keys targets)).
Proof.
  intros W. pose proof (we_primary _ _ _ _ _ W). pose proof (we_nonneg _ _ _ _ _ W).
  unfold ApportionWeightedReplicaFloor. rewrite (we_known _ _ _ _ _ W). cbn [negb]. rewrite !decide_False by lia.
  destruct (weigh_run component pm targets minimum weights A (sorted_keys targets) [] (mkWeighing 0 0 0 ∅ ∅))
    as (s & -> & Hs); [apply W..|done|apply weigh_start|]. cbn [obind].
  apply weighed_all in Hs as (-> & -> & -> & -> & ->).
  pose proof (weighted_total (we_targets _ _ _ _ _ W) ltac:(done) ltac:(done)) as Et.
  rewrite decide_True in Et by apply W. rewrite Et. cbn [omap_err obind].
  rewrite decide_False by (pose proof (we_enough _ _ _ _ _ W); unfold total; lia).
  destruct (weighted_fair W) as [[sh Es] _]. fold (usedWeights targets weights). fold used.
  unfold divide. by rewrite Es.
Qed.

Lemma weighted_inv :
  weighable component pm targets minimum weights
  ∨ ∃ e, ApportionWeightedReplicaFloor component pm targets minimum weights = Err e.
Proof.
  unfold ApportionWeightedReplicaFloor. destruct (knownComponent component) eqn:Hk; cbn [negb]; [|by eauto].
  case_decide as Hp; [by eauto|]. case_decide as Hm; [by eauto|].
  destruct (ofold (weighHome component targets weights) (mkWeighing 0 0 0 ∅ ∅) (sorted_keys targets))
    as [s| |] eqn:Es; cbn [obind]; [|by eauto|].
  - apply (weigh_inv component pm targets minimum weights A) in Es as (Hok & Hwo & W).
    apply weighed_all in W as (-> & -> & -> & -> & ->).
    pose proof (weighted_total Hok ltac:(lia) ltac:(lia)) as Et.
    destruct (decide (total ≤ MaxInt32)) as [Hf|Hf]; [|destruct Et as [e ->]; by eauto].
    rewrite Et. cbn [omap_err obind]. case_decide as He; [by eauto|]. left.
    split; [done|lia|lia|done|done|done|]. fold total. lia.
  - exfalso. revert Es. apply ofold_no_panic. intros b x. unfold weighHome. by repeat case_decide.
Qed.
End weighted.

(** Dividing a minimum by weights of its own.  For arguments of their Go types
    the call never panics; it succeeds exactly when the component is known, the
    minimums are in range, every home has a name and a nonnegative target, the
    homes that hold the primary carry nonnegative weights that sum to an [int64],
    and the scaled total fits an [int32] and covers those homes if it is not
    zero.  The result names every home, adds up to the scaled total, and is a
    fair division of it over the homes that hold the primary, by their weights
    or, when all of those are zero, by their targets. *)
Theorem ApportionWeightedReplicaFloor_spec component pm targets minimum weights :
  weighted_args pm targets minimum weights →
  let total := scaledTotal (basis targets) minimum pm in
  ApportionWeightedReplicaFloor component pm targets minimum weights ≠ Panic
  ∧ ((∃ out, ApportionWeightedReplicaFloor component pm targets minimum weights = Ok out)
     ↔ weighable component pm targets minimum weights)
  ∧ (∀ out, ApportionWeightedReplicaFloor component pm targets minimum weights = Ok out →
       (∀ k, is_Some (out !! k) ↔ is_Some (targets !! k))
       ∧ map_zsum out = total
       ∧ ∃ shares, FairShares total (usedWeights targets weights) (hostTargets targets) shares
           ∧ ∀ k, mget out k = mget shares k).
Proof.
  intros A total.
  destruct (weighted_inv component pm targets minimum weights A) as [W|[e Ee]].
  2:{ split_and!; [by rewrite Ee|split; [intros [out E]; congruence|]|intros out E; congruence].
      intros W. pose proof (weighted_run _ _ _ _ _ A W). congruence. }
  pose proof (weighted_run _ _ _ _ _ A W) as E. destruct (weighted_fair _ _ _ _ _ A W) as [_ F].
  split_and!; [by rewrite E|by split; eauto|]. intros out Eo. rewrite E in Eo. injection Eo as <-.
  set (shares := divide _ _ _) in *. set (out := foldl _ ∅ _).
  assert (∀ k, out !! k = if decide (k ∈ sorted_keys targets) then Some (mget shares k) else None) as Hout
    by (intros k; unfold out; by rewrite (foldl_insert_lookup (mget shares))).
  assert (∀ k, is_Some (shares !! k) → k ∈ sorted_keys targets) as Hin.
  { intros k Hk. rewrite (fs_dom _ _ _ _ F) in Hk. apply used_dom in Hk. by apply positive_name. }
  assert (∀ k, mget out k = mget shares k) as Hget.
  { intros k. unfold mget at 1. rewrite Hout. case_decide as Hk; [done|]. unfold mget.
    rewrite (proj2 (eq_None_not_Some (shares !! k))); [done|]. intros Hs. by apply Hk, Hin. }
  assert (∀ k, is_Some (out !! k) ↔ k ∈ sorted_keys targets) as Hdom.
  { intros k. rewrite Hout. case_decide; split; first [done | by eauto | by intros [? ?]]. }
  split_and!; [intros k; by rewrite Hdom, elem_of_sorted_keys| |by eauto].
  transitivity (map_zsum shares); [|apply F]. fold (basis out) (basis shares).
  rewrite (sum_names targets out), (sum_names targets shares) by naive_solver.
  apply zsum_with_ext. intros k _. apply Hget.
Qed.

Lemma ApportionWeightedReplicaFloor_spec_witness :
  weighable DecoderComponent 4 (list_to_map [("a", 2); ("b", 2); ("c", 0)]) 3 (list_to_map [("b", 7); ("c", 9)]).
Proof.
  apply (ApportionWeightedReplicaFloor_spec DecoderComponent 4 (list_to_map [("a", 2); ("b", 2); ("c", 0)]) 3
    (list_to_map [("b", 7); ("c", 9)])).
  - split; [done|by_entries|done|by_entries|by vm_compute|].
    apply (few_homes_round 3); [lia|by vm_compute|lia|lia].
  - eexists. vm_compute. reflexivity.
Defined.

(** ** One capacity unit *)

(** Two rounds of the loop at least halve the second number. *)
Lemma gcdLoop_spec n a b :
  0 ≤ b < 2 ^ Z.of_nat n → 0 ≤ a → gcdLoop (S (2 * n)) a b = Some (Z.gcd a b).
Proof.
  revert a b. induction n as [|n IH]; intros a b Hb Ha.
  { assert (b = 0) as -> by lia. cbn. rewrite Z.gcd_0_r, Z.abs_eq by done. done. }
  replace (S (2 * S n)) with (S (S (S (2 * n)))) by lia.
  cbn [gcdLoop]. case_decide as H0; [rewrite H0, Z.gcd_0_r, Z.abs_eq by done; done|].
  rewrite Z.rem_mod_nonneg by lia. pose proof (Z.mod_pos_bound a b ltac:(lia)) as Hr.
  assert (Z.gcd a b = Z.gcd b (a mod b)) as -> by (rewrite Z.gcd_comm, <-Z.gcd_mod, Z.gcd_comm by lia; done).
  case_decide as H1; [by rewrite H1, Z.gcd_0_r, Z.abs_eq by lia|].
  rewrite Z.rem_mod_nonneg by lia. set (r := a mod b) in *.
  pose proof (Z.mod_pos_bound b r ltac:(lia)).
  assert (Z.gcd b r = Z.gcd r (b mod r)) as -> by (rewrite Z.gcd_comm, <-Z.gcd_mod, Z.gcd_comm by lia; done).
  apply IH; [|lia]. split; [lia|].
  assert (2 * (b mod r) < b).
  { pose proof (Z.div_mod b r ltac:(lia)). assert (1 ≤ b / r) by (apply Z.div_le_lower_bound; lia). nia. }
  rewrite Nat2Z.inj_succ, Z.pow_succ_r in Hb by lia. lia.
Qed.

Lemma gcd_spec a b : 0 ≤ a → 0 ≤ b ≤ MaxInt64 → gcd a b = Some (Z.gcd a b).
Proof.
  intros Ha Hb. unfold gcd. change 127%nat with (S (2 * 63)). apply gcdLoop_spec; lia.
Qed.

(** The divisor is the greatest common one of the positive minimums. *)
Lemma unitDivisor_spec minimums :
  (∀ c m, minimums !! c = Some m → int32_range m) →
  ∃ d, unitDivisor minimums = Some d ∧ 0 ≤ d
    ∧ (∀ c, 0 < mget minimums c → (d | mget minimums c))
    ∧ (∀ x, (∀ c, 0 < mget minimums c → (x | mget minimums c)) → (x | d)).
Proof.
  intros Hr. unfold unitDivisor.
  assert (∀ c, 0 < mget minimums c → c ∈ sorted_keys minimums) as Hin by apply positive_name.
  enough (∃ d, foldl (λ divisor name, if decide (0 < mget minimums name)
      then divisor ≫= λ d, gcd d (mget minimums name) else divisor) (Some 0) (sorted_keys minimums) = Some d ∧ 0 ≤ d
    ∧ (∀ c, c ∈ sorted_keys minimums → 0 < mget minimums c → (d | mget minimums c))
    ∧ (∀ x, (∀ c, c ∈ sorted_keys minimums → 0 < mget minimums c → (x | mget minimums c)) → (x | d)))
    as (d & E & Hd & H1 & H2) by (exists d; naive_solver).
  apply (foldl_ind _ (λ pre o, ∃ d, o = Some d ∧ 0 ≤ d
    ∧ (∀ c, c ∈ pre → 0 < mget minimums c → (d | mget minimums c))
    ∧ (∀ x, (∀ c, c ∈ pre → 0 < mget minimums c → (x | mget minimums c)) → (x | d)))).
  { exists 0. split_and!; [done|done| |].
    - intros c Hc. by apply elem_of_nil in Hc.
    - intros x _. apply Z.divide_0_r. }
  intros pre x post o _ (d & -> & Hd & H1 & H2). setoid_rewrite elem_of_app. setoid_rewrite list_elem_of_singleton.
  pose proof (mget_int32 minimums x Hr) as [_ Hx]. case_decide as Hp.
  - cbn [mbind option_bind]. rewrite gcd_spec by lia. eexists. split_and!; [done|apply Z.gcd_nonneg| |].
    + intros c [Hc| ->] Hc0; [|apply Z.gcd_divide_r]. etrans; [apply Z.gcd_divide_l|auto].
    + intros y Hy. apply Z.gcd_greatest; [apply H2; auto|apply Hy; auto].
  - exists d. split_and!; [done|done| |].
    + intros c [Hc| ->] Hc0; [auto|lia].
    + intros y Hy. apply H2. auto.
Qed.

(** The unit ratio always comes back: the positive minimums divided by one
    positive number, with no further common divisor, and zero elsewhere. *)
Theorem ReplicaUnitRatio_spec minimums :
  (∀ c m, minimums !! c = Some m → int32_range m) →
  ∃ out, ReplicaUnitRatio minimums = Some out
    ∧ (∀ c, is_Some (out !! c) ↔ is_Some (minimums !! c))
    ∧ (∀ c, mget minimums c ≤ 0 → mget out c = 0)
    ∧ ((∃ c, 0 < mget minimums c) →
       (∃ d, 0 < d ∧ ∀ c, 0 < mget minimums c → mget minimums c = d * mget out c)
       ∧ ∀ x, 0 < x → (∀ c, 0 < mget minimums c → (x | mget out c)) → x = 1).
Proof.
  intros Hr. destruct (unitDivisor_spec minimums Hr) as (d & E & Hd & H1 & H2).
  unfold ReplicaUnitRatio. rewrite E. eexists. split; [reflexivity|]. set (out := _ <$> minimums).
  assert (∀ c, mget out c = if decide (0 < mget minimums c) then Z.quot (mget minimums c) d else 0) as Hget.
  { intros c. assert (mget minimums c = default 0 (minimums !! c)) as -> by done.
    unfold mget, out. rewrite lookup_fmap. destruct (minimums !! c); cbn; [done|]. by rewrite decide_False by lia. }
  split_and!.
  - intros c. unfold out. by rewrite lookup_fmap, fmap_is_Some.
  - intros c Hc. by rewrite Hget, decide_False by lia.
  - intros [c0 Hc0]. assert (0 < d) as Hdp.
    { destruct (H1 c0 Hc0) as [q Hq]. destruct (decide (d = 0)) as [->|]; lia. }
    assert (∀ c, 0 < mget minimums c → mget minimums c = d * mget out c) as Hmul.
    { intros c Hc. rewrite Hget, decide_True by done. destruct (H1 c Hc) as [q ->].
      rewrite Z.quot_mul by lia. lia. }
    split; [by exists d|]. intros x Hx Hdiv.
    destruct (H2 (d * x)) as [q Hq].
    { intros c Hc. rewrite (Hmul c Hc). by apply Z.mul_divide_mono_l, Hdiv. }
    assert (1 = q * x) as H1x by (apply (Z.mul_reg_l _ _ d); lia).
    assert (1 ≤ q) by nia. nia.
Qed.
