(* ===== verification/Policy.v ===== *)
(** * Placement authority

    [pkg/placement/protocol/policy.go] and [backend.go]: the execution policy a
    source stamps on a member's copy of a service, its validation, its wire
    format, and the rule by which one policy may replace another.

    A policy travels as JSON.  [encoding/json] works by reflection on the struct
    tags; what it makes of a text is the class [PolicyJSON], and [PolicyJSONLaws]
    is what the package documents of it: a struct is written as an object with
    its fields, and reading what was written gives the value back, for strings
    that are valid text. *)

From Stdlib Require Import Ascii.
From S2P Require Import Prelude Floors FloorsClaims.
Local Open Scope Z_scope.

(** [PlacementComponentDemand], [PlacementDemandContract] and
    [PlacementExecutionPolicy]; a nil slice and an empty one are the same list,
    as they are to every reader here and to semantic equality. *)
Record PlacementComponentDemand := mkComponentDemand { DComponent : string; RenderingHash : string }.
Record PlacementDemandContract := mkDemand {
  Fingerprint : string; Components : list PlacementComponentDemand;
}.
Record PlacementExecutionPolicy := mkPolicy {
  PlanID : string; Revision : Z; SourceUID : string; ClusterUID : string; PauseSurge : bool;
  Demand : option PlacementDemandContract; ReplicaFloors : list PlacementComponentFloor;
}.
#[export] Instance component_demand_eq_dec : EqDecision PlacementComponentDemand.
Proof. solve_decision. Defined.
#[export] Instance demand_eq_dec : EqDecision PlacementDemandContract.
Proof. solve_decision. Defined.
#[export] Instance policy_eq_dec : EqDecision PlacementExecutionPolicy.
Proof. solve_decision. Defined.

(** [InferenceService], the fields the package reads. *)
Record Service := mkService {
  Labels : gmap string string; Annotations : gmap string string;
  HasEngine : bool; HasDecoder : bool;
}.

Definition PlacementOrigin := "ome.io/placement-origin".
Definition PlacementOriginUID := "ome.io/placement-origin-uid".
Definition PlacementExecution := "ome.io/placement-execution".

Inductive policy_error :=
| ErrPolicyIncomplete
| ErrPolicyFloors (cause : floors_error)
| ErrDemandIncomplete
| ErrDemandComponent (component : string)
| ErrDemandNoService
| ErrDemandUndeclared (component : string)
| ErrDemandMissing (component : string)
| ErrPolicyJSON
| ErrPolicyVersion (version : Z)
| ErrPolicyFloorsVersion
| ErrPolicyDemandVersion
| ErrPolicyUnversioned
| ErrPolicyDecode (cause : policy_error)
| ErrPolicyForeign
| ErrIdentityChanged
| ErrRevisionStale
| ErrNoNativeEngine
| ErrNotNative (component mode : string).

Definition executionVersion : Z := 1.
Definition demandVersion : Z := 2.
Definition floorsVersion : Z := 3.

Record executionEnvelope := mkEnvelope { Version : Z; EPolicy : option PlacementExecutionPolicy }.

(** ** Hashes *)

(** One hexadecimal digit of [encoding/hex]. *)
Definition hexDigit (c : ascii) : option Z :=
  let n := Z.of_nat (nat_of_ascii c) in
  if decide (48 ≤ n ≤ 57) then Some (n - 48)
  else if decide (97 ≤ n ≤ 102) then Some (n - 87)
  else if decide (65 ≤ n ≤ 70) then Some (n - 55)
  else None.

(** [hex.DecodeString]: pairs of digits, an error for an odd length. *)
Fixpoint hexDecode (s : string) : option (list Z) :=
  match s with
  | EmptyString => Some []
  | String a (String b s) =>
      x ← hexDigit a; y ← hexDigit b; rest ← hexDecode s; Some (16 * x + y :: rest)
  | String _ EmptyString => None
  end.

(** [strings.ToLower] on a string of ASCII characters, which a decoded one is. *)
Definition lowerAscii (c : ascii) : ascii :=
  let n := nat_of_ascii c in if decide (65 ≤ n ≤ 90)%nat then ascii_of_nat (n + 32) else c.
Fixpoint toLower (s : string) : string :=
  match s with EmptyString => EmptyString | String c s => String (lowerAscii c) (toLower s) end.

Definition validHash (value : string) : bool :=
  match hexDecode value with
  | Some decoded => bool_decide (length decoded = 32%nat) && bool_decide (value = toLower value)
  | None => false
  end.

(** ** Validation *)

Definition checkDemandComponent (seen : gset string) (component : PlacementComponentDemand)
    : outcome policy_error (gset string) :=
  if (negb (bool_decide (DComponent component = EngineComponent)) && negb (bool_decide (DComponent component = DecoderComponent)))
     || bool_decide (DComponent component ∈ seen) || negb (validHash (RenderingHash component))
  then Err (ErrDemandComponent (DComponent component))
  else Ok ({[DComponent component]} ∪ seen).

Definition ValidateDemand (demand : option PlacementDemandContract) : outcome policy_error unit :=
  (match demand with
   | None => Err ErrDemandIncomplete
   | Some d =>
       if negb (validHash (Fingerprint d)) || bool_decide (Components d = []) then Err ErrDemandIncomplete
       else let? _ := ofold checkDemandComponent ∅ (Components d) in Ok tt
   end)%go.

Definition Validate (policy : option PlacementExecutionPolicy) : outcome policy_error unit :=
  (match policy with
   | None => Err ErrPolicyIncomplete
   | Some p =>
       if decide (PlanID p = "" ∨ Revision p ≤ 0 ∨ SourceUID p = "" ∨ ClusterUID p = "") then Err ErrPolicyIncomplete
       else
         let? _ := match Demand p with Some d => ValidateDemand (Some d) | None => Ok tt end in
         if decide (ReplicaFloors p = []) then Ok tt
         else if PauseSurge p
         then let? _ := omap_err ErrPolicyFloors (ValidatePositiveReplicaFloors (ReplicaFloors p)) in Ok tt
         else let? _ := omap_err ErrPolicyFloors (ValidateReplicaFloors (ReplicaFloors p)) in Ok tt
   end)%go.

(** [HasZeroReplicaFloor]: the first floor of the component decides. *)
Definition HasZeroReplicaFloor (policy : option PlacementExecutionPolicy) (component : string) : bool :=
  match policy with
  | None => false
  | Some p =>
      is_ok (Validate (Some p)) &&
      match list_find (λ floor, Component floor = component) (ReplicaFloors p) with
      | Some (_, floor) => bool_decide (Replicas floor = 0)
      | None => false
      end
  end.

(** [ValidateDemandComponents]: a component that is named is taken off the
    declared ones; a declared one that is left is missing. *)
Definition takeDeclared (declared : gmap string bool) (component : PlacementComponentDemand)
    : outcome policy_error (gmap string bool) :=
  if default false (declared !! DComponent component)
  then Ok (delete (DComponent component) declared)
  else Err (ErrDemandUndeclared (DComponent component)).

Definition ValidateDemandComponents (service : option Service) (demand : option PlacementDemandContract)
    : outcome policy_error unit :=
  (let? _ := ValidateDemand demand in
   match service, demand with
   | Some service, Some d =>
       let declared : gmap string bool :=
         <[EngineComponent := HasEngine service]> {[ DecoderComponent := HasDecoder service ]} in
       let? declared := ofold takeDeclared declared (Components d) in
       ofold (λ _ component, if default false (declared !! component)
                             then Err (ErrDemandMissing component) else Ok tt) tt (sorted_keys declared)
   | _, _ => Err ErrDemandNoService
   end)%go.

(** ** The wire format *)

Class PolicyJSON := {
  (** The keys of the object a text holds; [None] if it holds no object. *)
  json_fields : string → option (gset string);
  (** A text read into a struct, unknown fields refused. *)
  json_envelope : string → option executionEnvelope;
  json_policy : string → option PlacementExecutionPolicy;
  json_marshal : executionEnvelope → option string;
}.

Section wire.
Context `{!PolicyJSON}.

Definition Decode (raw : string) : outcome policy_error (option PlacementExecutionPolicy) :=
  match json_fields raw with
  | None => Err ErrPolicyJSON
  | Some fields =>
      if bool_decide ("version" ∈ fields) || bool_decide ("policy" ∈ fields) then
        match json_envelope raw with
        | None => Err ErrPolicyJSON
        | Some envelope =>
            let v := Version envelope in
            if decide (v ≠ executionVersion ∧ v ≠ demandVersion ∧ v ≠ floorsVersion) then Err (ErrPolicyVersion v)
            else
              let hasDemand := match EPolicy envelope with Some p => bool_decide (is_Some (Demand p)) | None => false end in
              let hasFloors := match EPolicy envelope with Some p => bool_decide (ReplicaFloors p ≠ []) | None => false end in
              if negb (eqb (bool_decide (v = floorsVersion)) hasFloors) then Err ErrPolicyFloorsVersion
              else if negb (bool_decide (v = floorsVersion)) && negb (eqb (bool_decide (v = demandVersion)) hasDemand)
              then Err ErrPolicyDemandVersion
              else Ok (EPolicy envelope)
        end
      else
        match json_policy raw with
        | None => Err ErrPolicyJSON
        | Some p => if decide (is_Some (Demand p) ∨ ReplicaFloors p ≠ []) then Err ErrPolicyUnversioned else Ok (Some p)
        end
  end.

Definition versionOf (p : PlacementExecutionPolicy) : Z :=
  let version := executionVersion in
  let version := if decide (is_Some (Demand p)) then demandVersion else version in
  if decide (ReplicaFloors p ≠ []) then floorsVersion else version.

Definition Encode (policy : option PlacementExecutionPolicy) : outcome policy_error string :=
  (let? _ := Validate policy in
   match policy with
   | None => Panic
   | Some p => match json_marshal (mkEnvelope (versionOf p) policy) with Some raw => Ok raw | None => Err ErrPolicyJSON end
   end)%go.

(** [FromDerived]; [Ok None] is the nil policy of a service that is no member. *)
Definition originOf (service : Service) : string :=
  let origin := default "" (Annotations service !! PlacementOriginUID) in
  if decide (origin = "") then default "" (Labels service !! PlacementOrigin) else origin.

Definition FromDerived (service : option Service) : outcome policy_error (option PlacementExecutionPolicy) :=
  (match service with
   | None => Ok None
   | Some s =>
       if decide (originOf s = "") then Ok None
       else
         match Annotations s !! PlacementExecution with
         | None => Ok None
         | Some raw =>
             let? policy := omap_err ErrPolicyDecode (Decode raw) in
             let? _ := Validate policy in
             match policy with
             | None => Panic
             | Some p =>
                 if decide (SourceUID p ≠ originOf s) then Err ErrPolicyForeign
                 else
                   let? _ := match Demand p with
                             | Some d => ValidateDemandComponents (Some s) (Some d)
                             | None => Ok tt
                             end in
                   Ok (Some p)
             end
         end
   end)%go.
End wire.

(** [IsMember]. *)
Definition IsMember (service : option Service) : bool :=
  match service with
  | None => false
  | Some s => bool_decide (default "" (Annotations s !! PlacementOriginUID) ≠ "")
              || bool_decide (default "" (Labels s !! PlacementOrigin) ≠ "")
  end.

Definition OMENative := "OMENative".

Definition ValidateNativeModes (modes : gmap string string) : outcome policy_error unit :=
  if decide (is_Some (modes !! EngineComponent)) then
    ofold (λ _ component,
             let mode := default "" (modes !! component) in
             if decide (mode ≠ OMENative) then Err (ErrNotNative component mode) else Ok tt)
          tt (sorted_keys modes)
  else Err ErrNoNativeEngine.

(** ** Replacing a policy *)

Definition Authorize (current next : option PlacementExecutionPolicy) : outcome policy_error unit :=
  (match current, next with
   | None, None => Ok tt
   | _, _ =>
       let? _ := Validate next in
       match current, next with
       | Some c, Some n =>
           let? _ := Validate current in
           if decide (SourceUID c ≠ SourceUID n ∨ ClusterUID c ≠ ClusterUID n) then Err ErrIdentityChanged
           else if decide (Revision n < Revision c ∨ (Revision n = Revision c ∧ n ≠ c)) then Err ErrRevisionStale
           else Ok tt
       | _, _ => Ok tt
       end
   end)%go.
