(* ===== verification/PolicyClaims.v ===== *)
(** * Placement authority: the properties

    What a member reads back of the policy its source stamped, and what every
    history of authorized replacements preserves. *)

From Stdlib Require Import Ascii.
From stdpp Require Import countable relations.
From S2P Require Import Prelude Floors FloorsClaims Policy.
Local Open Scope Z_scope.

(** ** Replacing a policy *)

Definition valid (p : PlacementExecutionPolicy) : Prop := Validate (Some p) = Ok tt.

(** [n] may stand where [c] stood. *)
Record supersedes (c n : PlacementExecutionPolicy) : Prop := {
  su_source : SourceUID n = SourceUID c;
  su_cluster : ClusterUID n = ClusterUID c;
  su_revision : Revision c < Revision n ∨ n = c;
}.

#[export] Instance supersedes_preorder : PreOrder supersedes.
Proof.
  split.
  - intros p. split; auto.
  - intros a b c [? ? Hab] [? ? Hbc]. split; [congruence..|].
    destruct Hab, Hbc; subst; auto. left. lia.
Qed.

Lemma Authorize_replaces c n :
  Authorize (Some c) (Some n) = Ok tt ↔ valid c ∧ valid n ∧ supersedes c n.
Proof.
  unfold Authorize, valid. destruct (Validate (Some n)) as [[]| |]; cbn [obind]; [|naive_solver..].
  destruct (Validate (Some c)) as [[]| |]; cbn [obind]; [|naive_solver..].
  case_decide as Hid; [split; [done|]; intros (_ & _ & [? ? _]); naive_solver|].
  case_decide as Hrev.
  - split; [done|]. intros (_ & _ & [_ _ [?|?]]); naive_solver lia.
  - split; [|done]. intros _. split_and!; [done|done|]. split.
    + destruct (decide (SourceUID c = SourceUID n)); naive_solver.
    + destruct (decide (ClusterUID c = ClusterUID n)); naive_solver.
    + destruct (decide (n = c)); [by right|left].
      destruct (decide (Revision n = Revision c)); [naive_solver|].
      destruct (decide (Revision n < Revision c)); [naive_solver|lia].
Qed.

Lemma Authorize_first n : Authorize None (Some n) = Ok tt ↔ valid n.
Proof. unfold Authorize, valid. destruct (Validate (Some n)) as [[]| |]; naive_solver. Qed.

Lemma Authorize_drop c : Authorize (Some c) None ≠ Ok tt.
Proof. done. Qed.

(** One guarded write: the policy in place is replaced by an authorized one. *)
Inductive write : relation (option PlacementExecutionPolicy) :=
| write_authorized current next : Authorize current next = Ok tt → write current next.

(** C8: authority over a member only moves forward.  From a valid policy, every
    history of authorized writes leads to a policy, never to none; it is valid,
    belongs to the same source and cluster, and has a later revision unless it is
    the very same policy.  So no stale policy comes back, one revision never
    stands for two policies, and the last write could have been made directly:
    authorization composes.  A member without a policy accepts exactly the valid
    ones. *)
Theorem authority_moves_forward p st :
  valid p → rtc write (Some p) st →
  ∃ q, st = Some q ∧ valid q ∧ supersedes p q ∧ Authorize (Some p) (Some q) = Ok tt
    ∧ (∀ n, Revision n < Revision q → Authorize (Some q) (Some n) ≠ Ok tt)
    ∧ (∀ n, Authorize None (Some n) = Ok tt ↔ valid n).
Proof.
  intros Hp Hr.
  assert (∃ q, st = Some q ∧ valid q ∧ supersedes p q) as (q & -> & Hq & Hs).
  { remember (Some p) as st0 eqn:E. revert p E Hp. induction Hr as [st|st st' st'' Hw Hr IH]; intros p -> Hp.
    - exists p. done.
    - inversion Hw as [current next Ha]; subst. destruct st' as [n|]; [|by apply Authorize_drop in Ha].
      apply Authorize_replaces in Ha as (_ & Hn & Hs).
      destruct (IH n eq_refl Hn) as (q & Hst & Hq & Hnq). exists q. split_and!; [done|done|by etrans]. }
  exists q. split_and!; [done|done|done| | |apply Authorize_first].
  - by apply Authorize_replaces.
  - intros n Hn (_ & _ & [_ _ Hrev])%Authorize_replaces. destruct Hrev as [?|E]; [lia|subst; lia].
Qed.

Definition firstPolicy : PlacementExecutionPolicy :=
  mkPolicy "plan" 1 "source" "cluster" true None [mkFloor EngineComponent 2; mkFloor RouterComponent 1].
Definition secondPolicy : PlacementExecutionPolicy :=
  mkPolicy "plan" 2 "source" "cluster" false None [mkFloor EngineComponent 0].

Lemma authority_moves_forward_witness :
  Authorize (Some secondPolicy) (Some firstPolicy) ≠ Ok tt.
Proof.
  destruct (authority_moves_forward firstPolicy (Some secondPolicy)) as (q & [= <-] & _ & _ & _ & Hn & _).
  - vm_compute. reflexivity.
  - apply rtc_once, write_authorized. vm_compute. reflexivity.
  - apply Hn. by vm_compute.
Defined.

(** ** The wire *)

(** What the JSON package documents: the object written for an envelope has the
    envelope's two fields, and reading it gives the envelope back as long as its
    strings are valid text, which [textual] says. *)
Class PolicyJSONLaws `{!PolicyJSON} (textual : PlacementExecutionPolicy → Prop) : Prop := {
  json_marshals v p : textual p → is_Some (json_marshal (mkEnvelope v (Some p)));
  json_object e raw : json_marshal e = Some raw → json_fields raw = Some {["version"; "policy"]};
  json_reads v p raw : textual p → json_marshal (mkEnvelope v (Some p)) = Some raw →
    json_envelope raw = Some (mkEnvelope v (Some p));
}.

(** The service with the policy's annotation, as the source writes it. *)
Definition stamp (service : Service) (raw : string) : Service :=
  mkService (Labels service) (<[PlacementExecution := raw]> (Annotations service))
    (HasEngine service) (HasDecoder service).

Section wire.
Context `{!PolicyJSON} {textual : PlacementExecutionPolicy → Prop} `{!PolicyJSONLaws textual}.

(** The version an envelope is written with is the one its reader wants. *)
Lemma Encode_Decode p :
  valid p → textual p → ∃ raw, Encode (Some p) = Ok raw ∧ Decode raw = Ok (Some p).
Proof.
  intros Hv Ht. unfold Encode. rewrite Hv. cbn [obind].
  destruct (json_marshals (versionOf p) p Ht) as [raw E]. rewrite E. exists raw. split; [done|].
  unfold Decode. rewrite (json_object _ _ E), (json_reads _ _ _ Ht E).
  rewrite bool_decide_true by set_solver. cbn [orb Version EPolicy].
  unfold versionOf, executionVersion, demandVersion, floorsVersion.
  destruct (decide (ReplicaFloors p ≠ [])) as [Hf|Hf].
  - rewrite decide_False by lia. rewrite (bool_decide_true (ReplicaFloors p ≠ [])) by done. done.
  - rewrite (bool_decide_false (ReplicaFloors p ≠ [])) by done.
    destruct (decide (is_Some (Demand p))) as [Hd|Hd].
    + rewrite decide_False by lia. by rewrite (bool_decide_true (is_Some (Demand p))).
    + rewrite decide_False by lia. by rewrite (bool_decide_false (is_Some (Demand p))).
Qed.

Lemma originOf_stamp service raw : originOf (stamp service raw) = originOf service.
Proof. unfold originOf, stamp. cbn. by rewrite lookup_insert_ne. Qed.
End wire.

(** C15: what the source stamps is what the member obeys.  A valid policy can be
    encoded, and a service of that source stamped with it is read back as exactly
    that policy, provided the demand names the service's declared components; a
    service without an origin obeys no annotation at all; and a policy of another
    source is refused. *)
Theorem stamped_policy_obeyed `{!PolicyJSON} (textual : PlacementExecutionPolicy → Prop)
    `{!PolicyJSONLaws textual} (p : PlacementExecutionPolicy) (service : Service) :
  valid p → textual p →
  ∃ raw, Encode (Some p) = Ok raw
    ∧ (originOf service = SourceUID p →
       (∀ d, Demand p = Some d → ValidateDemandComponents (Some service) (Some d) = Ok tt) →
       FromDerived (Some (stamp service raw)) = Ok (Some p))
    ∧ (originOf service = "" → FromDerived (Some (stamp service raw)) = Ok None)
    ∧ (originOf service ≠ "" → originOf service ≠ SourceUID p →
       FromDerived (Some (stamp service raw)) = Err ErrPolicyForeign).
Proof.
  intros Hv Ht. destruct (Encode_Decode p Hv Ht) as (raw & E & D). exists raw. split; [done|].
  unfold FromDerived. rewrite originOf_stamp. cbn [stamp Annotations]. rewrite lookup_insert_eq, D.
  cbn [omap_err obind]. rewrite Hv. cbn [obind].
  assert (SourceUID p ≠ "") as Hs.
  { intros Hs. unfold valid, Validate in Hv. by rewrite decide_True in Hv by auto. }
  split_and!.
  - intros -> Hd. rewrite !decide_False by naive_solver.
    destruct (Demand p) as [d|]; [|done].
    assert (ValidateDemandComponents (Some (stamp service raw)) (Some d) = Ok tt) as -> by (by apply Hd).
    done.
  - intros ->. by rewrite decide_True.
  - intros Hne Hf. by rewrite decide_False, decide_True by congruence.
Qed.

(** A wire that can be computed with: an envelope as the digits of its number. *)
#[export] Instance floor_countable : Countable PlacementComponentFloor.
Proof. refine (inj_countable' (λ f, (Component f, Replicas f)) (λ '(c, r), mkFloor c r) _). by intros []. Defined.
#[export] Instance component_demand_countable : Countable PlacementComponentDemand.
Proof. refine (inj_countable' (λ d, (DComponent d, RenderingHash d)) (λ '(c, h), mkComponentDemand c h) _). by intros []. Defined.
#[export] Instance demand_countable : Countable PlacementDemandContract.
Proof. refine (inj_countable' (λ d, (Fingerprint d, Components d)) (λ '(f, cs), mkDemand f cs) _). by intros []. Defined.
#[export] Instance policy_countable : Countable PlacementExecutionPolicy.
Proof.
  refine (inj_countable'
    (λ p, (PlanID p, Revision p, SourceUID p, ClusterUID p, PauseSurge p, Demand p, ReplicaFloors p))
    (λ '(a, b, c, d, e, f, g), mkPolicy a b c d e f g) _). by intros [].
Defined.

Fixpoint digits (p : positive) : string :=
  match p with xH => EmptyString | xO p => String "0" (digits p) | xI p => String "1" (digits p) end.
Fixpoint undigits (s : string) : option positive :=
  match s with
  | EmptyString => Some xH
  | String c s => (if decide (c = "1"%char) then xI else xO) <$> undigits s
  end.

Lemma undigits_digits p : undigits (digits p) = Some p.
Proof. induction p as [p IH|p IH|]; cbn; [by rewrite IH..|done]. Qed.

Definition digitEnvelope (raw : string) : option executionEnvelope :=
  p ← undigits raw; '(v, q) ← decode p; Some (mkEnvelope v q).

#[export] Instance digitJSON : PolicyJSON := {
  json_fields raw := (λ _, {["version"; "policy"]}) <$> digitEnvelope raw;
  json_envelope := digitEnvelope;
  json_policy _ := None;
  json_marshal e := Some (digits (encode (Version e, EPolicy e)));
}.

Lemma digitEnvelope_reads e : digitEnvelope (digits (encode (Version e, EPolicy e))) = Some e.
Proof. unfold digitEnvelope. rewrite undigits_digits. cbn. rewrite decode_encode. by destruct e. Qed.

#[export] Instance digitJSONLaws : PolicyJSONLaws (λ _, True).
Proof.
  split.
  - intros v p _. by eexists.
  - intros e raw [= <-]. cbn. by rewrite digitEnvelope_reads.
  - intros v p raw _ [= <-]. exact (digitEnvelope_reads (mkEnvelope v (Some p))).
Qed.

Definition memberService : Service :=
  mkService ∅ {[ PlacementOriginUID := "source" ]} true false.

Lemma stamped_policy_obeyed_witness :
  ∃ raw, Encode (Some firstPolicy) = Ok raw
    ∧ FromDerived (Some (stamp memberService raw)) = Ok (Some firstPolicy).
Proof.
  destruct (stamped_policy_obeyed (λ _, True) firstPolicy memberService) as (raw & E & H & _);
    [vm_compute; reflexivity|exact I|].
  exists raw. split; [exact E|]. apply H; [vm_compute; reflexivity|]. intros d Hd. discriminate Hd.
Defined.
