(* ===== verification/RoutingWeights.v ===== *)
(** * Traffic weights

    [pkg/controller/v1beta1/placement/routing/weight.go]: the weights a gateway
    consumes, computed from what every cluster can serve.  A [*big.Rat] is a
    canonical rational, whose numerator and denominator are in lowest terms as
    the package keeps them; a [*big.Int] is an integer.  Replica counts are
    [int32] and are only compared. *)

From S2P Require Import Prelude Quantity.
Local Open Scope Z_scope.

Definition maxTrafficMapWeight : Z := 1000000.

Definition RoutingCapacityModeCeiling := "Ceiling".
Definition RoutingCapacityModeReported := "Reported".
Definition AllFailedPolicyPreserveTraffic := "PreserveTraffic".
Definition AllFailedPolicyDrain := "Drain".

(** [Rat.SetFrac], [Rat.Num] and [Rat.Denom]. *)
Definition SetFrac (a b : Z) : Qc := (Qc_of_Z a / Qc_of_Z b)%Qc.
Definition Num (v : Qc) : Z := Qnum (this v).
Definition Denom (v : Qc) : Z := Zpos (Qden (this v)).

Section model.
Context {Q : Type} `{QuantityOps Q}.

Record ClusterCapacity := mkClusterCapacity {
  Mode : string; ReportedWeight : option Q; Cluster : string;
  Allocated : Z; Ready : Z; Factor : option Q;
  Reported : option Z; Reachable : option bool;
}.

Definition EffectiveAllocated (h : ClusterCapacity) : Z :=
  match Reported h with
  | None => Allocated h
  | Some r => if decide (Allocated h ≤ r) then Allocated h
              else if decide (r < 0) then Allocated h else r
  end.

Definition RoutableReplicas (h : ClusterCapacity) : Z :=
  let allocated := EffectiveAllocated h in
  if decide (Ready h < 0) then 0
  else if decide (Ready h < allocated) then Ready h else allocated.

Definition usesReportedWeight (h : ClusterCapacity) : bool :=
  bool_decide (Mode h = RoutingCapacityModeReported) && bool_decide (is_Some (ReportedWeight h)).

(** [powerOfTen]; the exponents are never negative. *)
Definition powerOfTen (exponent : Z) : Z := 10 ^ exponent.

Definition quantityRatio (q : Q) : Qc :=
  let scale := q_Scale q in
  if decide (scale < 0) then Qc_of_Z (q_Unscaled q * powerOfTen (- scale))
  else SetFrac (q_Unscaled q) (powerOfTen scale).

Definition ceilPositiveQuotient (numerator denominator : Z) : Z :=
  let quotient := Z.quot numerator denominator in
  if decide (0 < Z.rem numerator denominator) then quotient + 1 else quotient.

Definition factorMilli (q : option Q) : Z :=
  match q with
  | None => 1000
  | Some q =>
      if decide (q_Sign q ≤ 0) then 1000
      else
        let milliExponent := 3 - q_Scale q in
        if decide (0 ≤ milliExponent) then q_Unscaled q * powerOfTen milliExponent
        else ceilPositiveQuotient (q_Unscaled q) (powerOfTen (- milliExponent))
  end.

(** [capacityValue]; [usesReportedWeight] says the weight is there. *)
Definition capacityValue (h : ClusterCapacity) : Qc :=
  match usesReportedWeight h, ReportedWeight h with
  | true, Some q => if decide (q_Sign q ≤ 0) then 0%Qc else quantityRatio q
  | _, _ =>
      let n := RoutableReplicas h in
      if decide (0 < n) then SetFrac (n * factorMilli (Factor h)) 1000 else 0%Qc
  end.

Definition hasReadyCapacity (h : ClusterCapacity) : bool :=
  if usesReportedWeight h then bool_decide (0 < capacityValue h)%Qc else bool_decide (0 < Ready h).

Definition appliedFactor (h : ClusterCapacity) : option Q :=
  if usesReportedWeight h then None else Factor h.

Definition allProbesFailed (clusters : list ClusterCapacity) : bool :=
  negb (bool_decide (clusters = []))
  && forallb (λ h, bool_decide (Reachable h = Some false)) clusters.

(** ** Raw weights *)

(** The probe's gate. *)
Definition gated (ignoreProbeGates : bool) (h : ClusterCapacity) : bool :=
  negb ignoreProbeGates && bool_decide (Reachable h = Some false).

(** One entry of [values]. *)
Definition valueOf (ignoreProbeGates : bool) (h : ClusterCapacity) : Qc :=
  if gated ignoreProbeGates h then 0%Qc else capacityValue h.

(** The running common denominator. *)
Definition joinDenominator (ignoreProbeGates : bool) (denominator : Z) (h : ClusterCapacity) : Z :=
  if gated ignoreProbeGates h then denominator
  else
    let d := Denom (valueOf ignoreProbeGates h) in
    Z.quot denominator (Z.gcd denominator d) * d.

Definition rawWeights (clusters : list ClusterCapacity) (ignoreProbeGates : bool) : list Z * Z :=
  let values := valueOf ignoreProbeGates <$> clusters in
  let denominator := foldl (joinDenominator ignoreProbeGates) 1 clusters in
  let raw := (λ v, Num v * Z.quot denominator (Denom v)) <$> values in
  (raw, foldl Z.gcd 0 raw).

(** ** Whole-number weights *)

Definition scaleWeight (max r : Z) : Z :=
  if decide (r = 0) then 0
  else if decide (max ≤ maxTrafficMapWeight) then i32 r
  else i32 (ceilPositiveQuotient (r * maxTrafficMapWeight) max).

Definition normalizeRawWeights (raw : list Z) (gcd : Z) : list Z :=
  let raw := (λ r, Z.quot r gcd) <$> raw in
  let max := foldl (λ max r, if decide (max < r) then r else max) 0 raw in
  scaleWeight max <$> raw.

Definition weights (clusters : list ClusterCapacity) (allFailedPolicy : string) : list Z :=
  if decide (clusters = []) then []
  else
    let '(raw, gcd) := rawWeights clusters false in
    if decide (gcd ≠ 0) then normalizeRawWeights raw gcd
    else if negb (bool_decide (allFailedPolicy = AllFailedPolicyPreserveTraffic)) || negb (allProbesFailed clusters)
    then (λ _, 0) <$> clusters
    else
      let '(raw, gcd) := rawWeights clusters true in
      if decide (gcd = 0) then (λ _, 0) <$> clusters
      else normalizeRawWeights raw gcd.

Definition Weights (clusters : list ClusterCapacity) : list Z :=
  weights clusters AllFailedPolicyPreserveTraffic.
End model.
Arguments ClusterCapacity : clear implicits.

Example weights_heterogeneous :
  Weights [mkClusterCapacity RoutingCapacityModeCeiling None "a" 4 4 (Some (dec 2)) None None;
           mkClusterCapacity RoutingCapacityModeCeiling None "b" 6 3 None None (Some true);
           mkClusterCapacity RoutingCapacityModeCeiling None "c" 5 5 None None (Some false)]
  = [8; 3; 0].
Proof. vm_compute. reflexivity. Qed.

Example weights_reported :
  Weights [mkClusterCapacity RoutingCapacityModeReported (Some (mkDec 25 1 "")) "a" 4 4 None None None;
           mkClusterCapacity RoutingCapacityModeReported (Some (mkDec 5 0 "")) "b" 1 1 None None None]
  = [1; 2].
Proof. vm_compute. reflexivity. Qed.
