(* ===== verification/RoutingFacts.v ===== *)
(** * What the traffic weights preserve

    The weights are the smallest whole numbers in the exact ratio of the
    capacities; where those exceed what a gateway accepts, every capacity is
    scaled to the largest and rounded up.  No serving cluster disappears and
    none overtakes another. *)

From S2P Require Import Prelude Quantity RoutingWeights.
Local Open Scope Z_scope.

(** ** Rationals in lowest terms *)

Lemma Denom_pos v : 0 < Denom v.
Proof. done. Qed.

Lemma Num_Denom v : (v * Qc_of_Z (Denom v) = Qc_of_Z (Num v))%Qc.
Proof.
  apply Qc_is_canon. cbn. rewrite Qred_correct. unfold Num, Denom.
  destruct (this v) as [n d]. unfold Qeq. cbn. lia.
Qed.

Lemma Qc_of_Z_ne z : z ≠ 0 → Qc_of_Z z ≠ 0%Qc.
Proof. intros Hz E. apply Hz, (Z2Qc_inj z 0). by rewrite E, Z2Qc_inj_0. Qed.

Lemma Num_nonneg v : (0 ≤ v)%Qc → 0 ≤ Num v.
Proof. unfold Qcle, Qle, Num. destruct (this v) as [n d]. cbn. rewrite Z.mul_1_r. done. Qed.

Lemma Num_zero v : Num v = 0 ↔ v = 0%Qc.
Proof.
  split; [|by intros ->]. intros E. apply Qc_is_canon. unfold Num in E. unfold Qeq. rewrite E. done.
Qed.

Lemma SetFrac_mul a b : b ≠ 0 → (SetFrac a b * Qc_of_Z b = Qc_of_Z a)%Qc.
Proof. intros Hb. unfold SetFrac. pose proof (Qc_of_Z_ne b Hb). by field. Qed.

(** A rational that is a quotient of integers has the quotient's denominator
    dividing theirs: the least form is the least. *)
Lemma Num_Denom_coprime v : Z.gcd (Num v) (Denom v) = 1.
Proof.
  unfold Num, Denom. destruct v as [q Hq]. cbn. rewrite <-Hq.
  destruct q as [n d]. unfold Qred.
  pose proof (Z.ggcd_gcd n (Zpos d)) as Hg. pose proof (Z.ggcd_correct_divisors n (Zpos d)) as Hd.
  destruct (Z.ggcd n (Zpos d)) as [g [a b]]. cbn in *. destruct Hd as [Ha Hb].
  assert (0 < g) by (rewrite Hg; pose proof (Z.gcd_nonneg n (Zpos d)); assert (Z.gcd n (Zpos d) ≠ 0) by (intros E; apply Z.gcd_eq_0_r in E; done); lia).
  assert (0 < b) by nia. rewrite Z2Pos.id by done.
  assert (g * Z.gcd a b = g * 1); [|nia]. rewrite <-Z.gcd_mul_mono_l_nonneg, <-Ha, <-Hb by lia. lia.
Qed.

(** ** Greatest common divisors of a list *)

Definition gcdOf (l : list Z) : Z := foldl Z.gcd 0 l.

Lemma gcdOf_from a l :
  0 ≤ a →
  0 ≤ foldl Z.gcd a l ∧ (foldl Z.gcd a l | a) ∧ (∀ r, r ∈ l → (foldl Z.gcd a l | r))
  ∧ ∀ x, (x | a) → (∀ r, r ∈ l → (x | r)) → (x | foldl Z.gcd a l).
Proof.
  revert a. induction l as [|y l IH]; intros a Ha; cbn [foldl].
  { split_and!; [done|done| |auto]. intros r Hr. by apply elem_of_nil in Hr. }
  destruct (IH (Z.gcd a y) (Z.gcd_nonneg a y)) as (H0 & H1 & H2 & H3). split_and!; [done| | |].
  - etrans; [exact H1|apply Z.gcd_divide_l].
  - intros r [->|Hr]%elem_of_cons; [|auto]. etrans; [exact H1|apply Z.gcd_divide_r].
  - intros x Hx Hall. apply H3; [apply Z.gcd_greatest; [done|apply Hall; by left]|].
    intros r Hr. apply Hall. by right.
Qed.

Lemma gcdOf_nonneg l : 0 ≤ gcdOf l.
Proof. apply (gcdOf_from 0 l). done. Qed.

Lemma gcdOf_divides l r : r ∈ l → (gcdOf l | r).
Proof. apply (gcdOf_from 0 l). done. Qed.

Lemma gcdOf_greatest l x : (∀ r, r ∈ l → (x | r)) → (x | gcdOf l).
Proof. apply (gcdOf_from 0 l); [done|]. apply Z.divide_0_r. Qed.

Lemma gcdOf_zero l : gcdOf l = 0 ↔ ∀ r, r ∈ l → r = 0.
Proof.
  split.
  - intros E r Hr. pose proof (gcdOf_divides l r Hr) as Hd. rewrite E in Hd. by apply Z.divide_0_l.
  - intros Hall. apply Z.divide_0_l, gcdOf_greatest. intros r ->%Hall. apply Z.divide_refl.
Qed.

(** Dividing by the greatest common divisor leaves none. *)
Lemma gcdOf_reduced l : gcdOf l ≠ 0 → gcdOf ((λ r, Z.quot r (gcdOf l)) <$> l) = 1.
Proof.
  intros Hg. pose proof (gcdOf_nonneg l) as Hn. set (g := gcdOf l) in *.
  set (l' := _ <$> l). set (x := gcdOf l').
  pose proof (gcdOf_nonneg l') as Hx. fold x in Hx.
  assert (x * g | g) as [q Hq].
  { apply gcdOf_greatest. intros r Hr. destruct (gcdOf_divides l r Hr) as [k Hk]. fold g in Hk.
    assert (x | Z.quot r g) as [j Hj] by (apply gcdOf_divides, list_elem_of_fmap; eauto).
    rewrite Hk, Z.quot_mul in Hj by done. exists j. rewrite Hk, Hj. ring. }
  assert (1 = q * x) by (apply (Z.mul_reg_l _ _ g); [done|]; rewrite Z.mul_1_r, Hq at 1; ring). apply Z.divide_1_r_nonneg; [done|]. by exists q.
Qed.

(** ** Whole numbers in a given ratio *)

(** [ws] are whole numbers proportional to the rationals [vs]. *)
Definition proportional (vs : list Qc) (ws : list Z) : Prop :=
  ∃ k : Qc, (0 < k)%Qc ∧ Forall2 (λ v w, v = (k * Qc_of_Z w)%Qc) vs ws.

(** The reduced ratio is the smallest: every other is a multiple of it. *)
Lemma reduced_smallest vs rs ws :
  proportional vs rs → gcdOf rs = 1 → proportional vs ws →
  ∃ m, 0 < m ∧ ws = (Z.mul m) <$> rs.
Proof.
  intros (k & Hk & Hr) Hg (k' & Hk' & Hw).
  assert (k' ≠ 0%Qc) as Hk0 by (intros E; by apply (Qclt_not_eq _ _ Hk')).
  set (t := (k / k')%Qc). assert (0 < t)%Qc as Ht.
  { unfold t, Qcdiv. apply Qcmult_pos_pos; [done|by apply Qcinv_pos]. }
  assert (Forall2 (λ r w, Denom t * w = Num t * r) rs ws) as Hcross.
  { clear Hg. revert ws Hw. induction Hr as [|v r vs rs Hv Hr IH]; intros ws Hw; [by inversion Hw; constructor|].
    inversion Hw as [|? w ? ws' Hvw Hw']; subst. constructor; [|by apply IH].
    apply (Z2Qc_inj _ _). rewrite !Z2Qc_inj_mul, <-(Num_Denom t).
    assert (Qc_of_Z w = t * Qc_of_Z r)%Qc as ->; [|ring].
    unfold t. rewrite <-(Qcmult_1_l (Qc_of_Z w)), <-(Qcmult_inv_l k' Hk0).
    transitivity (/ k' * (k' * Qc_of_Z w))%Qc; [ring|]. rewrite <-Hvw. unfold Qcdiv. ring. }
  assert (Denom t = 1) as Hd.
  { assert (Denom t | gcdOf rs) as Hdiv.
    { apply gcdOf_greatest. intros r Hr'. apply list_elem_of_lookup in Hr' as [i Hi].
      destruct (Forall2_lookup_l _ _ _ _ _ Hcross Hi) as (w & _ & E).
      apply (Z.gauss _ (Num t)); [exists w; lia|]. rewrite Z.gcd_comm. apply Num_Denom_coprime. }
    rewrite Hg in Hdiv. apply Z.divide_1_r_nonneg in Hdiv; [done|]. pose proof (Denom_pos t). lia. }
  exists (Num t). split.
  - assert (0 ≤ Num t) by (by apply Num_nonneg, Qclt_le_weak).
    assert (Num t ≠ 0); [|lia]. intros E%Num_zero. by apply (Qclt_not_eq _ _ Ht).
  - rewrite Hd in Hcross. clear -Hcross. induction Hcross as [|r w rs ws E _ IH]; [done|].
    cbn. f_equal; [lia|exact IH].
Qed.

(** ** The raw weights *)

Section raw.
Context {Q : Type} `{QuantityOps Q} `{!QuantityLaws Q}.
Implicit Types h : ClusterCapacity Q.

Lemma valueOf_gated ig h : gated ig h = true → valueOf ig h = 0%Qc.
Proof. intros E. unfold valueOf. by rewrite E. Qed.

Lemma join_step D d :
  0 < D → 0 < d →
  0 < Z.quot D (Z.gcd D d) * d ∧ (D | Z.quot D (Z.gcd D d) * d) ∧ (d | Z.quot D (Z.gcd D d) * d).
Proof.
  intros HD Hd. destruct (Z.gcd_divide_l D d) as [a Ha]. destruct (Z.gcd_divide_r D d) as [b Hb].
  assert (0 < Z.gcd D d).
  { pose proof (Z.gcd_nonneg D d). assert (Z.gcd D d ≠ 0); [|lia]. intros E%Z.gcd_eq_0_l. lia. }
  remember (Z.gcd D d) as g eqn:Eg. clear Eg. subst D d. rewrite Z.quot_mul by lia.
  split_and!; [nia|exists b; ring|exists a; ring].
Qed.

(** The common denominator is one of every value. *)
Lemma denominator_common ig (clusters : list (ClusterCapacity Q)) :
  0 < foldl (joinDenominator ig) 1 clusters
  ∧ ∀ h, h ∈ clusters → (Denom (valueOf ig h) | foldl (joinDenominator ig) 1 clusters).
Proof.
  apply (foldl_ind _ (λ pre D, 0 < D ∧ ∀ h, h ∈ pre → (Denom (valueOf ig h) | D))).
  { split; [done|]. intros h Hh. by apply elem_of_nil in Hh. }
  intros pre h post D _ [HD Hpre]. unfold joinDenominator.
  setoid_rewrite elem_of_app. setoid_rewrite list_elem_of_singleton.
  destruct (gated ig h) eqn:Eg.
  - split; [done|]. intros h' [Hh| ->]; [auto|]. rewrite (valueOf_gated ig h Eg). apply Z.divide_1_l.
  - destruct (join_step D (Denom (valueOf ig h)) HD (Denom_pos _)) as (Hp & H1 & H2).
    split; [done|]. intros h' [Hh| ->]; [|done]. etrans; [by apply Hpre|done].
Qed.

(** A raw weight is the value at the common denominator. *)
Lemma raw_value v D : 0 < D → (Denom v | D) → Qc_of_Z (Num v * Z.quot D (Denom v)) = (v * Qc_of_Z D)%Qc.
Proof.
  intros HD [k Hk]. pose proof (Denom_pos v). rewrite Hk at 1. rewrite Z.quot_mul by lia.
  rewrite Hk, !Z2Qc_inj_mul, <-(Num_Denom v). ring.
Qed.
End raw.

(** ** Capacities *)

Section capacity.
Context {Q : Type} `{QuantityOps Q} `{!QuantityLaws Q}.
Implicit Types (h : ClusterCapacity Q) (clusters : list (ClusterCapacity Q)).

Lemma sign_pos (q : Q) : 0 < q_Sign q ↔ (0 < q_value q)%Qc.
Proof.
  rewrite law_Sign. destruct (q_value q ?= 0)%Qc eqn:E; cbn.
  - apply Qceq_alt in E. rewrite E. split; [lia|]. intros Hl. by apply Qclt_not_eq in Hl.
  - apply Qclt_alt in E. split; [lia|]. intros Hl. exfalso. by apply (Qclt_not_le _ _ Hl), Qclt_le_weak.
  - apply Qcgt_alt in E. split; [done|lia].
Qed.

Lemma unscaled_pos (q : Q) : 0 < q_Sign q → 0 < q_Unscaled q.
Proof.
  intros Hq%sign_pos. unfold q_value in Hq. apply Z.nle_gt. intros Hle.
  apply (Qclt_not_le _ _ Hq). rewrite <-(Qcmult_0_l (ten_to (q_Scale q))).
  apply (proj1 (Qcmult_le_mono_pos_r _ _ _ (ten_to_pos _))).
  rewrite <-Z2Qc_inj_0. exact (proj1 (Z2Qc_inj_le _ 0) Hle).
Qed.

Lemma quantityRatio_value (q : Q) : quantityRatio q = q_value q.
Proof.
  unfold quantityRatio, q_value, ten_to, powerOfTen, SetFrac. case_decide as Hs.
  - rewrite (Z.max_r 0 (- q_Scale q)), (Z.max_l 0 (q_Scale q)) by lia.
    rewrite Z2Qc_inj_mul. change (10 ^ 0) with 1. rewrite Z2Qc_inj_1. field. done.
  - rewrite (Z.max_l 0 (- q_Scale q)), (Z.max_r 0 (q_Scale q)) by lia.
    change (10 ^ 0) with 1. rewrite Z2Qc_inj_1. field. apply Qc_pow10_ne. lia.
Qed.

Lemma ceilPositiveQuotient_eq a b : 0 ≤ a → 0 < b → ceilPositiveQuotient a b = (a + b - 1) / b.
Proof.
  intros Ha Hb. unfold ceilPositiveQuotient. rewrite Z.quot_div_nonneg, Z.rem_mod_nonneg by lia.
  pose proof (Z.div_mod a b ltac:(lia)). pose proof (Z.mod_pos_bound a b Hb).
  case_decide; [apply Z.div_unique with (a mod b - 1)|apply Z.div_unique with (b - 1)]; lia.
Qed.

Lemma ceil_pos a b : 0 < a → 0 < b → 1 ≤ (a + b - 1) / b.
Proof. intros. apply Z.div_le_lower_bound; lia. Qed.

(** A missing or malformed factor is 1, and no factor rounds away. *)
Lemma factorMilli_pos (q : option Q) : 0 < factorMilli q.
Proof.
  destruct q as [q|]; cbn; [|done]. case_decide as Hs; [done|].
  pose proof (unscaled_pos q ltac:(lia)). unfold powerOfTen. case_decide.
  - apply Z.mul_pos_pos; [done|]. apply Z.pow_pos_nonneg; lia.
  - assert (0 < 10 ^ (- (3 - q_Scale q))) by (apply Z.pow_pos_nonneg; lia).
    rewrite ceilPositiveQuotient_eq by lia. pose proof (ceil_pos (q_Unscaled q) (10 ^ (- (3 - q_Scale q)))). lia.
Qed.

(** What a cluster can serve, apart from its probe. *)
Definition servingCapacity h : Prop :=
  match usesReportedWeight h, ReportedWeight h with
  | true, Some q => (0 < q_value q)%Qc
  | _, _ => 0 < Ready h ∧ 0 < EffectiveAllocated h
  end.

Lemma SetFrac_pos a b : 0 < a → 0 < b → (0 < SetFrac a b)%Qc.
Proof.
  intros. unfold SetFrac, Qcdiv. apply Qcmult_pos_pos; [|apply Qcinv_pos]; by apply Qc_of_Z_pos.
Qed.

Lemma RoutableReplicas_pos h : 0 < RoutableReplicas h ↔ 0 < Ready h ∧ 0 < EffectiveAllocated h.
Proof. unfold RoutableReplicas. repeat case_decide; lia. Qed.

Lemma capacityValue_cases h :
  servingCapacity h ∧ (0 < capacityValue h)%Qc ∨ ¬ servingCapacity h ∧ capacityValue h = 0%Qc.
Proof.
  unfold servingCapacity, capacityValue.
  assert (0 < RoutableReplicas h ∧ (0 < SetFrac (RoutableReplicas h * factorMilli (Factor h)) 1000)%Qc
          ∨ ¬ 0 < RoutableReplicas h) as Hn.
  { destruct (decide (0 < RoutableReplicas h)); [left|by right]. split; [done|].
    apply SetFrac_pos; [|done]. apply Z.mul_pos_pos; [done|apply factorMilli_pos]. }
  pose proof (RoutableReplicas_pos h) as Hp.
  destruct (usesReportedWeight h), (ReportedWeight h) as [q|]; try (rewrite <-Hp; case_decide; naive_solver).
  rewrite quantityRatio_value. pose proof (sign_pos q) as Hs. case_decide; [right|left].
  - split; [|done]. rewrite <-Hs. lia.
  - split; apply Hs; lia.
Qed.

Lemma valueOf_nonneg ig h : (0 ≤ valueOf ig h)%Qc.
Proof.
  unfold valueOf. destruct (gated ig h); [apply Qcle_refl|].
  destruct (capacityValue_cases h) as [[_ ?]|[_ ->]]; [by apply Qclt_le_weak|apply Qcle_refl].
Qed.

(** ** Reducing the raw weights *)

Lemma rawWeights_spec clusters ig raw g :
  rawWeights clusters ig = (raw, g) →
  g = gcdOf raw ∧ (∀ r, r ∈ raw → 0 ≤ r)
  ∧ proportional (valueOf ig <$> clusters) raw.
Proof.
  intros [= <- <-]. destruct (denominator_common ig clusters) as [HD Hall].
  set (D := foldl (joinDenominator ig) 1 clusters) in *. split_and!; [done| |].
  - intros r Hr. apply list_elem_of_fmap in Hr as (v & -> & Hv).
    apply list_elem_of_fmap in Hv as (h & -> & Hh).
    apply Z.mul_nonneg_nonneg; [apply Num_nonneg, valueOf_nonneg|].
    apply Z.quot_pos; [lia|]. apply Denom_pos.
  - exists (/ Qc_of_Z D)%Qc. split; [by apply Qcinv_pos, Qc_of_Z_pos|].
    rewrite Forall2_fmap_r. apply Forall2_same_length_lookup_2; [done|].
    intros i v v' Hv Hv'. rewrite Hv in Hv'. injection Hv' as <-.
    rewrite list_lookup_fmap in Hv. apply fmap_Some in Hv as (h & Hh & ->).
    cbv [compose]. rewrite raw_value; [|done|apply Hall, list_elem_of_lookup; eauto].
    pose proof (Qc_of_Z_ne D ltac:(lia)). by field.
Qed.

Lemma reduce_proportional vs (raw : list Z) :
  gcdOf raw ≠ 0 → proportional vs raw → proportional vs ((λ r, Z.quot r (gcdOf raw)) <$> raw).
Proof.
  intros Hg (k & Hk & Hr). pose proof (gcdOf_nonneg raw) as Hnn.
  exists (k * Qc_of_Z (gcdOf raw))%Qc. split; [apply Qcmult_pos_pos; [done|]; apply Qc_of_Z_pos; lia|].
  rewrite Forall2_fmap_r.
  assert (∀ r, r ∈ raw → gcdOf raw * Z.quot r (gcdOf raw) = r) as Hq.
  { intros r Hin. destruct (gcdOf_divides raw r Hin) as [q Hq]. rewrite Hq at 2. rewrite Hq, Z.quot_mul by done. ring. }
  revert Hq. clear Hg Hnn. generalize (gcdOf raw). intros g Hq.
  induction Hr as [|v r vs raw Hv Hr IH]; [constructor|]. constructor.
  - cbv [compose]. rewrite Hv, <-Qcmult_assoc, <-Z2Qc_inj_mul, Hq by left. done.
  - apply IH. intros r' Hr'. apply Hq. by right.
Qed.
End capacity.

(** ** Fitting the gateway *)

Definition maxOf (l : list Z) : Z := foldl (λ max r, if decide (max < r) then r else max) 0 l.

Lemma maxOf_spec l : 0 ≤ maxOf l ∧ (∀ r, r ∈ l → r ≤ maxOf l) ∧ (maxOf l = 0 ∨ maxOf l ∈ l).
Proof.
  unfold maxOf. apply (foldl_ind _ (λ pre m, 0 ≤ m ∧ (∀ r, r ∈ pre → r ≤ m) ∧ (m = 0 ∨ m ∈ pre))).
  { split_and!; [done| |by left]. intros r Hr. by apply elem_of_nil in Hr. }
  intros pre x post m _ (H0 & H1 & H2). setoid_rewrite elem_of_app. setoid_rewrite list_elem_of_singleton.
  case_decide; split_and!; [lia| |auto|done| |naive_solver].
  - intros r [Hr| ->]; [specialize (H1 r Hr)|]; lia.
  - intros r [Hr| ->]; [auto|lia].
Qed.

(** The weight of a reduced share [r] when the largest is [m]. *)
Definition fitted (m r : Z) : Z :=
  if decide (m ≤ maxTrafficMapWeight) then r else (r * maxTrafficMapWeight + m - 1) / m.

Lemma scaleWeight_fitted m r : 0 ≤ r ≤ m → scaleWeight m r = fitted m r.
Proof.
  intros Hr. unfold scaleWeight, fitted, maxTrafficMapWeight. case_decide as H0.
  { subst r. case_decide; [done|]. symmetry. apply Z.div_small. lia. }
  case_decide as Hm; [by unwrap|]. rewrite ceilPositiveQuotient_eq by lia.
  apply i32_id. unfold int32_range.
  assert ((r * 1000000 + m - 1) / m ≤ 1000000) by (apply Z.lt_succ_r, Z.div_lt_upper_bound; nia).
  assert (0 ≤ (r * 1000000 + m - 1) / m) by (apply Z.div_pos; lia). lia.
Qed.

Lemma fitted_bounds m r : 0 ≤ r ≤ m → 0 ≤ fitted m r ≤ maxTrafficMapWeight.
Proof.
  intros Hr. unfold fitted, maxTrafficMapWeight in *. case_decide; [lia|]. split.
  - apply Z.div_pos; lia.
  - apply Z.lt_succ_r, Z.div_lt_upper_bound; nia.
Qed.

Lemma fitted_pos m r : 0 ≤ r ≤ m → 0 < fitted m r ↔ 0 < r.
Proof.
  intros Hr. unfold fitted, maxTrafficMapWeight. case_decide; [done|]. split.
  - intros Hp. apply Z.nle_gt. intros Hle. assert (r = 0) as -> by lia.
    rewrite Z.div_small in Hp by lia. lia.
  - intros Hp. pose proof (ceil_pos (r * 1000000) m). lia.
Qed.

Lemma fitted_mono m r r' : 0 ≤ r → r ≤ r' → 0 < m → fitted m r ≤ fitted m r'.
Proof.
  intros Hr Hle Hm. unfold fitted, maxTrafficMapWeight. case_decide; [done|]. apply Z.div_le_mono; lia.
Qed.

Lemma fitted_largest m : maxTrafficMapWeight < m → fitted m m = maxTrafficMapWeight.
Proof.
  unfold fitted, maxTrafficMapWeight. intros Hm. rewrite decide_False by lia.
  symmetry. apply Z.div_unique with (m - 1); lia.
Qed.

(** ** The weights *)

Section weights.
Context {Q : Type} `{QuantityOps Q} `{!QuantityLaws Q}.
Implicit Types (h : ClusterCapacity Q) (clusters : list (ClusterCapacity Q)) (policy : string).

(** Whether the probe gates are ignored: only under the preserving policy, and
    only when every cluster has failed its probe. *)
Definition gatesIgnored clusters policy : bool :=
  bool_decide (policy = AllFailedPolicyPreserveTraffic) && allProbesFailed clusters.

(** The capacities the weights divide. *)
Definition capacities clusters policy : list Qc := valueOf (gatesIgnored clusters policy) <$> clusters.

Lemma allProbesFailed_true clusters :
  allProbesFailed clusters = true ↔ clusters ≠ [] ∧ ∀ h, h ∈ clusters → Reachable h = Some false.
Proof.
  unfold allProbesFailed. rewrite andb_true_iff, negb_true_iff, bool_decide_eq_false, forallb_forall.
  setoid_rewrite <-list_elem_of_In. setoid_rewrite bool_decide_eq_true. done.
Qed.

Lemma proportional_zero vs (ws : list Z) :
  proportional vs ws → (∀ w, w ∈ ws → w = 0) ↔ (∀ v, v ∈ vs → v = 0%Qc).
Proof.
  intros (k & Hk & Hf). assert (k ≠ 0%Qc) as Hk0 by (intros E; by apply (Qclt_not_eq _ _ Hk)). split.
  - intros Hw v [i Hi]%list_elem_of_lookup. destruct (Forall2_lookup_l _ _ _ _ _ Hf Hi) as (w & Hwi & ->).
    rewrite (Hw w) by (apply list_elem_of_lookup; eauto). rewrite Z2Qc_inj_0. ring.
  - intros Hv w [i Hi]%list_elem_of_lookup. destruct (Forall2_lookup_r _ _ _ _ _ Hf Hi) as (v & Hvi & E).
    rewrite (Hv v) in E by (apply list_elem_of_lookup; eauto).
    destruct (decide (w = 0)) as [|Hw]; [done|]. exfalso. symmetry in E.
    apply Qcmult_integral in E as [?|?]; [done|]. by apply (Qc_of_Z_ne w).
Qed.

(** One computation covers both branches: gates are ignored or they are not. *)
Lemma weights_one clusters policy raw g :
  clusters ≠ [] → rawWeights clusters (gatesIgnored clusters policy) = (raw, g) →
  weights clusters policy = if decide (g = 0) then (λ _, 0) <$> clusters else normalizeRawWeights raw g.
Proof.
  intros Hne E. unfold weights. rewrite decide_False by done.
  destruct (rawWeights clusters false) as [raw0 g0] eqn:E0.
  unfold gatesIgnored in E.
  destruct (allProbesFailed clusters) eqn:Ef.
  - assert (g0 = 0) as ->.
    { apply rawWeights_spec in E0 as (-> & _ & Hp). apply gcdOf_zero, (proportional_zero _ _ Hp).
      intros v (h & -> & Hh)%list_elem_of_fmap. apply allProbesFailed_true in Ef as [_ Hall].
      apply valueOf_gated. unfold gated. by rewrite bool_decide_true by auto. }
    rewrite decide_False by auto. case_bool_decide; cbn [negb orb andb] in *.
    + by rewrite E.
    + rewrite E0 in E. injection E as <- <-. by rewrite decide_True.
  - rewrite andb_false_r in E. rewrite E0 in E. injection E as <- <-.
    rewrite orb_true_r. by repeat case_decide.
Qed.

(** The weights, from the reduced ratio of the capacities. *)
Lemma weights_reduced clusters policy :
  (∃ v, v ∈ capacities clusters policy ∧ v ≠ 0%Qc) →
  ∃ rs, proportional (capacities clusters policy) rs ∧ gcdOf rs = 1
    ∧ (∀ r, r ∈ rs → 0 ≤ r ≤ maxOf rs) ∧ 0 < maxOf rs ∧ maxOf rs ∈ rs
    ∧ weights clusters policy = fitted (maxOf rs) <$> rs.
Proof.
  intros (v & Hv & Hv0). assert (clusters ≠ []) as Hne by (intros ->; by apply elem_of_nil in Hv).
  destruct (rawWeights clusters (gatesIgnored clusters policy)) as [raw g] eqn:E.
  rewrite (weights_one clusters policy raw g Hne E).
  apply rawWeights_spec in E as (-> & Hnn & Hp). fold (capacities clusters policy) in Hp.
  assert (gcdOf raw ≠ 0) as Hg.
  { intros Hg. apply Hv0. by apply (proj1 (proportional_zero _ _ Hp)); [apply gcdOf_zero|]. }
  rewrite decide_False by done. exists ((λ r, Z.quot r (gcdOf raw)) <$> raw).
  set (rs := _ <$> raw). destruct (maxOf_spec rs) as (Hm0 & Hm & Hin).
  assert (∀ r, r ∈ rs → 0 ≤ r ≤ maxOf rs) as Hr.
  { intros r Hr. split; [|auto]. apply list_elem_of_fmap in Hr as (x & -> & Hx).
    pose proof (gcdOf_nonneg raw). apply Z.quot_pos; [by apply Hnn|lia]. }
  assert (gcdOf rs = 1) as Hg1 by (by apply gcdOf_reduced).
  assert (0 < maxOf rs) as Hpos.
  { destruct (decide (maxOf rs = 0)) as [E|]; [|lia]. exfalso.
    assert (gcdOf rs = 0); [|lia]. apply gcdOf_zero. intros r Hr'. specialize (Hr r Hr'). lia. }
  split_and!; [by apply reduce_proportional|done|done|done|naive_solver lia|].
  unfold normalizeRawWeights. fold rs. apply list_fmap_ext. intros i r Hi.
  apply scaleWeight_fitted, Hr, list_elem_of_lookup. eauto.
Qed.
Lemma weights_idle clusters policy :
  (∀ v, v ∈ capacities clusters policy → v = 0%Qc) → weights clusters policy = (λ _, 0) <$> clusters.
Proof.
  intros Hz. destruct (decide (clusters = [])) as [->|Hne]; [done|].
  destruct (rawWeights clusters (gatesIgnored clusters policy)) as [raw g] eqn:E.
  rewrite (weights_one clusters policy raw g Hne E).
  apply rawWeights_spec in E as (-> & _ & Hp). rewrite decide_True; [done|].
  by apply gcdOf_zero, (proportional_zero _ _ Hp).
Qed.

(** The reduced ratio is unique. *)
Lemma reduced_unique vs rs rs' :
  proportional vs rs → gcdOf rs = 1 → proportional vs rs' → gcdOf rs' = 1 → rs' = rs.
Proof.
  intros Hp Hg Hp' Hg'. destruct (reduced_smallest vs rs rs' Hp Hg Hp') as (m & Hm & ->).
  assert (m | 1) as Hd.
  { rewrite <-Hg'. apply gcdOf_greatest. intros r (x & -> & _)%list_elem_of_fmap. by exists x; ring. }
  apply Z.divide_1_r_nonneg in Hd as ->; [|lia].
  rewrite <-(list_fmap_id rs) at 2. apply list_fmap_ext. intros. apply Z.mul_1_l.
Qed.

Lemma some_capacity clusters policy :
  (∀ v, v ∈ capacities clusters policy → v = 0%Qc)
  ∨ ∃ v, v ∈ capacities clusters policy ∧ v ≠ 0%Qc.
Proof.
  destruct (decide (Forall (λ v, v = 0%Qc) (capacities clusters policy))) as [Hall|Hex].
  - left. by apply Forall_forall.
  - right. apply not_Forall_Exists, Exists_exists in Hex; [done|]. intros v. apply _.
Qed.

Lemma capacity_pos clusters policy h :
  (0 < valueOf (gatesIgnored clusters policy) h)%Qc ↔
  servingCapacity h ∧ (Reachable h ≠ Some false ∨ gatesIgnored clusters policy = true).
Proof.
  unfold valueOf, gated. destruct (gatesIgnored clusters policy); cbn [negb andb].
  - destruct (capacityValue_cases h) as [[? ?]|[? ->]]; [naive_solver|].
    split; [intros Hl; by apply Qclt_not_eq in Hl|naive_solver].
  - case_bool_decide as Hr.
    + split; [intros Hl; by apply Qclt_not_eq in Hl|naive_solver].
    + destruct (capacityValue_cases h) as [[? ?]|[? ->]]; [naive_solver|].
      split; [intros Hl; by apply Qclt_not_eq in Hl|naive_solver].
Qed.
End weights.

(** C1: traffic weights are the capacities in whole numbers.  With no capacity at
    all every weight is zero.  Otherwise the capacities have exactly one reduced
    whole-number ratio, of which every other is a multiple, and the weights are
    it whenever its largest entry is within what a gateway accepts; beyond that,
    each is its share of the largest, at the limit, rounded up. *)
Theorem weights_ratio {Q} `{QuantityOps Q} `{!QuantityLaws Q} (clusters : list (ClusterCapacity Q)) policy :
  let vs := capacities clusters policy in
  ((∀ v, v ∈ vs → v = 0%Qc) ∧ weights clusters policy = (λ _, 0) <$> clusters)
  ∨ ∃ rs, proportional vs rs ∧ gcdOf rs = 1
      ∧ (∀ rs', proportional vs rs' → ∃ m, 0 < m ∧ rs' = Z.mul m <$> rs)
      ∧ (∀ rs', proportional vs rs' → gcdOf rs' = 1 → rs' = rs)
      ∧ (maxOf rs ≤ maxTrafficMapWeight → weights clusters policy = rs)
      ∧ (maxTrafficMapWeight < maxOf rs →
         weights clusters policy
         = (λ r, (r * maxTrafficMapWeight + maxOf rs - 1) / maxOf rs) <$> rs
         ∧ maxTrafficMapWeight ∈ weights clusters policy).
Proof.
  intros vs. destruct (some_capacity clusters policy) as [Hz|Hs]; [left; split; [done|by apply weights_idle]|right].
  destruct (weights_reduced clusters policy Hs) as (rs & Hp & Hg & Hr & Hm & Hin & E).
  exists rs. rewrite E. split_and!; [done|done| | | |].
  - intros rs'. by apply reduced_smallest.
  - intros rs' Hp'. by eapply reduced_unique.
  - intros Hle. rewrite <-(list_fmap_id rs) at 3. apply list_fmap_ext. intros i r _.
    unfold fitted. by rewrite decide_True.
  - intros Hlt. split.
    + apply list_fmap_ext. intros i r _. unfold fitted. by rewrite decide_False by lia.
    + rewrite <-(fitted_largest (maxOf rs) Hlt). by apply list_elem_of_fmap_2.
Qed.

Definition twoClusters : list (ClusterCapacity decimal) :=
  [mkClusterCapacity RoutingCapacityModeCeiling None "a" 4 4 (Some (dec 2)) None None;
   mkClusterCapacity RoutingCapacityModeCeiling None "b" 6 3 None None (Some true)].

Lemma weights_ratio_witness : ∃ rs, gcdOf rs = 1 ∧ proportional (capacities twoClusters AllFailedPolicyDrain) rs.
Proof.
  destruct (weights_ratio twoClusters AllFailedPolicyDrain) as [[_ Hz]|(rs & Hp & Hg & _)].
  - vm_compute in Hz. discriminate Hz.
  - exists rs. split; [exact Hg|exact Hp].
Defined.

(** C17: who gets traffic.  Every weight is between zero and the gateway's limit;
    it is positive exactly for a cluster with serving capacity (a positive
    reported weight, or ready and allocated replicas) whose probe has not failed,
    or, under the preserving policy, when every probe has; and a cluster with no
    less capacity than another gets no less weight. *)
Theorem weights_serve {Q} `{QuantityOps Q} `{!QuantityLaws Q} (clusters : list (ClusterCapacity Q)) policy i h :
  clusters !! i = Some h →
  ∃ w, weights clusters policy !! i = Some w ∧ 0 ≤ w ≤ maxTrafficMapWeight
    ∧ (0 < w ↔ servingCapacity h
               ∧ (Reachable h ≠ Some false
                  ∨ policy = AllFailedPolicyPreserveTraffic ∧ ∀ h', h' ∈ clusters → Reachable h' = Some false))
    ∧ ∀ j h' w', clusters !! j = Some h' → weights clusters policy !! j = Some w' →
        (valueOf (gatesIgnored clusters policy) h ≤ valueOf (gatesIgnored clusters policy) h')%Qc → w ≤ w'.
Proof.
  intros Hi. set (ig := gatesIgnored clusters policy).
  assert (servingCapacity h ∧ (Reachable h ≠ Some false
       ∨ policy = AllFailedPolicyPreserveTraffic ∧ ∀ h', h' ∈ clusters → Reachable h' = Some false)
    ↔ (0 < valueOf ig h)%Qc) as Hiff.
  { unfold ig. rewrite capacity_pos. unfold gatesIgnored.
    rewrite andb_true_iff, bool_decide_eq_true, allProbesFailed_true.
    assert (clusters ≠ []) by (intros ->; done). naive_solver. }
  destruct (some_capacity clusters policy) as [Hz|Hs].
  - rewrite (weights_idle _ _ Hz). exists 0. rewrite list_lookup_fmap, Hi. split_and!; [done|done|done| |].
    + rewrite Hiff. split; [lia|]. rewrite (Hz (valueOf ig h)); [intros Hl; by apply Qclt_not_eq in Hl|].
      apply list_elem_of_fmap_2. apply list_elem_of_lookup. eauto.
    + intros j h' w' Hj. rewrite list_lookup_fmap, Hj. by intros [= <-].
  - destruct (weights_reduced clusters policy Hs) as (rs & (k & Hk & Hf) & Hg & Hr & Hm & Hin & E).
    assert (∀ i h, clusters !! i = Some h → ∃ r, rs !! i = Some r ∧ valueOf ig h = (k * Qc_of_Z r)%Qc) as Hat.
    { intros i' h' Hi'. apply (Forall2_lookup_l _ _ _ i' (valueOf ig h') Hf).
      unfold capacities. by rewrite list_lookup_fmap, Hi'. }
    destruct (Hat i h Hi) as (r & Hri & Hv). assert (0 ≤ r ≤ maxOf rs) as Hr0 by (apply Hr, list_elem_of_lookup; eauto).
    assert (∀ a b, (k * Qc_of_Z a ≤ k * Qc_of_Z b)%Qc → a ≤ b) as Hle.
    { intros a b Hab. apply (proj2 (Z2Qc_inj_le a b)), (proj2 (Qcmult_le_mono_pos_l _ _ _ Hk) Hab). }
    exists (fitted (maxOf rs) r). rewrite E, list_lookup_fmap, Hri.
    split_and!; [done|by apply fitted_bounds..| |].
    + rewrite Hiff, fitted_pos, Hv by done. split.
      * intros Hp. apply Qcmult_pos_pos; [done|by apply Qc_of_Z_pos].
      * intros Hp. destruct (decide (r = 0)) as [->|]; [|lia]. rewrite Z2Qc_inj_0, Qcmult_0_r in Hp.
        by apply Qclt_not_eq in Hp.
    + intros j h' w' Hj. destruct (Hat j h' Hj) as (r' & Hrj & Hv'). rewrite list_lookup_fmap, Hrj.
      intros [= <-]. rewrite Hv, Hv'. intros Hab%Hle. apply fitted_mono; lia.
Qed.

Lemma weights_serve_witness : ∃ w, weights twoClusters AllFailedPolicyDrain !! 1%nat = Some w ∧ 0 ≤ w ≤ maxTrafficMapWeight.
Proof.
  destruct (weights_serve twoClusters AllFailedPolicyDrain 1%nat
    (mkClusterCapacity RoutingCapacityModeCeiling None "b" 6 3 None None (Some true)) eq_refl) as (w & Hw & Hb & _).
  exists w. split; [exact Hw|exact Hb].
Defined.
