(* ===== verification/PlanIndices.v ===== *)
(** * Choosing the instances a workload keeps

    [pkg/controller/v1beta1/workload/plan.go], the choice of instance indexes, and
    the surge index allocator of [workload/types/plan.go].  A row is the status
    of one instance; the plan keeps surge pairs in flight, fills the replica
    count with the steady rows by rank, and rounds a scale-up out with unused
    indexes.  Times are their instants as integers.  [indexSelection] is filled
    by its methods one after the other; each returns the selection with what it
    wrote. *)

From S2P Require Import Prelude.
Local Open Scope Z_scope.

(** ** Rows *)

Definition InstancePhaseCreating := "Creating".
Definition InstancePhaseReady := "Ready".
Definition InstancePhaseUpdating := "Updating".
Definition InstancePhaseMigrating := "Migrating".
Definition InstancePhaseFailed := "Failed".
Definition InstanceOperationUpdate := "Update".
Definition InstanceOperationMigrate := "Migrate".
Definition UpdateStepSurge := "Surge".
Definition UpdateStepSurgeDrain := "SurgeDrain".
Definition UpdateStepSurgeDrainSettle := "SurgeDrainSettle".
Definition UpdateStepGangSurgeTarget := "GangSurgeTarget".
Definition UpdateStepGangSurgeTargetCleanup := "GangSurgeTargetCleanup".
Definition RetryBlockBackoff := "Backoff".
Definition RetryBlockHeld := "Held".
Definition RetryBlockRetryInProgress := "RetryInProgress".

(** [InstanceOperation], [InstanceTermination] and [InstanceStatus] with the fields
    the model reads, and [RetryBlock]. *)
Record InstanceOperation := mkOperation {
  OType : string; Step : string; SurgeIndex : option Z; RequestUUID : string; OTargetRevision : string;
}.
Record InstanceTermination := mkTermination { FReason : string; FTime : Z }.
Record InstanceStatus := mkStatus {
  Index : Z; Incarnation : Z; Phase : string; RunningRevision : string; TargetRevision : string;
  PodCount : Z; ServingPodCount : Z; Operation : option InstanceOperation; ActiveOrdinal : Z;
  LastFailure : option InstanceTermination; ReadySince : option Z;
}.
Record RetryBlock := mkBlock {
  BTargetRevision : string; BState : string; AttemptsStarted : Z; NextRetryAt : option Z;
  FirstFailureAt : option Z; LastFailureAt : option Z; BReason : string;
}.
#[export] Instance operation_eq_dec : EqDecision InstanceOperation.
Proof. solve_decision. Defined.
#[export] Instance termination_eq_dec : EqDecision InstanceTermination.
Proof. solve_decision. Defined.
#[export] Instance block_eq_dec : EqDecision RetryBlock.
Proof. solve_decision. Defined.
#[export] Instance status_eq_dec : EqDecision InstanceStatus.
Proof. solve_decision. Defined.

Definition FindRetryBlock (blocks : list RetryBlock) (rev : string) : option RetryBlock :=
  snd <$> list_find (λ b, BTargetRevision b = rev) blocks.

Definition RemembersCrash (s : InstanceStatus) : bool :=
  match LastFailure s, ReadySince s with
  | Some failed, Some ready => bool_decide (ready < FTime failed)
  | _, _ => false
  end.

(** The index an update or a migration claims; [typ] is the operation's type. *)
Definition claimOf (typ : string) (s : InstanceStatus) : option Z :=
  op ← Operation s; if decide (OType op = typ) then SurgeIndex op else None.

Definition hasOperation (typ : string) (s : InstanceStatus) : bool :=
  match Operation s with Some op => bool_decide (OType op = typ) | None => false end.

(** ** Ranking *)

Definition creatingWithNoOperation (s : InstanceStatus) : bool :=
  bool_decide (Phase s = InstancePhaseCreating) && bool_decide (Operation s = None).

Definition keepsPreference (s : InstanceStatus) : bool :=
  bool_decide (Phase s = InstancePhaseReady)
  && (bool_decide (PodCount s = 0) || bool_decide (PodCount s ≤ ServingPodCount s)).

Definition rowOnFailingRevision (s : InstanceStatus) (blocks : list RetryBlock) : bool :=
  let rev := if decide (TargetRevision s = "") then RunningRevision s else TargetRevision s in
  if decide (rev = "") then false
  else
    match FindRetryBlock blocks rev with
    | None => false
    | Some b =>
        if decide (BState b = RetryBlockHeld ∨ BState b = RetryBlockBackoff) then true
        else if decide (BState b = RetryBlockRetryInProgress) then RemembersCrash s
        else false
    end.

Definition lowestScaleDownRank : Z := 8.

Definition scaleDownRank (s : InstanceStatus) (blocks : list RetryBlock) (onCordonedNode : bool) : Z :=
  if creatingWithNoOperation s then lowestScaleDownRank
  else
    let rank := 0 in
    let rank := if negb (keepsPreference s) then rank + 1 else rank in
    let rank := if rowOnFailingRevision s blocks then rank + 2 else rank in
    if onCordonedNode then rank + 4 else rank.

(** ** Pairs in flight *)

Definition existingInstanceIndices (instances : list InstanceStatus) : gset Z :=
  foldl (λ out s, {[Index s]} ∪ out) ∅ instances.

Definition migrationPinned (s : InstanceStatus) : bool :=
  bool_decide (Phase s = InstancePhaseMigrating) || hasOperation InstanceOperationMigrate s.

Definition migrationInFlightIndices (instances : list InstanceStatus) : gset Z :=
  foldl (λ out s, if migrationPinned s then {[Index s]} ∪ out else out) ∅ instances.

Definition migrationSourceIndices (instances : list InstanceStatus) : gset Z :=
  foldl (λ out s, if decide (Phase s = InstancePhaseMigrating) then {[Index s]} ∪ out else out) ∅ instances.

Definition gangSurgeTargetMarker (s : InstanceStatus) : bool :=
  match Operation s with
  | Some op => bool_decide (OType op = InstanceOperationUpdate)
               && (bool_decide (Step op = UpdateStepGangSurgeTarget)
                   || bool_decide (Step op = UpdateStepGangSurgeTargetCleanup))
  | None => false
  end.

(** The last row of an index stands for it. *)
Definition rowsByIndex (instances : list InstanceStatus) : gmap Z InstanceStatus :=
  foldl (λ m s, <[Index s := s]> m) ∅ instances.

Definition failedGangSurgeSources (instances : list InstanceStatus) : gset Z :=
  let byIndex := rowsByIndex instances in
  foldl (λ out s,
    match claimOf InstanceOperationUpdate s with
    | Some target =>
        if decide (Phase s = InstancePhaseFailed) then
          match byIndex !! target with
          | Some occupant => if gangSurgeTargetMarker occupant then {[Index s]} ∪ out else out
          | None => {[Index s]} ∪ out
          end
        else out
    | None => out
    end) ∅ instances.

Definition updateSurgeInFlightIndices (instances : list InstanceStatus) : gset Z :=
  let unpinned := failedGangSurgeSources instances in
  let '(out, referenced) :=
    foldl (λ '(out, referenced) s,
      if decide (Index s ∈ unpinned) then (out, referenced)
      else match claimOf InstanceOperationUpdate s with
           | Some target => ({[Index s]} ∪ out, {[target]} ∪ referenced)
           | None => (out, referenced)
           end) (∅, ∅) instances in
  foldl (λ out s, if decide (Index s ∈ (referenced : gset Z)) then {[Index s]} ∪ out else out) (out : gset Z) instances.

Definition updateSurgeSourceIndices (instances : list InstanceStatus) : gset Z :=
  let unpinned := failedGangSurgeSources instances in
  foldl (λ out s,
    if decide (Index s ∈ unpinned) then out
    else match claimOf InstanceOperationUpdate s with Some _ => {[Index s]} ∪ out | None => out end) ∅ instances.

(** One row of the loop over the rows, on [markerOf] and [sourceOf].  [None] is the panic
    of [*s.Operation.SurgeIndex] on a row without one: the row of another source may
    have put its index in [unpinned] when two rows record the same index. *)
Definition followRow (unpinned present : gset Z) (acc : option (gmap Z Z * gmap Z Z)) (s : InstanceStatus)
    : option (gmap Z Z * gmap Z Z) :=
  '(markerOf, sourceOf) ← acc;
  if decide (Index s ∉ unpinned) then Some (markerOf, sourceOf)
  else
    marker ← Operation s ≫= SurgeIndex;
    if decide (marker ∉ present) then Some (markerOf, sourceOf)
    else if decide (is_Some (sourceOf !! marker)) then Some (markerOf, sourceOf)
    else Some (<[Index s := marker]> markerOf, <[marker := Index s]> sourceOf).

(** [markerOf] and [sourceOf], or the panic. *)
Definition failedGangSurgeFollowers (instances : list InstanceStatus) : option (gmap Z Z * gmap Z Z) :=
  foldl (followRow (failedGangSurgeSources instances) (existingInstanceIndices instances)) (Some (∅, ∅)) instances.

(** ** Handing over *)

Definition migrationHandoffPromoted (source target : InstanceStatus) (targetReferences : Z) : bool :=
  match Operation source with
  | None => false
  | Some op =>
      bool_decide (targetReferences = 1) &&
      bool_decide (Phase source = InstancePhaseMigrating) && bool_decide (RunningRevision source ≠ "") &&
      bool_decide (TargetRevision source = "") && bool_decide (OType op = InstanceOperationMigrate) &&
      bool_decide (RequestUUID op ≠ "") && bool_decide (SurgeIndex op = Some (Index target)) &&
      bool_decide (Incarnation target = 1) && bool_decide (ActiveOrdinal target = 0) &&
      bool_decide (Phase target = InstancePhaseReady) &&
      bool_decide (RunningRevision target = RunningRevision source) &&
      bool_decide (TargetRevision target = "") && bool_decide (Operation target = None)
  end.

Definition updateHandoffPromoted (source target : InstanceStatus) (targetReferences : Z) : bool :=
  match Operation source with
  | None => false
  | Some op =>
      bool_decide (targetReferences = 1) &&
      bool_decide (Phase source = InstancePhaseUpdating) && bool_decide (RunningRevision source ≠ "") &&
      bool_decide (TargetRevision source ≠ "") && bool_decide (OType op = InstanceOperationUpdate) &&
      bool_decide (Step op = UpdateStepSurgeDrain) && bool_decide (SurgeIndex op = Some (Index target)) &&
      bool_decide (OTargetRevision op = TargetRevision source) &&
      bool_decide (Incarnation target = 1) && bool_decide (ActiveOrdinal target = 0) &&
      bool_decide (Phase target = InstancePhaseReady) &&
      bool_decide (RunningRevision target = TargetRevision source) &&
      bool_decide (TargetRevision target = "") && bool_decide (Operation target = None)
  end.

Definition replacementPromoted (source target : InstanceStatus) (claims : Z) : bool :=
  if hasOperation InstanceOperationUpdate source then updateHandoffPromoted source target claims
  else migrationHandoffPromoted source target claims.

(** ** The selection *)

Record indexSelection := mkSelection {
  replicas : Z; existing : list Z; rows : gmap Z InstanceStatus; rank : gmap Z Z;
  pairMembers : gset Z; pairSources : gset Z; retiring : gset Z;
  failedTargetOf : gmap Z Z; failedSourceOf : gmap Z Z;
  chosen : list Z; picked : gset Z; charged : Z;
}.

Definition zless (a b : Z) : bool := bool_decide (a < b).

Definition claimsReplacement (s : InstanceStatus) : bool :=
  match Operation s with
  | None => false
  | Some op => bool_decide (is_Some (SurgeIndex op))
               && (bool_decide (OType op = InstanceOperationMigrate) || bool_decide (OType op = InstanceOperationUpdate))
  end.

(** [claimReplacements] on the pair members: the claims per index, and the
    members with the replacement of every source that has not failed. *)
Definition claimReplacements (instances : list InstanceStatus) (members : gset Z) : gmap Z Z * gset Z :=
  let failed := failedGangSurgeSources instances in
  foldl (λ '(claims, members) s,
    match claimsReplacement s, Operation s ≫= SurgeIndex with
    | true, Some target =>
        (<[target := default 0 ((claims : gmap Z Z) !! target) + 1]> claims,
         if decide (Index s ∉ failed) then {[target]} ∪ members else members)
    | _, _ => (claims, members)
    end) (∅, members) instances.

Definition rankRows (instances : list InstanceStatus) (blocks : list RetryBlock) (cordoned : gset Z)
    (targetOf : gmap Z Z) : gmap Z InstanceStatus * gmap Z Z :=
  foldl (λ '(rows, rank) s,
    let onCordonedNode := bool_decide (Index s ∈ cordoned) in
    let onCordonedNode :=
      match (targetOf : gmap Z Z) !! Index s with
      | Some target => if decide (target ∈ cordoned) then true else onCordonedNode
      | None => onCordonedNode
      end in
    (<[Index s := s]> rows, <[Index s := scaleDownRank s blocks onCordonedNode]> rank)) (∅, ∅) instances.

(** [releasePromotedSources]: members, sources and retiring rows. *)
Definition releasePromotedSources (instances : list InstanceStatus) (rows : gmap Z InstanceStatus)
    (claims : gmap Z Z) (members sources : gset Z) : gset Z * gset Z * gset Z :=
  foldl (λ '(members, sources, retiring) s,
    match Operation s ≫= SurgeIndex with
    | None => (members, sources, retiring)
    | Some target =>
        match rows !! target with
        | Some row =>
            if replacementPromoted s row (default 0 (claims !! target))
            then (members ∖ {[Index s]} ∖ {[target]}, sources ∖ {[Index s]}, {[Index s]} ∪ retiring)
            else (members, sources, retiring)
        | None => (members, sources, retiring)
        end
    end) (members, sources, ∅ : gset Z) instances.

(** The selection read from the rows, once [failedGangSurgeFollowers] has answered. *)
Definition readSelection (instances : list InstanceStatus) (replicas : Z) (blocks : list RetryBlock)
    (cordoned : gset Z) (targetOf sourceOf : gmap Z Z) : indexSelection :=
  let used := existingInstanceIndices instances in
  let members := migrationInFlightIndices instances ∪ updateSurgeInFlightIndices instances in
  let sources := migrationSourceIndices instances ∪ updateSurgeSourceIndices instances in
  let '(claims, members) := claimReplacements instances members in
  let '(rows, rank) := rankRows instances blocks cordoned targetOf in
  let '(members, sources, retiring) := releasePromotedSources instances rows claims members sources in
  mkSelection replicas (sort_slice zless (elements used)) rows rank members sources retiring
    targetOf sourceOf [] ∅ 0.

Definition readIndexSelection (instances : list InstanceStatus) (replicas : Z) (blocks : list RetryBlock)
    (cordoned : gset Z) : option indexSelection :=
  '(targetOf, sourceOf) ← failedGangSurgeFollowers instances;
  Some (readSelection instances replicas blocks cordoned targetOf sourceOf).

(** ** Filling it *)

Definition choose (sel : indexSelection) (idx : Z) : indexSelection :=
  if decide (idx ∈ picked sel) then sel
  else mkSelection (replicas sel) (existing sel) (rows sel) (rank sel) (pairMembers sel) (pairSources sel)
         (retiring sel) (failedTargetOf sel) (failedSourceOf sel)
         (chosen sel ++ [idx]) ({[idx]} ∪ picked sel) (charged sel).

(** [sel.charged++]. *)
Definition charge (sel : indexSelection) : indexSelection :=
  mkSelection (replicas sel) (existing sel) (rows sel) (rank sel) (pairMembers sel) (pairSources sel)
    (retiring sel) (failedTargetOf sel) (failedSourceOf sel) (chosen sel) (picked sel) (i32 (charged sel + 1)).

Definition keepPair (sel : indexSelection) (idx : Z) : indexSelection :=
  if decide (idx ∈ pairMembers sel) then
    let sel := choose sel idx in
    if decide (idx ∈ pairSources sel) then charge sel else sel
  else sel.

Definition keepPairsInFlight (sel : indexSelection) : indexSelection := foldl keepPair sel (existing sel).

Definition fillsSlot (sel : indexSelection) (idx r : Z) : bool :=
  if decide (idx ∈ picked sel) then false
  else if decide (idx ∈ retiring sel) then false
  else if decide (is_Some (failedSourceOf sel !! idx)) then false
  else bool_decide (default 0 (rank sel !! idx) = r).

(** One round of the inner loop; the return of a full count is a round that
    changes nothing, as is every later one. *)
Definition fillRow (r : Z) (sel : indexSelection) (idx : Z) : indexSelection :=
  if decide (replicas sel ≤ charged sel) then sel
  else if fillsSlot sel idx r then
    let sel := charge (choose sel idx) in
    match failedTargetOf sel !! idx with Some target => choose sel target | None => sel end
  else sel.

Definition ranks : list Z := [0; 1; 2; 3; 4; 5; 6; 7; 8].

Definition fillCountByRank (sel : indexSelection) : indexSelection :=
  foldl (λ sel r, foldl (fillRow r) sel (existing sel)) sel ranks.

(** [lowestUnusedIndex]: at most [len(used) + 1] candidates. *)
Fixpoint scanUnused (n : nat) (used : gset Z) (i last : Z) : Z :=
  match n with
  | O => last
  | S n => if decide (i ∉ used) then i else scanUnused n used (i32 (i + 1)) last
  end.

Definition lowestUnusedIndex (used : gset Z) (from : Z) : Z :=
  let last := i32 (from + i32 (Z.of_nat (size used))) in
  scanUnused (Z.to_nat (last - from + 1)) used from last.

(** The loop runs once per missing replica. *)
Fixpoint addLoop (n : nat) (replicas : Z) (taken : gset Z) (slot : Z) (chosen : list Z) (charged : Z) : list Z :=
  match n with
  | O => chosen
  | S n =>
      if decide (charged < replicas) then
        let slot := lowestUnusedIndex taken slot in
        addLoop n replicas ({[slot]} ∪ taken) slot (chosen ++ [slot]) (i32 (charged + 1))
      else chosen
  end.

Definition addNewIndexes (sel : indexSelection) : list Z :=
  addLoop (Z.to_nat (replicas sel - charged sel)) (replicas sel) (list_to_set (existing sel)) 0
    (chosen sel) (charged sel).

(** The plan, or the panic of its reading. *)
Definition instancePlanIndices (instances : list InstanceStatus) (replicas : Z) (blocks : list RetryBlock)
    (cordoned : gset Z) : option (list Z) :=
  sel ← readIndexSelection instances replicas blocks cordoned;
  let sel := keepPairsInFlight sel in
  let sel := fillCountByRank sel in
  Some (sort_slice zless (addNewIndexes sel)).

(** ** The surge index allocator *)

Record SurgeIndexAllocator := mkAllocator { arows : list InstanceStatus; taken : option (gset Z); from : Z }.

Definition NewSurgeIndexAllocator (rows : list InstanceStatus) : SurgeIndexAllocator := mkAllocator rows None 0.

Definition takenBy (rows : list InstanceStatus) : gset Z :=
  foldl (λ taken s,
    let taken := {[Index s]} ∪ taken in
    match Operation s ≫= SurgeIndex with Some idx => {[idx]} ∪ taken | None => taken end) ∅ rows.

(** [read]: the set once it is read. *)
Definition read (a : SurgeIndexAllocator) : gset Z :=
  match taken a with Some t => t | None => takenBy (arows a) end.

(** [Next]'s unbounded scan ends because the set is finite; the fuel is one more
    than its size. *)
Fixpoint scanFrom (n : nat) (taken : gset Z) (i : Z) : option Z :=
  match n with
  | O => None
  | S n => if decide (i ∉ taken) then Some i else scanFrom n taken (i32 (i + 1))
  end.

Definition Next (a : SurgeIndexAllocator) : option (Z * SurgeIndexAllocator) :=
  let taken := read a in
  (λ i, (i, mkAllocator (arows a) (Some taken) i)) <$> scanFrom (S (size taken)) taken (from a).

Definition Claim (a : SurgeIndexAllocator) (idx : Z) : SurgeIndexAllocator :=
  mkAllocator (arows a) (Some ({[idx]} ∪ read a)) (from a).

Definition AllocateSurgeIndex (instances : list InstanceStatus) : option Z :=
  fst <$> Next (NewSurgeIndexAllocator instances).

(** ** Examples *)

Definition readyRow (i : Z) : InstanceStatus := mkStatus i 1 InstancePhaseReady "r1" "" 1 1 None 0 None None.
Definition idleRow (i : Z) : InstanceStatus := mkStatus i 1 InstancePhaseCreating "" "r1" 0 0 None 0 None None.
Definition movingRow (i target : Z) : InstanceStatus :=
  mkStatus i 1 InstancePhaseMigrating "r1" "" 1 1 (Some (mkOperation InstanceOperationMigrate "" (Some target) "u" "")) 0 None None.

Example plan_scale_down :
  instancePlanIndices [readyRow 0; idleRow 1; readyRow 2; readyRow 3] 2 [] {[0]} = Some [2; 3].
Proof. vm_compute. reflexivity. Qed.

Example plan_migration :
  instancePlanIndices [movingRow 0 2; idleRow 2; readyRow 1] 1 [] ∅ = Some [0; 2].
Proof. vm_compute. reflexivity. Qed.

Example plan_scale_up :
  instancePlanIndices [readyRow 1; readyRow 4] 4 [] ∅ = Some [0; 1; 2; 4].
Proof. vm_compute. reflexivity. Qed.

Example plan_handed_over :
  instancePlanIndices [movingRow 0 2; readyRow 2; readyRow 1] 2 [] ∅ = Some [1; 2].
Proof. vm_compute. reflexivity. Qed.

(** Two rows of one index, the first a failed gang source: the second is dereferenced. *)
Example plan_duplicate_panics :
  let failed := mkStatus 0 1 InstancePhaseFailed "r1" "r2" 1 1
    (Some (mkOperation InstanceOperationUpdate UpdateStepSurge (Some 5) "u" "r2")) 0 None None in
  instancePlanIndices [failed; readyRow 0] 1 [] ∅ = None.
Proof. vm_compute. reflexivity. Qed.
