(* ===== verification/PlanFacts.v ===== *)
(** * What the instance plan keeps

    The rows a selection reads, what each of its three steps leaves behind, and
    the plan they compose: the pairs in flight, the steady rows by rank up to the
    replica count, and the lowest unused indexes for what is missing. *)

From Stdlib Require Import Sorting.Sorted.
From S2P Require Import Prelude PlanIndices.
Local Open Scope Z_scope.

#[export] Instance zless_total : StrictTotal zless.
Proof. split; [split|]; unfold zless; intros *; rewrite ?bool_decide_eq_false, ?bool_decide_eq_true; lia. Qed.

Lemma zless_lt a b : zless a b = true ↔ a < b.
Proof. unfold zless. by rewrite bool_decide_eq_true. Qed.

(** ** The abstract plan *)

(** The rows of pairs in flight, the rows that may fill the count, those rows in
    the order of their rank, the count the pairs leave, and what fills it. *)
Definition keptPairs (sel : indexSelection) : list Z := filter (λ i, i ∈ pairMembers sel) (existing sel).
Definition steadyRow (sel : indexSelection) (i : Z) : Prop :=
  (i ∉ pairMembers sel) ∧ (i ∉ retiring sel) ∧ failedSourceOf sel !! i = None.
#[export] Instance steadyRow_dec sel i : Decision (steadyRow sel i).
Proof. unfold steadyRow. apply _. Defined.
Definition rowRank (sel : indexSelection) (i : Z) : Z := default 0 (rank sel !! i).
Definition byRank (sel : indexSelection) : list Z :=
  ranks ≫= λ r, filter (λ i, steadyRow sel i ∧ rowRank sel i = r) (existing sel).
Definition chargedPairs (sel : indexSelection) : Z :=
  Z.of_nat (length (filter (λ i, i ∈ pairSources sel) (keptPairs sel))).
Definition filled (sel : indexSelection) : list Z :=
  take (Z.to_nat (replicas sel - chargedPairs sel)) (byRank sel).
Definition followers (sel : indexSelection) : list Z := omap (λ i, failedTargetOf sel !! i) (filled sel).

(** The [n] lowest indexes that are not in use. *)
Definition lowestUnused (n : nat) (used : gset Z) : list Z :=
  take n (filter (λ i, i ∉ used) (seqZ 0 (Z.of_nat (n + size used)))).
Definition freshIndexes (sel : indexSelection) : list Z :=
  lowestUnused (Z.to_nat (replicas sel - chargedPairs sel - Z.of_nat (length (filled sel))))
    (list_to_set (existing sel)).

(** ** Sets read from the rows *)

(** A loop that collects a subset of the indexes. *)
Lemma foldl_collect {A} (P : A → bool) (f : A → Z) (l : list A) (out : gset Z) i :
  i ∈ foldl (λ out s, if P s then {[f s]} ∪ out else out) out l ↔ i ∈ out ∨ ∃ s, s ∈ l ∧ P s = true ∧ f s = i.
Proof.
  revert out. induction l as [|x l IH]; intros out; cbn [foldl].
  { split; [by left|]. intros [?|(s & Hs%elem_of_nil & _)]; done. }
  rewrite IH. destruct (P x) eqn:E; [rewrite elem_of_union, elem_of_singleton|]; split.
  - intros [[->|?]|(s & Hs & ?)]; [right; exists x; split; [left|done]|by left|].
    right. exists s. split; [by right|done].
  - intros [?|(s & [->|Hs]%elem_of_cons & ? & <-)]; [by left; right|by left; left|right; eauto].
  - intros [?|(s & Hs & ?)]; [by left|]. right. exists s. split; [by right|done].
  - intros [?|(s & [->|Hs]%elem_of_cons & ? & <-)]; [by left|congruence|right; eauto].
Qed.

Lemma elem_of_existing instances i : i ∈ existingInstanceIndices instances ↔ i ∈ Index <$> instances.
Proof.
  unfold existingInstanceIndices. rewrite (foldl_collect (λ _, true) Index), list_elem_of_fmap.
  split; [intros [?%elem_of_empty|(s & ? & _ & <-)]; [done|eauto]|intros (s & -> & ?); right; eauto].
Qed.

Lemma existing_size instances : (size (existingInstanceIndices instances) ≤ length instances)%nat.
Proof.
  assert (existingInstanceIndices instances = list_to_set (Index <$> instances)) as ->.
  { apply set_eq. intros i. by rewrite elem_of_existing, elem_of_list_to_set. }
  rewrite <-(length_fmap Index). generalize (Index <$> instances). intros l.
  induction l as [|x l IH]; cbn; [by rewrite size_empty|].
  pose proof (size_union_alt (C:=gset Z) {[x]} (list_to_set l)) as E.
  pose proof (subseteq_size (C:=gset Z) (list_to_set l ∖ {[x]}) (list_to_set l) ltac:(set_solver)).
  rewrite size_singleton in E. lia.
Qed.

(** ** The steps of a selection *)

(** A selection with what its steps have chosen. *)
Definition withChosen (sel : indexSelection) (l : list Z) (c : Z) : indexSelection :=
  mkSelection (replicas sel) (existing sel) (rows sel) (rank sel) (pairMembers sel) (pairSources sel)
    (retiring sel) (failedTargetOf sel) (failedSourceOf sel) l (list_to_set l) c.

Lemma choose_new sel l c i : (i ∉ l) → choose (withChosen sel l c) i = withChosen sel (l ++ [i]) c.
Proof.
  intros Hi. unfold choose. cbn. rewrite decide_False by (by rewrite elem_of_list_to_set).
  unfold withChosen. f_equal. apply set_eq. set_solver.
Qed.

Lemma choose_old sel l c i : i ∈ l → choose (withChosen sel l c) i = withChosen sel l c.
Proof. intros Hi. unfold choose. cbn. by rewrite decide_True by (by rewrite elem_of_list_to_set). Qed.

Lemma charge_chosen sel l c : charge (withChosen sel l c) = withChosen sel l (i32 (c + 1)).
Proof. done. Qed.

Lemma keepPair_loop sel ixs l c :
  NoDup (l ++ ixs) → 0 ≤ c → c + Z.of_nat (length ixs) ≤ MaxInt32 →
  let members := filter (λ i, i ∈ pairMembers sel) ixs in
  foldl keepPair (withChosen sel l c) ixs =
    withChosen sel (l ++ members) (c + Z.of_nat (length (filter (λ i, i ∈ pairSources sel) members))).
Proof.
  cbv zeta. revert l c. induction ixs as [|i ixs IH]; intros l c Hnd Hc Hb.
  { cbn. by rewrite (right_id_L [] (++)), Z.add_0_r. }
  cbn [length] in Hb. assert (i ∉ l) as Hi.
  { apply NoDup_app in Hnd as (_ & H & _). intros Hl. apply (H _ Hl). left. }
  assert (NoDup (l ++ ixs)).
  { eapply sublist_NoDup; [exact Hnd|]. apply sublist_app; [done|by apply sublist_cons]. }
  cbn [foldl]. unfold keepPair at 2. cbn [pairMembers withChosen].
  destruct (decide (i ∈ pairMembers sel)) as [Hm|Hm].
  - rewrite filter_cons_True, choose_new by done. cbn [pairSources withChosen].
    assert (NoDup ((l ++ [i]) ++ ixs)) by (by rewrite <-(assoc_L (++))).
    destruct (decide (i ∈ pairSources sel)) as [Hs|Hs].
    + rewrite charge_chosen. unwrap. rewrite IH, <-(assoc_L (++)) by (done || lia). cbn [app].
      rewrite filter_cons_True by done. f_equal. cbn [length]. lia.
    + rewrite IH, <-(assoc_L (++)) by (done || lia). cbn [app]. by rewrite filter_cons_False by done.
  - rewrite filter_cons_False by done. apply IH; [done|lia|lia].
Qed.

Section steps.
Context (sel : indexSelection).
Hypothesis Hnd : NoDup (existing sel).
Hypothesis Hfollow : ∀ s t, failedTargetOf sel !! s = Some t → is_Some (failedSourceOf sel !! t) ∧ t ∈ existing sel.
Hypothesis Hbound : Z.of_nat (length (existing sel)) + replicas sel < 2 ^ 30.
Hypothesis Hlen : Z.of_nat (length (existing sel)) < 2 ^ 30.

Lemma chargedPairs_bound : 0 ≤ chargedPairs sel ≤ Z.of_nat (length (existing sel)).
Proof.
  unfold chargedPairs, keptPairs. split; [lia|]. apply inj_le.
  etrans; apply length_filter.
Qed.

Lemma keepPairsInFlight_chosen :
  keepPairsInFlight (withChosen sel [] 0) = withChosen sel (keptPairs sel) (chargedPairs sel).
Proof using Hnd Hlen.
  unfold keepPairsInFlight. cbn [existing withChosen]. rewrite keepPair_loop; [done|done|done|].
  lia.
Qed.

(** The rounds of the two nested loops, and the rows they may fill a slot with. *)
Definition rounds : list (Z * Z) := ranks ≫= λ r, pair r <$> existing sel.
Definition slotRows (done : list (Z * Z)) : list Z :=
  snd <$> filter (λ x, steadyRow sel x.2 ∧ rowRank sel x.2 = x.1) done.
Definition room : nat := Z.to_nat (replicas sel - chargedPairs sel).

Lemma slotRows_rounds : slotRows rounds = byRank sel.
Proof.
  unfold slotRows, rounds, byRank. induction ranks as [|r rs IH]; [done|].
  rewrite !bind_cons, filter_app, fmap_app, IH. f_equal. clear IH.
  generalize (existing sel). intros l. induction l as [|i l IH]; [done|]. rewrite fmap_cons.
  destruct (decide (steadyRow sel i ∧ rowRank sel i = r)).
  - rewrite !filter_cons_True by done. rewrite fmap_cons. by rewrite IH.
  - rewrite !filter_cons_False by done. by rewrite IH.
Qed.

Lemma slots_snoc done x :
  slotRows (done ++ [x]) = slotRows done ++ (if decide (steadyRow sel x.2 ∧ rowRank sel x.2 = x.1) then [x.2] else []).
Proof. unfold slotRows. rewrite filter_app, fmap_app. f_equal.
  destruct (decide _); [by rewrite filter_cons_True|by rewrite filter_cons_False]. Qed.

(** What the rounds done so far have chosen. *)
Definition Filling (done : list (Z * Z)) (s : indexSelection) : Prop :=
  ∃ l, s = withChosen sel l (chargedPairs sel + Z.of_nat (length (take room (slotRows done)))) ∧ NoDup l ∧
       ∀ i, i ∈ l ↔ i ∈ keptPairs sel ∨ i ∈ take room (slotRows done)
                    ∨ ∃ s, s ∈ take room (slotRows done) ∧ failedTargetOf sel !! s = Some i.

Lemma keptPairs_NoDup : NoDup (keptPairs sel).
Proof using Hnd. by apply NoDup_filter. Qed.

Lemma elem_of_slots done i : i ∈ slotRows done ↔ steadyRow sel i ∧ (rowRank sel i, i) ∈ done.
Proof.
  unfold slotRows. rewrite list_elem_of_fmap. split.
  - intros ([r j] & -> & ([? Hr] & ?)%list_elem_of_filter). cbn in *. by subst.
  - intros [??]. exists (rowRank sel i, i). split; [done|]. by apply list_elem_of_filter.
Qed.

(** A round that adds no slot leaves the slotRows alone. *)
Lemma slots_skip done x : ¬ (steadyRow sel x.2 ∧ rowRank sel x.2 = x.1) → slotRows (done ++ [x]) = slotRows done.
Proof. intros Hx. rewrite slots_snoc, decide_False by done. by rewrite (right_id_L [] (++)). Qed.

Lemma fillsSlot_iff done l c r i :
  (∀ i, i ∈ l ↔ i ∈ keptPairs sel ∨ i ∈ take room (slotRows done)
                ∨ ∃ s, s ∈ take room (slotRows done) ∧ failedTargetOf sel !! s = Some i) →
  i ∈ existing sel → ((r, i) ∉ done) →
  fillsSlot (withChosen sel l c) i r = bool_decide (steadyRow sel i ∧ rowRank sel i = r)
  ∧ (steadyRow sel i → rowRank sel i = r → i ∉ l).
Proof using Hfollow.
  intros Hl Hi Hr.
  assert (steadyRow sel i → rowRank sel i = r → i ∉ l) as Hnew.
  { intros (Hm & _ & Hs) Hrank [Hk|[Hf|(s & _ & Hf)]]%Hl.
    - apply list_elem_of_filter in Hk as [? _]. done.
    - apply elem_of_take_in, elem_of_slots in Hf as [_ Hf]. by subst.
    - destruct (Hfollow _ _ Hf) as [[? E] _]. congruence. }
  split; [|done]. unfold fillsSlot. cbn [picked retiring failedSourceOf rank withChosen].
  fold (rowRank sel i). destruct (decide (i ∈ pairMembers sel)) as [Hm|Hm].
  { rewrite decide_True.
    - symmetry. apply bool_decide_eq_false. by intros [[? _] _].
    - apply elem_of_list_to_set, Hl. left. by apply list_elem_of_filter. }
  destruct (decide (i ∈ list_to_set l)) as [Hin|Hin].
  { symmetry. apply bool_decide_eq_false. intros [??]. apply elem_of_list_to_set in Hin. by apply Hnew. }
  destruct (decide (i ∈ retiring sel)) as [?|Hret].
  { symmetry. apply bool_decide_eq_false. by intros [(_ & ? & _) _]. }
  destruct (decide (is_Some (failedSourceOf sel !! i))) as [[? E]|Hs%eq_None_not_Some].
  { symmetry. apply bool_decide_eq_false. intros [(_ & _ & ?) _]. congruence. }
  apply bool_decide_ext. unfold steadyRow. tauto.
Qed.

Lemma fillRow_step done s r i :
  i ∈ existing sel → ((r, i) ∉ done) → Filling done s → Filling (done ++ [(r, i)]) (fillRow r s i).
Proof using Hnd Hfollow Hbound Hlen.
  intros Hi Hr (l & -> & Hndl & Hl). pose proof chargedPairs_bound.
  destruct (fillsSlot_iff done l (chargedPairs sel + Z.of_nat (length (take room (slotRows done)))) r i Hl Hi Hr)
    as [Hslot Hnew].
  unfold fillRow. cbn [replicas charged withChosen]. destruct (decide _) as [Hfull|Hfull].
  { assert (take room (slotRows (done ++ [(r, i)])) = take room (slotRows done)) as E.
    { rewrite slots_snoc, take_app_le; [done|]. rewrite length_take in Hfull. unfold room in *. lia. }
    exists l. by rewrite E. }
  rewrite Hslot. case_bool_decide as Hst.
  2:{ exists l. by rewrite slots_skip. }
  destruct Hst as [Hst Hrank]. specialize (Hnew Hst Hrank).
  assert (take room (slotRows (done ++ [(r, i)])) = take room (slotRows done) ++ [i]) as E.
  { rewrite slots_snoc, decide_True by done. cbn [fst snd]. rewrite length_take in Hfull.
    rewrite !take_ge; [done|unfold room in *; lia|]. rewrite length_app. cbn [length]. unfold room in *; lia. }
  unfold Filling. rewrite E, length_app. cbn [length].
  rewrite choose_new, charge_chosen by done. cbn [failedTargetOf withChosen].
  rewrite length_take in Hfull |- *. unwrap.
  replace (_ + 1) with (chargedPairs sel + Z.of_nat (room `min` length (slotRows done) + 1)) by lia.
  assert (NoDup (l ++ [i])) as Hnd'.
  { apply NoDup_app. split; [done|]. split; [|apply NoDup_singleton]. set_solver. }
  destruct (failedTargetOf sel !! i) as [t|] eqn:Ht.
  - destruct (decide (t ∈ l ++ [i])) as [Hin|Hin].
    + rewrite choose_old by done. eexists. split; [done|]. split; [done|]. set_solver.
    + rewrite choose_new by done. eexists. split; [done|]. split.
      * apply NoDup_app. split; [done|]. split; [|apply NoDup_singleton]. set_solver.
      * set_solver.
  - eexists. split; [done|]. split; [done|]. set_solver.
Qed.

Lemma fillRow_loop r l done s :
  (∀ i, i ∈ l → i ∈ existing sel) → NoDup l → (∀ i, i ∈ l → (r, i) ∉ done) → Filling done s →
  Filling (done ++ (pair r <$> l)) (foldl (fillRow r) s l).
Proof using Hnd Hfollow Hbound Hlen.
  revert done s. induction l as [|i l IH]; intros done s Hl Hndl Hd Hs; cbn [foldl].
  { by rewrite fmap_nil, (right_id_L [] (++)). }
  apply NoDup_cons in Hndl as [Hil Hndl]. rewrite fmap_cons, cons_middle, (assoc_L (++)). apply IH.
  - set_solver.
  - done.
  - intros j Hj [?|Hin]%elem_of_app; [by apply (Hd j); [right|]|].
    apply list_elem_of_singleton in Hin. by simplify_eq.
  - apply fillRow_step; [apply Hl; left|apply Hd; left|done].
Qed.

Lemma Filling_existing done s : Filling done s → existing s = existing sel.
Proof. by intros (l & -> & _). Qed.

Lemma fillRank_loop rs done s :
  NoDup rs → (∀ r i, r ∈ rs → (r, i) ∉ done) → Filling done s →
  Filling (done ++ (rs ≫= λ r, pair r <$> existing sel)) (foldl (λ s r, foldl (fillRow r) s (existing s)) s rs).
Proof using Hnd Hfollow Hbound Hlen.
  revert done s. induction rs as [|r rs IH]; intros done s Hrs Hd Hs; cbn [foldl].
  { change ([] ≫= _) with (@nil (Z * Z)). by rewrite (right_id_L [] (++)). }
  apply NoDup_cons in Hrs as [Hr Hrs]. rewrite bind_cons, (assoc_L (++)). apply IH; [done| |].
  - intros r' i Hr' [?|Hin]%elem_of_app; [by apply (Hd r' i); [right|]|].
    apply list_elem_of_fmap in Hin as (j & Hin & _). by simplify_eq.
  - rewrite (Filling_existing _ _ Hs). apply fillRow_loop; [done|done| |done].
    intros i _. apply Hd. left.
Qed.

Lemma fillCountByRank_chosen :
  ∃ l, fillCountByRank (withChosen sel (keptPairs sel) (chargedPairs sel))
       = withChosen sel l (chargedPairs sel + Z.of_nat (length (filled sel)))
       ∧ NoDup l ∧ ∀ i, i ∈ l ↔ i ∈ keptPairs sel ∨ i ∈ filled sel ∨ i ∈ followers sel.
Proof using Hnd Hfollow Hbound Hlen.
  assert (Filling rounds (fillCountByRank (withChosen sel (keptPairs sel) (chargedPairs sel)))) as (l & -> & Hl & Hin).
  { unfold fillCountByRank. apply (fillRank_loop ranks []).
    - by apply (bool_decide_unpack _).
    - intros r i _. apply not_elem_of_nil.
    - exists (keptPairs sel). unfold slotRows. rewrite filter_nil, fmap_nil, take_nil, Z.add_0_r.
      split; [done|]. split; [apply keptPairs_NoDup|]. set_solver. }
  exists l. rewrite slotRows_rounds in *. split; [done|]. split; [done|]. intros i. rewrite Hin.
  unfold followers. rewrite list_elem_of_omap. done.
Qed.
End steps.

(** ** Unused indexes *)

Lemma scanUnused_spec n (used : gset Z) i last k :
  int32_range k → i ≤ k → (∀ j, i ≤ j < k → j ∈ used) → (k ∉ used) → int32_range i →
  (Z.to_nat (k - i) < n)%nat → scanUnused n used i last = k.
Proof.
  revert i. induction n as [|n IH]; intros i Hk1 Hik Hall Hk Hi Hn; [lia|]. cbn [scanUnused].
  destruct (decide (i ∉ used)) as [Hu|Hu].
  - destruct (decide (i = k)) as [|Hne]; [done|]. exfalso. apply Hu, Hall. lia.
  - apply dec_stable in Hu. assert (i ≠ k) by congruence.
    unfold int32_range in *. unwrap. apply IH; [done|lia| |done|lia|lia].
    intros j Hj. apply Hall. lia.
Qed.

(** A run of taken indexes is no longer than the set. *)
Lemma run_size (used : gset Z) a b : (∀ j, a ≤ j < b → j ∈ used) → b - a ≤ Z.of_nat (size used).
Proof.
  intros Hall. destruct (decide (a ≤ b)); [|lia].
  pose proof (subseteq_size (list_to_set (seqZ a (b - a)) : gset Z) used) as H.
  rewrite size_list_to_set, length_seqZ in H by apply NoDup_seqZ. specialize (H ltac:(
    intros j; rewrite elem_of_list_to_set, elem_of_seqZ; intros ?; apply Hall; lia)). lia.
Qed.

Lemma lowestUnusedIndex_spec (used : gset Z) from k :
  from ≤ k → (∀ j, from ≤ j < k → j ∈ used) → (k ∉ used) → 0 ≤ from →
  from + Z.of_nat (size used) ≤ MaxInt32 → lowestUnusedIndex used from = k.
Proof.
  intros Hk Hall Hu H0 Hb. pose proof (run_size used from k Hall). unfold lowestUnusedIndex. unwrap.
  apply scanUnused_spec; unfold int32_range; try done; lia.
Qed.

(** The unused indexes of a range start with the lowest one. *)
Lemma unused_first (used : gset Z) n s k l :
  filter (λ i, i ∉ used) (seqZ s (Z.of_nat n)) = k :: l →
  s ≤ k ∧ (k ∉ used) ∧ (∀ j, s ≤ j < k → j ∈ used)
  ∧ l = filter (λ i, i ∉ used) (seqZ (k + 1) (Z.of_nat n - (k + 1 - s))).
Proof.
  revert s. induction n as [|n IH]; intros s; [done|].
  rewrite seqZ_cons, Nat2Z.inj_succ, Z.pred_succ by lia. destruct (decide (s ∉ used)) as [Hs|Hs].
  - rewrite filter_cons_True by done. intros [= <- <-]. split; [lia|]. split; [done|].
    split; [lia|]. f_equal. f_equal; lia.
  - rewrite filter_cons_False by done. apply dec_stable in Hs.
    intros (? & ? & Hall & ->)%IH. split; [lia|]. split; [done|]. split.
    + intros j Hj. destruct (decide (j = s)) as [->|]; [done|]. apply Hall. lia.
    + f_equal. f_equal; lia.
Qed.

(** There are [n] unused indexes among the first [n + size]. *)
Lemma unused_enough (used : gset Z) n s :
  (n ≤ length (filter (λ i, i ∉ used) (seqZ s (Z.of_nat (n + size used)))))%nat.
Proof.
  set (l := seqZ s (Z.of_nat (n + size used))).
  pose proof (Permutation_length (filter_app_complement (λ i, i ∈ used) l)) as E.
  assert (length (filter (λ i, i ∈ used) l) ≤ size used)%nat as Hin.
  { rewrite <-(size_list_to_set (C:=gset Z) (filter (λ i, i ∈ used) l))
      by apply NoDup_filter, NoDup_seqZ.
    apply subseteq_size. intros j. rewrite elem_of_list_to_set, list_elem_of_filter. by intros [? _]. }
  rewrite length_app in E. unfold l in E at 3. rewrite length_seqZ in E. lia.
Qed.

(** Once the lowest is taken, the search resumes at it. *)
Lemma unused_rest (used : gset Z) m s k l :
  filter (λ i, i ∉ used) (seqZ s (Z.of_nat m)) = k :: l →
  filter (λ i, i ∉ {[k]} ∪ used) (seqZ k (Z.of_nat (Z.to_nat (Z.of_nat m - (k - s))))) = l.
Proof.
  intros E. destruct (unused_first _ _ _ _ _ E) as (Hk & Hu & Hrun & ->).
  assert (k ∈ seqZ s (Z.of_nat m)) as [_ Hkm]%elem_of_seqZ.
  { eapply (list_elem_of_filter (λ i, i ∉ used)). rewrite E. left. }
  rewrite Z2Nat.id, seqZ_cons, filter_cons_False by (lia || set_solver).
  replace (Z.pred (Z.of_nat m - (k - s))) with (Z.of_nat m - (k + 1 - s)) by lia.
  apply filter_agree. intros j Hj%elem_of_seqZ. rewrite elem_of_union, elem_of_singleton.
  split; [tauto|]. intros Hj' [->|]; [lia|done].
Qed.

Lemma addLoop_spec n (m : nat) r (used : gset Z) slot l c :
  r - c = Z.of_nat n → 0 ≤ c → r ≤ MaxInt32 → 0 ≤ slot → (∀ j, 0 ≤ j < slot → j ∈ used) →
  2 * (Z.of_nat (size used) + Z.of_nat n) ≤ MaxInt32 →
  (n ≤ length (filter (λ i, i ∉ used) (seqZ slot (Z.of_nat m))))%nat →
  addLoop n r used slot l c = l ++ take n (filter (λ i, i ∉ used) (seqZ slot (Z.of_nat m))).
Proof.
  revert m used slot l c. induction n as [|n IH]; intros m used slot l c Hn Hc Hr H0 Hall Hb Hlen.
  { by rewrite take_0, (right_id_L [] (++)). }
  destruct (filter _ _) as [|k ks] eqn:E; [cbn in Hlen; lia|].
  destruct (unused_first _ _ _ _ _ E) as (Hk & Hu & Hrun & Hks).
  pose proof (run_size used 0 slot ltac:(done)). pose proof (run_size used slot k Hrun).
  cbn [addLoop]. rewrite decide_True by lia. rewrite (lowestUnusedIndex_spec used slot k) by (done || lia). unwrap.
  pose proof (unused_rest _ _ _ _ _ E) as Eks.
  rewrite (IH (Z.to_nat (Z.of_nat m - (k - slot)))).
  - by rewrite Eks, <-(assoc_L (++)).
  - lia.
  - lia.
  - done.
  - lia.
  - intros j Hj. apply elem_of_union. right. destruct (decide (j < slot)); [apply Hall|apply Hrun]; lia.
  - rewrite size_union, size_singleton by set_solver. lia.
  - rewrite Eks. cbn in Hlen. lia.
Qed.

Lemma addNewIndexes_chosen sel l :
  NoDup (existing sel) → Z.of_nat (length (existing sel)) + replicas sel < 2 ^ 30 →
  Z.of_nat (length (existing sel)) < 2 ^ 30 →
  addNewIndexes (withChosen sel l (chargedPairs sel + Z.of_nat (length (filled sel)))) = l ++ freshIndexes sel.
Proof.
  intros Hnd Hb Hlen. pose proof (chargedPairs_bound sel).
  unfold addNewIndexes, freshIndexes, lowestUnused. cbn [replicas existing chosen charged withChosen].
  rewrite Z.sub_add_distr. destruct (decide (replicas sel - chargedPairs sel - Z.of_nat (length (filled sel)) ≤ 0)).
  { rewrite Z2Nat.nonpos by done. by rewrite take_0, (right_id_L [] (++)). }
  assert (size (list_to_set (existing sel) : gset Z) = length (existing sel)) as Hsize by (by apply size_list_to_set).
  rewrite (addLoop_spec _ (Z.to_nat (replicas sel - chargedPairs sel - Z.of_nat (length (filled sel)))
                           + size (list_to_set (existing sel) : gset Z))); try lia; try done.
  apply unused_enough.
Qed.

(** ** What a selection reads *)

(** The rows the loop over followers dereferences carry what it reads. *)
Lemma followRow_some unpinned present acc s :
  is_Some acc → (Index s ∈ unpinned → is_Some (Operation s ≫= SurgeIndex)) → is_Some (followRow unpinned present acc s).
Proof.
  intros [[m k] ->] Hs. unfold followRow. cbn [mbind option_bind]. destruct (decide (Index s ∉ unpinned)) as [?|Hin%dec_stable]; [by eexists|].
  destruct (Hs Hin) as [t ->]. cbn [mbind option_bind]. repeat case_decide; by eexists.
Qed.

Lemma followers_read instances targetOf sourceOf s t :
  failedGangSurgeFollowers instances = Some (targetOf, sourceOf) → targetOf !! s = Some t →
  is_Some (sourceOf !! t) ∧ t ∈ existingInstanceIndices instances
  ∧ ∃ row, row ∈ instances ∧ Index row = s ∧ s ∈ failedGangSurgeSources instances
           ∧ Operation row ≫= SurgeIndex = Some t.
Proof.
  unfold failedGangSurgeFollowers. set (unpinned := failedGangSurgeSources instances).
  set (present := existingInstanceIndices instances).
  set (Q := λ o : option (gmap Z Z * gmap Z Z), ∀ mk, o = Some mk → ∀ s t, mk.1 !! s = Some t → is_Some (mk.2 !! t) ∧ t ∈ present
    ∧ ∃ row, row ∈ instances ∧ Index row = s ∧ s ∈ unpinned ∧ Operation row ≫= SurgeIndex = Some t).
  assert (Q (foldl (followRow unpinned present) (Some (∅, ∅)) instances)) as HQ.
  { apply (foldl_invariant Q).
    { intros mk [= <-] i j. cbn. by rewrite lookup_empty. }
    intros x [[markerOf sourceOf']|] Hl HQ; [|done]. specialize (HQ _ eq_refl).
    intros mk. unfold followRow. cbn [mbind option_bind].
    destruct (decide (Index x ∉ unpinned)) as [?|Hx%dec_stable]; [by intros [= <-]|].
    destruct (Operation x ≫= SurgeIndex) as [marker|] eqn:Em; cbn [mbind option_bind]; [|done].
    destruct (decide (marker ∉ present)) as [?|Hp%dec_stable]; [by intros [= <-]|].
    destruct (decide (is_Some (sourceOf' !! marker))) as [?|Hs]; [by intros [= <-]|].
    intros [= <-] i j. cbn. intros [[<- <-]|[Hne Hij]]%lookup_insert_Some.
    - rewrite lookup_insert_eq. split; [by eexists|]. split; [done|]. by exists x.
    - destruct (HQ _ _ Hij) as ([v Hv] & Hj & Hrow). split; [|done]. cbn in Hv.
      destruct (decide (j = marker)) as [->|]; [by rewrite lookup_insert_eq|by rewrite lookup_insert_ne]. }
  intros E Hs. by apply (HQ _ E).
Qed.

Section read.
Context (instances : list InstanceStatus) (n : Z) (blocks : list RetryBlock) (cordoned : gset Z).
Context (targetOf sourceOf : gmap Z Z).
Local Abbreviation sel := (readSelection instances n blocks cordoned targetOf sourceOf).

Definition readClaims : gmap Z Z * gset Z :=
  claimReplacements instances (migrationInFlightIndices instances ∪ updateSurgeInFlightIndices instances).
Definition readRows : gmap Z InstanceStatus * gmap Z Z := rankRows instances blocks cordoned targetOf.
Definition readPairs : gset Z * gset Z * gset Z :=
  releasePromotedSources instances readRows.1 readClaims.1 readClaims.2
    (migrationSourceIndices instances ∪ updateSurgeSourceIndices instances).

Lemma read_eta :
  sel = mkSelection n (sort_slice zless (elements (existingInstanceIndices instances))) readRows.1 readRows.2
          readPairs.1.1 readPairs.1.2 readPairs.2 targetOf sourceOf [] ∅ 0.
Proof.
  unfold readSelection, readPairs, readRows, readClaims.
  destruct (claimReplacements _ _) as [claims members]. cbn [fst snd].
  destruct (rankRows _ _ _ _) as [rows rank]. cbn [fst snd].
  by destruct (releasePromotedSources _ _ _ _ _) as [[??]?].
Qed.

Lemma read_withChosen : sel = withChosen sel [] 0.
Proof. by rewrite read_eta. Qed.

Lemma read_existing i : i ∈ existing sel ↔ i ∈ Index <$> instances.
Proof. rewrite read_eta. cbn [existing]. by rewrite elem_of_sort_slice, elem_of_elements, elem_of_existing. Qed.

Lemma read_existing_NoDup : NoDup (existing sel).
Proof. rewrite read_eta. cbn [existing]. apply NoDup_sort_slice, NoDup_elements. Qed.

Lemma read_existing_length : (length (existing sel) ≤ length instances)%nat.
Proof.
  rewrite read_eta. cbn [existing]. rewrite length_sort_slice, <-existing_size. done.
Qed.

Context (Hfollowers : failedGangSurgeFollowers instances = Some (targetOf, sourceOf)).

Lemma read_followers s t :
  failedTargetOf sel !! s = Some t → is_Some (failedSourceOf sel !! t) ∧ t ∈ existing sel.
Proof using Hfollowers.
  intros Hs. rewrite read_existing. rewrite read_eta in *. cbn [failedTargetOf failedSourceOf] in *.
  apply (followers_read _ _ _ _ _ Hfollowers) in Hs as (? & Ht & _). rewrite elem_of_existing in Ht. done.
Qed.

(** The chosen indexes before they are sorted. *)
Lemma plan_chosen :
  Z.of_nat (length instances) + Z.max 0 n < 2 ^ 30 →
  ∃ l, instancePlanIndices instances n blocks cordoned = Some (sort_slice zless (l ++ freshIndexes sel)) ∧ NoDup l ∧
       ∀ i, i ∈ l ↔ i ∈ keptPairs sel ∨ i ∈ filled sel ∨ i ∈ followers sel.
Proof using Hfollowers.
  intros Hb. pose proof read_existing_length. pose proof read_existing_NoDup as Hnd.
  assert (replicas sel = n) as Hn by (by rewrite read_eta).
  destruct (fillCountByRank_chosen sel Hnd read_followers ltac:(lia) ltac:(lia)) as (l & El & Hl & Hin).
  exists l. split; [|done]. unfold instancePlanIndices, readIndexSelection. rewrite Hfollowers. cbn [mbind option_bind].
  rewrite read_withChosen at 1. rewrite keepPairsInFlight_chosen by (done || lia).
  rewrite El, addNewIndexes_chosen by (done || lia). done.
Qed.
End read.

(** ** Ranks *)

Lemma scaleDownRank_bounds s blocks c : 0 ≤ scaleDownRank s blocks c ≤ 8.
Proof. unfold scaleDownRank, lowestScaleDownRank. repeat case_match; lia. Qed.

Lemma ranks_complete r : 0 ≤ r ≤ 8 → r ∈ ranks.
Proof.
  intros Hr. assert (r = 0 ∨ r = 1 ∨ r = 2 ∨ r = 3 ∨ r = 4 ∨ r = 5 ∨ r = 6 ∨ r = 7 ∨ r = 8) as H by lia.
  unfold ranks. set_solver.
Qed.

Lemma rankRows_bounds instances blocks cordoned targetOf i r :
  (rankRows instances blocks cordoned targetOf).2 !! i = Some r → 0 ≤ r ≤ 8.
Proof.
  unfold rankRows. revert i r.
  apply (foldl_invariant (λ rr : gmap Z InstanceStatus * gmap Z Z, ∀ i r, rr.2 !! i = Some r → 0 ≤ r ≤ 8)).
  { intros i r. cbn. by rewrite lookup_empty. }
  intros x [rows rank] _ HQ i r. cbn. intros [[_ <-]|[_ Hi]]%lookup_insert_Some; [|by eapply HQ].
  apply scaleDownRank_bounds.
Qed.

Lemma rankOf_bounds instances n blocks cordoned targetOf sourceOf i :
  0 ≤ rowRank (readSelection instances n blocks cordoned targetOf sourceOf) i ≤ 8.
Proof.
  unfold rowRank. rewrite read_eta. cbn [PlanIndices.rank].
  destruct (_ !! i) as [r|] eqn:E; cbn; [|lia]. by eapply rankRows_bounds.
Qed.

(** Rank first, then index. *)
Definition rankedBefore (sel : indexSelection) (i j : Z) : Prop :=
  rowRank sel i < rowRank sel j ∨ (rowRank sel i = rowRank sel j ∧ i < j).

Lemma byRank_elem sel i :
  i ∈ byRank sel ↔ steadyRow sel i ∧ rowRank sel i ∈ ranks ∧ i ∈ existing sel.
Proof.
  unfold byRank. rewrite list_elem_of_bind. split.
  - intros (r & ([? <-] & ?)%list_elem_of_filter & ?). done.
  - intros (? & ? & ?). exists (rowRank sel i). split; [by apply list_elem_of_filter|done].
Qed.

Lemma byRank_sorted sel :
  StronglySorted Z.lt (existing sel) → StronglySorted (rankedBefore sel) (byRank sel).
Proof.
  intros Hs. unfold byRank. assert (StronglySorted Z.lt ranks) as Hr by (repeat constructor; lia).
  induction Hr as [|r rs Hr IH Hlt]; [constructor|]. rewrite bind_cons. apply StronglySorted_app_2; [| done |].
  - eapply StronglySorted_impl_elem; [|by apply StronglySorted_filter, Hs].
    intros i j [[_ ?] _]%list_elem_of_filter [[_ ?] _]%list_elem_of_filter ?. right. split; [congruence|done].
  - intros i j [[_ <-] _]%list_elem_of_filter (r' & ([_ <-] & _)%list_elem_of_filter & Hin)%list_elem_of_bind.
    left. rewrite Forall_forall in Hlt. by apply Hlt.
Qed.

Lemma read_existing_sorted instances n blocks cordoned targetOf sourceOf :
  StronglySorted Z.lt (existing (readSelection instances n blocks cordoned targetOf sourceOf)).
Proof.
  rewrite read_eta. cbn [existing]. eapply StronglySorted_impl_elem; [|apply sorted_strict; [apply _|apply NoDup_elements]].
  intros i j _ _. by rewrite zless_lt.
Qed.
