(* ===== verification/PlanClaims.v ===== *)
(** * The instance plan, proved

    With one row per index a plan is always made, a sorted list; the pairs in flight
    stay and the sources handed over go; and the surge allocator hands out indexes
    nobody holds. *)

From Stdlib Require Import Sorting.Sorted.
From S2P Require Import Prelude PlanIndices PlanFacts.
Local Open Scope Z_scope.

(** ** The plan as a set *)

Section plan.
Context (instances : list InstanceStatus) (n : Z) (blocks : list RetryBlock) (cordoned : gset Z).
Context (targetOf sourceOf : gmap Z Z) (out : list Z).
Hypothesis Hbound : Z.of_nat (length instances) + Z.max 0 n < 2 ^ 30.
Hypothesis Hfollowers : failedGangSurgeFollowers instances = Some (targetOf, sourceOf).
Hypothesis Hout : instancePlanIndices instances n blocks cordoned = Some out.
Local Abbreviation sel := (readSelection instances n blocks cordoned targetOf sourceOf).

Lemma fresh_unused i : i ∈ freshIndexes sel → i ∉ existing sel.
Proof using.
  unfold freshIndexes, lowestUnused. intros [Hi _]%elem_of_take_in%list_elem_of_filter.
  by rewrite elem_of_list_to_set in Hi.
Qed.

Lemma fresh_NoDup : NoDup (freshIndexes sel).
Proof using. apply NoDup_take, NoDup_filter, NoDup_seqZ. Qed.

Lemma kept_existing i : i ∈ keptPairs sel ∨ i ∈ filled sel ∨ i ∈ followers sel → i ∈ existing sel.
Proof using Hfollowers.
  intros [Hi|[Hi|Hi]].
  - by apply list_elem_of_filter in Hi as [_ ?].
  - apply elem_of_take_in, byRank_elem in Hi. tauto.
  - apply list_elem_of_omap in Hi as (s & _ & Hs). by apply read_followers in Hs as [_ ?].
Qed.

Lemma plan_chosen_out :
  ∃ l, out = sort_slice zless (l ++ freshIndexes sel) ∧ NoDup l ∧
       ∀ i, i ∈ l ↔ i ∈ keptPairs sel ∨ i ∈ filled sel ∨ i ∈ followers sel.
Proof using Hbound Hfollowers Hout.
  destruct (plan_chosen instances n blocks cordoned _ _ Hfollowers Hbound) as (l & E & Hl).
  exists l. split; [|done]. rewrite Hout in E. by injection E.
Qed.

Lemma plan_elem i : i ∈ out ↔ i ∈ keptPairs sel ∨ i ∈ filled sel ∨ i ∈ followers sel ∨ i ∈ freshIndexes sel.
Proof using Hbound Hfollowers Hout.
  destruct plan_chosen_out as (l & -> & _ & Hl).
  rewrite elem_of_sort_slice, elem_of_app, Hl. tauto.
Qed.

Lemma plan_sorted : StronglySorted Z.lt out.
Proof using Hbound Hfollowers Hout.
  destruct plan_chosen_out as (l & -> & Hnd & Hl).
  eapply StronglySorted_impl_elem; [|apply sorted_strict; [apply _|]].
  - intros i j _ _. by rewrite zless_lt.
  - apply NoDup_app. split; [done|]. split; [|apply fresh_NoDup].
    intros i Hi%Hl%kept_existing Hf%fresh_unused. done.
Qed.

Lemma plan_elem_existing i : i ∈ existing sel → i ∈ out ↔ i ∈ keptPairs sel ∨ i ∈ filled sel ∨ i ∈ followers sel.
Proof using Hbound Hfollowers Hout. intros Hi. rewrite plan_elem. pose proof (fresh_unused i). tauto. Qed.

Lemma followers_source i : i ∈ followers sel → is_Some (failedSourceOf sel !! i).
Proof using Hfollowers. intros (s & _ & Hs)%list_elem_of_omap. by apply read_followers in Hs as [? _]. Qed.

(** A steady row is in the plan exactly when it filled a slot. *)
Lemma plan_steady i : steadyRow sel i → i ∈ existing sel → i ∈ out ↔ i ∈ filled sel.
Proof using Hbound Hfollowers Hout.
  intros (Hm & _ & Hs) Hi. rewrite plan_elem_existing by done. split; [|tauto].
  intros [[? _]%list_elem_of_filter|[?|[? E]%followers_source]]; [done|done|congruence].
Qed.

Lemma byRank_perm : byRank sel ≡ₚ filter (steadyRow sel) (existing sel).
Proof using.
  apply NoDup_Permutation.
  - eapply StronglySorted_NoDup; [|apply byRank_sorted, read_existing_sorted]. unfold rankedBefore. lia.
  - apply NoDup_filter, read_existing_NoDup.
  - intros i. rewrite byRank_elem, list_elem_of_filter.
    pose proof (ranks_complete _ (rankOf_bounds instances n blocks cordoned targetOf sourceOf i)). tauto.
Qed.

(** What the pairs charge, what the steady rows fill and what is new make the
    replica count. *)
Lemma plan_count :
  chargedPairs sel + Z.of_nat (length (filled sel)) + Z.of_nat (length (freshIndexes sel)) = Z.max n (chargedPairs sel).
Proof using.
  assert (replicas sel = n) as Hn by (by rewrite read_eta).
  unfold freshIndexes, lowestUnused. rewrite length_take.
  pose proof (unused_enough (list_to_set (existing sel))
    (Z.to_nat (replicas sel - chargedPairs sel - Z.of_nat (length (filled sel)))) 0).
  assert (length (filled sel) ≤ Z.to_nat (replicas sel - chargedPairs sel))%nat.
  { unfold filled. rewrite length_take. lia. }
  lia.
Qed.

Lemma fresh_full : freshIndexes sel ≠ [] → filled sel = byRank sel.
Proof using.
  intros Hne. assert (replicas sel = n) as Hn by (by rewrite read_eta).
  assert (length (filled sel) < Z.to_nat (replicas sel - chargedPairs sel))%nat as Hlt.
  { destruct (freshIndexes sel) eqn:E; [done|]. pose proof plan_count as H. rewrite E in H. cbn in H. lia. }
  unfold filled in *. rewrite length_take in Hlt. apply take_ge. lia.
Qed.
End plan.

(** ** Pairs in flight and pairs handed over *)

(** The rows that claim [t] as their replacement. *)
Definition claimants (instances : list InstanceStatus) (t : Z) : list InstanceStatus :=
  filter (λ s, claimsReplacement s = true ∧ Operation s ≫= SurgeIndex = Some t) instances.

(** The replacement of [s] is one of the rows and carries the proof [s] needs to retire. *)
Definition handedOver (instances : list InstanceStatus) (s : InstanceStatus) : Prop :=
  ∃ row, row ∈ instances ∧ Operation s ≫= SurgeIndex = Some (Index row)
         ∧ replacementPromoted s row (Z.of_nat (length (claimants instances (Index row)))) = true.

Lemma claimsReplacement_index s : claimsReplacement s = true → is_Some (Operation s ≫= SurgeIndex).
Proof.
  unfold claimsReplacement. destruct (Operation s) as [op|]; cbn; [|done].
  intros [H _]%andb_true_iff. by apply bool_decide_eq_true in H.
Qed.

Lemma claimReplacements_spec instances members :
  (∀ t, default 0 ((claimReplacements instances members).1 !! t) = Z.of_nat (length (claimants instances t))) ∧
  (∀ i, i ∈ (claimReplacements instances members).2 ↔
     i ∈ members ∨ ∃ s, s ∈ claimants instances i ∧ Index s ∉ failedGangSurgeSources instances).
Proof.
  unfold claimReplacements, claimants. set (failed := failedGangSurgeSources instances). clearbody failed.
  set (cl (l : list InstanceStatus) t := filter (λ s, claimsReplacement s = true ∧ Operation s ≫= SurgeIndex = Some t) l).
  apply (foldl_ind _ (λ pre (cm : gmap Z Z * gset Z),
    (∀ t, default 0 (cm.1 !! t) = Z.of_nat (length (cl pre t))) ∧
    (∀ i, i ∈ cm.2 ↔ i ∈ members ∨ ∃ s, s ∈ cl pre i ∧ Index s ∉ failed))).
  { split; [done|]. intros i. cbn. set_solver. }
  intros pre x _ [claims ms] _ [Hc Hm]. cbn [fst snd] in *.
  assert (∀ t, cl (pre ++ [x]) t = cl pre t ++ cl [x] t) as Eapp by (intros; apply filter_app).
  destruct (claimsReplacement x) eqn:Ex.
  - destruct (claimsReplacement_index x Ex) as [target Et]. rewrite Et.
    assert (∀ t, cl [x] t = if decide (t = target) then [x] else []) as Ecl.
    { intros t. unfold cl. destruct (decide (t = target)) as [->|]; [by rewrite filter_cons_True|].
      rewrite filter_cons_False; [done|]. intros [_ ?]. congruence. }
    split; intros t; cbn [fst snd]; rewrite Eapp, Ecl.
    + destruct (decide (t = target)) as [->|].
      * rewrite lookup_insert_eq, length_app, Nat2Z.inj_add, <-Hc. done.
      * rewrite lookup_insert_ne, (right_id_L [] (++)) by done. apply Hc.
    + destruct (decide (Index x ∉ failed)), (decide (t = target)) as [->|];
        rewrite ?(right_id_L [] (++)), ?elem_of_union, ?elem_of_singleton, Hm; set_solver.
  - assert (∀ t, cl [x] t = []) as Ecl.
    { intros t. unfold cl. rewrite filter_cons_False; [done|]. intros [? _]. congruence. }
    split; intros t; cbn [fst snd]; rewrite Eapp, Ecl, (right_id_L [] (++)); auto.
Qed.

Lemma rankRows_rows instances blocks cordoned targetOf i s :
  (rankRows instances blocks cordoned targetOf).1 !! i = Some s → s ∈ instances ∧ Index s = i.
Proof.
  unfold rankRows. revert i s.
  apply (foldl_invariant (λ rr : gmap Z InstanceStatus * gmap Z Z, ∀ i s, rr.1 !! i = Some s → s ∈ instances ∧ Index s = i)).
  { intros i s. cbn. by rewrite lookup_empty. }
  intros x [rows rank] Hx HQ i r. cbn. intros [[<- <-]|[_ Hi]]%lookup_insert_Some; [done|by apply HQ].
Qed.

Lemma rankRows_row instances blocks cordoned targetOf s :
  NoDup (Index <$> instances) → s ∈ instances →
  (rankRows instances blocks cordoned targetOf).1 !! Index s = Some s.
Proof.
  intros Hnd. revert s. unfold rankRows.
  apply (foldl_ind _ (λ pre (rr : gmap Z InstanceStatus * gmap Z Z), ∀ s, s ∈ pre → rr.1 !! Index s = Some s)).
  { intros s Hs. by apply elem_of_nil in Hs. }
  intros pre x post [rows rank] -> HQ s [Hs| ->%list_elem_of_singleton]%elem_of_app; cbn; [|by rewrite lookup_insert_eq].
  rewrite lookup_insert_ne; [by apply HQ|]. intros E.
  rewrite fmap_app, fmap_cons in Hnd. apply NoDup_app in Hnd as (_ & H & _). apply (H (Index s)).
  - apply list_elem_of_fmap. eauto.
  - rewrite <-E. left.
Qed.

(** The sources the pass releases, with the replacement of each. *)
Definition releases (rows : gmap Z InstanceStatus) (claims : gmap Z Z) (s : InstanceStatus) : option Z :=
  target ← Operation s ≫= SurgeIndex; row ← rows !! target;
  if replacementPromoted s row (default 0 (claims !! target)) then Some target else None.

Lemma releasePromotedSources_spec instances rows claims members sources :
  let '(members', sources', retiring') := releasePromotedSources instances rows claims members sources in
  (∀ i, i ∈ members' ↔ i ∈ members ∧ ∀ s t, s ∈ instances → releases rows claims s = Some t → i ≠ Index s ∧ i ≠ t) ∧
  (∀ i, i ∈ retiring' ↔ ∃ s t, s ∈ instances ∧ releases rows claims s = Some t ∧ Index s = i).
Proof.
  unfold releasePromotedSources.
  apply (foldl_ind _ (λ pre (st : gset Z * gset Z * gset Z), let '(members', sources', retiring') := st in
    (∀ i, i ∈ members' ↔ i ∈ members ∧ ∀ s t, s ∈ pre → releases rows claims s = Some t → i ≠ Index s ∧ i ≠ t) ∧
    (∀ i, i ∈ retiring' ↔ ∃ s t, s ∈ pre ∧ releases rows claims s = Some t ∧ Index s = i))).
  { split; set_solver. }
  intros pre x _ [[ms ss] rs] _ [Hm Hr].
  assert ((∃ t, releases rows claims x = Some t ∧ Operation x ≫= SurgeIndex = Some t ∧
           ∃ row, rows !! t = Some row ∧ replacementPromoted x row (default 0 (claims !! t)) = true)
          ∨ releases rows claims x = None) as [(t & Ex & -> & row & -> & ->)|Ex].
  { unfold releases. destruct (Operation x ≫= SurgeIndex) as [t|]; cbn; [|by right].
    destruct (rows !! t) as [row|] eqn:Et; cbn; [|by right].
    destruct (replacementPromoted _ _ _) eqn:Ep; [left; eauto 10|by right]. }
  - split; intros i.
    + rewrite !elem_of_difference, !elem_of_singleton, Hm. setoid_rewrite elem_of_snoc. split.
      * intros [[[? Hall] ?] ?]. split; [done|]. intros s t' [Hs| ->] E; [by apply (Hall s t')|]. by simplify_eq.
      * intros [? Hall]. destruct (Hall x t (or_intror eq_refl) Ex) as [??].
        split; [split; [split; [done|]|done]|done]. intros s t' ?. apply Hall. by left.
    + rewrite elem_of_union, elem_of_singleton, Hr. setoid_rewrite elem_of_snoc. split.
      * intros [->|(s & t' & ? & ? & ?)]; [exists x, t; auto|exists s, t'; auto].
      * intros (s & t' & [?| ->] & ? & <-); [right; eauto|by left].
  - assert (∀ P : gset Z * gset Z * gset Z → Prop, P (ms, ss, rs) →
      P (match Operation x ≫= SurgeIndex with
         | None => (ms, ss, rs)
         | Some target => match rows !! target with
           | Some row => if replacementPromoted x row (default 0 (claims !! target))
               then (ms ∖ {[Index x]} ∖ {[target]}, ss ∖ {[Index x]}, {[Index x]} ∪ rs) else (ms, ss, rs)
           | None => (ms, ss, rs) end end)) as Hskip.
    { intros P HP. unfold releases in Ex. repeat case_match; cbn in *; simplify_eq/=; try done.
      rewrite H0 in Ex. cbn in Ex. by rewrite H1 in Ex. }
    apply Hskip. setoid_rewrite elem_of_snoc. split; intros i; [rewrite Hm|rewrite Hr].
    + split; intros [? Hall]; (split; [done|]); intros s t'; [|intros ?; apply Hall; by left].
      intros [?| ->] ?; [by apply (Hall s t')|congruence].
    + split; [intros (s & t' & ? & ? & ?); exists s, t'; auto|].
      intros (s & t' & [?| ->] & ? & ?); [eauto|congruence].
Qed.

(** A promoted replacement is an idle row one source claims; its source is a
    migration or an update at its drain step. *)
Lemma replacementPromoted_inv s row c :
  replacementPromoted s row c = true →
  c = 1 ∧ Operation row = None ∧ claimsReplacement s = true ∧ gangSurgeTargetMarker s = false.
Proof.
  unfold replacementPromoted, updateHandoffPromoted, migrationHandoffPromoted, hasOperation, claimsReplacement,
    gangSurgeTargetMarker.
  destruct (Operation s) as [op|]; [|done].
  case_bool_decide as Hu; intros H; rewrite !andb_true_iff, !bool_decide_eq_true in H; destruct_and!;
    repeat match goal with E : _ op = _ |- _ => rewrite E end;
    repeat case_bool_decide; try done; exfalso; eauto.
Qed.

Lemma migrationInFlight_elem instances s :
  s ∈ instances → migrationPinned s = true → Index s ∈ migrationInFlightIndices instances.
Proof. intros ??. apply (foldl_collect migrationPinned Index). right. eauto. Qed.

Lemma updateSurgeInFlight_elem instances s :
  s ∈ instances → (Index s ∉ failedGangSurgeSources instances) → is_Some (claimOf InstanceOperationUpdate s) →
  Index s ∈ updateSurgeInFlightIndices instances.
Proof.
  intros Hin Hun Hc. unfold updateSurgeInFlightIndices. set (unpinned := failedGangSurgeSources instances) in *.
  destruct (foldl _ _ _) as [o referenced] eqn:E.
  assert (Index s ∈ o) as Ho.
  { replace o with ((o, referenced).1) by done. rewrite <-E. revert s Hin Hun Hc.
    apply (foldl_ind _ (λ pre (st : gset Z * gset Z), ∀ s, s ∈ pre → (Index s ∉ unpinned) →
      is_Some (claimOf InstanceOperationUpdate s) → Index s ∈ st.1)).
    { intros s Hs. by apply elem_of_nil in Hs. }
    intros pre x _ [o' r'] _ HQ s [Hs| ->]%elem_of_snoc Hun [t Ht].
    - specialize (HQ s Hs Hun (mk_is_Some _ _ Ht)). cbn in HQ. destruct (decide _); [done|].
      case_match; cbn; set_solver.
    - rewrite decide_False by done. rewrite Ht. cbn. set_solver. }
  apply (foldl_invariant (λ out, Index s ∈ out)); [done|]. intros x b _ Hb. destruct (decide _); set_solver.
Qed.

Lemma claim_in_flight instances s :
  s ∈ instances → claimsReplacement s = true → (Index s ∉ failedGangSurgeSources instances) →
  Index s ∈ migrationInFlightIndices instances ∪ updateSurgeInFlightIndices instances.
Proof.
  intros Hin Hc Hun. apply elem_of_union. unfold claimsReplacement in Hc.
  destruct (Operation s) as [op|] eqn:Eop; [|done].
  apply andb_true_iff in Hc as [Hs%bool_decide_eq_true Ht%orb_true_iff].
  rewrite !bool_decide_eq_true in Ht. destruct Ht as [Ht|Ht].
  - left. apply migrationInFlight_elem; [done|]. unfold migrationPinned, hasOperation. rewrite Eop.
    apply orb_true_iff. right. by apply bool_decide_eq_true.
  - right. apply updateSurgeInFlight_elem; [done|done|]. unfold claimOf. rewrite Eop. cbn.
    by rewrite decide_True.
Qed.

Lemma rowsByIndex_row instances s :
  NoDup (Index <$> instances) → s ∈ instances → rowsByIndex instances !! Index s = Some s.
Proof.
  intros Hnd. revert s. unfold rowsByIndex.
  apply (foldl_ind _ (λ pre (m : gmap Z InstanceStatus), ∀ s, s ∈ pre → m !! Index s = Some s)).
  { intros s Hs. by apply elem_of_nil in Hs. }
  intros pre x post m -> HQ s [Hs| ->]%elem_of_snoc; [|by rewrite lookup_insert_eq].
  rewrite lookup_insert_ne; [by apply HQ|]. intros E.
  rewrite fmap_app, fmap_cons in Hnd. apply NoDup_app in Hnd as (_ & H & _). apply (H (Index s)).
  - apply list_elem_of_fmap. eauto.
  - rewrite <-E. left.
Qed.

(** A failed gang source's replacement row, if there is one, is still its marker. *)
Lemma failedGangSurgeSources_marker instances i :
  i ∈ failedGangSurgeSources instances →
  ∃ s t, s ∈ instances ∧ Index s = i ∧ Operation s ≫= SurgeIndex = Some t ∧
    ∀ row, rowsByIndex instances !! t = Some row → gangSurgeTargetMarker row = true.
Proof.
  unfold failedGangSurgeSources. revert i.
  apply (foldl_invariant (λ out : gset Z, ∀ i, i ∈ out → ∃ s t, s ∈ instances ∧ Index s = i
    ∧ Operation s ≫= SurgeIndex = Some t ∧ ∀ row, rowsByIndex instances !! t = Some row → gangSurgeTargetMarker row = true)).
  { set_solver. }
  intros s out Hs HQ i. destruct (claimOf InstanceOperationUpdate s) as [t|] eqn:Et; [|apply HQ].
  assert (Operation s ≫= SurgeIndex = Some t) as Es.
  { unfold claimOf in Et. destruct (Operation s); cbn in *; [|done]. by destruct (decide _). }
  destruct (decide _); [|apply HQ]. destruct (rowsByIndex instances !! t) as [row|] eqn:Er.
  - destruct (gangSurgeTargetMarker row) eqn:Em; [|apply HQ].
    intros [->%elem_of_singleton|?]%elem_of_union; [|by apply HQ]. exists s, t. naive_solver.
  - intros [->%elem_of_singleton|?]%elem_of_union; [|by apply HQ]. exists s, t. naive_solver.
Qed.

(** With one row per index the reading never panics: a row the loop dereferences is
    the failed source itself. *)
Lemma followers_return instances :
  NoDup (Index <$> instances) → is_Some (failedGangSurgeFollowers instances).
Proof.
  intros Hnd. unfold failedGangSurgeFollowers. apply (foldl_invariant (λ o, is_Some o)); [by eexists|].
  intros x b Hx Hb. apply followRow_some; [done|].
  intros (s & t & Hs & E & Et & _)%failedGangSurgeSources_marker.
  assert (s = x) as -> by (by eapply NoDup_fmap_elem). by exists t.
Qed.

Lemma plan_returns instances n blocks cordoned :
  NoDup (Index <$> instances) → Z.of_nat (length instances) + Z.max 0 n < 2 ^ 30 →
  ∃ targetOf sourceOf out, failedGangSurgeFollowers instances = Some (targetOf, sourceOf) ∧
    instancePlanIndices instances n blocks cordoned = Some out.
Proof.
  intros Hnd Hb. destruct (followers_return instances Hnd) as [[targetOf sourceOf] Hf].
  destruct (plan_chosen instances n blocks cordoned _ _ Hf Hb) as (l & E & _). eauto 10.
Qed.

Section pairs.
Context (instances : list InstanceStatus) (n : Z) (blocks : list RetryBlock) (cordoned : gset Z).
Context (targetOf sourceOf : gmap Z Z) (out : list Z).
Hypothesis Hnd : NoDup (Index <$> instances).
Hypothesis Hbound : Z.of_nat (length instances) + Z.max 0 n < 2 ^ 30.
Hypothesis Hfollowers : failedGangSurgeFollowers instances = Some (targetOf, sourceOf).
Hypothesis Hout : instancePlanIndices instances n blocks cordoned = Some out.
Local Abbreviation sel := (readSelection instances n blocks cordoned targetOf sourceOf).
Local Abbreviation release := (releases (readRows instances blocks cordoned targetOf).1 (readClaims instances).1).

Lemma release_inv s t :
  s ∈ instances → release s = Some t →
  ∃ row, row ∈ instances ∧ Index row = t ∧ Operation s ≫= SurgeIndex = Some t
         ∧ replacementPromoted s row (Z.of_nat (length (claimants instances t))) = true.
Proof using.
  unfold releases. intros Hs. destruct (Operation s ≫= SurgeIndex) as [t'|] eqn:Et; [|done].
  cbn. destruct ((readRows instances blocks cordoned targetOf).1 !! t') as [row|] eqn:Er; [|done]. cbn.
  destruct (replacementPromoted _ _ _) eqn:Ep; [|done]. intros [= <-].
  apply rankRows_rows in Er as [??]. unfold readClaims in Ep.
  rewrite (proj1 (claimReplacements_spec _ _)) in Ep. eauto 10.
Qed.

Lemma release_handedOver s : s ∈ instances → is_Some (release s) ↔ handedOver instances s.
Proof using Hnd.
  intros Hs. split.
  - intros [t Ht]. destruct (release_inv s t Hs Ht) as (row & ? & <- & ? & ?). by exists row.
  - intros (row & Hrow & Et & Hp). unfold releases. rewrite Et. cbn. unfold readRows.
    rewrite rankRows_row by done. cbn. unfold readClaims. rewrite (proj1 (claimReplacements_spec _ _)), Hp. eauto.
Qed.

Lemma read_members i :
  i ∈ pairMembers sel ↔ i ∈ (readClaims instances).2 ∧
    ∀ s t, s ∈ instances → release s = Some t → i ≠ Index s ∧ i ≠ t.
Proof using.
  rewrite read_eta. cbn [pairMembers]. unfold readPairs.
  pose proof (releasePromotedSources_spec instances (readRows instances blocks cordoned targetOf).1 (readClaims instances).1
    (readClaims instances).2 (migrationSourceIndices instances ∪ updateSurgeSourceIndices instances)) as H.
  destruct (releasePromotedSources _ _ _ _ _) as [[??]?]. apply H.
Qed.

Lemma read_retiring i :
  i ∈ retiring sel ↔ ∃ s t, s ∈ instances ∧ release s = Some t ∧ Index s = i.
Proof using.
  rewrite read_eta. cbn [retiring]. unfold readPairs.
  pose proof (releasePromotedSources_spec instances (readRows instances blocks cordoned targetOf).1 (readClaims instances).1
    (readClaims instances).2 (migrationSourceIndices instances ∪ updateSurgeSourceIndices instances)) as H.
  destruct (releasePromotedSources _ _ _ _ _) as [[??]?]. apply H.
Qed.

Lemma member_in_plan s : s ∈ instances → Index s ∈ pairMembers sel → Index s ∈ out.
Proof using Hbound Hfollowers Hout.
  intros Hs Hm. eapply plan_elem; [done..|]. left. apply list_elem_of_filter. split; [done|].
  apply read_existing, list_elem_of_fmap. eauto.
Qed.

(** A source still moving is a pair member. *)
Lemma source_member s :
  s ∈ instances → claimsReplacement s = true → (Index s ∉ failedGangSurgeSources instances) →
  ¬ handedOver instances s → Index s ∈ pairMembers sel.
Proof using Hnd.
  intros Hs Hc Hf Hno. apply read_members. split.
  - apply claimReplacements_spec. left. by apply claim_in_flight.
  - intros s' t Hs' Ht. split.
    + intros E. assert (s = s') as <- by (by eapply NoDup_fmap_elem). apply Hno, release_handedOver; [done|by exists t].
    + intros <-. destruct (release_inv s' _ Hs' Ht) as (row & Hrow & E & _ & Hp).
      assert (row = s) as -> by (by eapply NoDup_fmap_elem).
      apply replacementPromoted_inv in Hp as (_ & Hop & _). apply claimsReplacement_index in Hc as [? Hc].
      by rewrite Hop in Hc.
Qed.

(** So is its replacement. *)
Lemma replacement_member s row :
  s ∈ instances → row ∈ instances → claimsReplacement s = true → (Index s ∉ failedGangSurgeSources instances) →
  ¬ handedOver instances s → Operation s ≫= SurgeIndex = Some (Index row) → ¬ handedOver instances row →
  Index row ∈ pairMembers sel.
Proof using Hnd.
  intros Hs Hrow Hc Hf Hno Et Hnor.
  assert (s ∈ claimants instances (Index row)) as Hcl by (by apply list_elem_of_filter).
  apply read_members. split; [apply claimReplacements_spec; right; eauto|]. intros s' t Hs' Ht. split.
  - intros E. assert (row = s') as <- by (by eapply NoDup_fmap_elem). apply Hnor, release_handedOver; [done|by exists t].
  - intros <-. destruct (release_inv s' _ Hs' Ht) as (row' & _ & _ & Et' & Hp).
    apply replacementPromoted_inv in Hp as (Hone & _ & Hc' & _).
    assert (s' ∈ claimants instances (Index row)) as Hcl' by (by apply list_elem_of_filter).
    destruct (claimants instances (Index row)) as [|x [|y l]]; cbn in Hone; [lia| |lia].
    apply list_elem_of_singleton in Hcl as ->, Hcl' as ->. apply Hno, release_handedOver; [done|by eexists].
Qed.

(** A source handed over is dropped. *)
Lemma handedOver_dropped s : s ∈ instances → handedOver instances s → Index s ∉ out.
Proof using Hnd Hbound Hfollowers Hout.
  intros Hs Hh. pose proof Hh as [t Ht]%release_handedOver; [|done].
  rewrite plan_elem_existing; [|done..|apply read_existing, list_elem_of_fmap; eauto].
  intros [Hk|[Hk|Hk]].
  - apply list_elem_of_filter in Hk as [Hk _]. apply read_members in Hk as [_ Hk].
    by destruct (Hk s t Hs Ht).
  - apply elem_of_take_in, byRank_elem in Hk as [(_ & Hk & _) _]. apply Hk, read_retiring. eauto.
  - apply list_elem_of_omap in Hk as (f & _ & Hk). rewrite read_eta in Hk. cbn [failedTargetOf] in Hk.
    apply (followers_read _ _ _ _ _ Hfollowers) in Hk as (_ & _ & row & Hrow & <- & Hf & Et).
    apply failedGangSurgeSources_marker in Hf as (row' & t' & Hrow' & E & Et' & Hm).
    assert (row' = row) as -> by (by eapply NoDup_fmap_elem). rewrite Et in Et'. injection Et' as <-.
    specialize (Hm s (rowsByIndex_row _ _ Hnd Hs)).
    destruct (release_inv s t Hs Ht) as (r' & _ & _ & _ & Hp).
    apply replacementPromoted_inv in Hp as (_ & _ & _ & Hp). congruence.
Qed.

(** A steady row is never dropped for one ranked after it. *)
Lemma plan_priority i j :
  steadyRow sel i → steadyRow sel j → i ∈ existing sel → j ∈ existing sel → i ∈ out → (j ∉ out) → rankedBefore sel i j.
Proof using Hbound Hfollowers Hout.
  intros Hi Hj Ei Ej. rewrite !(plan_steady _ _ _ _ _ _ _ Hbound Hfollowers Hout) by done. unfold filled. set (k := Z.to_nat _). intros Hin Hnin.
  assert (j ∈ byRank sel) as Hb.
  { apply byRank_elem. split; [done|]. split; [apply ranks_complete, rankOf_bounds|done]. }
  pose proof (byRank_sorted sel (read_existing_sorted _ _ _ _ _ _)) as Hs.
  rewrite <-(take_drop k (byRank sel)) in Hs, Hb. apply elem_of_app in Hb as [?|Hb]; [done|].
  apply list_elem_of_lookup in Hin as [a Ha], Hb as [b Hb].
  apply (StronglySorted_lookup_lt _ _ a (length (take k (byRank sel)) + b) i j Hs).
  - by apply lookup_app_l_Some.
  - rewrite lookup_app_r by lia. by replace (_ + b - _)%nat with b by lia.
  - apply lookup_lt_Some in Ha. lia.
Qed.
End pairs.



(** ** Surge indexes *)

Lemma scanFrom_spec m (t : gset Z) i k :
  int32_range k → i ≤ k → (∀ j, i ≤ j < k → j ∈ t) → (k ∉ t) → int32_range i →
  (Z.to_nat (k - i) < m)%nat → scanFrom m t i = Some k.
Proof.
  revert i. induction m as [|m IH]; intros i Hk1 Hik Hall Hk Hi Hn; [lia|]. cbn [scanFrom].
  destruct (decide (i ∉ t)) as [Hu|Hu].
  - destruct (decide (i = k)) as [->|Hne]; [done|]. exfalso. apply Hu, Hall. lia.
  - apply dec_stable in Hu. assert (i ≠ k) by congruence.
    unfold int32_range in *. unwrap. apply IH; [done|lia| |done|lia|lia].
    intros j Hj. apply Hall. lia.
Qed.

(** The surges of one pass: each asks for an index and claims it. *)
Fixpoint surgePass (k : nat) (a : SurgeIndexAllocator) : option (list Z) :=
  match k with
  | O => Some []
  | S k => '(i, a) ← Next a; l ← surgePass k (Claim a i); Some (i :: l)
  end.

Lemma surgePass_spec k (m : nat) a :
  0 ≤ from a → (∀ j, 0 ≤ j < from a → j ∈ read a) →
  2 * (Z.of_nat (size (read a)) + Z.of_nat k) ≤ MaxInt32 →
  (k ≤ length (filter (λ i, i ∉ read a) (seqZ (from a) (Z.of_nat m))))%nat →
  surgePass k a = Some (take k (filter (λ i, i ∉ read a) (seqZ (from a) (Z.of_nat m)))).
Proof.
  revert m a. induction k as [|k IH]; intros m a H0 Hall Hb Hlen; [by rewrite take_0|].
  destruct (filter _ _) as [|i ixs] eqn:E; [cbn in Hlen; lia|].
  destruct (unused_first _ _ _ _ _ E) as (Hi & Hu & Hrun & His).
  pose proof (run_size (read a) 0 (from a) ltac:(done)). pose proof (run_size (read a) (from a) i Hrun).
  cbn [surgePass]. unfold Next. rewrite (scanFrom_spec _ _ _ i) by (try done; unfold int32_range; lia). cbn.
  unfold Claim. cbn [read taken arows from].
  pose proof (unused_rest _ _ _ _ _ E) as Eis.
  rewrite (IH (Z.to_nat (Z.of_nat m - (i - from a)))); cbn [read taken arows from].
  - by rewrite Eis.
  - lia.
  - intros j Hj. apply elem_of_union. right. destruct (decide (j < from a)); [apply Hall|apply Hrun]; lia.
  - rewrite size_union, size_singleton by set_solver. lia.
  - rewrite Eis. cbn in Hlen. lia.
Qed.

Lemma elem_of_takenBy rows i :
  i ∈ takenBy rows ↔ ∃ s, s ∈ rows ∧ (Index s = i ∨ Operation s ≫= SurgeIndex = Some i).
Proof.
  unfold takenBy. revert i.
  apply (foldl_ind _ (λ pre (t : gset Z), ∀ i, i ∈ t ↔ ∃ s, s ∈ pre ∧ (Index s = i ∨ Operation s ≫= SurgeIndex = Some i))).
  { intros i. split; [set_solver|]. intros (s & Hs & _). by apply elem_of_nil in Hs. }
  intros pre x _ t _ HQ i. cbv zeta. setoid_rewrite elem_of_snoc.
  assert (i ∈ match Operation x ≫= SurgeIndex with Some idx => {[idx]} ∪ ({[Index x]} ∪ t) | None => {[Index x]} ∪ t end
          ↔ i ∈ t ∨ Index x = i ∨ Operation x ≫= SurgeIndex = Some i) as ->.
  { case_match; rewrite ?elem_of_union, ?elem_of_singleton; naive_solver. }
  rewrite HQ. naive_solver.
Qed.

Lemma takenBy_size rows : (size (takenBy rows) ≤ 2 * length rows)%nat.
Proof.
  unfold takenBy. apply (foldl_ind _ (λ pre (t : gset Z), (size t ≤ 2 * length pre)%nat)); [by rewrite size_empty|].
  intros pre x _ t _ Ht. rewrite length_app. cbn [length]. cbv zeta.
  assert (∀ (y : Z) (t : gset Z), (size ({[y]} ∪ t) ≤ S (size t))%nat) as Hadd.
  { intros y t'. rewrite size_union_alt, size_singleton.
    pose proof (subseteq_size (t' ∖ {[y]}) t' ltac:(set_solver)). lia. }
  pose proof (Hadd (Index x) t). destruct (Operation x ≫= SurgeIndex); [|lia]. etrans; [apply Hadd|]. lia.
Qed.

(** An offered index stays on offer until it is claimed. *)
Lemma Next_again a i a' : Next a = Some (i, a') → Next a' = Some (i, a').
Proof.
  unfold Next. destruct (scanFrom _ _ _) as [k|] eqn:E; [|done]. cbn. intros [= -> <-]. cbn.
  assert (i ∉ read a) as Hi.
  { revert E. generalize (from a), (S (size (read a))). intros z m. revert z.
    induction m as [|m IH]; intros z; cbn; [done|]. destruct (decide (z ∉ read a)); [by intros [= ->]|apply IH]. }
  by rewrite decide_True.
Qed.

Lemma seqZ_sorted a m : StronglySorted Z.lt (seqZ a (Z.of_nat m)).
Proof.
  revert a. induction m as [|m IH]; intros a; [constructor|].
  rewrite seqZ_cons, Nat2Z.inj_succ, Z.pred_succ by lia. constructor; [apply IH|].
  apply Forall_forall. intros j Hj%elem_of_seqZ. lia.
Qed.

(** The front of a sorted slice is closed downwards. *)
Lemma take_sorted_down k (l : list Z) i j :
  StronglySorted Z.lt l → i ∈ take k l → j ∈ l → j < i → j ∈ take k l.
Proof.
  intros Hs [a Ha]%list_elem_of_lookup Hj Hlt. rewrite <-(take_drop k l) in Hj, Hs.
  apply elem_of_app in Hj as [?|[b Hb]%list_elem_of_lookup]; [done|]. exfalso.
  assert (i < j); [|lia]. apply (StronglySorted_lookup_lt _ _ a (length (take k l) + b) i j Hs).
  - by apply lookup_app_l_Some.
  - rewrite lookup_app_r by lia. by replace (_ + b - _)%nat with b by lia.
  - apply lookup_lt_Some in Ha. lia.
Qed.

(** The surges of one pass, each asking the allocator and claiming what it
    answers, always get an index each, in increasing order without repetition:
    exactly the lowest indexes that no row holds and no surge in flight has
    recorded, so no two sources of a pass share a replacement and none lands on an
    existing row; and asking without claiming answers the same index again. *)
Theorem surgePass_lowest rows k :
  2 * (2 * Z.of_nat (length rows) + Z.of_nat k) ≤ MaxInt32 →
  ∃ l, surgePass k (NewSurgeIndexAllocator rows) = Some l ∧ length l = k ∧ StronglySorted Z.lt l ∧
    (∀ i, i ∈ l → 0 ≤ i ∧ (∀ s, s ∈ rows → Index s ≠ i ∧ Operation s ≫= SurgeIndex ≠ Some i) ∧
                  ∀ j, 0 ≤ j < i → j ∈ l ∨ j ∈ takenBy rows) ∧
    (∀ a i a', Next a = Some (i, a') → Next a' = Some (i, a')).
Proof.
  intros Hb. pose proof (takenBy_size rows). pose proof (unused_enough (takenBy rows) k 0) as He.
  rewrite (surgePass_spec k (k + size (takenBy rows))); [|done|intros j Hj; cbn in Hj; lia|cbn [read taken arows NewSurgeIndexAllocator]; lia|done].
  eexists. split; [done|]. cbn [read taken arows from NewSurgeIndexAllocator].
  assert (StronglySorted Z.lt (filter (λ i, i ∉ takenBy rows) (seqZ 0 (Z.of_nat (k + size (takenBy rows)))))) as Hs
    by apply StronglySorted_filter, seqZ_sorted.
  split; [rewrite length_take; lia|]. split; [by apply StronglySorted_take|]. split; [|by apply Next_again].
  intros i Hi. pose proof Hi as [Hu [? Hm]%elem_of_seqZ]%elem_of_take_in%list_elem_of_filter.
  split; [done|]. split.
  - rewrite elem_of_takenBy in Hu. intros s Hrow. split; intros E; apply Hu; eauto.
  - intros j Hj. destruct (decide (j ∈ takenBy rows)) as [?|Hn]; [by right|]. left.
    eapply take_sorted_down; [exact Hs|exact Hi| |lia]. apply list_elem_of_filter. rewrite elem_of_seqZ. split; [done|lia].
Qed.

Lemma surgePass_lowest_witness :
  surgePass 3 (NewSurgeIndexAllocator [readyRow 0; movingRow 1 3]) = Some [2; 4; 5] ∧
  ∃ l, surgePass 3 (NewSurgeIndexAllocator [readyRow 0; movingRow 1 3]) = Some l ∧ length l = 3%nat.
Proof.
  split; [vm_compute; reflexivity|].
  destruct (surgePass_lowest [readyRow 0; movingRow 1 3] 3 ltac:(vm_compute; discriminate)) as (l & H1 & H2 & _).
  exists l. by split.
Defined.
