(* ===== verification/PlanSpec.v ===== *)
(** * The instance plan, specified on the rows

    What the plan keeps, said of the rows alone and without a function of the
    controller: which rows are halves of a surge pair in flight, which sources have
    handed over, which replacement follows a failed gang source, which rows are
    steady, and in which order steady rows are kept.  The plan of indexes refines
    this description. *)

From Stdlib Require Import Sorting.Sorted.
From S2P Require Import Prelude PlanIndices PlanFacts PlanClaims.
Local Open Scope Z_scope.

(** ** The description *)

(** The first element of a list with a property. *)
Definition firstOf {A} (P : A → Prop) (l : list A) (x : A) : Prop :=
  ∃ k, l !! k = Some x ∧ P x ∧ ∀ j y, l !! j = Some y → (j < k)%nat → ¬ P y.

(** [s] names [t] as its replacement in an operation of type [typ]. *)
Definition claimsAs (typ : string) (s : InstanceStatus) (t : Z) : Prop :=
  ∃ op, Operation s = Some op ∧ OType op = typ ∧ SurgeIndex op = Some t.
Definition claimed (s : InstanceStatus) (t : Z) : Prop := claimsAs "Migrate" s t ∨ claimsAs "Update" s t.

(** A row that stands for the gang being surged to. *)
Definition surgeMarker (r : InstanceStatus) : Prop :=
  ∃ op, Operation r = Some op ∧ OType op = "Update" ∧ (Step op = "GangSurgeTarget" ∨ Step op = "GangSurgeTargetCleanup").

(** [r] carries the proof [s] needs to retire. *)
Definition promotedFor (s r : InstanceStatus) : Prop :=
  Incarnation r = 1 ∧ ActiveOrdinal r = 0 ∧ Phase r = "Ready" ∧ TargetRevision r = "" ∧ Operation r = None ∧
  RunningRevision s ≠ "" ∧
  ∃ op, Operation s = Some op ∧ SurgeIndex op = Some (Index r) ∧
    ((OType op = "Migrate" ∧ Phase s = "Migrating" ∧ RequestUUID op ≠ "" ∧ TargetRevision s = "" ∧
      RunningRevision r = RunningRevision s) ∨
     (OType op = "Update" ∧ Phase s = "Updating" ∧ Step op = "SurgeDrain" ∧ TargetRevision s ≠ "" ∧
      OTargetRevision op = TargetRevision s ∧ RunningRevision r = TargetRevision s)).

Section description.
Context (rows : list InstanceStatus) (blocks : list RetryBlock) (cordoned : gset Z).

(** A failed update whose replacement, if it is there, is still its marker. *)
Definition failedGang (s : InstanceStatus) : Prop :=
  Phase s = "Failed" ∧ ∃ t, claimsAs "Update" s t ∧ ∀ r, r ∈ rows → Index r = t → surgeMarker r.

(** [s] is done: [r] serves in its place and nobody else claims [r]. *)
Definition handsOverTo (s r : InstanceStatus) : Prop :=
  r ∈ rows ∧ promotedFor s r ∧ ∀ s', s' ∈ rows → claimed s' (Index r) → s' = s.

Definition liveUpdate (s : InstanceStatus) : Prop := (∃ t, claimsAs "Update" s t) ∧ ¬ failedGang s.

(** A half of a surge pair in flight. *)
Definition pairRow (r : InstanceStatus) : Prop :=
  (Phase r = "Migrating" ∨ (∃ op, Operation r = Some op ∧ OType op = "Migrate") ∨ liveUpdate r
   ∨ ∃ s, s ∈ rows ∧ claimed s (Index r) ∧ ¬ failedGang s) ∧
  (¬ ∃ r', handsOverTo r r') ∧ (¬ ∃ s, s ∈ rows ∧ handsOverTo s r).

(** The half of a pair that holds a replica. *)
Definition chargedSource (r : InstanceStatus) : Prop := pairRow r ∧ (Phase r = "Migrating" ∨ liveUpdate r).

(** [r] is the replacement of the first failed gang source that claims it, [s]. *)
Definition follows (r s : InstanceStatus) : Prop :=
  r ∈ rows ∧ firstOf (λ s, failedGang s ∧ claimsAs "Update" s (Index r)) rows s.

(** A row that fills a replica of its own. *)
Definition steady (r : InstanceStatus) : Prop :=
  ¬ pairRow r ∧ (¬ ∃ r', handsOverTo r r') ∧ ¬ ∃ s, s ∈ rows ∧ failedGang s ∧ claimsAs "Update" s (Index r).

(** What counts against a steady row: nothing has driven it yet, it or its
    follower is on a cordoned node, the revision it is on is failing, it does not serve. *)
Definition undriven (r : InstanceStatus) : Prop := Phase r = "Creating" ∧ Operation r = None.
Definition onCordon (r : InstanceStatus) : Prop :=
  Index r ∈ cordoned ∨ ∃ f, follows f r ∧ Index f ∈ cordoned.
Definition onRevision (r : InstanceStatus) (rev : string) : Prop :=
  rev ≠ "" ∧ (TargetRevision r = rev ∨ TargetRevision r = "" ∧ RunningRevision r = rev).
Definition failing (r : InstanceStatus) : Prop :=
  ∃ rev b, onRevision r rev ∧ firstOf (λ b, BTargetRevision b = rev) blocks b ∧
    (BState b = "Held" ∨ BState b = "Backoff" ∨
     BState b = "RetryInProgress" ∧
       ∃ failed ready, LastFailure r = Some failed ∧ ReadySince r = Some ready ∧ ready < FTime failed).
Definition idle (r : InstanceStatus) : Prop :=
  ¬ (Phase r = "Ready" ∧ (PodCount r = 0 ∨ PodCount r ≤ ServingPodCount r)).

(** The first of the criteria on which two rows differ decides; then the index. *)
Fixpoint fewerFaults (faults : list (InstanceStatus → Prop)) (a b : InstanceStatus) : Prop :=
  match faults with
  | [] => Index a < Index b
  | P :: faults => (¬ P a ∧ P b) ∨ ((P a ↔ P b) ∧ fewerFaults faults a b)
  end.

(** [a] is kept in preference to [b]. *)
Definition ahead (a b : InstanceStatus) : Prop :=
  (¬ undriven a ∧ undriven b) ∨
  (undriven a ∧ undriven b ∧ Index a < Index b) ∨
  (¬ undriven a ∧ ¬ undriven b ∧ fewerFaults [onCordon; failing; idle] a b).
End description.

(** ** Reading the rows *)

Lemma firstOf_snoc {A} (P : A → Prop) l x y :
  firstOf P (l ++ [x]) y ↔ firstOf P l y ∨ (y = x ∧ P x ∧ ∀ z, z ∈ l → ¬ P z).
Proof.
  unfold firstOf. split.
  - intros (k & Hk & Hy & Hall). apply lookup_app_Some in Hk as [Hk|[Hlen Hk]].
    + left. exists k. split; [done|]. split; [done|]. intros j z Hj Hjk. apply (Hall j z); [by apply lookup_app_l_Some|done].
    + apply list_lookup_singleton_Some in Hk as [Hk ->]. right. split; [done|]. split; [done|].
      intros z [j Hj]%list_elem_of_lookup. apply (Hall j z); [by apply lookup_app_l_Some|]. apply lookup_lt_Some in Hj. lia.
  - intros [(k & Hk & Hy & Hall)|(-> & Hx & Hall)].
    + exists k. split; [by apply lookup_app_l_Some|]. split; [done|]. intros j z Hj Hjk. apply (Hall j z); [|done].
      rewrite lookup_app_l in Hj; [done|]. apply lookup_lt_Some in Hk. lia.
    + exists (length l). rewrite lookup_app_r, Nat.sub_diag by done. split; [done|]. split; [done|].
      intros j z Hj Hjk. rewrite lookup_app_l in Hj by done. apply Hall. by eapply list_elem_of_lookup_2.
Qed.

Lemma rowsByIndex_in rows i r : rowsByIndex rows !! i = Some r → r ∈ rows ∧ Index r = i.
Proof.
  unfold rowsByIndex. revert i r.
  apply (foldl_invariant (λ m : gmap Z InstanceStatus, ∀ i r, m !! i = Some r → r ∈ rows ∧ Index r = i)).
  { intros i r. by rewrite lookup_empty. }
  intros x m Hx HQ i r [[<- <-]|[_ Hi]]%lookup_insert_Some; [done|by apply HQ].
Qed.

Lemma claimsAs_claimOf typ s t : claimsAs typ s t ↔ claimOf typ s = Some t.
Proof.
  unfold claimsAs, claimOf. destruct (Operation s) as [op|]; cbn; [|naive_solver].
  case_decide; naive_solver.
Qed.

Lemma claimed_iff s t : claimed s t ↔ claimsReplacement s = true ∧ Operation s ≫= SurgeIndex = Some t.
Proof.
  unfold claimed, claimsAs, claimsReplacement. destruct (Operation s) as [op|]; cbn; [|naive_solver].
  rewrite andb_true_iff, orb_true_iff, !bool_decide_eq_true. unfold InstanceOperationMigrate, InstanceOperationUpdate, is_Some.
  naive_solver.
Qed.

Lemma surgeMarker_iff r : surgeMarker r ↔ gangSurgeTargetMarker r = true.
Proof.
  unfold surgeMarker, gangSurgeTargetMarker. destruct (Operation r) as [op|]; [|naive_solver].
  rewrite andb_true_iff, orb_true_iff, !bool_decide_eq_true.
  unfold InstanceOperationUpdate, UpdateStepGangSurgeTarget, UpdateStepGangSurgeTargetCleanup. naive_solver.
Qed.

Lemma promotedFor_iff s r c : replacementPromoted s r c = true ↔ c = 1 ∧ promotedFor s r.
Proof.
  unfold replacementPromoted, hasOperation, updateHandoffPromoted, migrationHandoffPromoted, promotedFor.
  destruct (Operation s) as [op|]; [|naive_solver].
  unfold InstanceOperationMigrate, InstanceOperationUpdate, InstancePhaseMigrating, InstancePhaseUpdating, InstancePhaseReady,
    UpdateStepSurgeDrain.
  case_bool_decide as Ht; rewrite !andb_true_iff, !bool_decide_eq_true; split.
  - intros H. destruct_and!. naive_solver.
  - intros (-> & H). destruct_and!. naive_solver congruence.
  - intros H. destruct_and!. naive_solver.
  - intros (-> & H). destruct_and!. naive_solver congruence.
Qed.

Section reading.
Context (rows : list InstanceStatus).
Hypothesis Hnd : NoDup (Index <$> rows).

Lemma failedGang_iff s : s ∈ rows → failedGang rows s ↔ Index s ∈ failedGangSurgeSources rows.
Proof using Hnd.
  intros Hs. unfold failedGangSurgeSources.
  set (bad x := match claimOf InstanceOperationUpdate x with
    | Some t => bool_decide (Phase x = InstancePhaseFailed) &&
        match rowsByIndex rows !! t with Some r => gangSurgeTargetMarker r | None => true end
    | None => false end).
  assert (∀ x, x ∈ rows → failedGang rows x ↔ bad x = true) as Hbad.
  { intros x Hx. unfold failedGang, bad. setoid_rewrite claimsAs_claimOf. unfold InstancePhaseFailed, InstanceOperationUpdate.
    destruct (claimOf _ x) as [t|]; [|naive_solver]. rewrite andb_true_iff, bool_decide_eq_true.
    destruct (rowsByIndex rows !! t) as [r|] eqn:Er.
    - assert (r ∈ rows ∧ Index r = t) as [Hr Ei] by (by apply rowsByIndex_in). rewrite <-surgeMarker_iff.
      split; [naive_solver|]. intros [? Hm]. split; [done|]. exists t. split; [done|]. intros r' Hr' E.
      by assert (r' = r) as -> by (eapply NoDup_fmap_elem; [done..|congruence]).
    - split; [naive_solver|]. intros [? _]. split; [done|]. exists t. split; [done|]. intros r' Hr' E.
      pose proof (rowsByIndex_row rows r' Hnd Hr'). congruence. }
  rewrite (Hbad s Hs), (foldl_agree _ (λ out x, if bad x then {[Index x]} ∪ out else out)).
  - rewrite (foldl_collect bad Index). split; [naive_solver|].
    intros [?%elem_of_empty|(x & Hx & E & Ei)]; [done|]. by rewrite <-(NoDup_fmap_elem Index rows x s).
  - intros out x. unfold bad. destruct (claimOf _ x); [|done]. case_decide; [rewrite bool_decide_eq_true_2 by done|by rewrite bool_decide_eq_false_2].
    cbn. by destruct (rowsByIndex rows !! _).
Qed.
(** The only claimant, counted. *)
Lemma claimants_one s r :
  s ∈ rows → promotedFor s r →
  Z.of_nat (length (claimants rows (Index r))) = 1 ↔ ∀ s', s' ∈ rows → claimed s' (Index r) → s' = s.
Proof using Hnd.
  intros Hs Hp. assert (∀ x, x ∈ claimants rows (Index r) ↔ x ∈ rows ∧ claimed x (Index r)) as Hin.
  { intros x. unfold claimants. rewrite list_elem_of_filter, claimed_iff. naive_solver. }
  assert (claimed s (Index r)) as Hc.
  { destruct Hp as (_ & _ & _ & _ & _ & _ & op & Hop & Hi & Ht). unfold claimed, claimsAs. naive_solver. }
  assert (NoDup (claimants rows (Index r))) as Hnd' by (by apply NoDup_filter, NoDup_fmap_1 with Index).
  pose proof (proj2 (Hin s) (conj Hs Hc)) as Hsc. split.
  - intros E s' Hs' Hc'. pose proof (proj2 (Hin s') (conj Hs' Hc')) as Hsc'.
    destruct (claimants rows (Index r)) as [|x [|y l]]; cbn in E; [lia| |lia].
    apply list_elem_of_singleton in Hsc, Hsc'. congruence.
  - intros Hall. destruct (claimants rows (Index r)) as [|x [|y l]]; [by apply elem_of_nil in Hsc|done|]. exfalso.
    destruct (proj1 (Hin x)) as [??]; [left|]. destruct (proj1 (Hin y)) as [??]; [right; left|].
    rewrite (Hall x), (Hall y) in Hnd' by done. apply NoDup_cons in Hnd' as [Hnd' _]. apply Hnd'. left.
Qed.

Lemma releases_iff blocks cordoned targetOf s t :
  s ∈ rows →
  releases (readRows rows blocks cordoned targetOf).1 (readClaims rows).1 s = Some t ↔
  ∃ r, handsOverTo rows s r ∧ Index r = t.
Proof using Hnd.
  intros Hs. split.
  - intros (r & Hr & <- & Et & [Hc Hp]%promotedFor_iff)%release_inv; [|done]. exists r. split; [|done].
    split; [done|]. split; [done|]. by apply claimants_one.
  - intros (r & (Hr & Hp & Hc) & <-). unfold releases.
    assert (Operation s ≫= SurgeIndex = Some (Index r)) as ->.
    { destruct Hp as (_ & _ & _ & _ & _ & _ & op & -> & ? & _). done. }
    cbn. unfold readRows. rewrite rankRows_row by done. cbn. unfold readClaims.
    rewrite (proj1 (claimReplacements_spec _ _)), (proj2 (promotedFor_iff s r _)); [done|].
    split; [by apply (proj2 (claimants_one s r Hs Hp))|done].
Qed.

Lemma liveUpdate_iff s :
  s ∈ rows → liveUpdate rows s ↔ is_Some (claimOf InstanceOperationUpdate s) ∧ Index s ∉ failedGangSurgeSources rows.
Proof using Hnd.
  intros Hs. unfold liveUpdate. rewrite (failedGang_iff s Hs). setoid_rewrite claimsAs_claimOf. done.
Qed.

Lemma updateInFlight_iff r :
  r ∈ rows → Index r ∈ updateSurgeInFlightIndices rows ↔
  liveUpdate rows r ∨ ∃ s, s ∈ rows ∧ claimsAs "Update" s (Index r) ∧ ¬ failedGang rows s.
Proof using Hnd.
  intros Hr. unfold updateSurgeInFlightIndices. set (unpinned := failedGangSurgeSources rows).
  destruct (foldl _ _ _) as [o referenced] eqn:E.
  set (live s := Index s ∉ unpinned).
  assert ((∀ i, i ∈ o ↔ ∃ s, s ∈ rows ∧ live s ∧ is_Some (claimOf InstanceOperationUpdate s) ∧ Index s = i) ∧
          (∀ i, i ∈ referenced ↔ ∃ s, s ∈ rows ∧ live s ∧ claimOf InstanceOperationUpdate s = Some i)) as [Ho Href].
  { change o with ((o, referenced).1). change referenced with ((o, referenced).2) at 2. rewrite <-E.
    apply (foldl_ind _ (λ pre (st : gset Z * gset Z),
      (∀ i, i ∈ st.1 ↔ ∃ s, s ∈ pre ∧ live s ∧ is_Some (claimOf InstanceOperationUpdate s) ∧ Index s = i) ∧
      (∀ i, i ∈ st.2 ↔ ∃ s, s ∈ pre ∧ live s ∧ claimOf InstanceOperationUpdate s = Some i))); [set_solver|].
    intros pre x _ [o' r'] _ [HA HB]. cbn [fst snd] in *.
    destruct (decide (Index x ∈ unpinned)) as [Hin|Hin]; [|destruct (claimOf _ x) as [t|] eqn:Et]; cbn [fst snd];
      (split; intros i; rewrite exists_snoc, ?elem_of_union, ?elem_of_singleton, ?HA, ?HB); clear HA HB E; unfold live.
    all: split; intros H; destruct_or?; destruct_and?; subst; eauto.
    all: try (by right; eauto). all: try (by left; eauto).
    all: repeat match goal with H : is_Some _ |- _ => destruct H end; simplify_eq; first [done|by eauto|contradiction]. }
  rewrite (foldl_agree _ (λ out s, if bool_decide (Index s ∈ referenced) then {[Index s]} ∪ out else out)).
  2:{ intros out s. by destruct (decide _), (bool_decide_reflect (Index s ∈ referenced)). }
  rewrite (foldl_collect (λ s, bool_decide (Index s ∈ referenced)) Index), Ho.
  setoid_rewrite bool_decide_eq_true. setoid_rewrite Href. setoid_rewrite claimsAs_claimOf.
  rewrite (liveUpdate_iff r Hr). split.
  - intros [(s & Hs & Hl & Hc & Ei)|(x & Hx & (s & Hs & Hl & Hc) & Ei)].
    + left. by rewrite <-(NoDup_fmap_elem Index rows s r).
    + right. exists s. rewrite <-Ei. rewrite (failedGang_iff s Hs). done.
  - intros [[Hc Hl]|(s & Hs & Hc & Hl)].
    + left. by exists r.
    + right. exists r. rewrite (failedGang_iff s Hs) in Hl. split; [done|]. split; [|done]. by exists s.
Qed.
End reading.

(** ** The selection, on the rows *)

Section selection.
Context (rows : list InstanceStatus) (n : Z) (blocks : list RetryBlock) (cordoned : gset Z).
Context (targetOf sourceOf : gmap Z Z).
Local Abbreviation sel := (readSelection rows n blocks cordoned targetOf sourceOf).

(** The pass takes the sources it retires out of the sources, and no others. *)
Lemma releasePromotedSources_sources instances (byIndex : gmap Z InstanceStatus) (claims : gmap Z Z) (members sources : gset Z) i :
  let '(_, sources', retiring') := releasePromotedSources instances byIndex claims members sources in
  i ∈ sources' ↔ i ∈ sources ∧ i ∉ retiring'.
Proof.
  unfold releasePromotedSources.
  apply (foldl_invariant (λ st : gset Z * gset Z * gset Z, let '(_, sources', retiring') := st in
    i ∈ sources' ↔ i ∈ sources ∧ i ∉ retiring')); [set_solver|].
  intros x [[ms ss] rs] _ HQ. repeat case_match; simplify_eq; set_solver.
Qed.

Lemma read_sources i :
  i ∈ pairSources sel ↔ i ∈ migrationSourceIndices rows ∪ updateSurgeSourceIndices rows ∧ i ∉ retiring sel.
Proof using.
  rewrite read_eta. cbn [pairSources retiring]. unfold readPairs.
  pose proof (releasePromotedSources_sources rows (readRows rows blocks cordoned targetOf).1 (readClaims rows).1
    (readClaims rows).2 (migrationSourceIndices rows ∪ updateSurgeSourceIndices rows) i) as H.
  by destruct (releasePromotedSources _ _ _ _ _) as [[??]?].
Qed.

Hypothesis Hnd : NoDup (Index <$> rows).

Lemma retiring_iff r : r ∈ rows → Index r ∈ retiring sel ↔ ∃ r', handsOverTo rows r r'.
Proof using Hnd.
  intros Hr. rewrite read_retiring. split.
  - intros (s & t & Hs & Ht & Ei). assert (s = r) as -> by (by eapply NoDup_fmap_elem).
    apply releases_iff in Ht as (r' & ? & _); [|done..]. eauto.
  - intros (r' & Hh). exists r, (Index r'). split; [done|]. split; [|done]. apply releases_iff; eauto.
Qed.

(** Neither half of a pair that has handed over. *)
Lemma unreleased_iff r :
  r ∈ rows →
  (∀ s t, s ∈ rows → releases (readRows rows blocks cordoned targetOf).1 (readClaims rows).1 s = Some t →
          Index r ≠ Index s ∧ Index r ≠ t) ↔
  (¬ ∃ r', handsOverTo rows r r') ∧ ¬ ∃ s, s ∈ rows ∧ handsOverTo rows s r.
Proof using Hnd.
  intros Hr. split.
  - intros Hall. split.
    + intros (r' & Hh). destruct (Hall r (Index r') Hr) as [? _]; [apply releases_iff; eauto|done].
    + intros (s & Hs & Hh). destruct (Hall s (Index r) Hs) as [_ ?]; [apply releases_iff; eauto|done].
  - intros [H1 H2] s t Hs Ht. apply releases_iff in Ht as (r' & Hh & <-); [|done..]. split; intros E.
    + assert (s = r) as -> by (by eapply NoDup_fmap_elem). eauto.
    + pose proof Hh as [Hr' _]. assert (r' = r) as -> by (by eapply NoDup_fmap_elem). eauto.
Qed.

Lemma migrationPinned_iff r :
  migrationPinned r = true ↔ Phase r = "Migrating" ∨ ∃ op, Operation r = Some op ∧ OType op = "Migrate".
Proof.
  unfold migrationPinned, hasOperation, InstancePhaseMigrating, InstanceOperationMigrate.
  rewrite orb_true_iff, bool_decide_eq_true. destruct (Operation r); [rewrite bool_decide_eq_true|]; naive_solver.
Qed.

Lemma pairRow_iff r : r ∈ rows → Index r ∈ pairMembers sel ↔ pairRow rows r.
Proof using Hnd.
  intros Hr. rewrite read_members, (unreleased_iff r Hr). unfold pairRow. apply and_iff_compat_r.
  unfold readClaims. rewrite (proj2 (claimReplacements_spec _ _)), elem_of_union, (updateInFlight_iff rows Hnd r Hr).
  assert (Index r ∈ migrationInFlightIndices rows ↔ migrationPinned r = true) as ->.
  { unfold migrationInFlightIndices. rewrite (foldl_collect migrationPinned Index). split; [|eauto].
    intros [?%elem_of_empty|(s & Hs & E & Ei)]; [done|]. by rewrite <-(NoDup_fmap_elem Index rows s r). }
  rewrite migrationPinned_iff.
  assert ((∃ s, s ∈ claimants rows (Index r) ∧ Index s ∉ failedGangSurgeSources rows) ↔
          ∃ s, s ∈ rows ∧ claimed s (Index r) ∧ ¬ failedGang rows s) as ->.
  { unfold claimants. split; intros (s & Hs).
    - destruct Hs as [[Hc Hs]%list_elem_of_filter Hf]. exists s. by rewrite claimed_iff, failedGang_iff.
    - destruct Hs as (Hs & Hc & Hf). exists s. rewrite failedGang_iff, claimed_iff in * by done. by rewrite list_elem_of_filter. }
  assert ((∃ s, s ∈ rows ∧ claimsAs "Update" s (Index r) ∧ ¬ failedGang rows s) →
          ∃ s, s ∈ rows ∧ claimed s (Index r) ∧ ¬ failedGang rows s) by (unfold claimed; naive_solver).
  tauto.
Qed.

Lemma pairSources_iff r :
  r ∈ rows → Index r ∈ pairMembers sel → Index r ∈ pairSources sel ↔ Phase r = "Migrating" ∨ liveUpdate rows r.
Proof using Hnd.
  intros Hr Hm. apply pairRow_iff in Hm as (_ & Hno & _); [|done].
  rewrite read_sources. rewrite (liveUpdate_iff rows Hnd r Hr), elem_of_union.
  assert (Index r ∈ migrationSourceIndices rows ↔ Phase r = "Migrating") as ->.
  { unfold migrationSourceIndices.
    rewrite (foldl_agree _ (λ out s, if bool_decide (Phase s = InstancePhaseMigrating) then {[Index s]} ∪ out else out))
      by (intros out s; by destruct (decide _), (bool_decide_reflect (Phase s = InstancePhaseMigrating))).
    rewrite (foldl_collect (λ s, bool_decide (Phase s = InstancePhaseMigrating)) Index).
    setoid_rewrite bool_decide_eq_true. split; [|by eauto].
    intros [?%elem_of_empty|(s & Hs & E & Ei)]; [done|]. by rewrite <-(NoDup_fmap_elem Index rows s r). }
  assert (Index r ∈ updateSurgeSourceIndices rows ↔
          is_Some (claimOf InstanceOperationUpdate r) ∧ Index r ∉ failedGangSurgeSources rows) as ->.
  { unfold updateSurgeSourceIndices. set (unpinned := failedGangSurgeSources rows).
    set (live s := bool_decide (is_Some (claimOf InstanceOperationUpdate s) ∧ Index s ∉ unpinned)).
    rewrite (foldl_agree _ (λ out s, if live s then {[Index s]} ∪ out else out)).
    - rewrite (foldl_collect live Index). unfold live. setoid_rewrite bool_decide_eq_true. split; [|by eauto].
      intros [?%elem_of_empty|(s & Hs & E & Ei)]; [done|]. by rewrite <-(NoDup_fmap_elem Index rows s r).
    - intros out s. unfold live. destruct (claimOf _ s), (decide (Index s ∈ unpinned)); case_bool_decide as H; try done;
        (by destruct H as [[??]?]) || (exfalso; apply H; eauto). }
  rewrite retiring_iff by done. tauto.
Qed.
(** What a row the loop dereferences records. *)
Lemma failedGang_claim s t : failedGang rows s → Operation s ≫= SurgeIndex = Some t → claimsAs "Update" s t.
Proof using.
  intros (_ & t' & Hc & _) E. pose proof Hc as (op & Eop & _ & Hi). rewrite Eop in E. cbn in E.
  rewrite Hi in E. by injection E as <-.
Qed.

Lemma claimsAs_det typ s t t' : claimsAs typ s t → claimsAs typ s t' → t = t'.
Proof using. rewrite !claimsAs_claimOf. congruence. Qed.

Definition failedClaim (t : Z) (s : InstanceStatus) : Prop := failedGang rows s ∧ claimsAs "Update" s t.

(** The maps after the rows [pre]. *)
Definition Following (pre : list InstanceStatus) (mk : gmap Z Z * gmap Z Z) : Prop :=
  (∀ s t, s ∈ rows → mk.1 !! Index s = Some t ↔ t ∈ existingInstanceIndices rows ∧ firstOf (failedClaim t) pre s) ∧
  (∀ t, is_Some (mk.2 !! t) ↔ t ∈ existingInstanceIndices rows ∧ ∃ s, s ∈ pre ∧ failedClaim t s).

(** A row that is the first to claim nothing leaves them. *)
Lemma Following_skip pre x mk :
  (∀ t, t ∈ existingInstanceIndices rows → failedClaim t x → ∃ s, s ∈ pre ∧ failedClaim t s) →
  Following pre mk → Following (pre ++ [x]) mk.
Proof using.
  intros Hx [HA HB]. split.
  - intros s t Hs. rewrite (HA s t Hs), firstOf_snoc. split; [tauto|].
    intros [Hp [?|(-> & Hc & Hall)]]; [done|]. exfalso. destruct (Hx t Hp Hc) as (s & Hin & Hs'). by apply (Hall s).
  - intros t. rewrite HB, exists_snoc. split; [tauto|]. intros [Hp [?|Hc]]; [done|]. split; [done|]. by apply Hx.
Qed.

Lemma Following_insert pre x t mk :
  x ∈ rows → t ∈ existingInstanceIndices rows → failedClaim t x → mk.2 !! t = None →
  Following pre mk → Following (pre ++ [x]) (<[Index x := t]> mk.1, <[t := Index x]> mk.2).
Proof using Hnd.
  intros Hx Hp Hc Hno [HA HB].
  assert (∀ s, s ∈ pre → ¬ failedClaim t s) as Hnone.
  { intros s Hs Hf. apply eq_None_not_Some in Hno. apply Hno, HB. eauto. }
  split; cbn [fst snd].
  - intros s u Hs. rewrite firstOf_snoc. destruct (decide (s = x)) as [->|Hne].
    + rewrite lookup_insert_eq. split.
      * intros [= <-]. split; [done|]. by right.
      * intros [_ [(k & _ & [_ Hu] & _)|(_ & [_ Hu] & _)]]; f_equal; apply (claimsAs_det "Update" x); (apply Hc || done).
    + rewrite lookup_insert_ne by (intros E; apply Hne; by eapply NoDup_fmap_elem). rewrite (HA s u Hs). naive_solver.
  - intros u. rewrite exists_snoc. destruct (decide (u = t)) as [->|Hne].
    + rewrite lookup_insert_eq. split; [intros _; tauto|by eauto].
    + rewrite lookup_insert_ne, HB by done. split; [tauto|]. intros [? [?|[_ Hu]]]; [tauto|]. exfalso. apply Hne.
      apply (claimsAs_det "Update" x); [done|apply Hc].
Qed.

Hypothesis Hfollowers : failedGangSurgeFollowers rows = Some (targetOf, sourceOf).

Lemma followers_following : Following rows (targetOf, sourceOf).
Proof using Hnd Hfollowers.
  cut (∀ mk, failedGangSurgeFollowers rows = Some mk → Following rows mk); [intros H; by apply H|].
  unfold failedGangSurgeFollowers.
  apply (foldl_ind _ (λ pre o, ∀ mk, o = Some mk → Following pre mk)).
  { intros mk [= <-]. split; intros; cbn [fst snd]; rewrite lookup_empty.
    - split; [done|]. by intros [_ (k & Hk & _)].
    - split; [by intros [? ?]|]. intros [_ (s & ?%elem_of_nil & _)]. done. }
  intros pre x post [[m k]|] E HQ mk; [|done]. specialize (HQ _ eq_refl). unfold followRow. cbn [mbind option_bind].
  assert (x ∈ rows) as Hx by (rewrite E; set_solver).
  destruct (decide (Index x ∉ _)) as [Hu|Hu%dec_stable].
  { intros [= <-]. apply Following_skip; [|done]. intros t _ [Hf _]. by apply failedGang_iff in Hf. }
  apply failedGang_iff in Hu; [|done..]. destruct (Operation x ≫= SurgeIndex) as [t|] eqn:Et; cbn [mbind option_bind]; [|done].
  pose proof (failedGang_claim x t Hu Et) as Hc.
  destruct (decide (t ∉ _)) as [Hp|Hp%dec_stable].
  { intros [= <-]. apply Following_skip; [|done]. intros u ? [_ Hc']. by rewrite (claimsAs_det _ _ _ _ Hc Hc') in Hp. }
  destruct (decide _) as [Hs|Hs%eq_None_not_Some]; intros [= <-].
  - apply Following_skip; [|done]. intros u _ [_ Hc']. rewrite <-(claimsAs_det _ _ _ _ Hc Hc'). by apply HQ in Hs as [_ ?].
  - by apply (Following_insert pre x t (m, k)).
Qed.

Lemma follows_iff r s : r ∈ rows → s ∈ rows → failedTargetOf sel !! Index s = Some (Index r) ↔ follows rows r s.
Proof using Hnd Hfollowers.
  intros Hr Hs. rewrite read_eta. cbn [failedTargetOf]. rewrite (proj1 followers_following) by done. unfold follows.
  rewrite elem_of_existing. split; [by intros [_ ?]|]. intros [_ ?]. split; [|done]. apply list_elem_of_fmap. eauto.
Qed.

Lemma followed_iff r :
  r ∈ rows → failedSourceOf sel !! Index r = None ↔ ¬ ∃ s, s ∈ rows ∧ failedGang rows s ∧ claimsAs "Update" s (Index r).
Proof using Hnd Hfollowers.
  intros Hr. rewrite read_eta. cbn [failedSourceOf]. rewrite eq_None_not_Some. apply not_iff_compat.
  rewrite (proj2 followers_following), elem_of_existing. unfold failedClaim. split; [by intros [_ ?]|].
  intros H. split; [|done]. apply list_elem_of_fmap. eauto.
Qed.

Lemma steady_iff r : r ∈ rows → steadyRow sel (Index r) ↔ steady rows r.
Proof using Hnd Hfollowers.
  intros Hr. unfold steadyRow, steady. by rewrite pairRow_iff, retiring_iff, followed_iff.
Qed.

(** The row's own node, or its follower's. *)
Definition cordonedRow (r : InstanceStatus) : bool :=
  match targetOf !! Index r with
  | Some target => if decide (target ∈ cordoned) then true else bool_decide (Index r ∈ cordoned)
  | None => bool_decide (Index r ∈ cordoned)
  end.

Lemma cordonedRow_iff r : r ∈ rows → cordonedRow r = true ↔ onCordon rows cordoned r.
Proof using Hnd Hfollowers n blocks.
  intros Hr. unfold cordonedRow, onCordon.
  assert (∀ f, follows rows f r ↔ f ∈ rows ∧ targetOf !! Index r = Some (Index f)) as Hf.
  { intros f. split; [intros H; pose proof H as [Hin _]|intros [Hin H]].
    - split; [done|]. apply follows_iff in H; [|done..]. by rewrite read_eta in H.
    - apply follows_iff; [done..|]. by rewrite read_eta. }
  setoid_rewrite Hf. destruct (targetOf !! Index r) as [t|] eqn:Et.
  - apply (followers_read _ _ _ _ _ Hfollowers) in Et as (_ & Ht & _).
    apply elem_of_existing, list_elem_of_fmap in Ht as (f & -> & Hin).
    case_decide; [naive_solver|]. rewrite bool_decide_eq_true. split; [by left|].
    intros [?|(f' & [_ [= E]] & ?)]; [done|]. by rewrite <-E in *.
  - rewrite bool_decide_eq_true. naive_solver.
Qed.

Lemma rowRank_row r : r ∈ rows → rowRank sel (Index r) = scaleDownRank r blocks (cordonedRow r).
Proof using Hnd Hfollowers.
  intros Hr. unfold rowRank. rewrite read_eta. cbn [PlanIndices.rank]. unfold readRows, rankRows.
  assert (∀ s, s ∈ rows → (foldl (λ '(byIndex, rank) s, (<[Index s := s]> byIndex, <[Index s := scaleDownRank s blocks (cordonedRow s)]> rank))
    (∅ : gmap Z InstanceStatus, ∅ : gmap Z Z) rows).2 !! Index s = Some (scaleDownRank s blocks (cordonedRow s))) as H.
  { apply (foldl_ind _ (λ pre (rr : gmap Z InstanceStatus * gmap Z Z), ∀ s, s ∈ pre → rr.2 !! Index s = Some (scaleDownRank s blocks (cordonedRow s)))).
    { intros s Hs. by apply elem_of_nil in Hs. }
    intros pre x post [byIndex rank] E HQ s [Hs| ->]%elem_of_snoc; cbn; [|by rewrite lookup_insert_eq].
    destruct (decide (Index x = Index s)) as [Ei|]; [|rewrite lookup_insert_ne by done; by apply HQ].
    assert (x = s) as -> by (eapply NoDup_fmap_elem; [exact Hnd|rewrite E; set_solver..|done]). by rewrite lookup_insert_eq. }
  rewrite (foldl_agree _ (λ '(byIndex, rank) s, (<[Index s := s]> byIndex, <[Index s := scaleDownRank s blocks (cordonedRow s)]> rank))).
  - by rewrite H.
  - intros [byIndex rank] x. done.
Qed.
End selection.

(** ** The order of rank *)

Lemma undriven_iff r : creatingWithNoOperation r = true ↔ undriven r.
Proof. unfold creatingWithNoOperation, undriven. by rewrite andb_true_iff, !bool_decide_eq_true. Qed.

Lemma idle_iff r : negb (keepsPreference r) = true ↔ idle r.
Proof.
  unfold keepsPreference, idle, InstancePhaseReady. rewrite negb_true_iff, <-not_true_iff_false.
  by rewrite andb_true_iff, orb_true_iff, !bool_decide_eq_true.
Qed.

Lemma RemembersCrash_iff r :
  RemembersCrash r = true ↔ ∃ failed ready, LastFailure r = Some failed ∧ ReadySince r = Some ready ∧ ready < FTime failed.
Proof.
  unfold RemembersCrash. destruct (LastFailure r) as [f|], (ReadySince r) as [t|]; rewrite ?bool_decide_eq_true; naive_solver.
Qed.

Lemma onRevision_iff r rev :
  onRevision r rev ↔ rev ≠ "" ∧ rev = if decide (TargetRevision r = "") then RunningRevision r else TargetRevision r.
Proof. unfold onRevision. case_decide; naive_solver. Qed.

Lemma list_find_first {A} (P : A → Prop) `{∀ x, Decision (P x)} (l : list A) x :
  snd <$> list_find P l = Some x ↔ firstOf P l x.
Proof.
  rewrite fmap_Some. split.
  - intros ([k y] & (Hk & Hy & Hall)%list_find_Some & ->). exists k. split; [done|]. split; [done|].
    intros j z Hj Hlt. by apply (Hall j z).
  - intros (k & Hk & Hx & Hall). exists (k, x). split; [|done]. apply list_find_Some. split; [done|]. split; [done|].
    intros j z Hj Hlt. by apply (Hall j z).
Qed.

Lemma FindRetryBlock_iff blocks rev b : FindRetryBlock blocks rev = Some b ↔ firstOf (λ b, BTargetRevision b = rev) blocks b.
Proof. apply list_find_first. Qed.

Lemma failing_iff blocks r : rowOnFailingRevision r blocks = true ↔ failing blocks r.
Proof.
  unfold rowOnFailingRevision, failing. setoid_rewrite onRevision_iff. setoid_rewrite <-FindRetryBlock_iff.
  setoid_rewrite <-RemembersCrash_iff. cbv zeta.
  set (rev := if decide (TargetRevision r = "") then RunningRevision r else TargetRevision r).
  case_decide as Hrev; [naive_solver|].
  unfold RetryBlockHeld, RetryBlockBackoff, RetryBlockRetryInProgress.
  destruct (FindRetryBlock blocks rev) as [b|] eqn:Eb; [|naive_solver].
  case_decide as Hs; [naive_solver|]. case_decide as Hp; naive_solver.
Qed.

(** Comparing ranks is comparing faults, the most serious first. *)
Lemma scaleDownRank_ahead rows blocks cordoned a b (ca cb : bool) :
  ca = true ↔ onCordon rows cordoned a → cb = true ↔ onCordon rows cordoned b →
  scaleDownRank a blocks ca < scaleDownRank b blocks cb
  ∨ (scaleDownRank a blocks ca = scaleDownRank b blocks cb ∧ Index a < Index b) →
  ahead rows blocks cordoned a b.
Proof.
  intros Ha Hb. unfold ahead, fewerFaults. rewrite <-Ha, <-Hb, <-!undriven_iff, <-!failing_iff, <-!idle_iff.
  unfold scaleDownRank, lowestScaleDownRank.
  destruct (creatingWithNoOperation a), (creatingWithNoOperation b), ca, cb, (rowOnFailingRevision a blocks),
    (rowOnFailingRevision b blocks), (keepsPreference a), (keepsPreference b); cbn; intros H; intuition (congruence || lia).
Qed.

(** ** The refinement *)

(** A list of indexes of rows, as a list of rows. *)
Lemma rows_of (rows : list InstanceStatus) (l : list Z) :
  NoDup (Index <$> rows) → (∀ i, i ∈ l → i ∈ Index <$> rows) →
  ∃ lr, Index <$> lr = l ∧ ∀ r, r ∈ lr ↔ r ∈ rows ∧ Index r ∈ l.
Proof.
  intros Hnd. induction l as [|i l IH]; intros Hl.
  { exists []. split; [done|]. intros r. rewrite !elem_of_nil. tauto. }
  destruct IH as (lr & <- & Hlr); [intros j Hj; apply Hl; by right|].
  destruct (proj1 (list_elem_of_fmap _ _ _) (Hl i (list_elem_of_here _ _))) as (s & -> & Hs).
  exists (s :: lr). split; [done|]. intros r. rewrite !elem_of_cons, Hlr. split; [naive_solver|].
  intros [Hr [E|?]]; [left; by eapply NoDup_fmap_elem|by right].
Qed.

(** The unused indexes a scale-up takes. *)
Lemma lowestUnused_lowest k (used : gset Z) :
  length (lowestUnused k used) = k ∧
  ∀ i, i ∈ lowestUnused k used → 0 ≤ i ∧ (i ∉ used) ∧ ∀ j, 0 ≤ j < i → j ∈ lowestUnused k used ∨ j ∈ used.
Proof.
  unfold lowestUnused. split.
  - rewrite length_take. pose proof (unused_enough used k 0). lia.
  - intros i Hi. pose proof Hi as [Hu [? Hm]%elem_of_seqZ]%elem_of_take_in%list_elem_of_filter.
    split; [done|]. split; [done|]. intros j Hj. destruct (decide (j ∈ used)) as [?|Hn]; [by right|]. left.
    eapply take_sorted_down; [apply StronglySorted_filter, seqZ_sorted|exact Hi| |lia].
    apply list_elem_of_filter. rewrite elem_of_seqZ. split; [done|lia].
Qed.

Section refinement.
Context (rows : list InstanceStatus) (n : Z) (blocks : list RetryBlock) (cordoned : gset Z).
Context (targetOf sourceOf : gmap Z Z) (out : list Z) (order sources : list InstanceStatus).
Local Abbreviation sel := (readSelection rows n blocks cordoned targetOf sourceOf).
Hypothesis Hnd : NoDup (Index <$> rows).
Hypothesis Hbound : Z.of_nat (length rows) + Z.max 0 n < 2 ^ 30.
Hypothesis Hfollowers : failedGangSurgeFollowers rows = Some (targetOf, sourceOf).
Hypothesis Hout : instancePlanIndices rows n blocks cordoned = Some out.
Hypothesis Eorder : Index <$> order = byRank sel.
Hypothesis Horder : ∀ r, r ∈ order ↔ r ∈ rows ∧ Index r ∈ byRank sel.
Hypothesis Hsources : ∀ r, r ∈ sources ↔ r ∈ rows ∧ Index r ∈ filter (λ i, i ∈ pairSources sel) (keptPairs sel).

Lemma row_existing r : r ∈ rows → Index r ∈ existing sel.
Proof using. intros Hr. apply read_existing, list_elem_of_fmap. eauto. Qed.

Lemma order_ahead : StronglySorted (ahead rows blocks cordoned) order.
Proof using Hnd Hfollowers Eorder Horder.
  pose proof (byRank_sorted sel (read_existing_sorted _ _ _ _ _ _)) as Hs. rewrite <-Eorder in Hs.
  eapply StronglySorted_impl_elem; [|exact (StronglySorted_of_fmap _ _ _ Hs)].
  intros a b [Ha _]%Horder [Hb _]%Horder. unfold rankedBefore.
  rewrite !(rowRank_row rows n blocks cordoned targetOf sourceOf Hnd Hfollowers) by done.
  by apply scaleDownRank_ahead; apply (cordonedRow_iff rows n blocks cordoned targetOf sourceOf).
Qed.

Lemma order_steady r : r ∈ order ↔ r ∈ rows ∧ steady rows r.
Proof using Hnd Hfollowers Horder.
  rewrite Horder, byRank_elem.
  pose proof (ranks_complete _ (rankOf_bounds rows n blocks cordoned targetOf sourceOf (Index r))).
  pose proof (row_existing r). pose proof (steady_iff rows n blocks cordoned targetOf sourceOf Hnd Hfollowers r). tauto.
Qed.

Lemma sources_charged r : r ∈ sources ↔ r ∈ rows ∧ chargedSource rows r.
Proof using Hnd Hsources.
  rewrite Hsources. unfold keptPairs, chargedSource. rewrite !list_elem_of_filter.
  pose proof (row_existing r). pose proof (pairRow_iff rows n blocks cordoned targetOf sourceOf Hnd r).
  pose proof (pairSources_iff rows n blocks cordoned targetOf sourceOf Hnd r). tauto.
Qed.

Local Abbreviation kept := (take (Z.to_nat (n - chargedPairs sel)) order).

Lemma kept_filled r : r ∈ rows → r ∈ kept ↔ Index r ∈ filled sel.
Proof using Hnd Eorder Horder.
  intros Hr. assert (filled sel = Index <$> kept) as ->.
  { rewrite <-firstn_map. unfold filled. rewrite <-Eorder. by rewrite read_eta. }
  rewrite list_elem_of_fmap. split; [by eauto|]. intros (s & E & Hs).
  rewrite (NoDup_fmap_elem Index rows r s Hnd Hr); [done| |done]. by apply elem_of_take_in, Horder in Hs as [? _].
Qed.

Lemma plan_rows i :
  i ∈ out ↔ i ∈ freshIndexes sel ∨
    ∃ r, r ∈ rows ∧ Index r = i ∧ (pairRow rows r ∨ r ∈ kept ∨ ∃ s, s ∈ kept ∧ follows rows r s).
Proof using Hnd Hbound Hfollowers Hout Eorder Horder.
  rewrite (plan_elem _ _ _ _ _ _ _ Hbound Hfollowers Hout).
  pose proof (pairRow_iff rows n blocks cordoned targetOf sourceOf Hnd) as Hpair.
  pose proof (follows_iff rows n blocks cordoned targetOf sourceOf Hnd Hfollowers) as Hfollow.
  assert (∀ i, i ∈ existing sel → ∃ r, Index r = i ∧ r ∈ rows) as Hrow.
  { intros j (r & -> & Hr)%read_existing%list_elem_of_fmap. eauto. }
  assert (∀ j, j ∈ filled sel → ∃ r, Index r = j ∧ r ∈ rows) as Hfrow.
  { intros j (_ & _ & Hj)%elem_of_take_in%byRank_elem. by apply Hrow. }
  assert (i ∈ keptPairs sel ↔ ∃ r, r ∈ rows ∧ Index r = i ∧ pairRow rows r) as Hk.
  { unfold keptPairs. rewrite list_elem_of_filter. split.
    - intros [Hm (r & <- & Hr)%Hrow]. exists r. by rewrite <-Hpair.
    - intros (r & Hr & <- & Hp). rewrite Hpair by done. split; [done|by apply row_existing]. }
  assert (i ∈ filled sel ↔ ∃ r, r ∈ rows ∧ Index r = i ∧ r ∈ kept) as Hfill.
  { split; [|intros (r & Hr & <- & ?); by apply kept_filled].
    intros Hi. destruct (Hfrow i Hi) as (r & <- & Hr). exists r. by rewrite kept_filled. }
  assert (i ∈ followers sel ↔ ∃ r, r ∈ rows ∧ Index r = i ∧ ∃ s, s ∈ kept ∧ follows rows r s) as Hfoll.
  { unfold followers. rewrite list_elem_of_omap. split.
    - intros (j & Hj & Et). destruct (Hfrow j Hj) as (s & <- & Hs).
      destruct (Hrow i) as (r & <- & Hr); [by eapply read_followers|]. exists r. split; [done|]. split; [done|].
      exists s. rewrite kept_filled by done. split; [done|]. by apply Hfollow.
    - intros (r & Hr & <- & s & Hs & Hfs). assert (s ∈ rows) as Hsr by (by apply elem_of_take_in, Horder in Hs as [? _]).
      exists (Index s). rewrite <-kept_filled by done. split; [done|]. by apply Hfollow. }
  rewrite Hk, Hfill, Hfoll. clear. naive_solver.
Qed.

Lemma fresh_count :
  length (freshIndexes sel) = (Z.to_nat (n - chargedPairs sel) - length order)%nat ∧
  ∀ i, i ∈ freshIndexes sel → 0 ≤ i ∧ (i ∉ Index <$> rows) ∧ ∀ j, 0 ≤ j < i → j ∈ freshIndexes sel ∨ j ∈ Index <$> rows.
Proof using Eorder.
  unfold freshIndexes. assert (replicas sel = n) as Hn by (by rewrite read_eta).
  destruct (lowestUnused_lowest (Z.to_nat (replicas sel - chargedPairs sel - Z.of_nat (length (filled sel)))) (list_to_set (existing sel)))
    as [-> Hlow].
  split.
  - unfold filled. rewrite length_take, <-Eorder, length_fmap, Hn. lia.
  - intros i (? & Hi & Hall)%Hlow. rewrite elem_of_list_to_set, read_existing in Hi. split; [done|]. split; [done|].
    intros j Hj. specialize (Hall j Hj). by rewrite elem_of_list_to_set, read_existing in Hall.
Qed.
End refinement.

(** C19: with at most one row per index the plan of indexes is always made, and is a
    strictly increasing list of exactly: the rows of the surge pairs in flight (a
    migration's row, the row of an update whose gang has not failed, the row either
    of them claims, less both halves of every pair that has handed over); the first
    steady rows, as many as the replica count leaves after the sources of those
    pairs; the rows that follow a failed gang source kept that way; and unused
    indexes, the lowest there are, for what the rows cannot fill.  Steady rows are
    kept in an order that puts the rows nothing has driven yet last, and otherwise
    lets a cordoned node (of the row or its follower) count most against a row,
    then a failing revision, then not serving, then the higher index.  All of it is
    said of the rows, the retry blocks and the cordoned indexes themselves. *)
Theorem instancePlanIndices_refines rows n blocks cordoned :
  NoDup (Index <$> rows) → Z.of_nat (length rows) + Z.max 0 n < 2 ^ 30 →
  ∃ out order sources fresh,
    instancePlanIndices rows n blocks cordoned = Some out ∧ StronglySorted Z.lt out ∧
    StronglySorted (ahead rows blocks cordoned) order ∧ (∀ r, r ∈ order ↔ r ∈ rows ∧ steady rows r) ∧
    NoDup sources ∧ (∀ r, r ∈ sources ↔ r ∈ rows ∧ chargedSource rows r) ∧
    let room := Z.to_nat (n - Z.of_nat (length sources)) in
    let kept := take room order in
    (∀ i, i ∈ out ↔ i ∈ fresh ∨ ∃ r, r ∈ rows ∧ Index r = i ∧
                    (pairRow rows r ∨ r ∈ kept ∨ ∃ s, s ∈ kept ∧ follows rows r s)) ∧
    length fresh = (room - length order)%nat ∧
    (∀ i, i ∈ fresh → 0 ≤ i ∧ (i ∉ Index <$> rows) ∧ ∀ j, 0 ≤ j < i → j ∈ fresh ∨ j ∈ Index <$> rows).
Proof.
  intros Hnd Hb. destruct (plan_returns rows n blocks cordoned Hnd Hb) as (targetOf & sourceOf & out & Hf & Hout).
  set (sel := readSelection rows n blocks cordoned targetOf sourceOf).
  destruct (rows_of rows (byRank sel) Hnd) as (order & Eorder & Horder).
  { intros i (_ & _ & Hi)%byRank_elem. by apply read_existing in Hi. }
  destruct (rows_of rows (filter (λ i, i ∈ pairSources sel) (keptPairs sel)) Hnd) as (sources & Esources & Hsources).
  { intros i [_ [_ Hi]%list_elem_of_filter]%list_elem_of_filter. by apply read_existing in Hi. }
  assert (Z.of_nat (length sources) = chargedPairs sel) as Hcharged.
  { unfold chargedPairs. by rewrite <-Esources, length_fmap. }
  exists out, order, sources, (freshIndexes sel). cbv zeta. rewrite Hcharged.
  split; [done|]. split; [by eapply plan_sorted|]. split; [by eapply order_ahead|]. split; [by eapply order_steady|].
  split; [apply NoDup_fmap_1 with Index; rewrite Esources; by apply NoDup_filter, NoDup_filter, read_existing_NoDup|].
  split; [by eapply sources_charged|]. split; [by eapply plan_rows|]. by eapply fresh_count.
Qed.

Lemma instancePlanIndices_refines_witness :
  let rows := [movingRow 0 2; idleRow 2; readyRow 1; idleRow 3] in
  instancePlanIndices rows 2 [] ∅ = Some [0; 1; 2] ∧
  ∃ out, instancePlanIndices rows 2 [] ∅ = Some out ∧ StronglySorted Z.lt out ∧
         ∀ r, r ∈ rows → pairRow rows r → Index r ∈ out.
Proof.
  split; [vm_compute; reflexivity|].
  destruct (instancePlanIndices_refines [movingRow 0 2; idleRow 2; readyRow 1; idleRow 3] 2 [] ∅
    ltac:(by apply (bool_decide_unpack _)) ltac:(vm_compute; reflexivity))
    as (out & order & sources & fresh & Hout & Hs & _ & _ & _ & _ & Hin & _).
  exists out. split; [exact Hout|]. split; [exact Hs|]. intros r Hr Hp. apply Hin. right. exists r. auto.
Defined.
