(* ===== verification/RowOwner.v ===== *)
(** * Who drives an instance row

    [pkg/controller/v1beta1/workload/types/owner.go]: the state a persisted row is
    in, the one pass that may advance it, the verb its operation still belongs to,
    and the grouping of a pass's rows by owner; with the in-flight counters of
    [workload/escalation/budget.go], which read the same table. *)

From S2P Require Import Prelude PlanIndices.
Local Open Scope Z_scope.

(** ** States and owners *)

Definition InstancePhaseEmpty := "".
Definition InstancePhasePending := "Pending".
Definition InstancePhaseRestarting := "Restarting".
Definition InstanceOperationCreate := "Create".
Definition InstanceOperationRestart := "Restart".
Definition InstanceOperationDelete := "Delete".
Definition UpdateStepInPlace := "InPlace".
Definition UpdateStepDrain := "Drain".
Definition UpdateStepParked := "Parked".
Definition UpdateStrategySurgeThenDrain := "SurgeThenDrain".
Definition PodGroupOwnershipConflictReason := "PodGroupOwnershipConflict".

Inductive RowOwner := OwnerNone | OwnerCreate | OwnerUpdate | OwnerRestart | OwnerMigrate | OwnerDelete.
#[export] Instance owner_eq_dec : EqDecision RowOwner.
Proof. solve_decision. Defined.

Inductive RowState :=
  | StateUnknown | StateEmpty | StatePending | StateReady | StateFailed | StateCreateCreatePods
  | StateUpdateSurge | StateUpdateSurgeDrain | StateUpdateGangSurgeTarget | StateUpdateGangSurgeTargetCleanup
  | StateUpdateInPlace | StateUpdateDrain | StateUpdateParked | StateRestartDrain
  | StateMigrateCreateSurge | StateMigrateSurgeTarget | StateDeleteDrain.
#[export] Instance state_eq_dec : EqDecision RowState.
Proof. solve_decision. Defined.

Inductive Event :=
  | EventQuotaDenied | EventUnschedulableSource | EventUnschedulableTarget | EventPodGroupTerminating
  | EventNodeUnknown | EventSourceUnrouted | EventPauseTrue | EventPauseFreeze
  | EventOperationDeadline | EventStuckPodGrace.
#[export] Instance event_eq_dec : EqDecision Event.
Proof. solve_decision. Defined.

Record ownership := mkOwnership { owner : RowOwner; interrupts : list Event }.

Definition ownershipTable (state : RowState) : ownership :=
  let clocks := [EventOperationDeadline; EventStuckPodGrace] in
  match state with
  | StateEmpty => mkOwnership OwnerCreate []
  | StatePending => mkOwnership OwnerCreate [EventStuckPodGrace]
  | StateReady => mkOwnership OwnerNone [EventStuckPodGrace]
  | StateFailed => mkOwnership OwnerNone []
  | StateCreateCreatePods => mkOwnership OwnerCreate clocks
  | StateUpdateSurge | StateUpdateSurgeDrain | StateUpdateGangSurgeTarget | StateUpdateGangSurgeTargetCleanup
  | StateUpdateInPlace | StateUpdateDrain => mkOwnership OwnerUpdate clocks
  | StateUpdateParked => mkOwnership OwnerNone []
  | StateRestartDrain => mkOwnership OwnerRestart clocks
  | StateMigrateCreateSurge | StateMigrateSurgeTarget => mkOwnership OwnerMigrate []
  | StateDeleteDrain => mkOwnership OwnerDelete []
  | StateUnknown => mkOwnership OwnerNone []
  end.

Definition updateStateOf (step : string) : RowState :=
  if decide (step = UpdateStepSurge) then StateUpdateSurge
  else if decide (step = UpdateStepSurgeDrain ∨ step = UpdateStepSurgeDrainSettle) then StateUpdateSurgeDrain
  else if decide (step = UpdateStepGangSurgeTarget) then StateUpdateGangSurgeTarget
  else if decide (step = UpdateStepGangSurgeTargetCleanup) then StateUpdateGangSurgeTargetCleanup
  else if decide (step = UpdateStepInPlace) then StateUpdateInPlace
  else if decide (step = UpdateStepDrain) then StateUpdateDrain
  else if decide (step = UpdateStepParked) then StateUpdateParked
  else StateUnknown.

Definition StateOf (row : option InstanceStatus) : RowState :=
  match row with
  | None => StateEmpty
  | Some s =>
      if decide (Phase s = InstancePhaseFailed) then StateFailed
      else
        match Operation s with
        | None =>
            if decide (Phase s = InstancePhaseEmpty) then StateEmpty
            else if decide (Phase s = InstancePhasePending) then StatePending
            else if decide (Phase s = InstancePhaseReady) then StateReady
            else if decide (Phase s = InstancePhaseMigrating) then StateMigrateCreateSurge
            else StateUnknown
        | Some op =>
            if decide (OType op = InstanceOperationCreate) then StateCreateCreatePods
            else if decide (OType op = InstanceOperationUpdate) then updateStateOf (Step op)
            else if decide (OType op = InstanceOperationRestart) then StateRestartDrain
            else if decide (OType op = InstanceOperationMigrate) then
              if decide (Phase s = InstancePhaseMigrating) then StateMigrateCreateSurge
              else StateMigrateSurgeTarget
            else if decide (OType op = InstanceOperationDelete) then StateDeleteDrain
            else StateUnknown
        end
  end.

Definition Owner (row : option InstanceStatus) : RowOwner := owner (ownershipTable (StateOf row)).

Definition OperationParked (op : InstanceOperation) : bool :=
  bool_decide (OType op = InstanceOperationUpdate) && bool_decide (Step op = UpdateStepParked).

Definition ClaimOf (s : InstanceStatus) : RowOwner :=
  match Operation s with
  | None => OwnerNone
  | Some op =>
      if OperationParked op then OwnerNone
      else if decide (OType op = InstanceOperationCreate) then OwnerCreate
      else if decide (OType op = InstanceOperationUpdate) then OwnerUpdate
      else if decide (OType op = InstanceOperationRestart) then OwnerRestart
      else if decide (OType op = InstanceOperationMigrate) then OwnerMigrate
      else if decide (OType op = InstanceOperationDelete) then OwnerDelete
      else OwnerNone
  end.

Definition settledState (state : RowState) : bool :=
  match state with
  | StateEmpty | StatePending | StateReady | StateFailed | StateUpdateParked | StateUnknown => true
  | _ => false
  end.

Definition InFlight (row : option InstanceStatus) : bool := negb (settledState (StateOf row)).

Definition UpdateContinuation (s : InstanceStatus) : bool :=
  if decide (Phase s = InstancePhaseUpdating) then bool_decide (StateOf (Some s) ≠ StateUpdateParked)
  else bool_decide (Phase s = InstancePhaseFailed) && bool_decide (ClaimOf s = OwnerUpdate).

Definition RecreateOfUnservingRow (s : InstanceStatus) (strategy : string) : bool :=
  negb (UpdateContinuation s) && bool_decide (strategy ≠ UpdateStrategySurgeThenDrain)
  && bool_decide (Phase s = InstancePhaseFailed) && bool_decide (ServingPodCount s = 0).

Definition EndedByOwnershipVerdict (s : InstanceStatus) : bool :=
  match Operation s, LastFailure s with
  | Some op, Some failure =>
      if decide (Phase s ≠ InstancePhaseFailed ∨ FReason failure ≠ PodGroupOwnershipConflictReason) then false
      else if decide (OType op = InstanceOperationCreate) then true
      else if decide (OType op = InstanceOperationUpdate) then
        let state := updateStateOf (Step op) in
        bool_decide (SurgeIndex op = None) && bool_decide (state ≠ StateUpdateGangSurgeTarget)
        && bool_decide (state ≠ StateUpdateGangSurgeTargetCleanup)
      else false
  | _, _ => false
  end.

Definition DemotedReady (s : InstanceStatus) : bool :=
  bool_decide (Operation s = None) && bool_decide (Phase s = InstancePhasePending) && bool_decide (RunningRevision s ≠ "").

Definition offRunningRevision (s : InstanceStatus) : bool :=
  bool_decide (RunningRevision s ≠ "") && bool_decide (TargetRevision s ≠ "")
  && bool_decide (TargetRevision s ≠ RunningRevision s).

Definition settledOffRunningRevision (s : InstanceStatus) : bool :=
  bool_decide (Operation s = None) && offRunningRevision s.

Definition surgeKeptOffRunningRevision (s : InstanceStatus) : bool :=
  match Operation s with
  | Some op => bool_decide (OType op = InstanceOperationUpdate) && bool_decide (Step op = UpdateStepSurge) && offRunningRevision s
  | None => false
  end.

Definition FailedOffRunningRevision (s : InstanceStatus) : bool :=
  bool_decide (Phase s = InstancePhaseFailed) && settledOffRunningRevision s.
Definition PublishedReadyOffRunningRevision (s : InstanceStatus) : bool :=
  bool_decide (Phase s = InstancePhaseReady) && settledOffRunningRevision s.
Definition FailedKeepingSurgeOffRunningRevision (s : InstanceStatus) : bool :=
  bool_decide (Phase s = InstancePhaseFailed) && surgeKeptOffRunningRevision s.
Definition PublishedReadyKeepingSurgeOffRunningRevision (s : InstanceStatus) : bool :=
  bool_decide (Phase s = InstancePhaseReady) && surgeKeptOffRunningRevision s.

Definition StateInterruptible (state : RowState) (event : Event) : bool :=
  bool_decide (event ∈ interrupts (ownershipTable state)).
Definition Interruptible (row : option InstanceStatus) (event : Event) : bool := StateInterruptible (StateOf row) event.

Definition OwnerOfOperation (op : option InstanceOperation) : RowOwner :=
  match op with
  | None => OwnerNone
  | Some op => Owner (Some (mkStatus 0 0 InstancePhaseEmpty "" "" 0 0 (Some op) 0 None None))
  end.

(** ** Rows by owner *)

Definition ownerName (o : RowOwner) : string :=
  match o with
  | OwnerNone => "none" | OwnerCreate => "create" | OwnerUpdate => "update"
  | OwnerRestart => "restart" | OwnerMigrate => "migrate" | OwnerDelete => "delete"
  end.
#[export] Instance ownerName_inj : Inj (=) (=) ownerName.
Proof. by intros [] []. Qed.

(** The two maps, keyed by the owner's name. *)
Record OwnedRows := mkOwned { orows : gmap string (list Z); inFlight : gmap string (list Z) }.

Definition appendTo (m : gmap string (list Z)) (o : RowOwner) (idx : Z) : gmap string (list Z) :=
  <[ownerName o := default [] (m !! ownerName o) ++ [idx]]> m.

Definition groupRow (o : OwnedRows) (s : InstanceStatus) : OwnedRows :=
  let state := StateOf (Some s) in
  let own := owner (ownershipTable state) in
  mkOwned (appendTo (orows o) own (Index s))
    (if settledState state then inFlight o else appendTo (inFlight o) own (Index s)).

Definition RowsByOwner (statuses : list InstanceStatus) : OwnedRows := foldl groupRow (mkOwned ∅ ∅) statuses.

Definition rowsOf (m : gmap string (list Z)) (o : RowOwner) : list Z := default [] (m !! ownerName o).

Definition Any (o : OwnedRows) (own : RowOwner) : bool := bool_decide (rowsOf (orows o) own ≠ []).
Definition AnyInFlight (o : OwnedRows) (own : RowOwner) (except : Z) : bool :=
  existsb (λ idx, bool_decide (idx ≠ except)) (rowsOf (inFlight o) own).
Definition Owns (o : OwnedRows) (own : RowOwner) (idx : Z) : bool :=
  existsb (λ i, bool_decide (i = idx)) (rowsOf (orows o) own).

Definition OwnershipStates : list RowState :=
  [StateEmpty; StatePending; StateReady; StateFailed; StateCreateCreatePods; StateUpdateSurge; StateUpdateSurgeDrain;
   StateUpdateGangSurgeTarget; StateUpdateGangSurgeTargetCleanup; StateUpdateInPlace; StateUpdateDrain;
   StateUpdateParked; StateRestartDrain; StateMigrateCreateSurge; StateMigrateSurgeTarget; StateDeleteDrain].

(** ** Budgets *)

Definition surgeSteps (step : string) : bool :=
  bool_decide (step = UpdateStepSurge) || bool_decide (step = UpdateStepSurgeDrain)
  || bool_decide (step = UpdateStepSurgeDrainSettle).
Definition replacementGangSteps (step : string) : bool :=
  bool_decide (step = UpdateStepGangSurgeTarget) || bool_decide (step = UpdateStepGangSurgeTargetCleanup).

Definition CurrentSurgeInFlight (statuses : list InstanceStatus) : Z :=
  foldl (λ n s, match Operation s with
                | Some op => if surgeSteps (Step op) then i32 (n + 1) else n
                | None => n
                end) 0 statuses.

Definition CurrentUnavailableInFlight (statuses : list InstanceStatus) : Z :=
  foldl (λ n s,
    let updating := bool_decide (Phase s = InstancePhaseUpdating) && bool_decide (StateOf (Some s) ≠ StateUpdateParked) in
    let failedUpdate := bool_decide (Phase s = InstancePhaseFailed) && bool_decide (ClaimOf s = OwnerUpdate) in
    if negb updating && negb failedUpdate then n
    else match Operation s with
         | Some op => if surgeSteps (Step op) || replacementGangSteps (Step op) then n else i32 (n + 1)
         | None => i32 (n + 1)
         end) 0 statuses.

Definition CurrentRestartingInFlight (statuses : list InstanceStatus) : Z :=
  foldl (λ n s, if decide (Phase s = InstancePhaseRestarting) then i32 (n + 1) else n) 0 statuses.

Definition BudgetNoLimit : Z := -1.

Definition BudgetDenies (budget prior inFlight : Z) : Z * bool :=
  if decide (budget = BudgetNoLimit) then (0, false)
  else let projected := i32 (i32 (prior + inFlight) + 1) in (projected, bool_decide (budget < projected)).

(** ** Ownership is a partition *)

Lemma rowsOf_appendTo m o idx o' :
  rowsOf (appendTo m o idx) o' = if decide (o = o') then rowsOf m o' ++ [idx] else rowsOf m o'.
Proof.
  unfold rowsOf, appendTo. destruct (decide (o = o')) as [->|Hne]; [by rewrite lookup_insert_eq|].
  rewrite lookup_insert_ne; [done|]. by intros ?%(inj ownerName).
Qed.

Lemma RowsByOwner_lists statuses o :
  rowsOf (orows (RowsByOwner statuses)) o = Index <$> filter (λ s, Owner (Some s) = o) statuses ∧
  rowsOf (inFlight (RowsByOwner statuses)) o
    = Index <$> filter (λ s, Owner (Some s) = o ∧ InFlight (Some s) = true) statuses.
Proof.
  revert o. apply (foldl_ind _ (λ pre g, ∀ o,
    rowsOf (orows g) o = Index <$> filter (λ s, Owner (Some s) = o) pre ∧
    rowsOf (inFlight g) o = Index <$> filter (λ s, Owner (Some s) = o ∧ InFlight (Some s) = true) pre)); [done|].
  intros pre s _ g _ IH o. destruct (IH o) as [I1 I2]. unfold groupRow. cbn [orows inFlight].
  rewrite !filter_at_end. fold (Owner (Some s)). split.
  - rewrite rowsOf_appendTo, I1. destruct (decide (Owner (Some s) = o)); [by rewrite fmap_app|done].
  - assert (InFlight (Some s) = negb (settledState (StateOf (Some s)))) as Hf by done.
    destruct (settledState (StateOf (Some s))); cbn [negb] in Hf.
    + by rewrite (decide_False (P:=Owner (Some s) = o ∧ _)) by (rewrite Hf; naive_solver).
    + rewrite rowsOf_appendTo, I2. destruct (decide (Owner (Some s) = o)).
      * by rewrite decide_True, fmap_app.
      * by rewrite decide_False by naive_solver.
Qed.

(** The names of phases, types and steps are distinct literals. *)
Ltac unfold_names :=
  unfold InstanceOperationCreate, InstanceOperationUpdate, InstanceOperationRestart, InstanceOperationMigrate,
    InstanceOperationDelete, UpdateStepSurge, UpdateStepSurgeDrain, UpdateStepSurgeDrainSettle, UpdateStepGangSurgeTarget,
    UpdateStepGangSurgeTargetCleanup, UpdateStepInPlace, UpdateStepDrain, UpdateStepParked in *.

(** Who drives a row, said of its phase and operation.  [workedBy]: a step of a verb
    is under way, which the steps of an update name and a failed row never has; a
    row in the phase Migrating is the migration's also without an operation. *)
Definition verb (typ : string) (o : RowOwner) : Prop :=
  (typ, o) ∈ [("Create", OwnerCreate); ("Update", OwnerUpdate); ("Restart", OwnerRestart);
              ("Migrate", OwnerMigrate); ("Delete", OwnerDelete)].
Definition updateSteps : list string :=
  ["Surge"; "SurgeDrain"; "SurgeDrainSettle"; "GangSurgeTarget"; "GangSurgeTargetCleanup"; "InPlace"; "Drain"].

Inductive workedBy (s : InstanceStatus) : RowOwner → Prop :=
| worked_step op o :
    Operation s = Some op → Phase s ≠ "Failed" → verb (OType op) o → (OType op = "Update" → Step op ∈ updateSteps) →
    workedBy s o
| worked_migrating : Operation s = None → Phase s = "Migrating" → workedBy s OwnerMigrate.

(** A row without an operation that is new or pending is the creation's; what no
    pass works on is nobody's. *)
Inductive drives (s : InstanceStatus) : RowOwner → Prop :=
| drives_worked o : workedBy s o → drives s o
| drives_new : Operation s = None → Phase s = "" ∨ Phase s = "Pending" → drives s OwnerCreate
| drives_nobody :
    (∀ o, ¬ workedBy s o) → ¬ (Operation s = None ∧ (Phase s = "" ∨ Phase s = "Pending")) → drives s OwnerNone.

(** The verb a row's operation belongs to, its phase aside. *)
Definition claimedBy (s : InstanceStatus) (o : RowOwner) : Prop :=
  ∃ op, Operation s = Some op ∧ verb (OType op) o ∧ ¬ (OType op = "Update" ∧ Step op = "Parked").

Lemma verb_det typ o o' : verb typ o → verb typ o' → o = o'.
Proof. unfold verb. intros H H'. repeat rewrite ?elem_of_cons, ?elem_of_nil in H, H'. destruct_or?; simplify_eq; done. Qed.

Lemma workedBy_det s o o' : workedBy s o → workedBy s o' → o = o'.
Proof. intros [] []; try congruence. simplify_eq. by eapply verb_det. Qed.

Lemma drives_det s o o' : drives s o → drives s o' → o = o'.
Proof.
  intros [w Hw|Hn Hp|Hw Hn] [w' Hw'|Hn' Hp'|Hw' Hn']; try done; try (exfalso; naive_solver).
  - by eapply workedBy_det.
  - destruct Hw; destruct_or!; congruence.
  - destruct Hw'; destruct_or!; congruence.
Qed.

(** The table answers so. *)
Lemma Owner_works s : if InFlight (Some s) then workedBy s (Owner (Some s)) else ∀ o, ¬ workedBy s o.
Proof.
  unfold InFlight, Owner, StateOf, updateStateOf. unfold_names.
  unfold InstancePhaseFailed, InstancePhaseEmpty, InstancePhasePending, InstancePhaseReady, InstancePhaseMigrating.
  destruct (Operation s) as [op|] eqn:Eop; repeat (destruct (decide _) as [?|?]); cbn; destruct_or?.
  all: try (eapply worked_step; [exact Eop|done|unfold verb; rewrite ?e; set_solver|unfold updateSteps; first [intros ?; congruence|set_solver]]).
  all: try (by apply worked_migrating).
  all: intros o Hw; destruct Hw as [op' o Eo Hp Hv Hs|Eo Hp]; simplify_eq; try congruence.
  all: unfold verb, updateSteps in *; set_solver.
Qed.
Lemma Owner_drives s o : Owner (Some s) = o ↔ drives s o.
Proof.
  enough (drives s (Owner (Some s))) as H by (split; [by intros <-|by apply drives_det]).
  pose proof (Owner_works s) as Hw. destruct (InFlight (Some s)) eqn:Ef; [by apply drives_worked|].
  revert Ef. unfold InFlight, Owner, StateOf, updateStateOf.
  destruct (Operation s) as [op|] eqn:Eop; repeat (destruct (decide _) as [?|?]); cbn; intros Ef; try done.
  all: try (by apply drives_new; [done|auto]).
  all: apply drives_nobody; [done|]; intros [? Hp]; try congruence.
  all: unfold InstancePhaseFailed, InstancePhaseEmpty, InstancePhasePending, InstancePhaseReady in *; destruct_or!; congruence.
Qed.

Lemma InFlight_works s o : drives s o ∧ InFlight (Some s) = true ↔ workedBy s o.
Proof.
  pose proof (Owner_works s) as Hw. destruct (InFlight (Some s)).
  - rewrite <-Owner_drives. split; [by intros [<- _]|]. intros H. split; [by eapply workedBy_det|done].
  - split; [by intros [_ ?]|]. intros H. by apply Hw in H.
Qed.

Lemma ClaimOf_claims s o : claimedBy s o ↔ ClaimOf s = o ∧ o ≠ OwnerNone.
Proof.
  unfold claimedBy, ClaimOf, OperationParked, verb. unfold_names. destruct (Operation s) as [op|]; [|naive_solver].
  destruct (bool_decide_reflect (OType op = "Update")) as [Hu|Hu], (bool_decide_reflect (Step op = "Parked")) as [Hp|Hp]; cbn.
  all: repeat (destruct (decide _) as [E|?]; [try rewrite E in *; try congruence|]).
  all: split; [intros (op' & [= <-] & Hv & Hn)|intros [<- Hne]].
  all: try done; try (exfalso; by apply Hn).
  all: try (repeat rewrite ?elem_of_cons, ?elem_of_nil in Hv; destruct_or?; simplify_eq; split; congruence).
  all: exists op; split; [done|]; split; [try rewrite E; set_solver|]; intros []; congruence.
Qed.

(** C29: a reconcile's rows are partitioned by the pass that drives them.  A row is
    listed under exactly one owner, in observation order: the verb of the step its
    operation is at, where the operation is an update at one of its steps or of
    another type and the row has not failed; the migration for a row in the phase
    Migrating without an operation; the creation for a row without an operation
    that is new or pending; and nobody otherwise, a failed row and a parked update
    included.  The rows in flight under an owner are exactly those with a step
    under way, so none is nobody's, and the verb a row's operation claims is its
    owner whenever a step is under way and stays claimed when the row fails. *)
Theorem rows_owned_once statuses :
  NoDup (Index <$> statuses) →
  let groups := RowsByOwner statuses in
  (∀ s, s ∈ statuses → ∃ o, drives s o ∧ (∀ o', Owns groups o' (Index s) = true ↔ o' = o) ∧
     (∀ o', Index s ∈ rowsOf (inFlight groups) o' ↔ workedBy s o') ∧
     (∀ o', claimedBy s o' ↔ ClaimOf s = o' ∧ o' ≠ OwnerNone) ∧
     (∀ op, Operation s = Some op → workedBy s o → ClaimOf s = o)) ∧
  (∀ o, sublist (rowsOf (orows groups) o) (Index <$> statuses) ∧ sublist (rowsOf (inFlight groups) o) (rowsOf (orows groups) o)) ∧
  (∀ o except, AnyInFlight groups o except = true ↔ ∃ s, s ∈ statuses ∧ Index s ≠ except ∧ workedBy s o).
Proof.
  intros Hnd. cbv zeta.
  assert (∀ s o, s ∈ statuses → Index s ∈ rowsOf (orows (RowsByOwner statuses)) o ↔ drives s o) as Hown.
  { intros s o Hs. rewrite (proj1 (RowsByOwner_lists statuses o)), list_elem_of_fmap.
    setoid_rewrite list_elem_of_filter. setoid_rewrite Owner_drives. split; [|by eauto].
    intros (s' & E & ? & ?). by rewrite (NoDup_fmap_elem Index statuses s s'). }
  assert (∀ s o, s ∈ statuses → Index s ∈ rowsOf (inFlight (RowsByOwner statuses)) o ↔ workedBy s o) as Hfly.
  { intros s o Hs. rewrite (proj2 (RowsByOwner_lists statuses o)), list_elem_of_fmap.
    setoid_rewrite list_elem_of_filter. setoid_rewrite Owner_drives. setoid_rewrite InFlight_works. split; [|by eauto].
    intros (s' & E & ? & ?). by rewrite (NoDup_fmap_elem Index statuses s s'). }
  split; [|split].
  - intros s Hs. exists (Owner (Some s)). assert (drives s (Owner (Some s))) as Hd by (by apply Owner_drives).
    split; [done|]. split; [|split; [by intros; apply Hfly|split; [apply ClaimOf_claims|]]].
    + intros o'. unfold Owns. rewrite existsb_true. setoid_rewrite bool_decide_eq_true. split.
      * intros (i & Hi & ->). eapply drives_det; [|exact Hd]. by apply Hown.
      * intros ->. exists (Index s). split; [by apply Hown|done].
    + intros op Eop Hw. apply (ClaimOf_claims s). inversion Hw as [op' o Eo _ Hv Hst|]; [|congruence]. subst.
      exists op'. split; [done|]. split; [done|]. intros [Hu Hp]. specialize (Hst Hu). rewrite Hp in Hst.
      unfold updateSteps in Hst. set_solver.
  - intros o. rewrite (proj1 (RowsByOwner_lists statuses o)), (proj2 (RowsByOwner_lists statuses o)).
    split; [apply fmap_sublist, sublist_filter|]. apply fmap_sublist.
    rewrite (filter_agree _ (λ s, InFlight (Some s) = true ∧ Owner (Some s) = o)) by naive_solver.
    rewrite <-list_filter_filter. apply sublist_filter.
  - intros o except. unfold AnyInFlight. rewrite existsb_true. setoid_rewrite bool_decide_eq_true. split.
    + intros (i & Hi & Hne). pose proof Hi as Hi'. rewrite (proj2 (RowsByOwner_lists statuses o)) in Hi.
      apply list_elem_of_fmap in Hi as (s & -> & [_ Hs]%list_elem_of_filter). exists s. by rewrite <-Hfly.
    + intros (s & Hs & Hne & Hw). exists (Index s). split; [by apply Hfly|done].
Qed.

(** A row being updated, one that failed while it was, and one that is new. *)
Lemma rows_owned_once_witness :
  let row i phase := mkStatus i 1 phase "a" "b" 1 1 (Some (mkOperation "Update" "Drain" None "" "b")) 0 None None in
  let rows := [row 0 "Updating"; row 1 "Failed"; mkStatus 2 1 "" "" "" 0 0 None 0 None None] in
  Owns (RowsByOwner rows) OwnerUpdate 0 = true ∧ Owns (RowsByOwner rows) OwnerNone 1 = true ∧
  Owns (RowsByOwner rows) OwnerCreate 2 = true ∧ ∃ o, ∀ o', Owns (RowsByOwner rows) o' 1 = true ↔ o' = o.
Proof.
  cbv zeta. split; [vm_compute; reflexivity|]. split; [vm_compute; reflexivity|]. split; [vm_compute; reflexivity|].
  set (row i phase := mkStatus i 1 phase "a" "b" 1 1 (Some (mkOperation "Update" "Drain" None "" "b")) 0 None None).
  destruct (proj1 (rows_owned_once [row 0 "Updating"; row 1 "Failed"; mkStatus 2 1 "" "" "" 0 0 None 0 None None]
    ltac:(by apply (bool_decide_unpack _))) (row 1 "Failed") ltac:(right; left)) as (o & _ & H & _).
  exists o. exact H.
Defined.

(** ** Charges *)

Lemma count_loop {A} (P : A → bool) (f : Z → A → Z) l :
  (∀ n x, f n x = if P x then i32 (n + 1) else n) → Z.of_nat (length l) ≤ MaxInt32 →
  foldl f 0 l = Z.of_nat (length (filter (λ x, P x = true) l)).
Proof.
  intros Hf. apply (foldl_ind _ (λ pre n, Z.of_nat (length pre) ≤ MaxInt32 → n = Z.of_nat (length (filter (λ x, P x = true) pre)))); [done|].
  intros pre x _ n _ IH. rewrite length_app, filter_at_end. cbn [length]. intros Hl. rewrite Hf, (IH ltac:(lia)).
  pose proof (length_filter (λ x, P x = true) pre). destruct (P x).
  - rewrite decide_True, length_app by done. unwrap. cbn [length]. lia.
  - by rewrite decide_False.
Qed.

Definition atSurgeStep (s : InstanceStatus) : bool :=
  match Operation s with Some op => surgeSteps (Step op) | None => false end.
Definition atReplacementStep (s : InstanceStatus) : bool :=
  match Operation s with Some op => replacementGangSteps (Step op) | None => false end.
Definition offline (s : InstanceStatus) : bool :=
  UpdateContinuation s && negb (atSurgeStep s) && negb (atReplacementStep s).

(** The starts one pass admits when it puts [n] of them to the budget in turn. *)
Fixpoint admitted (n : nat) (budget prior inFlight : Z) : Z :=
  match n with
  | O => inFlight
  | S n => if (BudgetDenies budget prior inFlight).2 then admitted n budget prior inFlight
           else admitted n budget prior (inFlight + 1)
  end.

Lemma admitted_spec n budget prior k :
  0 ≤ budget → 0 ≤ prior → 0 ≤ k → prior + k + Z.of_nat n < MaxInt32 →
  admitted n budget prior k = k + Z.min (Z.of_nat n) (Z.max 0 (budget - prior - k)).
Proof.
  revert k. induction n as [|n IH]; intros k Hb Hp Hk Hn; [cbn; lia|]. cbn [admitted].
  unfold BudgetDenies, BudgetNoLimit. rewrite decide_False by lia. cbv zeta. unwrap. cbn [snd].
  case_bool_decide; rewrite IH by lia; lia.
Qed.

Lemma steps_apart step : surgeSteps step = true → replacementGangSteps step = false.
Proof.
  unfold surgeSteps, replacementGangSteps.
  rewrite !orb_true_iff, !bool_decide_eq_true, orb_false_iff, !bool_decide_eq_false.
  intros [[-> | ->]| ->]; unfold_names; split; congruence.
Qed.

(** The budgets charge every update under way once.  The surge count is the
    number of rows at a surge step, the unavailability count the number of
    continued updates (updating and not parked, or failed and still claiming the
    update) at no surge or replacement step; a continued update falls in exactly
    one of the two counts or is a replacement gang's row; and of [n] fresh starts
    put to a budget of at least zero in one pass exactly as many are admitted as
    the budget leaves after what is in flight, so the two together never exceed
    it unless what was in flight already did. *)
Theorem updates_charged_once statuses :
  Z.of_nat (length statuses) ≤ MaxInt32 →
  CurrentSurgeInFlight statuses = Z.of_nat (length (filter (λ s, atSurgeStep s = true) statuses)) ∧
  CurrentUnavailableInFlight statuses = Z.of_nat (length (filter (λ s, offline s = true) statuses)) ∧
  (∀ s, UpdateContinuation s = true →
     (offline s = true ∧ atSurgeStep s = false ∧ atReplacementStep s = false) ∨
     (offline s = false ∧ atSurgeStep s = true ∧ atReplacementStep s = false) ∨
     (offline s = false ∧ atSurgeStep s = false ∧ atReplacementStep s = true)) ∧
  (∀ n budget prior, 0 ≤ budget → 0 ≤ prior → prior + Z.of_nat n < MaxInt32 →
     admitted n budget prior 0 = Z.min (Z.of_nat n) (Z.max 0 (budget - prior)) ∧
     prior + admitted n budget prior 0 ≤ Z.max prior budget).
Proof.
  intros Hl. split; [|split; [|split]].
  - apply count_loop; [|done]. intros n s. unfold atSurgeStep. by destruct (Operation s).
  - apply count_loop; [|done]. intros n s. unfold offline, UpdateContinuation, atSurgeStep, atReplacementStep.
    destruct (Operation s) as [op|]; [destruct (surgeSteps (Step op)), (replacementGangSteps (Step op))|];
      repeat case_bool_decide; destruct (decide _); try done; try congruence;
      exfalso; unfold InstancePhaseUpdating, InstancePhaseFailed in *; congruence.
  - intros s Hc. unfold offline. rewrite Hc. destruct (atSurgeStep s) eqn:E1, (atReplacementStep s) eqn:E2; cbn; auto.
    unfold atSurgeStep, atReplacementStep in *. destruct (Operation s) as [op|]; [|done].
    by rewrite (steps_apart _ E1) in E2.
  - intros n budget prior ???. rewrite admitted_spec by lia. lia.
Qed.

(** One row surging, one recreated. *)
Definition rollingRow (i : Z) (step : string) : InstanceStatus :=
  mkStatus i 1 InstancePhaseUpdating "a" "b" 1 1 (Some (mkOperation InstanceOperationUpdate step None "" "b")) 0 None None.

Lemma updates_charged_once_witness :
  let rows := [rollingRow 0 UpdateStepSurge; rollingRow 1 UpdateStepDrain] in
  CurrentSurgeInFlight rows = 1 ∧ CurrentUnavailableInFlight rows = 1 ∧ admitted 5 2 1 0 = 1.
Proof.
  destruct (updates_charged_once [rollingRow 0 UpdateStepSurge; rollingRow 1 UpdateStepDrain]
    ltac:(vm_compute; discriminate)) as (H1 & H2 & _ & H4).
  split; [rewrite H1; vm_compute; reflexivity|]. split; [rewrite H2; vm_compute; reflexivity|].
  rewrite (proj1 (H4 5%nat 2 1 ltac:(lia) ltac:(lia) ltac:(lia))). reflexivity.
Defined.
