(* ===== verification/BuildPlan.v ===== *)
(** * The plan of a component

    [BuildPlan] of [pkg/controller/v1beta1/workload/plan.go]: the replica count and
    the lifecycle policies with their defaults, and for every chosen index the
    incarnation, the runners at the width of the revision it renders, and the nodes
    it avoids; with the row index of [workload/types/source.go] it reads rows by.
    Two slices share a backing array here when they are the same list, which for
    rows that are never moved reads the same rows. *)

From Stdlib Require Import Sorting.Sorted.
From S2P Require Import Prelude PlanIndices PlanFacts PlanClaims PlanSpec RowOwner.
Local Open Scope Z_scope.

(** ** Rows by index *)

Record rowIndex := mkRowIndex { irows : list InstanceStatus; position : gmap Z nat }.

Record NodeExclusion := mkExclusion { Node : string; ERevision : string }.

Record WorkloadObservedState := mkObserved {
  InstanceStatuses : list InstanceStatus; RetryBlocks : list RetryBlock; CordonedInstances : gset Z;
  ExcludedNodesByInstance : gmap Z (list NodeExclusion); WorkerSizeByRevision : gmap string Z;
  orowIndex : option rowIndex;
}.

(** The loop of [indexRows] from position [i]. *)
Fixpoint indexFrom (i : nat) (rows : list InstanceStatus) (position : gmap Z nat) : gmap Z nat :=
  match rows with
  | [] => position
  | s :: rows => indexFrom (S i) rows (if decide (is_Some (position !! Index s)) then position else <[Index s := i]> position)
  end.
Definition indexRows (rows : list InstanceStatus) : rowIndex := mkRowIndex rows (indexFrom 0 rows ∅).

Definition covers (x : option rowIndex) (rows : list InstanceStatus) : bool :=
  match x with None => false | Some x => bool_decide (irows x = rows) end.

Definition IndexRows (o : WorkloadObservedState) : WorkloadObservedState :=
  if covers (orowIndex o) (InstanceStatuses o) then o
  else mkObserved (InstanceStatuses o) (RetryBlocks o) (CordonedInstances o) (ExcludedNodesByInstance o)
         (WorkerSizeByRevision o) (Some (indexRows (InstanceStatuses o))).

Definition scanRows (rows : list InstanceStatus) (idx : Z) : option InstanceStatus :=
  snd <$> list_find (λ s, Index s = idx) rows.

(** [None] in the inner match is the panic of a position beyond the slice, which
    no index reaches. *)
Definition Instance (o : WorkloadObservedState) (idx : Z) : option InstanceStatus :=
  match orowIndex o with
  | Some x =>
      if covers (Some x) (InstanceStatuses o) then
        match position x !! idx with
        | None => None
        | Some i =>
            match InstanceStatuses o !! i with
            | Some s => if decide (Index s = idx) then Some s else scanRows (InstanceStatuses o) idx
            | None => None
            end
        end
      else scanRows (InstanceStatuses o) idx
  | None => scanRows (InstanceStatuses o) idx
  end.

(** ** Runners *)

Definition RunnerDefault := "default".
Definition RunnerLeader := "leader".
Definition RunnerWorker := "worker".
Record RunnerPlan := mkRunner { Name : string; Size : Z }.

Definition WorkerSizeOf (runners : list RunnerPlan) : Z :=
  match list_find (λ r, Name r = RunnerWorker) runners with Some (_, r) => Size r | None => 0 end.

Definition runnersForInstance (multiPod : bool) (workerSize : Z) : list RunnerPlan :=
  if negb multiPod then [mkRunner RunnerDefault 1]
  else [mkRunner RunnerLeader 1; mkRunner RunnerWorker workerSize].

(** [RunnersFor] on the plan's runners and widths, and the instance's runners. *)
Definition RunnersFor (planRunners : list RunnerPlan) (widths : gmap string Z) (instRunners : list RunnerPlan)
    (rev : string) : list RunnerPlan :=
  let base := if decide (planRunners = []) then instRunners else planRunners in
  match widths !! rev with
  | Some size =>
      if decide (rev = "") then base
      else (λ r, if decide (Name r = RunnerWorker) then mkRunner (Name r) size else r) <$> base
  | None => base
  end.

Definition TotalPods (runners : list RunnerPlan) : Z := foldl (λ n r, i32 (n + Size r)) 0 runners.

(** ** Instances *)

Definition renderedRevision (o : WorkloadObservedState) (idx : Z) : string :=
  match Instance o idx with
  | None => ""
  | Some row =>
      let settled :=
        if decide (RunningRevision row ≠ "") then RunningRevision row
        else if decide (TargetRevision row ≠ "") then TargetRevision row
        else match Operation row with Some op => OTargetRevision op | None => "" end in
      match claimOf InstanceOperationMigrate row with
      | Some surge =>
          if decide (Phase row = InstancePhaseCreating) then
            match Instance o surge with
            | Some source => if decide (Index source ≠ idx) then RunningRevision source else ""
            | None => ""
            end
          else settled
      | None => settled
      end
  end.

Definition incarnationForIndex (o : WorkloadObservedState) (idx : Z) : Z :=
  match Instance o idx with
  | Some row => if decide (0 < Incarnation row) then Incarnation row else 1
  | None => 1
  end.

Record InstancePlan := mkInstancePlan {
  PIndex : Z; PIncarnation : Z; PRunners : list RunnerPlan; ExcludedNodes : list NodeExclusion;
}.

Definition planInstance (o : WorkloadObservedState) (runners : list RunnerPlan) (idx : Z) : InstancePlan :=
  mkInstancePlan idx (incarnationForIndex o idx)
    (RunnersFor runners (WorkerSizeByRevision o) runners (renderedRevision o idx))
    (default [] (ExcludedNodesByInstance o !! idx)).

(** ** Policies *)

Definition RestartPolicyNone := "None".
Definition RestartPolicyRecreateInstance := "RecreateInstanceOnPodRestart".
Definition InstanceReadyPolicyAllPodReady := "AllPodReady".
Definition InstanceReadyPolicyNone := "None".
Definition MigrationModeAuto := "Auto".

Definition restartPolicyOrDefault (p : option string) (multiPod : bool) : string :=
  match p with Some p => p | None => if multiPod then RestartPolicyRecreateInstance else RestartPolicyNone end.
Definition readyPolicyOrDefault (p : option string) (multiPod : bool) : string :=
  match p with Some p => p | None => if multiPod then InstanceReadyPolicyAllPodReady else InstanceReadyPolicyNone end.
Definition ResolveInstanceReadyTimeout (spec : option Z) (configured : Z) : Z :=
  match spec with Some d => if decide (0 < d) then d else configured | None => configured end.
Definition MigrationModeOrDefault (p : option string) : string :=
  match p with Some mode => if decide (mode = "") then MigrationModeAuto else mode | None => MigrationModeAuto end.

(** [UpdateStrategy] without the rolling update, which is copied; [markNotReady] is
    the in-place strategy's field, absent with the strategy. *)
Record UpdateStrategy := mkStrategy { SType : string; markNotReady : option bool }.
Definition updateStrategyWithDefaults (s : option UpdateStrategy) : UpdateStrategy :=
  let s := default (mkStrategy "" None) s in
  mkStrategy (if decide (SType s = "") then UpdateStrategySurgeThenDrain else SType s)
    (Some (default true (markNotReady s))).

(** ** The plan *)

(** [WorkloadDesiredSpec] without the pod templates, and [ComponentPlan] without
    what later passes overlay. *)
Record WorkloadDesiredSpec := mkDesired {
  DReplicas : Z; AllowZeroReplicas : bool; DMinReadySeconds : Z; DRunners : list RunnerPlan; MultiPod : bool;
  LRestartPolicy : option string; LUpdateStrategy : option UpdateStrategy; LReadyPolicy : option string;
  LInstanceReadyTimeout : option Z; LMigrationMode : option string;
  Paused : bool; PauseFreeze : bool; TopologyKey : string; TopologySpread : string; TopologySpreadKey : string;
  PairingProtocol : string;
}.
Record ComponentPlan := mkComponentPlan {
  Component : string; CReplicas : Z; Instances : list InstancePlan; CRestartPolicy : string; CUpdateStrategy : UpdateStrategy;
  CReadyPolicy : string; CInstanceReadyTimeout : Z; CMinReadySeconds : Z; CMigrationMode : string;
  CPaused : bool; CPauseFreeze : bool; CTopologyKey : string; CTopologySpread : string; CTopologySpreadKey : string;
  CPairingProtocol : string; CRunners : list RunnerPlan; CWorkerSizeByRevision : gmap string Z;
}.

(** [None] is the panic of [instancePlanIndices]; the error result is always nil. *)
Definition BuildPlan (component : string) (desired : WorkloadDesiredSpec) (observed : WorkloadObservedState)
    : option ComponentPlan :=
  let replicas :=
    if decide (DReplicas desired < 0 ∨ (DReplicas desired = 0 ∧ AllowZeroReplicas desired = false)) then 1
    else DReplicas desired in
  let workerSize := WorkerSizeOf (DRunners desired) in
  indices ← instancePlanIndices (InstanceStatuses observed) replicas (RetryBlocks observed) (CordonedInstances observed);
  let observed := IndexRows observed in
  let runners := runnersForInstance (MultiPod desired) workerSize in
  Some (mkComponentPlan component replicas (planInstance observed runners <$> indices)
    (restartPolicyOrDefault (LRestartPolicy desired) (MultiPod desired))
    (updateStrategyWithDefaults (LUpdateStrategy desired))
    (readyPolicyOrDefault (LReadyPolicy desired) (MultiPod desired))
    (ResolveInstanceReadyTimeout (LInstanceReadyTimeout desired) 0)
    (Z.max (DMinReadySeconds desired) 0) (MigrationModeOrDefault (LMigrationMode desired))
    (Paused desired) (PauseFreeze desired) (TopologyKey desired) (TopologySpread desired) (TopologySpreadKey desired)
    (PairingProtocol desired) runners (WorkerSizeByRevision observed)).

(** ** Lookups *)

Lemma indexFrom_lookup k rows pos idx :
  indexFrom k rows pos !! idx =
    match pos !! idx with
    | Some i => Some i
    | None => (λ x, k + x.1)%nat <$> list_find (λ s, Index s = idx) rows
    end.
Proof.
  revert k pos. induction rows as [|s rows IH]; intros k pos; cbn [indexFrom list_find]; [by destruct (pos !! idx)|].
  rewrite IH. destruct (decide (Index s = idx)) as [<-|Hne].
  - destruct (decide (is_Some (pos !! Index s))) as [[i E]|Hn%eq_None_not_Some]; [by rewrite E|].
    rewrite lookup_insert_eq, Hn. cbn. f_equal. lia.
  - replace ((if decide (is_Some (pos !! Index s)) then pos else <[Index s:=k]> pos) !! idx) with (pos !! idx)
      by (destruct (decide _); [done|by rewrite lookup_insert_ne]).
    destruct (pos !! idx); [done|]. destruct (list_find _ rows) as [[i r]|]; cbn; [f_equal; lia|done].
Qed.

(** Reading through the index finds the row a scan finds. *)
Lemma Instance_indexed o idx :
  (∀ x, orowIndex o = Some x → x = indexRows (irows x)) →
  Instance (IndexRows o) idx = scanRows (InstanceStatuses o) idx.
Proof.
  intros Hx. assert (orowIndex (IndexRows o) = Some (indexRows (InstanceStatuses o))
    ∧ InstanceStatuses (IndexRows o) = InstanceStatuses o) as [E1 E2].
  { unfold IndexRows, covers. destruct (orowIndex o) as [x|] eqn:Eo; [|done].
    case_bool_decide as Hr; [|done]. split; [|done]. by rewrite Eo, (Hx x eq_refl), Hr. }
  unfold Instance, covers. rewrite E1, E2. cbn [irows indexRows position]. rewrite bool_decide_true by done.
  rewrite indexFrom_lookup, lookup_empty. unfold scanRows.
  destruct (list_find _ _) as [[i s]|] eqn:Ef; [|done]. cbn.
  apply list_find_Some in Ef as (Hi & Hs & _). by rewrite Hi, decide_True.
Qed.

(** ** What an instance renders, said of the rows *)

(** The revision the pods at [idx] render: none without a row; the running revision
    of the row at the other end for a migration's surge marker; and otherwise the
    first the row records of running, target and its operation's. *)
Inductive renders (rows : list InstanceStatus) (idx : Z) : string → Prop :=
| renders_absent : (idx ∉ Index <$> rows) → renders rows idx ""
| renders_marker row source t :
    row ∈ rows → Index row = idx → Phase row = "Creating" → claimsAs "Migrate" row t → t ≠ idx →
    source ∈ rows → Index source = t → renders rows idx (RunningRevision source)
| renders_lost row t :
    row ∈ rows → Index row = idx → Phase row = "Creating" → claimsAs "Migrate" row t →
    t = idx ∨ (t ∉ Index <$> rows) → renders rows idx ""
| renders_settled row :
    row ∈ rows → Index row = idx → (Phase row = "Creating" → ∀ t, ¬ claimsAs "Migrate" row t) →
    renders rows idx
      (match filter (λ rev, rev ≠ "") [RunningRevision row; TargetRevision row; from_option OTargetRevision "" (Operation row)] with
       | rev :: _ => rev | [] => "" end).

(** The desired number of workers. *)
Definition desiredWorkers (desired : WorkloadDesiredSpec) (w : Z) : Prop :=
  (∃ r, firstOf (λ r, Name r = "worker") (DRunners desired) r ∧ w = Size r) ∨
  ((∀ r, r ∈ DRunners desired → Name r ≠ "worker") ∧ w = 0).

(** The number of workers recorded for a revision, or the desired one. *)
Definition workersAt (desired : WorkloadDesiredSpec) (widths : gmap string Z) (rev : string) (w : Z) : Prop :=
  (rev ≠ "" ∧ widths !! rev = Some w) ∨ ((rev = "" ∨ widths !! rev = None) ∧ desiredWorkers desired w).

Lemma desiredWorkers_size desired : desiredWorkers desired (WorkerSizeOf (DRunners desired)).
Proof.
  unfold desiredWorkers, WorkerSizeOf. destruct (list_find _ _) as [[k r]|] eqn:E.
  - left. exists r. split; [|done]. apply (list_find_first (λ r, Name r = RunnerWorker)). by rewrite E.
  - right. split; [|done]. apply list_find_None in E. by rewrite Forall_forall in E.
Qed.

Lemma RunnersFor_plan desired widths rev :
  let runners := runnersForInstance (MultiPod desired) (WorkerSizeOf (DRunners desired)) in
  ∃ w, workersAt desired widths rev w ∧
  RunnersFor runners widths runners rev =
    if MultiPod desired then [mkRunner "leader" 1; mkRunner "worker" w] else [mkRunner "default" 1].
Proof.
  cbv zeta. unfold RunnersFor, runnersForInstance, workersAt. pose proof (desiredWorkers_size desired).
  destruct (widths !! rev) as [size|] eqn:E; [destruct (decide (rev = ""))|].
  - exists (WorkerSizeOf (DRunners desired)). split; [by right; split; [left|]|by destruct (MultiPod desired)].
  - exists size. split; [by left|by destruct (MultiPod desired)].
  - exists (WorkerSizeOf (DRunners desired)). split; [by right; split; [right|]|by destruct (MultiPod desired)].
Qed.

Section observed.
Context (o : WorkloadObservedState).
Hypothesis Hindex : ∀ x, orowIndex o = Some x → x = indexRows (irows x).
Hypothesis Hnd : NoDup (Index <$> InstanceStatuses o).

Lemma Instance_row idx s :
  Instance (IndexRows o) idx = Some s ↔ s ∈ InstanceStatuses o ∧ Index s = idx.
Proof using Hindex Hnd.
  rewrite Instance_indexed by done. unfold scanRows. rewrite list_find_first. split.
  - intros (k & Hk & E & _). split; [by eapply list_elem_of_lookup_2|done].
  - intros [[k Hk]%list_elem_of_lookup E]. exists k. split; [done|]. split; [done|]. intros j y Hj Hlt E'.
    assert (j = k); [|lia].
    eapply (NoDup_lookup (Index <$> InstanceStatuses o)); [done| |]; rewrite list_lookup_fmap, ?Hj, ?Hk; cbn; by rewrite ?E, ?E'.
Qed.

Lemma Instance_none idx : Instance (IndexRows o) idx = None ↔ idx ∉ Index <$> InstanceStatuses o.
Proof using Hindex Hnd.
  rewrite eq_None_not_Some, list_elem_of_fmap. apply not_iff_compat. unfold is_Some. setoid_rewrite Instance_row. naive_solver.
Qed.

Lemma incarnation_row idx :
  (∃ s, s ∈ InstanceStatuses o ∧ Index s = idx ∧ 0 < Incarnation s ∧ incarnationForIndex (IndexRows o) idx = Incarnation s) ∨
  ((∀ s, s ∈ InstanceStatuses o → Index s = idx → Incarnation s ≤ 0) ∧ incarnationForIndex (IndexRows o) idx = 1).
Proof using Hindex Hnd.
  unfold incarnationForIndex. destruct (Instance _ _) as [s|] eqn:E.
  - apply Instance_row in E as [Hs E]. destruct (decide (0 < Incarnation s)); [left; eauto|]. right. split; [|done].
    intros s' Hs' E'. assert (s' = s) as -> by (by eapply NoDup_fmap_elem; [..|rewrite E, E']). lia.
  - right. split; [|done]. intros s Hs E'. apply Instance_none in E. exfalso. apply E, list_elem_of_fmap. eauto.
Qed.

Lemma renderedRevision_renders idx : renders (InstanceStatuses o) idx (renderedRevision (IndexRows o) idx).
Proof using Hindex Hnd.
  unfold renderedRevision. destruct (Instance _ idx) as [row|] eqn:E; [|by apply renders_absent, Instance_none].
  apply Instance_row in E as [Hr Hi]. cbv zeta.
  set (settled := if decide _ then _ else _).
  assert ((Phase row = "Creating" → ∀ t, ¬ claimsAs "Migrate" row t) → renders (InstanceStatuses o) idx settled) as Hset.
  { intros Hm. pose proof (renders_settled _ idx row Hr Hi Hm) as H. revert H. unfold settled.
    destruct (decide (RunningRevision row ≠ "")) as [?|E1%dec_stable]; [by rewrite filter_cons_True|].
    rewrite filter_cons_False by tauto. destruct (decide (TargetRevision row ≠ "")) as [?|E2%dec_stable]; [by rewrite filter_cons_True|].
    rewrite filter_cons_False by tauto. destruct (Operation row) as [op|]; cbn [from_option]; [|by rewrite filter_cons_False by tauto].
    destruct (decide (OTargetRevision op ≠ "")) as [?|E3%dec_stable]; [by rewrite filter_cons_True|].
    rewrite filter_cons_False by tauto. by rewrite E3. }
  clearbody settled. destruct (claimOf _ row) as [t|] eqn:Ec.
  - apply claimsAs_claimOf in Ec. destruct (decide (Phase row = _)) as [Hp|Hp]; [|by apply Hset].
    destruct (Instance _ t) as [source|] eqn:Es; [|by eapply renders_lost, or_intror, Instance_none].
    apply Instance_row in Es as [Hs Et]. destruct (decide (Index source ≠ idx)) as [Hne|Hne%dec_stable].
    + eapply (renders_marker _ idx row source t); [done..| |done|done]. by rewrite <-Et.
    + eapply (renders_lost _ idx row t); [done..|]. left. by rewrite <-Et.
  - apply Hset. intros _ t Hc. apply claimsAs_claimOf in Hc. unfold InstanceOperationMigrate in Ec. congruence.
Qed.
End observed.

Lemma IndexRows_reads o :
  WorkerSizeByRevision (IndexRows o) = WorkerSizeByRevision o ∧ ExcludedNodesByInstance (IndexRows o) = ExcludedNodesByInstance o.
Proof. unfold IndexRows. by destruct (covers _ _). Qed.

(** C3: the plan of a component, with at most one row per index.  A plan is always
    made.  The replica count is the desired one, one where that is negative, and
    where it is zero, zero with permission and one without; the instances are one
    per index of the plan of indexes at that count, in strictly increasing order;
    each carries the incarnation its row records, or one when no row records a
    positive one, the nodes recorded for it to avoid, and its runners: one pod, or
    for a multi-pod component a leader and as many workers as are recorded for
    the revision it renders, the desired number when none is recorded.  The
    revision rendered is what the row runs, else converges to, else has its
    operation pinned to; that of the row at the other end for a migration's
    surge marker; and none without a row. *)
Theorem BuildPlan_plans component desired o :
  NoDup (Index <$> InstanceStatuses o) →
  (∀ x, orowIndex o = Some x → x = indexRows (irows x)) →
  Z.of_nat (length (InstanceStatuses o)) + Z.max 1 (DReplicas desired) < 2 ^ 30 →
  ∃ plan indexes, BuildPlan component desired o = Some plan ∧
  (DReplicas desired < 0 → CReplicas plan = 1) ∧
  (DReplicas desired = 0 → CReplicas plan = if AllowZeroReplicas desired then 0 else 1) ∧
  (0 < DReplicas desired → CReplicas plan = DReplicas desired) ∧
  instancePlanIndices (InstanceStatuses o) (CReplicas plan) (RetryBlocks o) (CordonedInstances o) = Some indexes ∧
  PIndex <$> Instances plan = indexes ∧ StronglySorted Z.lt indexes ∧
  ∀ inst, inst ∈ Instances plan →
    ((∃ s, s ∈ InstanceStatuses o ∧ Index s = PIndex inst ∧ 0 < Incarnation s ∧ PIncarnation inst = Incarnation s) ∨
     ((∀ s, s ∈ InstanceStatuses o → Index s = PIndex inst → Incarnation s ≤ 0) ∧ PIncarnation inst = 1)) ∧
    ExcludedNodes inst = default [] (ExcludedNodesByInstance o !! PIndex inst) ∧
    ∃ rev w, renders (InstanceStatuses o) (PIndex inst) rev ∧ workersAt desired (WorkerSizeByRevision o) rev w ∧
      PRunners inst = if MultiPod desired then [mkRunner "leader" 1; mkRunner "worker" w] else [mkRunner "default" 1].
Proof.
  intros Hnd Hx Hb. unfold BuildPlan. cbv zeta. set (n := if decide _ then _ else _).
  assert ((DReplicas desired < 0 → n = 1) ∧ (DReplicas desired = 0 → n = if AllowZeroReplicas desired then 0 else 1) ∧
          (0 < DReplicas desired → n = DReplicas desired)) as (Hn1 & Hn2 & Hn3).
  { unfold n. destruct (AllowZeroReplicas desired), (decide _); lia || (exfalso; naive_solver lia) || (split; naive_solver lia). }
  assert (Z.of_nat (length (InstanceStatuses o)) + Z.max 0 n < 2 ^ 30) as Hb'.
  { destruct (AllowZeroReplicas desired); lia. }
  destruct (plan_returns _ n (RetryBlocks o) (CordonedInstances o) Hnd Hb') as (targetOf & sourceOf & out & Hf & Hout).
  rewrite Hout. eexists _, out. split; [done|]. cbn [CReplicas Instances].
  do 3 (split; [done|]). split; [done|]. split; [rewrite <-list_fmap_compose; apply list_fmap_id|].
  split; [by eapply plan_sorted|].
  intros inst (idx & -> & _)%list_elem_of_fmap. unfold planInstance. cbn [PIncarnation PIndex PRunners ExcludedNodes].
  destruct (IndexRows_reads o) as [-> ->]. split; [by apply incarnation_row|]. split; [done|].
  destruct (RunnersFor_plan desired (WorkerSizeByRevision o) (renderedRevision (IndexRows o) idx)) as (w & Hw & ->).
  exists (renderedRevision (IndexRows o) idx), w. split; [by apply renderedRevision_renders|done].
Qed.

(** A gang on an older, narrower revision beside one still to be made. *)
Definition gangObserved : WorkloadObservedState :=
  mkObserved [readyRow 0] [] ∅ ∅ {["r1" := 3]} None.
Definition gangDesired : WorkloadDesiredSpec :=
  mkDesired 2 false 0 [mkRunner RunnerLeader 1; mkRunner RunnerWorker 7] true None None None None None
    false false "" "" "" "".

Lemma BuildPlan_plans_witness :
  (λ plan, (PIndex <$> Instances plan, (TotalPods ∘ PRunners) <$> Instances plan))
    <$> BuildPlan "engine" gangDesired gangObserved = Some ([0; 1], [4; 8]) ∧
  ∃ plan, BuildPlan "engine" gangDesired gangObserved = Some plan ∧ CReplicas plan = 2 ∧
          StronglySorted Z.lt (PIndex <$> Instances plan).
Proof.
  split; [vm_compute; reflexivity|].
  destruct (BuildPlan_plans "engine" gangDesired gangObserved ltac:(by apply (bool_decide_unpack _)) ltac:(done)
    ltac:(vm_compute; reflexivity)) as (plan & indexes & Hplan & _ & _ & Hn & _ & Eix & Hs & _).
  exists plan. split; [exact Hplan|]. split; [apply Hn; reflexivity|]. rewrite Eix. exact Hs.
Defined.
