(* ===== verification/RetryLadder.v ===== *)
(** * The retry ladder

    One [RetryBlock] per target revision counts the failed attempts at it and
    paces or holds the next one: [workload/types/retryblock.go],
    [retryblock_writer.go] and [failurecause.go], the attempt start and the prune
    of [workload/status/decision.go], the gate of [workload/ops/create_rejection.go],
    the store of [inferencereplica/convert.go] and the supersede prune of
    [workload/escalation/retryblock_prune.go].  Times and durations are integers;
    the backoff's product is computed in [float64], and stands here for any
    function of its operands. *)

From S2P Require Import Prelude PlanIndices RowOwner.
Local Open Scope Z_scope.

(** ** Causes *)

Inductive FailureCause := CauseUnattributed | CauseWorkload | CauseEnvironment.
#[export] Instance cause_eq_dec : EqDecision FailureCause.
Proof. solve_decision. Defined.

Definition workloadCausedWaitingReasons : list string :=
  ["ImagePullBackOff"; "ErrImagePull"; "InvalidImageName"; "CreateContainerConfigError"; "InvalidPodSpec"].
Definition IsWorkloadCausedReason (reason : string) : bool := bool_decide (reason ∈ workloadCausedWaitingReasons).
Definition environmentCausedReasons : list string :=
  ["Unschedulable"; PodGroupOwnershipConflictReason; "AdmissionUnavailable"].
Definition IsEnvironmentCausedReason (reason : string) : bool := bool_decide (reason ∈ environmentCausedReasons).
Definition FailureCauseOf (reason : string) : FailureCause :=
  if IsWorkloadCausedReason reason then CauseWorkload
  else if IsEnvironmentCausedReason reason then CauseEnvironment
  else CauseUnattributed.

(** ** The gate *)

Definition evaluateRetryBlockGate (b : option RetryBlock) (now : Z) (attemptInFlight : bool) : bool * Z :=
  match b with
  | None => (false, 0)
  | Some b =>
      if decide (BState b = RetryBlockHeld) then (true, 0)
      else if decide (BState b = RetryBlockRetryInProgress) then if attemptInFlight then (true, 0) else (false, 0)
      else if decide (BState b = RetryBlockBackoff) then
        match NextRetryAt b with
        | Some due => if decide (now < due) then (true, due - now) else (false, 0)
        | None => (false, 0)
        end
      else (false, 0)
  end.

Definition anyInFlightUpdateAt (statuses : list InstanceStatus) (rev : string) : bool :=
  existsb (λ s, bool_decide (ClaimOf s = OwnerUpdate)
                && bool_decide (OTargetRevision <$> Operation s = Some rev)) statuses.

Definition LadderDeniesStart (blocks : list RetryBlock) (statuses : list InstanceStatus) (now : Z) (rev : string) : bool :=
  match FindRetryBlock blocks rev with
  | None => false
  | Some b => (evaluateRetryBlockGate (Some b) now (anyInFlightUpdateAt statuses rev)).1
  end.

Definition RetryBlockOfCrashedAttempt (blocks : list RetryBlock) (now : Z) (target : option string) : option RetryBlock :=
  target ← target; b ← FindRetryBlock blocks target;
  if decide (BState b = RetryBlockRetryInProgress) then Some b
  else if decide (BState b = RetryBlockBackoff) then
    match NextRetryAt b with Some due => if decide (now < due) then None else Some b | None => Some b end
  else None.

(** ** Transitions of one block *)

Inductive RetryBlockDisposition := RetryBlockUnchanged | RetryBlockPersist | RetryBlockRemove.

Definition setState (b : RetryBlock) (state : string) : RetryBlock :=
  mkBlock (BTargetRevision b) state (AttemptsStarted b) (NextRetryAt b) (FirstFailureAt b) (LastFailureAt b) (BReason b).

Definition RetryBlockStartAttempt (rb : RetryBlock) : RetryBlock * RetryBlockDisposition :=
  if decide (BState rb ≠ RetryBlockBackoff) then (rb, RetryBlockUnchanged)
  else (setState rb RetryBlockRetryInProgress, RetryBlockPersist).

(** The mutation of [entryStampAttemptStarted]. *)
Definition entryStampAttemptStarted (openSince : option Z) (rb : RetryBlock) : RetryBlock * RetryBlockDisposition :=
  match openSince, NextRetryAt rb with
  | Some since, Some due => if decide (since < due) then (rb, RetryBlockUnchanged) else RetryBlockStartAttempt rb
  | _, _ => RetryBlockStartAttempt rb
  end.

Definition RowRemembersCrashOn (rows : list InstanceStatus) (rev : string) : bool :=
  existsb (λ row, bool_decide (Phase row = InstancePhaseReady) && bool_decide (RunningRevision row = rev)
                  && RemembersCrash row) rows.

(** The mutation of [RetryBlockPruneOnPromote]. *)
Definition pruneOnPromote (b : RetryBlock) : RetryBlock * RetryBlockDisposition :=
  if decide (BState b = RetryBlockHeld) then (b, RetryBlockUnchanged) else (b, RetryBlockRemove).

Section policy.
Context {float : Type} (product : Z → float → Z → Z).

Record RetryPolicy := mkPolicy { MaxAttempts : Z; InitialDelay : Z; MaxDelay : Z; Multiplier : float }.

Definition NextRetryDelay (p : RetryPolicy) (attemptsStarted : Z) : Z :=
  let d := product (InitialDelay p) (Multiplier p) (i32 (attemptsStarted - 1)) in
  if decide (MaxDelay p < d ∨ d ≤ 0) then MaxDelay p else d.

Definition Exhausted (p : option RetryPolicy) (attemptsStarted : Z) : bool :=
  match p with None => true | Some p => bool_decide (MaxAttempts p ≤ attemptsStarted) end.

(** The block, the disposition and [heldAttempts]. *)
Definition ApplyUpdateFailureToRetryBlock (b : RetryBlock) (policy : option RetryPolicy) (now : Z) (reason : string)
    (cause : FailureCause) : RetryBlock * RetryBlockDisposition * Z :=
  if decide (cause = CauseEnvironment) then (b, RetryBlockUnchanged, 0)
  else if decide (cause ≠ CauseWorkload ∧ (¬ is_Some policy ∨ BState b = RetryBlockHeld)) then (b, RetryBlockUnchanged, 0)
  else
    let first := match FirstFailureAt b with None => Some now | Some t => Some t end in
    let seen state attempts next := mkBlock (BTargetRevision b) state attempts next first (Some now) reason in
    if decide (BState b = RetryBlockBackoff ∨ BState b = RetryBlockHeld) then
      (seen (BState b) (AttemptsStarted b) (NextRetryAt b), RetryBlockPersist, 0)
    else
      let attempts := i32 (AttemptsStarted b + 1) in
      if Exhausted policy attempts then (seen RetryBlockHeld attempts None, RetryBlockPersist, attempts)
      else
        match policy with
        | None => (seen RetryBlockHeld attempts None, RetryBlockPersist, attempts)
        | Some p => (seen RetryBlockBackoff attempts (Some (now + NextRetryDelay p attempts)), RetryBlockPersist, 0)
        end.
End policy.
Arguments RetryPolicy : clear implicits.

(** ** The store *)

Definition retryBlockOlder (a b : RetryBlock) : bool :=
  match LastFailureAt a, LastFailureAt b with
  | None, None => false
  | None, Some _ => true
  | Some _, None => false
  | Some x, Some y => bool_decide (x < y)
  end.

Definition emptyBlock (rev : string) : RetryBlock := mkBlock rev "" 0 None None None "".

(** Positions by the age of their block; every position is in range. *)
Definition olderAt (blocks : list RetryBlock) (i j : nat) : bool :=
  match blocks !! i, blocks !! j with Some a, Some b => retryBlockOlder a b | _, _ => false end.

Definition prunable (blocks : list RetryBlock) (updateRevision : string) (i : nat) : Prop :=
  match blocks !! i with Some b => updateRevision = "" ∨ BTargetRevision b ≠ updateRevision | None => False end.
#[export] Instance prunable_dec blocks updateRevision i : Decision (prunable blocks updateRevision i).
Proof. unfold prunable. destruct (blocks !! i); apply _. Defined.

(** [None] is the panic of slicing beyond the list, for a negative limit. *)
Definition pruneRetryBlocks (blocks : list RetryBlock) (updateRevision : string) (historyLimit : option Z)
    : option (list RetryBlock) :=
  match historyLimit with
  | None => Some blocks
  | Some limit =>
      let otherIdx := filter (prunable blocks updateRevision) (seq 0 (length blocks)) in
      let excess := Z.of_nat (length otherIdx) - limit in
      if decide (excess ≤ 0) then Some blocks
      else if decide (Z.of_nat (length otherIdx) < excess) then None
      else
        let drop := take (Z.to_nat excess) (sort_slice (olderAt blocks) otherIdx) in
        Some (snd <$> filter (λ x, x.1 ∉ drop) (imap pair blocks))
  end.

(** The written block keeps its key. *)
Definition rekeyed (rev : string) (b : RetryBlock) : RetryBlock :=
  mkBlock rev (BState b) (AttemptsStarted b) (NextRetryAt b) (FirstFailureAt b) (LastFailureAt b) (BReason b).

(** [applyRetryBlockMutation]; [mutate] is the callback, with the block it left. *)
Definition applyRetryBlockMutation (mutate : RetryBlock → RetryBlock * RetryBlockDisposition) (targetRevision : string)
    (updateRevision : string) (historyLimit : option Z) (blocks : list RetryBlock) : option (list RetryBlock) :=
  let pos := list_find (λ b, BTargetRevision b = targetRevision) blocks in
  let block := match pos with Some (_, b) => b | None => emptyBlock targetRevision end in
  let '(next, disposition) := mutate block in
  match disposition with
  | RetryBlockPersist =>
      let next := rekeyed targetRevision next in
      pruneRetryBlocks (match pos with None => blocks ++ [next] | Some (i, _) => <[i := next]> blocks end)
        updateRevision historyLimit
  | RetryBlockRemove =>
      match pos with
      | Some (i, _) => pruneRetryBlocks (delete i blocks) updateRevision historyLimit
      | None => Some blocks
      end
  | RetryBlockUnchanged => Some blocks
  end.

(** [PruneSupersededRetryBlocks]: the revisions still in play, and the removals. *)
Definition liveRevisions (current update : string) (target : option string) (rows : list InstanceStatus) : list string :=
  filter (λ rev, rev ≠ "")
    ([current; update] ++ option_list target
     ++ omap (λ row, if decide (ClaimOf row ≠ OwnerNone) then OTargetRevision <$> Operation row else None) rows).

Definition PruneSupersededRetryBlocks (current update : string) (target : option string) (rows : list InstanceStatus)
    (updateRevision : string) (historyLimit : option Z) (observed blocks : list RetryBlock) : option (list RetryBlock) :=
  foldl (λ blocks b,
    let rev := BTargetRevision b in
    if decide (rev = "" ∨ rev ∈ liveRevisions current update target rows) then blocks
    else blocks ← blocks; applyRetryBlockMutation (λ b, (b, RetryBlockRemove)) rev updateRevision historyLimit blocks)
    (Some blocks) observed.

(** ** Operations on the store *)

(** The store with the warning of a new hold: its attempts. *)
Definition RecordUpdateFailureInRetryBlockAt {float} (product : Z → float → Z → Z) (policy : option (RetryPolicy float))
    (updateRevision : string) (historyLimit : option Z) (targetRev : string) (now : Z) (reason : string)
    (cause : FailureCause) (blocks : list RetryBlock) : option (list RetryBlock * option Z) :=
  if decide (targetRev = "") then Some (blocks, None)
  else
    let block := default (emptyBlock targetRev) (FindRetryBlock blocks targetRev) in
    let heldAttempts := (ApplyUpdateFailureToRetryBlock product block policy now reason cause).2 in
    blocks ← applyRetryBlockMutation (λ b, (ApplyUpdateFailureToRetryBlock product b policy now reason cause).1)
               targetRev updateRevision historyLimit blocks;
    Some (blocks, if decide (0 < heldAttempts) then Some heldAttempts else None).

Definition RetryBlockPruneOnPromote (rows : list InstanceStatus) (rev updateRevision : string) (historyLimit : option Z)
    (blocks : list RetryBlock) : option (list RetryBlock) :=
  if decide (rev = "" ∨ RowRemembersCrashOn rows rev = true) then Some blocks
  else applyRetryBlockMutation pruneOnPromote rev updateRevision historyLimit blocks.

(** [consumeReleaseHeldRequest] for the block its value names. *)
Definition consumeReleaseHeldRequest (rev updateRevision : string) (historyLimit : option Z) (blocks : list RetryBlock)
    : option (list RetryBlock) :=
  match FindRetryBlock blocks rev with
  | Some b => if decide (BState b = RetryBlockHeld)
              then applyRetryBlockMutation (λ b, (b, RetryBlockRemove)) rev updateRevision historyLimit blocks
              else Some blocks
  | None => Some blocks
  end.
