(* ===== verification/LadderFacts.v ===== *)
(** * The retry ladder, proved

    What the store keeps under each revision, and the ladder as a state machine:
    over every history of failures, starts, promotions and releases the attempts
    at a revision are counted once each and never exceed the policy. *)

From S2P Require Import Prelude PlanIndices RowOwner RetryLadder.
Local Open Scope Z_scope.

(** ** The store is a map *)

Abbreviation atRev rev := (λ b : RetryBlock, BTargetRevision b = rev).

Lemma find_head blocks rev : FindRetryBlock blocks rev = head (filter (atRev rev) blocks).
Proof.
  unfold FindRetryBlock. induction blocks as [|b l IH]; [done|]. cbn [list_find].
  destruct (decide (BTargetRevision b = rev)) as [E|E].
  - by rewrite filter_cons_True.
  - rewrite filter_cons_False by done. rewrite <-IH. by destruct (list_find _ l) as [[??]|].
Qed.

Lemma find_rev blocks rev b : FindRetryBlock blocks rev = Some b → BTargetRevision b = rev.
Proof.
  rewrite find_head. intros Hb. destruct (filter _ _) as [|x l] eqn:E; [done|]. injection Hb as ->.
  assert (b ∈ filter (atRev rev) blocks) as [? _]%list_elem_of_filter by (rewrite E; left). done.
Qed.

(** Dropping positions of other revisions does not change what is found. *)
Lemma filter_snd_imap (blocks : list RetryBlock) (P : nat * RetryBlock → Prop) `{∀ x, Decision (P x)} rev :
  (∀ i b, blocks !! i = Some b → BTargetRevision b = rev → P (i, b)) →
  filter (atRev rev) (snd <$> filter P (imap pair blocks)) = filter (atRev rev) blocks.
Proof.
  intros HP. assert (∀ k, (∀ i b, blocks !! i = Some b → BTargetRevision b = rev → P ((k + i)%nat, b)) →
    filter (atRev rev) (snd <$> filter P (imap (λ i b, ((k + i)%nat, b)) blocks)) = filter (atRev rev) blocks) as Hk.
  { clear HP. induction blocks as [|b l IH]; intros k HP; [done|]. rewrite imap_cons.
    assert (imap ((λ i b, ((k + i)%nat, b)) ∘ S) l = imap (λ i b, ((S k + i)%nat, b)) l) as E.
    { apply imap_ext. intros i x _. cbn. f_equal. lia. }
    rewrite E. clear E. specialize (IH (S k)). rewrite filter_cons.
    assert (∀ i b', l !! i = Some b' → BTargetRevision b' = rev → P ((S k + i)%nat, b')) as HP'.
    { intros i b' Hi Hb'. replace (S k + i)%nat with (k + S i)%nat by lia. by apply HP. }
    destruct (decide (P ((k + 0)%nat, b))) as [Hp|Hp].
    - rewrite fmap_cons. destruct (decide (BTargetRevision b = rev)).
      + rewrite !filter_cons_True by done. by rewrite IH.
      + rewrite !filter_cons_False by done. by apply IH.
    - destruct (decide (BTargetRevision b = rev)) as [Hb|Hb]; [exfalso; apply Hp; by apply HP|].
      rewrite (filter_cons_False (atRev rev)) by done. by apply IH. }
  exact (Hk 0%nat HP).
Qed.

Lemma prune_find blocks upd limit blocks' rev :
  pruneRetryBlocks blocks upd limit = Some blocks' → limit = None ∨ (rev = upd ∧ upd ≠ "") →
  filter (atRev rev) blocks' = filter (atRev rev) blocks.
Proof.
  unfold pruneRetryBlocks. intros Hp Hrev. destruct limit as [limit|]; [|by injection Hp as ->].
  destruct Hrev as [?|[-> Hupd]]; [done|]. revert Hp. set (others := filter _ _).
  destruct (decide _); [by intros [= ->]|]. destruct (decide _); [done|]. intros [= <-].
  apply filter_snd_imap. intros i b Hi Hb. cbn. intros Hin%elem_of_take_in.
  rewrite elem_of_sort_slice in Hin. apply list_elem_of_filter in Hin as [Hin _].
  unfold prunable in Hin. rewrite Hi in Hin. naive_solver.
Qed.

Lemma prune_sublist blocks upd limit blocks' :
  pruneRetryBlocks blocks upd limit = Some blocks' → sublist blocks' blocks.
Proof.
  unfold pruneRetryBlocks. destruct limit as [limit|]; [|by intros [= ->]].
  cbv zeta. destruct (decide _); [by intros [= ->]|]. destruct (decide _); [done|]. intros [= <-].
  assert (blocks = snd <$> imap pair blocks) as E.
  { apply list_eq. intros i. rewrite list_lookup_fmap, list_lookup_imap. by destruct (blocks !! i). }
  etrans; [apply fmap_sublist, sublist_filter|]. by rewrite <-E.
Qed.

Lemma prune_total blocks upd limit :
  (∀ l, limit = Some l → 0 ≤ l) → is_Some (pruneRetryBlocks blocks upd limit).
Proof.
  intros Hl. unfold pruneRetryBlocks. destruct limit as [l|]; [|by eexists]. cbv zeta. specialize (Hl l eq_refl).
  destruct (decide _); [by eexists|]. rewrite decide_False by lia. by eexists.
Qed.

Abbreviation keyed blocks := (NoDup (BTargetRevision <$> blocks)).

Lemma keyed_filter blocks rev : keyed blocks → filter (atRev rev) blocks = option_list (FindRetryBlock blocks rev).
Proof.
  intros Hk. rewrite find_head. destruct (filter _ _) as [|x [|y l]] eqn:E; [done..|]. exfalso.
  assert (sublist (x :: y :: l) blocks) as Hs by (rewrite <-E; apply sublist_filter).
  apply (fmap_sublist BTargetRevision) in Hs. pose proof (sublist_NoDup _ _ Hk Hs) as Hnd. rewrite !fmap_cons in Hnd.
  apply NoDup_cons in Hnd as [Hx _]. apply Hx. rewrite elem_of_cons. left.
  assert (x ∈ filter (atRev rev) blocks) as [Ex _]%list_elem_of_filter by (rewrite E; left).
  assert (y ∈ filter (atRev rev) blocks) as [Ey _]%list_elem_of_filter by (rewrite E; right; left). congruence.
Qed.

Lemma find_keys blocks rev : FindRetryBlock blocks rev = None ↔ (rev ∉ BTargetRevision <$> blocks).
Proof.
  rewrite find_head, list_elem_of_fmap. destruct (filter _ _) as [|x l] eqn:E; cbn.
  - split; [|done]. intros _ (b & -> & Hb). assert (b ∈ filter (atRev (BTargetRevision b)) blocks) as Hin
      by (by apply list_elem_of_filter). rewrite E in Hin. by apply elem_of_nil in Hin.
  - split; [done|]. intros H. exfalso. apply H.
    assert (x ∈ filter (atRev rev) blocks) as [Ex ?]%list_elem_of_filter by (rewrite E; left). by exists x.
Qed.

(** The block a callback leaves under its revision. *)
Definition settle (rev : string) (found : option RetryBlock) (r : RetryBlock * RetryBlockDisposition) : option RetryBlock :=
  match r.2 with
  | RetryBlockPersist => Some (rekeyed rev r.1)
  | RetryBlockRemove => None
  | RetryBlockUnchanged => found
  end.

Lemma list_find_split blocks rev i b :
  list_find (atRev rev) blocks = Some (i, b) →
  BTargetRevision b = rev ∧ blocks = take i blocks ++ b :: drop (S i) blocks ∧ (i < length blocks)%nat.
Proof.
  intros (Hi & Hb & _)%list_find_Some. split; [done|]. split; [by rewrite take_drop_middle|by eapply lookup_lt_Some].
Qed.

Lemma put_found blocks rev i b nb :
  list_find (atRev rev) blocks = Some (i, b) → BTargetRevision nb = rev → keyed blocks →
  keyed (<[i:=nb]> blocks) ∧
  ∀ r, FindRetryBlock (<[i:=nb]> blocks) r = if decide (r = rev) then Some nb else FindRetryBlock blocks r.
Proof.
  intros Ep Enb Hk. destruct (list_find_split _ _ _ _ Ep) as (Eb & Esplit & Hi).
  apply list_find_Some in Ep as (Hl & _ & Hbefore). split.
  { rewrite list_fmap_insert, list_insert_id; [done|]. rewrite list_lookup_fmap, Hl. cbn. by rewrite Eb, Enb. }
  intros r. rewrite !find_head, insert_take_drop, filter_app by done. destruct (decide (r = rev)) as [->|Hne].
  - rewrite filter_cons_True by done. rewrite (filter_none (atRev rev) (take i blocks)); [done|].
    intros x [j Hj]%list_elem_of_lookup. pose proof (lookup_lt_Some _ _ _ Hj) as Hlt.
    rewrite length_take in Hlt. rewrite lookup_take_lt in Hj by lia. eapply Hbefore; [exact Hj|lia].
  - rewrite Esplit at 3. rewrite filter_app, !(filter_cons_False (atRev r)) by congruence. done.
Qed.

Lemma delete_found blocks rev i b :
  list_find (atRev rev) blocks = Some (i, b) → keyed blocks →
  keyed (delete i blocks) ∧
  ∀ r, FindRetryBlock (delete i blocks) r = if decide (r = rev) then None else FindRetryBlock blocks r.
Proof.
  intros Ep Hk. destruct (list_find_split _ _ _ _ Ep) as (Eb & Esplit & Hi). split.
  { eapply sublist_NoDup; [exact Hk|]. apply fmap_sublist, sublist_delete. }
  intros r. destruct (decide (r = rev)) as [->|Hne].
  - apply find_keys. rewrite Esplit in Hk. rewrite delete_take_drop, fmap_app in *. rewrite fmap_cons, Eb in Hk.
    apply NoDup_app in Hk as (_ & H1 & H2%NoDup_cons). rewrite elem_of_app. intros [Hin|Hin]; [|by apply H2].
    apply (H1 _ Hin). left.
  - rewrite !find_head, delete_take_drop, filter_app. rewrite Esplit at 3.
    rewrite filter_app, (filter_cons_False (atRev r)) by congruence. done.
Qed.

Lemma append_new blocks rev nb :
  FindRetryBlock blocks rev = None → BTargetRevision nb = rev → keyed blocks →
  keyed (blocks ++ [nb]) ∧
  ∀ r, FindRetryBlock (blocks ++ [nb]) r = if decide (r = rev) then Some nb else FindRetryBlock blocks r.
Proof.
  intros Hf%find_keys Enb Hk. split.
  { rewrite fmap_app. apply NoDup_app. split; [done|]. split; [|apply NoDup_singleton].
    intros x Hx ->%list_elem_of_singleton. by rewrite Enb in Hx. }
  intros r. rewrite !find_head, filter_app. destruct (decide (r = rev)) as [->|Hne].
  - rewrite filter_none; [by rewrite filter_cons_True|]. intros x Hx E. apply Hf, list_elem_of_fmap. eauto.
  - rewrite filter_cons_False by congruence. by rewrite filter_nil, (right_id_L [] (++)).
Qed.

Lemma prune_keyed blocks upd limit blocks' :
  pruneRetryBlocks blocks upd limit = Some blocks' → keyed blocks → keyed blocks'.
Proof. intros Hp Hk. eapply sublist_NoDup; [exact Hk|]. apply fmap_sublist. by eapply prune_sublist. Qed.

(** A mutation changes its own revision as the callback says, and no other, where
    the history limit does not reach. *)
Lemma mutation_spec f target upd limit blocks blocks' :
  keyed blocks → applyRetryBlockMutation f target upd limit blocks = Some blocks' →
  keyed blocks' ∧
  ∀ rev, limit = None ∨ (rev = upd ∧ upd ≠ "") →
    FindRetryBlock blocks' rev =
      if decide (rev = target)
      then settle rev (FindRetryBlock blocks rev) (f (default (emptyBlock rev) (FindRetryBlock blocks rev)))
      else FindRetryBlock blocks rev.
Proof.
  intros Hk. unfold applyRetryBlockMutation.
  assert (FindRetryBlock blocks target = snd <$> list_find (atRev target) blocks) as Ef by done.
  assert (∀ l, keyed l → pruneRetryBlocks l upd limit = Some blocks' → keyed blocks' ∧
    ∀ rev, limit = None ∨ (rev = upd ∧ upd ≠ "") → FindRetryBlock blocks' rev = FindRetryBlock l rev) as Hprune.
  { intros l Hl Hp. split; [by eapply prune_keyed|]. intros rev Hrev. rewrite !find_head. by erewrite prune_find. }
  destruct (list_find (atRev target) blocks) as [[i b]|] eqn:Ep; cbn in Ef;
    [destruct (f b) as [next d] eqn:E|destruct (f (emptyBlock target)) as [next d] eqn:E]; destruct d; cbv zeta.
  - intros [= <-]. split; [done|]. intros rev _. destruct (decide _) as [->|]; [|done]. rewrite Ef. cbn. by rewrite E.
  - intros Hp. destruct (put_found _ _ _ _ (rekeyed target next) Ep eq_refl Hk) as [Hk' Hf].
    destruct (Hprune _ Hk' Hp) as [? Hfind]. split; [done|]. intros rev Hrev. rewrite (Hfind rev Hrev), Hf.
    destruct (decide _) as [->|]; [|done]. rewrite Ef. cbn. by rewrite E.
  - intros Hp. destruct (delete_found _ _ _ _ Ep Hk) as [Hk' Hf].
    destruct (Hprune _ Hk' Hp) as [? Hfind]. split; [done|]. intros rev Hrev. rewrite (Hfind rev Hrev), Hf.
    destruct (decide _) as [->|]; [|done]. rewrite Ef. cbn. by rewrite E.
  - intros [= <-]. split; [done|]. intros rev _. destruct (decide _) as [->|]; [|done]. rewrite Ef. cbn. by rewrite E.
  - intros Hp. destruct (append_new _ _ (rekeyed target next) Ef eq_refl Hk) as [Hk' Hf].
    destruct (Hprune _ Hk' Hp) as [? Hfind]. split; [done|]. intros rev Hrev. rewrite (Hfind rev Hrev), Hf.
    destruct (decide _) as [->|]; [|done]. rewrite Ef. cbn. by rewrite E.
  - intros [= <-]. split; [done|]. intros rev _. destruct (decide _) as [->|]; [|done]. rewrite Ef. cbn. by rewrite E.
Qed.

(** ** The ladder as a state machine *)

Inductive ladderEvent :=
  | Failed (rev : string) (now : Z) (reason : string) (cause : FailureCause)
  | Started (rev : string) (openSince : option Z)
  | Promoted (rev : string) (rows : list InstanceStatus)
  | Released (rev : string).

Section ladder.
Context {float : Type} (product : Z → float → Z → Z) (p : RetryPolicy float).
Context (target : string) (limit : option Z).

Definition ladderStep (ev : ladderEvent) (blocks : list RetryBlock) : option (list RetryBlock) :=
  match ev with
  | Failed rev now reason cause =>
      fst <$> RecordUpdateFailureInRetryBlockAt product (Some p) target limit rev now reason cause blocks
  | Started rev openSince => applyRetryBlockMutation (entryStampAttemptStarted openSince) rev target limit blocks
  | Promoted rev rows => RetryBlockPruneOnPromote rows rev target limit blocks
  | Released rev => consumeReleaseHeldRequest rev target limit blocks
  end.

(** The retries started at the target since it last had no block. *)
Definition retried (before after : option RetryBlock) (n : Z) : Z :=
  match before, after with
  | _, None => 0
  | Some b, Some b' => if decide (BState b = RetryBlockBackoff ∧ BState b' = RetryBlockRetryInProgress) then n + 1 else n
  | None, Some _ => n
  end.

Inductive ladder_run : list RetryBlock → Z → Prop :=
  | run_start : ladder_run [] 0
  | run_step blocks n ev blocks' :
      ladder_run blocks n → ladderStep ev blocks = Some blocks' →
      ladder_run blocks' (retried (FindRetryBlock blocks target) (FindRetryBlock blocks' target) n).

(** What an event does to the target's block. *)
Definition blockStep (ev : ladderEvent) (ob : option RetryBlock) : option RetryBlock :=
  let b := default (emptyBlock target) ob in
  match ev with
  | Failed rev now reason cause =>
      if decide (rev = target)
      then settle target ob (ApplyUpdateFailureToRetryBlock product b (Some p) now reason cause).1 else ob
  | Started rev openSince => if decide (rev = target) then settle target ob (entryStampAttemptStarted openSince b) else ob
  | Promoted rev rows =>
      if decide (rev = target ∧ RowRemembersCrashOn rows rev = false) then settle target ob (pruneOnPromote b) else ob
  | Released rev => if decide (rev = target ∧ BState b = RetryBlockHeld) then None else ob
  end.

Hypothesis Htarget : target ≠ "".

Lemma ladderStep_block ev blocks blocks' :
  keyed blocks → ladderStep ev blocks = Some blocks' →
  keyed blocks' ∧ FindRetryBlock blocks' target = blockStep ev (FindRetryBlock blocks target).
Proof using Htarget.
  intros Hk. assert (limit = None ∨ (target = target ∧ target ≠ "")) as Hlim by (by right).
  destruct ev as [rev now reason cause|rev since|rev rows|rev]; cbn [ladderStep blockStep].
  - unfold RecordUpdateFailureInRetryBlockAt. destruct (decide (rev = "")) as [->|Hne].
    { intros [= <-]. split; [done|]. by rewrite decide_False. }
    cbv zeta. destruct (applyRetryBlockMutation _ _ _ _ _) as [l|] eqn:E; cbn; [|done]. intros [= <-].
    destruct (mutation_spec _ _ _ _ _ _ Hk E) as [? Hf]. split; [done|]. rewrite (Hf target Hlim).
    destruct (decide (target = rev)) as [->|]; [by rewrite decide_True|by rewrite decide_False].
  - intros E. destruct (mutation_spec _ _ _ _ _ _ Hk E) as [? Hf]. split; [done|]. rewrite (Hf target Hlim).
    destruct (decide (target = rev)) as [->|]; [by rewrite decide_True|by rewrite decide_False].
  - unfold RetryBlockPruneOnPromote. destruct (decide _) as [Hskip|Hskip].
    + intros [= <-]. split; [done|]. rewrite decide_False; [done|]. intros [-> Hc]. destruct Hskip as [?|Hc']; [done|congruence].
    + intros E. destruct (mutation_spec _ _ _ _ _ _ Hk E) as [? Hf]. split; [done|]. rewrite (Hf target Hlim).
      apply Decidable.not_or in Hskip as [_ Hc%not_true_is_false].
      destruct (decide (target = rev)) as [->|]; [by rewrite decide_True|by rewrite decide_False by naive_solver].
  - unfold consumeReleaseHeldRequest. destruct (FindRetryBlock blocks rev) as [b|] eqn:Eb.
    + destruct (decide (BState b = RetryBlockHeld)) as [Hh|Hh].
      * intros E. destruct (mutation_spec _ _ _ _ _ _ Hk E) as [? Hf]. split; [done|]. rewrite (Hf target Hlim).
        destruct (decide (target = rev)) as [->|]; [|by rewrite decide_False by naive_solver].
        rewrite Eb. cbn. by rewrite decide_True.
      * intros [= <-]. split; [done|]. rewrite decide_False; [done|]. intros [-> Hc]. by rewrite Eb in Hc.
    + intros [= <-]. split; [done|]. destruct (decide _) as [[-> _]|]; [by rewrite Eb|done].
Qed.

Hypothesis Hmax : MaxAttempts p ≤ MaxInt32.

(** A block on the ladder, after [n] retries. *)
Definition onLadder (b : RetryBlock) (n : Z) : Prop :=
  1 ≤ AttemptsStarted b ≤ Z.max 1 (MaxAttempts p) ∧
  (BState b = RetryBlockHeld ↔ MaxAttempts p ≤ AttemptsStarted b) ∧
  (BState b = RetryBlockHeld ↔ NextRetryAt b = None) ∧
  (BState b = RetryBlockHeld ∨ BState b = RetryBlockBackoff ∨ BState b = RetryBlockRetryInProgress) ∧
  0 ≤ n ∧ n ≤ AttemptsStarted b - (if decide (BState b = RetryBlockRetryInProgress) then 0 else 1).

Lemma states_differ :
  RetryBlockHeld ≠ RetryBlockBackoff ∧ RetryBlockHeld ≠ RetryBlockRetryInProgress ∧
  RetryBlockBackoff ≠ RetryBlockRetryInProgress ∧ RetryBlockHeld ≠ "" ∧ RetryBlockBackoff ≠ "" ∧ RetryBlockRetryInProgress ≠ "".
Proof using. done. Qed.

(** A failure on a block that is on the ladder, or on none. *)
Lemma failure_on_ladder b now reason cause :
  AttemptsStarted b = 0 ∧ BState b = "" ∨ (∃ n, onLadder b n) →
  let '(b', d, _) := ApplyUpdateFailureToRetryBlock product b (Some p) now reason cause in
  (d = RetryBlockUnchanged ∧ b' = b) ∨
  (d = RetryBlockPersist ∧ BState b' = BState b ∧ AttemptsStarted b' = AttemptsStarted b ∧ NextRetryAt b' = NextRetryAt b ∧
     (BState b = RetryBlockBackoff ∨ BState b = RetryBlockHeld)) ∨
  (d = RetryBlockPersist ∧ (BState b = "" ∨ BState b = RetryBlockRetryInProgress) ∧
     AttemptsStarted b' = AttemptsStarted b + 1 ∧
     (if decide (MaxAttempts p ≤ AttemptsStarted b + 1)
      then BState b' = RetryBlockHeld ∧ NextRetryAt b' = None
      else BState b' = RetryBlockBackoff
           ∧ NextRetryAt b' = Some (now + NextRetryDelay product p (AttemptsStarted b + 1)))).
Proof using Hmax.
  intros Hb. pose proof states_differ as (D1 & D2 & D3 & D4 & D5 & D6).
  unfold ApplyUpdateFailureToRetryBlock. destruct (decide (cause = CauseEnvironment)); [by left|].
  destruct (decide (cause ≠ CauseWorkload ∧ _)); [by left|]. cbv zeta.
  destruct (decide (BState b = RetryBlockBackoff ∨ _)) as [Hs|Hs]; [right; left; naive_solver|].
  assert ((BState b = "" ∨ BState b = RetryBlockRetryInProgress) ∧ int32_range (AttemptsStarted b + 1)) as [Hst Hr].
  { destruct Hb as [[HA ?]|(k & HA & Hh & _ & Hst & _)]; unfold int32_range.
    - rewrite HA. split; [by left|lia].
    - split; [naive_solver|]. assert (BState b ≠ RetryBlockHeld) as Hne by naive_solver. rewrite Hh in Hne. lia. }
  rewrite i32_id by done. cbn [Exhausted].
  destruct (decide (MaxAttempts p ≤ AttemptsStarted b + 1));
    [rewrite bool_decide_true by done|rewrite bool_decide_false by done]; right; right; auto.
Qed.

(** Retries counted across a change of the block, and across none. *)
Definition stays (ob ob' : option RetryBlock) (n : Z) : Prop :=
  match ob' with None => True | Some b' => onLadder b' (retried ob (Some b') n) end.

Lemma stays_same ob n : match ob with None => n = 0 | Some b => onLadder b n end → stays ob ob n.
Proof using.
  destruct ob as [b|]; [|done]. intros Hb. unfold stays, retried.
  rewrite decide_False; [done|]. intros [E1 E2]. rewrite E1 in E2. by pose proof states_differ as (_ & _ & ? & _).
Qed.

Lemma stays_failed ob n now reason cause :
  match ob with None => n = 0 | Some b => onLadder b n end →
  stays ob (settle target ob
    (ApplyUpdateFailureToRetryBlock product (default (emptyBlock target) ob) (Some p) now reason cause).1) n.
Proof using Hmax.
  intros Hob. pose proof states_differ as (D1 & D2 & D3 & D4 & D5 & D6).
  assert (AttemptsStarted (default (emptyBlock target) ob) = 0 ∧ BState (default (emptyBlock target) ob) = ""
          ∨ (∃ n, onLadder (default (emptyBlock target) ob) n)) as Hb by (destruct ob; [right; eauto|by left]).
  pose proof (failure_on_ladder _ now reason cause Hb) as Hf.
  destruct (ApplyUpdateFailureToRetryBlock _ _ _ _ _ _) as [[b' d] w]. cbn [fst].
  destruct Hf as [[-> ->]|[(-> & Es & Ea & En & Hs)|(-> & Hs & Ea & Hnew)]]; cbn [settle snd]; [by apply stays_same|..].
  - destruct ob as [b|]; cbn in *; [|destruct Hs; congruence]. unfold onLadder, retried, rekeyed in *. cbn in *.
    rewrite Es, Ea, En in *. rewrite decide_False by (intros [??]; congruence). done.
  - unfold stays. destruct ob as [b|]; cbn in *.
    + destruct Hob as (HA & Hh & Hn & Hst & Hpos & Hle). assert (BState b = RetryBlockRetryInProgress) as Eb
        by (destruct Hs as [Hs|Hs]; [destruct Hst as [Hst|[Hst|Hst]]; congruence|done]).
      rewrite decide_True in Hle by done. unfold onLadder, rekeyed. cbn. rewrite Ea.
      rewrite (decide_False (P:=BState b = RetryBlockBackoff ∧ _)) by (intros [??]; congruence).
      assert (¬ MaxAttempts p ≤ AttemptsStarted b) by (rewrite <-Hh; congruence).
      destruct (decide (MaxAttempts p ≤ _)) as [Hm|Hm]; destruct Hnew as [-> ->];
        rewrite decide_False by done; repeat split; auto; try lia; intros; congruence || lia.
    + unfold onLadder, rekeyed. cbn. rewrite Ea. subst n.
      destruct (decide (MaxAttempts p ≤ _)) as [Hm|Hm]; destruct Hnew as [-> ->];
        rewrite decide_False by done; repeat split; auto; try lia; intros; congruence || lia.
Qed.

Lemma stays_started ob n since :
  match ob with None => n = 0 | Some b => onLadder b n end →
  stays ob (settle target ob (entryStampAttemptStarted since (default (emptyBlock target) ob))) n.
Proof using.
  intros Hob. pose proof states_differ as (D1 & D2 & D3 & D4 & D5 & D6).
  assert (stays ob (settle target ob (RetryBlockStartAttempt (default (emptyBlock target) ob))) n) as Hstart.
  { unfold RetryBlockStartAttempt. destruct (decide _) as [|Hs%dec_stable]; [by apply stays_same|].
    destruct ob as [b|]; [|done]. cbn in Hs |- *. destruct Hob as (HA & Hh & Hn & Hst & Hpos & Hle).
    rewrite decide_False in Hle by congruence. unfold stays, retried, onLadder. cbn. rewrite !decide_True by done.
    repeat split; auto; try lia; try congruence.
    - intros Hm%Hh. congruence.
    - intros Hm%Hn. congruence. }
  unfold entryStampAttemptStarted. destruct since as [since|]; [|done].
  destruct (NextRetryAt _); [|done]. destruct (decide _); [by apply stays_same|done].
Qed.

Lemma blockStep_ladder ev ob n :
  match ob with None => n = 0 | Some b => onLadder b n end → stays ob (blockStep ev ob) n.
Proof using Hmax.
  intros Hob. destruct ev as [rev now reason cause|rev since|rev rows|rev]; cbn [blockStep];
    (destruct (decide _); [|by apply stays_same]).
  - by apply stays_failed.
  - by apply stays_started.
  - unfold pruneOnPromote. destruct (decide _); [by apply stays_same|done].
  - done.
Qed.

Lemma ladder_run_inv blocks n :
  ladder_run blocks n →
  keyed blocks ∧ match FindRetryBlock blocks target with None => n = 0 | Some b => onLadder b n end.
Proof using Hmax Htarget.
  induction 1 as [|blocks n ev blocks' Hrun [Hk Hinv] Hstep]; [split; [constructor|done]|].
  destruct (ladderStep_block _ _ _ Hk Hstep) as [Hk' Hf]. split; [done|].
  pose proof (blockStep_ladder ev _ _ Hinv) as Hs. rewrite <-Hf in Hs.
  destruct (FindRetryBlock blocks' target); [done|]. unfold retried. by destruct (FindRetryBlock blocks target).
Qed.
End ladder.

Lemma mutation_total f target upd limit blocks :
  (∀ l, limit = Some l → 0 ≤ l) → is_Some (applyRetryBlockMutation f target upd limit blocks).
Proof.
  intros Hl. unfold applyRetryBlockMutation. destruct (f _) as [next []]; [by eexists|by apply prune_total|].
  destruct (list_find _ _) as [[??]|]; [by apply prune_total|by eexists].
Qed.

Lemma ladderStep_total {float} product (p : RetryPolicy float) target limit ev blocks :
  (∀ l, limit = Some l → 0 ≤ l) → is_Some (ladderStep product p target limit ev blocks).
Proof.
  intros Hl. destruct ev as [rev now reason cause|rev since|rev rows|rev]; cbn [ladderStep].
  - unfold RecordUpdateFailureInRetryBlockAt. destruct (decide _); [by eexists|]. cbv zeta.
    destruct (mutation_total (λ b, (ApplyUpdateFailureToRetryBlock product b (Some p) now reason cause).1)
      rev target limit blocks Hl) as [l ->]. by eexists.
  - by apply mutation_total.
  - unfold RetryBlockPruneOnPromote. destruct (decide _); [by eexists|by apply mutation_total].
  - unfold consumeReleaseHeldRequest. destruct (FindRetryBlock _ _); [|by eexists].
    destruct (decide _); [by apply mutation_total|by eexists].
Qed.

(** A hold outlives every event but its release. *)
Lemma held_stays {float} product (p : RetryPolicy float) target ev b :
  BTargetRevision b = target → BState b = RetryBlockHeld → ev ≠ Released target →
  ∃ b', blockStep product p target ev (Some b) = Some b' ∧ BState b' = RetryBlockHeld
        ∧ AttemptsStarted b' = AttemptsStarted b.
Proof.
  intros Eb Hh Hev. pose proof states_differ as (D1 & D2 & D3 & D4 & D5 & D6).
  destruct ev as [rev now reason cause|rev since|rev rows|rev]; cbn [blockStep default];
    (destruct (decide _) as [Hr|]; [|by exists b]).
  - unfold ApplyUpdateFailureToRetryBlock. destruct (decide (cause = _)); [by exists b|].
    destruct (decide (cause ≠ _ ∧ _)); [by exists b|]. cbv zeta.
    rewrite decide_True by (by right). cbn. eexists. split; [done|]. done.
  - assert (RetryBlockStartAttempt b = (b, RetryBlockUnchanged)) as E
      by (unfold RetryBlockStartAttempt; rewrite decide_True; [done|congruence]).
    unfold entryStampAttemptStarted. cbn [from_option id].
    destruct since, (NextRetryAt b); rewrite ?E; [destruct (decide _)|..]; by exists b.
  - unfold pruneOnPromote. cbn [from_option id]. rewrite decide_True by done. by exists b.
  - destruct Hr as [-> _]. done.
Qed.

Lemma NextRetryDelay_bounds {float} product (p : RetryPolicy float) n :
  0 < MaxDelay p → 0 < NextRetryDelay product p n ≤ MaxDelay p.
Proof. intros Hd. unfold NextRetryDelay. destruct (decide _); lia. Qed.

(** C26: the retry ladder of a roll target, over every history of failures with
    any cause, attempt starts, promotions and releases at it and at any other
    revision.  No write fails, whatever the history limit; the recorded attempts
    are between one and the policy's maximum (one when the policy allows none),
    and the block is held exactly when they reach it; since its block was last
    absent the target was retried at most once less than the maximum; a held block
    denies every start at every time and stays, with its count, through every
    event but its release; and a failure is counted at most once, from an attempt
    in progress, after which the next start is held off, or the ladder denies it
    until a due time at most the maximum delay away.  All this for any backoff
    product. *)
Theorem retry_ladder {float} (product : Z → float → Z → Z) (p : RetryPolicy float) target limit blocks n :
  target ≠ "" → MaxAttempts p ≤ MaxInt32 → 0 < MaxDelay p → (∀ l, limit = Some l → 0 ≤ l) →
  ladder_run product p target limit blocks n →
  (∀ ev, is_Some (ladderStep product p target limit ev blocks)) ∧
  ∀ b, FindRetryBlock blocks target = Some b →
    1 ≤ AttemptsStarted b ≤ Z.max 1 (MaxAttempts p) ∧ 0 ≤ n ≤ Z.max 0 (MaxAttempts p - 1) ∧
    (BState b = RetryBlockHeld ↔ MaxAttempts p ≤ AttemptsStarted b) ∧
    (BState b = RetryBlockHeld →
       (∀ now inFlight, (evaluateRetryBlockGate (Some b) now inFlight).1 = true) ∧
       ∀ ev blocks', ev ≠ Released target → ladderStep product p target limit ev blocks = Some blocks' →
         ∃ b', FindRetryBlock blocks' target = Some b' ∧ BState b' = RetryBlockHeld
               ∧ AttemptsStarted b' = AttemptsStarted b) ∧
    (∀ now reason cause,
       let b' := (ApplyUpdateFailureToRetryBlock product b (Some p) now reason cause).1.1 in
       AttemptsStarted b' = AttemptsStarted b ∨
       (BState b = RetryBlockRetryInProgress ∧ AttemptsStarted b' = AttemptsStarted b + 1 ∧
        (BState b' = RetryBlockHeld ∨
         ∃ due, BState b' = RetryBlockBackoff ∧ now < due ≤ now + MaxDelay p ∧
                ∀ t inFlight, t < due → (evaluateRetryBlockGate (Some b') t inFlight).1 = true))).
Proof.
  intros Ht Hmax Hdelay Hl Hrun. split; [intros ev; by apply ladderStep_total|]. intros b Hb.
  destruct (ladder_run_inv product p target limit Ht Hmax _ _ Hrun) as [Hk Hinv]. rewrite Hb in Hinv.
  pose proof Hinv as (HA & Hh & Hn & Hst & Hpos & Hle). pose proof states_differ as (D1 & D2 & D3 & D4 & D5 & D6).
  split; [done|]. split.
  { destruct (decide (BState b = RetryBlockRetryInProgress)); [|lia].
    assert (¬ MaxAttempts p ≤ AttemptsStarted b) by (rewrite <-Hh; congruence). lia. }
  split; [done|]. split.
  - intros Hheld. split; [intros now inF; cbn; by rewrite decide_True|]. intros ev blocks' Hev Hstep.
    destruct (ladderStep_block product p target limit Ht _ _ _ Hk Hstep) as [_ ->]. rewrite Hb.
    apply held_stays; [by eapply find_rev|done|done].
  - intros now reason cause.
    pose proof (failure_on_ladder product p Hmax b now reason cause ltac:(right; eauto)) as Hf.
    destruct (ApplyUpdateFailureToRetryBlock _ _ _ _ _ _) as [[b' d] w]. cbn [fst].
    destruct Hf as [[_ ->]|[(_ & _ & -> & _)|(_ & Hs & Ea & Hnew)]]; [by left..|].
    right. split; [destruct Hs; [destruct Hst as [Hst|[Hst|Hst]]; congruence|done]|]. split; [done|].
    destruct (decide (MaxAttempts p ≤ AttemptsStarted b + 1)); destruct Hnew as [Es En]; [by left|]. right.
    pose proof (NextRetryDelay_bounds product p (AttemptsStarted b + 1) Hdelay). eexists. split; [done|].
    split; [|intros t inF Hlt; cbn; rewrite Es, En, !decide_False, decide_True by congruence; by rewrite decide_True]. lia.
Qed.

(** A doubling backoff on integers, and a target that fails, is retried and fails again. *)
Definition doubling (initial multiplier n : Z) : Z := initial * multiplier ^ n.
Definition twoAttempts : RetryPolicy Z := mkPolicy 2 10 60 2.

Lemma retry_ladder_witness :
  let b := mkBlock "r2" RetryBlockHeld 2 None (Some 100) (Some 120) "CrashLoopBackOff" in
  ladder_run doubling twoAttempts "r2" (Some 3) [b] 1 ∧
  ∀ now inFlight, (evaluateRetryBlockGate (Some b) now inFlight).1 = true.
Proof.
  assert (ladder_run doubling twoAttempts "r2" (Some 3)
    [mkBlock "r2" RetryBlockHeld 2 None (Some 100) (Some 120) "CrashLoopBackOff"] 1) as Hrun.
  { exact (run_step doubling twoAttempts "r2" (Some 3) _ _ (Failed "r2" 120 "CrashLoopBackOff" CauseUnattributed) _
      (run_step doubling twoAttempts "r2" (Some 3) _ _ (Started "r2" None) _
        (run_step doubling twoAttempts "r2" (Some 3) _ _ (Failed "r2" 100 "CrashLoopBackOff" CauseUnattributed) _
          (run_start doubling twoAttempts "r2" (Some 3)) eq_refl) eq_refl) eq_refl). }
  split; [exact Hrun|].
  destruct (retry_ladder doubling twoAttempts "r2" (Some 3) _ _ ltac:(done) ltac:(done) ltac:(done)
    ltac:(by intros l [= <-]) Hrun) as [_ H].
  exact (proj1 (proj1 (proj2 (proj2 (proj2 (H _ eq_refl)))) eq_refl)).
Defined.

(** Another revision's block does not deny the target, and a superseded one is pruned. *)
Example prune_superseded :
  PruneSupersededRetryBlocks "r2" "r2" (Some "r2") [] "r2" (Some 3)
    [mkBlock "r1" RetryBlockHeld 2 None None None ""; mkBlock "r2" RetryBlockBackoff 1 (Some 9) None None ""]
    [mkBlock "r1" RetryBlockHeld 2 None None None ""; mkBlock "r2" RetryBlockBackoff 1 (Some 9) None None ""]
  = Some [mkBlock "r2" RetryBlockBackoff 1 (Some 9) None None ""].
Proof. vm_compute. reflexivity. Qed.
