(* ===== verification/SecondaryHolds.v ===== *)
(** * Holding secondary floors

    [pkg/controller/v1beta1/placement/secondary_holds.go]: while a split shifts,
    a member's floor for a secondary component falls no faster than ready
    instances elsewhere can stand in for it. *)

From S2P Require Import Prelude.
Local Open Scope Z_scope.

(** ** The code *)

Record secondaryMember := mkSecondary { Applied : Z; Next : Z; Ready : Z; Known : bool; Serving : bool }.

Definition addServing (members : gmap string secondaryMember) (serving : Z) (name : string) : Z :=
  match members !! name with
  | Some member => if Known member && Serving member then i64 (serving + Ready member) else serving
  | None => serving
  end.

(** One round of the loop over the names: the budget and the floors held. *)
Definition holdFloor (members : gmap string secondaryMember) (st : Z * gmap string Z) (name : string)
    : Z * gmap string Z :=
  let '(budget, out) := st in
  match members !! name with
  | None => (budget, out)
  | Some member =>
      if decide (Applied member ≤ Next member) then (budget, out)
      else
        let '(floor, budget) :=
          if Known member then
            let floor := Z.max (Next member) (Z.min (Applied member) (Ready member)) in
            let release := i32 (Z.min (i32 (floor - Next member)) budget) in
            (i32 (floor - release), i64 (budget - release))
          else (Applied member, budget) in
        (budget, if decide (Next member < floor) then <[name := floor]> out else out)
  end.

Definition secondaryFloorHolds (minimum : Z) (members : gmap string secondaryMember) : gmap string Z :=
  let serving := foldl (addServing members) 0 (sorted_keys members) in
  let budget := Z.max 0 (i64 (serving - minimum)) in
  (foldl (holdFloor members) (budget, ∅) (sorted_keys members)).2.

Example holds_two :
  secondaryFloorHolds 3 {["a" := mkSecondary 3 1 3 true true; "b" := mkSecondary 0 2 1 true true]} = {["a" := 2]}.
Proof. vm_compute. reflexivity. Qed.

(** ** What is lost *)

(** The floor the member is given, and the ready instances it may lose to it: the
    ones the applied floor kept and this one does not. *)
Definition givenFloor (out : gmap string Z) (name : string) (m : secondaryMember) : Z := default (Next m) (out !! name).
Definition readyLoss (m : secondaryMember) (floor : Z) : Z :=
  if decide (Next m < Applied m) then Z.min (Ready m) (Applied m) - Z.min (Ready m) floor else 0.

Section holds.
Context (members : gmap string secondaryMember).

(** What one member may lose when it is observed, and when it also serves. *)
Definition knownLoss (out : gmap string Z) (k : string) : Z :=
  match members !! k with Some m => if Known m then readyLoss m (givenFloor out k m) else 0 | None => 0 end.
Definition servingLoss (out : gmap string Z) (k : string) : Z :=
  match members !! k with Some m => if Known m && Serving m then readyLoss m (givenFloor out k m) else 0 | None => 0 end.

Hypothesis Hrange : ∀ k m, members !! k = Some m →
  0 ≤ Applied m ≤ MaxInt32 ∧ 0 ≤ Next m ≤ MaxInt32 ∧ 0 ≤ Ready m ≤ MaxInt32.
Hypothesis Hsize : Z.of_nat (size members) ≤ MaxInt32.

Definition servingOf (k : string) : Z :=
  match members !! k with Some m => if Known m && Serving m then Ready m else 0 | None => 0 end.

Lemma serving_sum :
  foldl (addServing members) 0 (sorted_keys members) = zsum_with servingOf (sorted_keys members)
  ∧ 0 ≤ zsum_with servingOf (sorted_keys members) ≤ MaxInt32 * MaxInt32.
Proof using Hrange Hsize.
  pose proof (length_sorted_keys members) as Hl.
  assert (Z.of_nat (length (sorted_keys members)) ≤ MaxInt32) as Hlen by lia.
  enough (foldl (addServing members) 0 (sorted_keys members) = zsum_with servingOf (sorted_keys members)
    ∧ 0 ≤ foldl (addServing members) 0 (sorted_keys members) ≤ MaxInt32 * Z.of_nat (length (sorted_keys members)))
    as [E ?] by (rewrite <-E; lia).
  revert Hlen. apply (foldl_ind _ (λ pre z, Z.of_nat (length pre) ≤ MaxInt32 → z = zsum_with servingOf pre
     ∧ 0 ≤ z ≤ MaxInt32 * Z.of_nat (length pre))); [cbn; lia|].
  intros pre x post z _ IH. rewrite length_app. cbn [length]. intros Hpre.
  destruct (IH ltac:(lia)) as [-> Hz].
  rewrite zsum_with_app, zsum_with_cons, zsum_with_nil. 
  revert Hz. generalize (zsum_with servingOf pre). intros z Hz. unfold addServing, servingOf.
  destruct (members !! x) as [m|] eqn:Em; [|lia]. pose proof (Hrange x m Em).
  destruct (Known m && Serving m); [|lia]. rewrite i64_id; [lia|]. unfold int64_range. lia.
Qed.

(** One member's round. *)
Lemma holdFloor_member k m budget out :
  members !! k = Some m → 0 ≤ budget ≤ MaxInt64 →
  ∃ floor release,
    holdFloor members (budget, out) k =
      (budget - release, if decide (Next m < floor) then <[k := floor]> out else out) ∧
    0 ≤ release ≤ budget ∧ Next m ≤ Z.max (Next m) floor ∧ floor ≤ Applied m ∧
    (Known m = false → release = 0 ∧ (Next m < Applied m → floor = Applied m)) ∧
    (Known m = true → readyLoss m (Z.max (Next m) floor) = release ∧ (Next m < floor → floor ≤ Ready m ∧ budget - release = 0)).
Proof using Hrange.
  intros Hk Hb. pose proof (Hrange k m Hk). unfold holdFloor. rewrite Hk.
  destruct (decide (Applied m ≤ Next m)).
  { exists (Applied m), 0. unfold readyLoss. rewrite !decide_False, Z.sub_0_r by lia. split; [done|].
    repeat split; intros; lia. }
  assert (∀ f, readyLoss m f = Z.min (Ready m) (Applied m) - Z.min (Ready m) f) as Hloss
    by (intros f; unfold readyLoss; by rewrite decide_True by lia).
  destruct (Known m); cbv zeta.
  - set (floor := Z.max _ _). set (r := Z.min (floor - Next m) budget).
    assert (0 ≤ r ≤ floor - Next m) by (unfold floor, r; lia).
    exists (floor - r), r. rewrite (i32_id (floor - Next m)) by (unfold int32_range, floor in *; lia).
    fold r. rewrite (i32_id r), (i32_id (floor - r)) by (unfold int32_range, floor in *; lia).
    rewrite i64_id by (unfold int64_range, r in *; lia). split; [done|].
    split; [unfold r; lia|]. split; [lia|]. split; [unfold floor; lia|]. split; [done|]. intros _.
    rewrite Hloss. unfold r, floor. split; [lia|]. intros. lia.
  - exists (Applied m), 0. rewrite Z.sub_0_r. split; [done|]. repeat split; intros; try done; lia.
Qed.

(** What the rounds done so far have held. *)
Definition Holding (b0 : Z) (pre : list string) (st : Z * gmap string Z) : Prop :=
  0 ≤ st.1 ≤ b0 ∧ st.1 + zsum_with (knownLoss st.2) pre = b0 ∧
  (∀ k, (k ∉ pre) → st.2 !! k = None) ∧
  (∀ k m f, members !! k = Some m → st.2 !! k = Some f →
     Next m < f ≤ Applied m ∧ (Known m = true → f ≤ Ready m ∧ st.1 = 0)) ∧
  (∀ k m, k ∈ pre → members !! k = Some m → Known m = false → Next m < Applied m → st.2 !! k = Some (Applied m)).

Lemma knownLoss_ext out out' k : out !! k = out' !! k → knownLoss out k = knownLoss out' k.
Proof. intros E. unfold knownLoss, givenFloor. by rewrite E. Qed.

Lemma holdFloor_step b0 pre st k :
  b0 ≤ MaxInt64 → (k ∉ pre) → Holding b0 pre st → Holding b0 (pre ++ [k]) (holdFloor members st k).
Proof using Hrange Hsize.
  intros Hb Hk (Hpos & Hsum & Hnone & Hheld & Hun). destruct st as [budget out]. cbn [fst snd] in *.
  destruct (members !! k) as [m|] eqn:Em.
  2:{ unfold holdFloor. rewrite Em. unfold Holding. cbn [fst snd]. rewrite zsum_with_app, zsum_with_cons, zsum_with_nil.
      unfold knownLoss at 2. rewrite Em. split; [done|]. split; [lia|]. split; [set_solver|]. split; [done|].
      intros k' m' [?|E]%elem_of_app; [by apply Hun|]. apply list_elem_of_singleton in E. congruence. }
  destruct (holdFloor_member k m budget out Em ltac:(lia)) as (floor & release & -> & Hrel & Hf1 & Hf2 & Hunk & Hkn).
  set (out' := if decide _ then _ else _).
  assert (out' !! k = if decide (Next m < floor) then Some floor else None) as Eat.
  { unfold out'. destruct (decide _); [apply lookup_insert_eq|by apply Hnone]. }
  assert (∀ k', k' ≠ k → out' !! k' = out !! k') as Ene.
  { intros k' Hne. unfold out'. destruct (decide _); [by apply lookup_insert_ne|done]. }
  assert (knownLoss out' k = release) as Hloss.
  { unfold knownLoss, givenFloor. rewrite Em, Eat. destruct (Known m).
    - rewrite <-(proj1 (Hkn eq_refl)). f_equal. destruct (decide _); cbn; lia.
    - destruct (Hunk eq_refl). lia. }
  unfold Holding. cbn [fst snd]. split; [lia|]. split; [|split; [|split]].
  - rewrite zsum_with_app, zsum_with_cons, zsum_with_nil, Hloss, (zsum_with_ext _ (knownLoss out)); [lia|].
    intros k' Hk'. apply knownLoss_ext, Ene. congruence.
  - intros k' [Hn Hne]%not_elem_of_app. rewrite Ene; [by apply Hnone|set_solver].
  - intros k' m' f Hm'. destruct (decide (k' = k)) as [->|Hne].
    + rewrite Eat. assert (m' = m) as -> by congruence. destruct (decide _); [|done]. intros [= <-].
      split; [lia|]. intros HK. by apply Hkn.
    + rewrite Ene by done. intros Hf. destruct (Hheld _ _ _ Hm' Hf) as [? H2]. split; [done|].
      intros HK. destruct (H2 HK). split; [done|lia].
  - intros k' m' Hin Hm' HK Hlt. destruct (decide (k' = k)) as [->|Hne].
    + assert (m' = m) as -> by congruence. destruct (Hunk HK) as [_ Hfl]. rewrite Eat, decide_True; rewrite Hfl; done.
    + rewrite Ene by done. apply Hun; [|done..]. apply elem_of_app in Hin as [?|?%list_elem_of_singleton]; done.
Qed.

Lemma holds_loop minimum :
  int32_range minimum →
  let b0 := Z.max 0 (zsum_with servingOf (sorted_keys members) - minimum) in
  ∃ budget, Holding b0 (sorted_keys members) (budget, secondaryFloorHolds minimum members).
Proof using Hrange Hsize.
  intros Hm b0. destruct serving_sum as [Es Hb]. unfold secondaryFloorHolds. rewrite Es.
  rewrite i64_id by (unfold int32_range, int64_range in *; lia). fold b0.
  assert (b0 ≤ MaxInt64) by (unfold int32_range in *; lia).
  pose proof (NoDup_sorted_keys members) as Hnd.
  destruct (foldl (holdFloor members) _ _) as [budget out] eqn:E. exists budget. cbn [snd]. rewrite <-E. clear E.
  apply (foldl_ind _ (Holding b0)).
  - unfold Holding. cbn. split; [lia|]. split; [lia|]. split; [done|]. split; [intros ??? _; by rewrite lookup_empty|].
    intros ?? Hin. by apply elem_of_nil in Hin.
  - intros pre x post st El Hst. apply holdFloor_step; [done| |done].
    rewrite El in Hnd. apply NoDup_app in Hnd as (_ & H' & _). intros Hx. apply (H' _ Hx). left.
Qed.

(** ** What is held, exactly *)

(** The ready instances above the next floor that the applied one keeps: what an
    observed member could give up. *)
Definition excess (m : secondaryMember) : Z :=
  if Known m then Z.max 0 (Z.min (Applied m) (Ready m) - Next m) else 0.
Definition excessOf (k : string) : Z := from_option excess 0 (members !! k).

(** The floor held for a member when those before it could give up [before] and
    [budget] may be given up in all: an unobserved member keeps its applied floor,
    an observed one what is left of its excess above the next. *)
Definition heldFloor (budget before : Z) (m : secondaryMember) : option Z :=
  if decide (Applied m ≤ Next m) then None
  else if Known m then
    let kept := excess m - (Z.min budget (before + excess m) - Z.min budget before) in
    if decide (0 < kept) then Some (Next m + kept) else None
  else Some (Applied m).

Definition Exactly (b0 : Z) (pre : list string) (st : Z * gmap string Z) : Prop :=
  st.1 = b0 - Z.min b0 (zsum_with excessOf pre) ∧ 0 ≤ zsum_with excessOf pre ∧
  (∀ k, (k ∉ pre) → st.2 !! k = None) ∧
  (∀ i k m, pre !! i = Some k → members !! k = Some m →
     st.2 !! k = heldFloor b0 (zsum_with excessOf (take i pre)) m).

Lemma holdFloor_exact b0 pre st k :
  0 ≤ b0 ≤ MaxInt64 → (k ∉ pre) → NoDup pre → Exactly b0 pre st → Exactly b0 (pre ++ [k]) (holdFloor members st k).
Proof using Hrange Hsize.
  intros Hb Hk Hndp (Hst & He & Hnone & Hheld). destruct st as [budget out]. cbn [fst snd] in *.
  assert (0 ≤ excessOf k ∧ (∀ m, members !! k = Some m → excessOf k = excess m)) as [Hex Hexm].
  { unfold excessOf, excess. destruct (members !! k) as [m|]; cbn; [|split; [lia|done]].
    split; [destruct (Known m); lia|by intros m' [= <-]]. }
  assert (∀ out', (holdFloor members (budget, out) k).2 = out' → (∀ k', k' ≠ k → out' !! k' = out !! k') →
    (holdFloor members (budget, out) k).1 = b0 - Z.min b0 (zsum_with excessOf pre + excessOf k) →
    (∀ m, members !! k = Some m → out' !! k = heldFloor b0 (zsum_with excessOf pre) m) →
    Exactly b0 (pre ++ [k]) (holdFloor members (budget, out) k)) as Hfin.
  { intros out' E2 Hne E1 Hat. unfold Exactly. rewrite E1, E2, zsum_with_app, zsum_with_cons, zsum_with_nil.
    split; [lia|]. split; [lia|]. split.
    - intros k' [Hn Hk']%not_elem_of_app. rewrite Hne; [by apply Hnone|set_solver].
    - intros i k' m' Hi Hm'. destruct (lookup_app_Some pre [k] i k') as [[Hi'|[Hlen Hi']] _]; [done|..].
      + rewrite Hne by (intros ->; apply Hk; by eapply list_elem_of_lookup_2).
        rewrite take_app_le by (apply lookup_lt_Some in Hi'; lia). by apply Hheld.
      + apply list_lookup_singleton_Some in Hi' as [Hi0 <-]. rewrite take_app_length' by lia. by apply Hat. }
  unfold holdFloor in *. destruct (members !! k) as [m|] eqn:Em.
  2:{ apply (Hfin out); [done|done| |done]. cbn [fst].
      assert (excessOf k = 0) as -> by (unfold excessOf; by rewrite Em). lia. }
  pose proof (Hrange k m Em). specialize (Hexm m eq_refl).
  assert (out !! k = None) as Hno by (by apply Hnone).
  unfold heldFloor in Hfin. destruct (decide (Applied m ≤ Next m)) as [Hle|Hgt].
  { apply (Hfin out); [done|done| |]; [cbn [fst]; rewrite Hexm; unfold excess; destruct (Known m); lia|].
    intros m' [= <-]. by rewrite decide_True. }
  destruct (Known m) eqn:HK.
  - assert (excess m = Z.max (Next m) (Z.min (Applied m) (Ready m)) - Next m) as Ee by (unfold excess; rewrite HK; lia).
    set (top := Z.max _ _) in *. assert (0 ≤ top ≤ MaxInt32) by (unfold top; lia).
    cbv zeta in Hfin |- *. rewrite (i32_id (top - Next m)) in Hfin |- * by (unfold int32_range; lia).
    set (r := Z.min (top - Next m) budget) in *.
    assert (r = Z.min b0 (zsum_with excessOf pre + excess m) - Z.min b0 (zsum_with excessOf pre)) as Er by (unfold r; lia).
    rewrite (i32_id r), (i32_id (top - r)) in Hfin |- * by (unfold int32_range; lia).
    rewrite i64_id in Hfin |- * by (unfold int64_range; lia).
    eapply Hfin; [done| |cbn [fst]; lia|].
    + intros k' Hne. cbn [snd]. destruct (decide _); [by rewrite lookup_insert_ne|done].
    + intros m' [= <-]. rewrite (decide_False (P:=Applied m ≤ Next m)) by lia. rewrite HK. cbn [snd]. cbv zeta. rewrite <-Er.
      destruct (decide (Next m < top - r)); [rewrite lookup_insert_eq, decide_True by lia; f_equal; lia|].
      rewrite decide_False by lia. done.
  - eapply Hfin; [done| |cbn [fst]; rewrite Hexm; unfold excess; rewrite HK; lia|].
    + intros k' Hne. cbn [snd]. destruct (decide _); [by rewrite lookup_insert_ne|done].
    + intros m' [= <-]. rewrite (decide_False (P:=Applied m ≤ Next m)) by lia. rewrite HK. cbn [snd]. rewrite decide_True by lia. apply lookup_insert_eq.
Qed.

Lemma holds_exact minimum :
  int32_range minimum →
  let b0 := Z.max 0 (zsum_with servingOf (sorted_keys members) - minimum) in
  ∃ budget, Exactly b0 (sorted_keys members) (budget, secondaryFloorHolds minimum members).
Proof using Hrange Hsize.
  intros Hm b0. destruct serving_sum as [Es Hb]. unfold secondaryFloorHolds. rewrite Es.
  rewrite i64_id by (unfold int32_range, int64_range in *; lia). fold b0.
  assert (0 ≤ b0 ≤ MaxInt64) by (unfold int32_range in *; lia).
  pose proof (NoDup_sorted_keys members) as Hnd.
  destruct (foldl (holdFloor members) _ _) as [budget out] eqn:E. exists budget. cbn [snd]. rewrite <-E. clear E.
  apply (foldl_ind _ (Exactly b0)).
  - unfold Exactly. cbn. split; [lia|]. split; [lia|]. split; [done|]. by intros [].
  - intros pre x post st El Hst. rewrite El in Hnd. apply NoDup_app in Hnd as (Hnd & H' & _).
    apply holdFloor_exact; [done| |done|done]. intros Hx. apply (H' _ Hx). left.
Qed.
End holds.

(** C33: the secondary floors held while a split shifts, exactly, and that they are
    safe.  What may be given up in all is what the observed serving members have
    ready above the fleet's minimum.  It goes to the members in the order of their
    names: an observed member whose floor falls gives up its ready instances above
    the next floor as far as what is left allows, whether or not it serves, and is
    held at the rest; its unready instances leave at once.  An unobserved member
    whose floor falls keeps the applied floor, and no other floor is held.  The
    ready instances left on serving members, after what each may lose to its new
    floor, are then at least the fleet's minimum, or all there were. *)
Theorem secondaryFloorHolds_safe minimum members :
  int32_range minimum → Z.of_nat (size members) ≤ MaxInt32 →
  (∀ k m, members !! k = Some m → 0 ≤ Applied m ≤ MaxInt32 ∧ 0 ≤ Next m ≤ MaxInt32 ∧ 0 ≤ Ready m ≤ MaxInt32) →
  let out := secondaryFloorHolds minimum members in
  let names := sorted_keys members in
  let serving := zsum_with (servingOf members) names in
  (∀ i k m, names !! i = Some k → members !! k = Some m →
     out !! k = heldFloor (Z.max 0 (serving - minimum)) (zsum_with (excessOf members) (take i names)) m) ∧
  (∀ k, members !! k = None → out !! k = None) ∧
  Z.min minimum serving ≤ serving - zsum_with (servingLoss members out) names.
Proof.
  intros Hmin Hsize Hrange. cbv zeta.
  destruct (holds_exact members Hrange Hsize minimum Hmin) as (b1 & _ & _ & Hnone & Hexact).
  destruct (holds_loop members Hrange Hsize minimum Hmin) as (budget & Hpos & Hsum & _ & Hheld & _).
  cbn [fst snd] in *. split; [done|]. split.
  - intros k Hk. apply Hnone. rewrite elem_of_sorted_keys, Hk. by intros [? ?].
  - assert (zsum_with (servingLoss members (secondaryFloorHolds minimum members)) (sorted_keys members)
            ≤ zsum_with (knownLoss members (secondaryFloorHolds minimum members)) (sorted_keys members)); [|lia].
    apply zsum_with_mono. intros k _. unfold servingLoss, knownLoss.
    destruct (members !! k) as [m|] eqn:Em; [|lia]. destruct (Known m), (Serving m); cbn; try lia.
    pose proof (Hrange k m Em). unfold readyLoss, givenFloor. destruct (decide _); [|lia].
    destruct (secondaryFloorHolds minimum members !! k) as [f|] eqn:Ef; cbn [from_option]; unfold id; [|lia]. destruct (Hheld _ _ _ Em Ef) as [? _]. lia.
Qed.

(** ["a"] gives up one of its two and ["c"], which is not observed, nothing. *)
Lemma secondaryFloorHolds_safe_witness :
  let members := {["a" := mkSecondary 3 1 3 true true; "b" := mkSecondary 0 2 1 true true;
                   "c" := mkSecondary 2 1 0 false false]} in
  secondaryFloorHolds 3 members = {["a" := 2; "c" := 2]} ∧
  Z.min 3 4 ≤ 4 - zsum_with (servingLoss members (secondaryFloorHolds 3 members)) (sorted_keys members).
Proof.
  split; [vm_compute; reflexivity|].
  exact (proj2 (proj2 (secondaryFloorHolds_safe 3
    {["a" := mkSecondary 3 1 3 true true; "b" := mkSecondary 0 2 1 true true; "c" := mkSecondary 2 1 0 false false]}
    ltac:(by vm_compute) ltac:(by vm_compute) ltac:(by_entries)))).
Defined.
