(* ===== verification/AlfredSnapshot.v ===== *)
(** * What the fleet advisor sees

    The data alfred decides on: the snapshot of nodes and workloads
    ([alfred/snapshot/types.go]), the health of a node as its conditions show it
    ([alfred/snapshot/node_health.go]), the cooldowns and caps of the configuration
    ([alfred/config/config.go]) and the candidates the policies propose
    ([alfred/policy/api.go]).  The records keep the fields the arbitration reads.

    A time is the number of nanoseconds since the zero [time.Time]; a duration is
    a signed 64-bit number of nanoseconds.  The maps hold no nil pointers, which
    the snapshot's builder never stores. *)

From Stdlib Require Export SpecFloat.
From S2P Require Export Prelude.
Local Open Scope Z_scope.

(** ** Times *)

Definition Minute : Z := 60 * 1000000000.
Definition Hour : Z := 60 * Minute.
Definition MinInt64 : Z := -9223372036854775808.

(** [time.Time.Sub] saturates. *)
Definition Sub (t u : Z) : Z := Z.max MinInt64 (Z.min MaxInt64 (t - u)).

Definition minutes (m : Z) : Z := i64 (m * Minute).

(** ** The health of a node *)

Definition NodeHealthClear : string := "Clear".
Definition NodeHealthUnhealthy : string := "Unhealthy".
Definition NodeHealthUnknown : string := "Unknown".
Definition NodeHealthSuspect : string := "Suspect".

Definition ConditionTrue : string := "True".
Definition ConditionFalse : string := "False".
Definition ConditionUnknown : string := "Unknown".

(** A condition of a node, and what is kept of it: type, status and time of the
    last transition. *)
Record NodeConditionObservation := mkCondition {
  CType : string; CStatus : string; LastTransitionTime : Z;
}.

Record NodeHealthObservation := mkHealth {
  State : string; Conditions : list NodeConditionObservation; SuspectUntil : option Z;
}.

Definition Quarantined (h : NodeHealthObservation) : bool :=
  negb (bool_decide (State h = "")) && negb (bool_decide (State h = NodeHealthClear)).

(** What the loop over the conditions has seen. *)
Record healthSeen := mkSeen { unhealthy : bool; unknown : bool; suspectUntil : option Z }.

Definition seeCondition (now suspicionWindow : Z) (s : healthSeen) (c : NodeConditionObservation) : healthSeen :=
  if decide (CStatus c = ConditionTrue) then mkSeen true (unknown s) (suspectUntil s)
  else if decide (CStatus c = ConditionUnknown) then mkSeen (unhealthy s) true (suspectUntil s)
  else if decide (CStatus c = ConditionFalse) then
    if decide (LastTransitionTime c = 0) then mkSeen (unhealthy s) true (suspectUntil s)
    else
      let deadline := LastTransitionTime c + suspicionWindow in
      if bool_decide (now < deadline)
         && (match suspectUntil s with None => true | Some u => bool_decide (u < deadline) end)
      then mkSeen (unhealthy s) (unknown s) (Some deadline)
      else s
  else mkSeen (unhealthy s) true (suspectUntil s).

Definition conditionLess : NodeConditionObservation → NodeConditionObservation → bool :=
  lex_less CType str_lt (lex_less CStatus str_lt (λ x y, Z.ltb (LastTransitionTime x) (LastTransitionTime y))).

Definition observeNodeHealth (conditions : list NodeConditionObservation) (triggerConditions : list string)
    (now suspicionWindow : Z) : NodeHealthObservation :=
  let configured := filter (λ c, CType c ∈ triggerConditions) conditions in
  let s := foldl (seeCondition now suspicionWindow) (mkSeen false false None) configured in
  let sorted := sort_slice conditionLess configured in
  if unhealthy s then mkHealth NodeHealthUnhealthy sorted None
  else if unknown s then mkHealth NodeHealthUnknown sorted None
  else match suspectUntil s with
       | Some u => mkHealth NodeHealthSuspect sorted (Some u)
       | None => mkHealth NodeHealthClear sorted None
       end.

(** ** The snapshot *)

Record Node := mkNode {
  FreeGPUs : Z; Health : NodeHealthObservation; Requested : bool; Cordoned : bool; ScaleDownMarked : bool;
}.

Definition UnavailableAsTarget (n : Node) : bool :=
  Quarantined (Health n) || Requested n || Cordoned n || ScaleDownMarked n.

Record PodInfo := mkPod { GPUs : Z; Terminating : bool; StartTime : option Z }.

Record Instance := mkInstance { Index : Z; Pods : list PodInfo }.

Record Component := mkComponent { Instances : list Instance }.

Record Workload := mkWorkload {
  Components : gmap string Component;
  Movable : bool;
  CooldownOverride : option Z;
  LastMigration : option Z;
  (** The times the migrations under way were requested at. *)
  ActiveMigrations : list Z;
  MalformedRequests : gmap string string;
  MigrationStateValid : bool;
}.

Record ClusterSnapshot := mkSnapshot {
  Nodes : gmap string Node;
  Workloads : gmap NamespacedName Workload;
}.

(** ** The configuration *)

Record Config := mkConfig {
  RecentPlacementCooldownMinutes : Z;
  PerWorkloadCooldownMinutes : Z;
  PerNodeCooldownMinutes : Z;
  HealthCooldownFloorMinutes : Z;
  MaxInFlightMigrations : Z;
  MaxMigrationsPerHour : Z;
}.

Definition RecentPlacementCooldown (c : Config) : Z := minutes (RecentPlacementCooldownMinutes c).
Definition PerWorkloadCooldown (c : Config) : Z := minutes (PerWorkloadCooldownMinutes c).
Definition PerNodeCooldown (c : Config) : Z := minutes (PerNodeCooldownMinutes c).
Definition HealthCooldownFloor (c : Config) : Z := minutes (HealthCooldownFloorMinutes c).

(** ** Candidates *)

Definition ReasonFragmentation : string := "Fragmentation".
Definition ReasonNodeUnhealthy : string := "NodeUnhealthy".
Definition ReasonNodeMaintenance : string := "NodeMaintenance".

Record TPUSlicePlan := mkSlicePlan { Topology : string; FreePartitions : Z }.

(** The score is a [float64]. *)
Record Candidate := mkCandidate {
  CWorkload : NamespacedName;
  CComponent : string;
  CInstance : Z;
  Reason : string;
  FromNode : string;
  HintTargetNodes : list string;
  PlacementTargetNodes : list string;
  Executable : bool;
  SurgeShaped : bool;
  TPUSlice : option TPUSlicePlan;
  FootprintGPUs : Z;
  Score : spec_float;
}.

(** ** When a node is quarantined *)

(** A condition gives no reason to avoid the node: it is known to be false, and
    has been for the whole window. *)
Definition cleared (now suspicionWindow : Z) (c : NodeConditionObservation) : Prop :=
  CStatus c = ConditionFalse ∧ LastTransitionTime c ≠ 0 ∧ LastTransitionTime c + suspicionWindow ≤ now.

#[export] Instance cleared_dec now w c : Decision (cleared now w c).
Proof. unfold cleared. apply _. Defined.

Definition seenClear (s : healthSeen) : Prop :=
  unhealthy s = false ∧ unknown s = false ∧ suspectUntil s = None.

Lemma seeCondition_clear now w s c :
  seenClear (seeCondition now w s c) ↔ seenClear s ∧ cleared now w c.
Proof.
  unfold seenClear, cleared, seeCondition.
  destruct (decide (CStatus c = ConditionTrue)) as [E|E]; simpl.
  { rewrite E. naive_solver. }
  destruct (decide (CStatus c = ConditionUnknown)) as [E2|E2]; simpl.
  { rewrite E2. naive_solver. }
  destruct (decide (CStatus c = ConditionFalse)) as [E3|E3]; simpl; [|naive_solver].
  destruct (decide (LastTransitionTime c = 0)) as [E4|E4]; simpl; [naive_solver|].
  case_bool_decide as Hd; simpl; [|intuition lia].
  destruct (suspectUntil s) as [u|] eqn:Hu; [case_bool_decide|]; simpl; rewrite ?Hu; intuition (lia || done).
Qed.

(** A node is free of quarantine exactly when every configured condition it
    reports is known false, and was so before the suspicion window began. *)
Lemma observeNodeHealth_clear_iff conds triggers now w :
  Quarantined (observeNodeHealth conds triggers now w) = false ↔
  ∀ c, c ∈ conds → CType c ∈ triggers → cleared now w c.
Proof.
  unfold observeNodeHealth. set (l := filter _ conds).
  assert (seenClear (foldl (seeCondition now w) (mkSeen false false None) l) ↔ ∀ c, c ∈ l → cleared now w c) as Hl.
  { assert (∀ s, seenClear (foldl (seeCondition now w) s l) ↔ seenClear s ∧ ∀ c, c ∈ l → cleared now w c) as H.
    { induction l as [|c l IH]; intros s; simpl.
      { split; [|naive_solver]. intros ?. split; [done|]. by intros ? ?%elem_of_nil. }
      rewrite IH, seeCondition_clear. setoid_rewrite elem_of_cons. naive_solver. }
    rewrite H. unfold seenClear; simpl. naive_solver. }
  transitivity (∀ c, c ∈ l → cleared now w c).
  - rewrite <-Hl. destruct (foldl _ _ l) as [uh uk su]. unfold seenClear; simpl.
    destruct uh, uk, su; unfold Quarantined; simpl; rewrite ?bool_decide_eq_true_2 by done; simpl; naive_solver.
  - unfold l. setoid_rewrite list_elem_of_filter. naive_solver.
Qed.
