(* ===== verification/AlfredLedger.v ===== *)
(** * The advisor's memory between passes

    [alfred/engine/state.go]: the dispatches of the last hour, the recent outcomes
    and the circuit breaker.  The theorems read the ledger against the history of
    calls that built it: what it has pruned never mattered, and the breaker is
    open exactly for the hour after a trip. *)

From S2P Require Export AlfredSnapshot.
Local Open Scope Z_scope.

Definition breakerWindow : nat := 10.
Definition breakerPause : Z := 60 * Minute.
Definition breakerMinTrips : nat := 4.
Definition ledgerRetention : Z := Hour.

Record DispatchRecord := mkRecord {
  RWorkload : NamespacedName; RFromNode : string; RTarget : string; RGPUs : Z; RHealth : bool; At : Z; absorbed : bool;
}.

Record Ledger := mkLedger { dispatches : list DispatchRecord; outcomes : list bool; breakerTil : Z }.

Definition NewLedger : Ledger := mkLedger [] [] 0.

Definition RecordDispatch (l : Ledger) (rec : DispatchRecord) : Ledger :=
  mkLedger (dispatches l ++ [rec]) (outcomes l) (breakerTil l).

(** The newest [breakerWindow] outcomes. *)
Definition lastOutcomes (os : list bool) : list bool :=
  if decide (breakerWindow < length os)%nat then drop (length os - breakerWindow) os else os.

Definition failures (os : list bool) : nat := length (filter (λ ok, ok = false) os).

Definition RecordOutcome (l : Ledger) (success : bool) (now : Z) : Ledger :=
  let os := lastOutcomes (outcomes l ++ [success]) in
  if decide (breakerMinTrips ≤ length os ∧ length os < failures os * 2)%nat
  then mkLedger (dispatches l) [] (now + breakerPause)
  else mkLedger (dispatches l) os (breakerTil l).

Definition BreakerOpen (l : Ledger) (now : Z) : bool := bool_decide (now < breakerTil l).

Definition markAbsorbed (rec : DispatchRecord) : DispatchRecord :=
  mkRecord (RWorkload rec) (RFromNode rec) (RTarget rec) (RGPUs rec) (RHealth rec) (At rec) true.

(** The outcome of a record's migration shows in the snapshot. *)
Definition absorbRecord (snap : ClusterSnapshot) (rec : DispatchRecord) : DispatchRecord :=
  if absorbed rec then rec
  else match Workloads snap !! RWorkload rec with
       | None => markAbsorbed rec
       | Some w => match LastMigration w with
                   | Some t => if decide (At rec < t) then markAbsorbed rec else rec
                   | None => rec
                   end
       end.

Definition AbsorbSnapshot (l : Ledger) (snap : ClusterSnapshot) (now : Z) : Ledger :=
  mkLedger (absorbRecord snap <$> filter (λ rec, ¬ ledgerRetention < Sub now (At rec)) (dispatches l))
           (outcomes l) (breakerTil l).

Definition DispatchesWithinHour (l : Ledger) (now : Z) : Z :=
  Z.of_nat (length (filter (λ rec, Sub now (At rec) ≤ Hour) (dispatches l))).

(** A record keeps a node cooling: it landed there, or left it as a routine move. *)
Definition cools (node : string) (window now : Z) (rec : DispatchRecord) : bool :=
  negb (bool_decide (window ≤ Sub now (At rec)))
  && (bool_decide (RTarget rec = node) || (bool_decide (RFromNode rec = node) && negb (RHealth rec))).

Definition NodeCooling (l : Ledger) (node : string) (window now : Z) : bool :=
  if decide (node = "") then false else existsb (cools node window now) (dispatches l).

Definition addClaim (claims : gmap string Z) (rec : DispatchRecord) : gmap string Z :=
  if absorbed rec || bool_decide (RTarget rec = "") then claims
  else <[RTarget rec := i64 (default 0 (claims !! RTarget rec) + RGPUs rec)]> claims.

Definition ActiveClaims (l : Ledger) : gmap string Z := foldl addClaim ∅ (dispatches l).

(** ** Histories *)

(** The calls that change a ledger, with the clock they were made at. *)
Inductive ledgerCall :=
| CallDispatch (rec : DispatchRecord)
| CallOutcome (success : bool)
| CallAbsorb (snap : ClusterSnapshot).

Definition ledgerStep (l : Ledger) (c : Z * ledgerCall) : Ledger :=
  match c.2 with
  | CallDispatch rec => RecordDispatch l rec
  | CallOutcome ok => RecordOutcome l ok c.1
  | CallAbsorb snap => AbsorbSnapshot l snap c.1
  end.

Definition ledgerAfter (h : list (Z * ledgerCall)) : Ledger := foldl ledgerStep NewLedger h.

(** What a history says without a ledger: every dispatch ever recorded; the
    outcomes since the breaker last tripped, and when that was. *)
Definition recordedBy (c : Z * ledgerCall) : list DispatchRecord :=
  match c.2 with CallDispatch rec => [rec] | _ => [] end.
Definition recorded (h : list (Z * ledgerCall)) : list DispatchRecord := h ≫= recordedBy.

Record breakerHistory := mkBreakerHistory { sinceTrip : list bool; trips : list Z }.

(** The window trips the breaker: at least [breakerMinTrips] of the last
    [breakerWindow] outcomes are known, and more than half of those failed. *)
Definition tripping (os : list bool) : Prop :=
  (breakerMinTrips ≤ length os)%nat
  ∧ (length (lastOutcomes os) < 2 * failures (lastOutcomes os))%nat.
#[export] Instance tripping_dec os : Decision (tripping os).
Proof. unfold tripping. apply _. Defined.

Definition watch (b : breakerHistory) (c : Z * ledgerCall) : breakerHistory :=
  match c.2 with
  | CallOutcome ok =>
      if decide (tripping (sinceTrip b ++ [ok])) then mkBreakerHistory [] (trips b ++ [c.1])
      else mkBreakerHistory (sinceTrip b ++ [ok]) (trips b)
  | _ => b
  end.
Definition breakerAfter (h : list (Z * ledgerCall)) : breakerHistory := foldl watch (mkBreakerHistory [] []) h.

(** ** The breaker *)

Lemma length_lastOutcomes os : length (lastOutcomes os) = Nat.min breakerWindow (length os).
Proof. unfold lastOutcomes. case_decide; rewrite ?length_drop; lia. Qed.

(** Forgetting all but the newest ten loses nothing of the newest ten. *)
Lemma lastOutcomes_snoc os ok : lastOutcomes (lastOutcomes os ++ [ok]) = lastOutcomes (os ++ [ok]).
Proof.
  unfold lastOutcomes at 2. case_decide as H; [|done].
  unfold lastOutcomes. rewrite !length_app, length_drop; simpl.
  rewrite !decide_True by lia.
  rewrite <-(drop_app_le os [ok] (length os - breakerWindow)) by lia.
  rewrite drop_drop. f_equal. lia.
Qed.

Lemma ledger_outcomes h :
  outcomes (ledgerAfter h) = lastOutcomes (sinceTrip (breakerAfter h))
  ∧ breakerTil (ledgerAfter h) = default 0 ((λ t, t + breakerPause) <$> last (trips (breakerAfter h))).
Proof.
  induction h as [|[now c] h IH] using rev_ind; [done|].
  unfold ledgerAfter, breakerAfter in *. rewrite !foldl_app; simpl.
  set (l := foldl ledgerStep _ h) in *. set (b := foldl watch _ h) in *. destruct IH as [IHo IHt].
  destruct c as [rec|ok|snap]; unfold ledgerStep, watch; simpl; [done| |done].
  unfold RecordOutcome. rewrite IHo, lastOutcomes_snoc.
  assert ((breakerMinTrips ≤ length (lastOutcomes (sinceTrip b ++ [ok]))
           ∧ length (lastOutcomes (sinceTrip b ++ [ok])) < failures (lastOutcomes (sinceTrip b ++ [ok])) * 2)%nat
          ↔ tripping (sinceTrip b ++ [ok])) as Hiff.
  { unfold tripping. rewrite !length_lastOutcomes. unfold breakerMinTrips, breakerWindow. lia. }
  destruct (decide (tripping (sinceTrip b ++ [ok]))) as [Ht|Ht].
  - rewrite decide_True by (by apply Hiff). simpl. by rewrite last_snoc.
  - rewrite decide_False by (by rewrite Hiff). done.
Qed.

(** The clock of a history does not go back, and does not pass [now]. *)
Definition clockBefore (now : Z) (h : list (Z * ledgerCall)) : Prop :=
  StronglySorted (λ c d, c.1 ≤ d.1) h ∧ Forall (λ c, 0 ≤ c.1 ≤ now) h.

Lemma clockBefore_snoc now h c :
  clockBefore now (h ++ [c]) → clockBefore c.1 h ∧ 0 ≤ c.1 ≤ now.
Proof.
  intros [Hs Hf]. apply Forall_app in Hf as [Hf [Hc _]%Forall_cons].
  apply StronglySorted_app in Hs as (Hs & Hb & _). split_and!; [|lia..].
  split; [done|]. rewrite Forall_forall in *. intros d Hd.
  specialize (Hf _ Hd). specialize (Hs d c Hd (list_elem_of_here _ _)). simpl in *. lia.
Qed.

(** The trips of a history are in the order of the clock, the last one latest. *)
Lemma trips_latest now h t :
  clockBefore now h → t ∈ trips (breakerAfter h) →
  ∃ u, last (trips (breakerAfter h)) = Some u ∧ t ≤ u ≤ now.
Proof.
  revert now. induction h as [|c h IH] using rev_ind; intros now Hc Ht; [by apply elem_of_nil in Ht|].
  apply clockBefore_snoc in Hc as [Hc Hnow].
  unfold breakerAfter in *. rewrite foldl_app in Ht |- *; simpl in *.
  assert (t ∈ trips (foldl watch (mkBreakerHistory [] []) h) →
          ∃ u, last (trips (foldl watch (mkBreakerHistory [] []) h)) = Some u ∧ t ≤ u ≤ now) as IH'.
  { intros H. destruct (IH c.1 Hc H) as (u & ? & ?). exists u. split; [done|lia]. }
  destruct c as [at_ [rec|ok|snap]]; unfold watch in *; simpl in *; auto.
  case_decide; auto. simpl in *. rewrite last_snoc. exists at_. split; [done|].
  apply elem_of_snoc in Ht as [Ht | ->]; [|lia]. destruct (IH at_ Hc Ht) as (u & _ & ?). lia.
Qed.

Lemma ledger_breaker now h :
  clockBefore now h → 0 ≤ now →
  BreakerOpen (ledgerAfter h) now = true ↔ ∃ t, t ∈ trips (breakerAfter h) ∧ now < t + breakerPause.
Proof.
  intros Hc Hnow. unfold BreakerOpen. rewrite bool_decide_eq_true, (proj2 (ledger_outcomes h)).
  split.
  - destruct (last (trips (breakerAfter h))) as [u|] eqn:Hl; simpl; [|lia].
    intros ?. exists u. split; [|done]. apply last_Some_elem_of in Hl. done.
  - intros (t & Ht & ?). destruct (trips_latest now h t Hc Ht) as (u & -> & ?). simpl. lia.
Qed.

Lemma sinceTrip_not_tripping h : ¬ tripping (sinceTrip (breakerAfter h)).
Proof.
  assert (¬ tripping []) as Hnil by (intros [H _]; simpl in H; unfold breakerMinTrips in H; lia).
  induction h as [|[now c] h IH] using rev_ind; [done|].
  unfold breakerAfter in *. rewrite foldl_app; simpl.
  destruct c; unfold watch; simpl; auto. by case_decide.
Qed.

(** ** The dispatches *)

(** Every dispatch of a history with what the snapshots absorbed since say of it,
    none of them forgotten. *)
Definition keepAll (ds : list DispatchRecord) (c : Z * ledgerCall) : list DispatchRecord :=
  match c.2 with
  | CallDispatch rec => ds ++ [rec]
  | CallOutcome _ => ds
  | CallAbsorb snap => absorbRecord snap <$> ds
  end.
Definition allDispatches (h : list (Z * ledgerCall)) : list DispatchRecord := foldl keepAll [] h.

(** Absorbing decides nothing but the mark. *)
Lemma absorbRecord_cases snap rec : absorbRecord snap rec = rec ∨ absorbRecord snap rec = markAbsorbed rec.
Proof. unfold absorbRecord. repeat case_match; auto. Qed.

Lemma absorbRecord_At snap rec : At (absorbRecord snap rec) = At rec.
Proof. by destruct (absorbRecord_cases snap rec) as [-> | ->]. Qed.

Lemma cools_absorbRecord snap node w now rec : cools node w now (absorbRecord snap rec) = cools node w now rec.
Proof. by destruct (absorbRecord_cases snap rec) as [-> | ->]. Qed.

Lemma Sub_mono t t' u : t ≤ t' → Sub t u ≤ Sub t' u.
Proof. unfold Sub. lia. Qed.

Definition withinHour (now : Z) (rec : DispatchRecord) : Prop := Sub now (At rec) ≤ Hour.
#[export] Instance withinHour_dec now rec : Decision (withinHour now rec).
Proof. unfold withinHour. apply _. Defined.

Lemma filter_absorb now snap (ds : list DispatchRecord) :
  filter (withinHour now) (absorbRecord snap <$> ds) = absorbRecord snap <$> filter (withinHour now) ds.
Proof.
  induction ds as [|rec ds IH]; [done|]. rewrite fmap_cons.
  assert (withinHour now (absorbRecord snap rec) ↔ withinHour now rec) as Hiff
    by (unfold withinHour; by rewrite absorbRecord_At).
  destruct (decide (withinHour now rec)) as [H|H].
  - rewrite !filter_cons_True by (by rewrite ?Hiff). rewrite fmap_cons. by rewrite IH.
  - rewrite !filter_cons_False by (by rewrite ?Hiff). done.
Qed.

(** What counts at a time was never pruned before it. *)
Lemma ledger_dispatches now h :
  clockBefore now h →
  filter (withinHour now) (dispatches (ledgerAfter h)) = filter (withinHour now) (allDispatches h).
Proof.
  revert now. induction h as [|c h IH] using rev_ind; intros now Hc; [done|].
  apply clockBefore_snoc in Hc as [Hc Hnow].
  assert (clockBefore now h) as Hc'.
  { destruct Hc as [? Hf]. split; [done|]. eapply Forall_impl; [exact Hf|]. simpl. lia. }
  specialize (IH now Hc'). unfold ledgerAfter, allDispatches in *. rewrite !foldl_app.
  set (l := foldl ledgerStep _ h) in *. set (ds := foldl keepAll _ h) in *. clearbody l ds.
  destruct c as [at_ [rec|ok|snap]]; cbn in Hnow |- *.
  - by rewrite !filter_app, IH.
  - unfold RecordOutcome. by case_decide.
  - rewrite !filter_absorb, <-IH. f_equal. rewrite list_filter_filter. apply filter_agree.
    intros rec _. unfold withinHour, ledgerRetention. pose proof (Sub_mono at_ now (At rec)). lia.
Qed.

Lemma recorded_app h1 h2 : recorded (h1 ++ h2) = recorded h1 ++ recorded h2.
Proof. unfold recorded. by rewrite bind_app. Qed.

(** A reading that does not look at the mark sees the recorded dispatches. *)
Lemma allDispatches_recorded {B} (f : DispatchRecord → B) h :
  (∀ rec, f (markAbsorbed rec) = f rec) → f <$> allDispatches h = f <$> recorded h.
Proof.
  intros Hf. induction h as [|[now c] h IH] using rev_ind; [done|].
  rewrite recorded_app. unfold allDispatches in *. rewrite foldl_app.
  set (ds := foldl keepAll _ h) in *. set (rs := recorded h) in *. clearbody ds rs.
  destruct c as [rec|ok|snap]; cbn.
  - by rewrite !fmap_app, IH.
  - by rewrite !app_nil_r.
  - rewrite !app_nil_r, <-list_fmap_compose, <-IH. apply list_fmap_ext. intros i rec _. simpl.
    by destruct (absorbRecord_cases snap rec) as [-> | ->].
Qed.

Lemma existsb_fmap {A B} (g : B → bool) (f : A → B) (l : list A) : existsb g (f <$> l) = existsb (λ x, g (f x)) l.
Proof. induction l; simpl; [done|]. by f_equal. Qed.

Lemma count_fmap_bool {A} (P : A → Prop) `{∀ x, Decision (P x)} (l : list A) :
  length (filter P l) = length (filter (λ b, b = true) ((λ x, bool_decide (P x)) <$> l)).
Proof.
  induction l as [|x l IH]; [done|]. simpl. destruct (decide (P x)) as [Hx|Hx].
  - rewrite filter_cons_True, bool_decide_true, filter_cons_True by done. simpl. by rewrite IH.
  - rewrite filter_cons_False, bool_decide_false, filter_cons_False by done. done.
Qed.

Lemma existsb_filter {A} (g : A → bool) (P : A → Prop) `{∀ x, Decision (P x)} (l : list A) :
  (∀ x, g x = true → P x) → existsb g (filter P l) = existsb g l.
Proof.
  intros Hg. induction l as [|x l IH]; [done|]. destruct (decide (P x)) as [Hx|Hx].
  - rewrite filter_cons_True by done. simpl. by rewrite IH.
  - rewrite filter_cons_False by done. simpl. rewrite IH. destruct (g x) eqn:E; [|done]. by apply Hg in E.
Qed.

(** The ledger as a pass of the arbiter finds it, absorbed at the clock of the
    pass, holds exactly the dispatches of the last hour. *)
Lemma ledger_absorbed now h snap :
  clockBefore now h →
  dispatches (AbsorbSnapshot (ledgerAfter h) snap now) = filter (withinHour now) (absorbRecord snap <$> allDispatches h).
Proof.
  intros Hc. unfold AbsorbSnapshot. simpl. rewrite filter_absorb, <-(ledger_dispatches now h Hc).
  f_equal. apply filter_agree. intros rec _. unfold withinHour, ledgerRetention. lia.
Qed.

Lemma ledger_cooling now h snap node window :
  clockBefore now h → window ≤ Hour →
  NodeCooling (AbsorbSnapshot (ledgerAfter h) snap now) node window now =
  negb (bool_decide (node = "")) && existsb (cools node window now) (recorded h).
Proof.
  intros Hc Hw. unfold NodeCooling. case_decide as Hn; [by rewrite bool_decide_true|].
  rewrite bool_decide_false by done. rewrite (ledger_absorbed now h snap Hc), existsb_filter.
  2: { intros rec. unfold cools, withinHour. case_bool_decide; simpl; [done|]. intros _. lia. }
  rewrite existsb_fmap. trans (existsb (cools node window now) (allDispatches h)).
  { induction (allDispatches h); simpl; [done|]. rewrite cools_absorbRecord. by f_equal. }
  transitivity (existsb id (cools node window now <$> allDispatches h)).
  { rewrite existsb_fmap. done. }
  rewrite allDispatches_recorded by done. by rewrite existsb_fmap.
Qed.

Lemma ledger_hourly now h snap :
  clockBefore now h →
  DispatchesWithinHour (AbsorbSnapshot (ledgerAfter h) snap now) now =
  Z.of_nat (length (filter (withinHour now) (recorded h))).
Proof.
  intros Hc. unfold DispatchesWithinHour. f_equal.
  change (λ rec, Sub now (At rec) ≤ Hour) with (withinHour now).
  rewrite (ledger_absorbed now h snap Hc), list_filter_filter.
  rewrite (filter_agree _ (withinHour now)) by naive_solver.
  rewrite filter_absorb, length_fmap, !(count_fmap_bool (withinHour now)).
  by rewrite allDispatches_recorded.
Qed.

(** ** Claims *)

(** The records that hold room on a node. *)
Definition holdsRoom (node : string) (rec : DispatchRecord) : Prop := absorbed rec = false ∧ RTarget rec = node.
#[export] Instance holdsRoom_dec node rec : Decision (holdsRoom node rec).
Proof. unfold holdsRoom. apply _. Defined.

(** Footprints of replacements: none negative, and within 64 bits together. *)
Definition footprintsFit (ds : list DispatchRecord) : Prop :=
  Forall (λ rec, 0 ≤ RGPUs rec) ds ∧ zsum_with RGPUs ds ≤ MaxInt64.

Lemma zsum_with_filter_le {A} (f : A → Z) (P : A → Prop) `{∀ x, Decision (P x)} (l : list A) :
  (∀ x, x ∈ l → 0 ≤ f x) → 0 ≤ zsum_with f (filter P l) ≤ zsum_with f l.
Proof.
  induction l as [|x l IH]; intros Hf; [done|].
  assert (0 ≤ f x) by (apply Hf; left).
  assert (0 ≤ zsum_with f (filter P l) ≤ zsum_with f l) by (apply IH; intros; apply Hf; by right).
  destruct (decide (P x)); [rewrite filter_cons_True by done|rewrite filter_cons_False by done];
    rewrite ?zsum_with_cons; lia.
Qed.

Lemma ActiveClaims_sum l node :
  node ≠ "" → footprintsFit (dispatches l) →
  default 0 (ActiveClaims l !! node) = zsum_with RGPUs (filter (holdsRoom node) (dispatches l)).
Proof.
  intros Hn [Hpos Hsum]. unfold ActiveClaims. revert Hpos Hsum.
  induction (dispatches l) as [|rec ds IH] using rev_ind; [done|].
  intros [Hpos [Hrec _]%Forall_cons]%Forall_app Hsum.
  rewrite zsum_with_app, zsum_with_cons, zsum_with_nil in Hsum.
  rewrite Forall_forall in Hpos. pose proof (zsum_with_nonneg RGPUs ds Hpos) as H0.
  rewrite foldl_app; simpl. rewrite filter_app, zsum_with_app.
  rewrite Forall_forall in IH. specialize (IH Hpos ltac:(lia)).
  pose proof (zsum_with_filter_le RGPUs (holdsRoom node) ds Hpos) as Hle.
  set (claims := foldl addClaim ∅ ds) in *. clearbody claims.
  unfold addClaim. destruct (decide (holdsRoom node rec)) as [[Ha Ht]|Hno].
  - rewrite filter_cons_True, filter_nil, zsum_with_cons, zsum_with_nil by done.
    rewrite Ha, Ht, bool_decide_false by done. cbn [orb]. rewrite lookup_insert_eq. simpl.
    rewrite IH, i64_id; [lia|]. unfold int64_range in *. lia.
  - rewrite filter_cons_False, filter_nil, zsum_with_nil, Z.add_0_r by done. rewrite <-IH.
    destruct (absorbed rec) eqn:Ha; simpl; [done|]. case_bool_decide; [done|].
    rewrite lookup_insert_ne; [done|]. intros ?. by apply Hno.
Qed.

(** C36: The ledger may forget, and it matters nothing: after any history of
    dispatches, outcomes and absorbed snapshots with a clock that does not go
    back, what a pass reads from it is what the whole history says.  The breaker
    is open exactly within the pause after some trip; the window holds the newest
    outcomes since the last trip and is never one that should have tripped; the
    hourly count is that of every dispatch ever recorded; a node is cooling, for a
    window of at most an hour, exactly when some recorded dispatch cools it; and
    the claims on a node are the footprints of the dispatches of the last hour
    toward it that no absorbed snapshot has settled. *)
Theorem ledger_remembers (h : list (Z * ledgerCall)) (snap : ClusterSnapshot) (now : Z) :
  clockBefore now h → 0 ≤ now →
  let l := AbsorbSnapshot (ledgerAfter h) snap now in
  (BreakerOpen l now = true ↔ ∃ t, t ∈ trips (breakerAfter h) ∧ now < t + breakerPause)
  ∧ outcomes l = lastOutcomes (sinceTrip (breakerAfter h)) ∧ ¬ tripping (outcomes l)
  ∧ DispatchesWithinHour l now = Z.of_nat (length (filter (withinHour now) (recorded h)))
  ∧ (∀ node window, window ≤ Hour →
       NodeCooling l node window now = negb (bool_decide (node = "")) && existsb (cools node window now) (recorded h))
  ∧ (footprintsFit (filter (withinHour now) (absorbRecord snap <$> allDispatches h)) →
     ∀ node, node ≠ "" →
       default 0 (ActiveClaims l !! node) =
       zsum_with RGPUs (filter (holdsRoom node) (filter (withinHour now) (absorbRecord snap <$> allDispatches h)))).
Proof.
  intros Hc Hnow l.
  assert (outcomes l = lastOutcomes (sinceTrip (breakerAfter h))) as Ho by apply ledger_outcomes.
  split_and!; [by apply ledger_breaker|done| |by apply ledger_hourly|intros; by apply ledger_cooling|].
  - rewrite Ho. pose proof (sinceTrip_not_tripping h) as Hnt. contradict Hnt. destruct Hnt as [H1 H2].
    assert (lastOutcomes (lastOutcomes (sinceTrip (breakerAfter h))) = lastOutcomes (sinceTrip (breakerAfter h))) as Hid.
    { unfold lastOutcomes at 1. rewrite decide_False; [done|]. rewrite length_lastOutcomes. lia. }
    rewrite Hid in H2. split; [|done]. rewrite length_lastOutcomes in H1. unfold breakerWindow in H1. lia.
  - rewrite <-(ledger_absorbed now h snap Hc). intros Hfit node Hn. by apply ActiveClaims_sum.
Qed.

Definition sampleRecord : DispatchRecord := mkRecord (mkName "ns" "svc") "node-a" "node-b" 8 false 0 false.
Definition sampleHistory : list (Z * ledgerCall) :=
  [(0, CallDispatch sampleRecord); (Minute, CallOutcome false); (2 * Minute, CallOutcome false);
   (3 * Minute, CallOutcome true); (4 * Minute, CallOutcome false)].

Lemma ledger_remembers_witness :
  let l := AbsorbSnapshot (ledgerAfter sampleHistory) (mkSnapshot ∅ ∅) (63 * Minute) in
  clockBefore (63 * Minute) sampleHistory
  ∧ (BreakerOpen l (63 * Minute) = true ↔ ∃ t, t ∈ trips (breakerAfter sampleHistory) ∧ 63 * Minute < t + breakerPause)
  ∧ trips (breakerAfter sampleHistory) = [4 * Minute].
Proof.
  assert (clockBefore (63 * Minute) sampleHistory) as H.
  { split; [repeat constructor; vm_compute; done|]. repeat constructor; vm_compute; done. }
  split_and!; [done|apply (ledger_remembers sampleHistory (mkSnapshot ∅ ∅) (63 * Minute) H); vm_compute; done|reflexivity].
Defined.

(** A cooldown longer than the hour the ledger retains, which the configuration
    accepts, ends with the first snapshot absorbed after that hour. *)
Lemma cooldown_forgotten :
  let l := RecordDispatch NewLedger sampleRecord in
  let now := 61 * Minute in
  NodeCooling l "node-b" (minutes 120) now = true
  ∧ NodeCooling (AbsorbSnapshot l (mkSnapshot ∅ ∅) now) "node-b" (minutes 120) now = false.
Proof. split; reflexivity. Qed.
