(* ===== verification/Arbiter.v ===== *)
(** * The arbiter

    [alfred/engine/arbiter.go]: one pass over the executable candidates of every
    policy, in priority order, that admits a candidate only through all the gates.
    The loop carries the budget, the claimed capacity and the nodes already landed
    on; the arbiter, the snapshot, the configuration and the clock are fixed for
    the pass.  [types.NamespacedName.String] is library code: a parameter, of
    which nothing is assumed. *)

From S2P Require Export AlfredLedger.
Local Open Scope Z_scope.

Definition RejectCircuitBreakerOpen : string := "CircuitBreakerOpen".
Definition RejectInstanceGone : string := "InstanceGone".
Definition RejectNotMovable : string := "NotMovable".
Definition RejectMalformedRequest : string := "MalformedRequestPending".
Definition RejectMigrationStateInvalid : string := "MigrationStateInvalid".
Definition RejectTerminating : string := "InstanceTerminating".
Definition RejectWorkloadBusy : string := "WorkloadBusy".
Definition RejectAutoscalerActive : string := "AutoscalerActive".
Definition RejectCooldown : string := "Cooldown".
Definition RejectPlacementCooldown : string := "PlacementCooldown".
Definition RejectNodeCooldown : string := "NodeCooldown".
Definition RejectTargetUnderEvac : string := "TargetUnderEvacuation".
Definition RejectTargetUnavailable : string := "TargetUnavailable".
Definition RejectTargetNodeBusy : string := "TargetNodeBusy".
Definition RejectNoCapacity : string := "NoCapacity".
Definition RejectInFlightCap : string := "InFlightCap".
Definition RejectHourlyCap : string := "HourlyCap".

Inductive AutoscalerIntent := IntentIdle | IntentScaling | IntentUnknown.
#[export] Instance AutoscalerIntent_eq_dec : EqDecision AutoscalerIntent.
Proof. solve_decision. Defined.

(** A decision, without the dispatch fields that the arbiter leaves empty. *)
Record ArbiterDecision := mkDecision {
  DCandidate : Candidate; IsAdmitted : bool; DReason : string; Target : string; CooldownOverridden : bool;
}.

Definition reject (c : Candidate) (reason : string) : ArbiterDecision := mkDecision c false reason "" false.

Record Arbiter := mkArbiter {
  ALedger : option Ledger;
  Intent : option (ClusterSnapshot → string → AutoscalerIntent);
}.

Definition candidatePriority (c : Candidate) : Z :=
  if decide (Reason c = ReasonNodeUnhealthy) then 2
  else if decide (Reason c = ReasonNodeMaintenance) then 1
  else 0.

(** [true] when the first candidate is arbitrated before the second. *)
Definition arbitratedBefore (x y : Candidate) : bool :=
  let px := candidatePriority x in
  let py := candidatePriority y in
  if decide (px ≠ py) then bool_decide (py < px)
  else if negb (SFeqb (Score x) (Score y)) then SFltb (Score y) (Score x)
  else bool_decide (FootprintGPUs x < FootprintGPUs y).

Definition lookupInstance (w : option Workload) (c : Candidate) : option Instance :=
  w ← w; comp ← Components w !! CComponent c;
  head (filter (λ inst, Index inst = CInstance c) (Instances comp)).

(** Requests and last migrations within the hour, as the snapshot shows them. *)
Definition seenThisHour (now : Z) (w : Workload) : Z :=
  Z.of_nat (length (filter (λ requestedAt, Sub now requestedAt ≤ Hour) (ActiveMigrations w)))
  + match LastMigration w with
    | Some t => if decide (Sub now t ≤ Hour) then 1 else 0
    | None => 0
    end.

Definition migrationLoad (snap : ClusterSnapshot) (ledger : option Ledger) (now : Z) : Z * Z :=
  let ws := (map_to_list (Workloads snap)).*2 in
  let inFlight := zsum_with (λ w, Z.of_nat (length (ActiveMigrations w))) ws in
  let snapshotHour := zsum_with (seenThisHour now) ws in
  (inFlight, match ledger with
             | Some l => if decide (snapshotHour < DispatchesWithinHour l now) then DispatchesWithinHour l now else snapshotHour
             | None => snapshotHour
             end).

Record admitState := mkAdmitState {
  breakerOpen : bool;
  evacuating : gset string;
  claims : gmap string Z;
  landed : gset string;
  admittedWorkloads : gset string;
  inFlight : Z;
  hourly : Z;
  admitted : Z;
}.

(** The flags behind the reason of a rejection. *)
Record saw := mkSaw { sawEvacuating : bool; sawUnavailable : bool; sawLanded : bool; sawCooling : bool }.
Definition resetSaw : saw := mkSaw false false false false.

Section pass.
Context (nameString : NamespacedName → string).
Context (arbiter : Arbiter) (snap : ClusterSnapshot) (cfg : Config) (now : Z).

Definition newAdmitState (ordered : list Candidate) : admitState :=
  let evac := list_to_set (FromNode <$> filter (λ c, (Reason c = ReasonNodeUnhealthy ∨ Reason c = ReasonNodeMaintenance)
                                                     ∧ FromNode c ≠ "") ordered) in
  let load := migrationLoad snap (ALedger arbiter) now in
  mkAdmitState
    (match ALedger arbiter with Some l => BreakerOpen l now | None => false end)
    evac
    (match ALedger arbiter with Some l => ActiveClaims l | None => ∅ end)
    ∅ ∅ load.1 load.2 0.

(** The ledger holds the node back. *)
Definition cooling (node : string) : bool :=
  match ALedger arbiter with
  | Some l => NodeCooling l node (PerNodeCooldown cfg) now
  | None => false
  end.

(** The room left on a node net of claims. *)
Definition netFree (st : admitState) (node : string) (n : Node) : Z :=
  i64 (FreeGPUs n - default 0 (claims st !! node)).

Definition nodeFits (st : admitState) (s : saw) (node : string) (gpus : Z) : bool * saw :=
  match Nodes snap !! node with
  | None => (false, s)
  | Some n =>
      if UnavailableAsTarget n then (false, mkSaw (sawEvacuating s) true (sawLanded s) (sawCooling s))
      else if decide (node ∈ evacuating st) then (false, mkSaw true (sawUnavailable s) (sawLanded s) (sawCooling s))
      else if decide (node ∈ landed st) then (false, mkSaw (sawEvacuating s) (sawUnavailable s) true (sawCooling s))
      else if cooling node then (false, mkSaw (sawEvacuating s) (sawUnavailable s) (sawLanded s) true)
      else (bool_decide (gpus ≤ netFree st node n), s)
  end.

(** Free-then-place: the first target with room for the footprint. *)
Fixpoint firstFit (st : admitState) (s : saw) (gpus : Z) (targets : list string) : option string :=
  match targets with
  | [] => None
  | hint :: rest => let '(ok, s') := nodeFits st s hint gpus in
                    if ok then Some hint else firstFit st s' gpus rest
  end.

(** One pod of a surge: the first target with room for it on top of what the
    surge has put there already. *)
Fixpoint placePod (st : admitState) (s : saw) (placement : gmap string Z) (gpus : Z) (targets : list string)
  : option string * saw :=
  match targets with
  | [] => (None, s)
  | hint :: rest =>
      let '(ok, s') := nodeFits st s hint (i64 (gpus + default 0 (placement !! hint))) in
      if ok then (Some hint, s') else placePod st s' placement gpus rest
  end.

Definition rejectionOf (s : saw) : string :=
  if sawUnavailable s then RejectTargetUnavailable
  else if sawEvacuating s then RejectTargetUnderEvac
  else if sawLanded s then RejectTargetNodeBusy
  else if sawCooling s then RejectNodeCooldown
  else RejectNoCapacity.

Fixpoint placePods (st : admitState) (targets : list string) (placement : gmap string Z) (first : string)
    (pods : list Z) : string * gmap string Z * string :=
  match pods with
  | [] => (first, placement, "")
  | gpus :: rest =>
      match placePod st resetSaw placement gpus targets with
      | (Some hint, _) =>
          placePods st targets (<[hint := i64 (default 0 (placement !! hint) + gpus)]> placement)
            (if decide (first = "") then hint else first) rest
      | (None, s) => ("", ∅, rejectionOf s)
      end
  end.

(** The replacements a surge must place: the pods that hold GPUs, largest first,
    or the declared footprint where there are none. *)
Definition surgePods (c : Candidate) (inst : Instance) : list Z :=
  let pods := sort_slice Z.gtb (filter (λ g, 0 < g) (GPUs <$> Pods inst)) in
  if decide (pods = [] ∧ 0 < FootprintGPUs c) then [FootprintGPUs c] else pods.

Definition targetsOf (c : Candidate) : list string :=
  match PlacementTargetNodes c with [] => HintTargetNodes c | _ => PlacementTargetNodes c end.

Definition selectTarget (st : admitState) (c : Candidate) (inst : Instance) : string * gmap string Z * string :=
  match TPUSlice c with
  | Some _ => ("", ∅, "")
  | None =>
      if SurgeShaped c then placePods st (targetsOf c) ∅ "" (surgePods c inst)
      else match firstFit st resetSaw (FootprintGPUs c) (targetsOf c) with
           | Some hint => (hint, {[hint := FootprintGPUs c]}, "")
           | None => ("", ∅, "")
           end
  end.

(** An admission takes its budget, its workload and its nodes. *)
Definition claimNode (claims : gmap string Z) (p : string * Z) : gmap string Z :=
  <[p.1 := i64 (default 0 (claims !! p.1) + p.2)]> claims.

Definition admitOne (st : admitState) (key : string) (placement : gmap string Z) : admitState :=
  mkAdmitState (breakerOpen st) (evacuating st) (foldl claimNode (claims st) (map_to_list placement))
    (landed st ∪ dom placement) (admittedWorkloads st ∪ {[key]}) (inFlight st) (hourly st) (admitted st + 1).

Definition health (c : Candidate) : bool := bool_decide (Reason c = ReasonNodeUnhealthy).

(** The cooldown of a workload since its last migration: [None] when it holds the
    candidate back, otherwise whether a health evacuation overrode the window. *)
Definition workloadCooldown (w : Workload) (c : Candidate) : option bool :=
  let window := default (PerWorkloadCooldown cfg) (CooldownOverride w) in
  match LastMigration w with
  | None => Some false
  | Some t =>
      let age := Sub now t in
      if health c then
        if decide (age < HealthCooldownFloor cfg) then None else Some (bool_decide (age < window))
      else if decide (age < window) then None else Some false
  end.

Definition freshlyPlaced (c : Candidate) (pod : PodInfo) : bool :=
  let placementWindow := if health c then HealthCooldownFloor cfg else RecentPlacementCooldown cfg in
  match StartTime pod with Some t => bool_decide (Sub now t < placementWindow) | None => false end.

Definition autoscalerBusy (key : string) : bool :=
  match Intent arbiter with
  | Some intent => negb (bool_decide (intent snap key = IntentIdle))
  | None => false
  end.

Definition decideCandidate (st : admitState) (c : Candidate) : admitState * ArbiterDecision :=
  if breakerOpen st then (st, reject c RejectCircuitBreakerOpen) else
  match Workloads snap !! CWorkload c with
  | None => (st, reject c RejectInstanceGone)
  | Some w =>
  match lookupInstance (Some w) c with
  | None => (st, reject c RejectInstanceGone)
  | Some inst =>
      if negb (Movable w) then (st, reject c RejectNotMovable)
      else if negb (bool_decide (MalformedRequests w = ∅)) then (st, reject c RejectMalformedRequest)
      else if negb (MigrationStateValid w) then (st, reject c RejectMigrationStateInvalid)
      else if existsb Terminating (Pods inst) then (st, reject c RejectTerminating)
      else
        let key := nameString (CWorkload c) in
        if negb (bool_decide (ActiveMigrations w = [])) || bool_decide (key ∈ admittedWorkloads st)
        then (st, reject c RejectWorkloadBusy)
        else if autoscalerBusy key then (st, reject c RejectAutoscalerActive)
        else match workloadCooldown w c with
        | None => (st, reject c RejectCooldown)
        | Some overridden =>
            if existsb (freshlyPlaced c) (Pods inst) then (st, reject c RejectPlacementCooldown)
            else if negb (health c) && cooling (FromNode c) then (st, reject c RejectNodeCooldown)
            else
              let '(target, placement, reason) := selectTarget st c inst in
              if negb (bool_decide (reason = "")) then (st, reject c reason)
              else if decide (MaxInFlightMigrations cfg ≤ inFlight st + admitted st)
              then (st, reject c RejectInFlightCap)
              else if decide (MaxMigrationsPerHour cfg ≤ hourly st + admitted st)
              then (st, reject c RejectHourlyCap)
              else (admitOne st key placement, mkDecision c true "" target overridden)
        end
  end
  end.

Fixpoint decideAll (st : admitState) (cs : list Candidate) : admitState * list ArbiterDecision :=
  match cs with
  | [] => (st, [])
  | c :: rest =>
      let '(st', d) := decideCandidate st c in
      let '(st'', ds) := decideAll st' rest in
      (st'', d :: ds)
  end.

End pass.

(** The arbiter of a pass: its ledger has absorbed the snapshot. *)
Definition absorb (a : Arbiter) (snap : ClusterSnapshot) (now : Z) : Arbiter :=
  mkArbiter ((λ l, AbsorbSnapshot l snap now) <$> ALedger a) (Intent a).

Definition Admit (nameString : NamespacedName → string) (a : Arbiter) (snap : ClusterSnapshot) (cands : list Candidate)
    (cfg : Config) (now : Z) : Arbiter * list ArbiterDecision :=
  let ordered := sort_slice arbitratedBefore (filter (λ c, Executable c = true) cands) in
  let a' := absorb a snap now in
  (a', (decideAll nameString a' snap cfg now (newAdmitState a' snap now ordered) ordered).2).
