(* ===== verification/ArbiterFacts.v ===== *)
(** * What a pass of the arbiter admits

    The loop of [Arbiter] keeps one invariant per gate: the budget is spent once
    per admission, a workload is taken once, a node is landed on once, and no
    landing overruns the room the node has net of the claims on it. *)

From S2P Require Import Arbiter.
Local Open Scope Z_scope.

Section facts.
Context (nameString : NamespacedName → string).
Context (arbiter : Arbiter) (snap : ClusterSnapshot) (cfg : Config) (now : Z).

Local Abbreviation nodeFits := (nodeFits arbiter snap cfg now).
Local Abbreviation firstFit := (firstFit arbiter snap cfg now).
Local Abbreviation placePod := (placePod arbiter snap cfg now).
Local Abbreviation placePods := (placePods arbiter snap cfg now).
Local Abbreviation selectTarget := (selectTarget arbiter snap cfg now).
Local Abbreviation decideCandidate := (decideCandidate nameString arbiter snap cfg now).
Local Abbreviation decideAll := (decideAll nameString arbiter snap cfg now).

(** ** One node *)

(** A replacement of this size may land on the node. *)
Definition mayLand (st : admitState) (node : string) (gpus : Z) : Prop :=
  ∃ n, Nodes snap !! node = Some n ∧ UnavailableAsTarget n = false ∧ (node ∉ evacuating st) ∧ (node ∉ landed st)
       ∧ cooling arbiter cfg now node = false ∧ gpus ≤ netFree st node n.

Lemma nodeFits_true st s node gpus s' : nodeFits st s node gpus = (true, s') → mayLand st node gpus ∧ s' = s.
Proof.
  unfold Arbiter.nodeFits. destruct (Nodes snap !! node) as [n|] eqn:Hn; [|done].
  destruct (UnavailableAsTarget n) eqn:Hu; [done|].
  destruct (decide (node ∈ evacuating st)); [done|]. destruct (decide (node ∈ landed st)); [done|].
  destruct (cooling arbiter cfg now node) eqn:Hc; [done|].
  intros [= Hf%bool_decide_eq_true <-]. split; [|done]. exists n. done.
Qed.

Lemma firstFit_Some st s gpus targets hint :
  firstFit st s gpus targets = Some hint → hint ∈ targets ∧ mayLand st hint gpus.
Proof.
  revert s. induction targets as [|t rest IH]; intros s; simpl; [done|].
  destruct (nodeFits st s t gpus) as [[] s'] eqn:Hf.
  - intros [= <-]. apply nodeFits_true in Hf as [? _]. split; [by left|done].
  - intros [??]%IH. split; [by right|done].
Qed.

Lemma placePod_Some st s placement gpus targets hint s' :
  placePod st s placement gpus targets = (Some hint, s') →
  hint ∈ targets ∧ mayLand st hint (i64 (gpus + default 0 (placement !! hint))).
Proof.
  revert s. induction targets as [|t rest IH]; intros s; simpl; [done|].
  destruct (nodeFits st s t _) as [[] s1] eqn:Hf.
  - intros [= <- <-]. apply nodeFits_true in Hf as [? _]. split; [by left|done].
  - intros [??]%IH. split; [by right|done].
Qed.

(** ** A surge *)

(** The GPUs a list of homes, one per pod, puts on a node. *)
Definition putOn (node : string) (homes : list string) (pods : list Z) : Z :=
  zsum_with snd (filter (λ hp, hp.1 = node) (zip homes pods)).

Lemma putOn_cons node h homes g pods :
  putOn node (h :: homes) (g :: pods) = (if decide (h = node) then g else 0) + putOn node homes pods.
Proof.
  unfold putOn. simpl. case_decide as Hd.
  - rewrite filter_cons_True by done. by rewrite zsum_with_cons.
  - rewrite filter_cons_False by done. lia.
Qed.

Lemma rejectionOf_nonempty s : rejectionOf s ≠ "".
Proof. unfold rejectionOf. by repeat case_match. Qed.

(** Every pod of a surge gets a home among the targets, and every node used may
    take all the pods that were given to it together. *)
Lemma placePods_spec st targets pods placement first target p :
  placePods st targets placement first pods = (target, p, "") →
  Forall (λ g, 0 ≤ g) pods →
  (∀ node g, placement !! node = Some g → mayLand st node g ∧ 0 ≤ g ∧ g + zsum pods ≤ MaxInt64) →
  zsum pods ≤ MaxInt64 →
  (∀ node g, p !! node = Some g → mayLand st node g)
  ∧ ∃ homes, length homes = length pods ∧ (∀ h, h ∈ homes → h ∈ targets)
     ∧ ∀ node, default 0 (p !! node) = default 0 (placement !! node) + putOn node homes pods.
Proof.
  revert placement first. induction pods as [|g pods IH]; intros placement first; simpl.
  { intros [= <- <-] _ Hp _. split; [intros; by apply Hp|]. exists []. split_and!; [done| |].
    - by intros h ?%elem_of_nil.
    - intros node. change (putOn node [] []) with 0. lia. }
  destruct (placePod st resetSaw placement g targets) as [[hint|] s] eqn:Hpod.
  2: { intros [= _ _ H]. by apply rejectionOf_nonempty in H. }
  intros Hrun [Hg Hpods]%Forall_cons Hinv Hsum. change (zsum (g :: pods)) with (g + zsum pods) in *.
  apply placePod_Some in Hpod as [Hin Hland].
  assert (0 ≤ zsum pods) as H0.
  { change (zsum pods) with (foldr Z.add 0 pods). clear -Hpods. induction Hpods; simpl; lia. }
  set (old := default 0 (placement !! hint)) in *.
  assert (0 ≤ old ∧ old + (g + zsum pods) ≤ MaxInt64) as [Hold1 Hold2].
  { unfold old. destruct (placement !! hint) as [g'|] eqn:Hh; simpl; [|lia].
    apply Hinv in Hh as (_ & ? & ?). change (zsum (g :: pods)) with (g + zsum pods) in *. lia. }
  assert (i64 (old + g) = old + g) as Hw by (apply i64_id; unfold int64_range; lia).
  assert (i64 (g + old) = old + g) as Hw' by (rewrite i64_id; unfold int64_range; lia).
  rewrite Hw in Hrun. rewrite Hw' in Hland.
  destruct (IH _ _ Hrun Hpods) as [Hp (homes & Hlen & Hsub & Heq)].
  - intros node g'. destruct (decide (node = hint)) as [->|Hne].
    + rewrite lookup_insert_eq. intros [= <-]. split_and!; [done|lia|lia].
    + rewrite lookup_insert_ne by done. intros (? & ? & ?)%Hinv. split_and!; [done|lia|].
      change (zsum (g :: pods)) with (g + zsum pods) in *. lia.
  - lia.
  - split; [done|]. exists (hint :: homes). split_and!; [simpl; lia| |].
    + intros h [->|?]%elem_of_cons; [done|by apply Hsub].
    + intros node. rewrite putOn_cons, Heq. destruct (decide (hint = node)) as [<-|Hd].
      * rewrite lookup_insert_eq. simpl. unfold old. lia.
      * rewrite lookup_insert_ne by done. lia.
Qed.

(** ** One candidate *)

(** The pods an instance must move are within 64 bits together. *)
Definition surgeFits (c : Candidate) (inst : Instance) : Prop := zsum (surgePods c inst) ≤ MaxInt64.

Lemma surgePods_nonneg c inst : Forall (λ g, 0 ≤ g) (surgePods c inst).
Proof.
  unfold surgePods. case_decide as Hd; [repeat constructor; lia|].
  rewrite sort_slice_perm. apply Forall_forall. intros g [? _]%list_elem_of_filter. lia.
Qed.

(** Where a candidate's replacement goes: nowhere that is named for a TPU slice;
    for a surge every pod has a home among its targets; otherwise the whole
    footprint is on one target, or nowhere. *)
Definition placedAs (c : Candidate) (inst : Instance) (p : gmap string Z) : Prop :=
  match TPUSlice c with
  | Some _ => p = ∅
  | None =>
      if SurgeShaped c
      then ∃ homes, length homes = length (surgePods c inst) ∧ (∀ h, h ∈ homes → h ∈ targetsOf c)
                    ∧ ∀ node, default 0 (p !! node) = putOn node homes (surgePods c inst)
      else p = ∅ ∨ ∃ hint, hint ∈ targetsOf c ∧ p = {[hint := FootprintGPUs c]}
  end.

Lemma selectTarget_spec st c inst target p :
  selectTarget st c inst = (target, p, "") → surgeFits c inst →
  (∀ node g, p !! node = Some g → mayLand st node g) ∧ placedAs c inst p.
Proof.
  unfold Arbiter.selectTarget, placedAs. intros Hsel Hfit. destruct (TPUSlice c).
  { injection Hsel as <- <-. split; [|done]. intros ??. by rewrite lookup_empty. }
  destruct (SurgeShaped c).
  - destruct (placePods_spec _ _ _ _ _ _ _ Hsel) as [H1 (homes & H2 & H3 & H4)]; auto using surgePods_nonneg.
    { intros ??. by rewrite lookup_empty. }
    split; [done|]. exists homes. split_and!; [done..|]. intros node. by rewrite H4, lookup_empty.
  - destruct (firstFit st resetSaw (FootprintGPUs c) (targetsOf c)) as [hint|] eqn:Hff;
      injection Hsel as <- <-.
    + apply firstFit_Some in Hff as [??]. split; [|right; by exists hint].
      intros node g [<- <-]%lookup_singleton_Some. done.
    + split; [|by left]. intros ??. by rewrite lookup_empty.
Qed.

(** What every gate but the target and the caps found. *)
Definition gatesPassed (c : Candidate) (w : Workload) (inst : Instance) : Prop :=
  Movable w = true ∧ MalformedRequests w = ∅ ∧ MigrationStateValid w = true ∧ ActiveMigrations w = []
  ∧ (∀ pod, pod ∈ Pods inst → Terminating pod = false)
  ∧ autoscalerBusy arbiter snap (nameString (CWorkload c)) = false
  ∧ workloadCooldown cfg now w c ≠ None
  ∧ (∀ pod, pod ∈ Pods inst → freshlyPlaced cfg now c pod = false)
  ∧ (health c = false → cooling arbiter cfg now (FromNode c) = false).

(** An admission: the candidate's workload and instance exist and pass the gates,
    and its replacement is placed on nodes that may take it. *)
Definition admission (st : admitState) (d : ArbiterDecision) (p : gmap string Z) : Prop :=
  ∃ w inst,
    Workloads snap !! CWorkload (DCandidate d) = Some w ∧ lookupInstance (Some w) (DCandidate d) = Some inst
    ∧ gatesPassed (DCandidate d) w inst ∧ placedAs (DCandidate d) inst p
    ∧ ∀ node g, p !! node = Some g → mayLand st node g.

Definition candidateFits (c : Candidate) : Prop :=
  ∀ w inst, Workloads snap !! CWorkload c = Some w → lookupInstance (Some w) c = Some inst → surgeFits c inst.

Definition stepOf (st : admitState) (c : Candidate) (st' : admitState) (d : ArbiterDecision) : Prop :=
  DCandidate d = c
  ∧ ((IsAdmitted d = false ∧ DReason d ≠ "" ∧ st' = st)
     ∨ (IsAdmitted d = true ∧ breakerOpen st = false
        ∧ (nameString (CWorkload c) ∉ admittedWorkloads st)
        ∧ inFlight st + admitted st < MaxInFlightMigrations cfg
        ∧ hourly st + admitted st < MaxMigrationsPerHour cfg
        ∧ ∃ p, st' = admitOne st (nameString (CWorkload c)) p ∧ admission st d p)).

Lemma rejected_step st c reason : reason ≠ "" → stepOf st c st (reject c reason).
Proof. intros. split; [done|]. left. done. Qed.

Local Ltac rejected := intros [= <- <-]; by apply rejected_step.

Lemma decideCandidate_step st c st' d :
  candidateFits c → decideCandidate st c = (st', d) → stepOf st c st' d.
Proof.
  intros Hfit. unfold Arbiter.decideCandidate.
  destruct (breakerOpen st) eqn:Hb; [rejected|].
  destruct (Workloads snap !! CWorkload c) as [w|] eqn:Hw; [|rejected].
  destruct (lookupInstance (Some w) c) as [inst|] eqn:Hi; [|rejected].
  destruct (Movable w) eqn:Hm; simpl; [|rejected].
  case_bool_decide as Hmal; simpl; [|rejected].
  destruct (MigrationStateValid w) eqn:Hv; simpl; [|rejected].
  destruct (existsb Terminating (Pods inst)) eqn:Ht; [rejected|].
  case_bool_decide as Ha; simpl; [|rejected].
  case_bool_decide as Hk; [rejected|].
  destruct (autoscalerBusy arbiter snap (nameString (CWorkload c))) eqn:Hauto; [rejected|].
  destruct (workloadCooldown cfg now w c) as [ov|] eqn:Hcd; [|rejected].
  destruct (existsb (freshlyPlaced cfg now c) (Pods inst)) eqn:Hp; [rejected|].
  destruct (negb (health c) && cooling arbiter cfg now (FromNode c)) eqn:Hn; [rejected|].
  destruct (selectTarget st c inst) as [[target p] reason] eqn:Hsel.
  case_bool_decide as Hr; simpl; [|rejected]. subst reason.
  destruct (decide (MaxInFlightMigrations cfg ≤ inFlight st + admitted st)); [rejected|].
  destruct (decide (MaxMigrationsPerHour cfg ≤ hourly st + admitted st)); [rejected|].
  intros [= <- <-]. split; [done|]. right. split_and!; simpl; auto with lia.
  exists p. split; [done|]. exists w, inst.
  destruct (selectTarget_spec st c inst target p Hsel (Hfit w inst Hw Hi)) as [Hl Hpl].
  split_and!; try done. split_and!; try done; simpl.
  - by apply existsb_false.
  - by rewrite Hcd.
  - by apply existsb_false.
  - intros Hh. rewrite Hh in Hn. done.
Qed.

(** ** All candidates *)

Lemma claims_elsewhere m p node : (node ∉ dom p) → foldl claimNode m (map_to_list p) !! node = m !! node.
Proof.
  intros Hn. assert (∀ x, x ∈ map_to_list p → x.1 ≠ node) as Hl.
  { intros [k g] Hk%elem_of_map_to_list. simpl. intros ->. apply Hn, elem_of_dom. by exists g. }
  revert m. induction (map_to_list p) as [|x l IH]; intros m; simpl; [done|].
  rewrite IH by (intros; apply Hl; by right). unfold claimNode. apply lookup_insert_ne, Hl. left.
Qed.

Lemma mayLand_admit st key p node g :
  mayLand (admitOne st key p) node g → mayLand st node g ∧ (node ∉ dom p).
Proof.
  intros (n & Hn & Hu & He & Hl & Hc & Hg). simpl in *. apply not_elem_of_union in Hl as [Hl Hd].
  split; [|done]. exists n. split_and!; try done. unfold netFree in *. simpl in *.
  by rewrite claims_elsewhere in Hg.
Qed.

Definition admittedOf (ds : list ArbiterDecision) : list ArbiterDecision := filter (λ d, IsAdmitted d = true) ds.
Definition workloadKey (d : ArbiterDecision) : string := nameString (CWorkload (DCandidate d)).

Record arbitrated (st : admitState) (cs : list Candidate) (ds : list ArbiterDecision) : Prop := {
  passed_all : DCandidate <$> ds = cs;
  passed_reason : ∀ d, d ∈ ds → IsAdmitted d = false → DReason d ≠ "";
  passed_breaker : breakerOpen st = true → admittedOf ds = [];
  passed_caps : admittedOf ds ≠ [] →
    inFlight st + admitted st + Z.of_nat (length (admittedOf ds)) ≤ MaxInFlightMigrations cfg
    ∧ hourly st + admitted st + Z.of_nat (length (admittedOf ds)) ≤ MaxMigrationsPerHour cfg;
  passed_once : NoDup (workloadKey <$> admittedOf ds);
  passed_fresh : ∀ d, d ∈ admittedOf ds → workloadKey d ∉ admittedWorkloads st;
  passed_landings : ∃ ps, Forall2 (admission st) (admittedOf ds) ps ∧ StronglySorted (λ p q, dom p ## dom q) ps;
}.

Lemma passed_rejected st cs ds d :
  IsAdmitted d = false → DReason d ≠ "" → arbitrated st cs ds → arbitrated st (DCandidate d :: cs) (d :: ds).
Proof.
  intros Ha Hr [H1 H2 H3 H4 H5 H6 H7].
  assert (admittedOf (d :: ds) = admittedOf ds) as Hadm.
  { unfold admittedOf. apply filter_cons_False. by rewrite Ha. }
  split; rewrite ?Hadm; auto.
  - by rewrite fmap_cons, H1.
  - intros d' [->|?]%elem_of_cons; auto.
Qed.

Lemma passed_admitted st cs ds d p :
  IsAdmitted d = true → breakerOpen st = false → (workloadKey d ∉ admittedWorkloads st) →
  inFlight st + admitted st < MaxInFlightMigrations cfg → hourly st + admitted st < MaxMigrationsPerHour cfg →
  admission st d p → arbitrated (admitOne st (workloadKey d) p) cs ds → arbitrated st (DCandidate d :: cs) (d :: ds).
Proof.
  intros Ha Hb Hk Hi Hh Hp [H1 H2 H3 H4 H5 H6 (ps & H7 & H8)]. simpl in *.
  assert (admittedOf (d :: ds) = d :: admittedOf ds) as Hadm by (unfold admittedOf; by apply filter_cons_True).
  assert (∀ q, q ∈ ps → dom p ## dom q) as Hdis.
  { intros q Hq node Hnp [g Hg]%elem_of_dom. apply list_elem_of_lookup in Hq as [i Hq].
    destruct (Forall2_lookup_r _ _ _ _ _ H7 Hq) as (d' & _ & w & inst & _ & _ & _ & _ & Hland).
    by apply Hland, mayLand_admit in Hg as [_ ?]. }
  split; rewrite ?Hadm.
  - by rewrite fmap_cons, H1.
  - intros d' [->|?]%elem_of_cons; [congruence|auto].
  - congruence.
  - intros _. simpl. destruct (admittedOf ds) as [|d' l] eqn:E; [simpl; lia|].
    destruct H4 as [??]; [done|]. simpl in *. lia.
  - rewrite fmap_cons. constructor; [|done]. intros (d' & Heq & Hd')%list_elem_of_fmap.
    apply (H6 d' Hd'). rewrite <-Heq. set_solver.
  - intros d' [->|Hd']%elem_of_cons; [done|]. specialize (H6 d' Hd'). set_solver.
  - exists (p :: ps). split.
    + constructor; [done|]. eapply Forall2_impl; [exact H7|].
      intros d' q (w & inst & ? & ? & ? & ? & Hland). exists w, inst. split_and!; try done.
      intros node g Hg. by apply Hland, mayLand_admit in Hg as [? _].
    + constructor; [done|]. apply Forall_forall. done.
Qed.

Lemma decideAll_passed st cs : Forall candidateFits cs → arbitrated st cs (decideAll st cs).2.
Proof.
  intros Hfits. revert st. induction Hfits as [|c cs Hfit Hfits IH]; intros st; simpl.
  { split; try done; simpl; [by intros ? ?%elem_of_nil|constructor|by intros ? ?%elem_of_nil|].
    exists []. split; constructor. }
  destruct (decideCandidate st c) as [st' d] eqn:Hd. apply decideCandidate_step in Hd as [<- Hstep]; [|done].
  specialize (IH st'). destruct (decideAll st' cs) as [st'' ds]. simpl in *.
  destruct Hstep as [(Ha & Hr & ->)|(Ha & Hb & Hk & Hi & Hh & p & -> & Hp)].
  - by apply passed_rejected.
  - by apply (passed_admitted _ _ _ _ p).
Qed.
End facts.

(** ** The order of arbitration *)

Lemma arbitratedBefore_priority x y :
  (arbitratedBefore x y = true → candidatePriority y ≤ candidatePriority x)
  ∧ (arbitratedBefore x y = false → candidatePriority x ≤ candidatePriority y).
Proof.
  unfold arbitratedBefore. case_decide as Hd.
  - case_bool_decide; split; intros; (done || lia).
  - split; intros; lia.
Qed.

(** Whatever the scores are, no candidate is arbitrated before one of a higher
    class. *)
Lemma sorted_by_priority cs :
  StronglySorted (λ x y, candidatePriority y ≤ candidatePriority x) (sort_slice arbitratedBefore cs).
Proof.
  induction cs as [|x cs IH]; simpl; [constructor|].
  induction (sort_slice arbitratedBefore cs) as [|y l IHl]; simpl; [repeat constructor|].
  apply StronglySorted_cons in IH as [Hy Hl]. destruct (arbitratedBefore y x) eqn:Hb.
  - apply arbitratedBefore_priority in Hb. constructor; [auto|]. rewrite sort_insert_perm. by constructor.
  - apply arbitratedBefore_priority in Hb. constructor; [by constructor|]. constructor; [lia|].
    eapply Forall_impl; [exact Hy|]. simpl. lia.
Qed.

(** ** A pass *)

(** The figures of a snapshot are within 64 bits: the free GPUs of a node, and
    the GPUs of the pods of an instance together. *)
Definition snapshotFits (snap : ClusterSnapshot) : Prop :=
  map_Forall (λ _ n, 0 ≤ FreeGPUs n ≤ MaxInt64) (Nodes snap)
  ∧ map_Forall (λ _ w, map_Forall (λ _ comp, Forall (λ inst, zsum (filter (λ g, 0 < g) (GPUs <$> Pods inst)) ≤ MaxInt64)
      (Instances comp)) (Components w)) (Workloads snap).

Lemma candidateFits_of snap c : snapshotFits snap → FootprintGPUs c ≤ MaxInt64 → candidateFits snap c.
Proof.
  intros [_ Hw] Hc w inst Hl Hi. unfold lookupInstance in Hi. simpl in Hi.
  apply bind_Some in Hi as (comp & Hcomp & Hi). apply head_Some in Hi as [rest Hi].
  assert (inst ∈ Instances comp) as Hin.
  { assert (inst ∈ filter (λ inst, Index inst = CInstance c) (Instances comp)) as H by (rewrite Hi; left).
    by apply list_elem_of_filter in H as [_ ?]. }
  specialize (Hw _ _ Hl _ _ Hcomp). rewrite Forall_forall in Hw. specialize (Hw _ Hin).
  unfold surgeFits, surgePods. case_decide; [simpl; lia|]. by rewrite sort_slice_perm.
Qed.

Definition ledgerFits (a : Arbiter) : Prop :=
  match ALedger a with Some l => footprintsFit (dispatches l) | None => True end.

Definition claimsOf (a : Arbiter) : gmap string Z :=
  match ALedger a with Some l => ActiveClaims l | None => ∅ end.

Lemma claim_empty_name l : ActiveClaims l !! "" = None.
Proof.
  unfold ActiveClaims. induction (dispatches l) as [|rec ds IH] using rev_ind; [done|].
  rewrite foldl_app; simpl. set (m := foldl addClaim ∅ ds) in *. clearbody m. unfold addClaim.
  destruct (absorbed rec); simpl; [done|]. case_bool_decide; [done|]. by rewrite lookup_insert_ne.
Qed.

Lemma claimsOf_nonneg a node : ledgerFits a → 0 ≤ default 0 (claimsOf a !! node) ≤ MaxInt64.
Proof.
  unfold ledgerFits, claimsOf. destruct (ALedger a) as [l|]; [|rewrite lookup_empty; simpl; lia].
  intros Hfit. destruct (decide (node = "")) as [->|Hn]; [rewrite claim_empty_name; simpl; lia|].
  rewrite ActiveClaims_sum by done. destruct Hfit as [Hpos Hsum]. rewrite Forall_forall in Hpos.
  pose proof (zsum_with_filter_le RGPUs (holdsRoom node) (dispatches l) Hpos). lia.
Qed.

(** ** What a pass promises, said of what it reads *)

(** A failing node outranks maintenance, and both outrank the rest. *)
Definition outranks (x y : Candidate) : Prop :=
  (Reason x = "NodeUnhealthy" ∧ Reason y ≠ "NodeUnhealthy") ∨
  (Reason x = "NodeMaintenance" ∧ Reason y ≠ "NodeUnhealthy" ∧ Reason y ≠ "NodeMaintenance").
Definition evacuates (c : Candidate) : Prop := Reason c = "NodeUnhealthy" ∨ Reason c = "NodeMaintenance".

(** The migrations the snapshot shows under way, and those it shows to have started
    within the hour. *)
Definition underWay (snap : ClusterSnapshot) : Z :=
  zsum_with (λ w, Z.of_nat (length (ActiveMigrations w))) (map_to_list (Workloads snap)).*2.
Definition startedThisHour (snap : ClusterSnapshot) (now : Z) : Z :=
  zsum_with (λ w, Z.of_nat (length (filter (λ t, Sub now t ≤ Hour) (ActiveMigrations w ++ option_list (LastMigration w)))))
    (map_to_list (Workloads snap)).*2.

(** The instance a candidate names: the first of its component with that index. *)
Definition names (w : Workload) (c : Candidate) (inst : Instance) : Prop :=
  ∃ comp pre post, Components w !! CComponent c = Some comp ∧ Instances comp = pre ++ inst :: post ∧
    Index inst = CInstance c ∧ ∀ x, x ∈ pre → Index x ≠ CInstance c.

(** No dispatch to the node, and no routine move off it, within the window. *)
Definition quiet (a : Arbiter) (cfg : Config) (now : Z) (node : string) : Prop :=
  node ≠ "" → ∀ l rec, ALedger a = Some l → rec ∈ dispatches l →
    RTarget rec = node ∨ (RFromNode rec = node ∧ RHealth rec = false) → PerNodeCooldown cfg ≤ Sub now (At rec).

(** The workload and the instance may be moved now. *)
Definition settledEnough (nameString : NamespacedName → string) (a : Arbiter) (snap : ClusterSnapshot) (cfg : Config) (now : Z)
    (c : Candidate) (w : Workload) (inst : Instance) : Prop :=
  Movable w = true ∧ MalformedRequests w = ∅ ∧ MigrationStateValid w = true ∧ ActiveMigrations w = []
  ∧ (∀ pod, pod ∈ Pods inst → Terminating pod = false)
  ∧ (∀ intent, Intent a = Some intent → intent snap (nameString (CWorkload c)) = IntentIdle)
  ∧ (∀ t, LastMigration w = Some t →
       (if decide (Reason c = "NodeUnhealthy") then HealthCooldownFloor cfg
        else default (PerWorkloadCooldown cfg) (CooldownOverride w)) ≤ Sub now t)
  ∧ (∀ pod t, pod ∈ Pods inst → StartTime pod = Some t →
       (if decide (Reason c = "NodeUnhealthy") then HealthCooldownFloor cfg else RecentPlacementCooldown cfg) ≤ Sub now t)
  ∧ (Reason c ≠ "NodeUnhealthy" → quiet a cfg now (FromNode c)).

(** What a surge must place, and where a candidate may go. *)
Definition replacements (c : Candidate) (inst : Instance) : list Z :=
  match filter (λ g, 0 < g) (GPUs <$> Pods inst) with
  | [] => if decide (0 < FootprintGPUs c) then [FootprintGPUs c] else []
  | held => held
  end.
Definition mayTarget (c : Candidate) (node : string) : Prop :=
  node ∈ PlacementTargetNodes c ∨ (PlacementTargetNodes c = [] ∧ node ∈ HintTargetNodes c).

(** Where a candidate's replacement goes: nowhere that is named for a TPU slice; for
    a surge every pod has a home among the targets and a node is given what the
    pods there hold together; otherwise the whole footprint is on one target, or
    nowhere yet. *)
Definition homed (c : Candidate) (inst : Instance) (p : gmap string Z) : Prop :=
  match TPUSlice c with
  | Some _ => p = ∅
  | None =>
      if SurgeShaped c
      then ∃ pods homes, pods ≡ₚ replacements c inst ∧ length homes = length pods ∧ (∀ h, h ∈ homes → mayTarget c h)
             ∧ ∀ node, default 0 (p !! node) = putOn node homes pods
      else p = ∅ ∨ ∃ hint, mayTarget c hint ∧ p = {[hint := FootprintGPUs c]}
  end.

(** What the dispatches that do not show in the snapshot yet hold on a node. *)
Definition claimedOn (a : Arbiter) (node : string) : Z :=
  match ALedger a with
  | Some l => zsum_with RGPUs (filter (λ rec, absorbed rec = false ∧ RTarget rec = node) (dispatches l))
  | None => 0
  end.

(** Where an admitted replacement lands: on a node the snapshot shows in service,
    that nothing is being evacuated from, that is not cooling, and that has the
    room with every claim on it counted; and if its health was observed from
    conditions, each of them was known clear for the whole suspicion window. *)
Definition safeLanding (a : Arbiter) (snap : ClusterSnapshot) (cands : list Candidate) (cfg : Config) (now : Z)
    (node : string) (g : Z) : Prop :=
  ∃ n, Nodes snap !! node = Some n
    ∧ (Cordoned n = false ∧ Requested n = false ∧ ScaleDownMarked n = false)
    ∧ (∀ conds triggers t window, Health n = observeNodeHealth conds triggers t window →
         ∀ c, c ∈ conds → CType c ∈ triggers → cleared t window c)
    ∧ (∀ c, c ∈ cands → Executable c = true → evacuates c → FromNode c ≠ "" → FromNode c ≠ node)
    ∧ quiet a cfg now node
    ∧ (node ≠ "" → claimedOn a node + g ≤ FreeGPUs n).

(** ** The gates keep the promises *)

Lemma priority_outranks x y : candidatePriority x ≤ candidatePriority y → ¬ outranks x y.
Proof.
  unfold candidatePriority, outranks, ReasonNodeUnhealthy, ReasonNodeMaintenance.
  repeat case_decide; intros ? [[]|(? & ? & ?)]; congruence || lia.
Qed.

Lemma migrationLoad_spec snap ledger now :
  (migrationLoad snap ledger now).1 = underWay snap ∧
  startedThisHour snap now ≤ (migrationLoad snap ledger now).2 ∧
  ∀ l, ledger = Some l →
    Z.of_nat (length (filter (λ rec, Sub now (At rec) ≤ Hour) (dispatches l))) ≤ (migrationLoad snap ledger now).2.
Proof.
  unfold migrationLoad. cbn [fst snd]. split; [done|].
  assert (zsum_with (seenThisHour now) (map_to_list (Workloads snap)).*2 = startedThisHour snap now) as E.
  { apply zsum_with_ext. intros w _. unfold seenThisHour. rewrite filter_app, length_app.
    destruct (LastMigration w) as [t|]; [|cbn; lia]. change (option_list (Some t)) with [t].
    case_decide; [rewrite filter_cons_True by done|rewrite filter_cons_False by done]; cbn; lia. }
  rewrite E. destruct ledger as [l|]; [|split; [lia|done]].
  split; [case_decide; lia|]. intros l' [= <-]. change (DispatchesWithinHour l now ≤ if decide (startedThisHour snap now < DispatchesWithinHour l now) then DispatchesWithinHour l now else startedThisHour snap now).
  case_decide; lia.
Qed.

Lemma lookupInstance_names w c inst : lookupInstance (Some w) c = Some inst → names w c inst.
Proof.
  unfold lookupInstance. cbn. intros (comp & Hc & Hh)%bind_Some. exists comp.
  assert (∀ l : list Instance, head (filter (λ inst, Index inst = CInstance c) l) = Some inst →
    ∃ pre post, l = pre ++ inst :: post ∧ Index inst = CInstance c ∧ ∀ x, x ∈ pre → Index x ≠ CInstance c) as H.
  { intros l. induction l as [|x l IH]; [done|]. destruct (decide (Index x = CInstance c)) as [Hx|Hx].
    - rewrite filter_cons_True by done. intros [= ->]. exists [], l. split; [done|]. split; [done|]. by intros ? ?%elem_of_nil.
    - rewrite filter_cons_False by done. intros (pre & post & -> & ? & Hall)%IH. exists (x :: pre), post.
      split; [done|]. split; [done|]. intros y [->|?]%elem_of_cons; auto. }
  destruct (H _ Hh) as (pre & post & ? & ? & ?). eauto 10.
Qed.

Lemma cooling_quiet a cfg now node : cooling a cfg now node = false → quiet a cfg now node.
Proof.
  unfold cooling, NodeCooling, quiet. intros Hc Hn l rec El Hin Hrec. rewrite El, decide_False in Hc by done.
  rewrite existsb_false in Hc. specialize (Hc rec Hin). unfold cools in Hc.
  apply andb_false_iff in Hc as [Hc|Hc]; [by apply negb_false_iff, bool_decide_eq_true in Hc|]. exfalso.
  apply orb_false_iff in Hc as [H1%bool_decide_eq_false H2]. destruct Hrec as [?|[Hf Hh]]; [done|].
  by rewrite bool_decide_true, Hh in H2 by done.
Qed.

Lemma gatesPassed_settled nameString a snap cfg now c w inst :
  gatesPassed nameString a snap cfg now c w inst → settledEnough nameString a snap cfg now c w inst.
Proof.
  intros (H1 & H2 & H3 & H4 & H5 & H6 & H7 & H8 & H9). unfold settledEnough.
  split_and!; try done.
  - intros intent Hi. unfold autoscalerBusy in H6. rewrite Hi in H6. by apply negb_false_iff, bool_decide_eq_true in H6.
  - intros t Ht. unfold workloadCooldown, health, ReasonNodeUnhealthy in H7. rewrite Ht in H7.
    case_bool_decide as Hr; [rewrite decide_True by done|rewrite decide_False by done]; cbv zeta in H7; case_decide; (done || lia).
  - intros pod t Hp Ht. specialize (H8 pod Hp). unfold freshlyPlaced, health, ReasonNodeUnhealthy in H8. rewrite Ht in H8.
    apply bool_decide_eq_false in H8. case_bool_decide as Hr; [rewrite decide_True by done|rewrite decide_False by done]; lia.
  - intros Hr. apply cooling_quiet, H9. unfold health. by apply bool_decide_eq_false.
Qed.

Lemma targetsOf_may c h : h ∈ targetsOf c → mayTarget c h.
Proof. unfold targetsOf, mayTarget. destruct (PlacementTargetNodes c); auto. Qed.

Lemma surgePods_replacements c inst : surgePods c inst ≡ₚ replacements c inst.
Proof.
  unfold surgePods, replacements. set (held := filter _ _). pose proof (sort_slice_perm Z.gtb held) as Hp.
  destruct held as [|g l].
  - apply Permutation_nil_r in Hp. rewrite Hp. repeat case_decide; naive_solver.
  - rewrite decide_False; [done|]. intros [E _]. rewrite E in Hp. by apply Permutation_nil_l in Hp.
Qed.

Lemma placedAs_homed c inst p : placedAs c inst p → homed c inst p.
Proof.
  unfold placedAs, homed. destruct (TPUSlice c); [done|]. destruct (SurgeShaped c).
  - intros (homes & Hl & Hin & Hp). exists (surgePods c inst), homes. split; [apply surgePods_replacements|].
    split; [done|]. split; [intros h Hh; by apply targetsOf_may, Hin|done].
  - intros [?|(hint & ? & ?)]; [by left|]. right. exists hint. split; [by apply targetsOf_may|done].
Qed.

Lemma claimsOf_claimed a node : ledgerFits a → node ≠ "" → default 0 (claimsOf a !! node) = claimedOn a node.
Proof.
  unfold ledgerFits, claimsOf, claimedOn. destruct (ALedger a) as [l|]; [|by rewrite lookup_empty].
  intros Hf Hn. by rewrite (ActiveClaims_sum l node Hn Hf).
Qed.

Lemma mayLand_safe a snap cands cfg now node g ordered :
  snapshotFits snap → ledgerFits a → ordered ≡ₚ filter (λ c, Executable c = true) cands →
  mayLand a snap cfg now (newAdmitState a snap now ordered) node g → safeLanding a snap cands cfg now node g.
Proof.
  intros [Hfree _] Hled Hord (n & Hn & Hu & He & _ & Hc & Hg). exists n.
  unfold UnavailableAsTarget in Hu. apply orb_false_elim in Hu as [[[Hq Hr]%orb_false_elim Hco]%orb_false_elim Hs].
  split_and!; try done.
  - intros conds triggers t window Heq. rewrite Heq in Hq. by apply observeNodeHealth_clear_iff.
  - intros c Hin Hex Hev Hfrom Heq. apply He. simpl. apply elem_of_list_to_set, list_elem_of_fmap.
    exists c. split; [done|]. apply list_elem_of_filter. split; [by split|].
    rewrite Hord. by apply list_elem_of_filter.
  - by apply cooling_quiet.
  - intros Hname. unfold netFree in Hg. simpl in Hg. fold (claimsOf a) in Hg. specialize (Hfree _ _ Hn). simpl in Hfree.
    pose proof (claimsOf_nonneg a node Hled). rewrite i64_id in Hg by (unfold int64_range; lia).
    rewrite <-(claimsOf_claimed a node Hled Hname). lia.
Qed.

Lemma ledgerFits_absorb a snap now : ledgerFits a → ledgerFits (absorb a snap now).
Proof.
  unfold ledgerFits, absorb. simpl. destruct (ALedger a) as [l|]; [|done]. simpl. intros [Hpos Hsum].
  set (ds := filter _ (dispatches l)).
  assert (∀ rec, RGPUs (absorbRecord snap rec) = RGPUs rec) as Hg
    by (intros rec; by destruct (absorbRecord_cases snap rec) as [-> | ->]).
  split.
  - apply Forall_fmap, Forall_forall. intros rec [_ Hin]%list_elem_of_filter. simpl. rewrite Hg.
    rewrite Forall_forall in Hpos. by apply Hpos.
  - unfold zsum_with. rewrite <-list_fmap_compose. rewrite (list_fmap_ext _ RGPUs) by (intros; apply Hg).
    rewrite Forall_forall in Hpos. unfold ds.
    pose proof (zsum_with_filter_le RGPUs (λ rec, ¬ ledgerRetention < Sub now (At rec)) (dispatches l) Hpos) as H.
    unfold zsum_with in *. lia.
Qed.


(** A fleet of three nodes, one of them failing, and two services: one runs on the
    failing node, the other may move for a better packing. *)
Definition clearHealth : NodeHealthObservation := mkHealth NodeHealthClear [] None.
Definition sampleService (g : Z) : Workload :=
  mkWorkload {["engine" := mkComponent [mkInstance 0 [mkPod g false None]]]} true None None [] ∅ true.
Definition sampleSnapshot : ClusterSnapshot :=
  mkSnapshot
    {["a" := mkNode 0 (observeNodeHealth [mkCondition "GpuUnhealthy" "True" 5] ["GpuUnhealthy"] (9 * Hour) Hour) false false false;
      "b" := mkNode 8 (observeNodeHealth [mkCondition "GpuUnhealthy" "False" 5] ["GpuUnhealthy"] (9 * Hour) Hour) false false false;
      "c" := mkNode 4 clearHealth false false false]}
    {[mkName "ns" "sick" := sampleService 8; mkName "ns" "loose" := sampleService 4]}.
Definition sampleCandidate (name reason from : string) (g : Z) : Candidate :=
  mkCandidate (mkName "ns" name) "engine" 0 reason from ["a"; "b"; "c"] [] true true None g (S754_zero false).
Definition sampleCandidates : list Candidate :=
  [sampleCandidate "loose" ReasonFragmentation "c" 4; sampleCandidate "sick" ReasonNodeUnhealthy "a" 8].
Definition sampleConfig : Config := mkConfig 10 30 10 5 3 10.
Definition sampleArbiter : Arbiter := mkArbiter (Some (ledgerAfter sampleHistory)) None.
Definition slash (n : NamespacedName) : string := NNamespace n +:+ "/" +:+ NName n.

