(* ===== verification/RuntimeInheritance.v ===== *)
(** * Inheritance of serving runtimes

    [pkg/runtimeinheritance]: a runtime names a parent in an annotation, and its
    effective spec is the merge of its chain of ancestors, root first
    ([resolve.go], [fetch.go], [from_client.go], [merge.go]); an edit of a runtime
    concerns every runtime below it ([descendants.go]).  The cluster behind the
    client and the JSON and strategic-merge libraries are parameters. *)

From S2P Require Import Prelude.
Local Open Scope go_scope.
#[local] Set Warnings "-register-all".

(** ** JSON documents *)

(** A decoded document ([any]); an object is the list of its members. *)
Inductive json :=
| JNull
| JBool (b : bool)
| JNumber (s : string)
| JString (s : string)
| JArray (l : list json)
| JObject (m : list (string * json)).

Definition isNull (v : json) : bool := match v with JNull => true | _ => false end.

Fixpoint stripNullsValue (v : json) : json :=
  match v with
  | JObject m =>
      JObject ((fix members (m : list (string * json)) : list (string * json) :=
        match m with
        | [] => []
        | (k, val) :: rest => if isNull val then members rest else (k, stripNullsValue val) :: members rest
        end) m)
  | JArray l => JArray (map stripNullsValue l)
  | _ => v
  end.

(** ** Runtimes and the cluster *)

(** A runtime object: its name, spec and the value of the inherit-from
    annotation, empty when there is none. *)
Record Runtime (T : Type) := mkRuntime { RName : string; RSpec : T; InheritFrom : string }.
Arguments mkRuntime {_} _ _ _.
Arguments RName {_} _.
Arguments RSpec {_} _.
Arguments InheritFrom {_} _.

Record RuntimeRef (T : Type) := mkRef { Name : string; Spec : option T; ParentName : string }.
Arguments mkRef {_} _ _ _.
Arguments Name {_} _.
Arguments Spec {_} _.
Arguments ParentName {_} _.

(** A read fails because the object is not there, or for another reason. *)
Inductive readError (E : Type) := NotFound | ReadFailed (e : E).
Arguments NotFound {_}.
Arguments ReadFailed {_} _.

(** [client.Reader], as far as it is used here. *)
Class Reader (T E : Type) := {
  GetServingRuntime : NamespacedName → readError E + Runtime T;
  GetClusterServingRuntime : string → readError E + Runtime T;
  ListClusterServingRuntimes : E + list (Runtime T);
  (** In one namespace, or in all; each with its namespace. *)
  ListServingRuntimes : option string → E + list (string * Runtime T);
}.

(** The libraries behind [Merge]. *)
Class MergeLib (T B E : Type) := {
  Marshal : T → E + B;
  UnmarshalAny : B → E + json;
  MarshalAny : json → E + B;
  StrategicMergePatch : B → B → E + B;
  Unmarshal : B → E + T;
}.

(** The stage of a merge that failed. *)
Inductive mergeError (E : Type) :=
| MarshalParent (e : E) | MarshalChild (e : E) | StripNulls (e : E) | StrategicMerge (e : E) | UnmarshalMerged (e : E).
Arguments MarshalParent {_} _.
Arguments MarshalChild {_} _.
Arguments StripNulls {_} _.
Arguments StrategicMerge {_} _.
Arguments UnmarshalMerged {_} _.

Inductive resolveError (E : Type) :=
| StartIsNil
| MaxDepthExceededError (MaxDepth : Z) (Chain : list string)
| CycleError (Cycle : list string)
| ParentNotFoundError (Parent : string) (Chain : list string)
| FetchParent (Parent : string) (e : E)
| MergeOnto (Child : string) (e : mergeError E).
Arguments StartIsNil {_}.
Arguments MaxDepthExceededError {_} _ _.
Arguments CycleError {_} _.
Arguments ParentNotFoundError {_} _ _.
Arguments FetchParent {_} _ _.
Arguments MergeOnto {_} _ _.

Section merge.
Context {T B E : Type} `{!MergeLib T B E}.

Definition StripJSONNulls (doc : B) : E + B :=
  match UnmarshalAny doc with
  | inl e => inl e
  | inr v => MarshalAny (stripNullsValue v)
  end.

Definition Merge (parent child : option T) : mergeError E + option T :=
  match parent, child with
  | None, None => inr None
  | None, Some child => inr (Some child)
  | Some parent, None => inr (Some parent)
  | Some parent, Some child =>
      match Marshal parent with
      | inl e => inl (MarshalParent e)
      | inr parentJSON =>
      match Marshal child with
      | inl e => inl (MarshalChild e)
      | inr childJSON =>
      match StripJSONNulls childJSON with
      | inl e => inl (StripNulls e)
      | inr childJSON =>
      match StrategicMergePatch parentJSON childJSON with
      | inl e => inl (StrategicMerge e)
      | inr mergedJSON =>
      match Unmarshal mergedJSON with
      | inl e => inl (UnmarshalMerged e)
      | inr merged => inr (Some merged)
      end end end end end
  end.

(** The merges of [Resolve]: each spec over what its ancestors gave. *)
Fixpoint mergeChain (effective : option T) (rest : list (string * option T)) : resolveError E + option T :=
  match rest with
  | [] => inr effective
  | (name, spec) :: rest =>
      match Merge effective spec with
      | inl e => inl (MergeOnto name e)
      | inr merged => mergeChain merged rest
      end
  end.

(** The loop of [Resolve] up the chain; [fuel] is spent only when it never ends. *)
Fixpoint ascend (fetch : string → readError E + RuntimeRef T) (maxDepth : Z) (fuel : nat) (visited : gset string)
    (chain : list string) (specs : list (option T)) (current : RuntimeRef T)
    : outcome (resolveError E) (list string * list (option T)) :=
  if decide (ParentName current = "") then Ok (chain, specs) else
  match fuel with
  | O => Panic
  | S fuel =>
      if decide (maxDepth ≤ Z.of_nat (length chain))%Z then Err (MaxDepthExceededError maxDepth chain)
      else if decide (ParentName current ∈ visited) then Err (CycleError (chain ++ [ParentName current]))
      else match fetch (ParentName current) with
           | inl NotFound => Err (ParentNotFoundError (ParentName current) chain)
           | inl (ReadFailed e) => Err (FetchParent (ParentName current) e)
           | inr parent =>
               ascend fetch maxDepth fuel (visited ∪ {[Name parent]}) (chain ++ [Name parent])
                 (specs ++ [Spec parent]) parent
           end
  end.

Definition Resolve (start : option (RuntimeRef T)) (fetch : string → readError E + RuntimeRef T) (maxDepth : Z)
    : outcome (resolveError E) (option T * list string) :=
  match start with
  | None => Err StartIsNil
  | Some start =>
      let? (chainChildFirst, specsChildFirst) :=
        ascend fetch maxDepth (S (Z.to_nat maxDepth)) {[Name start]} [Name start] [Spec start] start in
      let chain := reverse chainChildFirst in
      match reverse specsChildFirst with
      | [] => Panic
      | effective :: rest =>
          match mergeChain effective (zip (tail chain) rest) with
          | inl e => Err e
          | inr effective => Ok (effective, chain)
          end
      end
  end.
End merge.

(** ** Fetching *)

Definition ClusterRuntimeRef {T} (csr : Runtime T) : RuntimeRef T := mkRef (RName csr) (Some (RSpec csr)) (InheritFrom csr).
Definition NamespacedRuntimeRef {T} (sr : Runtime T) : RuntimeRef T := mkRef (RName sr) (Some (RSpec sr)) (InheritFrom sr).

Definition RuntimeInheritMaxDepth : Z := 5.

Section fetch.
Context {T E : Type} `{!Reader T E}.

Definition fetchClusterRuntime (name : string) : readError E + RuntimeRef T :=
  match GetClusterServingRuntime name with
  | inl e => inl e
  | inr csr => inr (ClusterRuntimeRef csr)
  end.

Definition ClusterRuntimeFetcher : string → readError E + RuntimeRef T := fetchClusterRuntime.

Definition NamespacedRuntimeFetcher (namespace : string) : string → readError E + RuntimeRef T :=
  λ name, match GetServingRuntime (mkName namespace name) with
          | inr sr => inr (NamespacedRuntimeRef sr)
          | inl (ReadFailed e) => inl (ReadFailed e)
          | inl NotFound => fetchClusterRuntime name
          end.

Definition ResolveClusterRuntime {B} `{!MergeLib T B E} (name : string)
    : readError E + outcome (resolveError E) (option T * list string) :=
  match fetchClusterRuntime name with
  | inl e => inl e
  | inr start => inr (Resolve (Some start) ClusterRuntimeFetcher RuntimeInheritMaxDepth)
  end.

Definition ResolveNamespacedRuntime {B} `{!MergeLib T B E} (namespace name : string)
    : readError E + outcome (resolveError E) (option T * list string) :=
  match GetServingRuntime (mkName namespace name) with
  | inl e => inl e
  | inr sr => inr (Resolve (Some (NamespacedRuntimeRef sr)) (NamespacedRuntimeFetcher namespace) RuntimeInheritMaxDepth)
  end.

(** ** Descendants *)

Definition addChild (m : gmap string (list NamespacedName)) (parent : string) (child : NamespacedName)
    : gmap string (list NamespacedName) :=
  if decide (parent = "") then m else <[parent := default [] (m !! parent) ++ [child]]> m.

Definition childrenByParentName (root : NamespacedName) : E + gmap string (list NamespacedName) :=
  match (if decide (NNamespace root = "") then ListClusterServingRuntimes else inr []) with
  | inl e => inl e
  | inr csrs =>
      let m := foldl (λ m csr, addChild m (InheritFrom csr) (mkName "" (RName csr))) ∅ csrs in
      match ListServingRuntimes (if decide (NNamespace root = "") then None else Some (NNamespace root)) with
      | inl e => inl e
      | inr srs => inr (foldl (λ m sr, addChild m (InheritFrom sr.2) (mkName sr.1 (RName sr.2))) m srs)
      end
  end.

(** The children of one runtime taken off the queue. *)
Record frontier := mkFrontier { seen : gset NamespacedName; queue : list NamespacedName; found : list NamespacedName }.

Definition enqueueChild (current : NamespacedName) (f : frontier) (child : NamespacedName) : frontier :=
  if decide (NNamespace current ≠ "" ∧ NNamespace child ≠ NNamespace current) then f
  else if decide (child ∈ seen f) then f
  else mkFrontier (seen f ∪ {[child]}) (queue f ++ [child]) (found f ++ [child]).

Fixpoint explore (byParentName : gmap string (list NamespacedName)) (fuel : nat) (f : frontier)
    : option (list NamespacedName) :=
  match queue f with
  | [] => Some (found f)
  | current :: rest =>
      match fuel with
      | O => None
      | S fuel =>
          explore byParentName fuel
            (foldl (enqueueChild current) (mkFrontier (seen f) rest (found f)) (default [] (byParentName !! NName current)))
      end
  end.

(** Every runtime is queued at most once, so the entries of the index bound the
    loop. *)
Definition Descendants (root : NamespacedName) : E + option (list NamespacedName) :=
  match childrenByParentName root with
  | inl e => inl e
  | inr byParentName =>
      inr (explore byParentName (S (length (concat (map_to_list byParentName).*2)))
             (mkFrontier {[root]} [root] []))
  end.
End fetch.
