(* ===== verification/RuntimeFacts.v ===== *)
(** * What resolving a runtime answers

    [Resolve] always returns, and its answer is determined by the ascent from the
    runtime: where it stops, and what the specs it passed merge to. *)

From S2P Require Import Prelude RuntimeInheritance.
Local Open Scope go_scope.
#[local] Set Warnings "-register-all".

(** ** Stripping nulls *)

Section json_induction.
Context (P : json → Prop) (HNull : P JNull) (HBool : ∀ b, P (JBool b)) (HNumber : ∀ s, P (JNumber s))
  (HString : ∀ s, P (JString s)) (HArray : ∀ l, Forall P l → P (JArray l))
  (HObject : ∀ m, Forall (λ kv, P kv.2) m → P (JObject m)).

Fixpoint json_nested_ind (v : json) : P v :=
  match v with
  | JNull => HNull
  | JBool b => HBool b
  | JNumber s => HNumber s
  | JString s => HString s
  | JArray l => HArray l ((fix go l := match l return Forall P l with
                             | [] => Forall_nil_2 P
                             | v :: l => Forall_cons_2 P v l (json_nested_ind v) (go l)
                             end) l)
  | JObject m => HObject m ((fix go m := match m return Forall (λ kv, P kv.2) m with
                               | [] => Forall_nil_2 _
                               | kv :: m => Forall_cons_2 _ kv m (json_nested_ind kv.2) (go m)
                               end) m)
  end.
End json_induction.

(** No object in the document, at any depth, has a null member. *)
Inductive noNullMember : json → Prop :=
| noNull_null : noNullMember JNull
| noNull_bool b : noNullMember (JBool b)
| noNull_number s : noNullMember (JNumber s)
| noNull_string s : noNullMember (JString s)
| noNull_array l : Forall noNullMember l → noNullMember (JArray l)
| noNull_object m : Forall (λ kv, isNull kv.2 = false ∧ noNullMember kv.2) m → noNullMember (JObject m).

Lemma stripNulls_object m :
  stripNullsValue (JObject m) =
  JObject ((λ kv, (kv.1, stripNullsValue kv.2)) <$> filter (λ kv, isNull kv.2 = false) m).
Proof.
  simpl. f_equal. induction m as [|[k v] m IH]; [done|]. destruct (isNull v) eqn:Hv.
  - rewrite filter_cons_False by (simpl; congruence). done.
  - rewrite filter_cons_True by done. rewrite fmap_cons. by rewrite IH.
Qed.

Lemma isNull_strip v : isNull (stripNullsValue v) = isNull v.
Proof. by destruct v. Qed.

(** What is stripped has no null member left, and a document without any is left
    as it is: stripping loses nulls and nothing else. *)
Lemma stripNulls_clean v : noNullMember (stripNullsValue v).
Proof.
  induction v as [| | | |l IH|m IH] using json_nested_ind; [constructor..| |].
  - simpl. constructor. apply Forall_forall. intros v' (v & -> & Hv)%list_elem_of_fmap.
    rewrite Forall_forall in IH. by apply IH.
  - rewrite stripNulls_object. constructor. apply Forall_forall.
    intros kv' ([k v] & -> & [Hv Hin]%list_elem_of_filter)%list_elem_of_fmap. simpl in *.
    rewrite isNull_strip. rewrite Forall_forall in IH. split; [done|]. apply (IH (k, v) Hin).
Qed.

Lemma stripNulls_id v : noNullMember v → stripNullsValue v = v.
Proof.
  induction v as [| | | |l IH|m IH] using json_nested_ind; inversion_clear 1 as [| | | |? Hl|? Hm]; try done.
  - simpl. f_equal. rewrite Forall_forall in IH, Hl. induction l as [|v l IHl]; [done|]. simpl.
    rewrite IH by (try apply Hl; left). f_equal. apply IHl; intros; [apply IH|apply Hl]; by try right.
  - rewrite stripNulls_object, filter_all by (intros kv Hkv; by eapply Forall_forall in Hm as [??]).
    f_equal. induction m as [|[k v] m IHm]; [done|]. rewrite fmap_cons.
    apply Forall_cons in IH as [Hv IH]. apply Forall_cons in Hm as [[_ Hnv] Hm]. simpl in *.
    rewrite Hv, IHm by done. done.
Qed.

(** ** The ascent *)

Section ascent.
Context {T B E : Type} `{!MergeLib T B E}.
Context (fetch : string → readError E + RuntimeRef T) (maxDepth : Z) (start : RuntimeRef T).

(** [ascent rs r]: reading each parent by the name its child gives leads from the
    start through the runtimes [rs], the last of them [r]. *)
Inductive ascent : list (RuntimeRef T) → RuntimeRef T → Prop :=
| ascent_start : ascent [start] start
| ascent_up rs r p : ascent rs r → ParentName r ≠ "" → fetch (ParentName r) = inr p → ascent (rs ++ [p]) p.

(** Why an ascent goes no further, in the order the reasons are looked for. *)
Inductive stop := AtRoot | TooDeep | Cyclic | Missing | Unreadable (e : E).

Definition stopsFor (rs : list (RuntimeRef T)) (r : RuntimeRef T) (s : stop) : Prop :=
  match s with
  | AtRoot => ParentName r = ""
  | TooDeep => ParentName r ≠ "" ∧ (maxDepth ≤ Z.of_nat (length rs))%Z
  | _ => ParentName r ≠ "" ∧ (Z.of_nat (length rs) < maxDepth)%Z ∧
         match s with
         | Cyclic => ParentName r ∈ Name <$> rs
         | Missing => (ParentName r ∉ Name <$> rs) ∧ fetch (ParentName r) = inl NotFound
         | Unreadable e => (ParentName r ∉ Name <$> rs) ∧ fetch (ParentName r) = inl (ReadFailed e)
         | _ => False
         end
  end.

(** The specs of a lineage, root first, merged each over its ancestors. *)
Definition mergeLineage (rootFirst : list (RuntimeRef T)) : resolveError E + option T :=
  match rootFirst with
  | [] => inr None
  | r :: rest => mergeChain (Spec r) ((λ r, (Name r, Spec r)) <$> rest)
  end.

Definition answerOf (rs : list (RuntimeRef T)) (r : RuntimeRef T) (s : stop)
    : outcome (resolveError E) (option T * list string) :=
  match s with
  | AtRoot => match mergeLineage (reverse rs) with
              | inl e => Err e
              | inr effective => Ok (effective, Name <$> reverse rs)
              end
  | TooDeep => Err (MaxDepthExceededError maxDepth (Name <$> rs))
  | Cyclic => Err (CycleError ((Name <$> rs) ++ [ParentName r]))
  | Missing => Err (ParentNotFoundError (ParentName r) (Name <$> rs))
  | Unreadable e => Err (FetchParent (ParentName r) e)
  end.

(** The ascent ends: at this list of runtimes, all of different names and no more
    than the depth allows, and for this reason. *)
Definition ends (rs : list (RuntimeRef T)) (r : RuntimeRef T) (s : stop) : Prop :=
  ascent rs r ∧ NoDup (Name <$> rs) ∧ (Z.of_nat (length rs) ≤ Z.max 1 maxDepth)%Z ∧ stopsFor rs r s.

(** What the walk answers when it ends there. *)
Definition walkAnswer (rs : list (RuntimeRef T)) (r : RuntimeRef T) (s : stop)
    : outcome (resolveError E) (list string * list (option T)) :=
  match s with
  | AtRoot => Ok (Name <$> rs, Spec <$> rs)
  | TooDeep => Err (MaxDepthExceededError maxDepth (Name <$> rs))
  | Cyclic => Err (CycleError ((Name <$> rs) ++ [ParentName r]))
  | Missing => Err (ParentNotFoundError (ParentName r) (Name <$> rs))
  | Unreadable e => Err (FetchParent (ParentName r) e)
  end.

Lemma ascent_length rs r : ascent rs r → (0 < length rs)%nat.
Proof. destruct 1; rewrite ?length_app; simpl; lia. Qed.

(** A fetcher answers with the runtime it was asked for. *)
Definition fetchesByName : Prop := ∀ name p, fetch name = inr p → Name p = name.

Lemma ascend_ends fuel visited rs r :
  fetchesByName → ascent rs r → NoDup (Name <$> rs) → (Z.of_nat (length rs) ≤ Z.max 1 maxDepth)%Z →
  visited = list_to_set (Name <$> rs) → (0 < fuel)%nat → (maxDepth < Z.of_nat (length rs + fuel))%Z →
  ∃ rs' r' s, ends rs' r' s ∧ ascend fetch maxDepth fuel visited (Name <$> rs) (Spec <$> rs) r = walkAnswer rs' r' s.
Proof.
  intros Hname. revert visited rs r. induction fuel as [|fuel IH]; intros visited rs r Hasc Hnd Hlen -> Hfuel Hmax; [lia|].
  simpl. destruct (decide (ParentName r = "")) as [Hroot|Hroot]; [by exists rs, r, AtRoot|].
  rewrite length_fmap. destruct (decide (maxDepth ≤ Z.of_nat (length rs))%Z) as [Hd|Hd].
  { by exists rs, r, TooDeep. }
  destruct (decide (ParentName r ∈ _)) as [Hc|Hc].
  { rewrite elem_of_list_to_set in Hc. exists rs, r, Cyclic. split; [|done]. unfold ends, stopsFor. split_and!; try done; lia. }
  rewrite elem_of_list_to_set in Hc.
  destruct (fetch (ParentName r)) as [[|e]|p] eqn:Hf.
  - exists rs, r, Missing. split; [|done]. unfold ends, stopsFor. split_and!; try done; lia.
  - exists rs, r, (Unreadable e). split; [|done]. unfold ends, stopsFor. split_and!; try done; lia.
  - pose proof (Hname _ _ Hf) as Hp.
    replace ((Name <$> rs) ++ [Name p]) with (Name <$> (rs ++ [p])) by (by rewrite fmap_app).
    replace ((Spec <$> rs) ++ [Spec p]) with (Spec <$> (rs ++ [p])) by (by rewrite fmap_app).
    assert (0 < length rs)%nat by (by eapply ascent_length).
    apply IH.
    + by apply (ascent_up rs r p).
    + rewrite fmap_app. apply NoDup_app. split_and!; [done| |apply NoDup_singleton].
      intros x Hx ->%list_elem_of_singleton. by rewrite Hp in Hx.
    + rewrite length_app. simpl. lia.
    + rewrite fmap_app, list_to_set_app_L. simpl. set_solver.
    + lia.
    + rewrite length_app. simpl. lia.
Qed.

Lemma ascent_det rs1 r1 rs2 r2 : ascent rs1 r1 → ascent rs2 r2 → length rs1 = length rs2 → rs1 = rs2 ∧ r1 = r2.
Proof.
  intros H1. revert rs2 r2. induction H1 as [|rs r p H1 IH Hp Hf]; intros rs2 r2 H2 Hlen.
  - destruct H2 as [|rs r p H2 _ _]; [done|]. apply ascent_length in H2. rewrite length_app in Hlen. simpl in *. lia.
  - rewrite length_app in Hlen. simpl in Hlen. destruct H2 as [|rs' r' p' H2 Hp' Hf'].
    { apply ascent_length in H1. simpl in Hlen. lia. }
    rewrite length_app in Hlen. simpl in Hlen. destruct (IH rs' r' H2) as [<- <-]; [lia|].
    rewrite Hf in Hf'. by injection Hf' as <-.
Qed.

(** An ascent that goes on where another stops reads that one's parent next. *)
Lemma ascent_continues rs1 r1 rs2 r2 :
  ascent rs1 r1 → ascent rs2 r2 → (length rs1 < length rs2)%nat →
  ParentName r1 ≠ "" ∧ ∃ p, fetch (ParentName r1) = inr p ∧ (rs1 ++ [p]) `prefix_of` rs2.
Proof.
  intros H1 H2. induction H2 as [|rs r p H2 IH Hp Hf]; intros Hlen.
  { apply ascent_length in H1. simpl in Hlen. lia. }
  rewrite length_app in Hlen. simpl in Hlen. destruct (decide (length rs1 = length rs)) as [Heq|Hne].
  - destruct (ascent_det _ _ _ _ H1 H2 Heq) as [-> ->]. split; [done|]. by exists p.
  - destruct IH as [? (q & ? & Hpre)]; [lia|]. split; [done|]. exists q. split; [done|]. by apply prefix_app_r.
Qed.

Lemma ends_first rs1 r1 s1 rs2 r2 s2 :
  fetchesByName → ends rs1 r1 s1 → ends rs2 r2 s2 → (length rs2 ≤ length rs1)%nat.
Proof.
  intros Hname (Ha1 & Hn1 & Hl1 & Hs1) (Ha2 & Hn2 & Hl2 & Hs2).
  destruct (decide (length rs2 ≤ length rs1)%nat) as [|Hlt]; [done|]. exfalso.
  destruct (ascent_continues _ _ _ _ Ha1 Ha2) as (Hp & p & Hf & [k ->]); [lia|].
  rewrite length_app, length_app in Hl2. simpl in Hl2. pose proof (ascent_length _ _ Ha1).
  rewrite !fmap_app, NoDup_app in Hn2. destruct Hn2 as [[_ [Hdup _]]%NoDup_app _].
  destruct s1; simpl in Hs1.
  - done.
  - lia.
  - destruct Hs1 as (_ & _ & Hc). apply (Hdup _ Hc), list_elem_of_singleton. symmetry. by apply Hname.
  - destruct Hs1 as (_ & _ & _ & Hm). congruence.
  - destruct Hs1 as (_ & _ & _ & Hm). congruence.
Qed.

(** There is one place and one reason an ascent ends. *)
Lemma ends_unique rs1 r1 s1 rs2 r2 s2 :
  fetchesByName → ends rs1 r1 s1 → ends rs2 r2 s2 → rs1 = rs2 ∧ r1 = r2 ∧ s1 = s2.
Proof.
  intros Hname H1 H2.
  assert (length rs1 = length rs2) as Hlen.
  { apply Nat.le_antisymm; eapply ends_first; eauto. }
  destruct H1 as (Ha1 & _ & _ & Hs1), H2 as (Ha2 & _ & _ & Hs2).
  destruct (ascent_det _ _ _ _ Ha1 Ha2 Hlen) as [<- <-]. split_and!; [done..|].
  destruct s1, s2; simpl in Hs1, Hs2; try done; try (destruct_and?; (done || lia || congruence)).
Qed.

Lemma ascend_start : fetchesByName →
  ∃ rs r s, ends rs r s ∧ ascend fetch maxDepth (S (Z.to_nat maxDepth)) {[Name start]} [Name start] [Spec start] start
                          = walkAnswer rs r s.
Proof.
  intros Hname.
  apply (ascend_ends _ _ [start] start); simpl; [done|constructor|apply NoDup_singleton|lia|set_solver|lia|lia].
Qed.

Lemma resolve_answer rs r s :
  ascent rs r →
  ascend fetch maxDepth (S (Z.to_nat maxDepth)) {[Name start]} [Name start] [Spec start] start = walkAnswer rs r s →
  Resolve (Some start) fetch maxDepth = answerOf rs r s.
Proof.
  intros Ha Hc. unfold Resolve. rewrite Hc. destruct s; try done. unfold walkAnswer, answerOf. cbn [obind].
  rewrite <-!fmap_reverse. apply ascent_length in Ha. rewrite <-(length_reverse rs) in Ha.
  destruct (reverse rs) as [|r0 rest]; [simpl in Ha; lia|]. rewrite !fmap_cons. cbn [tail mergeLineage].
  assert (zip (Name <$> rest) (Spec <$> rest) = (λ r, (Name r, Spec r)) <$> rest) as ->; [|done].
  clear. induction rest; [done|]. rewrite !fmap_cons. simpl. by f_equal.
Qed.
End ascent.

(** C6: What resolving a runtime answers, on every branch.  Through a fetcher
    that answers with the runtime it was asked for, and for any depth limit,
    [Resolve] returns exactly the answer of the one ascent there is: the specs
    merged root first with the names from the root down when it reaches a runtime
    without a parent, or the error of the first obstacle on the way: more than the
    allowed depth, a parent already on the way, a parent that is missing or that
    cannot be read, or a failed merge.  No input makes it loop or panic. *)
Theorem Resolve_exact {T B E : Type} `{!MergeLib T B E} (fetch : string → readError E + RuntimeRef T) (maxDepth : Z)
    (start : RuntimeRef T) (answer : outcome (resolveError E) (option T * list string)) :
  fetchesByName fetch →
  Resolve (Some start) fetch maxDepth = answer ↔
  ∃ rs r s, ends fetch maxDepth start rs r s ∧ answer = answerOf maxDepth rs r s.
Proof.
  intros Hname. destruct (ascend_start fetch maxDepth start Hname) as (rs & r & s & Hends & Hclimb).
  assert (Resolve (Some start) fetch maxDepth = answerOf maxDepth rs r s) as Hres
    by (apply (resolve_answer fetch); [apply Hends|done]).
  split; [intros <-; by exists rs, r, s|].
  intros (rs' & r' & s' & Hends' & ->).
  by destruct (ends_unique fetch maxDepth start _ _ _ _ _ _ Hname Hends Hends') as (<- & <- & <-).
Qed.

(** Specs that are documents, merged member by member: a simple patch to
    compute with. *)
Definition overlay (parent child : json) : json :=
  match parent, child with
  | JObject p, JObject c => JObject (c ++ filter (λ kv, kv.1 ∉ c.*1) p)
  | _, _ => child
  end.
#[export] Instance documents : MergeLib json json unit := {|
  Marshal := inr; UnmarshalAny := inr; MarshalAny := inr;
  StrategicMergePatch p c := inr (overlay p c); Unmarshal := inr;
|}.

Definition sampleBase : RuntimeRef json := mkRef "base" (Some (JObject [("image", JString "v1"); ("port", JNumber "80")])) "".
Definition sampleTeam : RuntimeRef json := mkRef "team" (Some (JObject [("image", JString "v2"); ("port", JNull)])) "base".
Definition sampleFetch (name : string) : readError unit + RuntimeRef json :=
  if decide (name = "base") then inr sampleBase
  else if decide (name = "team") then inr sampleTeam
  else if decide (name = "loop") then inr (mkRef "loop" None "loop")
  else inl NotFound.

Lemma sampleFetch_byName : fetchesByName sampleFetch.
Proof. intros name p. unfold sampleFetch. repeat case_decide; by intros [= <-]. Qed.

Lemma Resolve_exact_witness :
  Resolve (Some sampleTeam) sampleFetch 5
  = Ok (Some (JObject [("image", JString "v2"); ("port", JNumber "80")]), ["base"; "team"])
  ∧ (∃ rs r s, ends sampleFetch 5 (mkRef "loop" None "loop") rs r s
               ∧ Err (CycleError ["loop"; "loop"]) = answerOf 5 rs r s).
Proof.
  split; [vm_compute; reflexivity|].
  apply (Resolve_exact sampleFetch 5 (mkRef "loop" None "loop")); [exact sampleFetch_byName|]. vm_compute. reflexivity.
Defined.
