(* ===== verification/RuntimeDescendants.v ===== *)
(** * Who inherits from a runtime

    The runtimes [Descendants] returns, against the cluster the reader reads: they
    are exactly those that the inherit-from names lead to within scope, each
    once; and which runtimes that resolve through the root they cover. *)

From S2P Require Import Prelude RuntimeInheritance RuntimeFacts.

(** ** The cluster *)

Record RuntimeFleet (T : Type) := mkRuntimeFleet { csrs : gmap string (Runtime T); srs : gmap NamespacedName (Runtime T) }.
Arguments mkRuntimeFleet {_} _ _.
Arguments csrs {_} _.
Arguments srs {_} _.

(** An object is stored under its name, a namespaced one in a namespace. *)
Definition namedByKey {T} (W : RuntimeFleet T) : Prop :=
  map_Forall (λ n r, RName r = n) (csrs W) ∧ map_Forall (λ k r, RName r = NName k ∧ NNamespace k ≠ "") (srs W).

Definition inScope (scope : option string) (k : NamespacedName) : Prop :=
  match scope with None => True | Some ns => NNamespace k = ns end.
#[export] Instance inScope_dec scope k : Decision (inScope scope k).
Proof. destruct scope; unfold inScope; apply _. Defined.

(** A reader of that cluster: a read that succeeds returns the object, a read
    that finds none says there is none, a list returns every object in its scope
    once; any call may fail. *)
Class ReaderLaws {T E : Type} `{!Reader T E} (W : RuntimeFleet T) : Prop := {
  reader_named : namedByKey W;
  get_sr k r : GetServingRuntime k = inr r → srs W !! k = Some r;
  get_sr_missing k : GetServingRuntime k = inl NotFound → srs W !! k = None;
  get_csr n r : GetClusterServingRuntime n = inr r → csrs W !! n = Some r;
  list_csr l : ListClusterServingRuntimes = inr l → l ≡ₚ (map_to_list (csrs W)).*2;
  list_sr scope l : ListServingRuntimes scope = inr l →
    l ≡ₚ (λ kr, (NNamespace kr.1, kr.2)) <$> filter (λ kr, inScope scope kr.1) (map_to_list (srs W));
}.

(** The runtime of an identity; the empty namespace is cluster scope. *)
Definition runtimeAt {T} (W : RuntimeFleet T) (x : NamespacedName) : option (Runtime T) :=
  if decide (NNamespace x = "") then csrs W !! NName x else srs W !! x.

(** [x] names the parent [name]. *)
Definition declares {T} (W : RuntimeFleet T) (x : NamespacedName) (name : string) : Prop :=
  name ≠ "" ∧ ∃ r, runtimeAt W x = Some r ∧ InheritFrom r = name.

(** [child] names [parent] and is in a scope [parent] may be inherited from. *)
Definition inheritsByName {T} (W : RuntimeFleet T) (parent child : NamespacedName) : Prop :=
  declares W child (NName parent) ∧ (NNamespace parent = "" ∨ NNamespace child = NNamespace parent).

(** ** The index *)

Section index.
Context {T E : Type} `{!Reader T E} (W : RuntimeFleet T) `{!ReaderLaws W}.

Lemma addChild_spec m parent child p x :
  x ∈ default [] (addChild m parent child !! p) ↔ x ∈ default [] (m !! p) ∨ (p = parent ∧ parent ≠ "" ∧ x = child).
Proof.
  unfold addChild. case_decide as Hp; [naive_solver|]. destruct (decide (p = parent)) as [->|Hne].
  - rewrite lookup_insert_eq. simpl. rewrite elem_of_snoc. naive_solver.
  - rewrite lookup_insert_ne by done. naive_solver.
Qed.

Lemma foldl_addChild {A} (parent : A → string) (child : A → NamespacedName) (l : list A) m p x :
  x ∈ default [] (foldl (λ m a, addChild m (parent a) (child a)) m l !! p) ↔
  x ∈ default [] (m !! p) ∨ ∃ a, a ∈ l ∧ parent a = p ∧ p ≠ "" ∧ x = child a.
Proof.
  revert m. induction l as [|a l IH]; intros m; simpl.
  { split; [by left|]. intros [?|(a & ?%elem_of_nil & _)]; done. }
  rewrite IH, addChild_spec. setoid_rewrite elem_of_cons. naive_solver.
Qed.

(** The index holds, under a name, the runtimes that declare it as far as the
    root can reach them. *)
Lemma childrenByParentName_spec root m p x :
  childrenByParentName root = inr m →
  x ∈ default [] (m !! p) ↔ declares W x p ∧ (NNamespace root = "" ∨ NNamespace x = NNamespace root).
Proof.
  unfold childrenByParentName. destruct reader_named as [Hcn Hsn]. intros Hm.
  destruct (if decide (NNamespace root = "") then _ else _) as [e|cl] eqn:Hcl; [done|].
  destruct (ListServingRuntimes _) as [e|sl] eqn:Hsl; [done|]. injection Hm as <-.
  rewrite !foldl_addChild, lookup_empty. simpl.
  assert ((∃ r, r ∈ cl ∧ InheritFrom r = p ∧ p ≠ "" ∧ x = mkName "" (RName r)) ↔
          NNamespace x = "" ∧ NNamespace root = "" ∧ declares W x p) as ->.
  { unfold declares, runtimeAt. case_decide as Hroot.
    - apply list_csr in Hcl. setoid_rewrite Hcl. split.
      + intros (r & ([n r'] & -> & Hin%elem_of_map_to_list)%list_elem_of_fmap & Hi & Hp & ->). simpl in *.
        split_and!; [done..|]. exists r'. pose proof (Hcn _ _ Hin). simpl in *. by subst.
      + intros (Hx & _ & Hp & r & Hr & Hi). rewrite decide_True in Hr by done. exists r. split_and!; [|done..|].
        * apply list_elem_of_fmap. exists (NName x, r). split; [done|]. by apply elem_of_map_to_list.
        * apply Hcn in Hr as ->. destruct x. simpl in *. by subst.
    - injection Hcl as <-. split; [intros (? & ?%elem_of_nil & _); done|]. naive_solver. }
  assert ((∃ sr, sr ∈ sl ∧ InheritFrom sr.2 = p ∧ p ≠ "" ∧ x = mkName sr.1 (RName sr.2)) ↔
          NNamespace x ≠ "" ∧ (NNamespace root = "" ∨ NNamespace x = NNamespace root) ∧ declares W x p) as ->.
  { apply list_sr in Hsl. setoid_rewrite Hsl. unfold declares, runtimeAt. split.
    - intros (sr & ([k r] & -> & [Hs Hin%elem_of_map_to_list]%list_elem_of_filter)%list_elem_of_fmap & Hi & Hp & ->).
      simpl in *. destruct (Hsn _ _ Hin) as [Hname Hns]. rewrite Hname. destruct k as [ns n]. simpl in *.
      rewrite decide_False by done. split_and!; [done| |done|by exists r].
      revert Hs. case_decide; simpl; auto.
    - intros (Hx & Hsc & Hp & r & Hr & Hi). rewrite decide_False in Hr by done.
      exists (NNamespace x, r). destruct (Hsn _ _ Hr) as [Hname _]. split_and!; [|done..|].
      + apply list_elem_of_fmap. exists (x, r). split; [done|]. apply list_elem_of_filter.
        split; [|by apply elem_of_map_to_list]. case_decide; simpl; [done|]. by destruct Hsc.
      + simpl. rewrite Hname. by destruct x. }
  split.
  - intros [[?%elem_of_nil|(? & ? & ?)]|(? & ? & ?)]; [done|split; [done|by left]|done].
  - intros [Hd Hsc]. destruct (decide (NNamespace x = "")) as [Hx|Hx].
    + left. right. split_and!; [done| |done]. destruct Hsc; congruence.
    + right. done.
Qed.
End index.

(** ** The traversal *)

Section traversal.
Context (m : gmap string (list NamespacedName)) (root : NamespacedName).

Definition allowed (current x : NamespacedName) : Prop := NNamespace current = "" ∨ NNamespace x = NNamespace current.

(** The edges the traversal follows. *)
Definition child (current x : NamespacedName) : Prop := x ∈ default [] (m !! NName current) ∧ allowed current x.

(** Every runtime the index mentions. *)
Definition mentioned : gset NamespacedName := list_to_set (concat (map_to_list m).*2).

Lemma child_indexed x y : child x y → y ∈ mentioned.
Proof.
  intros [Hy _]. apply elem_of_list_to_set, list_elem_of_In, in_concat.
  destruct (m !! NName x) as [l|] eqn:Hl; simpl in Hy; [|by apply elem_of_nil in Hy].
  exists l. split; apply list_elem_of_In; [|done]. apply list_elem_of_fmap. exists (NName x, l).
  split; [done|]. by apply elem_of_map_to_list.
Qed.

(** Visiting the children of a runtime queues exactly the new ones, once. *)
Lemma visit_children current cs f :
  ∃ new, let f' := foldl (enqueueChild current) f cs in
    queue f' = queue f ++ new ∧ found f' = found f ++ new ∧ NoDup new
    ∧ (∀ x, x ∈ seen f' ↔ x ∈ seen f ∨ x ∈ new)
    ∧ (∀ x, x ∈ new ↔ x ∈ cs ∧ allowed current x ∧ x ∉ seen f).
Proof.
  revert f. induction cs as [|c cs IH]; intros f; simpl.
  { exists []. rewrite !app_nil_r. split_and!; [done..|constructor| |]; intros x.
    - split; [by left|]. intros [?|?%elem_of_nil]; done.
    - split; [intros ?%elem_of_nil; done|]. by intros [?%elem_of_nil _]. }
  destruct (decide (NNamespace current ≠ "" ∧ NNamespace c ≠ NNamespace current)) as [Hno|Hok].
  { assert (enqueueChild current f c = f) as -> by (unfold enqueueChild; by rewrite decide_True).
    destruct (IH f) as (new & H1 & H2 & H3 & H4 & H5). exists new. split_and!; [done..|].
    intros x. rewrite H5, elem_of_cons. unfold allowed. split; [naive_solver|].
    intros ([->|?] & Ha & ?); [|done]. destruct Hno. by destruct Ha. }
  assert (allowed current c) as Hal.
  { unfold allowed. destruct (decide (NNamespace current = "")); [by left|]. right.
    destruct (decide (NNamespace c = NNamespace current)); [done|]. by destruct Hok. }
  destruct (decide (c ∈ seen f)) as [Hseen|Hnew].
  { assert (enqueueChild current f c = f) as -> by (unfold enqueueChild; by rewrite decide_False, decide_True).
    destruct (IH f) as (new & H1 & H2 & H3 & H4 & H5). exists new. split_and!; [done..|].
    intros x. rewrite H5, elem_of_cons. split; [naive_solver|]. intros ([->|?] & ? & ?); done. }
  assert (enqueueChild current f c = mkFrontier (seen f ∪ {[c]}) (queue f ++ [c]) (found f ++ [c])) as ->
    by (unfold enqueueChild; by rewrite !decide_False).
  destruct (IH (mkFrontier (seen f ∪ {[c]}) (queue f ++ [c]) (found f ++ [c]))) as (new & H1 & H2 & H3 & H4 & H5).
  simpl in *. exists (c :: new). rewrite H1, H2, <-!app_assoc. split_and!; [done..| | |].
  - constructor; [|done]. rewrite H5. set_solver.
  - intros x. rewrite H4, elem_of_union, elem_of_singleton, elem_of_cons. tauto.
  - intros x. rewrite !elem_of_cons, H5, not_elem_of_union, not_elem_of_singleton.
    destruct (decide (x = c)) as [->|Hxc]; [tauto|]. unfold allowed. tauto.
Qed.

(** What the loop keeps true: the seen runtimes are the root and those found,
    each found once and reachable, and a runtime that is off the queue has all its
    children seen. *)
Record explored (f : frontier) : Prop := {
  ex_seen : ∀ x, x ∈ seen f ↔ x = root ∨ x ∈ found f;
  ex_once : NoDup (found f);
  ex_root : root ∉ found f;
  ex_reach : ∀ x, x ∈ found f → rtc child root x;
  ex_queue : ∀ x, x ∈ queue f → x ∈ seen f;
  ex_closed : ∀ x y, x ∈ seen f → (x ∉ queue f) → child x y → y ∈ seen f;
}.

Lemma explored_step f current rest :
  explored f → queue f = current :: rest →
  let f' := foldl (enqueueChild current) (mkFrontier (seen f) rest (found f)) (default [] (m !! NName current)) in
  explored f' ∧ (size (mentioned ∖ seen f') + length (queue f') < size (mentioned ∖ seen f) + length (queue f))%nat.
Proof.
  intros [Hs Ho Hr Hre Hq Hc] Hqueue.
  destruct (visit_children current (default [] (m !! NName current)) (mkFrontier (seen f) rest (found f)))
    as (new & H1 & H2 & H3 & H4 & H5).
  set (f' := foldl _ _ _) in *. clearbody f'. simpl in *.
  assert (current ∈ seen f) as Hcur by (apply Hq; rewrite Hqueue; left).
  assert (rtc child root current) as Hcr.
  { apply Hs in Hcur as [->|?]; [apply rtc_refl|by apply Hre]. }
  split; [split|].
  - intros x. rewrite H4, H2, elem_of_app, Hs. tauto.
  - rewrite H2. apply NoDup_app. split_and!; [done| |done]. intros x Hx Hn.
    apply H5 in Hn as (_ & _ & Hn). apply Hn, Hs. by right.
  - rewrite H2, not_elem_of_app. split; [done|]. intros (_ & _ & Hn)%H5. apply Hn, Hs. by left.
  - intros x. rewrite H2, elem_of_app. intros [?|(Hx & Ha & _)%H5]; [by apply Hre|].
    eapply rtc_r; [exact Hcr|]. split; done.
  - intros x. rewrite H1, H4, elem_of_app. intros [?|?]; [|by right]. left. apply Hq. rewrite Hqueue. by right.
  - intros x y Hx Hnq Hxy. apply H4. rewrite H1, not_elem_of_app in Hnq. destruct Hnq as [Hnr Hnn].
    apply H4 in Hx as [Hx|?]; [|done]. destruct (decide (y ∈ seen f)) as [|Hny]; [by left|]. right.
    destruct (decide (x = current)) as [->|Hne].
    + apply H5. destruct Hxy. done.
    + exfalso. apply Hny, (Hc x y); [done| |done]. rewrite Hqueue, not_elem_of_cons. done.
  - rewrite H1, Hqueue, length_app. simpl.
    assert (mentioned ∖ seen f = (mentioned ∖ seen f') ∪ list_to_set new) as ->.
    { apply set_eq. intros x. rewrite elem_of_union, !elem_of_difference, elem_of_list_to_set, H4.
      destruct (decide (x ∈ new)) as [Hn|Hn]; [|tauto].
      pose proof Hn as Hn'. apply H5 in Hn' as (Hd & Ha & Hns).
      assert (x ∈ mentioned) by (by apply (child_indexed current)). tauto. }
    rewrite (size_union (mentioned ∖ seen f') (list_to_set new)).
    2: { intros x [_ Hx]%elem_of_difference Hn%elem_of_list_to_set. apply Hx, H4. by right. }
    rewrite (size_list_to_set (C := gset NamespacedName)) by done. lia.
Qed.

(** With the queue empty, everything reachable was found. *)
Lemma explored_all f :
  explored f → queue f = [] → NoDup (found f) ∧ ∀ x, x ∈ found f ↔ x ≠ root ∧ rtc child root x.
Proof.
  intros [Hs Ho Hr Hre _ Hc] Hq. split; [done|]. intros x. split.
  - intros Hx. split; [by intros ->|by apply Hre].
  - intros [Hne Hx]. assert (∀ a, a ∈ seen f → rtc child a x → x ∈ seen f) as Hclosed.
    { intros a Ha Hax. induction Hax as [|y z w Hyz Hzw IH]; [done|]. apply IH; [done..|].
      apply (Hc y z); [done| |done]. rewrite Hq. apply not_elem_of_nil. }
    specialize (Hclosed root (proj2 (Hs root) (or_introl eq_refl)) Hx). by apply Hs in Hclosed as [?|?].
Qed.

Lemma explore_exact fuel f :
  explored f → (size (mentioned ∖ seen f) + length (queue f) ≤ fuel)%nat →
  ∃ out, explore m fuel f = Some out ∧ NoDup out ∧ ∀ x, x ∈ out ↔ x ≠ root ∧ rtc child root x.
Proof.
  revert f. induction fuel as [|fuel IH]; intros f He Hfuel; simpl; destruct (queue f) as [|current rest] eqn:Hq.
  - exists (found f). split; [done|]. by apply explored_all.
  - simpl in Hfuel. lia.
  - exists (found f). split; [done|]. by apply explored_all.
  - destruct (explored_step f current rest He Hq) as [He' Hlt]. apply IH; [done|]. rewrite Hq in Hlt. simpl in *. lia.
Qed.
End traversal.

(** ** Against the cluster *)

(** The view a resolver has of a runtime of either scope. *)
Definition resolverView {T} (r : Runtime T) : RuntimeRef T := mkRef (RName r) (Some (RSpec r)) (InheritFrom r).

(** The runtime a parent's name stands for when a runtime of the namespace is
    resolved: the namespace's own before the cluster's. *)
Definition parentIn {T} (W : RuntimeFleet T) (ns name : string) : NamespacedName :=
  if decide (ns ≠ "" ∧ is_Some (srs W !! mkName ns name)) then mkName ns name else mkName "" name.

(** Resolving a runtime of the namespace goes from [a] to its parent [b]. *)
Definition reads {T} (W : RuntimeFleet T) (ns : string) (a b : NamespacedName) : Prop :=
  ∃ r, runtimeAt W a = Some r ∧ InheritFrom r ≠ "" ∧ b = parentIn W ns (InheritFrom r) ∧ is_Some (runtimeAt W b).

(** ... and does not come back from cluster scope into the namespace. *)
Definition readsInScope {T} (W : RuntimeFleet T) (ns : string) (a b : NamespacedName) : Prop :=
  reads W ns a b ∧ (NNamespace a = "" → NNamespace b = "").

Definition fetcherFor {T E} `{!Reader T E} (ns : string) : string → readError E + RuntimeRef T :=
  if decide (ns = "") then ClusterRuntimeFetcher else NamespacedRuntimeFetcher ns.

Section cluster.
Context {T E : Type} `{!Reader T E} (W : RuntimeFleet T) `{!ReaderLaws W}.

Lemma child_iff root m a x :
  childrenByParentName root = inr m →
  child m a x ↔ inheritsByName W a x ∧ (NNamespace root = "" ∨ NNamespace x = NNamespace root).
Proof.
  intros Hm. unfold child, inheritsByName, allowed. rewrite (childrenByParentName_spec W root m _ _ Hm). tauto.
Qed.

(** The scope a root lists is all its descendants can be in. *)
Lemma reachable_iff root m x :
  childrenByParentName root = inr m → rtc (child m) root x ↔ rtc (inheritsByName W) root x.
Proof.
  intros Hm. split.
  - intros Hrx. apply (rtc_subrel (child m)); [|done]. intros a b Hab. by apply (child_iff root m) in Hab as [? _].
  - assert (∀ a, NNamespace root = "" ∨ NNamespace a = NNamespace root → rtc (inheritsByName W) a x → rtc (child m) a x) as H.
    { intros a Ha Hax. induction Hax as [|a b c Hab _ IH]; [apply rtc_refl|].
      assert (NNamespace root = "" ∨ NNamespace b = NNamespace root) as Hb.
      { destruct Ha as [|Ha]; [by left|]. destruct Hab as [_ [Hab|Hab]]; [left; congruence|right; congruence]. }
      eapply rtc_l; [|by apply IH]. by apply (child_iff root m). }
    apply H. by right.
Qed.

Lemma Descendants_spec root :
  match Descendants root with
  | inl e => (NNamespace root = "" ∧ ListClusterServingRuntimes = inl e) ∨ ∃ scope, ListServingRuntimes scope = inl e
  | inr None => False
  | inr (Some out) => NoDup out ∧ ∀ x, x ∈ out ↔ x ≠ root ∧ rtc (inheritsByName W) root x
  end.
Proof.
  unfold Descendants. destruct (childrenByParentName root) as [e|m] eqn:Hm.
  - unfold childrenByParentName in Hm. case_decide as Hr.
    + destruct ListClusterServingRuntimes as [e'|]; [injection Hm as <-; by left|].
      destruct (ListServingRuntimes None) as [e'|] eqn:Hl; [|done]. injection Hm as <-. right. by exists None.
    + destruct (ListServingRuntimes (Some (NNamespace root))) as [e'|] eqn:Hl; [|done]. injection Hm as <-.
      right. by exists (Some (NNamespace root)).
  - destruct (explore_exact m root (S (length (concat (map_to_list m).*2))) (mkFrontier {[root]} [root] []))
      as (out & -> & Hnd & Hout).
    + split; simpl.
      * intros x. rewrite elem_of_singleton. split; [by left|]. intros [?|?%elem_of_nil]; done.
      * constructor.
      * apply not_elem_of_nil.
      * by intros x ?%elem_of_nil.
      * intros x ->%list_elem_of_singleton. set_solver.
      * intros x y ->%elem_of_singleton Hn. by destruct Hn; left.
    + simpl. assert (size (mentioned m ∖ {[root]}) ≤ size (mentioned m))%nat by (apply subseteq_size; set_solver).
      assert (size (mentioned m) ≤ length (concat (map_to_list m).*2))%nat; [|lia].
      unfold mentioned. induction (concat (map_to_list m).*2) as [|a l IH]; [done|].
      simpl. rewrite size_union_alt, size_singleton.
      assert (size (list_to_set l ∖ {[a]} : gset NamespacedName) ≤ size (list_to_set l : gset NamespacedName))%nat
        by (apply subseteq_size; set_solver). lia.
    + split; [done|]. intros x. rewrite Hout. by rewrite (reachable_iff root m x Hm).
Qed.

(** What a fetcher answers is the runtime its parent's name stands for. *)
Lemma fetcher_reads ns name p :
  fetcherFor ns name = inr p → ∃ r, runtimeAt W (parentIn W ns name) = Some r ∧ p = resolverView r.
Proof.
  unfold fetcherFor, parentIn, runtimeAt. destruct (decide (ns = "")) as [->|Hns].
  - rewrite (decide_False (P := "" ≠ "" ∧ _)) by naive_solver. simpl.
    unfold ClusterRuntimeFetcher, fetchClusterRuntime.
    destruct (GetClusterServingRuntime name) as [|r] eqn:Hr; intros [= <-]. exists r. split; [by apply get_csr|done].
  - unfold NamespacedRuntimeFetcher. destruct (GetServingRuntime (mkName ns name)) as [[|e]|r] eqn:Hr; [|done|].
    + apply get_sr_missing in Hr. rewrite (decide_False (P := ns ≠ "" ∧ _)) by (rewrite Hr; intros [_ [? ?]]; done).
      simpl. unfold fetchClusterRuntime.
      destruct (GetClusterServingRuntime name) as [|r] eqn:Hc; intros [= <-]. exists r. split; [by apply get_csr|done].
    + intros [= <-]. apply get_sr in Hr. rewrite (decide_True (P := ns ≠ "" ∧ _)) by (rewrite Hr; split; [done|by eexists]).
      simpl. rewrite decide_False by done. by exists r.
Qed.

Lemma ascent_reads x rx rs r :
  runtimeAt W x = Some rx → ascent (fetcherFor (NNamespace x)) (resolverView rx) rs r →
  ∃ y ry, rtc (reads W (NNamespace x)) x y ∧ runtimeAt W y = Some ry ∧ r = resolverView ry.
Proof.
  intros Hx. induction 1 as [|rs r p _ (y & ry & Hxy & Hy & ->) Hp Hf].
  - exists x, rx. split; [apply rtc_refl|done].
  - apply fetcher_reads in Hf as (rp & Hrp & ->). exists (parentIn W (NNamespace x) (InheritFrom ry)), rp.
    split_and!; [|done..]. eapply rtc_r; [exact Hxy|]. exists ry. split_and!; [done..|by eexists].
Qed.

Lemma parentIn_cases ns name :
  NName (parentIn W ns name) = name ∧ (NNamespace (parentIn W ns name) = "" ∨ NNamespace (parentIn W ns name) = ns).
Proof. unfold parentIn. case_decide; simpl; auto. Qed.

(** Read in scope, a chain of parents is a path of names back down. *)
Lemma reads_back ns x y :
  NNamespace x = "" ∨ NNamespace x = ns → rtc (readsInScope W ns) x y → rtc (inheritsByName W) y x.
Proof.
  intros Hx Hxy. induction Hxy as [|a b c [(r & Ha & Hi & -> & _) Hs] _ IH]; [apply rtc_refl|].
  destruct (parentIn_cases ns (InheritFrom r)) as [Hn Hns].
  eapply rtc_r; [by apply IH|]. split.
  - rewrite Hn. split; [done|]. by exists r.
  - destruct Hns as [?|Hb]; [by left|]. destruct Hx as [Ha'|Ha']; [left; by apply Hs|right; congruence].
Qed.
End cluster.

(** A reader of a cluster that is in memory. *)
Definition fleetReader {T} (W : RuntimeFleet T) : Reader T unit := {|
  GetServingRuntime k := match srs W !! k with Some r => inr r | None => inl NotFound end;
  GetClusterServingRuntime n := match csrs W !! n with Some r => inr r | None => inl NotFound end;
  ListClusterServingRuntimes := inr (map_to_list (csrs W)).*2;
  ListServingRuntimes scope :=
    inr ((λ kr, (NNamespace kr.1, kr.2)) <$> filter (λ kr, inScope scope kr.1) (map_to_list (srs W)));
|}.

Lemma fleetReader_laws {T} (W : RuntimeFleet T) : namedByKey W → ReaderLaws (Reader0 := fleetReader W) W.
Proof.
  intros HW. split; [done|..]; simpl.
  - intros k r. by destruct (srs W !! k) eqn:H; intros [= <-].
  - intros k. by destruct (srs W !! k).
  - intros n r. by destruct (csrs W !! n) eqn:H; intros [= <-].
  - by intros l [= <-].
  - by intros scope l [= <-].
Qed.

Definition sampleRuntime (name parent : string) : string * Runtime unit := (name, mkRuntime name () parent).
Definition sampleFleet : RuntimeFleet unit :=
  mkRuntimeFleet (list_to_map [sampleRuntime "base" ""; sampleRuntime "a" "base"; sampleRuntime "b" "a"])
          {[mkName "t" "x" := mkRuntime "x" () "b"; mkName "t" "y" := mkRuntime "y" () "x"]}.

(** A runtime can resolve through another without being among its descendants: in
    the namespace [t] the runtime [x] inherits from the cluster's [a], which names
    [b]; resolving [x] reads the [b] of the namespace, which shadows the
    cluster's, and an edit of it is not told to [x]. *)
Lemma Descendants_misses_shadowed :
  let W := mkRuntimeFleet (list_to_map [sampleRuntime "a" "b"; sampleRuntime "b" ""])
                   {[mkName "t" "x" := mkRuntime "x" () "a"; mkName "t" "b" := mkRuntime "b" () ""]} in
  let R := fleetReader W in
  ReaderLaws W ∧ ∃ rs r, ascent (fetcherFor "t") (mkRef "x" (Some ()) "a") rs r
    ∧ Name <$> rs = ["x"; "a"; "b"]
    ∧ rtc (reads W "t") (mkName "t" "x") (mkName "t" "b")
    ∧ Descendants (mkName "t" "b") = inr (Some []).
Proof.
  intros W R. split.
  { apply fleetReader_laws. unfold namedByKey. apply (bool_decide_unpack _). vm_compute. exact I. }
  exists [mkRef "x" (Some ()) "a"; mkRef "a" (Some ()) "b"; mkRef "b" (Some ()) ""], (mkRef "b" (Some ()) "").
  split_and!; [|done| |vm_compute; reflexivity].
  - apply (ascent_up _ _ [_; _] (mkRef "a" (Some ()) "b")); [|done|vm_compute; reflexivity].
    apply (ascent_up _ _ [_] (mkRef "x" (Some ()) "a")); [|done|vm_compute; reflexivity]. constructor.
  - apply (rtc_l _ _ (mkName "" "a")).
    + exists (mkRuntime "x" () "a"). split_and!; [done..|vm_compute; eauto].
    + apply rtc_once. exists (mkRuntime "a" () "b"). split_and!; [done..|vm_compute; eauto].
Qed.

(** C7: Whom an edit concerns.  Whatever calls of the reader fail, [Descendants]
    returns: the error of a list call, or every runtime that the inherit-from
    names lead to from the root within scope, each once and without the root,
    cycles or not.  Resolving any runtime through its fetcher reads only what
    [reads] says, and if those reads lead to the root without coming back from
    cluster scope into the namespace, the runtime is among the descendants.  That
    condition is needed: there is a cluster in which resolving a runtime reads the
    root and the root has no descendants. *)
Theorem Descendants_exact {T E : Type} `{!Reader T E} (W : RuntimeFleet T) (root : NamespacedName) :
  ReaderLaws W →
  match Descendants root with
  | inl e => (NNamespace root = "" ∧ ListClusterServingRuntimes = inl e) ∨ ∃ scope, ListServingRuntimes scope = inl e
  | inr None => False
  | inr (Some out) =>
      NoDup out
      ∧ (∀ x, x ∈ out ↔ x ≠ root ∧ rtc (inheritsByName W) root x)
      ∧ (∀ x, rtc (readsInScope W (NNamespace x)) x root → x ≠ root → x ∈ out)
  end
  ∧ (∀ x rx rs r, runtimeAt W x = Some rx → ascent (fetcherFor (NNamespace x)) (resolverView rx) rs r →
       ∃ y ry, rtc (reads W (NNamespace x)) x y ∧ runtimeAt W y = Some ry ∧ r = resolverView ry)
  ∧ (∃ (W' : RuntimeFleet unit) (R : Reader unit unit) root' x, ReaderLaws W'
       ∧ rtc (reads W' (NNamespace x)) x root' ∧ x ≠ root' ∧ Descendants root' = inr (Some [])).
Proof.
  intros HW. split_and!; [|intros x rx rs r; by apply ascent_reads|].
  2: { destruct Descendants_misses_shadowed as (HL & rs & r & _ & _ & Hr & Hd).
       eexists _, _, (mkName "t" "b"), (mkName "t" "x"). split_and!; [exact HL|exact Hr|done|exact Hd]. }
  pose proof (Descendants_spec W root) as H. destruct (Descendants root) as [e|[out|]]; [done| |done].
  destruct H as [Hnd Hout]. split_and!; [done..|]. intros x Hx Hne. apply Hout. split; [done|].
  apply (reads_back W (NNamespace x)); [by right|done].
Qed.

Lemma Descendants_exact_witness :
  namedByKey sampleFleet
  ∧ (let _ := fleetReader sampleFleet in Descendants (mkName "" "a"))
    = inr (Some [mkName "" "b"; mkName "t" "x"; mkName "t" "y"])
  ∧ rtc (inheritsByName sampleFleet) (mkName "" "a") (mkName "t" "y").
Proof.
  assert (namedByKey sampleFleet) as HW by (unfold namedByKey; apply (bool_decide_unpack _); vm_compute; exact I).
  split_and!; [done|vm_compute; reflexivity|].
  destruct (@Descendants_exact _ _ (fleetReader sampleFleet) sampleFleet (mkName "" "a") (fleetReader_laws _ HW)) as [H _].
  vm_compute (Descendants _) in H. destruct H as (_ & H & _). apply H. vm_compute. set_solver.
Defined.
