(* ===== verification/Affinity.v ===== *)
(** * Cluster affinity

    [pkg/placement/affinity/selector.go] with the types of
    [apis/ome/v1beta1/cluster_affinity_types.go]: a list of terms is compiled to a
    selector, which says of a cluster whether it matches and with what replica
    weight for a component.  The label selectors of the Kubernetes library are a
    parameter.  The theorems read the compiled selector against the terms. *)

From S2P Require Import Prelude.
Local Open Scope go_scope.
Local Open Scope Z_scope.

(** ** The API types *)

Definition MaxClusterAffinityTerms : nat := 64.
Definition MaxClusterSelectorRequirements : nat := 64.
Definition MaxClusterSelectorValues : nat := 64.

Definition EngineComponent : string := "engine".
Definition DecoderComponent : string := "decoder".
Definition RouterComponent : string := "router".

Record ClusterSelectorRequirement := mkRequirement { Key : string; Operator : string; Values : list string }.

Record ReplicaRatio := mkRatio { Min : option Z; Max : option Z }.
Definition MinOrOne (r : ReplicaRatio) : Z := default 1 (Min r).
Definition MaxOrOne (r : ReplicaRatio) : Z := default 1 (Max r).

Record ClusterAffinityWeights := mkWeights {
  Default : option Z; Engine : option Z; Decoder : option Z; Router : option Z;
  DefaultReplicas : option ReplicaRatio; EngineReplicas : option ReplicaRatio;
  DecoderReplicas : option ReplicaRatio; RouterReplicas : option ReplicaRatio;
}.

Record ClusterAffinityTerm := mkTerm {
  Weights : option ClusterAffinityWeights;
  MatchExpressions : list ClusterSelectorRequirement;
  MatchFields : list ClusterSelectorRequirement;
}.

(** A registered cluster: its name and labels. *)
Record WorkloadCluster := mkCluster { ClusterName : string; Labels : gmap string string }.

(** ** The label library *)

Inductive selectionOperator := OpIn | OpNotIn | OpExists | OpDoesNotExist | OpGreaterThan | OpLessThan.

(** [labels.Requirement] and [labels.Selector], and [IsDNS1123Subdomain]. *)
Class LabelLib := {
  Requirement : Type;
  LabelSelector : Type;
  LabelError : Type;
  NewRequirement : string → selectionOperator → list string → LabelError + Requirement;
  RequirementMatches : Requirement → gmap string string → bool;
  Everything : LabelSelector;
  Add : LabelSelector → Requirement → LabelSelector;
  Matches : LabelSelector → gmap string string → bool;
  IsDNS1123Subdomain : string → bool;
}.

(** A selector matches when all requirements added to it do. *)
Class LabelLaws `{!LabelLib} : Prop := {
  everything_matches ls : Matches Everything ls = true;
  add_matches s r ls : Matches (Add s r) ls = Matches s ls && RequirementMatches r ls;
}.

(** ** Compiling *)

Definition NodeSelectorOpIn : string := "In".
Definition NodeSelectorOpNotIn : string := "NotIn".

Definition labelOperators (op : string) : option selectionOperator :=
  if decide (op = NodeSelectorOpIn) then Some OpIn
  else if decide (op = NodeSelectorOpNotIn) then Some OpNotIn
  else if decide (op = "Exists") then Some OpExists
  else if decide (op = "DoesNotExist") then Some OpDoesNotExist
  else if decide (op = "Gt") then Some OpGreaterThan
  else if decide (op = "Lt") then Some OpLessThan
  else None.

(** [cmp.Or] on pointers: the first that is not nil. *)
Fixpoint cmpOr {A} (l : list (option A)) : option A :=
  match l with
  | [] => None
  | Some a :: _ => Some a
  | None :: rest => cmpOr rest
  end.

Definition usesRatios (w : option ClusterAffinityWeights) : bool :=
  match w with
  | None => false
  | Some w => bool_decide (is_Some (DefaultReplicas w)) || bool_decide (is_Some (EngineReplicas w))
              || bool_decide (is_Some (DecoderReplicas w)) || bool_decide (is_Some (RouterReplicas w))
  end.

Definition termRatio (input : ClusterAffinityTerm) (component : string) : option ReplicaRatio :=
  w ← Weights input;
  let engine := cmpOr [EngineReplicas w; DefaultReplicas w] in
  if decide (component = EngineComponent) then engine
  else if decide (component = DecoderComponent) then cmpOr [DecoderReplicas w; DefaultReplicas w; engine]
  else if decide (component = RouterComponent) then cmpOr [RouterReplicas w; DefaultReplicas w; engine]
  else None.

Definition termWeight (input : ClusterAffinityTerm) (component : string) : option Z :=
  w ← Weights input;
  if usesRatios (Some w) then MinOrOne <$> termRatio input component
  else
    let engine := cmpOr [Engine w; Default w] in
    if decide (component = EngineComponent) then engine
    else if decide (component = DecoderComponent) then cmpOr [Decoder w; Default w; engine]
    else if decide (component = RouterComponent) then cmpOr [Router w; Default w; engine]
    else None.

Definition UsesRatios (terms : list ClusterAffinityTerm) : bool := existsb (λ t, usesRatios (Weights t)) terms.
Definition SetsWeights (terms : list ClusterAffinityTerm) : bool :=
  existsb (λ t, bool_decide (is_Some (Weights t))) terms.

Definition DividesRouters (terms : list ClusterAffinityTerm) : bool :=
  if UsesRatios terms then
    existsb (λ t, match Weights t with
                  | Some w => bool_decide (is_Some (DefaultReplicas w)) || bool_decide (is_Some (RouterReplicas w))
                  | None => false
                  end) terms
  else negb (SetsWeights terms)
       || existsb (λ t, match Weights t with
                        | Some w => bool_decide (is_Some (Default w)) || bool_decide (is_Some (Router w))
                        | None => false
                        end) terms.

(** What can be wrong with an affinity. *)
Inductive affinityError (L : Type) :=
| TermCount
| EmptyTerm
| TooManyRequirements
| WeightsOutsideSplit
| WeightNotPositive (field : string)
| NoWeightSet
| MixedForms
| RatioMinNotPositive (field : string)
| RatioMaxNotPositive (field : string)
| TooManyValues (i : nat)
| UnsupportedOperator (i : nat) (op : string)
| BadRequirement (i : nat) (e : L)
| UnsupportedField (i : nat)
| FieldNameCount (i : nat)
| BadClusterName (i : nat) (name : string)
| InTerm (i : nat) (e : affinityError L).
Arguments TermCount {_}. Arguments EmptyTerm {_}. Arguments TooManyRequirements {_}.
Arguments WeightsOutsideSplit {_}. Arguments WeightNotPositive {_} _. Arguments NoWeightSet {_}.
Arguments MixedForms {_}. Arguments RatioMinNotPositive {_} _. Arguments RatioMaxNotPositive {_} _.
Arguments TooManyValues {_} _. Arguments UnsupportedOperator {_} _ _. Arguments BadRequirement {_} _ _.
Arguments UnsupportedField {_} _. Arguments FieldNameCount {_} _. Arguments BadClusterName {_} _ _.
Arguments InTerm {_} _ _.

Section compile.
Context {Lib : LabelLib}.

Record term := mkCompiled {
  labels : LabelSelector; fields : list ClusterSelectorRequirement; weight : Z; maxWeight : Z;
}.
Record Selector := mkSelector { unconstrained : bool; weighted : bool; ratios : bool; terms : list term }.
Record Match_ := mkMatch { TermIndexes : list Z; Weight : Z; MaxWeight : Z }.

Local Abbreviation result := (outcome (affinityError LabelError)).

Definition checkRatio (_ : unit) (field : string * option ReplicaRatio) : result unit :=
  match field.2 with
  | None => Ok ()
  | Some r =>
      if decide (MinOrOne r < 1) then Err (RatioMinNotPositive field.1)
      else if decide (MaxOrOne r < 1) then Err (RatioMaxNotPositive field.1)
      else Ok ()
  end.

Definition ratioFields (w : ClusterAffinityWeights) : list (string * option ReplicaRatio) :=
  [("defaultReplicas", DefaultReplicas w); ("engineReplicas", EngineReplicas w);
   ("decoderReplicas", DecoderReplicas w); ("routerReplicas", RouterReplicas w)].
Definition weightFields (w : ClusterAffinityWeights) : list (string * option Z) :=
  [("default", Default w); ("engine", Engine w); ("decoder", Decoder w); ("router", Router w)].

Definition validateRatios (w : ClusterAffinityWeights) : result unit :=
  if existsb (λ f, bool_decide (is_Some f.2)) (weightFields w) then Err MixedForms
  else ofold checkRatio () (ratioFields w).

Definition checkIntWeight (set : Z) (field : string * option Z) : result Z :=
  match field.2 with
  | None => Ok set
  | Some v => if decide (v < 1) then Err (WeightNotPositive field.1) else Ok (set + 1)
  end.

Definition validateWeights (input : ClusterAffinityTerm) (allowWeights : bool) : result unit :=
  match Weights input with
  | None => Ok ()
  | Some w =>
      if negb allowWeights then Err WeightsOutsideSplit
      else if usesRatios (Some w) then validateRatios w
      else let? set := ofold checkIntWeight 0 (weightFields w) in
           if decide (set = 0) then Err NoWeightSet else Ok ()
  end.

Definition addExpression (s : LabelSelector) (ireq : nat * ClusterSelectorRequirement) : result LabelSelector :=
  let '(i, req) := ireq in
  if decide (MaxClusterSelectorValues < length (Values req))%nat then Err (TooManyValues i)
  else match labelOperators (Operator req) with
       | None => Err (UnsupportedOperator i (Operator req))
       | Some op =>
           match NewRequirement (Key req) op (Values req) with
           | inl e => Err (BadRequirement i e)
           | inr parsed => Ok (Add s parsed)
           end
       end.

Definition checkField (_ : unit) (ireq : nat * ClusterSelectorRequirement) : result unit :=
  let '(i, req) := ireq in
  if decide (Key req ≠ "metadata.name" ∨ (Operator req ≠ NodeSelectorOpIn ∧ Operator req ≠ NodeSelectorOpNotIn))
  then Err (UnsupportedField i)
  else if decide (Values req = [] ∨ (MaxClusterSelectorValues < length (Values req))%nat) then Err (FieldNameCount i)
  else ofold (λ _ name, if IsDNS1123Subdomain name then Ok () else Err (BadClusterName i name)) () (Values req).

Definition compileTerm (input : ClusterAffinityTerm) (allowWeights : bool) : result term :=
  if decide (length (MatchExpressions input) + length (MatchFields input) = 0)%nat then Err EmptyTerm
  else if decide (MaxClusterSelectorRequirements < length (MatchExpressions input)
                  ∨ MaxClusterSelectorRequirements < length (MatchFields input))%nat then Err TooManyRequirements
  else
    let? _ := validateWeights input allowWeights in
    let? ls := ofold addExpression Everything (imap pair (MatchExpressions input)) in
    let? _ := ofold checkField () (imap pair (MatchFields input)) in
    Ok (mkCompiled ls (MatchFields input) 1 1).

(** One turn of the loop of [CompileFor]. *)
Definition addTerm (allowWeights : bool) (component : string) (s : Selector) (it : nat * ClusterAffinityTerm)
    : result Selector :=
  let '(i, input) := it in
  match compileTerm input allowWeights with
  | Panic => Panic
  | Err e => Err (InTerm i e)
  | Ok compiled =>
      let uses := ratios s || usesRatios (Weights input) in
      Ok (match termWeight input component with
          | None => mkSelector false (weighted s) uses (terms s ++ [compiled])
          | Some w =>
              let max := match termRatio input component with Some r => MaxOrOne r | None => w end in
              mkSelector false true uses (terms s ++ [mkCompiled (labels compiled) (fields compiled) w max])
          end)
  end.

(** The nil slice is no restriction; the empty one is an error. *)
Definition CompileFor (ts : option (list ClusterAffinityTerm)) (allowWeights : bool) (component : string) : result Selector :=
  match ts with
  | None => Ok (mkSelector true false false [])
  | Some ts =>
      if decide (length ts = 0 ∨ MaxClusterAffinityTerms < length ts)%nat then Err TermCount
      else ofold (addTerm allowWeights component) (mkSelector false false false []) (imap pair ts)
  end.

Definition Compile (ts : option (list ClusterAffinityTerm)) (allowWeights : bool) : result Selector :=
  CompileFor ts allowWeights EngineComponent.

(** ** Matching *)

Definition matches (t : term) (cluster : WorkloadCluster) : bool :=
  Matches (labels t) (Labels cluster)
  && forallb (λ field, Bool.eqb (bool_decide (Operator field = NodeSelectorOpIn))
                                (bool_decide (ClusterName cluster ∈ Values field))) (fields t).

Definition matchTerm (s : Selector) (cluster : WorkloadCluster) (m : Match_) (it : nat * term) : Match_ :=
  let '(i, t) := it in
  if matches t cluster then
    let indexes := TermIndexes m ++ [i32 (Z.of_nat i)] in
    if weighted s then mkMatch indexes (i64 (Weight m + weight t)) (i64 (MaxWeight m + maxWeight t))
    else mkMatch indexes 1 1
  else m.

Definition Match (s : option Selector) (cluster : option WorkloadCluster) : Match_ * bool :=
  match s, cluster with
  | Some s, Some cluster =>
      if unconstrained s then (mkMatch [] 1 0, true)
      else
        let m := foldl (matchTerm s cluster) (mkMatch [] 0 0) (imap pair (terms s)) in
        let m := if ratios s then m else mkMatch (TermIndexes m) (Weight m) 0 in
        (m, bool_decide (TermIndexes m ≠ []))
  | _, _ => (mkMatch [] 0 0, false)
  end.
End compile.
