(* ===== verification/AffinityFacts.v ===== *)
(** * What a compiled affinity says

    The compiled selector is read back against the terms it was compiled from:
    when compiling succeeds, which clusters match, and what a match weighs.  What
    a term says (its operators, its form, the fields a component looks in) is
    written down here on the API types and proved to be what the compiler reads. *)

From S2P Require Import Prelude Affinity.
Local Open Scope go_scope.
Local Open Scope Z_scope.

(** A loop whose steps succeed on the elements [P] and then do [g]. *)
Lemma ofold_ok_iff {E A B} (f : A → B → outcome E A) (g : A → B → A) (P : B → Prop) a l b :
  (∀ a x b, f a x = Ok b ↔ P x ∧ b = g a x) →
  ofold f a l = Ok b ↔ Forall P l ∧ b = foldl g a l.
Proof.
  intros Hf. revert a. induction l as [|x l IH]; intros a; simpl.
  { split; [intros [= ->]; split; [constructor|done]|intros [_ ->]; done]. }
  rewrite Forall_cons. split.
  - intros (a' & [HP ->]%Hf & [? ->]%IH)%obind_Ok_inv. done.
  - intros [[HP Hl] ->]. rewrite (proj2 (Hf a x (g a x))) by done. simpl. by apply IH.
Qed.

Lemma imap_pair_snd {A} (l : list A) : (imap pair l).*2 = l.
Proof. apply list_eq. intros i. rewrite list_lookup_fmap, list_lookup_imap. by destruct (l !! i). Qed.

Lemma Forall_imap_pair {A} (P : A → Prop) (l : list A) : Forall (λ ix, P ix.2) (imap pair l) ↔ Forall P l.
Proof. rewrite <-(imap_pair_snd l) at 2. by rewrite Forall_fmap. Qed.

Lemma foldl_imap_pair {A B} (g : B → A → B) (b : B) (l : list A) :
  foldl (λ b ix, g b ix.2) b (imap pair l) = foldl g b l.
Proof.
  rewrite <-(imap_pair_snd l) at 2. revert b. induction (imap pair l) as [|x r IH]; intros b; simpl; auto.
Qed.

(** ** What the fields of a term mean *)

(** The operators of the API and the label operators they stand for. *)
Definition operatorTable : list (string * selectionOperator) :=
  [("In", OpIn); ("NotIn", OpNotIn); ("Exists", OpExists); ("DoesNotExist", OpDoesNotExist);
   ("Gt", OpGreaterThan); ("Lt", OpLessThan)].
Definition operatorOf (op : string) : option selectionOperator :=
  snd <$> head (filter (λ row, row.1 = op) operatorTable).

Lemma labelOperators_table op : labelOperators op = operatorOf op.
Proof.
  unfold labelOperators, NodeSelectorOpIn, NodeSelectorOpNotIn.
  repeat (case_decide; [by subst|]). unfold operatorOf, operatorTable.
  by repeat (rewrite filter_cons_False by (simpl; congruence)).
Qed.

(** The fields of a block of weights, in each form. *)
Definition integersOf (w : ClusterAffinityWeights) : list (option Z) := [Default w; Engine w; Decoder w; Router w].
Definition ratiosOf (w : ClusterAffinityWeights) : list (option ReplicaRatio) :=
  [DefaultReplicas w; EngineReplicas w; DecoderReplicas w; RouterReplicas w].

(** A block is in ratio form when it sets any ratio. *)
Definition givesRatios (w : ClusterAffinityWeights) : bool := bool_decide (Exists is_Some (ratiosOf w)).
Definition inRatioForm (ts : list ClusterAffinityTerm) : bool :=
  existsb (λ t, match Weights t with Some w => givesRatios w | None => false end) ts.

(** The fields a component looks in, in order: its own, the default, and for a
    decoder or a router the engine's. *)
Definition lookIn {A} (component : string) (default engine decoder router : option A) : list (option A) :=
  if decide (component = "engine") then [engine; default]
  else if decide (component = "decoder") then [decoder; default; engine]
  else if decide (component = "router") then [router; default; engine]
  else [].
Definition firstSet {A} (l : list (option A)) : option A := head (omap id l).

(** The least and the most weight a term gives a component, if it gives one: in
    ratio form the two ends of its ratio, an open end counting one; otherwise its
    integer twice. *)
Definition shareFor (component : string) (t : ClusterAffinityTerm) : option (Z * Z) :=
  w ← Weights t;
  if givesRatios w
  then (λ r, (default 1 (Min r), default 1 (Max r))) <$>
         firstSet (lookIn component (DefaultReplicas w) (EngineReplicas w) (DecoderReplicas w) (RouterReplicas w))
  else (λ v, (v, v)) <$> firstSet (lookIn component (Default w) (Engine w) (Decoder w) (Router w)).

(** The code reads these fields this way. *)
Lemma usesRatios_gives w : usesRatios (Some w) = givesRatios w.
Proof.
  unfold usesRatios, givesRatios, ratiosOf. apply eq_bool_prop_intro.
  rewrite bool_decide_spec, !orb_True, !bool_decide_spec, !Exists_cons, Exists_nil. tauto.
Qed.

Lemma UsesRatios_form ts : UsesRatios ts = inRatioForm ts.
Proof.
  unfold UsesRatios, inRatioForm. induction ts as [|t ts IH]; [done|]. simpl existsb. rewrite IH. f_equal.
  destruct (Weights t) as [w|]; [apply usesRatios_gives|done].
Qed.

Lemma givesRatios_false w : givesRatios w = false → ratiosOf w = [None; None; None; None].
Proof.
  unfold givesRatios, ratiosOf. rewrite bool_decide_eq_false. intros H.
  destruct (DefaultReplicas w); [destruct H; by constructor|].
  destruct (EngineReplicas w); [destruct H; do 1 right; by constructor|].
  destruct (DecoderReplicas w); [destruct H; do 2 right; by constructor|].
  destruct (RouterReplicas w); [destruct H; do 3 right; by constructor|]. done.
Qed.

Lemma termRatio_first t w component :
  Weights t = Some w →
  termRatio t component =
  firstSet (lookIn component (DefaultReplicas w) (EngineReplicas w) (DecoderReplicas w) (RouterReplicas w)).
Proof.
  intros Hw. unfold termRatio, lookIn, EngineComponent, DecoderComponent, RouterComponent. rewrite Hw. simpl.
  destruct w as [? ? ? ? dr er cr rr]. simpl. by destruct er, dr, cr, rr; repeat case_decide.
Qed.

Lemma termRatio_none t w component : Weights t = Some w → givesRatios w = false → termRatio t component = None.
Proof.
  intros Hw Hg%givesRatios_false. rewrite (termRatio_first t w) by done. injection Hg as -> -> -> ->.
  unfold lookIn. by repeat case_decide.
Qed.

Lemma termWeight_share t component : termWeight t component = fst <$> shareFor component t.
Proof.
  unfold termWeight, shareFor. destruct (Weights t) as [w|] eqn:Hw; [|done]. cbn [mbind option_bind].
  rewrite usesRatios_gives. destruct (givesRatios w).
  - rewrite (termRatio_first t w) by done. by destruct (firstSet _).
  - unfold lookIn, EngineComponent, DecoderComponent, RouterComponent. destruct w as [d e c r ? ? ? ?]. simpl.
    by destruct d, e, c, r; repeat case_decide.
Qed.

Lemma termMax_share t component v :
  termWeight t component = Some v →
  match termRatio t component with Some r => MaxOrOne r | None => v end = (default (1, 1) (shareFor component t)).2.
Proof.
  rewrite termWeight_share. unfold shareFor. destruct (Weights t) as [w|] eqn:Hw; [|done]. cbn [mbind option_bind].
  destruct (givesRatios w) eqn:Hg.
  - rewrite (termRatio_first t w) by done. by destruct (firstSet _).
  - rewrite (termRatio_none t w) by done. destruct (firstSet _); simpl; congruence.
Qed.

(** What a term gives a component is in one of its fields. *)
Lemma firstSet_lookIn {A} component (d e c r : option A) a :
  firstSet (lookIn component d e c r) = Some a → Some a ∈ [d; e; c; r].
Proof. unfold lookIn. destruct d, e, c, r; repeat case_decide; simpl; intros [= <-]; set_solver. Qed.

Section facts.
Context {Lib : LabelLib}.

(** ** What a term says *)

(** The requirement an expression stands for, when it is well formed. *)
Definition requirementOf (req : ClusterSelectorRequirement) : option Requirement :=
  op ← operatorOf (Operator req);
  match NewRequirement (Key req) op (Values req) with inl _ => None | inr r => Some r end.

(** A term selects a cluster: every expression holds of its labels, and every
    field requirement of its name. *)
Definition selects (t : ClusterAffinityTerm) (cluster : WorkloadCluster) : bool :=
  forallb (λ req, match requirementOf req with Some r => RequirementMatches r (Labels cluster) | None => false end)
    (MatchExpressions t)
  && forallb (λ field, Bool.eqb (bool_decide (Operator field = "In")) (bool_decide (ClusterName cluster ∈ Values field)))
       (MatchFields t).

Definition validExpression (req : ClusterSelectorRequirement) : Prop :=
  (length (Values req) ≤ 64)%nat ∧ is_Some (requirementOf req).

Definition validField (req : ClusterSelectorRequirement) : Prop :=
  Key req = "metadata.name" ∧ (Operator req = "In" ∨ Operator req = "NotIn")
  ∧ (1 ≤ length (Values req) ≤ 64)%nat
  ∧ Forall (λ name, IsDNS1123Subdomain name = true) (Values req).

Definition validRatio (r : ReplicaRatio) : Prop := 1 ≤ default 1 (Min r) ∧ 1 ≤ default 1 (Max r).

(** The weights of a term: only in Split; in one form; positive; not empty. *)
Definition validWeights (allowWeights : bool) (t : ClusterAffinityTerm) : Prop :=
  match Weights t with
  | None => True
  | Some w =>
      allowWeights = true ∧
      if givesRatios w
      then Forall (λ f, f = None) (integersOf w) ∧ Forall (λ f, ∀ r, f = Some r → validRatio r) (ratiosOf w)
      else ¬ Forall (λ f, f = None) (integersOf w) ∧ Forall (λ f, ∀ v, f = Some v → 1 ≤ v) (integersOf w)
  end.

Definition validTerm (allowWeights : bool) (t : ClusterAffinityTerm) : Prop :=
  (1 ≤ length (MatchExpressions t) + length (MatchFields t))%nat
  ∧ (length (MatchExpressions t) ≤ 64 ∧ length (MatchFields t) ≤ 64)%nat
  ∧ validWeights allowWeights t ∧ Forall validExpression (MatchExpressions t) ∧ Forall validField (MatchFields t).

(** ** Compiling a term *)

Definition addRequirement (s : LabelSelector) (req : ClusterSelectorRequirement) : LabelSelector :=
  match requirementOf req with Some r => Add s r | None => s end.

Lemma addExpression_ok s ireq s' :
  addExpression s ireq = Ok s' ↔ validExpression ireq.2 ∧ s' = addRequirement s ireq.2.
Proof.
  destruct ireq as [i req]. unfold addExpression, validExpression, addRequirement, requirementOf, MaxClusterSelectorValues. simpl.
  rewrite labelOperators_table. case_decide as Hl; [split; [done|]; intros [[? _] _]; lia|].
  destruct (operatorOf (Operator req)) as [op|]; simpl; [|split; [done|]; by intros [[_ []] _]].
  destruct (NewRequirement _ _ _) as [e|r]; [split; [done|]; by intros [[_ []] _]|].
  split; [intros [= <-]|intros [_ ->]; done]. split_and!; [lia|by eexists|done].
Qed.

Lemma checkField_ok u ireq : checkField u ireq = Ok () ↔ validField ireq.2.
Proof.
  destruct ireq as [i req]. unfold checkField, validField, NodeSelectorOpIn, NodeSelectorOpNotIn, MaxClusterSelectorValues. simpl.
  case_decide as H1; [split; [done|]; intros (? & ? & _); naive_solver|].
  assert (Key req = "metadata.name") as Hk by (destruct (decide (Key req = "metadata.name")); naive_solver).
  assert (Operator req = "In" ∨ Operator req = "NotIn") as Ho.
  { destruct (decide (Operator req = "In")); [by left|].
    destruct (decide (Operator req = "NotIn")); [by right|naive_solver]. }
  case_decide as H2.
  { split; [done|]. intros (_ & _ & Hlen & _). destruct H2 as [H2|?]; [rewrite H2 in Hlen; simpl in Hlen; lia|lia]. }
  rewrite ofold_check, Forall_forall. split.
  - intros Hall. split_and!; try done; [destruct (Values req); simpl; [naive_solver|lia]|lia|].
    intros name Hname. specialize (Hall name Hname). by destruct (IsDNS1123Subdomain name).
  - intros (_ & _ & _ & Hall) name Hname. by rewrite Hall.
Qed.

Lemma validateRatios_ok w :
  validateRatios w = Ok () ↔
  Forall (λ f, f = None) (integersOf w) ∧ Forall (λ f, ∀ r, f = Some r → validRatio r) (ratiosOf w).
Proof.
  change (integersOf w) with ((weightFields w).*2). change (ratiosOf w) with ((ratioFields w).*2).
  rewrite !Forall_fmap. unfold compose.
  unfold validateRatios. destruct (existsb _ (weightFields w)) eqn:He.
  - split; [done|]. intros [H _]. apply existsb_true in He as (f & Hf & Hs%bool_decide_eq_true).
    rewrite Forall_forall in H. rewrite (H f Hf) in Hs. by destruct Hs.
  - rewrite ofold_check, !Forall_forall. rewrite existsb_false in He.
    assert (∀ f, f ∈ weightFields w → f.2 = None) as Hn.
    { intros f Hf. specialize (He f Hf). apply bool_decide_eq_false in He. by apply eq_None_not_Some. }
    assert (∀ f : string * option ReplicaRatio, checkRatio () f = Ok () ↔ ∀ r, f.2 = Some r → validRatio r) as Hc.
    { intros [name [r|]]; unfold checkRatio, validRatio, MinOrOne, MaxOrOne; cbn [snd fst]; [|naive_solver].
      case_decide; [split; [done|]; intros Hr; specialize (Hr r eq_refl); lia|].
      case_decide; [split; [done|]; intros Hr; specialize (Hr r eq_refl); lia|].
      split; [|done]. intros _ r' [= <-]. lia. }
    setoid_rewrite Hc. naive_solver.
Qed.

Lemma checkWeights_ok l n m :
  0 ≤ n → ofold checkIntWeight n l = Ok m →
  n ≤ m ∧ (m = n ↔ Forall (λ f, f.2 = None) l).
Proof.
  revert n. induction l as [|[name v] l IH]; intros n Hn; simpl.
  { intros [= <-]. split; [lia|]. split; [intros; constructor|done]. }
  unfold checkIntWeight at 1. simpl. destruct v as [v|]; [case_decide; [done|]|]; simpl; rewrite Forall_cons; intros Hf;
    apply IH in Hf as [H1 H2]; try lia; (split; [lia|]); simpl.
  - split; [lia|]. by intros [? _].
  - rewrite H2. naive_solver.
Qed.

Lemma checkWeights_some l n :
  (∃ m, ofold checkIntWeight n l = Ok m) ↔ Forall (λ f, ∀ v, f.2 = Some v → 1 ≤ v) l.
Proof.
  revert n. induction l as [|[name v] l IH]; intros n; simpl; [split; [constructor|by eexists]|].
  rewrite Forall_cons. unfold checkIntWeight at 1. simpl. destruct v as [v|]; [case_decide|]; simpl.
  - split; [by intros [? ?]|]. intros [Hv _]. specialize (Hv v eq_refl). lia.
  - rewrite IH. split; [|naive_solver]. intros H1. split; [|done]. intros v' [= <-]. lia.
  - rewrite IH. naive_solver.
Qed.

Lemma validateWeights_ok t allowWeights : validateWeights t allowWeights = Ok () ↔ validWeights allowWeights t.
Proof.
  unfold validateWeights, validWeights. destruct (Weights t) as [w|]; [|done].
  destruct allowWeights; simpl negb; cbv iota; [|split; [done|]; by intros [? _]].
  rewrite usesRatios_gives. destruct (givesRatios w); [rewrite validateRatios_ok; naive_solver|].
  change (integersOf w) with ((weightFields w).*2). rewrite !Forall_fmap. unfold compose.
  rewrite <-(checkWeights_some (weightFields w) 0). split.
  - intros (n & Hn & H)%obind_Ok_inv. case_decide as H0; [done|].
    pose proof (checkWeights_ok _ _ _ (Z.le_refl 0) Hn) as [_ Hiff]. split_and!; [done| |by exists n].
    rewrite <-Hiff. lia.
  - intros (_ & Hsome & [n Hn]). rewrite Hn. simpl.
    pose proof (checkWeights_ok _ _ _ (Z.le_refl 0) Hn) as [_ Hiff]. rewrite decide_False; [done|]. by rewrite Hiff.
Qed.

(** The compiled form of a valid term, before its weight. *)
Definition compiledOf (t : ClusterAffinityTerm) : term :=
  mkCompiled (foldl addRequirement Everything (MatchExpressions t)) (MatchFields t) 1 1.

Lemma compileTerm_ok t allowWeights c :
  compileTerm t allowWeights = Ok c ↔ validTerm allowWeights t ∧ c = compiledOf t.
Proof.
  assert (∀ ls, ofold addExpression Everything (imap pair (MatchExpressions t)) = Ok ls ↔
            Forall validExpression (MatchExpressions t) ∧ ls = foldl addRequirement Everything (MatchExpressions t)) as He.
  { intros ls. rewrite (ofold_ok_iff _ (λ s ix, addRequirement s ix.2) (λ ix, validExpression ix.2))
      by apply addExpression_ok. by rewrite Forall_imap_pair, foldl_imap_pair. }
  assert (ofold checkField () (imap pair (MatchFields t)) = Ok () ↔ Forall validField (MatchFields t)) as Hf.
  { rewrite ofold_check, <-Forall_forall. setoid_rewrite checkField_ok. apply Forall_imap_pair. }
  unfold compileTerm, validTerm, MaxClusterSelectorRequirements. rewrite <-validateWeights_ok.
  case_decide as H1; [split; [done|]; intros [[? _] _]; lia|].
  case_decide as H2; [split; [done|]; intros [(_ & ? & _) _]; lia|]. split.
  - intros ([] & Hw & (ls & [Hl ->]%He & ([] & Hf' & [= <-])%obind_Ok_inv)%obind_Ok_inv)%obind_Ok_inv.
    split_and!; try done; try lia. by apply Hf.
  - intros [(_ & _ & Hw & Hl & Hf') ->]. rewrite Hw. simpl.
    rewrite (proj2 (He _)) by done. simpl. rewrite (proj2 Hf) by done. done.
Qed.

(** ** Compiling an affinity *)

(** The weights a term adds for a component, one where it gives none. *)
Definition weightOf (component : string) (t : ClusterAffinityTerm) : Z := (default (1, 1) (shareFor component t)).1.
Definition maxWeightOf (component : string) (t : ClusterAffinityTerm) : Z := (default (1, 1) (shareFor component t)).2.

Definition compiledFor (component : string) (t : ClusterAffinityTerm) : term :=
  mkCompiled (labels (compiledOf t)) (fields (compiledOf t)) (weightOf component t) (maxWeightOf component t).

(** Some term weighs the component. *)
Definition weighs (component : string) (ts : list ClusterAffinityTerm) : bool :=
  existsb (λ t, bool_decide (is_Some (shareFor component t))) ts.

Definition addValid (component : string) (s : Selector) (t : ClusterAffinityTerm) : Selector :=
  mkSelector false (weighted s || bool_decide (is_Some (shareFor component t))) (ratios s || usesRatios (Weights t))
    (terms s ++ [compiledFor component t]).

Lemma addTerm_ok allowWeights component s it s' :
  addTerm allowWeights component s it = Ok s' ↔ validTerm allowWeights it.2 ∧ s' = addValid component s it.2.
Proof.
  destruct it as [i t]. unfold addTerm. simpl.
  destruct (compileTerm t allowWeights) as [c|e|] eqn:Hc.
  - apply compileTerm_ok in Hc as [Hv ->]. unfold addValid, compiledFor, weightOf.
    destruct (termWeight t component) as [w|] eqn:Ht; [rewrite (termMax_share _ _ _ Ht)|]; fold (maxWeightOf component t);
      rewrite termWeight_share in Ht; unfold maxWeightOf; destruct (shareFor component t) as [[lo hi]|]; simplify_eq;
      simpl; rewrite ?orb_true_r, ?orb_false_r; naive_solver.
  - split; [done|]. intros [Hv _]. rewrite (proj2 (compileTerm_ok _ _ _) (conj Hv eq_refl)) in Hc. done.
  - split; [done|]. intros [Hv _]. rewrite (proj2 (compileTerm_ok _ _ _) (conj Hv eq_refl)) in Hc. done.
Qed.

Lemma foldl_addValid component s ts :
  foldl (addValid component) s ts =
  match ts with
  | [] => s
  | _ => mkSelector false (weighted s || weighs component ts) (ratios s || UsesRatios ts)
           (terms s ++ (compiledFor component <$> ts))
  end.
Proof.
  revert s. induction ts as [|t ts IH]; intros s; [done|]. simpl foldl. rewrite IH. unfold addValid, weighs, UsesRatios.
  destruct ts as [|t' ts]; simpl; rewrite ?orb_false_r, ?orb_assoc, <-?app_assoc; done.
Qed.

Lemma CompileFor_ok ts allowWeights component s :
  CompileFor (Some ts) allowWeights component = Ok s ↔
  (1 ≤ length ts ≤ MaxClusterAffinityTerms)%nat ∧ Forall (validTerm allowWeights) ts
  ∧ s = mkSelector false (weighs component ts) (UsesRatios ts) (compiledFor component <$> ts).
Proof.
  unfold CompileFor. case_decide as Hl; [split; [done|]; intros [? _]; lia|].
  rewrite (ofold_ok_iff _ (λ s ix, addValid component s ix.2) (λ ix, validTerm allowWeights ix.2)) by apply addTerm_ok.
  rewrite Forall_imap_pair, foldl_imap_pair, foldl_addValid. destruct ts as [|t ts]; [simpl in Hl; lia|].
  simpl orb. simpl app. split; [intros [??]; split_and!; (done || lia)|by intros (_ & ? & ?)].
Qed.

(** ** The weights are positive and small *)

(** Every number a term gives is an [int32]. *)
Definition int32Weights (t : ClusterAffinityTerm) : Prop :=
  match Weights t with
  | None => True
  | Some w =>
      Forall (λ f, ∀ v, f = Some v → v ≤ MaxInt32) (integersOf w)
      ∧ Forall (λ f, ∀ r, f = Some r → default 1 (Min r) ≤ MaxInt32 ∧ default 1 (Max r) ≤ MaxInt32) (ratiosOf w)
  end.

Lemma weights_bounded allowWeights component t :
  validWeights allowWeights t → int32Weights t →
  1 ≤ weightOf component t ≤ MaxInt32 ∧ 1 ≤ maxWeightOf component t ≤ MaxInt32.
Proof.
  unfold validWeights, int32Weights, weightOf, maxWeightOf, shareFor.
  destruct (Weights t) as [w|]; simpl; [|lia]. intros [_ Hv] [Hi1 Hi2]. destruct (givesRatios w).
  - destruct (firstSet _) as [r|] eqn:Hf; simpl; [|lia]. apply firstSet_lookIn in Hf.
    destruct Hv as [_ Hv]. rewrite Forall_forall in Hv, Hi2.
    pose proof (Hv _ Hf r eq_refl) as [??]. pose proof (Hi2 _ Hf r eq_refl). lia.
  - destruct (firstSet _) as [v|] eqn:Hf; simpl; [|lia]. apply firstSet_lookIn in Hf.
    destruct Hv as [_ Hv]. rewrite Forall_forall in Hv, Hi1.
    pose proof (Hv _ Hf v eq_refl). pose proof (Hi1 _ Hf v eq_refl). lia.
Qed.

(** ** Matching *)

Context {Laws : LabelLaws}.

Lemma requirements_match s exprs ls :
  Forall validExpression exprs →
  Matches (foldl addRequirement s exprs) ls =
  Matches s ls && forallb (λ req, match requirementOf req with Some r => RequirementMatches r ls | None => false end) exprs.
Proof.
  intros Hv. revert s. induction Hv as [|req exprs [_ [r Hr]] _ IH]; intros s; simpl; [by rewrite andb_true_r|].
  rewrite IH. unfold addRequirement at 1. rewrite Hr, add_matches. by rewrite andb_assoc.
Qed.

Lemma matches_selects allowWeights component t cluster :
  validTerm allowWeights t → matches (compiledFor component t) cluster = selects t cluster.
Proof.
  intros (_ & _ & _ & He & _). unfold matches, selects, compiledFor, compiledOf. simpl.
  by rewrite requirements_match, everything_matches.
Qed.

(** The terms that select a cluster, with their positions. *)
Definition hits (ts : list (nat * ClusterAffinityTerm)) (cluster : WorkloadCluster) : list (nat * ClusterAffinityTerm) :=
  filter (λ it, selects it.2 cluster = true) ts.

(** A total over the hits, or one where nothing weighs the component. *)
Definition totalOf (weighted : bool) (f : ClusterAffinityTerm → Z) (l : list (nat * ClusterAffinityTerm)) : Z :=
  if weighted then zsum_with (λ it, f it.2) l else match l with [] => 0 | _ => 1 end.

Lemma totalOf_bounded weighted f l :
  (∀ it, it ∈ l → 1 ≤ f it.2 ≤ MaxInt32) →
  0 ≤ totalOf weighted f l ≤ MaxInt32 * Z.of_nat (length l) ∧ (l ≠ [] → 1 ≤ totalOf weighted f l).
Proof.
  intros Hf. unfold totalOf. destruct weighted; [|destruct l; simpl; [done|split; [lia|done]]].
  induction l as [|it l IH]; [done|]. rewrite zsum_with_cons. pose proof (Hf it (list_elem_of_here _ _)).
  destruct IH as [? _]; [intros; apply Hf; by right|]. simpl length. lia.
Qed.

Lemma foldl_matchTerm allowWeights component ts cluster :
  (length ts ≤ MaxClusterAffinityTerms)%nat → Forall (validTerm allowWeights) ts → Forall int32Weights ts →
  let s := mkSelector false (weighs component ts) (UsesRatios ts) (compiledFor component <$> ts) in
  let h := hits (imap pair ts) cluster in
  foldl (matchTerm s cluster) (mkMatch [] 0 0) (imap pair (terms s)) =
  mkMatch ((λ it, Z.of_nat it.1) <$> h) (totalOf (weighted s) (weightOf component) h)
    (totalOf (weighted s) (maxWeightOf component) h).
Proof.
  intros Hlen Hv Hi s h. simpl terms. rewrite imap_fmap.
  replace (imap (λ n, pair n ∘ compiledFor component) ts)
    with ((λ it, (it.1, compiledFor component it.2)) <$> imap pair ts) by (by rewrite fmap_imap).
  rewrite foldl_fmap. unfold h.
  apply (foldl_ind _ (λ pre m, m = mkMatch ((λ it, Z.of_nat it.1) <$> hits pre cluster)
    (totalOf (weighted s) (weightOf component) (hits pre cluster))
    (totalOf (weighted s) (maxWeightOf component) (hits pre cluster)))).
  { by destruct (weighted s). }
  intros pre [i t] post m Hl ->.
  assert (∀ it, it ∈ imap pair ts → (it.1 < 64)%nat ∧ validTerm allowWeights it.2 ∧ int32Weights it.2) as Hit.
  { intros it (j & t' & -> & Hj)%elem_of_lookup_imap. simpl. rewrite Forall_forall in Hv, Hi.
    apply lookup_lt_Some in Hj as ?. apply list_elem_of_lookup_2 in Hj. unfold MaxClusterAffinityTerms in *.
    split_and!; [lia|by apply Hv|by apply Hi]. }
  assert (∀ it, it ∈ hits pre cluster → 1 ≤ weightOf component it.2 ≤ MaxInt32 ∧ 1 ≤ maxWeightOf component it.2 ≤ MaxInt32) as Hpre.
  { intros it [_ Hin]%list_elem_of_filter. destruct (Hit it) as (_ & (_ & _ & ? & _) & ?); [rewrite Hl; set_solver|].
    by eapply weights_bounded. }
  destruct (Hit (i, t)) as (Hlt & Hvt & Hit'); [rewrite Hl; set_solver|]. simpl in Hlt, Hvt, Hit'.
  unfold matchTerm. simpl. rewrite (matches_selects allowWeights) by done.
  unfold hits in *. rewrite filter_app. destruct (selects t cluster) eqn:Hsel.
  2: { rewrite filter_cons_False, filter_nil, app_nil_r by (simpl; congruence). done. }
  rewrite filter_cons_True, filter_nil by done. set (l := filter _ pre) in *.
  assert (length l ≤ 64)%nat as Hll.
  { unfold l. rewrite length_filter. assert (length (imap pair ts) = length ts) as E by apply length_imap.
    rewrite Hl, length_app in E. unfold MaxClusterAffinityTerms in *. simpl in E. lia. }
  pose proof (totalOf_bounded (weighted s) (weightOf component) l) as Hw.
  pose proof (totalOf_bounded (weighted s) (maxWeightOf component) l) as Hm.
  assert (1 ≤ weightOf component t ≤ MaxInt32 ∧ 1 ≤ maxWeightOf component t ≤ MaxInt32) as Ht
    by (destruct Hvt as (_ & _ & ? & _); by eapply weights_bounded).
  specialize (Hw (λ it H, proj1 (Hpre it H))). specialize (Hm (λ it H, proj2 (Hpre it H))).
  rewrite fmap_app, i32_id by (unfold int32_range; lia). simpl.
  change (weighted s) with (weighs component ts) in *.
  unfold totalOf in *. revert Hw Hm. destruct (weighs component ts); intros Hw Hm.
  - rewrite !i64_id by (unfold int64_range; lia). rewrite !zsum_with_app, !zsum_with_cons, !zsum_with_nil. simpl.
    rewrite !Z.add_0_r. done.
  - by destruct l.
Qed.

Lemma hits_nil_iff ts cluster :
  hits (imap pair ts) cluster ≠ [] ↔ ∃ t, t ∈ ts ∧ selects t cluster = true.
Proof.
  unfold hits. split.
  - intros Hne. destruct (filter _ (imap pair ts)) as [|it l] eqn:E; [done|].
    assert (it ∈ filter (λ it, selects it.2 cluster = true) (imap pair ts)) as [Hs Hin]%list_elem_of_filter by (rewrite E; left).
    exists it.2. split; [|done]. rewrite <-(imap_pair_snd ts). apply list_elem_of_fmap. by exists it.
  - intros (t & Ht & Hs) E. rewrite <-(imap_pair_snd ts) in Ht. apply list_elem_of_fmap in Ht as (it & -> & Hin).
    assert (it ∈ filter (λ it, selects it.2 cluster = true) (imap pair ts)) as H by (by apply list_elem_of_filter).
    rewrite E in H. by apply elem_of_nil in H.
Qed.

Lemma compileTerm_no_panic t allowWeights : no_panic (compileTerm t allowWeights).
Proof.
  unfold compileTerm, no_panic. case_decide; [done|]. case_decide; [done|].
  assert (no_panic (validateWeights t allowWeights)) as Hw.
  { unfold validateWeights, no_panic. destruct (Weights t) as [w|]; [|done]. destruct allowWeights; cbn [negb]; [|done].
    destruct (usesRatios (Some w)).
    - unfold validateRatios. destruct (existsb _ (weightFields w)); [done|]. apply ofold_no_panic.
      intros [] f. unfold checkRatio, no_panic. by repeat case_match.
    - assert (no_panic (ofold checkIntWeight 0 (weightFields w))) as Hf.
      { apply ofold_no_panic. intros n f. unfold checkIntWeight, no_panic. by repeat case_match. }
      destruct (ofold checkIntWeight 0 (weightFields w)); simpl; [by case_decide|done|done]. }
  destruct (validateWeights t allowWeights) as [[]| |]; simpl; [|done|done].
  assert (no_panic (ofold addExpression Everything (imap pair (MatchExpressions t)))) as He.
  { apply ofold_no_panic. intros ls [j req]. unfold addExpression, no_panic. by repeat case_match. }
  destruct (ofold addExpression _ _); simpl; [|done|done].
  assert (no_panic (ofold checkField () (imap pair (MatchFields t)))) as Hf.
  { apply ofold_no_panic. intros [] [j req]. unfold checkField, no_panic. case_decide; [done|]. case_decide; [done|].
    apply ofold_no_panic. intros [] name. by destruct (IsDNS1123Subdomain name). }
  by destruct (ofold checkField _ _).
Qed.

Lemma CompileFor_no_panic ts allowWeights component : no_panic (CompileFor ts allowWeights component).
Proof.
  destruct ts as [ts|]; [|done]. unfold CompileFor. case_decide; [done|]. apply ofold_no_panic.
  intros s [j t]. unfold addTerm. pose proof (compileTerm_no_panic t allowWeights). by destruct (compileTerm t allowWeights).
Qed.

(** The terms of a placement are in one form: integers or ratios. *)
Definition oneForm (ts : list ClusterAffinityTerm) : Prop :=
  inRatioForm ts = true → ∀ t w, t ∈ ts → Weights t = Some w → Forall (λ f, f = None) (integersOf w).

(** A term says something of routers, by themselves or by default. *)
Definition weighsRouters (t : ClusterAffinityTerm) : Prop :=
  ∃ w, Weights t = Some w
    ∧ (is_Some (Router w) ∨ is_Some (Default w) ∨ is_Some (RouterReplicas w) ∨ is_Some (DefaultReplicas w)).

Lemma existsb_weights (P : ClusterAffinityWeights → bool) ts :
  existsb (λ t, match Weights t with Some w => P w | None => false end) ts = true ↔
  ∃ t w, t ∈ ts ∧ Weights t = Some w ∧ P w = true.
Proof.
  rewrite existsb_true. split.
  - intros (t & Ht & HP). destruct (Weights t) as [w|] eqn:Hw; [|done]. by exists t, w.
  - intros (t & w & Ht & Hw & HP). exists t. by rewrite Hw.
Qed.

Lemma SetsWeights_false ts : SetsWeights ts = false ↔ ∀ t, t ∈ ts → Weights t = None.
Proof.
  unfold SetsWeights. rewrite existsb_false. apply forall_proper. intros t.
  by rewrite bool_decide_eq_false, <-eq_None_not_Some.
Qed.

Lemma integers_none w : Forall (λ f, f = None) (integersOf w) → Router w = None ∧ Default w = None.
Proof. unfold integersOf. rewrite !Forall_cons. naive_solver. Qed.

(** Routers are divided exactly where no term sets weights, or some term weighs
    them by themselves or by default. *)
Lemma DividesRouters_iff ts :
  oneForm ts → DividesRouters ts = true ↔ (∀ t, t ∈ ts → Weights t = None) ∨ ∃ t, t ∈ ts ∧ weighsRouters t.
Proof.
  unfold oneForm, DividesRouters, weighsRouters. intros Hone. rewrite UsesRatios_form.
  destruct (inRatioForm ts) eqn:Hu; rewrite ?orb_true_iff, existsb_weights; setoid_rewrite orb_true_iff;
    setoid_rewrite bool_decide_eq_true.
  - split; [naive_solver|]. intros [Hn|(t & Ht & w & Hw & H)].
    + apply existsb_weights in Hu as (t & w & Ht & Hw & _). rewrite Hn in Hw by done. done.
    + exists t, w. split_and!; [done|done|]. destruct (integers_none w (Hone eq_refl t w Ht Hw)) as [E1 E2].
      rewrite E1, E2 in H. destruct H as [[? ?]|[[? ?]|[?|?]]]; [done|done|by right|by left].
  - rewrite negb_true_iff, SetsWeights_false. split; [naive_solver|]. intros [Hn|(t & Ht & w & Hw & H)]; [by left|right].
    exists t, w. split_and!; [done|done|].
    assert (givesRatios w = false) as E%givesRatios_false.
    { unfold inRatioForm in Hu. rewrite existsb_false in Hu. specialize (Hu t Ht). by rewrite Hw in Hu. }
    injection E as E1 _ _ E4. rewrite E1, E4 in H. destruct H as [?|[?|[[? ?]|[? ?]]]]; [by right|by left|done|done].
Qed.

(** Where routers are not divided, a term weighs them as it weighs the engine. *)
Lemma routers_follow_engine ts t :
  oneForm ts → DividesRouters ts = false → t ∈ ts → shareFor "router" t = shareFor "engine" t.
Proof.
  intros Hone Hd Ht. assert (¬ weighsRouters t) as Hn.
  { intros H. assert (DividesRouters ts = true) as E by (apply DividesRouters_iff; [done|right; by exists t]). congruence. }
  unfold shareFor. destruct (Weights t) as [w|] eqn:Hw; [|done]. cbn [mbind option_bind].
  assert (Router w = None ∧ Default w = None ∧ RouterReplicas w = None ∧ DefaultReplicas w = None) as (E1 & E2 & E3 & E4).
  { unfold weighsRouters in Hn. rewrite !eq_None_not_Some. split_and!; intros ?; apply Hn; exists w; tauto. }
  rewrite E1, E2, E3, E4. destruct (givesRatios w); [by destruct (EngineReplicas w)|by destruct (Engine w)].
Qed.
End facts.

(** C38: A compiled affinity says what its terms say.  Compiling succeeds exactly
    for 1 to 64 valid terms (expressions with one of the six operators, name
    fields, weights in one form and positive), and never panics.  A cluster then
    matches, for every component alike, exactly when some term selects it, and the
    match lists those terms in order.  It weighs the sum of what they give the
    component - from its own field, the default or the engine's, the least of a
    ratio or an integer, one where a term gives nothing - or one where no term
    gives the component anything; a match weighs at least one and no sum
    overflows.  The maximum is the same sum of the ratios' other ends, or zero
    where no term is in ratio form.  Routers are divided over the clusters exactly
    where no term sets weights or one weighs them by themselves or by default, and
    otherwise each term weighs them as it weighs the engine. *)
Theorem affinity_exact {Lib : LabelLib} (ts : list ClusterAffinityTerm) (allowWeights : bool) (component : string)
    (cluster : WorkloadCluster) :
  LabelLaws → Forall int32Weights ts →
  (is_ok (CompileFor (Some ts) allowWeights component) = true ↔
     (1 ≤ length ts ≤ 64)%nat ∧ Forall (validTerm allowWeights) ts)
  ∧ no_panic (CompileFor (Some ts) allowWeights component)
  ∧ (∀ s, CompileFor (Some ts) allowWeights component = Ok s →
       let h := hits (imap pair ts) cluster in
       let '(m, matched) := Match (Some s) (Some cluster) in
       (matched = true ↔ ∃ t, t ∈ ts ∧ selects t cluster = true)
       ∧ TermIndexes m = (λ it, Z.of_nat it.1) <$> h
       ∧ Weight m = totalOf (weighs component ts) (weightOf component) h
       ∧ MaxWeight m = (if inRatioForm ts then totalOf (weighs component ts) (maxWeightOf component) h else 0)
       ∧ (matched = true → 1 ≤ Weight m ≤ 64 * MaxInt32))
  ∧ (oneForm ts →
     (DividesRouters ts = true ↔ (∀ t, t ∈ ts → Weights t = None) ∨ ∃ t, t ∈ ts ∧ weighsRouters t)
     ∧ (DividesRouters ts = false → ∀ t, t ∈ ts → shareFor "router" t = shareFor "engine" t)).
Proof.
  intros Laws Hi. split_and!; [| apply CompileFor_no_panic| |].
  3: { intros Hone. split; [by apply DividesRouters_iff|]. intros ? t Ht. by apply (routers_follow_engine ts). }
  { destruct (CompileFor (Some ts) allowWeights component) as [s|e|] eqn:Hc.
    - apply CompileFor_ok in Hc as (? & ? & _). by split.
    - split; [done|]. intros [Hl Hv]. by rewrite (proj2 (CompileFor_ok _ _ _ _) (conj Hl (conj Hv eq_refl))) in Hc.
    - by apply CompileFor_no_panic in Hc. }
  intros s (Hl & Hv & ->)%CompileFor_ok h. rewrite <-UsesRatios_form. unfold Match. cbn [unconstrained].
  rewrite (foldl_matchTerm allowWeights component ts cluster) by (done || lia). fold h. cbn [weighted ratios].
  assert (∀ it, it ∈ h → 1 ≤ weightOf component it.2 ≤ MaxInt32) as Hb.
  { intros it [_ (j & t & -> & Hj%list_elem_of_lookup_2)%elem_of_lookup_imap]%list_elem_of_filter. simpl.
    rewrite Forall_forall in Hv, Hi. destruct (Hv t Hj) as (_ & _ & Hw & _).
    by destruct (weights_bounded allowWeights component t Hw (Hi t Hj)). }
  assert (length h ≤ 64)%nat as Hlen.
  { unfold h, hits. rewrite length_filter, length_imap. unfold MaxClusterAffinityTerms in *. lia. }
  pose proof (totalOf_bounded (weighs component ts) (weightOf component) h Hb) as [Hb1 Hb2].
  assert (h ≠ [] ↔ ∃ t, t ∈ ts ∧ selects t cluster = true) as Hh by apply hits_nil_iff.
  assert ((λ it : nat * ClusterAffinityTerm, Z.of_nat it.1) <$> h ≠ [] ↔ h ≠ []) as Hm by (by destruct h).
  destruct (UsesRatios ts); simpl; rewrite bool_decide_eq_true, Hm; split_and!; try done; intros Hne%Hb2; lia.
Qed.

(** Label selectors with the set operators, to compute with. *)
Definition setMatches (r : string * selectionOperator * list string) (ls : gmap string string) : bool :=
  let '(key, op, values) := r in
  match op, ls !! key with
  | OpIn, Some v => bool_decide (v ∈ values)
  | OpNotIn, Some v => negb (bool_decide (v ∈ values))
  | OpNotIn, None => true
  | OpExists, Some _ => true
  | OpDoesNotExist, None => true
  | _, _ => false
  end.
#[export] Instance setLabels : LabelLib := {|
  Requirement := string * selectionOperator * list string;
  LabelSelector := list (string * selectionOperator * list string);
  LabelError := unit;
  NewRequirement key op values := match op with OpGreaterThan | OpLessThan => inl () | _ => inr (key, op, values) end;
  RequirementMatches := setMatches;
  Everything := [];
  Add s r := s ++ [r];
  Matches s ls := forallb (λ r, setMatches r ls) s;
  IsDNS1123Subdomain name := negb (bool_decide (name = ""));
|}.
#[export] Instance setLabels_laws : LabelLaws.
Proof. split; [done|]. intros s r ls. simpl. rewrite forallb_app. simpl. by rewrite andb_true_r. Qed.

Definition sampleTerms : list ClusterAffinityTerm :=
  [mkTerm (Some (mkWeights (Some 2) None None None None None None None)) [mkRequirement "region" "In" ["eu"; "us"]] [];
   mkTerm None [mkRequirement "gpu" "Exists" []] [mkRequirement "metadata.name" "NotIn" ["old"]]].
(** In ratio form, without a default: a decoder falls back to the engine, and routers are not divided. *)
Definition sampleRatios : list ClusterAffinityTerm :=
  [mkTerm (Some (mkWeights None None None None None (Some (mkRatio (Some 2) (Some 5))) (Some (mkRatio (Some 3) None)) None))
     [mkRequirement "region" "In" ["eu"; "us"]] [];
   mkTerm (Some (mkWeights None None None None None (Some (mkRatio None (Some 4))) None None))
     [mkRequirement "gpu" "Exists" []] []].
Definition sampleCluster : WorkloadCluster := mkCluster "c1" {["region" := "eu"; "gpu" := "h100"]}.

Lemma affinity_exact_witness :
  Forall int32Weights sampleTerms
  ∧ match CompileFor (Some sampleTerms) true RouterComponent with
    | Ok s => Match (Some s) (Some sampleCluster) = (mkMatch [0; 1] 3 0, true)
    | _ => False
    end
  ∧ is_ok (CompileFor (Some sampleTerms) true RouterComponent) = true
  ∧ Forall (validTerm true) sampleTerms
  ∧ match CompileFor (Some sampleRatios) true DecoderComponent with
    | Ok s => Match (Some s) (Some sampleCluster) = (mkMatch [0; 1] 4 5, true)
    | _ => False
    end
  ∧ oneForm sampleRatios ∧ DividesRouters sampleRatios = false
  ∧ ∀ t, t ∈ sampleRatios → shareFor "router" t = shareFor "engine" t.
Proof.
  assert (Forall int32Weights sampleTerms) as Hi.
  { unfold sampleTerms, int32Weights. repeat (constructor || split); simpl; intros; simplify_eq; lia. }
  assert (Forall int32Weights sampleRatios) as Hr.
  { repeat (apply Forall_cons; split); try apply Forall_nil_2; split; repeat (apply Forall_cons; split);
      try apply Forall_nil_2; intros ? [= <-]; simpl; lia. }
  assert (is_ok (CompileFor (Some sampleTerms) true RouterComponent) = true) as Hok by (vm_compute; reflexivity).
  assert (oneForm sampleRatios) as Hone.
  { intros _ t w Ht. unfold sampleRatios in Ht. apply elem_of_cons in Ht as [->|Ht%list_elem_of_singleton]; [|subst t];
      simpl; intros [= <-]; by repeat constructor. }
  assert (DividesRouters sampleRatios = false) as Hd by reflexivity.
  split_and!; [done| |done| | |done|done|].
  - vm_compute. reflexivity.
  - by apply (affinity_exact sampleTerms true RouterComponent sampleCluster setLabels_laws Hi).
  - vm_compute. reflexivity.
  - by apply (affinity_exact sampleRatios true DecoderComponent sampleCluster setLabels_laws Hr).
Defined.
