(* ===== verification/BatchPlan.v ===== *)
(** * The batches of a prefill/decode group

    [pkg/controller/v1beta1/inferenceservice/reconcilers/omenative/coordination/batch_plan.go]:
    the ratio rule plans the batches of both sides of a rollout group together.
    Before each batch every batch up to both sides' steps is tried, and the best
    one by [beats] is started: within the tolerance the largest, outside it the
    one closest to the line. *)

From S2P Require Import Prelude.
Local Open Scope Z_scope.

Definition min32 (a b : Z) : Z := if decide (a < b) then a else b.

Definition scaledSkew (prefill decode pNew dNew : Z) : Z :=
  let skew := i64 (i64 (i64 (pNew * decode) - i64 (dNew * prefill)) * 100) in
  if decide (skew < 0) then i64 (- skew) else skew.

Record batchChoice := mkChoice { cp : Z; cd : Z; fits : bool; skew : Z }.

Definition beats (c o : batchChoice) : bool :=
  if decide (fits c ≠ fits o) then fits c
  else if decide (fits c = true ∧ i32 (cp c + cd c) ≠ i32 (cp o + cd o)) then
    bool_decide (i32 (cp c + cd c) > i32 (cp o + cd o))
  else if decide (skew c ≠ skew o) then bool_decide (skew c < skew o)
  else if decide (i32 (cp c + cd c) ≠ i32 (cp o + cd o)) then
    bool_decide (i32 (cp c + cd c) > i32 (cp o + cd o))
  else bool_decide (cd c > cd o).

(** The values of a loop [for b := n; b >= 0; b--]. *)
Definition countdown (n : Z) : list Z := reverse (seqZ 0 (n + 1)).

(** The batches the two nested loops visit, the empty one skipped. *)
Definition offered (fp fd : Z) : list (Z * Z) :=
  filter (λ b, i32 (b.1 + b.2) ≠ 0) (bp ← countdown fp; (bp,.) <$> countdown fd).

Definition choiceOf (prefill decode p d tolerancePercent : Z) (b : Z * Z) : batchChoice :=
  let limit := i64 (i64 (tolerancePercent * prefill) * decode) in
  let s := scaledSkew prefill decode (i32 (p + b.1)) (i32 (d + b.2)) in
  mkChoice b.1 b.2 (bool_decide (s ≤ limit)) s.

(** [best] and [found] as one option: nothing is found yet at [None]. *)
Definition keepBest (best : option batchChoice) (c : batchChoice) : option batchChoice :=
  match best with
  | None => Some c
  | Some o => if beats c o then Some c else best
  end.

Definition fitBatch (prefill decode p d fp fd tolerancePercent : Z) : Z * Z :=
  match fold_left keepBest (choiceOf prefill decode p d tolerancePercent <$> offered fp fd) None with
  | Some best => (cp best, cd best)
  | None => (0, 0)
  end.

(** The loop, with the marks it appends; [None] is a loop that has not ended. *)
Fixpoint planFrom (fuel : nat) (prefill decode prefillStep decodeStep tolerancePercent p d : Z)
    : option (list Z * list Z) :=
  if decide (p < prefill ∨ d < decode) then
    match fuel with
    | O => None
    | S fuel =>
        let b := fitBatch prefill decode p d (min32 prefillStep (i32 (prefill - p)))
                   (min32 decodeStep (i32 (decode - d))) tolerancePercent in
        let p' := i32 (p + b.1) in
        let d' := i32 (d + b.2) in
        '(pm, dm) ← planFrom fuel prefill decode prefillStep decodeStep tolerancePercent p' d';
        Some (p' :: pm, d' :: dm)
    end
  else Some ([], []).

Definition pairedBatchPlan (prefill decode prefillStep decodeStep tolerancePercent : Z)
    : option (list Z * list Z) :=
  if decide (prefill ≤ 0 ∨ decode ≤ 0 ∨ prefillStep ≤ 0 ∨ decodeStep ≤ 0) then Some ([], [])
  else planFrom (Z.to_nat (prefill + decode)) prefill decode prefillStep decodeStep tolerancePercent 0 0.

(** ** The ranking *)

Lemma beats_spec c o :
  beats c o = true ↔
    let larger := i32 (cp c + cd c) > i32 (cp o + cd o) in
    let same := i32 (cp c + cd c) = i32 (cp o + cd o) in
    match fits c, fits o with
    | true, false => True
    | false, true => False
    | true, true => larger ∨ same ∧ (skew c < skew o ∨ skew c = skew o ∧ cd c > cd o)
    | false, false => skew c < skew o ∨ skew c = skew o ∧ (larger ∨ same ∧ cd c > cd o)
    end.
Proof.
  unfold beats. generalize (i32 (cp c + cd c)) (i32 (cp o + cd o)). intros T U.
  destruct (fits c), (fits o); cbv zeta; repeat case_decide; rewrite ?bool_decide_eq_true; intuition (congruence || lia).
Qed.

Lemma beats_irrefl c : beats c c = false.
Proof. apply not_true_is_false. rewrite beats_spec. cbv zeta. destruct (fits c); lia. Qed.

Lemma beats_trans a b c : beats a b = true → beats b c = true → beats a c = true.
Proof. rewrite !beats_spec. cbv zeta. destruct (fits a), (fits b), (fits c); tauto || lia. Qed.

Lemma keepBest_optimal (cs : list batchChoice) best :
  ∃ f, fold_left keepBest cs (Some best) = Some f ∧ f ∈ best :: cs
    ∧ (f = best ∨ beats f best = true) ∧ ∀ c, c ∈ best :: cs → beats c f = false.
Proof.
  revert best. induction cs as [|c cs IH]; intros best; cbn [fold_left].
  - exists best. split_and!; [done|set_solver|by left|].
    intros c ->%list_elem_of_singleton. apply beats_irrefl.
  - cbn [keepBest]. destruct (beats c best) eqn:Hb.
    + destruct (IH c) as (f & -> & Hin & Hup & Hopt).
      assert (Hfb : beats f best = true) by (destruct Hup as [->|?]; [done|by eapply beats_trans]).
      exists f. split_and!; [done|set_solver|by right|].
      intros x [->|Hx]%elem_of_cons; [|by apply Hopt].
      apply not_true_is_false. intros Hbf.
      pose proof (beats_trans _ _ _ Hbf Hfb) as Ht. by rewrite beats_irrefl in Ht.
    + destruct (IH best) as (f & -> & Hin & Hup & Hopt). exists f. split_and!; [done|set_solver|done|].
      intros x [->|[->|Hx]%elem_of_cons]%elem_of_cons; [apply Hopt; set_solver| |apply Hopt; set_solver].
      apply not_true_is_false. intros Hcf.
      destruct Hup as [->|Hup]; [congruence|]. pose proof (beats_trans _ _ _ Hcf Hup). congruence.
Qed.

(** ** What the plan promises, on unbounded integers *)

(** The gap between the shares [p / prefill] and [d / decode], scaled by
    [prefill * decode]. *)
Definition gap (prefill decode : Z) (m : Z * Z) : Z := Z.abs (m.1 * decode - m.2 * prefill).

(** A batch a member of each side may start: within the steps and the counts, and
    not empty. *)
Definition startable (prefill decode ps ds : Z) (m n : Z * Z) : Prop :=
  0 ≤ n.1 - m.1 ≤ Z.min ps (prefill - m.1) ∧ 0 ≤ n.2 - m.2 ≤ Z.min ds (decode - m.2) ∧ n ≠ m.

Definition tolerable (prefill decode tol : Z) (m : Z * Z) : Prop := 100 * gap prefill decode m ≤ tol * prefill * decode.

#[export] Instance tolerable_dec prefill decode tol m : Decision (tolerable prefill decode tol m).
Proof. unfold tolerable. apply _. Defined.

Definition size (n : Z * Z) : Z := n.1 + n.2.

(** [n] is the batch to start from [m]: startable; if any startable batch ends within
    the tolerance then it does, it is a largest such batch, and of those the closest to
    the ratio; if none does, it is as close to the ratio as any. *)
Definition best_batch (prefill decode ps ds tol : Z) (m n : Z * Z) : Prop :=
  startable prefill decode ps ds m n
  ∧ (∀ x, startable prefill decode ps ds m x → tolerable prefill decode tol x →
       tolerable prefill decode tol n
       ∧ (size x < size n ∨ (size x = size n ∧ gap prefill decode n ≤ gap prefill decode x)))
  ∧ (¬ tolerable prefill decode tol n →
       ∀ x, startable prefill decode ps ds m x → gap prefill decode n ≤ gap prefill decode x).

(** Every mark follows from the one before it by a best batch. *)
Fixpoint batches_from (prefill decode ps ds tol : Z) (m : Z * Z) (ms : list (Z * Z)) : Prop :=
  match ms with
  | [] => m = (prefill, decode)
  | n :: ms => best_batch prefill decode ps ds tol m n ∧ batches_from prefill decode ps ds tol n ms
  end.

Record planned (prefill decode ps ds tol : Z) : Prop := {
  pl_counts : 0 < prefill ∧ 0 < decode ∧ prefill + decode ≤ MaxInt32;
  pl_steps : 0 < ps ≤ MaxInt32 ∧ 0 < ds ≤ MaxInt32;
  pl_tol : 0 ≤ tol ≤ 100;
  pl_product : prefill * decode * 100 ≤ MaxInt64;
}.

(** ** One batch *)

Lemma elem_of_countdown n x : x ∈ countdown n ↔ 0 ≤ x ≤ n.
Proof. unfold countdown. rewrite elem_of_reverse, elem_of_seqZ. lia. Qed.

Lemma elem_of_offered fp fd b :
  b ∈ offered fp fd ↔ i32 (b.1 + b.2) ≠ 0 ∧ 0 ≤ b.1 ≤ fp ∧ 0 ≤ b.2 ≤ fd.
Proof.
  unfold offered. rewrite list_elem_of_filter, list_elem_of_bind. destruct b as [x y]. cbn [fst snd].
  setoid_rewrite list_elem_of_fmap. setoid_rewrite elem_of_countdown. naive_solver.
Qed.

Lemma min32_min a b : min32 a b = Z.min a b.
Proof. unfold min32. case_decide; lia. Qed.

Section one_batch.
Context (prefill decode ps ds tol : Z) (Hplan : planned prefill decode ps ds tol).

Lemma scaledSkew_gap x y : 0 ≤ x ≤ prefill → 0 ≤ y ≤ decode →
  scaledSkew prefill decode x y = 100 * gap prefill decode (x, y).
Proof using Hplan.
  destruct Hplan as [Hc _ _ Hm]. intros Hx Hy. unfold scaledSkew, gap. cbn [fst snd].
  assert (0 ≤ x * decode ≤ prefill * decode) by nia. assert (0 ≤ y * prefill ≤ prefill * decode) by nia.
  unwrap. case_decide; unwrap; lia.
Qed.

Context (p d : Z) (Hp : 0 ≤ p ≤ prefill) (Hd : 0 ≤ d ≤ decode).

Lemma choiceOf_reads b : 0 ≤ b.1 ≤ prefill - p → 0 ≤ b.2 ≤ decode - d →
  let n := (p + b.1, d + b.2) in
  choiceOf prefill decode p d tol b
  = mkChoice b.1 b.2 (bool_decide (100 * gap prefill decode n ≤ tol * prefill * decode)) (100 * gap prefill decode n).
Proof using Hplan Hp Hd.
  intros Hb1 Hb2 n. destruct (Hplan) as [Hc Hs Ht Hm]. unfold choiceOf.
  assert (0 ≤ tol * prefill ≤ 100 * MaxInt32) by nia.
  assert (0 ≤ tol * prefill * decode ≤ prefill * decode * 100) by nia.
  unwrap. rewrite scaledSkew_gap by lia. done.
Qed.

(** The offers are the startable batches. *)
Lemma offered_startable b :
  b ∈ offered (min32 ps (i32 (prefill - p))) (min32 ds (i32 (decode - d)))
  ↔ startable prefill decode ps ds (p, d) (p + b.1, d + b.2).
Proof using Hplan Hp Hd.
  destruct (Hplan) as [Hc Hs _ _]. rewrite elem_of_offered, !min32_min. unwrap.
  unfold startable. cbn [fst snd]. destruct b as [x y]. cbn [fst snd]. split.
  - intros (Hne & Hx & Hy). split_and!; [lia..|]. rewrite i32_id in Hne by (unfold int32_range; lia).
    intros [=]. lia.
  - intros (Hx & Hy & Hne). split_and!; [|lia..]. unwrap. intros Hz. apply Hne. f_equal; lia.
Qed.

(** The candidate that ends at the mark [n]. *)
Definition candidate (n : Z * Z) : batchChoice :=
  mkChoice (n.1 - p) (n.2 - d) (bool_decide (tolerable prefill decode tol n)) (100 * gap prefill decode n).

Lemma candidate_offer b : startable prefill decode ps ds (p, d) (p + b.1, d + b.2) →
  choiceOf prefill decode p d tol b = candidate (p + b.1, d + b.2).
Proof using Hplan Hp Hd.
  intros (Hb1 & Hb2 & _). cbn [fst snd] in *. rewrite choiceOf_reads by lia.
  unfold candidate. cbn [fst snd]. f_equal; lia.
Qed.

(** The batch chosen is startable, and no startable batch beats it. *)
Lemma fitBatch_unbeaten : p < prefill ∨ d < decode →
  let b := fitBatch prefill decode p d (min32 ps (i32 (prefill - p))) (min32 ds (i32 (decode - d))) tol in
  startable prefill decode ps ds (p, d) (p + b.1, d + b.2)
  ∧ ∀ n, startable prefill decode ps ds (p, d) n → beats (candidate n) (candidate (p + b.1, d + b.2)) = false.
Proof using Hplan Hp Hd.
  intros Hleft. cbv zeta. unfold fitBatch. pose proof offered_startable as Hoff.
  set (offers := offered _ _) in *. clearbody offers. destruct offers as [|o offers].
  { exfalso. assert ((if decide (p < prefill) then (1, 0) else (0, 1)) ∈ ([] : list (Z * Z))) as []%elem_of_nil.
    apply Hoff. destruct (Hplan) as [_ Hs _ _]. unfold startable.
    case_decide; cbn; (split_and!; [lia..|intros [=]; lia]). }
  rewrite fmap_cons. cbn [fold_left keepBest].
  destruct (keepBest_optimal (choiceOf prefill decode p d tol <$> offers) (choiceOf prefill decode p d tol o))
    as (f & -> & Hin & _ & Hopt).
  rewrite <-fmap_cons in Hin, Hopt. apply list_elem_of_fmap in Hin as (b & -> & Hb%Hoff).
  change (cp (choiceOf prefill decode p d tol b), cd (choiceOf prefill decode p d tol b)) with (b.1, b.2).
  cbn [fst snd]. split; [done|]. intros n Hn. rewrite <-(candidate_offer b Hb).
  assert (Hn' : n = (p + (n.1 - p, n.2 - d).1, d + (n.1 - p, n.2 - d).2)) by (destruct n; cbn [fst snd]; f_equal; lia).
  rewrite Hn' in Hn |- *. rewrite <-candidate_offer by done.
  apply Hopt, list_elem_of_fmap_2, Hoff, Hn.
Qed.

Lemma fitBatch_best : p < prefill ∨ d < decode →
  let b := fitBatch prefill decode p d (min32 ps (i32 (prefill - p))) (min32 ds (i32 (decode - d))) tol in
  best_batch prefill decode ps ds tol (p, d) (p + b.1, d + b.2).
Proof using Hplan Hp Hd.
  intros Hleft. pose proof (fitBatch_unbeaten Hleft) as [Hb Hbeat]. cbv zeta in *.
  set (b := fitBatch _ _ _ _ _ _ _) in *. set (n := (p + b.1, d + b.2)) in *. clearbody n. destruct (Hplan) as [Hc Hs _ _].
  unfold best_batch, size. split; [done|split].
  - intros x Hx Hfit. specialize (Hbeat x Hx). destruct Hx as (Hx1 & Hx2 & _), Hb as (Hb1 & Hb2 & _). cbn [fst snd] in *.
    apply not_true_iff_false in Hbeat. rewrite beats_spec in Hbeat. revert Hbeat.
    unfold candidate. cbn [fits cp cd skew]. cbv zeta. unwrap. rewrite (bool_decide_eq_true_2 (tolerable _ _ _ x)) by done.
    case_bool_decide; [|tauto]. intros. split; [done|lia].
  - intros Hno x Hx. specialize (Hbeat x Hx). apply not_true_iff_false in Hbeat. rewrite beats_spec in Hbeat.
    revert Hbeat. unfold candidate. cbn [fits cp cd skew]. cbv zeta. rewrite (bool_decide_eq_false_2 (tolerable _ _ _ n)) by done.
    case_bool_decide; [tauto|]. intros. lia.
Qed.
End one_batch.

(** ** The whole plan *)

Lemma planFrom_batches fuel prefill decode ps ds tol p d :
  planned prefill decode ps ds tol → 0 ≤ p ≤ prefill → 0 ≤ d ≤ decode →
  prefill - p + (decode - d) ≤ Z.of_nat fuel →
  ∃ ms, planFrom fuel prefill decode ps ds tol p d = Some (ms.*1, ms.*2)
    ∧ batches_from prefill decode ps ds tol (p, d) ms.
Proof.
  intros Hplan. revert p d. induction fuel as [|fuel IH]; intros p d Hp Hd Hf; cbn [planFrom].
  { rewrite decide_False by lia. exists []. split; [done|]. cbn. f_equal; lia. }
  case_decide as Hleft; [|exists []; split; [done|]; cbn; f_equal; lia].
  pose proof (fitBatch_best prefill decode ps ds tol Hplan p d Hp Hd Hleft) as Hbest. cbv zeta in *.
  set (b := fitBatch _ _ _ _ _ _ _) in *. clearbody b. pose proof Hbest as ((Hb1 & Hb2 & Hne) & _). cbn [fst snd] in *.
  destruct (Hplan) as [Hc _ _ _]. unwrap.
  assert (b.1 + b.2 ≠ 0) by (intros ?; apply Hne; f_equal; lia).
  destruct (IH (p + b.1) (d + b.2)) as (ms & -> & Hms); [lia..|].
  exists ((p + b.1, d + b.2) :: ms). by rewrite !fmap_cons.
Qed.

(** One Instance of the side that is behind moves the gap by one share of it. *)
Lemma behind_step p d prefill decode : 0 < decode → p * decode - d * prefill ≤ 0 →
  Z.abs ((p + 1) * decode - d * prefill) ≤ Z.max (Z.abs (p * decode - d * prefill)) (Z.max prefill decode).
Proof.
  intros Hd Hb. replace ((p + 1) * decode - d * prefill) with (p * decode - d * prefill + decode) by lia.
  revert Hb. generalize (p * decode - d * prefill). lia.
Qed.

Lemma ahead_step p d prefill decode : 0 < prefill → 0 ≤ p * decode - d * prefill →
  Z.abs (p * decode - (d + 1) * prefill) ≤ Z.max (Z.abs (p * decode - d * prefill)) (Z.max prefill decode).
Proof.
  intros Hd Hb. replace (p * decode - (d + 1) * prefill) with (p * decode - d * prefill - prefill) by lia.
  revert Hb. generalize (p * decode - d * prefill). lia.
Qed.

(** A prefill side that is not behind, or has nothing left, leaves the decode side
    something to start. *)
Lemma ahead_left p d prefill decode : 0 < prefill → 0 < decode → 0 ≤ p ≤ prefill → 0 ≤ d ≤ decode →
  p < prefill ∨ d < decode → ¬ (p * decode - d * prefill ≤ 0 ∧ p < prefill) →
  d < decode ∧ 0 ≤ p * decode - d * prefill.
Proof.
  intros Hpp Hdd Hp Hd Hleft Hn. destruct (decide (p < prefill)) as [Hlt|Hge].
  - assert (0 < p * decode - d * prefill) by (clear -Hn Hlt; lia). split; [|lia].
    destruct (decide (d < decode)); [done|]. assert (d = decode) as -> by lia. nia.
  - assert (p = prefill) as -> by lia. split; [lia|nia].
Qed.

(** A best batch never opens the gap past the tolerance, or past one Instance of the
    smaller side where the tolerance is tighter than that. *)
Lemma best_batch_gap prefill decode ps ds tol m n :
  planned prefill decode ps ds tol → 0 ≤ m.1 ≤ prefill → 0 ≤ m.2 ≤ decode →
  let bound := Z.max (tol * prefill * decode) (100 * Z.max prefill decode) in
  100 * gap prefill decode m ≤ bound → best_batch prefill decode ps ds tol m n → 100 * gap prefill decode n ≤ bound.
Proof.
  intros [Hc Hs Ht _] Hm1 Hm2 bound Hm ((Hn1 & Hn2 & Hne) & _ & Hleast).
  destruct (decide (tolerable prefill decode tol n)) as [?|Hno]; [unfold tolerable in *; lia|].
  specialize (Hleast Hno). unfold gap in *. destruct m as [p d], n as [p' d']. cbn [fst snd] in *.
  assert (p < prefill ∨ d < decode).
  { destruct (decide (p' = p)); [right|lia]. destruct (decide (d' = d)); [|lia]. by subst. }
  assert (Hside : Z.abs (p' * decode - d' * prefill)
    ≤ Z.max (Z.abs (p * decode - d * prefill)) (Z.max prefill decode)).
  { destruct (decide (p * decode - d * prefill ≤ 0 ∧ p < prefill)) as [[Hbehind Hlt]|Hahead].
    - etransitivity; [apply (Hleast (p + 1, d)); unfold startable; cbn [fst snd]; split_and!; [lia..|intros [=]; lia]|].
      cbn [fst snd]. apply behind_step; [lia|done].
    - assert (d < decode ∧ 0 ≤ p * decode - d * prefill) as [Hlt Hge] by (apply ahead_left; [lia..|done]).
      etransitivity; [apply (Hleast (p, d + 1)); unfold startable; cbn [fst snd]; split_and!; [lia..|intros [=]; lia]|].
      cbn [fst snd]. apply ahead_step; [lia|done]. }
  clear -Hside Hm Hc. subst bound. revert Hside Hm. generalize (Z.abs (p' * decode - d' * prefill)).
  generalize (Z.abs (p * decode - d * prefill)) (tol * prefill * decode). lia.
Qed.

Lemma batches_gap prefill decode ps ds tol ms m :
  planned prefill decode ps ds tol → 0 ≤ m.1 ≤ prefill → 0 ≤ m.2 ≤ decode →
  let bound := Z.max (tol * prefill * decode) (100 * Z.max prefill decode) in
  100 * gap prefill decode m ≤ bound → batches_from prefill decode ps ds tol m ms →
  Forall (λ n, 100 * gap prefill decode n ≤ bound) ms.
Proof.
  intros Hplan. revert m. induction ms as [|n ms IH]; intros m Hm1 Hm2 bound Hm; [done|].
  intros [Hb Hms]. assert (Hn : 100 * gap prefill decode n ≤ bound) by by eapply best_batch_gap.
  constructor; [done|]. destruct Hb as ((Hn1 & Hn2 & _) & _). apply (IH n); [lia..|done|done].
Qed.

(** C35: the ratio rule's plan of a prefill/decode group.  For two positive counts, two
    positive steps and a tolerance in percent, with the counts small enough for the
    machine integers, the planning loop ends; its marks lead from nothing started to
    both counts, each batch not empty and within both steps; a batch is the largest
    that ends within the tolerance when one does, the closest to the ratio among those,
    and otherwise the closest to the ratio of all; and after no batch is the gap
    between the two sides' shares past the tolerance, or past one Instance of the
    smaller side where that is more. *)
Theorem pairedBatchPlan_plans prefill decode ps ds tol : planned prefill decode ps ds tol →
  ∃ ms : list (Z * Z), pairedBatchPlan prefill decode ps ds tol = Some (ms.*1, ms.*2)
    ∧ batches_from prefill decode ps ds tol (0, 0) ms
    ∧ Forall (λ n, 100 * gap prefill decode n ≤ Z.max (tol * prefill * decode) (100 * Z.max prefill decode)) ms.
Proof.
  intros Hplan. destruct (Hplan) as [Hc Hs Ht _]. unfold pairedBatchPlan. rewrite decide_False by lia.
  destruct (planFrom_batches (Z.to_nat (prefill + decode)) prefill decode ps ds tol 0 0) as (ms & -> & Hms); [done|lia..|].
  exists ms. split; [done|]. split; [done|]. refine (batches_gap prefill decode ps ds tol ms (0, 0) Hplan _ _ _ Hms); cbn [fst snd]; [lia..|].
  unfold gap. cbn [fst snd]. lia.
Qed.

Lemma pairedBatchPlan_plans_witness :
  planned 12 8 2 1 10
  ∧ pairedBatchPlan 12 8 2 1 10 = Some ([2; 4; 5; 7; 8; 10; 11; 12], [1; 2; 3; 4; 5; 6; 7; 8])
  ∧ ∃ ms : list (Z * Z), pairedBatchPlan 12 8 2 1 10 = Some (ms.*1, ms.*2)
    ∧ batches_from 12 8 2 1 10 (0, 0) ms
    ∧ Forall (λ n, 100 * gap 12 8 n ≤ Z.max (10 * 12 * 8) (100 * Z.max 12 8)) ms.
Proof.
  assert (planned 12 8 2 1 10) by (constructor; lia).
  split; [done|]. split; [vm_compute; reflexivity|]. by apply pairedBatchPlan_plans.
Defined.
