(* ===== verification/BatchMembers.v ===== *)
(** * A member of a rollout group, as the batch step reads it

    The reading half of
    [pkg/controller/v1beta1/inferenceservice/reconcilers/omenative/coordination/batch_step.go],
    with what it calls: the step of a member under its own and its group's budget
    ([pairing_floor.go], [status.go], [utils/intstr.go]), the Instances its partition
    holds ([workload/query/partition.go], [revision_id.go], [labels.go],
    [irprojector/irstatus_read.go]), and the decoding of a published row
    ([v1beta1convert/convert.go]).  The scaling of a percentage is the API machinery's,
    and is a parameter. *)

From stdpp Require Import pretty.
From Stdlib Require Import Ascii.
From S2P Require Import Prelude PlanIndices RowOwner BatchPlan.
Local Open Scope Z_scope.

Definition EngineComponent : string := "engine".
Definition DecoderComponent : string := "decoder".
Definition UpdateStrategyRecreatePod : string := "RecreatePod".
Definition UpdateStrategyInPlaceIfPossible : string := "InPlaceIfPossible".
Definition UpdateStrategyInPlaceOnly : string := "InPlaceOnly".
Definition InferenceReplicaParentGenerationAnnotationKey : string := "ome.io/parent-generation".
Definition InferenceReplicaTemplateHashAnnotationKey : string := "ome.io/template-hash".
Definition InstancePhaseDeleting : string := "Deleting".

(** ** The replica *)

Inductive IntOrString := IntVal (n : Z) | StrVal (s : string).

Record RollingUpdateSpec := mkRolling {
  MaxSurge : option IntOrString; MaxUnavailable : option IntOrString; RPartition : option Z }.
Record UpdateStrategySpec := mkUpdateStrategy { SType : string; RollingUpdate : option RollingUpdateSpec }.
Record LifecycleSpec := mkLifecycle { UpdateStrategy : option UpdateStrategySpec }.
Record InferenceReplicaPacing := mkIRPacing { PPartition : option Z; RollbackToRevision : option string }.
Record CoordinationPacing := mkPacing {
  GMaxSurge : option IntOrString; GMaxUnavailable : option IntOrString; RatioTolerancePercent : option Z }.

(** [InferenceReplica] with the fields the batch step reads; [Runners] holds the sizes
    of the runners and [PauseSurge] the one field of [PlacementExecution]. *)
Record InferenceReplica := mkReplica {
  IRAnnotations : gmap string string; IRGeneration : Z;
  Replicas : option Z; Lifecycle : option LifecycleSpec; Pacing : option InferenceReplicaPacing;
  Runners : list Z; PauseSurge : option bool; PlacementReplicaLimit : option Z;
  UpdateRevision : string; InstanceStatuses : list InstanceStatus; RetryBlocks : list RetryBlock;
  ObservedTemplateHash : string; ObservedGeneration : Z }.

(** [lc != nil && lc.UpdateStrategy != nil && lc.UpdateStrategy.RollingUpdate != nil]. *)
Definition rollingUpdateOf (lc : option LifecycleSpec) : option RollingUpdateSpec :=
  (lc ≫= UpdateStrategy) ≫= RollingUpdate.

(** ** Revisions *)

Fixpoint afterLastDash (s : string) : option string :=
  match s with
  | EmptyString => None
  | String c s =>
      match afterLastDash s with
      | Some r => Some r
      | None => if decide (c = "-"%char) then Some s else None
      end
  end.

(** The scan from the end stops before the first byte. *)
Definition RevisionHashFromControllerRevisionName (name : string) : string :=
  match name with
  | EmptyString => ""
  | String _ rest => default "" (afterLastDash rest)
  end.

Record RevisionID := mkRevision { rname : string; rhash : string }.

Definition RevisionFromName (name : string) : RevisionID :=
  if decide (name = "") then mkRevision "" ""
  else mkRevision name (RevisionHashFromControllerRevisionName name).

Definition Same (r other : RevisionID) : bool :=
  if decide (rhash r = "" ∨ rhash other = "") then false
  else if decide (rname r ≠ "" ∧ rname other ≠ "") then bool_decide (rname r = rname other)
  else bool_decide (rhash r = rhash other).

(** ** Published rows *)

Definition instancePhases : list string :=
  [InstancePhaseEmpty; InstancePhasePending; InstancePhaseCreating; InstancePhaseReady; InstancePhaseUpdating;
   InstancePhaseRestarting; InstancePhaseMigrating; InstancePhaseFailed; InstancePhaseDeleting].
Definition instanceOperationTypes : list string :=
  [InstanceOperationCreate; InstanceOperationUpdate; InstanceOperationRestart; InstanceOperationMigrate; InstanceOperationDelete].

(** The two enums have the same words on both sides; another word reads as the empty one. *)
Definition InstancePhaseToWorkload (v : string) : string := if decide (v ∈ instancePhases) then v else "".
Definition InstanceOperationTypeToWorkload (v : string) : string := if decide (v ∈ instanceOperationTypes) then v else "".

Definition InstanceOperationToWorkload (v : InstanceOperation) : InstanceOperation :=
  mkOperation (InstanceOperationTypeToWorkload (OType v)) (Step v) (SurgeIndex v) (RequestUUID v) (OTargetRevision v).

Definition InstanceStatusToWorkload (v : InstanceStatus) : InstanceStatus :=
  let phase := InstancePhaseToWorkload (Phase v) in
  let phase := if decide (phase = InstancePhaseRestarting ∧ Operation v = None) then InstancePhaseReady else phase in
  let operation := InstanceOperationToWorkload <$> Operation v in
  let published := mkStatus 0 0 phase (RunningRevision v) (TargetRevision v) 0 0 operation 0 None None in
  let phase := if PublishedReadyOffRunningRevision published || PublishedReadyKeepingSurgeOffRunningRevision published
               then InstancePhaseFailed else phase in
  mkStatus (Index v) (Incarnation v) phase (RunningRevision v) (TargetRevision v) (PodCount v) (ServingPodCount v)
    operation (ActiveOrdinal v) (LastFailure v) (ReadySince v).

Inductive batchRowClass := batchRowUntouched | batchRowPromoted | batchRowOpen | batchRowEnded.
#[export] Instance row_class_eq_dec : EqDecision batchRowClass.
Proof. solve_decision. Defined.

Definition classifyBatchRow (row : InstanceStatus) (target : string) : batchRowClass :=
  if decide (target = "") then batchRowUntouched
  else
    let op := Operation row in
    let update := bool_decide (OType <$> op = Some InstanceOperationUpdate) in
    let step := default "" (Step <$> op) in
    let opTarget := default "" (OTargetRevision <$> op) in
    if update && bool_decide (step = UpdateStepGangSurgeTarget ∨ step = UpdateStepGangSurgeTargetCleanup) then batchRowUntouched
    else
      let pinnedElsewhere := update && bool_decide (opTarget ≠ "" ∧ opTarget ≠ target) in
      if bool_decide (RunningRevision row = target) && negb pinnedElsewhere then batchRowPromoted
      else
        let toward := bool_decide (TargetRevision row = target) || (update && bool_decide (opTarget = target)) in
        if negb toward || (bool_decide (op ≠ None) && negb update) then batchRowUntouched
        else if bool_decide (Phase (InstanceStatusToWorkload row) = InstancePhaseFailed)
                || (update && bool_decide (step = UpdateStepParked)) then batchRowEnded
        else batchRowOpen.

(** ** The partition *)

Definition EffectivePartition (lifecycle : option LifecycleSpec) (pacing : option InferenceReplicaPacing) : option Z :=
  match pacing ≫= PPartition with
  | Some p => Some p
  | None => rollingUpdateOf lifecycle ≫= RPartition
  end.

Definition IRPartition (ir : option InferenceReplica) : Z :=
  match ir with
  | None => 0
  | Some ir => default 0 (EffectivePartition (Lifecycle ir) (Pacing ir))
  end.

Definition HeldByPartition (partition : option Z) (rank : Z) : bool :=
  match partition with
  | None => false
  | Some n => if decide (n ≤ 0) then false else bool_decide (rank < n)
  end.

(** A row the partition may hold; [None] is an unobserved Instance. *)
Definition holdCandidate (targetRevName : string) (row : option InstanceStatus) : option Z :=
  match row with
  | None => None
  | Some s =>
      if Same (RevisionFromName (RunningRevision s)) (RevisionFromName targetRevName) then None
      else if bool_decide (Owner (Some s) = OwnerUpdate) || UpdateContinuation s then None
      else if decide (OType <$> Operation s = Some InstanceOperationMigrate ∧ Phase s ≠ InstancePhaseMigrating) then None
      else Some (Index s)
  end.

(** The loop over the sorted candidates: it stops at the first one not held. *)
Fixpoint holdFrom (partition : option Z) (i : nat) (candidates : list Z) (held : gset Z) : gset Z :=
  match candidates with
  | [] => held
  | idx :: candidates =>
      if HeldByPartition partition (i32 (Z.of_nat i)) then holdFrom partition (S i) candidates ({[idx]} ∪ held) else held
  end.

Definition PartitionHeldIndices (partition : option Z) (observed : list (option InstanceStatus)) (targetRevName : string) : gset Z :=
  match partition with
  | None => ∅
  | Some n =>
      if decide (n ≤ 0) then ∅
      else holdFrom partition 0 (sort_slice Z.ltb (omap (holdCandidate targetRevName) observed)) ∅
  end.

Definition partitionHeldRows (ir : option InferenceReplica) (rows : list InstanceStatus) (target : string) : gset Z :=
  let partition := IRPartition ir in
  if decide (partition ≤ 0) then ∅
  else PartitionHeldIndices (Some partition) (Some ∘ InstanceStatusToWorkload <$> rows) target.

(** ** Steps *)

Definition effectiveDesiredReplicas (ir : option InferenceReplica) : Z :=
  match ir with
  | None => 0
  | Some r =>
      match Replicas r with
      | None => 0
      | Some n =>
          if decide (n ≤ 0) then 0
          else
            let desired := match PauseSurge r, PlacementReplicaLimit r with
                           | Some true, Some limit => Z.min n limit
                           | _, _ => n
                           end in
            Z.max desired 0
      end
  end.

Record pairFloor := mkFloor { known : bool; fdesired : Z; fmaxUnavailable : Z; ffloor : Z }.

Section scaling.
(** [intstr.GetScaledValueFromIntOrPercent] on a string, or its error. *)
Context (scaled : string → Z → bool → option Z).

Definition ScaledCountFromIntOrString (v : option IntOrString) (total : Z) (roundUp : bool) : Z :=
  match v with
  | None => 0
  | Some (IntVal n) => let n := i32 n in if decide (n < 0) then 0 else n
  | Some (StrVal s) =>
      match scaled s total roundUp with
      | None => 0
      | Some n =>
          if decide (n < 0) then 0
          else if decide (0 ≤ total ∧ total < n) then total
          else i32 n
      end
  end.

Definition MaxSurgeBudget (pacing : CoordinationPacing) (replicas : Z) : Z :=
  match GMaxSurge pacing with
  | None => ScaledCountFromIntOrString (Some (StrVal "25%")) replicas true
  | Some _ => ScaledCountFromIntOrString (GMaxSurge pacing) replicas true
  end.

Definition MaxUnavailableBudget (pacing : CoordinationPacing) (replicas : Z) : Z :=
  match GMaxUnavailable pacing with
  | None => 0
  | Some _ => ScaledCountFromIntOrString (GMaxUnavailable pacing) replicas true
  end.

(** The stricter of a budget and the replica's own setting of it. *)
Definition ownBudget (own : option IntOrString) (desired budget : Z) : Z :=
  match own with
  | None => budget
  | Some _ => let n := ScaledCountFromIntOrString own desired true in if decide (n < budget) then n else budget
  end.

Definition pairableMinimumUnder (ir : InferenceReplica) (desired budget : Z) : pairFloor :=
  let budget := ownBudget (rollingUpdateOf (Lifecycle ir) ≫= MaxUnavailable) desired budget in
  let floor := i32 (desired - budget) in
  mkFloor true desired budget (if decide (floor < 0) then 0 else floor).

Definition resolvePairFloor (ir : option InferenceReplica) (pacing : CoordinationPacing) : pairFloor :=
  let desired := effectiveDesiredReplicas ir in
  match ir with
  | Some r => if decide (desired ≤ 0) then mkFloor false 0 0 0
              else pairableMinimumUnder r desired (MaxUnavailableBudget pacing desired)
  | None => mkFloor false 0 0 0
  end.

Definition resolveSurgeStep (ir : option InferenceReplica) (pacing : CoordinationPacing) : Z * Z :=
  let desired := effectiveDesiredReplicas ir in
  match ir with
  | Some r => if decide (desired ≤ 0) then (0, 0)
              else (desired, ownBudget (rollingUpdateOf (Lifecycle r) ≫= MaxSurge) desired (MaxSurgeBudget pacing desired))
  | None => (0, 0)
  end.
End scaling.

Definition surgeStrategy (ir : option InferenceReplica) : bool :=
  match ir with
  | None => false
  | Some ir =>
      match Lifecycle ir ≫= UpdateStrategy with
      | None => true
      | Some u => bool_decide (SType u = UpdateStrategySurgeThenDrain ∨ SType u = "")
      end
  end.

Definition drainsFirst (ir : InferenceReplica) : bool :=
  match Lifecycle ir ≫= UpdateStrategy with
  | None => false
  | Some u =>
      if decide (SType u = UpdateStrategyRecreatePod) then true
      else if decide (SType u = UpdateStrategyInPlaceIfPossible ∨ SType u = UpdateStrategyInPlaceOnly) then
        bool_decide (foldl (λ pods size, i32 (pods + size)) 0 (Runners ir) > 1)
      else false
  end.

Inductive stepKind := stepNone | stepDrain | stepSurge.
#[export] Instance step_kind_eq_dec : EqDecision stepKind.
Proof. solve_decision. Defined.

Definition stepKindOf (ir : option InferenceReplica) : stepKind :=
  match ir with
  | None => stepNone
  | Some r => if drainsFirst r then stepDrain else if surgeStrategy ir then stepSurge else stepNone
  end.

(** ** Members *)

Record batchMember := mkMember {
  component : string; desired : Z; held : Z; step : Z; marks : list Z; target : string;
  promoted : Z; offTarget : Z; opened : Z; ended : Z; heldReason : string }.

Definition HeldRetryBlock (blocks : list RetryBlock) (revision : string) : option RetryBlock :=
  if decide (revision = "") then None
  else snd <$> list_find (λ b, BTargetRevision b = revision ∧ BState b = RetryBlockHeld) blocks.

Definition HeldUpdateReason (b : RetryBlock) : string :=
  "update to " +:+ BTargetRevision b +:+ " held after " +:+ pretty (AttemptsStarted b) +:+ " failed attempt(s): " +:+ BReason b.

Definition heldUpdateReason (ir : option InferenceReplica) (target : string) : string :=
  match ir with
  | None => ""
  | Some ir => match HeldRetryBlock (RetryBlocks ir) target with Some b => HeldUpdateReason b | None => "" end
  end.

Definition rollTarget (ir : InferenceReplica) : string :=
  match Pacing ir ≫= RollbackToRevision with
  | Some r => if decide (r = "") then UpdateRevision ir else r
  | None => UpdateRevision ir
  end.

(** The body of the loop over the rows. *)
Definition countRow (heldRows : gset Z) (t : string) (m : batchMember) (row : InstanceStatus) : batchMember :=
  let off := mkMember (component m) (desired m) (held m) (step m) (marks m) (target m) (promoted m) (i32 (offTarget m + 1)) in
  if decide (Index row ∈ heldRows) then
    mkMember (component m) (desired m) (i32 (held m + 1)) (step m) (marks m) (target m) (promoted m) (i32 (offTarget m + 1))
      (opened m) (ended m) (heldReason m)
  else
    match classifyBatchRow row t with
    | batchRowPromoted =>
        mkMember (component m) (desired m) (held m) (step m) (marks m) (target m) (i32 (promoted m + 1)) (offTarget m)
          (opened m) (ended m) (heldReason m)
    | batchRowOpen => off (i32 (opened m + 1)) (ended m) (heldReason m)
    | batchRowEnded => off (opened m) (i32 (ended m + 1)) (heldReason m)
    | batchRowUntouched => off (opened m) (ended m) (heldReason m)
    end.

(** [ir] is not nil here: a member with no replica has no step kind and is left out. *)
Definition readBatchMember (scaled : string → Z → bool → option Z) (ir : InferenceReplica) (comp t : string)
    (pacing : CoordinationPacing) (kind : stepKind) : batchMember :=
  let '(desired, step) :=
    if decide (kind = stepSurge) then resolveSurgeStep scaled (Some ir) pacing
    else let floor := resolvePairFloor scaled (Some ir) pacing in (fdesired floor, fmaxUnavailable floor) in
  if decide (t = "") then mkMember comp desired 0 step [] t desired 0 0 0 ""
  else
    let rows := InstanceStatuses ir in
    foldl (countRow (partitionHeldRows (Some ir) rows t) t)
      (mkMember comp desired 0 step [] t 0 0 0 0 (heldUpdateReason (Some ir) t)) rows.

Definition notYetObserved (m : batchMember) : batchMember :=
  mkMember (component m) (desired m) 0 (step m) [] (target m) 0 (desired m) 0 0 "".

Definition StatusObservedTemplates (ir : option InferenceReplica) : bool :=
  match ir with
  | None => false
  | Some ir =>
      let hash := default "" (IRAnnotations ir !! InferenceReplicaTemplateHashAnnotationKey) in
      if decide (hash ≠ "") then bool_decide (ObservedTemplateHash ir = hash)
      else bool_decide (ObservedGeneration ir = IRGeneration ir)
  end.

Definition peerStatusPredatesPush (peer acting : option InferenceReplica) : bool :=
  match peer with
  | None => false
  | Some p =>
      if negb (StatusObservedTemplates peer) then true
      else
        match acting with
        | None => false
        | Some a =>
            match IRAnnotations p !! InferenceReplicaParentGenerationAnnotationKey,
                  IRAnnotations a !! InferenceReplicaParentGenerationAnnotationKey with
            | Some pg, Some ag => bool_decide (pg ≠ ag)
            | _, _ => false
            end
        end
  end.
