(* ===== verification/BatchStep.v ===== *)
(** * The batch step of a rollout group

    [pkg/controller/v1beta1/inferenceservice/reconcilers/omenative/coordination/batch_step.go]:
    a rollout group that lists both the engine and the decoder counts each member's
    starts in batches, and no member opens a batch until every member's batch before it
    serves.  [readBatchStep] reads the group for one start and decides whether the batch
    step governs it, and [hold] answers the start.  The replicas come from the API
    server, so the read is an argument. *)

From stdpp Require Import pretty.
From S2P Require Import Prelude PlanIndices RowOwner BatchPlan BatchMembers.
Local Open Scope Z_scope.

Definition RolloutHoldGateRatio : string := "Ratio".
Definition RolloutHoldGateHeld : string := "Held".
Definition CoordinationPolicySequential : string := "Sequential".

(** ** A member's batches *)

Definition movable (m : batchMember) : Z := if decide (desired m ≤ held m) then 0 else i32 (desired m - held m).
Definition started (m : batchMember) : Z := i32 (i32 (promoted m + opened m) + ended m).
Definition settled (m : batchMember) : Z := i32 (promoted m + ended m).

(** Marks that are nil are the empty list: a plan is never empty but not nil. *)
Definition mark (m : batchMember) (b : Z) : Z :=
  if decide (b ≤ 0) then 0
  else
    match marks m with
    | [] => let t := i32 (b * step m) in if decide (t < movable m) then t else movable m
    | _ =>
        match marks m !! Z.to_nat (b - 1) with
        | Some planned => min32 planned (movable m)
        | None => movable m
        end
    end.

(** The loop of [nextBatch] from [b]; [None] is a loop that has not ended. *)
Fixpoint nextBatchFrom (fuel : nat) (m : batchMember) (b : Z) : option Z :=
  match fuel with
  | O => None
  | S fuel =>
      if decide (mark m b > started m) then Some b
      else if decide (movable m ≤ mark m b) then Some (i32 (b + 1))
      else nextBatchFrom fuel m (i32 (b + 1))
  end.

(** With a positive step the marks reach the movable count within as many batches, and
    a plan within its length and one. *)
Definition nextBatch (m : batchMember) : option Z :=
  nextBatchFrom (length (marks m) + Z.to_nat (movable m) + 1) m 1.

(** ** The answer *)

Record batchStep := mkStep {
  governs : bool; acting : Z; members : list batchMember; firstSide : string; released : bool }.

Definition pairingPeer (component : string) : string :=
  if decide (component = DecoderComponent) then EngineComponent else DecoderComponent.

Definition failedNote (m : batchMember) : string :=
  if decide (ended m > 0) then ", " +:+ pretty (ended m) +:+ " failed" else "".

Definition movableNote (m : batchMember) : string :=
  if decide (held m > 0) then ", " +:+ pretty (movable m) +:+ " of " +:+ pretty (desired m) +:+ " movable" else "".

Definition wait (s : batchStep) (me : batchMember) (b : Z) (x : batchMember) (on mk : Z) : string * string :=
  let first := if decide (on = b) then " first" else "" in
  let text := component me +:+ " batch " +:+ pretty b +:+ " waits for " +:+ component x +:+ " batch " +:+ pretty on
    +:+ " to serve" +:+ first +:+ " (" +:+ pretty (promoted x) +:+ " of " +:+ pretty mk +:+ " serving"
    +:+ failedNote x +:+ movableNote x +:+ ")" in
  if decide (heldReason x ≠ "" ∧ component x = firstSide s ∧ component x ≠ component me) then
    (RolloutHoldGateHeld,
     text +:+ ", and the " +:+ component x +:+ " is held: " +:+ heldReason x
       +:+ "; a corrected revision, or a release of the held revision on the " +:+ component x +:+ ", resumes both sides")
  else (RolloutHoldGateRatio, text).

(** A member whose batch [on] has not settled, unless its wait is waived. *)
Definition short (waived : string) (on : Z) (x : batchMember) : Prop := component x ≠ waived ∧ settled x < mark x on.
#[export] Instance short_dec waived on x : Decision (short waived on x).
Proof. unfold short. apply _. Defined.

(** The gate and the reason, both empty for no hold.  [None] is an acting position out
    of range, which panics, or a loop that does not end. *)
Definition hold (s : batchStep) (waived : string) : option (string * string) :=
  if released s then Some ("", "")
  else
    me ← (if decide (acting s < 0) then None else members s !! Z.to_nat (acting s));
    b ← nextBatch me;
    let others := delete (Z.to_nat (acting s)) (members s) in
    match (if decide (b > 1) then list_find (short waived (b - 1)) (others ++ [me]) else None) with
    | Some (_, x) => Some (wait s me b x (b - 1) (mark x (b - 1)))
    | None =>
        if decide (firstSide s ≠ "" ∧ component me = pairingPeer (firstSide s)) then
          match list_find (λ x, component x = firstSide s ∧ short waived b x) (members s) with
          | Some (_, x) => Some (wait s me b x b (mark x b))
          | None => Some ("", "")
          end
        else Some ("", "")
    end.

(** ** The reading *)

Record RolloutRunTarget := mkRunTarget { TComponent : string; TRevision : string; StableRevision : string }.

Record PrefillDecodeRules := mkRules { KeepRatio : bool; FirstSide : string }.

Definition namedFirstSide (r : PrefillDecodeRules) : string :=
  if decide (FirstSide r = EngineComponent ∨ FirstSide r = DecoderComponent) then FirstSide r else "".

(** [GateContext] with what the batch step reads of it; [ActiveRun] is the active run's
    target revisions, absent with no service, no rollout status or no run. *)
Record GateContext := mkContext {
  ActiveRun : option (list RolloutRunTarget); CComponent : string; ShortCircuit : bool;
  GroupPolicy : string; GroupComponents : list string; GroupPacing : CoordinationPacing;
  CTargetRevision : option string; Rules : PrefillDecodeRules; DefaultTolerance : option Z }.

Definition groupPairsEngineAndDecoder (components : list string) : bool :=
  bool_decide (EngineComponent ∈ components) && bool_decide (DecoderComponent ∈ components).

Definition runMoved (ctx : GateContext) (comp t : string) : bool :=
  match ActiveRun ctx ≫= list_find (λ r, TComponent r = comp) with
  | Some (_, recorded) =>
      bool_decide (TRevision recorded ≠ "" ∧ TRevision recorded = RevisionHashFromControllerRevisionName t
                   ∧ TRevision recorded ≠ StableRevision recorded)
  | None => false
  end.

Definition batchTolerance (ctx : GateContext) : option Z :=
  match RatioTolerancePercent (GroupPacing ctx) with
  | Some t => Some t
  | None => DefaultTolerance ctx
  end.

Definition ratioToleranceConfigured (ctx : GateContext) : bool :=
  bool_decide (RatioTolerancePercent (GroupPacing ctx) ≠ None)
  || (KeepRatio (Rules ctx) && bool_decide (DefaultTolerance ctx ≠ None)).

Definition pairing (comp : string) : bool := bool_decide (comp = EngineComponent ∨ comp = DecoderComponent).

(** Only called with the acting position and the pair's positions in range (the reading
    stops earlier for a negative one); out of range the code panics. *)
Definition partnerless (ctx : GateContext) (s : batchStep) (pair : gmap string nat) : bool :=
  match members s !! Z.to_nat (acting s) with
  | None => false
  | Some me =>
      if negb (pairing (component me)) then false
      else
        match pair !! pairingPeer (component me) with
        | None => false
        | Some i =>
            if ratioToleranceConfigured ctx then false
            else
              match members s !! i with
              | None => false
              | Some peer =>
                  bool_decide (desired peer > 0) && bool_decide (offTarget peer = 0)
                  && bool_decide (desired peer ≤ promoted peer) && runMoved ctx (component peer) (target peer)
              end
        end
  end.

Record groupRead := mkRead { rcomp : string; rir : option InferenceReplica; rkind : stepKind }.

Definition emptyStep : batchStep := mkStep false 0 [] "" false.

(** The first loop: the reads and the kinds of the pairing members, or [None] for its
    early return. *)
Fixpoint readReplicas (get : string → outcome string (option InferenceReplica)) (keepRatio : bool) (comps : list string)
    : outcome string (option (list groupRead * list stepKind)) :=
  (match comps with
   | [] => Ok (Some ([], []))
   | comp :: comps =>
       let? ir := omap_err (λ e, "cannot read " +:+ comp +:+ " IR status, failing closed: " +:+ e) (get comp) in
       let kind := stepKindOf ir in
       let kind := if pairing comp && bool_decide (kind = stepNone ∧ ir ≠ None) && keepRatio then stepDrain else kind in
       if pairing comp && bool_decide (kind = stepNone) then Ok None
       else
         let? rest := readReplicas get keepRatio comps in
         Ok ('(reads, kinds) ← rest;
             Some (mkRead comp ir kind :: reads, if pairing comp then kind :: kinds else kinds))
   end)%go.

(** The state of the second loop: the acting position, the members and [pair]. *)
Record readState := mkReadState { rsActing : Z; rsMembers : list batchMember; rsPair : gmap string nat }.

Definition readMember (scaled : string → Z → bool → option Z) (ctx : GateContext) (kinds : list stepKind)
    (actingIR : option InferenceReplica) (st : readState) (r : groupRead) : outcome string readState :=
  if decide (rkind r ∉ kinds) then Ok st
  else
    match rir r with
    | None => Panic
    | Some ir =>
        let own := bool_decide (rcomp r = CComponent ctx) in
        let t := if own then default (rollTarget ir) (CTargetRevision ctx) else rollTarget ir in
        let m := readBatchMember scaled ir (rcomp r) t (GroupPacing ctx) (rkind r) in
        let m := if negb own && peerStatusPredatesPush (Some ir) actingIR then notYetObserved m else m in
        Ok (mkReadState (if own then Z.of_nat (length (rsMembers st)) else rsActing st)
              (rsMembers st ++ [m])
              (if pairing (rcomp r) then <[rcomp r := length (rsMembers st)]> (rsPair st) else rsPair st))
    end.

Definition withMarks (ms : list Z) (m : batchMember) : batchMember :=
  mkMember (component m) (desired m) (held m) (step m) ms (target m) (promoted m) (offTarget m) (opened m) (ended m) (heldReason m).

(** The ratio rule's plan, on the two pairing members; a missing key reads position 0. *)
Definition planMarks (pair : gmap string nat) (tolerance : Z) (ms : list batchMember) : option (list batchMember) :=
  let e := default O (pair !! EngineComponent) in
  let d := default O (pair !! DecoderComponent) in
  engine ← ms !! e; decoder ← ms !! d;
  '(em, dm) ← pairedBatchPlan (movable engine) (movable decoder) (step engine) (step decoder) tolerance;
  Some (alter (withMarks dm) d (alter (withMarks em) e ms)).

(** [None] is a planning loop that does not end. *)
Definition readBatchStep (scaled : string → Z → bool → option Z) (get : string → outcome string (option InferenceReplica))
    (ctx : GateContext) : option (outcome string batchStep) :=
  if ShortCircuit ctx || bool_decide (GroupPolicy ctx = CoordinationPolicySequential)
     || negb (groupPairsEngineAndDecoder (GroupComponents ctx)) then Some (Ok emptyStep)
  else
    match readReplicas get (KeepRatio (Rules ctx)) (GroupComponents ctx) with
    | Err e => Some (Err e)
    | Panic => Some Panic
    | Ok None => Some (Ok emptyStep)
    | Ok (Some (reads, kinds)) =>
        let actingIR := list_find (λ r, rcomp r = CComponent ctx) (reverse reads) ≫= λ ir, rir ir.2 in
        match ofold (readMember scaled ctx kinds actingIR) (mkReadState (-1) [] ∅) reads with
        | Err e => Some (Err e)
        | Panic => Some Panic
        | Ok st =>
            if decide (rsActing st < 0) then Some (Ok emptyStep)
            else
              match rsMembers st !! Z.to_nat (rsActing st) with
              | None => Some Panic
              | Some me =>
                  if decide (step me ≤ 0) then Some (Ok emptyStep)
                  else
                    ms ← match KeepRatio (Rules ctx), batchTolerance ctx with
                         | true, Some tolerance => planMarks (rsPair st) tolerance (rsMembers st)
                         | _, _ => Some (rsMembers st)
                         end;
                    let s := mkStep false (rsActing st) ms (namedFirstSide (Rules ctx)) false in
                    Some (Ok (mkStep true (rsActing st) ms (namedFirstSide (Rules ctx)) (partnerless ctx s (rsPair st))))
              end
        end
    end.
