(* ===== verification/BatchRoll.v ===== *)
(** * The roll of a group under the batch step

    What [BatchStep.v]'s answers make of a roll: the marks of a member's batches, the
    batch its next start belongs to, what [hold] asks before it lets a start through,
    and the roll as a sequence of starts, settlements and reopened attempts. *)

From stdpp Require Import relations.
From S2P Require Import Prelude PlanIndices RowOwner BatchPlan BatchMembers BatchStep.
Local Open Scope Z_scope.

(** ** Members whose arithmetic stays in range *)

(** Counts and steps up to 2^14, a plan of at most 2^15 batches, and rows that are
    counted without wrapping: then no batch number goes past [lastBatch] and no mark
    of such a batch wraps. *)
Abbreviation MaxCount := 16384.
Abbreviation lastBatch := 65536.

(** Marks that do not fall, from [a] on. *)
Fixpoint rising (a : Z) (l : list Z) : Prop :=
  match l with
  | [] => True
  | x :: l => a ≤ x ∧ rising x l
  end.

Lemma rising_lookup a l i j x y : rising a l → (i ≤ j)%nat → l !! i = Some x → l !! j = Some y → a ≤ x ≤ y.
Proof.
  revert a i j x y. induction l as [|z l IH]; intros a i j x y; [done|]. intros [Haz Hl] Hij Hi Hj.
  destruct j as [|j]; [assert (i = 0%nat) as -> by lia; simplify_eq/=; lia|].
  destruct i as [|i]; simplify_eq/=; [pose proof (IH x j j y y Hl (Nat.le_refl j) Hj Hj); lia|].
  pose proof (IH z i j x y Hl ltac:(lia) Hi Hj). lia.
Qed.

Record wf_member (m : batchMember) : Prop := {
  wm_name : component m ≠ "";
  wm_counts : 0 ≤ desired m ≤ MaxCount ∧ 0 ≤ held m ≤ MaxInt32;
  wm_step : 0 ≤ step m ≤ MaxCount;
  wm_rows : 0 ≤ promoted m ∧ 0 ≤ opened m ∧ 0 ≤ ended m ∧ promoted m + opened m + ended m ≤ MaxInt32;
  wm_length : Z.of_nat (length (marks m)) ≤ 2 * MaxCount;
  wm_marks : rising 0 (marks m) }.

Section member.
Context (m : batchMember) (Hwf : wf_member m).

Lemma movable_max : movable m = Z.max 0 (desired m - held m).
Proof using Hwf. destruct Hwf as [_ Hc _ _ _ _]. unfold movable. case_decide; unwrap; lia. Qed.

Lemma started_sum : started m = promoted m + opened m + ended m.
Proof using Hwf. destruct Hwf as [_ _ _ Hr _ _]. unfold started. unwrap. lia. Qed.

Lemma settled_sum : settled m = promoted m + ended m.
Proof using Hwf. destruct Hwf as [_ _ _ Hr _ _]. unfold settled. by unwrap. Qed.

Lemma mark_steps b : marks m = [] → 0 ≤ b ≤ lastBatch → mark m b = Z.min (b * step m) (movable m).
Proof using Hwf.
  intros Hm Hb. pose proof movable_max. destruct Hwf as [_ Hc Hs _ _ _]. unfold mark. rewrite Hm.
  assert (0 ≤ b * step m ≤ lastBatch * MaxCount) by nia.
  case_decide; [assert (b = 0) as -> by lia; lia|]. unwrap. case_decide; lia.
Qed.

Lemma mark_planned b : marks m ≠ [] → 0 < b →
  mark m b = match marks m !! Z.to_nat (b - 1) with Some x => Z.min x (movable m) | None => movable m end.
Proof using.
  intros Hm Hb. unfold mark. rewrite decide_False by lia. destruct (marks m) as [|z zs] eqn:E; [done|].
  destruct (_ !! _); [apply min32_min|done].
Qed.

Lemma mark_range b : b ≤ lastBatch → 0 ≤ mark m b ≤ movable m.
Proof using Hwf.
  intros Hb. pose proof movable_max as Hmv. destruct (decide (b ≤ 0)) as [Hz|Hz].
  { unfold mark. rewrite decide_True by done. lia. }
  destruct (decide (marks m = [])) as [Hm|Hm].
  - rewrite mark_steps by (done || lia). destruct Hwf as [_ Hc Hs _ _ _].
    assert (0 ≤ b * step m) by nia. lia.
  - rewrite mark_planned by (done || lia). destruct (marks m !! _) as [x|] eqn:Hx; [|lia].
    pose proof (rising_lookup _ _ _ _ _ _ (wm_marks m Hwf) (Nat.le_refl _) Hx Hx). lia.
Qed.

Lemma mark_mono a b : a ≤ b ≤ lastBatch → mark m a ≤ mark m b.
Proof using Hwf.
  intros Hab. destruct (decide (a ≤ 0)) as [Hz|Hz].
  { transitivity 0; [unfold mark; by rewrite decide_True by done|]. apply mark_range. lia. }
  destruct (decide (marks m = [])) as [Hm|Hm].
  - rewrite !mark_steps by (done || lia). pose proof (wm_step m Hwf). assert (a * step m ≤ b * step m) by nia. lia.
  - rewrite !mark_planned by (done || lia).
    destruct (marks m !! Z.to_nat (b - 1)) as [y|] eqn:Hy, (marks m !! Z.to_nat (a - 1)) as [x|] eqn:Hx; [|exfalso|lia..].
    + pose proof (rising_lookup _ _ (Z.to_nat (a - 1)) (Z.to_nat (b - 1)) x y (wm_marks m Hwf) ltac:(lia) Hx Hy). lia.
    + apply lookup_lt_Some in Hy. apply lookup_ge_None in Hx. lia.
Qed.

(** The last batch a member can need. *)
Definition finalBatch : Z := Z.of_nat (length (marks m)) + movable m + 1.

Lemma finalBatch_range : 1 ≤ finalBatch < lastBatch.
Proof using Hwf. pose proof movable_max. destruct Hwf as [_ Hc _ _ Hl _]. unfold finalBatch. lia. Qed.

Lemma mark_final : 0 < step m → mark m finalBatch = movable m.
Proof using Hwf.
  intros Hs. pose proof finalBatch_range. pose proof movable_max. destruct (decide (marks m = [])) as [Hm|Hm].
  - rewrite mark_steps by (done || lia). assert (movable m ≤ finalBatch * step m); [|lia].
    unfold finalBatch. nia.
  - rewrite mark_planned by (done || lia). rewrite lookup_ge_None_2; [done|]. unfold finalBatch. lia.
Qed.

Lemma nextBatchFrom_spec fuel b :
  0 < step m → 1 ≤ b ≤ finalBatch → finalBatch - b + 1 ≤ Z.of_nat fuel → mark m (b - 1) ≤ started m →
  ∃ r, nextBatchFrom fuel m b = Some r ∧ b ≤ r ≤ finalBatch + 1 ∧ mark m (r - 1) ≤ started m
    ∧ (started m < movable m → started m < mark m r ∧ r ≤ finalBatch) ∧ (movable m ≤ started m → mark m (r - 1) = movable m).
Proof using Hwf.
  intros Hs. pose proof finalBatch_range as Hfin. revert b. induction fuel as [|fuel IH]; intros b Hb Hf Hm; [lia|].
  cbn [nextBatchFrom]. pose proof (mark_range b ltac:(lia)). unwrap.
  case_decide as Hgt; [exists b; split_and!; [done|lia..]|].
  case_decide as Hge.
  - exists (b + 1). replace (b + 1 - 1) with b by lia. split_and!; [done|lia..].
  - assert (b ≠ finalBatch) by (intros ->; rewrite mark_final in Hge by done; lia).
    destruct (IH (b + 1)) as (r & Hr & ?); [lia..|replace (b + 1 - 1) with b by lia; lia|].
    exists r. split; [done|]. intuition lia.
Qed.

(** The batch of the next start: every batch before it is fully started, and it is not,
    unless all the movable Instances are. *)
Lemma nextBatch_spec : 0 < step m →
  ∃ r, nextBatch m = Some r ∧ 1 ≤ r ≤ lastBatch ∧ mark m (r - 1) ≤ started m
    ∧ (started m < movable m → started m < mark m r) ∧ (movable m ≤ started m → mark m (r - 1) = movable m).
Proof using Hwf.
  intros Hs. pose proof finalBatch_range as Hfin. unfold nextBatch.
  destruct (nextBatchFrom_spec (length (marks m) + Z.to_nat (movable m) + 1) 1 Hs) as (r & -> & Hr); [lia| |..].
  - pose proof movable_max. unfold finalBatch. lia.
  - pose proof started_sum. pose proof (wm_rows m Hwf). change (mark m (1 - 1)) with 0. lia.
  - exists r. split; [done|]. intuition lia.
Qed.
End member.

(** ** What a start waits for *)

(** The start of batch [b] of [me] waits for nothing: every member's batch before it has
    settled, and where [me] is the peer of a named first side, that side's batch [b]
    too; the members whose wait is waived aside. *)
Definition clear_to_start (first waived : string) (ms : list batchMember) (me : batchMember) (b : Z) : Prop :=
  (∀ x, x ∈ ms → component x ≠ waived → mark x (b - 1) ≤ settled x)
  ∧ (first ≠ "" → component me = pairingPeer first →
     ∀ x, x ∈ ms → component x = first → component x ≠ waived → mark x b ≤ settled x).

Lemma wait_gate s me b x on mk : (wait s me b x on mk).1 ≠ "".
Proof. unfold wait. by case_decide. Qed.

Lemma mark_settled_zero x b : wf_member x → b ≤ 0 → mark x b ≤ settled x.
Proof.
  intros Hwf Hb. pose proof (wm_rows x Hwf). rewrite settled_sum by done. unfold mark. rewrite decide_True by done. lia.
Qed.

(** [hold] answers every start of a member with a step, and names no gate exactly when
    the start waits for nothing. *)
Lemma hold_spec s waived me :
  released s = false → Forall wf_member (members s) → 0 ≤ acting s → members s !! Z.to_nat (acting s) = Some me →
  0 < step me →
  ∃ b g r, nextBatch me = Some b ∧ 1 ≤ b ≤ lastBatch ∧ hold s waived = Some (g, r)
    ∧ (g = "" ↔ clear_to_start (firstSide s) waived (members s) me b).
Proof.
  intros Hrel Hwf Hact Hme Hs. unfold hold. rewrite Hrel, decide_False, Hme by lia. cbn [mbind option_bind].
  assert (Hwme : wf_member me) by (rewrite Forall_lookup in Hwf; eauto).
  destruct (nextBatch_spec me Hwme Hs) as (b & -> & Hb & _). cbn [mbind option_bind].
  pose proof (delete_Permutation _ _ _ Hme) as Hperm.
  set (others := delete _ _) in *. rewrite Forall_forall in Hwf.
  assert (Hin : ∀ x, x ∈ others ++ [me] ↔ x ∈ members s) by (intros x; rewrite Hperm; set_solver).
  exists b. unfold clear_to_start.
  destruct (if decide (b > 1) then _ else _) as [[i x]|] eqn:Hf.
  { case_decide; [|done]. apply list_find_Some in Hf as (Hx%list_elem_of_lookup_2%Hin & [Hne Hlt] & _).
    destruct (wait s me b x (b - 1) (mark x (b - 1))) as [g r] eqn:Hw. exists g, r. split_and!; [done|lia..|by rewrite <-Hw|].
    pose proof (wait_gate s me b x (b - 1) (mark x (b - 1))) as Hg. rewrite Hw in Hg. cbn in Hg.
    split; [done|]. intros [Hall _]. specialize (Hall x Hx Hne). lia. }
  assert (Hall : ∀ x, x ∈ members s → component x ≠ waived → mark x (b - 1) ≤ settled x).
  { intros x Hx Hne. case_decide; [|apply mark_settled_zero; [by apply Hwf|lia]].
    apply list_find_None in Hf. rewrite Forall_forall in Hf. apply Hin in Hx. specialize (Hf x Hx).
    unfold short in Hf. apply Z.nlt_ge. tauto. }
  clear Hf. destruct (decide (firstSide s ≠ "" ∧ _)) as [Hfirst|Hfirst]; [|exists "", ""; do 3 (split; [done|]); tauto].
  destruct (list_find _ _) as [[i x]|] eqn:Hff.
  - apply list_find_Some in Hff as (Hx%list_elem_of_lookup_2 & (Hc & Hne & Hlt) & _).
    destruct (wait s me b x b (mark x b)) as [g r] eqn:Hw. exists g, r. split_and!; [done|lia..|by rewrite <-Hw|].
    pose proof (wait_gate s me b x b (mark x b)) as Hg. rewrite Hw in Hg. cbn in Hg.
    split; [done|]. intros [_ Hl]. destruct Hfirst as [Hf1 Hf2]. specialize (Hl Hf1 Hf2 x Hx Hc Hne). lia.
  - exists "", "". do 3 (split; [done|]). split; [intros _|done]. split; [done|].
    intros _ _ x Hx Hc Hne. apply list_find_None in Hff. rewrite Forall_forall in Hff. specialize (Hff x Hx).
    unfold short in Hff. apply Z.nlt_ge. tauto.
Qed.

(** ** The roll *)

Definition bump (dp dopen de : Z) (m : batchMember) : batchMember :=
  mkMember (component m) (desired m) (held m) (step m) (marks m) (target m)
    (promoted m + dp) (offTarget m - dp) (opened m + dopen) (ended m + de) (heldReason m).

(** One step of the roll of a group: a member with Instances left to start starts one
    that [hold] lets through, with no wait waived or with one of the waivers [W]; an
    open attempt serves, or ends; an ended one is opened again. *)
Inductive roll_step (first : string) (W : string → Prop) (ms : list batchMember) : list batchMember → Prop :=
| roll_start i m w r : ms !! i = Some m → 0 < step m → started m < movable m → (w = "" ∨ W w) →
    hold (mkStep true (Z.of_nat i) ms first false) w = Some ("", r) →
    roll_step first W ms (<[i := bump 0 1 0 m]> ms)
| roll_serve i m : ms !! i = Some m → 0 < opened m → roll_step first W ms (<[i := bump 1 (-1) 0 m]> ms)
| roll_end i m : ms !! i = Some m → 0 < opened m → roll_step first W ms (<[i := bump 0 (-1) 1 m]> ms)
| roll_reopen i m : ms !! i = Some m → 0 < ended m → roll_step first W ms (<[i := bump 0 1 (-1) m]> ms).

(** No member has a start past its batch [b] while another has not started all of its own. *)
Definition lockstep (W : string → Prop) (ms : list batchMember) : Prop :=
  ∀ x y b, x ∈ ms → y ∈ ms → ¬ W (component y) → 1 ≤ b ≤ lastBatch →
    mark x b < started x → mark y b ≤ started y.

(** The peer of the named first side has no start in a batch the first side has not
    started all of. *)
Definition led (first : string) (W : string → Prop) (ms : list batchMember) : Prop :=
  first ≠ "" → ¬ W first → ∀ f g b, f ∈ ms → g ∈ ms → component f = first → component g = pairingPeer first →
    1 ≤ b ≤ lastBatch → mark g (b - 1) < started g → mark f b ≤ started f.

Record rolling (first : string) (W : string → Prop) (ms : list batchMember) : Prop := {
  rl_wf : Forall wf_member ms; rl_lockstep : lockstep W ms; rl_led : led first W ms }.

Lemma bump_mark dp dopen de m b : mark (bump dp dopen de m) b = mark m b.
Proof. done. Qed.

Lemma bump_wf dp dopen de m : wf_member m → 0 ≤ promoted m + dp → 0 ≤ opened m + dopen → 0 ≤ ended m + de →
  promoted m + opened m + ended m + (dp + dopen + de) ≤ MaxInt32 →
  wf_member (bump dp dopen de m) ∧ started (bump dp dopen de m) = started m + (dp + dopen + de).
Proof.
  intros [Hn Hc Hs Hr Hl Hm] Hp Ho He Hsum. assert (Hwf : wf_member (bump dp dopen de m)).
  { constructor; cbn; try done. lia. }
  split; [done|]. rewrite started_sum by done. rewrite started_sum by done. cbn. lia.
Qed.

(** Replacing a member by one with as many starts or one more, where the new start is
    one the others have caught up with. *)
Lemma rolling_insert first W ms i m m' :
  rolling first W ms → ms !! i = Some m → wf_member m' → component m' = component m → (∀ b, mark m' b = mark m b) →
  started m ≤ started m' ≤ started m + 1 →
  (∀ y b, y ∈ ms → ¬ W (component y) → 1 ≤ b ≤ lastBatch → mark m b < started m' → mark y b ≤ started y) →
  (first ≠ "" → ¬ W first → component m = pairingPeer first → ∀ f b, f ∈ ms → component f = first →
     1 ≤ b ≤ lastBatch → mark m (b - 1) < started m' → mark f b ≤ started f) →
  rolling first W (<[i := m']> ms).
Proof.
  intros [Hwf Hlock Hled] Hi Hm' Hc Hmark Hst Hnew Hfirst.
  assert (Him : m ∈ ms) by by eapply list_elem_of_lookup_2.
  assert (Hin : ∀ x, x ∈ <[i := m']> ms → x = m' ∨ x ∈ ms).
  { intros x (j & Hj)%list_elem_of_lookup. apply list_lookup_insert_Some in Hj as [(<- & <- & _)|(_ & Hj)]; [by left|].
    right. by eapply list_elem_of_lookup_2. }
  split.
  - rewrite Forall_forall in Hwf |- *. intros x [->|Hx]%Hin; [done|by apply Hwf].
  - intros x y b Hx Hy. apply Hin in Hx as [->|Hx], Hy as [->|Hy]; rewrite ?Hmark; intros HW Hb Hlt.
    + lia.
    + by apply Hnew.
    + transitivity (started m); [|lia]. apply (Hlock x m b); try done. by rewrite <-Hc.
    + by apply (Hlock x y b).
  - intros Hf HW f g b Hinf Hing. apply Hin in Hinf as [->|Hinf], Hing as [->|Hing]; rewrite ?Hmark, ?Hc; intros Hcf Hcg Hb Hlt.
    + exfalso. revert Hcf Hcg. clear. intros -> Hp. unfold pairingPeer in Hp. case_decide as Hd; [|congruence].
      rewrite Hd in Hp. done.
    + transitivity (started m); [|lia]. by apply (Hled Hf HW m g b).
    + by apply Hfirst.
    + by apply (Hled Hf HW f g b).
Qed.

Lemma roll_step_rolling first W ms ms' : rolling first W ms → roll_step first W ms ms' → rolling first W ms'.
Proof.
  intros Hr Hstep. pose proof Hr as [Hwf Hlock Hled].
  assert (Hkeep : ∀ i m dp dopen de, ms !! i = Some m → dp + dopen + de = 0 →
    0 ≤ promoted m + dp → 0 ≤ opened m + dopen → 0 ≤ ended m + de → rolling first W (<[i := bump dp dopen de m]> ms)).
  { intros i m dp dopen de Hi Hz Hp Ho He. assert (Hin : m ∈ ms) by by eapply list_elem_of_lookup_2.
    assert (Hwm : wf_member m) by (rewrite Forall_forall in Hwf; auto). pose proof (wm_rows m Hwm).
    destruct (bump_wf dp dopen de m) as [Hwm' Hst]; [done|lia..|].
    apply (rolling_insert first W ms i m); try done; [lia|..].
    - intros y b Hy HW Hb Hlt. apply (Hlock m y b); try done. lia.
    - intros Hf HW Hc f b Hinf Hcf Hb Hlt. apply (Hled Hf HW f m b); try done. lia. }
  destruct Hstep as [i m w r Hi Hs Hlt Hw Hhold|i m Hi Ho|i m Hi Ho|i m Hi He].
  - assert (Hin : m ∈ ms) by by eapply list_elem_of_lookup_2.
    rewrite Forall_forall in Hwf. pose proof (Hwf m Hin) as Hwm. pose proof (wm_rows m Hwm).
    pose proof (started_sum m Hwm). pose proof (movable_max m Hwm). pose proof (wm_counts m Hwm).
    destruct (bump_wf 0 1 0 m) as [Hwm' Hst]; [done|lia..|].
    destruct (hold_spec (mkStep true (Z.of_nat i) ms first false) w m) as (b0 & g & r' & Hnb & Hb0 & Hh & Hclear);
      [done|by apply Forall_forall|cbn; lia|cbn; by rewrite Nat2Z.id|done|].
    rewrite Hhold in Hh. injection Hh as <- <-. destruct (proj1 Hclear eq_refl) as [Hall Hfirst]. cbn [members firstSide] in *.
    destruct (nextBatch_spec m Hwm Hs) as (b1 & Hb1 & _ & Hdone & Hleft & _). rewrite Hnb in Hb1. injection Hb1 as <-.
    assert (Hmine : ∀ b, b ≤ lastBatch → mark m b < started (bump 0 1 0 m) → b ≤ b0 - 1).
    { intros b Hb Hmb. apply Z.nlt_ge. intros Hgt. pose proof (mark_mono m Hwm b0 b ltac:(lia)). specialize (Hleft Hlt). lia. }
    assert (Hnw : ∀ c, ¬ W c → c ≠ "" → c ≠ w) by (intros c Hc Hne ->; naive_solver).
    assert (Hsettled : ∀ y, y ∈ ms → settled y ≤ started y).
    { intros y Hy. pose proof (wm_rows y (Hwf y Hy)). rewrite settled_sum, started_sum by auto. lia. }
    apply (rolling_insert first W ms i m); try done; [lia|..].
    + intros y b Hy HW Hb Hmb. apply Hmine in Hmb; [|lia]. transitivity (settled y); [|auto].
      etransitivity; [apply (mark_mono y (Hwf y Hy) b (b0 - 1)); lia|]. apply Hall; [done|].
      apply Hnw; [done|]. apply (wm_name y), (Hwf y Hy).
    + intros Hf HW Hc f b Hinf Hcf Hb Hmb. apply Hmine in Hmb; [|lia]. transitivity (settled f); [|auto].
      etransitivity; [apply (mark_mono f (Hwf f Hinf) b b0); lia|]. apply Hfirst; [done..|]. rewrite Hcf. by apply Hnw.
  - assert (Hwm : wf_member m) by (rewrite Forall_lookup in Hwf; eauto). pose proof (wm_rows m Hwm). apply Hkeep; [done|lia..].
  - assert (Hwm : wf_member m) by (rewrite Forall_lookup in Hwf; eauto). pose proof (wm_rows m Hwm). apply Hkeep; [done|lia..].
  - assert (Hwm : wf_member m) by (rewrite Forall_lookup in Hwf; eauto). pose proof (wm_rows m Hwm). apply Hkeep; [done|lia..].
Qed.

(** ** The roll never stops short *)

Lemma pairingPeer_ne c : pairingPeer c ≠ c.
Proof. unfold pairingPeer. case_decide as Hd; [by rewrite Hd|congruence]. Qed.

Lemma exists_least {A} (key : A → Z) (l : list A) : l ≠ [] → ∃ x, x ∈ l ∧ ∀ y, y ∈ l → key x ≤ key y.
Proof.
  induction l as [|a l IH]; [done|]. intros _. destruct l as [|a' l].
  { exists a. split; [set_solver|]. by intros y ->%list_elem_of_singleton. }
  destruct IH as (x & Hx & Hmin); [done|]. destruct (decide (key a ≤ key x)).
  - exists a. split; [set_solver|]. intros y [->|Hy]%elem_of_cons; [done|]. specialize (Hmin y Hy). lia.
  - exists x. split; [set_solver|]. intros y [->|Hy]%elem_of_cons; [lia|auto].
Qed.

(** With every attempt settled and a member not done, the start of the earliest batch,
    the first side's before its peer's, is let through. *)
Lemma hold_lets_one first ms :
  Forall wf_member ms → Forall (λ m, 0 < step m ∧ opened m = 0) ms → Exists (λ m, started m < movable m) ms →
  ∃ i m r, ms !! i = Some m ∧ started m < movable m ∧ hold (mkStep true (Z.of_nat i) ms first false) "" = Some ("", r).
Proof.
  intros Hwf Hquiet Hleft. rewrite Forall_forall in Hquiet.
  set (left := filter (λ m, started m < movable m) ms).
  set (key := λ m, 2 * default 0 (nextBatch m) + (if decide (component m = first) then 0 else 1)).
  destruct (exists_least key left) as (m & Hm & Hmin).
  { apply Exists_exists in Hleft as (m & Hm & Hlt). intros Hnil. assert (m ∈ left) by by apply list_elem_of_filter.
    rewrite Hnil in *. set_solver. }
  apply list_elem_of_filter in Hm as [Hlt Hm]. apply list_elem_of_lookup in Hm as [i Hi].
  assert (Hin : m ∈ ms) by by eapply list_elem_of_lookup_2.
  destruct (hold_spec (mkStep true (Z.of_nat i) ms first false) "" m) as (b & g & r & Hnb & Hb & Hh & Hclear);
    [done..|cbn; lia|cbn; by rewrite Nat2Z.id|by apply Hquiet|]. cbn [members firstSide] in Hclear.
  exists i, m, r. split_and!; [done..|]. rewrite Hh. f_equal. f_equal. apply Hclear.
  rewrite Forall_forall in Hwf.
  assert (Hsettled : ∀ x, x ∈ ms → settled x = started x).
  { intros x Hx. rewrite settled_sum, started_sum by auto. destruct (Hquiet x Hx). lia. }
  (** A member is done, or its next batch is not before [b]. *)
  assert (Hreach : ∀ x c, x ∈ ms → c ≤ lastBatch →
    (started x < movable x → c ≤ default 0 (nextBatch x) - 1) → mark x c ≤ settled x).
  { intros x c Hx Hc Hk. rewrite Hsettled by done. pose proof (Hwf x Hx) as Hwx.
    destruct (decide (started x < movable x)) as [Hlx|Hlx]; [|etransitivity; [by apply mark_range|lia]].
    destruct (nextBatch_spec x Hwx) as (n & Hn & Hnr & Hdone & _); [by apply Hquiet|]. rewrite Hn in Hk. cbn in Hk.
    etransitivity; [apply (mark_mono x Hwx c (n - 1)); lia|done]. }
  assert (Hkey : ∀ x, x ∈ ms → started x < movable x → key m ≤ key x).
  { intros x Hx Hlx. apply Hmin. by apply list_elem_of_filter. }
  unfold key in Hkey. rewrite Hnb in Hkey. cbn [default from_option id] in Hkey. split.
  - intros x Hx _. apply Hreach; [done|lia|]. intros Hlx. specialize (Hkey x Hx Hlx). repeat case_decide; lia.
  - intros Hf Hpeer x Hx Hcx _. apply Hreach; [done|lia|]. intros Hlx. specialize (Hkey x Hx Hlx).
    rewrite (decide_True (P := component x = first)) in Hkey by done.
    rewrite (decide_False (P := component m = first)) in Hkey by (rewrite Hpeer; apply pairingPeer_ne). lia.
Qed.

(** What is left to do on a member: two steps for each start to come, one for each open attempt. *)
Definition remaining (m : batchMember) : Z := 2 * Z.max 0 (movable m - started m) + opened m.

Lemma zsum_with_replace {A} (f : A → Z) l i x y : l !! i = Some x → zsum_with f (<[i := y]> l) = zsum_with f l - f x + f y.
Proof.
  revert i. induction l as [|a l IH]; intros [|i] Hi; simplify_eq/=; rewrite !zsum_with_cons; [lia|].
  rewrite IH by done. lia.
Qed.

Definition all_steps (ms : list batchMember) : Prop := Forall (λ m, 0 < step m) ms.

Lemma roll_completes first W ms : rolling first W ms → all_steps ms →
  ∃ ms', rtc (roll_step first W) ms ms' ∧ Forall (λ m, opened m = 0 ∧ movable m ≤ started m) ms'.
Proof.
  remember (Z.to_nat (zsum_with remaining ms)) as n eqn:Hn. revert ms Hn.
  induction (lt_wf n) as [n _ IH]. intros ms -> Hroll Hsteps. pose proof Hroll as [Hwf _ _].
  assert (Hnn : ∀ l, Forall wf_member l → 0 ≤ zsum_with remaining l).
  { intros l Hl. apply zsum_with_nonneg. intros m Hm. rewrite Forall_forall in Hl. pose proof (wm_rows m (Hl m Hm)).
    unfold remaining. lia. }
  assert (Hgo : ∀ i m m', ms !! i = Some m → step m' = step m → roll_step first W ms (<[i := m']> ms) → remaining m' < remaining m →
    ∃ ms', rtc (roll_step first W) ms ms' ∧ Forall (λ m, opened m = 0 ∧ movable m ≤ started m) ms').
  { intros i m m' Hi Hst Hstep Hless. pose proof (roll_step_rolling first W ms _ Hroll Hstep) as Hroll'.
    pose proof (Hnn _ (rl_wf _ _ _ Hroll')) as Hnn'. pose proof (zsum_with_replace remaining ms i m m' Hi) as Hsum.
    destruct (IH (Z.to_nat (zsum_with remaining (<[i := m']> ms)))) with (ms := <[i := m']> ms) as (ms' & Hrtc & Hfin);
      [lia|done..| |exists ms'; split; [by eapply rtc_l|done]].
    apply Forall_insert; [done|]. rewrite Hst. unfold all_steps in Hsteps. rewrite Forall_lookup in Hsteps. eauto. }
  destruct (decide (Exists (λ m, 0 < opened m) ms)) as [(m & [i Hi]%list_elem_of_lookup & Ho)%Exists_exists|Hopen].
  { rewrite Forall_lookup in Hwf. pose proof (Hwf i m Hi) as Hwm. pose proof (wm_rows m Hwm).
    destruct (bump_wf 1 (-1) 0 m) as [Hwm' Hst]; [done|lia..|].
    apply (Hgo i m (bump 1 (-1) 0 m)); [done..|by apply roll_serve|]. unfold remaining. rewrite Hst.
    change (movable (bump 1 (-1) 0 m)) with (movable m). cbn [opened bump]. lia. }
  assert (Hquiet : Forall (λ m, opened m = 0) ms).
  { rewrite <-Forall_Exists_neg in Hopen. rewrite Forall_forall in Hopen, Hwf |- *. intros m Hm.
    pose proof (wm_rows m (Hwf m Hm)). specialize (Hopen m Hm). cbn in Hopen. lia. }
  destruct (decide (Exists (λ m, started m < movable m) ms)) as [Hleft|Hdone].
  - destruct (hold_lets_one first ms) as (i & m & r & Hi & Hlt & Hh); [done| |done|].
    { apply Forall_and. by split. }
    rewrite Forall_lookup in Hwf. pose proof (Hwf i m Hi) as Hwm. pose proof (wm_rows m Hwm).
    pose proof (started_sum m Hwm). pose proof (movable_max m Hwm). pose proof (wm_counts m Hwm).
    destruct (bump_wf 0 1 0 m) as [Hwm' Hst]; [done|lia..|].
    apply (Hgo i m (bump 0 1 0 m)); [done..| |].
    + eapply roll_start; [done| |done|by left|done]. unfold all_steps in Hsteps. rewrite Forall_lookup in Hsteps. eauto.
    + unfold remaining. rewrite Hst. change (movable (bump 0 1 0 m)) with (movable m). cbn [opened bump]. lia.
  - exists ms. split; [done|]. rewrite <-Forall_Exists_neg in Hdone. apply Forall_and. split; [done|].
    eapply Forall_impl; [done|]. cbn. intros m. lia.
Qed.

(** ** The claim *)

(** C37: a prefill/decode group rolls in lockstep and to its end.  From a group with
    nothing started, through any order of starts the batch step lets through, attempts
    that serve or end, and attempts opened again: no member has a start past a batch
    that some other member has not started in full, the members whose wait is waived
    aside; where a first side is named, its peer has no start in a batch the first side
    has not started in full; and while every member has a step, the roll can go on from
    wherever it stands until every movable Instance of every member has been moved. *)
Theorem roll_in_lockstep first W ms0 ms :
  Forall (λ m, wf_member m ∧ started m = 0) ms0 → rtc (roll_step first W) ms0 ms →
  lockstep W ms ∧ led first W ms
  ∧ (all_steps ms → ∃ ms', rtc (roll_step first W) ms ms' ∧ Forall (λ m, opened m = 0 ∧ movable m ≤ started m) ms').
Proof.
  intros [Hwf Hzero]%Forall_and Hrtc.
  assert (Hroll : rolling first W ms0).
  { rewrite Forall_forall in Hwf, Hzero. split; [by apply Forall_forall|..].
    - intros x y b Hx _ _ Hb. pose proof (mark_range x (Hwf x Hx) b ltac:(lia)). rewrite (Hzero x Hx). lia.
    - intros _ _ f g b _ Hg _ _ Hb. pose proof (mark_range g (Hwf g Hg) (b - 1) ltac:(lia)). rewrite (Hzero g Hg). lia. }
  assert (Hroll' : rolling first W ms).
  { clear Hwf Hzero. induction Hrtc as [|ms1 ms2 ms3 Hstep _ IH]; [done|]. by apply IH, (roll_step_rolling first W ms1). }
  destruct (Hroll') as [_ Hlock Hled]. split_and!; [done..|]. intros Hs. by apply roll_completes.
Qed.

Lemma roll_in_lockstep_witness :
  let e := mkMember "engine" 12 0 2 [2; 4; 5; 7; 8; 10; 11; 12] "r" 0 12 0 0 "" in
  let d := mkMember "decoder" 8 0 1 [1; 2; 3; 4; 5; 6; 7; 8] "r" 0 8 0 0 "" in
  let ms := [e; bump 0 1 0 d] in
  (∃ r, hold (mkStep true 0 [e; d] DecoderComponent false) "" = Some (RolloutHoldGateRatio, r))
  ∧ lockstep (λ _, False) ms ∧ led DecoderComponent (λ _, False) ms
  ∧ (all_steps ms → ∃ ms', rtc (roll_step DecoderComponent (λ _, False)) ms ms'
       ∧ Forall (λ m, opened m = 0 ∧ movable m ≤ started m) ms').
Proof.
  intros e d ms. split; [by exists "engine batch 1 waits for decoder batch 1 to serve first (0 of 1 serving)"|].
  apply (roll_in_lockstep DecoderComponent (λ _, False) [e; d] ms).
  - repeat constructor; cbn; (done || lia).
  - apply rtc_once. eapply (roll_start _ _ [e; d] 1 d "" ""); [done|done|done|by left|vm_compute; reflexivity].
Defined.
