(* ===== verification/BatchReading.v ===== *)
(** * The batch step answers

    [readBatchStep] ends, reads members within the range of [BatchRoll.v], and when it
    governs a start, [hold] answers that start.  Lemmas on the scaled budgets, on the
    counting of a member's rows and on the two loops of the reading. *)

From S2P Require Import Prelude PlanIndices RowOwner BatchPlan BatchMembers BatchStep BatchRoll.
Local Open Scope Z_scope.

(** ** One member *)

Lemma ScaledCount_range scaled v total up : 0 ≤ total ≤ MaxInt32 →
  0 ≤ ScaledCountFromIntOrString scaled v total up ≤ MaxInt32.
Proof.
  intros Ht. unfold ScaledCountFromIntOrString. destruct v as [[n|s]|]; [|destruct (scaled s total up) as [n|]|]; [..|lia].
  - pose proof (i32_range n) as Hr. unfold int32_range in Hr. case_decide; lia.
  - repeat case_decide; unwrap; lia.
  - lia.
Qed.

Lemma ownBudget_range scaled own desired budget : 0 ≤ desired ≤ MaxInt32 → 0 ≤ budget → 0 ≤ ownBudget scaled own desired budget.
Proof.
  intros Hd Hb. unfold ownBudget. destruct own as [v|]; [|done].
  pose proof (ScaledCount_range scaled (Some v) desired true Hd). case_decide; lia.
Qed.

(** What bounds a replica: its rows, its count and its step are at most [MaxCount]. *)
Record bounded_replica (scaled : string → Z → bool → option Z) (pacing : CoordinationPacing) (ir : InferenceReplica) : Prop := {
  br_rows : Z.of_nat (length (InstanceStatuses ir)) ≤ MaxCount;
  br_desired : effectiveDesiredReplicas (Some ir) ≤ MaxCount;
  br_surge : (resolveSurgeStep scaled (Some ir) pacing).2 ≤ MaxCount;
  br_drain : fmaxUnavailable (resolvePairFloor scaled (Some ir) pacing) ≤ MaxCount }.

Lemma effectiveDesired_nonneg ir : 0 ≤ effectiveDesiredReplicas ir.
Proof. unfold effectiveDesiredReplicas. repeat case_match; lia. Qed.

Section reading.
Context (scaled : string → Z → bool → option Z) (pacing : CoordinationPacing) (ir : InferenceReplica).
Context (Hb : bounded_replica scaled pacing ir).

Lemma surge_range : let '(d, s) := resolveSurgeStep scaled (Some ir) pacing in 0 ≤ d ≤ MaxCount ∧ 0 ≤ s ≤ MaxCount.
Proof using Hb.
  destruct Hb as [_ Hd Hs _]. revert Hs. pose proof (effectiveDesired_nonneg (Some ir)). unfold resolveSurgeStep.
  case_decide; cbn [fst snd]; [lia|]. intros Hs. split; [lia|]. split; [|done].
  apply ownBudget_range; [lia|]. unfold MaxSurgeBudget. destruct (GMaxSurge pacing); apply ScaledCount_range; lia.
Qed.

Lemma drain_range : let f := resolvePairFloor scaled (Some ir) pacing in
  0 ≤ fdesired f ≤ MaxCount ∧ 0 ≤ fmaxUnavailable f ≤ MaxCount.
Proof using Hb.
  destruct Hb as [_ Hd _ Hs]. revert Hs. pose proof (effectiveDesired_nonneg (Some ir)). unfold resolvePairFloor.
  case_decide; cbn [fdesired fmaxUnavailable pairableMinimumUnder]; [lia|]. intros Hs. split; [lia|]. split; [|done].
  apply ownBudget_range; [lia|]. unfold MaxUnavailableBudget. destruct (GMaxUnavailable pacing); [|lia].
  apply ScaledCount_range. lia.
Qed.

(** Every row is counted once: on the target or off it, and off it held, open, ended or
    still to move. *)
Definition counted (rows : list InstanceStatus) (m m' : batchMember) : Prop :=
  component m' = component m ∧ desired m' = desired m ∧ step m' = step m ∧ marks m' = marks m ∧ target m' = target m
  ∧ promoted m' + offTarget m' = Z.of_nat (length rows)
  ∧ 0 ≤ promoted m' ∧ 0 ≤ opened m' ∧ 0 ≤ ended m' ∧ 0 ≤ held m'
  ∧ held m' + opened m' + ended m' ≤ offTarget m' ≤ Z.of_nat (length rows).

Lemma countRow_counted heldRows t m0 rows :
  Z.of_nat (length rows) ≤ MaxCount → promoted m0 = 0 → offTarget m0 = 0 → opened m0 = 0 → ended m0 = 0 → held m0 = 0 →
  counted rows m0 (foldl (countRow heldRows t) m0 rows).
Proof using.
  intros Hlen H1 H2 H3 H4 H5. revert Hlen. induction rows as [|row rows IH] using rev_ind; intros Hlen.
  { unfold counted. cbn. split_and!; (done || lia). }
  rewrite length_app in Hlen. cbn [length] in Hlen. specialize (IH ltac:(lia)). rewrite foldl_app. cbn [foldl].
  set (m := foldl _ m0 rows) in *. clearbody m. destruct IH as (Hc & Hd & Hs & Hm & Ht & Hsum & Hp & Ho & He & Hh & Hle).
  unfold counted, countRow. rewrite length_app. cbn [length].
  case_decide; [|destruct (classifyBatchRow row t)];
    cbn [component desired step marks target promoted offTarget opened ended held]; unwrap; (split_and!; (done || lia)).
Qed.

Lemma readBatchMember_wf comp t kind : comp ≠ "" →
  let m := readBatchMember scaled ir comp t pacing kind in wf_member m ∧ component m = comp ∧ marks m = [].
Proof using Hb.
  intros Hc. cbv zeta. unfold readBatchMember.
  assert (Hr : let '(d, s) := (if decide (kind = stepSurge) then resolveSurgeStep scaled (Some ir) pacing
    else (fdesired (resolvePairFloor scaled (Some ir) pacing), fmaxUnavailable (resolvePairFloor scaled (Some ir) pacing))) in
    0 ≤ d ≤ MaxCount ∧ 0 ≤ s ≤ MaxCount).
  { case_decide; [apply surge_range|apply drain_range]. }
  destruct (if decide (kind = stepSurge) then _ else _) as [d s]. destruct Hr as [Hd Hs].
  case_decide as Ht.
  { split; [|done]. constructor; cbn; try done; lia. }
  destruct (countRow_counted (partitionHeldRows (Some ir) (InstanceStatuses ir) t) t
    (mkMember comp d 0 s [] t 0 0 0 0 (heldUpdateReason (Some ir) t)) (InstanceStatuses ir)) as
    (Hc' & Hd' & Hs' & Hm & _ & Hsum & Hp & Ho & He & Hh & Hle); [apply Hb|done..|].
  set (m := foldl _ _ _) in *. clearbody m. cbn [component desired step marks] in *. pose proof (br_rows _ _ _ Hb).
  split; [|done]. constructor; rewrite ?Hc', ?Hd', ?Hs', ?Hm; (done || cbn; lia).
Qed.
End reading.

Lemma notYetObserved_wf m : wf_member m → wf_member (notYetObserved m) ∧ component (notYetObserved m) = component m
  ∧ marks (notYetObserved m) = [].
Proof. intros [Hn Hc Hs Hr _ _]. split; [|done]. constructor; cbn; try done; lia. Qed.

(** The partition counts Instances and not indexes: of the Instances 1 and 2 it holds the
    first, though no index is below it. *)
Example partition_counts_instances :
  let row := λ i, mkStatus i 1 InstancePhaseReady "svc-engine-aa" "svc-engine-aa" 1 1 None 0 None None in
  elements (PartitionHeldIndices (Some 1) [Some (row 2); Some (row 1)] "svc-engine-bb") = [1].
Proof. vm_compute. reflexivity. Qed.

(** ** The plan of the pairing members *)

Lemma batches_rising prefill decode ps ds tol ms m :
  batches_from prefill decode ps ds tol m ms → m.1 ≤ prefill → m.2 ≤ decode →
  rising m.1 ms.*1 ∧ rising m.2 ms.*2 ∧ Z.of_nat (length ms) ≤ prefill - m.1 + (decode - m.2).
Proof.
  revert m. induction ms as [|n ms IH]; intros m; [cbn; intros -> ? ?; split_and!; (done || lia)|].
  intros [[(Hn1 & Hn2 & Hne) _] Hms] Hm1 Hm2. destruct (IH n Hms) as (Hr1 & Hr2 & Hlen); [lia..|].
  assert (n.1 - m.1 + (n.2 - m.2) ≠ 0).
  { intros Hz. apply Hne. destruct n, m. cbn in *. f_equal; lia. }
  rewrite !fmap_cons. cbn [rising length]. split_and!; (done || lia).
Qed.

Lemma pairedBatchPlan_marks prefill decode ps ds tol :
  prefill ≤ MaxCount → decode ≤ MaxCount → ps ≤ MaxCount → ds ≤ MaxCount → 0 ≤ tol ≤ 100 →
  ∃ pm dm, pairedBatchPlan prefill decode ps ds tol = Some (pm, dm)
    ∧ (rising 0 pm ∧ Z.of_nat (length pm) ≤ 2 * MaxCount) ∧ rising 0 dm ∧ Z.of_nat (length dm) ≤ 2 * MaxCount.
Proof.
  intros Hp Hd Hps Hds Ht. unfold pairedBatchPlan.
  case_decide as Hg; [exists [], []; cbn; split_and!; (done || lia)|].
  destruct (planFrom_batches (Z.to_nat (prefill + decode)) prefill decode ps ds tol 0 0) as (ms & -> & Hms);
    [constructor; nia|lia..|].
  exists ms.*1, ms.*2. destruct (batches_rising _ _ _ _ _ _ _ Hms) as (Hr1 & Hr2 & Hlen); [cbn; lia..|].
  cbn in Hlen. rewrite !length_fmap. split_and!; (done || lia).
Qed.

Lemma withMarks_wf ms m : wf_member m → rising 0 ms → Z.of_nat (length ms) ≤ 2 * MaxCount → wf_member (withMarks ms m).
Proof. intros [Hn Hc Hs Hr _ _] Hm Hl. by constructor. Qed.

(** A member as the reading leaves it, up to the marks the plan gives it. *)
Definition same_but_marks (m m' : batchMember) : Prop := ∃ ms, m' = withMarks ms m.

Lemma same_but_marks_refl m : same_but_marks m m.
Proof. exists (marks m). by destruct m. Qed.

Lemma alter_marks ms i l : Forall wf_member ms → rising 0 l → Z.of_nat (length l) ≤ 2 * MaxCount →
  Forall wf_member (alter (withMarks l) i ms) ∧ Forall2 same_but_marks ms (alter (withMarks l) i ms).
Proof.
  intros Hwf Hl Hlen. revert i. induction Hwf as [|m ms Hm Hwf IH]; intros i; [by destruct i|].
  destruct i as [|i]; cbn.
  - split; (constructor; [|]); [by apply withMarks_wf|done|by eexists|].
    clear. induction ms; constructor; [apply same_but_marks_refl|done].
  - destruct (IH i) as [IH1 IH2]. split; constructor; [done..|apply same_but_marks_refl|done].
Qed.

Lemma same_but_marks_trans m1 m2 m3 : same_but_marks m1 m2 → same_but_marks m2 m3 → same_but_marks m1 m3.
Proof. intros [l ->] [l' ->]. by exists l'. Qed.

Lemma planMarks_wf pair tol ms :
  Forall wf_member ms → 0 ≤ tol ≤ 100 →
  is_Some (ms !! default O (pair !! EngineComponent)) → is_Some (ms !! default O (pair !! DecoderComponent)) →
  ∃ ms', planMarks pair tol ms = Some ms' ∧ Forall wf_member ms' ∧ Forall2 same_but_marks ms ms'.
Proof.
  intros Hwf Ht [e He] [d Hd]. unfold planMarks. rewrite He, Hd. cbn [mbind option_bind].
  pose proof Hwf as Hall. rewrite Forall_lookup in Hall. pose proof (Hall _ _ He) as Hwe. pose proof (Hall _ _ Hd) as Hwd.
  pose proof (movable_max e Hwe). pose proof (movable_max d Hwd).
  pose proof (wm_counts e Hwe). pose proof (wm_counts d Hwd). pose proof (wm_step e Hwe). pose proof (wm_step d Hwd).
  destruct (pairedBatchPlan_marks (movable e) (movable d) (step e) (step d) tol) as (em & dm & -> & [Hem Hel] & Hdm & Hdl); [lia..|].
  cbn [mbind option_bind]. eexists. split; [done|].
  destruct (alter_marks ms (default O (pair !! EngineComponent)) em Hwf Hem Hel) as [Hw1 Hs1].
  destruct (alter_marks _ (default O (pair !! DecoderComponent)) dm Hw1 Hdm Hdl) as [Hw2 Hs2]. split; [done|].
  eapply Forall2_trans; [apply same_but_marks_trans|done|done].
Qed.

(** ** The two loops *)

Section first_loop.
Context (get : string → outcome string (option InferenceReplica)).

Record good_reads (comps : list string) (reads : list groupRead) (kinds : list stepKind) : Prop := {
  gr_comps : rcomp <$> reads = comps;
  gr_get : ∀ r, r ∈ reads → get (rcomp r) = Ok (rir r);
  gr_kind : ∀ r, r ∈ reads → rkind r ≠ stepNone → rir r ≠ None;
  gr_pairing : ∀ r, r ∈ reads → pairing (rcomp r) = true → rkind r ∈ kinds;
  gr_kinds : stepNone ∉ kinds }.

Lemma readReplicas_good keep comps : (∀ c, c ∈ comps → get c ≠ Panic) →
  match readReplicas get keep comps with
  | Ok None => True
  | Ok (Some (reads, kinds)) => good_reads comps reads kinds
  | Err _ => ∃ c e, c ∈ comps ∧ get c = Err e
  | Panic => False
  end.
Proof using.
  induction comps as [|c comps IH]; intros Hp; cbn [readReplicas].
  { constructor; [done|set_solver..]. }
  destruct (get c) as [ir|e|] eqn:Hc; cbn [omap_err obind]; [|exists c, e; set_solver|by specialize (Hp c ltac:(set_solver))].
  set (kind := if pairing c && _ && keep then stepDrain else stepKindOf ir).
  assert (Hkind : kind ≠ stepNone → ir ≠ None).
  { unfold kind. destruct ir; [done|]. cbn. by destruct (pairing c). }
  clearbody kind. destruct (pairing c && bool_decide (kind = stepNone)) eqn:Hnone; [done|].
  specialize (IH ltac:(set_solver)). destruct (readReplicas get keep comps) as [[[reads kinds]|]|e|]; cbn [obind mbind option_bind];
    [|done|destruct IH as (c' & e' & ? & ?); exists c', e'; set_solver|done].
  destruct IH as [H1 H2 H3 H4 H5]. constructor.
  - by rewrite fmap_cons, H1.
  - intros r [->|Hr]%elem_of_cons; [done|auto].
  - intros r [->|Hr]%elem_of_cons; [done|auto].
  - intros r [->|Hr]%elem_of_cons Hpr; cbn in *; [rewrite Hpr; set_solver|]. destruct (pairing c); [|auto].
    apply elem_of_cons. right. auto.
  - destruct (pairing c); [|done]. cbn in Hnone. apply bool_decide_eq_false in Hnone. apply not_elem_of_cons. split; [done|auto].
Qed.

End first_loop.

Section second_loop.
Context (scaled : string → Z → bool → option Z) (ctx : GateContext).

Record good_state (st : readState) : Prop := {
  gs_wf : Forall wf_member (rsMembers st);
  gs_acting : rsActing st = -1 ∨ 0 ≤ rsActing st ∧ ∃ m, rsMembers st !! Z.to_nat (rsActing st) = Some m ∧ component m = CComponent ctx;
  gs_pair : ∀ c i, rsPair st !! c = Some i → ∃ m, rsMembers st !! i = Some m ∧ component m = c }.

Lemma readMember_good kinds actingIR r st :
  rcomp r ≠ "" → (∀ ir, rir r = Some ir → bounded_replica scaled (GroupPacing ctx) ir) → (rkind r ∈ kinds → rir r ≠ None) →
  good_state st →
  ∃ st', readMember scaled ctx kinds actingIR st r = Ok st' ∧ good_state st'
    ∧ (∀ c, is_Some (rsPair st !! c) → is_Some (rsPair st' !! c))
    ∧ (pairing (rcomp r) = true → rkind r ∈ kinds → is_Some (rsPair st' !! rcomp r)).
Proof using.
  intros Hne Hbr Hsome Hst. unfold readMember. case_decide as Hk; [exists st; split_and!; [done..|tauto]|].
  assert (rkind r ∈ kinds) as Hin by (by destruct (decide (rkind r ∈ kinds))).
  destruct (rir r) as [ir|] eqn:Hir; [|by specialize (Hsome Hin)]. eexists. split; [done|].
  set (own := bool_decide (rcomp r = CComponent ctx)). set (t := if own then default (rollTarget ir) _ else _).
  set (m := if negb own && _ then notYetObserved _ else _).
  assert (Hm : wf_member m ∧ component m = rcomp r).
  { destruct (readBatchMember_wf scaled (GroupPacing ctx) ir (Hbr ir eq_refl) (rcomp r) t (rkind r) Hne) as (Hwf & Hc & _).
    unfold m. destruct (negb own && _); [|done]. destruct (notYetObserved_wf _ Hwf) as (? & -> & _). done. }
  clearbody m t. destruct Hm as [Hm Hmc], Hst as [Hwf Hact Hpair]. split_and!.
  - split; cbn [rsMembers rsActing rsPair].
    + apply Forall_app. split; [done|]. by constructor.
    + destruct own eqn:Hown.
      * right. split; [lia|]. exists m. rewrite Nat2Z.id, lookup_app_r, Nat.sub_diag by lia. split; [done|].
        rewrite Hmc. by apply bool_decide_eq_true in Hown.
      * destruct Hact as [->|(Hge & x & Hx & Hxc)]; [by left|right]. split; [done|]. exists x.
        split; [|done]. by apply lookup_app_l_Some.
    + intros c i. destruct (pairing (rcomp r)); [rewrite lookup_insert_Some; intros [(<- & <-)|(_ & Hi)]|intros Hi].
      * exists m. by rewrite lookup_app_r, Nat.sub_diag by lia.
      * destruct (Hpair c i Hi) as (x & Hx & Hxc). exists x. split; [|done]. by apply lookup_app_l_Some.
      * destruct (Hpair c i Hi) as (x & Hx & Hxc). exists x. split; [|done]. by apply lookup_app_l_Some.
  - intros c Hc. cbn [rsPair]. destruct (pairing (rcomp r)); [|done]. rewrite lookup_insert_is_Some'. tauto.
  - intros Hp _. cbn [rsPair]. rewrite Hp, lookup_insert. by case_decide.
Qed.
Lemma readMembers_good kinds actingIR reads st :
  (∀ r, r ∈ reads → rcomp r ≠ "" ∧ (∀ ir, rir r = Some ir → bounded_replica scaled (GroupPacing ctx) ir)
    ∧ (rkind r ∈ kinds → rir r ≠ None)) → good_state st →
  ∃ st', ofold (readMember scaled ctx kinds actingIR) st reads = Ok st' ∧ good_state st'
    ∧ (∀ c, is_Some (rsPair st !! c) → is_Some (rsPair st' !! c))
    ∧ ∀ r, r ∈ reads → pairing (rcomp r) = true → rkind r ∈ kinds → is_Some (rsPair st' !! rcomp r).
Proof using.
  revert st. induction reads as [|r reads IH]; intros st Hr Hst; [exists st; split_and!; [done..|set_solver]|].
  destruct (Hr r ltac:(set_solver)) as (Hne & Hbr & Hsome).
  destruct (readMember_good kinds actingIR r st Hne Hbr Hsome Hst) as (st1 & H1 & Hst1 & Hk1 & Hp1).
  destruct (IH st1) as (st' & H' & Hst' & Hk' & Hp'); [set_solver|done|].
  exists st'. cbn [ofold]. rewrite H1. cbn [obind]. split_and!; [done..|auto|].
  intros x [->|Hx]%elem_of_cons; auto.
Qed.
End second_loop.

(** A released member's pairing peer has nothing left for anyone to wait on. *)
Lemma partnerless_peer ctx s pair me :
  Forall wf_member (members s) → members s !! Z.to_nat (acting s) = Some me →
  (∀ c i, pair !! c = Some i → ∃ m, members s !! i = Some m ∧ component m = c) → partnerless ctx s pair = true →
  ∃ peer, peer ∈ members s ∧ component peer = pairingPeer (component me) ∧ ∀ b, b ≤ lastBatch → mark peer b ≤ settled peer.
Proof.
  intros Hwf Hme Hpair. unfold partnerless. rewrite Hme. destruct (negb _); [done|].
  destruct (pair !! _) as [i|] eqn:Hi; [|done]. destruct (ratioToleranceConfigured ctx); [done|].
  destruct (Hpair _ _ Hi) as (peer & Hp & Hc). rewrite Hp. intros (((Hd & _)%andb_true_iff & Hpr)%andb_true_iff & _)%andb_true_iff.
  apply bool_decide_eq_true in Hpr. exists peer. assert (Hin : peer ∈ members s) by by eapply list_elem_of_lookup_2.
  split_and!; [done..|]. intros b Hb. rewrite Forall_forall in Hwf. pose proof (Hwf peer Hin) as Hwp.
  pose proof (mark_range peer Hwp b Hb). rewrite settled_sum by done. pose proof (movable_max peer Hwp).
  pose proof (wm_rows peer Hwp). pose proof (wm_counts peer Hwp). lia.
Qed.

(** The step the reading ends with: its members, up to their marks, are those read. *)
Lemma governing_step_answers ctx ms0 ms act pair first waived me0 :
  good_state ctx (mkReadState act ms0 pair) → Forall wf_member ms → Forall2 same_but_marks ms0 ms →
  0 ≤ act → ms0 !! Z.to_nat act = Some me0 → 0 < step me0 →
  let s0 := mkStep false act ms first false in
  let s := mkStep true act ms first (partnerless ctx s0 pair) in
  ∃ me b g r, members s !! Z.to_nat (acting s) = Some me ∧ component me = CComponent ctx ∧ 0 < step me
    ∧ nextBatch me = Some b ∧ hold s waived = Some (g, r)
    ∧ (g = "" ↔ released s = true ∨ clear_to_start (firstSide s) waived (members s) me b)
    ∧ (released s = true → ∃ peer, peer ∈ members s ∧ component peer = pairingPeer (component me)
         ∧ ∀ b, b ≤ lastBatch → mark peer b ≤ settled peer).
Proof.
  intros [_ Hact Hpair] Hwf Hsame Hge Hme0 Hstep s0 s. cbn [rsMembers rsActing rsPair] in *.
  destruct (Forall2_lookup_l _ _ _ _ _ Hsame Hme0) as (me & Hme & l & Hl).
  destruct Hact as [?|(_ & m & Hm & Hmc)]; [lia|]. rewrite Hme0 in Hm. injection Hm as <-.
  assert (Hc : component me = CComponent ctx) by (by rewrite Hl).
  assert (Hs : 0 < step me) by (by rewrite Hl).
  destruct (hold_spec s0 waived me) as (b & g & r & Hnb & _ & Hh & Hclear); [done..|].
  assert (Hpeer : partnerless ctx s0 pair = true → ∃ peer, peer ∈ ms ∧ component peer = pairingPeer (component me)
         ∧ ∀ b, b ≤ lastBatch → mark peer b ≤ settled peer).
  { apply (partnerless_peer ctx s0 pair me Hwf Hme). intros c i Hi. destruct (Hpair c i Hi) as (x & Hx & Hxc).
    destruct (Forall2_lookup_l _ _ _ _ _ Hsame Hx) as (y & Hy & l' & ->). by exists (withMarks l' x). }
  exists me, b. subst s. cbn [members acting released firstSide] in *.
  destruct (partnerless ctx s0 pair) eqn:Hrel.
  - exists "", "". split_and!; [done..|naive_solver|done].
  - exists g, r. split_and!; [done..|rewrite Hclear; naive_solver|done].
Qed.

(** C23: the batch step answers.  For a group whose replicas the API server gives or
    fails to give, with counts, steps and rows in range and a tolerance in percent: the
    reading ends without a panic, and fails only when a read did; when it governs the
    start, its members are in range, the acting member is the Component asked about and
    has a step, and the hold answers, under no gate exactly when the member is released
    or waits for nothing; and a member is released only when its pairing peer has every
    batch settled. *)
Theorem readBatchStep_answers scaled get ctx waived :
  (∀ c, c ∈ GroupComponents ctx → c ≠ "" ∧ get c ≠ Panic
    ∧ ∀ ir, get c = Ok (Some ir) → bounded_replica scaled (GroupPacing ctx) ir) →
  (∀ t, batchTolerance ctx = Some t → 0 ≤ t ≤ 100) →
  match readBatchStep scaled get ctx with
  | None | Some Panic => False
  | Some (Err _) => ∃ c e, c ∈ GroupComponents ctx ∧ get c = Err e
  | Some (Ok s) =>
      governs s = true →
      Forall wf_member (members s)
      ∧ ∃ me b g r, members s !! Z.to_nat (acting s) = Some me ∧ component me = CComponent ctx ∧ 0 < step me
        ∧ nextBatch me = Some b ∧ hold s waived = Some (g, r)
        ∧ (g = "" ↔ released s = true ∨ clear_to_start (firstSide s) waived (members s) me b)
        ∧ (released s = true → ∃ peer, peer ∈ members s ∧ component peer = pairingPeer (component me)
             ∧ ∀ b, b ≤ lastBatch → mark peer b ≤ settled peer)
  end.
Proof.
  intros Hget Htol. unfold readBatchStep. destruct (_ || _) eqn:Hskip; [done|].
  apply orb_false_iff in Hskip as [_ Hgroup%negb_false_iff].
  apply andb_true_iff in Hgroup as [He%bool_decide_eq_true Hd%bool_decide_eq_true].
  pose proof (readReplicas_good get (KeepRatio (Rules ctx)) (GroupComponents ctx)) as Hreads.
  destruct (readReplicas _ _ _) as [[[reads kinds]|]|e|];
    [|done|apply Hreads; intros c Hc; apply Hget, Hc|apply Hreads; intros c Hc; apply Hget, Hc].
  destruct Hreads as [Hcomps Hg Hk Hpk Hkinds]; [intros c Hc; apply Hget, Hc|].
  assert (Hin : ∀ r, r ∈ reads → rcomp r ∈ GroupComponents ctx).
  { intros r Hr. rewrite <-Hcomps. by apply list_elem_of_fmap_2. }
  destruct (readMembers_good scaled ctx kinds (list_find (λ r, rcomp r = CComponent ctx) (reverse reads) ≫= λ ir, rir ir.2)
    reads (mkReadState (-1) [] ∅)) as (st & -> & Hst & _ & Hpairs).
  { intros r Hr. destruct (Hget (rcomp r) (Hin r Hr)) as (Hne & _ & Hbr). split_and!; [done| |].
    - intros ir Hir. apply Hbr. rewrite (Hg r Hr). by rewrite Hir.
    - intros Hkr. apply Hk; [done|]. by intros Hn; rewrite Hn in Hkr. }
  { split; [by constructor|by left|]. intros c i Hi. done. }
  case_decide as Hact; [done|]. pose proof Hst as [Hwf Hacting Hpair].
  destruct Hacting as [?|(Hge & me0 & Hme0 & Hmc)]; [lia|]. rewrite Hme0. case_decide as Hstep; [done|].
  assert (Hpaired : ∀ c, pairing c = true → c ∈ GroupComponents ctx → is_Some (rsMembers st !! default O (rsPair st !! c))).
  { intros c Hc Hcin. rewrite <-Hcomps in Hcin. apply list_elem_of_fmap in Hcin as (r & -> & Hr).
    destruct (Hpairs r Hr Hc) as [i Hi]; [by apply Hpk|]. rewrite Hi. destruct (Hpair _ _ Hi) as (x & Hx & _). by exists x. }
  assert (∃ ms, match KeepRatio (Rules ctx), batchTolerance ctx with
    | true, Some tolerance => planMarks (rsPair st) tolerance (rsMembers st) | _, _ => Some (rsMembers st) end = Some ms
    ∧ Forall wf_member ms ∧ Forall2 same_but_marks (rsMembers st) ms) as (ms & -> & Hms & Hsame).
  { assert (Hrefl : Forall2 same_but_marks (rsMembers st) (rsMembers st)).
    { apply Forall_Forall2_diag, Forall_forall. intros x _. apply same_but_marks_refl. }
    destruct (KeepRatio (Rules ctx)); [|by exists (rsMembers st)].
    destruct (batchTolerance ctx) as [tol|]; [|by exists (rsMembers st)].
    apply planMarks_wf; [done|by apply Htol|by apply Hpaired|by apply Hpaired]. }
  cbn [mbind option_bind]. intros _. split; [done|].
  apply (governing_step_answers ctx (rsMembers st) ms (rsActing st) (rsPair st) _ waived me0); try done; [by destruct st|lia].
Qed.

Lemma readBatchStep_answers_witness :
  let scaled := λ (s : string) (total : Z) (_ : bool), if decide (s = "25%") then Some ((total + 3) / 4) else None in
  let row := λ i, mkStatus i 1 InstancePhaseReady "svc-engine-aa" "svc-engine-aa" 1 1 None 0 None None in
  let replica := λ n, mkReplica ∅ 1 (Some n) None None [1] None None "svc-engine-bb" (row <$> seqZ 0 n) [] "" 1 in
  let get := λ c : string, Ok (if decide (c = EngineComponent) then Some (replica 12) else Some (replica 8)) in
  let ctx := mkContext None EngineComponent false "RollingUpdate" [EngineComponent; DecoderComponent]
    (mkPacing None None (Some 10)) (Some "svc-engine-bb") (mkRules true DecoderComponent) None in
  (∃ ms, readBatchStep scaled get ctx = Some (Ok (mkStep true 0 ms DecoderComponent false))
    ∧ marks <$> ms = [[3; 6; 9; 12]; [2; 4; 6; 8]])
  ∧ match readBatchStep scaled get ctx with
    | None | Some Panic => False
    | Some (Err _) => ∃ c e, c ∈ GroupComponents ctx ∧ get c = Err e
    | Some (Ok s) =>
        governs s = true →
        Forall wf_member (members s)
        ∧ ∃ me b g r, members s !! Z.to_nat (acting s) = Some me ∧ component me = CComponent ctx ∧ 0 < step me
          ∧ nextBatch me = Some b ∧ hold s "" = Some (g, r)
          ∧ (g = "" ↔ released s = true ∨ clear_to_start (firstSide s) "" (members s) me b)
          ∧ (released s = true → ∃ peer, peer ∈ members s ∧ component peer = pairingPeer (component me)
               ∧ ∀ b, b ≤ lastBatch → mark peer b ≤ settled peer)
    end.
Proof.
  intros scaled row replica get ctx.
  split; [eexists; split; vm_compute; reflexivity|].
  apply (readBatchStep_answers scaled get ctx "").
  - intros c Hc. split; [by intros ->; cbn in Hc; set_solver|]. split; [done|]. intros ir Hir. subst get. cbn beta in Hir.
    case_decide; injection Hir as <-; constructor; vm_compute; done.
  - intros t [= <-]. lia.
Defined.
