(* ===== verification/ExtraPods.v ===== *)
(** * What extra pods hold of the surge budget

    The rest of [pkg/controller/v1beta1/workload/escalation/budget.go]: the budgets a
    component declares for itself, and the surge slots that the pods beyond an
    Instance's own count hold, whether they are terminating or were left alive by an
    attempt that is gone.  A time is an integer, and the zero time is [None]. *)

From S2P Require Import Prelude PlanIndices RowOwner BuildPlan BatchPlan BatchMembers.
Local Open Scope Z_scope.

Definition PerComponentMaxSurgeBudget (scaled : string → Z → bool → option Z) (ru : option RollingUpdateSpec) (replicas : Z) : Z :=
  match ru ≫= MaxSurge with
  | None => BudgetNoLimit
  | Some v => ScaledCountFromIntOrString scaled (Some v) replicas true
  end.

Definition PerComponentMaxUnavailableBudget (scaled : string → Z → bool → option Z) (ru : option RollingUpdateSpec) (replicas : Z) : Z :=
  match ru ≫= MaxUnavailable with
  | None => BudgetNoLimit
  | Some v => ScaledCountFromIntOrString scaled (Some v) replicas true
  end.

(** A pod's name, its deletion deadline and its revision-hash label, empty when missing. *)
Record ListedPod := mkListed { PodName : string; DeletionTimestamp : option Z; RevisionHashLabel : string }.

Definition RevisionFromPod (pod : ListedPod) : RevisionID := mkRevision "" (RevisionHashLabel pod).
Definition IsZero (r : RevisionID) : bool := bool_decide (rhash r = "").

(** The pod carries another revision than its row runs. *)
Definition offRevision (running : RevisionID) (pod : ListedPod) : bool :=
  negb (IsZero running) && negb (IsZero (RevisionFromPod pod)) && negb (Same (RevisionFromPod pod) running).

Definition liveExtraPodNames (pods : list ListedPod) (running : RevisionID) (n : Z) : list string :=
  let off := PodName <$> filter (λ p, offRevision running p = true) pods in
  let on := PodName <$> filter (λ p, offRevision running p = false) pods in
  let '(off, on) := if decide (on = []) then ([], off) else (off, on) in
  let names := sort_slice str_lt off ++ sort_slice (λ a b, str_lt b a) on in
  let names := if decide (n < i32 (Z.of_nat (length names))) then take (Z.to_nat n) names else names in
  sort_slice str_lt names.

Record ExtraPodSurge := mkExtra {
  Slots : Z; Terminating : list string; Live : list string; LiveSlotsByInstance : gmap Z Z; NextRelease : option Z }.

Definition TerminatingSlots (e : ExtraPodSurge) : Z :=
  i32 (Slots e - map_fold (λ _ slots live, i32 (live + slots)) 0 (LiveSlotsByInstance e)).

(** The buckets another anchor charges: a surge step and the index it pins, and the rows
    that rolled and do not serve. *)
Definition chargedRows (statuses : list InstanceStatus) (rolled : list Z) : gset Z :=
  foldl (λ charged idx, {[idx]} ∪ charged)
    (foldl (λ charged s,
       match Operation s with
       | Some op =>
           if surgeSteps (Step op) then
             match SurgeIndex op with Some i => {[i]} | None => ∅ end ∪ ({[Index s]} ∪ charged)
           else charged
       | None => charged
       end) ∅ statuses) rolled.

Definition runningRevisions (statuses : list InstanceStatus) : gmap Z RevisionID :=
  foldl (λ m s, <[Index s := RevisionFromName (RunningRevision s)]> m) ∅ statuses.

Definition shares (instances : list InstancePlan) : gmap Z Z :=
  foldl (λ m inst, <[PIndex inst := TotalPods (PRunners inst)]> m) ∅ instances.

Definition podsPerInstance (instances : list InstancePlan) : Z :=
  foldl (λ n inst, if decide (n < TotalPods (PRunners inst)) then TotalPods (PRunners inst) else n) 1 instances.

Definition slotsOf (perInstance pods : Z) : Z := Z.quot (i32 (i32 (pods + perInstance) - 1)) perInstance.

(** What the loop over one bucket keeps; a nil pod is [None]. *)
Record bucket := mkBucket {
  listed : Z; terminating : Z; terminatingNames : list string; live : list ListedPod; release : option Z }.

Definition readPod (now : Z) (b : bucket) (pod : option ListedPod) : bucket :=
  match pod with
  | None => b
  | Some p =>
      match DeletionTimestamp p with
      | Some deadline =>
          if decide (deadline < now) then b
          else
            mkBucket (i32 (listed b + 1)) (i32 (terminating b + 1)) (terminatingNames b ++ [PodName p]) (live b)
              (match release b with Some r => if decide (deadline < r) then Some deadline else Some r | None => Some deadline end)
      | None => mkBucket (i32 (listed b + 1)) (terminating b) (terminatingNames b) (live b ++ [p]) (release b)
      end
  end.

Definition readBucket (now : Z) (pods : list (option ListedPod)) : bucket := foldl (readPod now) (mkBucket 0 0 [] [] None) pods.

(** [a.IsZero() || b.Before(a)] keeps [b], which is set here. *)
Definition earlier (a b : option Z) : option Z :=
  match a, b with
  | None, _ => b
  | Some x, Some y => if decide (y < x) then b else a
  | Some _, None => a
  end.

(** What a bucket is charged: its terminating pods beyond the share, and its live ones
    when the plan owns it. *)
Definition countedOf (share : gmap Z Z) (idx : Z) (b : bucket) : Z * Z :=
  let extra := i32 (listed b - default 0 (share !! idx)) in
  if decide (extra ≤ 0) then (0, 0)
  else
    let t := Z.min extra (terminating b) in
    (t, if decide (is_Some (share !! idx)) then i32 (extra - t) else 0).

Definition chargeBucket (share : gmap Z Z) (perInstance : Z) (running : gmap Z RevisionID) (charged : gset Z)
    (now : Z) (out : ExtraPodSurge) (kv : Z * list (option ListedPod)) : ExtraPodSurge :=
  let '(idx, pods) := kv in
  if decide (idx ∈ charged) then out
  else
    let b := readBucket now pods in
    let '(t, l) := countedOf share idx b in
    if decide (i32 (t + l) ≤ 0) then out
    else
      mkExtra (i32 (Slots out + slotsOf perInstance (i32 (t + l))))
        (if decide (t > 0) then Terminating out ++ sort_slice str_lt (terminatingNames b) else Terminating out)
        (if decide (l > 0) then Live out ++ liveExtraPodNames (live b) (default (mkRevision "" "") (running !! idx)) l else Live out)
        (if decide (l > 0) then <[idx := slotsOf perInstance l]> (LiveSlotsByInstance out) else LiveSlotsByInstance out)
        (if decide (t > 0) then earlier (NextRelease out) (release b) else NextRelease out).

(** The buckets in the order of their indexes. *)
Definition sortedBuckets (byInstance : gmap Z (list (option ListedPod))) : list (Z * list (option ListedPod)) :=
  sort_slice (λ a b, Z.ltb (fst a) (fst b)) (map_to_list byInstance).

Definition ExtraPodSurgeInFlight (plan : ComponentPlan) (statuses : list InstanceStatus)
    (byInstance : gmap Z (list (option ListedPod))) (rolled : list Z) (now : Z) : ExtraPodSurge :=
  let charged := chargedRows statuses rolled in
  let share := shares (Instances plan) in
  foldl (chargeBucket share (podsPerInstance (Instances plan)) (runningRevisions statuses) charged now)
    (mkExtra 0 [] [] ∅ None) (sortedBuckets byInstance).

(** ** What is charged *)

(** The pods of a bucket that are listed, and those of them past no deadline and being deleted. *)
Definition dying (now : Z) (p : ListedPod) : Prop := ∃ d, DeletionTimestamp p = Some d ∧ now ≤ d.
Definition alive (p : ListedPod) : Prop := DeletionTimestamp p = None.
#[export] Instance dying_dec now p : Decision (dying now p).
Proof.
  unfold dying. destruct (DeletionTimestamp p) as [d|]; [|right; naive_solver].
  destruct (decide (now ≤ d)); [left; eauto|right; naive_solver].
Defined.
#[export] Instance alive_dec p : Decision (alive p).
Proof. unfold alive. apply _. Defined.

Definition podsOf (pods : list (option ListedPod)) : list ListedPod := omap id pods.

Lemma readBucket_reads now pods : Z.of_nat (length pods) ≤ MaxInt32 →
  let b := readBucket now pods in
  live b = filter alive (podsOf pods) ∧ terminatingNames b = PodName <$> filter (dying now) (podsOf pods)
  ∧ terminating b = Z.of_nat (length (filter (dying now) (podsOf pods)))
  ∧ listed b = terminating b + Z.of_nat (length (live b)) ∧ 0 ≤ terminating b ∧ listed b ≤ Z.of_nat (length pods).
Proof.
  unfold readBucket, podsOf. induction pods as [|pod pods IH] using rev_ind; intros Hlen; [cbn; split_and!; done || lia|].
  rewrite length_app in Hlen. cbn [length] in Hlen. destruct IH as (H1 & H2 & H3 & H4 & H5 & H6); [lia|].
  rewrite foldl_app. cbn [foldl]. rewrite omap_app, !filter_app, !length_app. cbn [length]. cbv zeta.
  set (b := foldl _ _ pods) in *. clearbody b. unfold readPod.
  destruct pod as [p|]; [|change (omap id [@None ListedPod]) with (@nil ListedPod); rewrite !filter_nil, !app_nil_r; cbn [length]; split_and!; done || lia].
  change (omap id [Some p]) with [p]. rewrite !filter_cons, !filter_nil.
  destruct (DeletionTimestamp p) as [d|] eqn:Hd.
  - rewrite (decide_False (P := alive p)) by (unfold alive; congruence). case_decide as Hlt.
    + rewrite decide_False by (intros (d' & Hd' & ?); rewrite Hd in Hd'; simplify_eq; lia). rewrite !app_nil_r. cbn [length]. split_and!; done || lia.
    + rewrite decide_True by (exists d; split; [done|lia]). rewrite app_nil_r. cbn [live terminatingNames terminating listed].
      rewrite fmap_app. cbn [length]. unwrap. split_and!; [done|by rewrite H2|lia..].
  - rewrite (decide_True (P := alive p)) by done.
    rewrite decide_False by (intros (d' & Hd' & _); congruence). cbn [live terminatingNames terminating listed].
    rewrite app_nil_r, H1, length_app. cbn [length]. unwrap. rewrite H1 in *. split_and!; done || lia.
Qed.

Lemma liveExtraPodNames_names pods running n :
  Z.of_nat (length pods) ≤ MaxInt32 → 0 ≤ n ≤ Z.of_nat (length pods) →
  Z.of_nat (length (liveExtraPodNames pods running n)) = n
  ∧ ∀ x, x ∈ liveExtraPodNames pods running n → x ∈ PodName <$> pods.
Proof.
  intros Hlen Hn. unfold liveExtraPodNames.
  set (off := PodName <$> filter (λ p, offRevision running p = true) pods). set (on := PodName <$> filter (λ p, offRevision running p = false) pods).
  assert (Hperm : off ++ on ≡ₚ PodName <$> pods).
  { unfold off, on. rewrite <-fmap_app. apply fmap_Permutation. clear. induction pods as [|p pods IH]; [done|].
    rewrite !filter_cons. repeat case_decide; try (destruct (offRevision running p); congruence).
    - by rewrite <-app_comm_cons, IH.
    - by rewrite <-Permutation_middle, IH. }
  set (split := if decide (on = []) then _ else _).
  assert (Hsplit : split.1 ++ split.2 ≡ₚ PodName <$> pods).
  { unfold split. case_decide as Hon; cbn [fst snd]; [|done]. rewrite <-Hperm, Hon. by rewrite app_nil_r. }
  clearbody split. destruct split as [a b]. cbn [fst snd] in Hsplit.
  set (names := sort_slice str_lt a ++ sort_slice (λ x y, str_lt y x) b).
  assert (Hnames : names ≡ₚ PodName <$> pods) by (unfold names; by rewrite !sort_slice_perm).
  assert (Hl : length names = length pods) by (by rewrite Hnames, length_fmap).
  rewrite i32_id by (unfold int32_range; lia). clearbody names.
  case_decide; (split; [rewrite length_sort_slice, ?length_take; lia|]); intros x; rewrite elem_of_sort_slice.
  - intros Hx%elem_of_take. destruct Hx as (i & Hi & _). rewrite <-Hnames. by eapply list_elem_of_lookup_2.
  - by rewrite Hnames.
Qed.

(** Slots for [n] pods, [per] pods to a slot. *)
Definition ceil (per n : Z) : Z := (n + per - 1) / per.

Lemma ceil_bounds per n : 1 ≤ per → 0 ≤ n → 0 ≤ ceil per n ≤ n ∧ n ≤ per * ceil per n.
Proof.
  intros Hp Hn. unfold ceil. pose proof (Z.div_mod (n + per - 1) per ltac:(lia)).
  pose proof (Z.mod_pos_bound (n + per - 1) per ltac:(lia)). split; [|lia].
  split; [apply Z.div_pos; lia|]. apply Z.lt_succ_r, Z.div_lt_upper_bound; nia.
Qed.

Lemma ceil_mono per a b : 1 ≤ per → a ≤ b → ceil per a ≤ ceil per b.
Proof. intros Hp Hab. unfold ceil. apply Z.div_le_mono; lia. Qed.

(** A fleet of at most 2^29 pods, and plans of at most 2^29 pods to an Instance. *)
Record bounded_pods (plan : ComponentPlan) (byInstance : gmap Z (list (option ListedPod))) : Prop := {
  bp_shares : ∀ i, i ∈ Instances plan → 0 ≤ TotalPods (PRunners i) ≤ 2 ^ 29;
  bp_pods : map_sum_with (λ pods, Z.of_nat (length pods)) byInstance ≤ 2 ^ 29 }.

Section charge.
Context (share : gmap Z Z) (per : Z) (running : gmap Z RevisionID) (charged : gset Z) (now : Z).
Context (Hshare : ∀ i n, share !! i = Some n → 0 ≤ n ≤ 2 ^ 29) (Hper : 1 ≤ per ≤ 2 ^ 29).

(** The terminating and the live pods of a bucket beyond its Instance's share; a bucket
    charged elsewhere has none, and one the plan does not own no live ones. *)
Definition beyond (kv : Z * list (option ListedPod)) : Z * Z :=
  let t := Z.of_nat (length (filter (dying now) (podsOf kv.2))) in
  let l := Z.of_nat (length (filter alive (podsOf kv.2))) in
  let extra := Z.max 0 (t + l - default 0 (share !! kv.1)) in
  if decide (kv.1 ∈ charged) then (0, 0)
  else (Z.min extra t, if decide (is_Some (share !! kv.1)) then extra - Z.min extra t else 0).

Lemma beyond_range kv : 0 ≤ (beyond kv).1 ∧ 0 ≤ (beyond kv).2 ∧ (beyond kv).1 + (beyond kv).2 ≤ Z.of_nat (length kv.2).
Proof using Hshare.
  unfold beyond. case_decide; [cbn; lia|]. cbn [fst snd].
  assert (Z.of_nat (length (filter (dying now) (podsOf kv.2))) + Z.of_nat (length (filter alive (podsOf kv.2)))
    ≤ Z.of_nat (length kv.2)) as Hle.
  { clear. destruct kv as [k pods]. cbn [snd]. unfold podsOf. induction pods as [|[p|] pods IH]; [done| |].
    - change (omap id (Some p :: pods)) with (p :: omap id pods). rewrite !filter_cons. cbn [length].
      repeat case_decide; cbn [length]; try lia. exfalso. unfold dying, alive in *. naive_solver.
    - change (omap id (None :: pods)) with (omap id pods). cbn [length]. lia. }
  pose proof (Hshare kv.1) as Hsh. destruct (share !! kv.1) as [n|] eqn:Hn; cbn [default from_option id];
    [specialize (Hsh n eq_refl)|]; case_decide; lia.
Qed.

Lemma countedOf_beyond kv : kv.1 ∉ charged → Z.of_nat (length kv.2) ≤ 2 ^ 29 →
  countedOf share kv.1 (readBucket now kv.2) = beyond kv.
Proof using Hshare.
  intros Hc Hlen. unfold beyond. rewrite decide_False by done.
  destruct (readBucket_reads now kv.2) as (H1 & _ & H3 & H4 & H5 & H6); [lia|]. unfold countedOf.
  rewrite <-H1, <-H3. set (n := default 0 (share !! kv.1)).
  assert (0 ≤ n ≤ 2 ^ 29).
  { unfold n. destruct (share !! kv.1) as [z|] eqn:E; [by apply (Hshare kv.1)|cbn; lia]. }
  replace (listed _) with (terminating (readBucket now kv.2) + Z.of_nat (length (live (readBucket now kv.2)))) by lia.
  unwrap. case_decide.
  - f_equal; [lia|]. case_decide; lia.
  - unwrap. replace (Z.max 0 _) with (terminating (readBucket now kv.2) + Z.of_nat (length (live (readBucket now kv.2))) - n) by lia.
    done.
Qed.

Lemma slotsOf_ceil n : 0 ≤ n ≤ 2 ^ 29 → slotsOf per n = ceil per n.
Proof using Hper. intros Hn. unfold slotsOf, ceil. unwrap. apply Z.quot_div_nonneg; lia. Qed.

(** What is charged for the buckets read so far. *)
Record charged_for (pre : list (Z * list (option ListedPod))) (out : ExtraPodSurge) : Prop := {
  cf_slots : Slots out = zsum_with (λ kv, ceil per ((beyond kv).1 + (beyond kv).2)) pre;
  cf_live : Z.of_nat (length (Live out)) = zsum_with (λ kv, (beyond kv).2) pre;
  cf_map : map_zsum (LiveSlotsByInstance out) = zsum_with (λ kv, ceil per (beyond kv).2) pre;
  cf_dom : ∀ i n, LiveSlotsByInstance out !! i = Some n → i ∈ pre.*1 ∧ 0 ≤ n;
  cf_named : ∀ x, x ∈ Live out → ∃ kv p, kv ∈ pre ∧ p ∈ podsOf kv.2 ∧ alive p ∧ PodName p = x }.

Lemma chargeBucket_charges pre kv out :
  charged_for pre out → kv.1 ∉ pre.*1 → Z.of_nat (length kv.2) + zsum_with (λ kv, Z.of_nat (length kv.2)) pre ≤ 2 ^ 29 →
  charged_for (pre ++ [kv]) (chargeBucket share per running charged now out kv).
Proof using Hshare Hper.
  intros [H1 H2 H3 H4 H5] Hfresh Hbound.
  pose proof (beyond_range kv) as (Ht & Hl & Htl).
  assert (Hpre : 0 ≤ Slots out ≤ zsum_with (λ kv, Z.of_nat (length kv.2)) pre).
  { rewrite H1. split; [apply zsum_with_nonneg|apply zsum_with_mono]; intros x Hx; pose proof (beyond_range x);
      pose proof (ceil_bounds per ((beyond x).1 + (beyond x).2)); lia. }
  assert (Hsplit : ∀ f : Z * list (option ListedPod) → Z, zsum_with f (pre ++ [kv]) = zsum_with f pre + f kv).
  { intros f. rewrite zsum_with_app, zsum_with_cons, zsum_with_nil. lia. }
  assert (Hkeep : (beyond kv).1 + (beyond kv).2 = 0 → charged_for (pre ++ [kv]) out).
  { intros Hz. assert (Hc0 : ceil per 0 = 0) by (apply Z.div_small; lia).
    constructor; rewrite ?Hsplit, ?fmap_app.
    - rewrite Hz, Hc0. lia.
    - lia.
    - replace (beyond kv).2 with 0 by lia. rewrite Hc0. lia.
    - intros i n Hi. destruct (H4 i n Hi). set_solver.
    - intros x Hx. destruct (H5 x Hx) as (kv' & p & ? & ?). exists kv', p. set_solver. }
  unfold chargeBucket. destruct kv as [idx pods]. cbn [fst snd] in *. case_decide as Hc.
  { apply Hkeep. unfold beyond. by rewrite decide_True by done. }
  assert (0 ≤ zsum_with (λ kv : Z * list (option ListedPod), Z.of_nat (length kv.2)) pre) by (apply zsum_with_nonneg; lia).
  pose proof (countedOf_beyond (idx, pods) Hc ltac:(cbn [snd]; lia)) as Hcb. cbn [fst snd] in Hcb. rewrite Hcb. clear Hcb.
  destruct (beyond (idx, pods)) as [t l] eqn:Hb. cbn [fst snd] in *.
  rewrite (i32_id (t + l)) by (unfold int32_range; lia). case_decide as Hz; [apply Hkeep; lia|]. clear Hkeep.
  pose proof (ceil_bounds per (t + l) ltac:(lia) ltac:(lia)). rewrite !slotsOf_ceil by lia.
  assert (Hll : l ≤ Z.of_nat (length (filter alive (podsOf pods))) ∧ live (readBucket now pods) = filter alive (podsOf pods)).
  { destruct (readBucket_reads now pods) as (HL & _ & HT & _ & _ & _); [lia|]. split; [|done].
    revert Hb. unfold beyond. rewrite decide_False by done. cbn [fst snd]. intros [= <- <-].
    destruct (share !! idx) as [n|] eqn:Hn; cbn [default from_option id]; [pose proof (Hshare idx n Hn)|]; case_decide; lia. }
  destruct Hll as [Hll Hlive]. rewrite Hlive.
  assert (Hlen : Z.of_nat (length (filter alive (podsOf pods))) ≤ MaxInt32).
  { destruct (readBucket_reads now pods) as (HL & _ & _ & HT & HP & HB); [lia|]. rewrite <-HL. lia. }
  destruct (liveExtraPodNames_names (filter alive (podsOf pods)) (default (mkRevision "" "") (running !! idx)) l) as [Hn1 Hn2]; [done|lia|].
  constructor; cbn [Slots Live LiveSlotsByInstance]; rewrite ?Hsplit, ?fmap_app, ?Hb; cbn [fst snd].
  - rewrite H1. unwrap. done.
  - case_decide; [rewrite length_app; lia|lia].
  - case_decide; [|rewrite H3; replace l with 0 by lia; unfold ceil; rewrite Z.div_small by lia; lia].
    rewrite map_zsum_insert_None, H3; [lia|]. apply eq_None_not_Some. intros [n Hn]. by destruct (H4 idx n Hn).
  - intros i n. case_decide; [rewrite lookup_insert_Some|]; [intros [(<- & <-)|(_ & Hi)]|intros Hi].
    + pose proof (ceil_bounds per l). set_solver by lia.
    + destruct (H4 i n Hi). set_solver.
    + destruct (H4 i n Hi). set_solver.
  - intros x Hx. assert (Hold : x ∈ Live out → ∃ kv p, kv ∈ pre ++ [(idx, pods)] ∧ p ∈ podsOf kv.2 ∧ alive p ∧ PodName p = x).
    { intros Hin. destruct (H5 x Hin) as (kv' & p & ? & ?). exists kv', p. set_solver. }
    case_decide; [|by apply Hold]. apply elem_of_app in Hx as [Hx|Hx]; [by apply Hold|].
    apply Hn2, list_elem_of_fmap in Hx as (p & -> & [Ha Hp]%list_elem_of_filter). exists (idx, pods), p. set_solver.
Qed.
End charge.

(** ** The whole count *)

Lemma shares_range instances : (∀ i, i ∈ instances → 0 ≤ TotalPods (PRunners i) ≤ 2 ^ 29) →
  (∀ i n, shares instances !! i = Some n → 0 ≤ n ≤ 2 ^ 29) ∧ 1 ≤ podsPerInstance instances ≤ 2 ^ 29.
Proof.
  intros Hi. unfold shares, podsPerInstance. induction instances as [|x xs IH] using rev_ind.
  { cbn. split; [intros i n; by rewrite lookup_empty|lia]. }
  destruct IH as [IH1 IH2]; [set_solver|]. pose proof (Hi x ltac:(set_solver)). rewrite !foldl_app. cbn [foldl]. split.
  - intros i n [(<- & <-)|(_ & Hn)]%lookup_insert_Some; [done|by apply (IH1 i)].
  - case_decide; lia.
Qed.

Lemma live_total (m : gmap Z Z) : (∀ i n, m !! i = Some n → 0 ≤ n) → map_zsum m ≤ MaxInt32 →
  map_fold (λ _ slots live, i32 (live + slots)) 0 m = map_zsum m.
Proof.
  intros Hm Hle. enough (∀ m : gmap Z Z, (∀ i n, m !! i = Some n → 0 ≤ n) → map_zsum m ≤ MaxInt32 →
    0 ≤ map_zsum m ∧ map_fold (λ _ slots live, i32 (live + slots)) 0 m = map_zsum m) as Hall by by apply Hall.
  clear. intros m. apply (map_fold_weak_ind (λ (r : Z) (m : gmap Z Z), (∀ i n, m !! i = Some n → 0 ≤ n) → map_zsum m ≤ MaxInt32 →
    0 ≤ map_zsum m ∧ r = map_zsum m)).
  - intros _ _. split; [apply Z.le_refl|reflexivity].
  - clear m. intros i n m r Hi IH Hm. rewrite map_zsum_insert_None by done. intros Hle.
    assert (0 ≤ n) by (apply (Hm i), lookup_insert_eq).
    destruct IH as [IH1 ->]; [|lia|unwrap; lia].
    intros j k Hj. apply (Hm j k). rewrite lookup_insert_ne; [done|]. congruence.
Qed.

Lemma extra_pods_charged plan statuses byInstance rolled now : bounded_pods plan byInstance →
  charged_for (shares (Instances plan)) (podsPerInstance (Instances plan)) (chargedRows statuses rolled) now
    (sortedBuckets byInstance) (ExtraPodSurgeInFlight plan statuses byInstance rolled now).
Proof.
  intros [Hi Hp]. destruct (shares_range _ Hi) as [Hshare Hper]. unfold ExtraPodSurgeInFlight.
  assert (Hnd : NoDup (sortedBuckets byInstance).*1).
  { unfold sortedBuckets. rewrite sort_slice_perm. apply NoDup_fst_map_to_list. }
  assert (Hsum : zsum_with (λ kv : Z * list (option ListedPod), Z.of_nat (length kv.2)) (sortedBuckets byInstance) ≤ 2 ^ 29).
  { etransitivity; [|exact Hp]. unfold sortedBuckets, map_sum_with. rewrite sort_slice_perm. done. }
  revert Hnd Hsum. generalize (sortedBuckets byInstance). intros l Hnd Hsum.
  apply (foldl_ind _ (charged_for _ _ _ _)).
  - by constructor; cbn; rewrite ?map_zsum_empty; (done || set_solver).
  - intros pre kv post out -> IH. apply chargeBucket_charges; [done..| |].
    + rewrite fmap_app, fmap_cons in Hnd. apply NoDup_app in Hnd as (_ & Hd & _). intros Hin. apply (Hd _ Hin). set_solver.
    + rewrite zsum_with_app, zsum_with_cons in Hsum.
      assert (0 ≤ zsum_with (λ kv : Z * list (option ListedPod), Z.of_nat (length kv.2)) post) by (apply zsum_with_nonneg; lia). lia.
Qed.

(** What the extra pods of a component hold of its surge budget: for every Instance that
    no other anchor charges, as many slots as its pods beyond the Instance's own count
    fill, live ones counted only where the plan owns the Instance; as many live pods are
    named as are counted, each of them alive in some bucket; and the terminating pods
    hold the slots the live ones leave. *)
Theorem extra_pods_hold plan statuses byInstance rolled now : bounded_pods plan byInstance →
  let out := ExtraPodSurgeInFlight plan statuses byInstance rolled now in
  let b := beyond (shares (Instances plan)) (chargedRows statuses rolled) now in
  let slots := ceil (podsPerInstance (Instances plan)) in
  Slots out = zsum_with (λ kv, slots ((b kv).1 + (b kv).2)) (map_to_list byInstance)
  ∧ Z.of_nat (length (Live out)) = zsum_with (λ kv, (b kv).2) (map_to_list byInstance)
  ∧ (∀ x, x ∈ Live out → ∃ i pods p, byInstance !! i = Some pods ∧ p ∈ podsOf pods ∧ alive p ∧ PodName p = x)
  ∧ TerminatingSlots out = Slots out - zsum_with (λ kv, slots (b kv).2) (map_to_list byInstance)
  ∧ 0 ≤ TerminatingSlots out.
Proof.
  intros Hb out b slots. destruct (extra_pods_charged plan statuses byInstance rolled now Hb) as [H1 H2 H3 H4 H5].
  destruct Hb as [Hi Hp]. destruct (shares_range _ Hi) as [Hshare Hper]. fold b slots out in H1, H2, H3, H4, H5.
  assert (Hperm : sortedBuckets byInstance ≡ₚ map_to_list byInstance) by apply sort_slice_perm.
  rewrite Hperm in H1, H2, H3.
  assert (Hrange : 0 ≤ map_zsum (LiveSlotsByInstance out) ≤ Slots out ∧ Slots out ≤ 2 ^ 29).
  { rewrite H1, H3. split; [split; [apply zsum_with_nonneg|apply zsum_with_mono]|etransitivity; [apply zsum_with_mono|exact Hp]];
      intros x _; pose proof (beyond_range (shares (Instances plan)) (chargedRows statuses rolled) now Hshare x) as Hr; fold b in Hr.
    - unfold slots. pose proof (ceil_bounds (podsPerInstance (Instances plan)) (b x).2). lia.
    - apply ceil_mono; lia.
    - pose proof (ceil_bounds (podsPerInstance (Instances plan)) ((b x).1 + (b x).2)). unfold slots. lia. }
  assert (Hterm : TerminatingSlots out = Slots out - map_zsum (LiveSlotsByInstance out)).
  { unfold TerminatingSlots. rewrite live_total by (try (intros i n Hin; by destruct (H4 i n Hin)); lia). unwrap. done. }
  split_and!; [done..| |by rewrite Hterm, H3|lia].
  intros x Hx. destruct (H5 x Hx) as ([i pods] & p & Hin & ?). exists i, pods, p. split; [|done].
  rewrite Hperm in Hin. by apply elem_of_map_to_list in Hin.
Qed.

(** A plan of single-pod Instances. *)
Definition singlePods (idxs : list Z) (strategy : BuildPlan.UpdateStrategy) : ComponentPlan :=
  mkComponentPlan "engine" (Z.of_nat (length idxs)) ((λ i, mkInstancePlan i 1 [mkRunner RunnerDefault 1] []) <$> idxs)
    "" strategy "" 0 0 "" false false "" "" "" "" [] ∅.

(** The names are in order within an Instance and not across Instances; and of two
    terminating pods of which one is counted, both are listed. *)
Example extra_pods_listing strategy :
  let out := ExtraPodSurgeInFlight (singlePods [2; 10; 11] strategy) []
    {[2 := [Some (mkListed "w-2-0" None ""); Some (mkListed "w-2-1" (Some 9) "")];
      10 := [Some (mkListed "w-10-0" None ""); Some (mkListed "w-10-1" (Some 8) "")];
      11 := [Some (mkListed "w-11-0" (Some 7) ""); Some (mkListed "w-11-1" (Some 9) "")]]} [] 5 in
  Slots out = 3 ∧ Terminating out = ["w-2-1"; "w-10-1"; "w-11-0"; "w-11-1"] ∧ NextRelease out = Some 7.
Proof. split_and!; vm_compute; reflexivity. Qed.
